(* ===== verification/_CoqProject ===== *)
-Q . S2P
Prelude.v
Json.v
Rounding.v
Api.v
QueueSpec.v
SqlStore.v
SqlSafety.v
SqlMethods.v
SqlConsumer.v
SqlQuotaDb.v
SqlQuotaStore.v
KeySlot.v
RedisClaim.v
ResultDelivery.v
Wire.v
RedisProducer.v
Gates.v
SqlFlow.v
SortedSetFlow.v
Worker.v
HttpClient.v
MergePolicy.v
TierPriority.v
QueueRegistry.v
HotReload.v
Backlog.v
RateGate.v
RedisQuota.v
PubSubFlow.v
MetricSources.v
GateFactory.v
RedisMQ.v
RedisEndToEnd.v
SqlProducer.v
SqlSetup.v
AdmitBatch.v
Migrate.v
Usage.v
GcsMultipart.v
Server.v
Lifecycle.v
