(* ===== verification/Prelude.v ===== *)
(** * llm-d-async: a verification development

    llm-d-async takes inference requests from a queue, lets them through gates,
    sends them to an inference gateway and delivers their results.  This library
    models the program of src/ in Rocq, part by part, and proves what makes each
    part and their compositions correct.

    ** The program and the files that model it

    A producer submits requests to a broker and reads results from it.  The server
    runs one flow (the consumer side of a broker), a merge policy that fans the
    flow's queues into worker pools, and the workers.  A request that cannot be
    served now is retried through the flow; its result goes back through the flow
    to the producer.  Gates, at queues and at pools, decide what is let through.

    - This file: results and errors, the monad of calls that may fail, Go's
      durations and 64-bit wrap-around, float64 values, and lemmas on maps, lists
      and strings that the other files share.  Json: what the sources use of
      encoding/json, on bytes.  Rounding: float64 arithmetic.
    - Data (src/api): Api holds the types, result constructors, queue scores and
      payload splitting; Wire the JSON of envelopes and results, byte by byte.
    - The promise of a durable queue: QueueSpec, an interface (the class
      [DurableQueue]) that both brokers implement.
    - SQL transport (src/producer-sql, src/pkg/sqlflow): SqlStore has the tables
      and every statement of store.go, SqlSafety their invariants, SqlMethods the
      methods under faults, SqlConsumer the consumer.go of one dispatcher,
      SqlQuotaDb the quota tables and functions, SqlQuotaStore the quota store of
      many dispatchers, AdmitBatch its batched admission, SqlFlow the polling,
      retry and result workers of flow.go, SqlSetup its configuration, its
      construction and the batched cancellation checks, SqlProducer the producer,
      Migrate the schema migrations.
    - Redis sorted-set transport (src/pkg/redis, src/producer): KeySlot has the
      cluster slots of keys, RedisClaim the claim scripts of claim.go,
      ResultDelivery the delivery of results, RedisProducer the producer,
      SortedSetFlow the workers of sortedset_impl.go, QueueRegistry its live queues
      and their reconfiguration, HotReload the configuration and its reload
      composed with the merge policy, Backlog the backlog report with its gauges,
      RedisEndToEnd the way of a request from the producer to a worker.
    - The other transports: RedisMQ (redisimpl.go, Redis Pub/Sub) and PubSubFlow
      (src/pkg/pubsub, Cloud Pub/Sub).
    - Gates: Gates is the tree of gates of src/pipeline/gate.go and
      flowcontrol, over a quota store given by the class [QuotaStore]; RateGate and
      RedisQuota are the gates that keep their state in Redis; MetricSources what
      the metric gates read; GateFactory their creation from configuration.
    - Work: Worker is worker.go with the chain of transforms, HttpClient and Usage
      the inference client and its token counts, GcsMultipart a transform.
      MergePolicy and TierPriority are the merge policies.
    - Server: Server has the options, the transport they select, worker pools,
      plugins and probes.  Lifecycle has the runner's run with the goroutines that
      Start of a flow launches: the statements of Start, StopConsuming and Shutdown
      of the SQL flow and of the two over Redis, what cancels each context, who
      waits for whom, and where the requests are meanwhile; the class [Driven]
      states what the order of the statements has to be, and each flow has its
      instance.  The shutdown of the Cloud Pub/Sub flow is in PubSubFlow.

    ** How code corresponds to definitions

    Definitions carry the names of the functions and types they translate.  Structs
    are records, enums and interfaces inductive types, maps finite maps.  Integers
    are [Z], with [wrap64] where the code can overflow; float64 is [float64] of this
    file, rounded by [frnd] of Rounding.  A script of Redis and a statement or
    function of SQL is one step, a function on the keys or tables.  A call may fail
    before its effect or after it ([fault]); the methods are programs in a monad
    over such calls, and the theorems about them hold for every list of faults.
    What other processes do between calls is part of the state they run in.
    Concurrent parts are step relations, their goroutines interleaved at the
    granularity of locks, channel operations and calls, and their theorems hold in
    every reachable state.  Clocks, random numbers, the iteration order of maps, and
    what a select chooses are arguments that range over everything.

    ** What the theorems show

    - No request is lost, and none is finished twice: [sql_conservation],
      [client_refines], [takeover_fences] and [sql_ack_follows_dispatch] for the SQL
      queue, [redis_no_loss], [redis_ack_fenced] and [flow_keeps_requests] for
      Redis, [acked_is_published] and [callback_answered] for Cloud Pub/Sub,
      [retry_conserved] and [retry_returns] for Redis Pub/Sub,
      [worker_exactly_once], [message_ends] and [workers_settle] for the workers,
      [result_not_lost] and [ack_is_final] for the delivery of results.
    - What is submitted arrives: [submit_is_dispatched], [submit_all_or_nothing] and
      [cancel_hits_generation] for Redis, [sql_submit_arrives] and
      [sql_results_read] for SQL, [wire_roundtrip] for the envelope, [form_written]
      for the multipart form.
    - Quotas and rates hold: [sql_quota_in_use], [admission_exact],
      [gates_account_exactly], [concurrency_bounded], [rate_ceiling],
      [cached_within_ttl].
    - Configuration: [validated_transport_resolves], [created_gate_ok] and
      [CreateGate_total], [startup_is_reload], [reload_safe], [policy_in_step],
      [migrations_once].
    - Scheduling and life cycle: [tier_strict_priority], [fan_in_complete],
      [cancel_checks_answered], [shutdown_orderly].

    Where the code does not do what its comments say, a theorem shows it on the
    model: [early_release], [lane_starvation], [failed_release_strands],
    [far_deadline_orphans], [shared_id_acks_unpublished], [same_instant_uncounted],
    [lapsed_lease_refills], [stale_ack_succeeds], [retired_holder_lingers],
    [backoff_reaches_deadline], [brace_name_splits_slots],
    [nan_baseline_accepted] and [stranded_by_shutdown].

    ** Bounds and fuel

    Loops that are not structural take fuel, and each is shown to need no more than
    it is given: JSON scanning twice the length of the text ([scan_fuel_enough]), a
    gate's configuration its size ([CreateGate_total]), a drain of retries and an
    expiry of results the number of entries ([retry_conserved],
    [expireResults_exact]), reading a form its length ([form_written]), receiving
    results the number of them ([ReceiveResult_returns]), and a worker's wait for a
    gate the observations of the clock made before the deadline ([message_ends]).  The nesting of JSON is
    limited to 10,000 as in Go; a round trip needs a payload of at most 9,998.

    ** Not modelled

    Third-party code is not translated: the Redis, Postgres, Pub/Sub, Prometheus and
    HTTP clients appear as calls with arbitrary answers or as the commands of the
    server they talk to, and parsing of URLs, dates, durations, floats and metric
    texts as arguments.  Configuration files enter decoded: reading a file and
    decoding its JSON into the configuration is an argument that may fail.  Logging,
    tracing and metrics are left out except the backlog's gauges, whose values the
    code computes; so are command-line flags, warnings for deprecated flags, the
    removal of metric snapshots on a reload, the metrics server and the settings of
    the HTTP transport.  Tickers are arbitrary interleavings of what they trigger.
    In Lifecycle the body of a loop is busy or not, and what it does to the store is
    in the file on its flow; the runner's set-up before the workers start, its
    deferred calls, the watcher of the configuration file and the backlog poller are
    left out there.  A Redis cluster refuses a script whose keys fall in different
    slots; the scripts here do not, and the slots themselves are in KeySlot.
    Connecting to Redis and instrumenting the client at construction, which may
    fail, are left out.  Expiry of keys is modelled where the code relies on it
    (the producer's markers and payloads, rate and quota state), not for result
    lists.  cmd/main.go, internal/otel, internal/logging, pkg/version and the old
    producer of the end-to-end tests only call libraries. *)
From stdpp Require Import prelude gmap strings list sorting.
From Stdlib Require Import ZArith QArith Lqa Lia.

#[local] Open Scope Z_scope.

(** An equation of closed terms, evaluated by the virtual machine. *)
Ltac by_vm :=
  lazymatch goal with
  | |- ?x = ?y => vm_cast_no_check (@eq_refl _ x)
  end.

Lemma surjective_pairing_eq {A B : Type} (p : A * B) (a : A) : p.1 = a -> p = (a, p.2).
Proof. destruct p. by intros <-. Qed.

(** ** Results of fallible code

    A Go function returning [(T, error)] returns [Res E T] here: [Ok v] for
    [(v, nil)], [Err e] for a non-nil error. *)
Inductive Res (E A : Type) : Type :=
| Ok (a : A)
| Err (e : E).

Arguments Ok {E A} a.
Arguments Err {E A} e.

Definition res_bind {E A B : Type} (r : Res E A) (f : A -> Res E B) : Res E B :=
  match r with
  | Ok a => f a
  | Err e => Err e
  end.

Definition is_ok {E A : Type} (r : Res E A) : bool :=
  match r with
  | Ok _ => true
  | Err _ => false
  end.

Declare Scope res_scope.
Delimit Scope res_scope with res.
Notation "'try' x <- c ; k" := (res_bind c (fun x => k))
  (at level 60, x pattern, c at next level, right associativity) : res_scope.

(** ** Calls to a store that can fail

    A program over a store of type [S].  Each call to the store consumes one
    fault: none ([FNone], or no fault left), the call is lost ([FLost]), or it
    takes effect and its reply is lost ([FReply]); in the last two cases the
    caller sees an error. *)
Inductive fault : Type :=
| FNone
| FLost
| FReply.

Definition Faulty (S E A : Type) : Type := S * list fault -> Res E A * (S * list fault).

Definition f_ret {S E A : Type} (a : A) : Faulty S E A := fun s => (Ok a, s).
Definition f_fail {S E A : Type} (e : E) : Faulty S E A := fun s => (Err e, s).
Definition f_bind {S E A B : Type} (m : Faulty S E A) (k : A -> Faulty S E B) : Faulty S E B :=
  fun s => match m s with
           | (Ok a, s') => k a s'
           | (Err e, s') => (Err e, s')
           end.

Declare Scope faulty_scope.
Delimit Scope faulty_scope with faulty.
Notation "'do!' x <- m ; k" := (f_bind m (fun x => k))
  (at level 10, x name, m at level 100, k at level 200) : faulty_scope.
Notation "'do>' m ; k" := (f_bind m (fun _ => k))
  (at level 10, m at level 100, k at level 200) : faulty_scope.

(** One call: [q] is what the store does when it gets it, an error of its own
    changing nothing; [lost] is the error the caller sees on a fault. *)
Definition f_call {S E A : Type} (lost : E) (q : S -> Res E (S * A)) : Faulty S E A :=
  fun '(st, fs) =>
    let f := head fs in
    let fs' := tail fs in
    match f with
    | Some FLost => (Err lost, (st, fs'))
    | Some FReply =>
        match q st with
        | Ok (st', _) => (Err lost, (st', fs'))
        | Err e => (Err e, (st, fs'))
        end
    | Some FNone | None =>
        match q st with
        | Ok (st', a) => (Ok a, (st', fs'))
        | Err e => (Err e, (st, fs'))
        end
    end.

(** A call whose error the caller handles. *)
Definition f_try {S E A : Type} (m : Faulty S E A) : Faulty S E (Res E A) :=
  fun s => let '(r, s') := m s in (Ok r, s').

(** A change of the program's own memory: no fault. *)
Definition f_local {S E A : Type} (f : S -> S * A) : Faulty S E A :=
  fun '(st, fs) => let '(st', a) := f st in (Ok a, (st', fs)).

(** ** Go's clock

    [time.Time] is the number of nanoseconds since the Unix epoch and
    [time.Duration] a number of nanoseconds; the accessors below floor, as
    Go's do. *)
Definition Second : Z := 1000000000.
Definition Millisecond : Z := 1000000.
Definition Microsecond : Z := 1000.
Definition Minute : Z := 60 * Second.
Definition Unix (t : Z) : Z := t / Second.
Definition UnixMilli (t : Z) : Z := t / Millisecond.
Definition UnixMicro (t : Z) : Z := t / Microsecond.

(** A value stored in a Go [int64]: two's complement wrap-around. *)
Definition wrap64 (z : Z) : Z := (z + 2 ^ 63) mod 2 ^ 64 - 2 ^ 63.

(** ** float64

    A double is NaN, an infinity or a finite value; a finite value is the
    rational it stands for, and arithmetic on finite values is the exact
    rational arithmetic (rounding is left out; a statement that depends on it
    says so).  Comparisons with NaN are false, as in IEEE 754 and Go. *)
Inductive float64 : Type :=
| NaN
| PosInf
| NegInf
| Fin (q : Q).

Definition isNaN (f : float64) : bool :=
  match f with NaN => true | _ => false end.

Definition isInf (f : float64) : bool :=
  match f with PosInf | NegInf => true | _ => false end.

Definition fle (a b : float64) : bool :=
  match a, b with
  | NaN, _ | _, NaN => false
  | NegInf, _ | _, PosInf => true
  | PosInf, _ | _, NegInf => false
  | Fin x, Fin y => Qle_bool x y
  end.

Definition flt (a b : float64) : bool :=
  match a, b with
  | NaN, _ | _, NaN => false
  | _, _ => negb (fle b a)
  end.

Lemma Qle_bool_false x y : Qle_bool x y = false -> (y < x)%Q.
Proof. intros H. apply Qnot_le_lt. rewrite <- Qle_bool_iff, H. done. Qed.

Lemma Qle_bool_gt x y : (y < x)%Q -> Qle_bool x y = false.
Proof.
  intros H. destruct (Qle_bool x y) eqn:E; [|done]. apply Qle_bool_iff in E.
  by apply Qle_not_lt in E.
Qed.

(** ** SQL and in-memory tables over [gmap]

    [UPDATE ... WHERE] rewrites the rows a predicate selects and
    [DELETE ... WHERE] drops them. *)
Definition update_where {K V : Type} `{Countable K}
    (P : K -> V -> bool) (f : K -> V -> V) (m : gmap K V) : gmap K V :=
  map_imap (fun k v => Some (if P k v then f k v else v)) m.

Definition delete_where {K V : Type} `{Countable K}
    (P : K -> V -> bool) (m : gmap K V) : gmap K V :=
  map_imap (fun k v => if P k v then None else Some v) m.

Definition select_where {K V : Type} `{Countable K}
    (P : K -> V -> bool) (m : gmap K V) : list (K * V) :=
  filter (fun kv => P kv.1 kv.2 = true) (map_to_list m).

(** Sums and counts over lists and maps. *)
Definition sum_list_Z (l : list Z) : Z := foldr Z.add 0 l.

Definition map_sum {K V : Type} `{Countable K} (f : K -> V -> Z) (m : gmap K V) : Z :=
  sum_list_Z ((fun kv => f kv.1 kv.2) <$> map_to_list m).

Definition count_occ_dec {A : Type} `{EqDecision A} (x : A) (l : list A) : nat :=
  length (filter (fun y => y = x) l).

(** [l] cut into pieces of [n] elements, as a loop [start += n] cuts it. *)
Fixpoint chunks_fuel {A : Type} (fuel n : nat) (l : list A) : list (list A) :=
  match fuel, l with
  | O, _ | _, [] => []
  | S fuel', _ => take n l :: chunks_fuel fuel' n (drop n l)
  end.

Definition chunks {A : Type} (n : nat) (l : list A) : list (list A) :=
  chunks_fuel (length l) n l.

(** The map of [m] with the entries of [m'] written over it, as the Go loop
    [for k, v := range m' { m[k] = v }] leaves it. *)
Definition merge_over {K V : Type} `{Countable K} (m m' : gmap K V) : gmap K V := m' ∪ m.

(** ** Lemmas on tables *)
Section tables.
Context {K V : Type} `{Countable K}.
Implicit Types (m : gmap K V) (P : K -> V -> bool).

Lemma lookup_update_where P f m k :
  update_where P f m !! k = (fun v => if P k v then f k v else v) <$> m !! k.
Proof. unfold update_where. rewrite map_lookup_imap. by destruct (m !! k). Qed.

Lemma lookup_delete_where P m k :
  delete_where P m !! k = m !! k ≫= (fun v => if P k v then None else Some v).
Proof. unfold delete_where. by rewrite map_lookup_imap. Qed.

Lemma lookup_update_where_Some P f m k v :
  update_where P f m !! k = Some v <->
  exists v0, m !! k = Some v0 /\ v = if P k v0 then f k v0 else v0.
Proof.
  rewrite lookup_update_where, fmap_Some. split; intros (v0 & ? & ?); eauto.
Qed.

Lemma lookup_delete_where_Some P m k v :
  delete_where P m !! k = Some v <-> m !! k = Some v /\ P k v = false.
Proof.
  rewrite lookup_delete_where, bind_Some. split.
  - intros (v0 & ? & ?). destruct (P k v0) eqn:?; naive_solver.
  - intros [? HP]. exists v. by rewrite HP.
Qed.

Lemma dom_update_where P f m : dom (update_where P f m) = dom m.
Proof.
  apply set_eq. intros k. rewrite !elem_of_dom, lookup_update_where.
  by rewrite fmap_is_Some.
Qed.

Lemma elem_of_select_where P m k v :
  (k, v) ∈ select_where P m <-> m !! k = Some v /\ P k v = true.
Proof.
  unfold select_where. rewrite list_elem_of_filter, elem_of_map_to_list. naive_solver.
Qed.

Lemma NoDup_select_where_fst P m : NoDup (select_where P m).*1.
Proof.
  unfold select_where. apply (sublist_NoDup _ (map_to_list m).*1).
  - apply NoDup_fst_map_to_list.
  - apply fmap_sublist. apply sublist_filter.
Qed.

(** [SELECT ... ORDER BY ... LIMIT n]. *)
Lemma NoDup_limit_where R `{!RelDecision R} P m n :
  NoDup (take n (merge_sort R (select_where P m))).*1.
Proof.
  apply (sublist_NoDup _ (merge_sort R (select_where P m)).*1).
  - rewrite (merge_sort_Permutation R). apply NoDup_select_where_fst.
  - apply fmap_sublist, sublist_take.
Qed.

Lemma elem_of_limit_where R `{!RelDecision R} P m n k v :
  (k, v) ∈ take n (merge_sort R (select_where P m)) -> m !! k = Some v /\ P k v = true.
Proof.
  intros Hin. apply elem_of_select_where.
  rewrite <- (merge_sort_Permutation R). eapply elem_of_sublist, sublist_take; eauto.
Qed.

Lemma map_sum_empty f : map_sum f (∅ : gmap K V) = 0.
Proof. unfold map_sum. by rewrite map_to_list_empty. Qed.
End tables.

(** A predicate that holds of one key at most selects one row at most. *)
Lemma select_where_one {K V : Type} `{Countable K} (P : K -> V -> bool) (m : gmap K V) k0 :
  (forall k v, P k v = true -> k = k0) ->
  select_where P m = match m !! k0 with
                     | Some v => if P k0 v then [(k0, v)] else []
                     | None => []
                     end.
Proof.
  intros HP.
  assert (forall kv, kv ∈ select_where P m <->
    kv ∈ match m !! k0 with Some v => if P k0 v then [(k0, v)] else [] | None => [] end) as Hiff.
  { intros [k v]. rewrite elem_of_select_where. split.
    - intros [Hk HPk]. pose proof (HP _ _ HPk) as ->. rewrite Hk, HPk. by left.
    - destruct (m !! k0) as [v0|] eqn:E; [|by intros ?%not_elem_of_nil].
      destruct (P k0 v0) eqn:EP; [|by intros ?%not_elem_of_nil].
      intros ?%list_elem_of_singleton. by simplify_eq. }
  assert (NoDup (select_where P m)) as Hnd by (eapply NoDup_fmap_1, NoDup_select_where_fst).
  destruct (m !! k0) as [v|]; [destruct (P k0 v)|].
  - apply Permutation_singleton_r, NoDup_Permutation; [done|apply NoDup_singleton|done].
  - apply Permutation_nil_r, NoDup_Permutation; [done|constructor|done].
  - apply Permutation_nil_r, NoDup_Permutation; [done|constructor|done].
Qed.

(** ** Counting the rows a predicate selects *)
Section counting.
Context {K V : Type} `{Countable K}.
Implicit Types (m : gmap K V) (P : K -> V -> bool).

Definition count_where P m : nat := length (select_where P m).

Lemma count_where_empty P : count_where P ∅ = O.
Proof. unfold count_where, select_where. by rewrite map_to_list_empty. Qed.

Lemma count_where_insert P m k v :
  m !! k = None -> count_where P (<[k := v]> m) = (count_where P m + if P k v then 1 else 0)%nat.
Proof.
  intros Hk. unfold count_where, select_where. rewrite map_to_list_insert by done.
  rewrite filter_cons. cbn [fst snd]. case_decide as E; [rewrite E; simpl; lia|].
  apply not_true_is_false in E. rewrite E. lia.
Qed.

Lemma count_where_delete P m k v :
  m !! k = Some v -> count_where P m = (count_where P (delete k m) + if P k v then 1 else 0)%nat.
Proof.
  intros Hk. rewrite <- (insert_delete_id m k v Hk) at 1.
  apply count_where_insert, lookup_delete_eq.
Qed.

Lemma count_where_delete_le P m k : (count_where P (delete k m) <= count_where P m)%nat.
Proof.
  destruct (m !! k) as [v|] eqn:E; [rewrite (count_where_delete P m k v E); lia|].
  by rewrite delete_id.
Qed.

Lemma count_where_insert_le P m k v : (count_where P (<[k := v]> m) <= count_where P m + 1)%nat.
Proof.
  rewrite <- insert_delete_eq, count_where_insert by apply lookup_delete_eq.
  pose proof (count_where_delete_le P m k). destruct (P k v); lia.
Qed.

Lemma count_where_overwrite P m k v v' :
  m !! k = Some v -> P k v = true -> P k v' = false ->
  S (count_where P (<[k := v']> m)) = count_where P m.
Proof.
  intros Hk Hv Hv'. rewrite (count_where_delete P m k v Hk), Hv.
  rewrite <- insert_delete_eq, count_where_insert, Hv' by apply lookup_delete_eq. lia.
Qed.
End counting.

(** ** Sums over the rows of a table *)
Section sums.
Context {K V : Type} `{Countable K}.
Implicit Types (m : gmap K V) (f g : K -> V -> Z).

Lemma sum_list_Z_app l1 l2 : sum_list_Z (l1 ++ l2) = sum_list_Z l1 + sum_list_Z l2.
Proof. induction l1 as [|x l1 IH]; simpl; [done|]. unfold sum_list_Z in *. simpl. lia. Qed.

Lemma sum_list_Z_perm l1 l2 : l1 ≡ₚ l2 -> sum_list_Z l1 = sum_list_Z l2.
Proof. induction 1; unfold sum_list_Z in *; simpl in *; lia. Qed.

Lemma map_sum_insert f m k v : m !! k = None -> map_sum f (<[k := v]> m) = f k v + map_sum f m.
Proof.
  intros Hk. unfold map_sum.
  rewrite (sum_list_Z_perm _ _ (fmap_Permutation _ _ _ (map_to_list_insert m k v Hk))). done.
Qed.

Lemma map_sum_delete f m k v : m !! k = Some v -> map_sum f m = f k v + map_sum f (delete k m).
Proof.
  intros Hk. rewrite <- (insert_delete_id m k v Hk) at 1. apply map_sum_insert, lookup_delete_eq.
Qed.

Lemma map_sum_overwrite f m k v v' :
  m !! k = Some v -> map_sum f (<[k := v']> m) = map_sum f m - f k v + f k v'.
Proof.
  intros Hk. rewrite <- insert_delete_eq, map_sum_insert by apply lookup_delete_eq.
  rewrite (map_sum_delete f m k v Hk). lia.
Qed.

Lemma map_sum_le f g m :
  (forall k v, m !! k = Some v -> f k v <= g k v) -> map_sum f m <= map_sum g m.
Proof.
  induction m as [|k v m Hk IH] using map_ind; intros Hle; [by rewrite !map_sum_empty|].
  rewrite !map_sum_insert by done.
  pose proof (Hle k v (lookup_insert_eq _ _ _)).
  enough (map_sum f m <= map_sum g m) by lia.
  apply IH. intros j w Hj. apply Hle. rewrite lookup_insert_ne; [done|congruence].
Qed.

Lemma map_sum_nonneg f m : (forall k v, m !! k = Some v -> 0 <= f k v) -> 0 <= map_sum f m.
Proof.
  induction m as [|k v m Hk IH] using map_ind; intros Hle; [by rewrite map_sum_empty|].
  rewrite map_sum_insert by done. pose proof (Hle k v (lookup_insert_eq _ _ _)).
  enough (0 <= map_sum f m) by lia.
  apply IH. intros j w Hj. apply Hle. rewrite lookup_insert_ne; [done|congruence].
Qed.

Lemma map_sum_in f m k v :
  (forall k v, m !! k = Some v -> 0 <= f k v) -> m !! k = Some v -> f k v <= map_sum f m.
Proof.
  intros Hnn Hk. rewrite (map_sum_delete f m k v Hk).
  enough (0 <= map_sum f (delete k m)) by lia.
  apply map_sum_nonneg. intros j w Hj. apply Hnn. by apply lookup_delete_Some in Hj as [_ ?].
Qed.

End sums.

(** A table whose rows are each worth no more than a row of another, distinct
    rows against distinct rows, sums to no more. *)
Lemma map_sum_inj {K V K' W : Type} `{Countable K} `{Countable K'} (phi : K -> K') `{!Inj (=) (=) phi}
    (f : K -> V -> Z) (g : K' -> W -> Z) (m : gmap K V) (m' : gmap K' W) :
  (forall k v, m !! k = Some v -> f k v <= 0 \/ exists w, m' !! phi k = Some w /\ f k v <= g (phi k) w) ->
  (forall k w, m' !! k = Some w -> 0 <= g k w) ->
  map_sum f m <= map_sum g m'.
Proof.
  revert m'. induction m as [|k v m Hk IH] using map_ind; intros m' Hle Hnn.
  { rewrite map_sum_empty. by apply map_sum_nonneg. }
  rewrite map_sum_insert by done.
  assert (forall j u, m !! j = Some u -> f j u <= 0 \/ exists w, m' !! phi j = Some w /\ f j u <= g (phi j) w) as Hm.
  { intros j u Hj. apply Hle. rewrite lookup_insert_ne; [done|congruence]. }
  destruct (Hle k v (lookup_insert_eq _ _ _)) as [H0'|(w & Hw & Hfw)].
  { pose proof (IH m' Hm Hnn). lia. }
  rewrite (map_sum_delete g m' (phi k) w Hw).
  enough (map_sum f m <= map_sum g (delete (phi k) m')) by lia.
  apply IH.
  - intros j u Hj. destruct (Hm j u Hj) as [?|(w' & ? & ?)]; [by left|right].
    exists w'. rewrite lookup_delete_ne; [done|]. intros ?%(inj phi). congruence.
  - intros j w' Hj. apply lookup_delete_Some in Hj as [_ ?]. eauto.
Qed.

Lemma map_sum_mono {K V W : Type} `{Countable K} (f : K -> V -> Z) (g : K -> W -> Z)
    (m : gmap K V) (m' : gmap K W) :
  (forall k v, m !! k = Some v -> f k v <= 0 \/ exists w, m' !! k = Some w /\ f k v <= g k w) ->
  (forall k w, m' !! k = Some w -> 0 <= g k w) ->
  map_sum f m <= map_sum g m'.
Proof. apply (map_sum_inj id). Qed.

Lemma count_where_fmap {K V W : Type} `{Countable K} (f : V -> W) (P : K -> W -> bool) (m : gmap K V) :
  count_where P (f <$> m) = count_where (fun k v => P k (f v)) m.
Proof.
  induction m as [|k v m Hk IH] using map_ind; [by rewrite fmap_empty, !count_where_empty|].
  rewrite fmap_insert, !count_where_insert, IH; [done|done|]. by rewrite lookup_fmap, Hk.
Qed.

(** ** Strings as Go slices them *)
Fixpoint str_drop (n : nat) (s : string) : string :=
  match n, s with
  | O, _ => s
  | S n', String _ s' => str_drop n' s'
  | S _, EmptyString => EmptyString
  end.

Fixpoint str_take (n : nat) (s : string) : string :=
  match n, s with
  | O, _ | _, EmptyString => EmptyString
  | S n', String c s' => String c (str_take n' s')
  end.

(** strings.IndexByte: [None] for -1. *)
Fixpoint IndexByte (s : string) (c : Ascii.ascii) : option nat :=
  match s with
  | EmptyString => None
  | String c' s' => if Ascii.eqb c' c then Some O else S <$> IndexByte s' c
  end.

(** strings.HasPrefix. *)
Fixpoint HasPrefix (s p : string) : bool :=
  match p, s with
  | EmptyString, _ => true
  | String c p', String c' s' => Ascii.eqb c' c && HasPrefix s' p'
  | _, EmptyString => false
  end.

Lemma IndexByte_app_Some s t c n : IndexByte s c = Some n -> IndexByte (s +:+ t) c = Some n.
Proof.
  revert n. induction s as [|c' s IH]; intros n; simpl; [done|].
  destruct (Ascii.eqb c' c); [done|]. intros (m & Hm & ->)%fmap_Some. by rewrite (IH m).
Qed.

Lemma IndexByte_app_None s t c :
  IndexByte s c = None -> IndexByte (s +:+ t) c = (fun n => String.length s + n)%nat <$> IndexByte t c.
Proof.
  induction s as [|c' s IH]; intros H; simpl in *; [by rewrite option_fmap_id|].
  destruct (Ascii.eqb c' c); [done|]. apply fmap_None in H. rewrite IH by done.
  by destruct (IndexByte t c).
Qed.

Lemma IndexByte_lt s c n : IndexByte s c = Some n -> (n < String.length s)%nat.
Proof.
  revert n. induction s as [|c' s IH]; intros n; simpl; [done|].
  destruct (Ascii.eqb c' c); [intros [= <-]; lia|]. intros (m & Hm & ->)%fmap_Some.
  apply IH in Hm. lia.
Qed.

Lemma str_drop_app n s t : (n <= String.length s)%nat -> str_drop n (s +:+ t) = str_drop n s +:+ t.
Proof. revert n. induction s as [|c s IH]; intros [|n] Hn; simpl in *; try done; [lia|]. apply IH. lia. Qed.

Lemma str_take_app n s t : (n <= String.length s)%nat -> str_take n (s +:+ t) = str_take n s.
Proof.
  revert n. induction s as [|c s IH]; intros [|n] Hn; simpl in *; try lia; try (by destruct t); try done.
  f_equal. apply IH. lia.
Qed.

Lemma str_take_full s t : str_take (String.length s) (s +:+ t) = s.
Proof. induction s as [|c s IH]; simpl; [by destruct t|]. by f_equal. Qed.

Lemma str_take_length n s : (n <= String.length s)%nat -> String.length (str_take n s) = n.
Proof.
  revert n. induction s as [|c s IH]; intros [|n] Hn; simpl in *; try done; [lia|].
  f_equal. apply IH. lia.
Qed.

Lemma str_drop_length n s : String.length (str_drop n s) = (String.length s - n)%nat.
Proof. revert n. induction s as [|c s IH]; intros [|n]; simpl; auto. Qed.

(** ** Lemmas on chunks *)
Section chunking.
Context {A : Type}.
Implicit Types (l : list A).

Lemma chunks_fuel_concat n fuel l :
  (0 < n)%nat -> (length l <= fuel)%nat -> mjoin (chunks_fuel fuel n l) = l.
Proof.
  intros Hn. revert l. induction fuel as [|fuel IH]; intros [|x l] Hl; try done.
  - simpl in Hl. lia.
  - cbn [chunks_fuel mjoin list_join]. fold (mjoin (M := list) (A := A)).
    change (take n (x :: l) ++ mjoin (chunks_fuel fuel n (drop n (x :: l))) = x :: l).
    rewrite IH; [apply take_drop|]. rewrite length_drop. simpl in *. lia.
Qed.

Lemma chunks_concat n l : (0 < n)%nat -> mjoin (chunks n l) = l.
Proof. intros Hn. by apply chunks_fuel_concat. Qed.
End chunking.

(** ** Lists held under keys *)
Section held_lists.
Context `{Countable K} {A : Type}.
Implicit Types (a : gmap K (list A)).

Definition active_ids (a : gmap K (list A)) : list A := mjoin (map_to_list a).*2.

Lemma active_ids_insert a k l : a !! k = None -> active_ids (<[k := l]> a) ≡ₚ l ++ active_ids a.
Proof. intros Hk. unfold active_ids. by rewrite (map_to_list_insert a k l Hk). Qed.

Lemma active_ids_delete a k : default [] (a !! k) ++ active_ids (delete k a) ≡ₚ active_ids a.
Proof.
  destruct (a !! k) as [l|] eqn:E; simpl; [|by rewrite delete_id].
  rewrite <- active_ids_insert by apply lookup_delete_eq. by rewrite insert_delete_id.
Qed.

Lemma active_ids_overwrite a k l : active_ids (<[k := l]> a) ++ default [] (a !! k) ≡ₚ l ++ active_ids a.
Proof.
  rewrite <- insert_delete_eq, active_ids_insert by apply lookup_delete_eq.
  rewrite <- (active_ids_delete a k). solve_Permutation.
Qed.
End held_lists.
