(* ===== verification/Json.v ===== *)
(** * Go's JSON encoding

    What the sources use of [encoding/json]: how strings, integers and raw
    messages are written ([appendString] with HTML escaping, [appendCompact]),
    the grammar the decoder accepts ([checkValid]), and how string and integer
    literals are read back ([unquote]).  A string is a sequence of bytes, as in
    Go: it need not be valid UTF-8. *)
From stdpp Require Import prelude gmap strings list sorting.
From Stdlib Require Import ZArith NArith Lia Ascii String.
From S2P Require Import Prelude.

#[local] Open Scope Z_scope.

Definition code (c : ascii) : Z := Z.of_N (N_of_ascii c).
Definition between (lo hi : Z) (c : ascii) : bool := (lo <=? code c) && (code c <=? hi).
Definition chr (n : Z) : ascii := ascii_of_N (Z.to_N n).
Definition dquote : ascii := "034".
Definition backslash : ascii := "092".
Definition ch (c : ascii) : string := String c "".

(** ** UTF-8 *)
Definition cont (c : ascii) : bool := between 128 191 c.
Definition utf8_2 (c1 c2 : ascii) : bool := between 194 223 c1 && cont c2.
Definition utf8_3 (c1 c2 c3 : ascii) : bool :=
  cont c3 && ((between 224 224 c1 && between 160 191 c2) || (between 225 236 c1 && cont c2)
              || (between 237 237 c1 && between 128 159 c2) || (between 238 239 c1 && cont c2)).
Definition utf8_4 (c1 c2 c3 c4 : ascii) : bool :=
  cont c3 && cont c4 && ((between 240 240 c1 && between 144 191 c2) || (between 241 243 c1 && cont c2)
                         || (between 244 244 c1 && between 128 143 c2)).

(** What [utf8.DecodeRune] makes of a string: ASCII bytes, encoded runes, and
    bytes that start no valid encoding. *)
Inductive chunk : Type :=
| CAscii (c : ascii)
| CRune (s : string)
| CBad (c : ascii).

Fixpoint chunks_of (s : string) : list chunk :=
  match s with
  | "" => []
  | String c s1 =>
      if code c <? 128 then CAscii c :: chunks_of s1
      else match s1 with
           | "" => [CBad c]
           | String c2 s2 =>
               if utf8_2 c c2 then CRune (String c (ch c2)) :: chunks_of s2
               else match s2 with
                    | "" => CBad c :: chunks_of s1
                    | String c3 s3 =>
                        if utf8_3 c c2 c3 then CRune (String c (String c2 (ch c3))) :: chunks_of s3
                        else match s3 with
                             | "" => CBad c :: chunks_of s1
                             | String c4 s4 =>
                                 if utf8_4 c c2 c3 c4 then CRune (String c (String c2 (String c3 (ch c4)))) :: chunks_of s4
                                 else CBad c :: chunks_of s1
                             end
                    end
           end
  end.

Definition chunk_ok (k : chunk) : bool := match k with CBad _ => false | _ => true end.
Definition valid_utf8 (s : string) : bool := forallb chunk_ok (chunks_of s).

Definition encode_rune (r : Z) : string :=
  if r <? 128 then ch (chr r)
  else if r <? 2048 then String (chr (192 + r / 64)) (ch (chr (128 + r mod 64)))
  else if r <? 65536 then String (chr (224 + r / 4096)) (String (chr (128 + r / 64 mod 64)) (ch (chr (128 + r mod 64))))
  else String (chr (240 + r / 262144)) (String (chr (128 + r / 4096 mod 64))
         (String (chr (128 + r / 64 mod 64)) (ch (chr (128 + r mod 64))))).

Definition runeError : string := encode_rune 65533.

(** ** Writing strings *)
Definition hexDigit (n : Z) : ascii := if n <? 10 then chr (48 + n) else chr (87 + n).
Definition u4 (n : Z) : string :=
  String backslash (String "u" (String (hexDigit (n / 4096)) (String (hexDigit (n / 256 mod 16))
    (String (hexDigit (n / 16 mod 16)) (ch (hexDigit (n mod 16))))))).

Definition escape (c : ascii) : string :=
  let n := code c in
  if (n =? 34) || (n =? 92) then String backslash (ch c)
  else if n =? 8 then String backslash "b"
  else if n =? 12 then String backslash "f"
  else if n =? 10 then String backslash "n"
  else if n =? 13 then String backslash "r"
  else if n =? 9 then String backslash "t"
  else if (n <? 32) || (n =? 60) || (n =? 62) || (n =? 38) then u4 n
  else ch c.

(** U+2028 and U+2029 *)
Definition lineSep : string := String (chr 226) (String (chr 128) (ch (chr 168))).
Definition paraSep : string := String (chr 226) (String (chr 128) (ch (chr 169))).

Definition quote_chunk (k : chunk) : string :=
  match k with
  | CAscii c => escape c
  | CRune s => if bool_decide (s = lineSep) then u4 8232 else if bool_decide (s = paraSep) then u4 8233 else s
  | CBad _ => u4 65533
  end.

Definition str_concat (l : list string) : string := foldr String.append "" l.
Definition qbody (s : string) : string := str_concat (quote_chunk <$> chunks_of s).
Definition quote (s : string) : string := String dquote (qbody s +:+ ch dquote).

(** ** Reading strings *)
Definition hexVal (c : ascii) : option Z :=
  if between 48 57 c then Some (code c - 48)
  else if between 97 102 c then Some (code c - 87)
  else if between 65 70 c then Some (code c - 55)
  else None.

Definition hex4 (a b c d : ascii) : option Z :=
  match hexVal a, hexVal b, hexVal c, hexVal d with
  | Some x, Some y, Some z, Some w => Some (4096 * x + 256 * y + 16 * z + w)
  | _, _, _, _ => None
  end.

Definition simple_escape (e : ascii) : option ascii :=
  let n := code e in
  if (n =? 34) || (n =? 92) || (n =? 47) then Some e
  else if n =? 98 then Some (chr 8)
  else if n =? 102 then Some (chr 12)
  else if n =? 110 then Some (chr 10)
  else if n =? 114 then Some (chr 13)
  else if n =? 116 then Some (chr 9)
  else None.

Definition cons_str (s : string) (o : option string) : option string := String.append s <$> o.

(** The body of a string literal, without its quotes. *)
Fixpoint unquote (s : string) : option string :=
  match s with
  | "" => Some ""
  | String c s1 =>
      if code c =? 92 then
        match s1 with
        | "" => None
        | String e s2 =>
            if code e =? 117 then
              match s2 with
              | String a (String b (String c' (String d s6))) =>
                  match hex4 a b c' d with
                  | None => None
                  | Some v =>
                      if (55296 <=? v) && (v <? 57344) then
                        match s6 with
                        | String x (String y (String a2 (String b2 (String c2 (String d2 s12))))) =>
                            match hex4 a2 b2 c2 d2 with
                            | Some w =>
                                if (code x =? 92) && (code y =? 117) && (v <? 56320) && (56320 <=? w) && (w <? 57344)
                                then cons_str (encode_rune ((v - 55296) * 1024 + (w - 56320) + 65536)) (unquote s12)
                                else cons_str runeError (unquote s6)
                            | None => cons_str runeError (unquote s6)
                            end
                        | _ => cons_str runeError (unquote s6)
                        end
                      else cons_str (encode_rune v) (unquote s6)
                  end
              | _ => None
              end
            else match simple_escape e with
                 | Some e' => cons_str (ch e') (unquote s2)
                 | None => None
                 end
        end
      else if (code c =? 34) || (code c <? 32) then None
      else if code c <? 128 then cons_str (ch c) (unquote s1)
      else match s1 with
           | "" => cons_str runeError (unquote s1)
           | String c2 s2 =>
               if utf8_2 c c2 then cons_str (String c (ch c2)) (unquote s2)
               else match s2 with
                    | "" => cons_str runeError (unquote s1)
                    | String c3 s3 =>
                        if utf8_3 c c2 c3 then cons_str (String c (String c2 (ch c3))) (unquote s3)
                        else match s3 with
                             | "" => cons_str runeError (unquote s1)
                             | String c4 s4 =>
                                 if utf8_4 c c2 c3 c4 then cons_str (String c (String c2 (String c3 (ch c4)))) (unquote s4)
                                 else cons_str runeError (unquote s1)
                             end
                    end
           end
  end.

(** ** The grammar *)
Definition is_space (c : ascii) : bool := (code c =? 32) || (code c =? 9) || (code c =? 10) || (code c =? 13).
Fixpoint skip_ws (s : string) : string :=
  match s with
  | String c s' => if is_space c then skip_ws s' else s
  | "" => ""
  end.

Definition is_digit (c : ascii) : bool := between 48 57 c.
Definition is_hex (c : ascii) : bool := match hexVal c with Some _ => true | None => false end.

(** The body of a string literal up to its closing quote, and what follows. *)
Fixpoint scan_str (s : string) : option (string * string) :=
  match s with
  | "" => None
  | String c s1 =>
      if code c =? 34 then Some ("", s1)
      else if code c =? 92 then
        match s1 with
        | "" => None
        | String e s2 =>
            if code e =? 117 then
              match s2 with
              | String a (String b (String c' (String d s6))) =>
                  if is_hex a && is_hex b && is_hex c' && is_hex d then
                    match scan_str s6 with
                    | Some (body, rest) => Some (String c (String e (String a (String b (String c' (String d body))))), rest)
                    | None => None
                    end
                  else None
              | _ => None
              end
            else match simple_escape e with
                 | Some _ => match scan_str s2 with Some (body, rest) => Some (String c (String e body), rest) | None => None end
                 | None => None
                 end
        end
      else if code c <? 32 then None
      else match scan_str s1 with Some (body, rest) => Some (String c body, rest) | None => None end
  end.

(** What compaction does inside a string literal. *)
Fixpoint html (s : string) : string :=
  match s with
  | "" => ""
  | String c s1 =>
      if (code c =? 60) || (code c =? 62) || (code c =? 38) then u4 (code c) +:+ html s1
      else match s1 with
           | String c2 (String c3 s3) =>
               if (code c =? 226) && (code c2 =? 128) && ((code c3 =? 168) || (code c3 =? 169))
               then u4 (8064 + code c3) +:+ html s3
               else String c (html s1)
           | _ => String c (html s1)
           end
  end.

Fixpoint span_digits (s : string) : string * string :=
  match s with
  | String c s' => if is_digit c then let '(ds, r) := span_digits s' in (String c ds, r) else ("", s)
  | "" => ("", "")
  end.

Definition scan_int (s : string) : option (string * string) :=
  match s with
  | String c t =>
      if code c =? 48 then Some (ch c, t)
      else if is_digit c then let '(ds, r) := span_digits t in Some (String c ds, r)
      else None
  | "" => None
  end.

Definition scan_frac (s : string) : option (string * string) :=
  match s with
  | String c t => if code c =? 46 then match span_digits t with ("", _) => None | (ds, r) => Some (String c ds, r) end
                  else Some ("", s)
  | "" => Some ("", "")
  end.

Definition scan_exp (s : string) : option (string * string) :=
  match s with
  | String c t =>
      if (code c =? 101) || (code c =? 69) then
        let '(sign, u) := match t with
                          | String d t' => if (code d =? 43) || (code d =? 45) then (ch d, t') else ("", t)
                          | "" => ("", "")
                          end in
        match span_digits u with ("", _) => None | (ds, r) => Some (String c (sign +:+ ds), r) end
      else Some ("", s)
  | "" => Some ("", "")
  end.

Definition scan_num (s : string) : option (string * string) :=
  let '(sign, s1) := match s with
                     | String c t => if code c =? 45 then (ch c, t) else ("", s)
                     | "" => ("", "")
                     end in
  match scan_int s1 with
  | None => None
  | Some (i, s2) =>
      match scan_frac s2 with
      | None => None
      | Some (f, s3) =>
          match scan_exp s3 with
          | None => None
          | Some (e, r) => Some (sign +:+ i +:+ f +:+ e, r)
          end
      end
  end.

Fixpoint scan_lit (lit s : string) : option string :=
  match lit, s with
  | "", _ => Some s
  | String a lit', String b s' => if Ascii.eqb a b then scan_lit lit' s' else None
  | _, _ => None
  end.

Definition maxNestingDepth : Z := 10000.

(** One value: its compact form, and what follows it.  [d] is the nesting depth
    of the value.  Elements and members are scanned with their separators. *)
Fixpoint scan_value (fuel : nat) (d : Z) (s : string) : option (string * string) :=
  match fuel, s with
  | S f, String c t =>
      if code c =? 34 then
        match scan_str t with Some (b, r) => Some (String c (html b +:+ ch dquote), r) | None => None end
      else if code c =? 123 then
        if maxNestingDepth <=? d then None
        else match skip_ws t with
             | String e r => if code e =? 125 then Some (String c (ch e), r)
                             else match scan_members f (d + 1) (String e r) with
                                  | Some (b, r') => Some (String c b, r')
                                  | None => None
                                  end
             | "" => None
             end
      else if code c =? 91 then
        if maxNestingDepth <=? d then None
        else match skip_ws t with
             | String e r => if code e =? 93 then Some (String c (ch e), r)
                             else match scan_elems f (d + 1) (String e r) with
                                  | Some (b, r') => Some (String c b, r')
                                  | None => None
                                  end
             | "" => None
             end
      else if code c =? 116 then match scan_lit "rue" t with Some r => Some ("true", r) | None => None end
      else if code c =? 102 then match scan_lit "alse" t with Some r => Some ("false", r) | None => None end
      else if code c =? 110 then match scan_lit "ull" t with Some r => Some ("null", r) | None => None end
      else scan_num s
  | _, _ => None
  end
with scan_elems (fuel : nat) (d : Z) (s : string) : option (string * string) :=
  match fuel with
  | O => None
  | S f =>
      match scan_value f d s with
      | None => None
      | Some (v, r) =>
          match skip_ws r with
          | String e r' =>
              if code e =? 93 then Some (v +:+ ch e, r')
              else if code e =? 44 then
                match scan_elems f d (skip_ws r') with
                | Some (b, r'') => Some (v +:+ String e b, r'')
                | None => None
                end
              else None
          | "" => None
          end
      end
  end
with scan_members (fuel : nat) (d : Z) (s : string) : option (string * string) :=
  match fuel with
  | O => None
  | S f =>
      match s with
      | String q t =>
          if code q =? 34 then
            match scan_str t with
            | None => None
            | Some (k, r) =>
                match skip_ws r with
                | String e r1 =>
                    if code e =? 58 then
                      match scan_value f d (skip_ws r1) with
                      | None => None
                      | Some (v, r2) =>
                          match skip_ws r2 with
                          | String e2 r3 =>
                              let head := String q (html k +:+ String dquote (String e v)) in
                              if code e2 =? 125 then Some (head +:+ ch e2, r3)
                              else if code e2 =? 44 then
                                match scan_members f d (skip_ws r3) with
                                | Some (b, r4) => Some (head +:+ String e2 b, r4)
                                | None => None
                                end
                              else None
                          | "" => None
                          end
                      end
                    else None
                | "" => None
                end
            end
          else None
      | "" => None
      end
  end.

(** Two steps consume at least a byte: this much fuel is enough
    ([scan_fuel_enough]). *)
Definition fuel_for (s : string) : nat := (2 * String.length s + 2)%nat.

(** [json.Compact] with HTML escaping, and [json.Valid]. *)
Definition compact (s : string) : option string :=
  match scan_value (fuel_for s) 0 (skip_ws s) with
  | Some (v, r) => if bool_decide (skip_ws r = "") then Some v else None
  | None => None
  end.

Definition json_valid (s : string) : bool := match compact s with Some _ => true | None => false end.

(** ** Integers *)
Fixpoint dec_digits (fuel : nat) (n : Z) (acc : string) : string :=
  match fuel with
  | O => acc
  | S f =>
      let acc := String (chr (48 + n mod 10)) acc in
      if n <? 10 then acc else dec_digits f (n / 10) acc
  end.

(** [strconv.AppendInt]: an int64 has at most 19 digits. *)
Definition itoa (n : Z) : string := if n <? 0 then String "-" (dec_digits 20 (- n) "") else dec_digits 20 n "".

Fixpoint digits_val (acc : Z) (s : string) : option Z :=
  match s with
  | "" => Some acc
  | String c s' => if is_digit c then digits_val (10 * acc + (code c - 48)) s' else None
  end.

(** An integer field: a literal with a fraction, an exponent or a value outside
    int64 is an error. *)
Definition parse_int64 (s : string) : option Z :=
  let v := match s with
           | String c t => if code c =? 45 then Z.opp <$> digits_val 0 t else digits_val 0 s
           | "" => None
           end in
  match v with
  | Some n => if (- 2 ^ 63 <=? n) && (n <? 2 ^ 63) then Some n else None
  | None => None
  end.

(** ** Objects *)

(** Members: the text between the key's quotes, and the text of the value. *)
Fixpoint print_members (l : list (string * string)) : string :=
  match l with
  | [] => "}"
  | [(k, v)] => String dquote (k +:+ String dquote (String ":" (v +:+ "}")))
  | (k, v) :: rest => String dquote (k +:+ String dquote (String ":" (v +:+ String "," (print_members rest))))
  end.

Definition print_obj (l : list (string * string)) : string := String "{" (print_members l).

Fixpoint members_of (fuel : nat) (d : Z) (s : string) : option (list (string * string)) :=
  match fuel with
  | O => None
  | S f =>
      match s with
      | String q t =>
          if code q =? 34 then
            match scan_str t with
            | None => None
            | Some (k, r) =>
                match skip_ws r with
                | String e r1 =>
                    if code e =? 58 then
                      let sv := skip_ws r1 in
                      match scan_value (fuel_for sv) d sv with
                      | None => None
                      | Some (_, r2) =>
                          let raw := str_take (String.length sv - String.length r2) sv in
                          match skip_ws r2 with
                          | String e2 r3 =>
                              if code e2 =? 125 then Some [(k, raw)]
                              else if code e2 =? 44 then
                                match members_of f d (skip_ws r3) with
                                | Some l => Some ((k, raw) :: l)
                                | None => None
                                end
                              else None
                          | "" => None
                          end
                      end
                    else None
                | "" => None
                end
            end
          else None
      | "" => None
      end
  end.

(** The members of an object at depth [d]; [None] for anything else. *)
Definition object_of (d : Z) (s : string) : option (list (string * string)) :=
  match s with
  | String c t =>
      if code c =? 123 then
        match skip_ws t with
        | String e r => if code e =? 125 then Some [] else members_of (fuel_for s) (d + 1) (String e r)
        | "" => None
        end
      else None
  | "" => None
  end.

(** ** Scanning consumes *)
Abbreviation len := String.length.

Lemma skip_ws_len s : (len (skip_ws s) <= len s)%nat.
Proof. induction s as [|c s IH]; simpl; [done|]. case_match; simpl; lia. Qed.

Lemma scan_str_len s b r : scan_str s = Some (b, r) -> (len r < len s)%nat.
Proof.
  revert b r. induction s as [s IH] using (induction_ltof1 _ len). unfold ltof in IH. intros b r.
  destruct s as [|c s1]; [done|]. cbn [scan_str]. case_match; [intros [= _ <-]; simpl; lia|].
  case_match.
  - destruct s1 as [|e s2]; [done|]. case_match.
    + destruct s2 as [|a [|a2 [|a3 [|a4 s6]]]]; try done. case_match; [|done].
      destruct (scan_str s6) as [[b' r']|] eqn:E; [|done]. intros [= _ <-]. apply IH in E; simpl in *; lia.
    + case_match; [|done]. destruct (scan_str s2) as [[b' r']|] eqn:E; [|done]. intros [= _ <-].
      apply IH in E; simpl in *; lia.
  - case_match; [done|]. destruct (scan_str s1) as [[b' r']|] eqn:E; [|done]. intros [= _ <-].
    apply IH in E; simpl in *; lia.
Qed.

Lemma span_digits_len s : (len (span_digits s).2 <= len s)%nat.
Proof. induction s as [|c s IH]; simpl; [done|]. case_match; [|done]. destruct (span_digits s). simpl in *. lia. Qed.

Lemma scan_int_len s i r : scan_int s = Some (i, r) -> (len r < len s)%nat.
Proof.
  destruct s as [|c t]; simpl; [done|]. case_match; [intros [= _ <-]; lia|]. case_match; [|done].
  pose proof (span_digits_len t). destruct (span_digits t). simpl in *. intros [= _ <-]. lia.
Qed.

Lemma scan_frac_len s i r : scan_frac s = Some (i, r) -> (len r <= len s)%nat.
Proof.
  destruct s as [|c t]; simpl; [by intros [= _ <-]|]. case_match; [|by intros [= _ <-]].
  pose proof (span_digits_len t). destruct (span_digits t) as [[] r']; [done|]. simpl in *. intros [= _ <-]. lia.
Qed.

Lemma scan_exp_len s i r : scan_exp s = Some (i, r) -> (len r <= len s)%nat.
Proof.
  destruct s as [|c t]; simpl; [by intros [= _ <-]|]. case_match; [|by intros [= _ <-]].
  set (su := match t with String d t' => if (code d =? 43) || (code d =? 45) then (ch d, t') else ("", t) | "" => ("", "") end).
  assert (len su.2 <= len t)%nat as Hu by (subst su; destruct t as [|d t']; simpl; [done|]; case_match; simpl; lia).
  destruct su as [sg u]. simpl in Hu. pose proof (span_digits_len u).
  destruct (span_digits u) as [[] r']; [done|]. simpl in *. intros [= _ <-]. lia.
Qed.

Lemma scan_num_len s i r : scan_num s = Some (i, r) -> (len r < len s)%nat.
Proof.
  unfold scan_num. set (su := match s with String c t => if code c =? 45 then (ch c, t) else ("", s) | "" => ("", "") end).
  assert (len su.2 <= len s)%nat as Hu by (subst su; destruct s as [|d t']; simpl; [done|]; case_match; simpl; lia).
  destruct su as [sg u]. simpl in Hu. destruct (scan_int u) as [[i1 s2]|] eqn:E1; [|done].
  destruct (scan_frac s2) as [[i2 s3]|] eqn:E2; [|done]. destruct (scan_exp s3) as [[i3 s4]|] eqn:E3; [|done].
  intros [= _ <-]. apply scan_int_len in E1. apply scan_frac_len in E2. apply scan_exp_len in E3. lia.
Qed.

Lemma scan_lit_len l s r : scan_lit l s = Some r -> (len r <= len s)%nat.
Proof.
  revert s. induction l as [|a l IH]; intros [|b s]; simpl; try done; try by intros [= <-].
  case_match; [|done]. intros ?%IH. lia.
Qed.

Lemma scan_len f : forall d s v r,
  (scan_value f d s = Some (v, r) -> (len r < len s)%nat) /\
  (scan_elems f d s = Some (v, r) -> (len r < len s)%nat) /\
  (scan_members f d s = Some (v, r) -> (len r < len s)%nat).
Proof.
  induction f as [|f IH]; intros d s v r; [by destruct s|]. split_and!; cbn [scan_value scan_elems scan_members].
  - destruct s as [|c t]; [done|]. case_match; [|case_match; [|case_match; [|case_match; [|case_match; [|case_match]]]]].
    + destruct (scan_str t) as [[b r']|] eqn:E; [|done]. intros [= _ <-]. apply scan_str_len in E. simpl. lia.
    + case_match; [done|]. pose proof (skip_ws_len t). destruct (skip_ws t) as [|e u]; [done|]. simpl in *.
      case_match; [intros [= _ <-]; lia|]. destruct (scan_members f _ _) as [[b r']|] eqn:E; [|done]. intros [= _ <-].
      apply IH in E. simpl in E. lia.
    + case_match; [done|]. pose proof (skip_ws_len t). destruct (skip_ws t) as [|e u]; [done|]. simpl in *.
      case_match; [intros [= _ <-]; lia|]. destruct (scan_elems f _ _) as [[b r']|] eqn:E; [|done]. intros [= _ <-].
      apply IH in E. simpl in E. lia.
    + destruct (scan_lit _ t) as [r'|] eqn:E; [|done]. intros [= _ <-]. apply scan_lit_len in E. simpl. lia.
    + destruct (scan_lit _ t) as [r'|] eqn:E; [|done]. intros [= _ <-]. apply scan_lit_len in E. simpl. lia.
    + destruct (scan_lit _ t) as [r'|] eqn:E; [|done]. intros [= _ <-]. apply scan_lit_len in E. simpl. lia.
    + apply scan_num_len.
  - destruct (scan_value f d s) as [[v1 r1]|] eqn:E1; [|done]. apply IH in E1. pose proof (skip_ws_len r1).
    destruct (skip_ws r1) as [|e r2]; [done|]. simpl in *. case_match; [intros [= _ <-]; lia|]. case_match; [|done].
    destruct (scan_elems f d _) as [[b r3]|] eqn:E2; [|done]. intros [= _ <-]. apply IH in E2.
    pose proof (skip_ws_len r2). lia.
  - destruct s as [|q t]; [done|]. case_match; [|done]. destruct (scan_str t) as [[k r0]|] eqn:E0; [|done].
    apply scan_str_len in E0. pose proof (skip_ws_len r0). destruct (skip_ws r0) as [|e r1]; [done|]. simpl in *.
    case_match; [|done]. destruct (scan_value f d _) as [[v1 r2]|] eqn:E1; [|done]. apply IH in E1.
    pose proof (skip_ws_len r1). pose proof (skip_ws_len r2). destruct (skip_ws r2) as [|e2 r3]; [done|]. simpl in *.
    case_match; [intros [= _ <-]; lia|]. case_match; [|done].
    destruct (scan_members f d _) as [[b r4]|] eqn:E2; [|done]. intros [= _ <-]. apply IH in E2.
    pose proof (skip_ws_len r3). lia.
Qed.

(** With enough fuel, more changes nothing. *)
Lemma scan_fuel f : forall f' d s,
  ((2 * len s + 1 <= f)%nat -> (2 * len s + 1 <= f')%nat -> scan_value f d s = scan_value f' d s) /\
  ((2 * len s + 2 <= f)%nat -> (2 * len s + 2 <= f')%nat -> scan_elems f d s = scan_elems f' d s) /\
  ((2 * len s + 1 <= f)%nat -> (2 * len s + 1 <= f')%nat -> scan_members f d s = scan_members f' d s).
Proof.
  induction f as [|f IH]; intros f' d s; [split_and!; lia|]. destruct f' as [|f']; [split_and!; lia|].
  split_and!; intros H1 H2; cbn [scan_value scan_elems scan_members].
  - destruct s as [|c t]; [done|]. simpl in H1, H2. pose proof (skip_ws_len t) as Hws.
    case_match; [done|]. case_match; [|case_match; [|done]].
    + case_match; [done|]. destruct (skip_ws t) as [|e u]; [done|]. case_match; [done|]. simpl in Hws.
      by rewrite (proj2 (proj2 (IH f' (d + 1) (String e u)))) by (simpl; lia).
    + case_match; [done|]. destruct (skip_ws t) as [|e u]; [done|]. case_match; [done|]. simpl in Hws.
      by rewrite (proj1 (proj2 (IH f' (d + 1) (String e u)))) by (simpl; lia).
  - rewrite (proj1 (IH f' d s)) by lia. destruct (scan_value f' d s) as [[v r]|] eqn:E; [|done].
    apply scan_len in E. pose proof (skip_ws_len r). destruct (skip_ws r) as [|e r2]; [done|]. simpl in *.
    case_match; [done|]. case_match; [|done]. pose proof (skip_ws_len r2).
    by rewrite (proj1 (proj2 (IH f' d (skip_ws r2)))) by lia.
  - destruct s as [|q t]; [done|]. case_match; [|done]. destruct (scan_str t) as [[k r0]|] eqn:E0; [|done].
    apply scan_str_len in E0. pose proof (skip_ws_len r0). destruct (skip_ws r0) as [|e r1]; [done|]. simpl in *.
    case_match; [|done]. pose proof (skip_ws_len r1). rewrite (proj1 (IH f' d (skip_ws r1))) by lia.
    destruct (scan_value f' d _) as [[v1 r2]|] eqn:E1; [|done]. apply scan_len in E1.
    pose proof (skip_ws_len r2). destruct (skip_ws r2) as [|e2 r3]; [done|]. simpl in *. case_match; [done|].
    case_match; [|done]. pose proof (skip_ws_len r3). by rewrite (proj2 (proj2 (IH f' d (skip_ws r3)))) by lia.
Qed.

(** The fuel of [compact] is never what makes it fail. *)
Lemma scan_fuel_enough d s f : (fuel_for s <= f)%nat -> scan_value f d s = scan_value (fuel_for s) d s.
Proof. unfold fuel_for. intros Hf. destruct (scan_fuel f (2 * len s + 2)%nat d s) as [H _]. apply H; lia. Qed.

(** ** Scanning is local: what follows a value does not change it *)
Definition delim (r : string) : Prop :=
  match r with "" => True | String c _ => code c = 44 \/ code c = 125 \/ code c = 93 end.

(** [t] is what was left; [r] comes after it. *)
Definition may_follow (t r : string) : Prop := t <> "" \/ delim r.

Lemma may_follow_delim t r : may_follow t r -> delim t -> delim (t +:+ r).
Proof. destruct t; intros [?|?] ?; simpl; done. Qed.

Lemma cons_app c s r : String c s +:+ r = String c (s +:+ r).
Proof. done. Qed.
Lemma nil_app r : "" +:+ r = r.
Proof. done. Qed.
Lemma ch_app c r : ch c +:+ r = String c r.
Proof. done. Qed.
Lemma str_app_nil s : s +:+ "" = s.
Proof. induction s as [|c s IH]; [done|]. by rewrite cons_app, IH. Qed.

Lemma app_app (s t r : string) : (s +:+ t) +:+ r = s +:+ (t +:+ r).
Proof. induction s as [|c s IH]; [done|]. by rewrite !cons_app, IH. Qed.

Lemma skip_ws_app s r : skip_ws s <> "" -> skip_ws (s +:+ r) = skip_ws s +:+ r.
Proof. induction s as [|c s IH]; simpl; [done|]. case_match; [apply IH|done]. Qed.

Lemma scan_str_app s b t r : scan_str s = Some (b, t) -> scan_str (s +:+ r) = Some (b, t +:+ r).
Proof.
  revert b t. induction s as [s IH] using (induction_ltof1 _ len). unfold ltof in IH. intros b t.
  destruct s as [|c s1]; [done|]. rewrite cons_app. cbn [scan_str]. case_match; [by intros [= <- <-]|].
  case_match.
  - destruct s1 as [|e s2]; [done|]. rewrite ?cons_app. case_match.
    + destruct s2 as [|a [|a2 [|a3 [|a4 s6]]]]; try done. rewrite ?cons_app. case_match; [|done].
      destruct (scan_str s6) as [[b' r']|] eqn:E; [|done]. intros [= <- <-]. apply IH in E; [by rewrite E|simpl; lia].
    + case_match; [|done]. destruct (scan_str s2) as [[b' r']|] eqn:E; [|done]. intros [= <- <-].
      apply IH in E; [by rewrite E|simpl; lia].
  - case_match; [done|]. destruct (scan_str s1) as [[b' r']|] eqn:E; [|done]. intros [= <- <-].
    apply IH in E; [by rewrite E|simpl; lia].
Qed.

Lemma delim_not_digit c r : delim (String c r) -> is_digit c = false /\ (code c =? 46) = false /\
  (code c =? 101) || (code c =? 69) = false.
Proof. unfold delim, is_digit, between. intros [H|[H|H]]; by rewrite H. Qed.

Lemma span_digits_app s ds t r : span_digits s = (ds, t) -> may_follow t r -> span_digits (s +:+ r) = (ds, t +:+ r).
Proof.
  revert ds t. induction s as [|c s IH]; intros ds t; simpl.
  - intros [= <- <-] [?|Hd]; [done|]. destruct r as [|c r]; [done|]. simpl. by destruct (delim_not_digit c r Hd) as [-> _].
  - case_match; [|by intros [= <- <-]]. destruct (span_digits s) as [ds' t'] eqn:E. intros [= <- <-] Hf.
    by rewrite (IH _ _ eq_refl Hf).
Qed.

Lemma scan_int_app s i t r : scan_int s = Some (i, t) -> may_follow t r -> scan_int (s +:+ r) = Some (i, t +:+ r).
Proof.
  destruct s as [|c s]; simpl; [done|]. case_match; [by intros [= <- <-]|]. case_match; [|done].
  destruct (span_digits s) as [ds t'] eqn:E. intros [= <- <-] Hf. by rewrite (span_digits_app _ _ _ _ E Hf).
Qed.

Lemma scan_frac_app s i t r : scan_frac s = Some (i, t) -> may_follow t r -> scan_frac (s +:+ r) = Some (i, t +:+ r).
Proof.
  destruct s as [|c s]; simpl.
  - intros [= <- <-] [?|Hd]; [done|]. destruct r as [|c r]; [done|]. simpl. by destruct (delim_not_digit c r Hd) as (_ & -> & _).
  - case_match; [|by intros [= <- <-]]. destruct (span_digits s) as [[|d ds] t'] eqn:E; [done|]. intros [= <- <-] Hf.
    by rewrite (span_digits_app _ _ _ _ E Hf).
Qed.

Lemma scan_exp_app s i t r : scan_exp s = Some (i, t) -> may_follow t r -> scan_exp (s +:+ r) = Some (i, t +:+ r).
Proof.
  destruct s as [|c s]; simpl.
  - intros [= <- <-] [?|Hd]; [done|]. destruct r as [|c r]; [done|]. simpl. by destruct (delim_not_digit c r Hd) as (_ & _ & ->).
  - case_match; [|by intros [= <- <-]]. destruct s as [|d s]; simpl; [by intros [=]|].
    destruct ((code d =? 43) || (code d =? 45)).
    + cbv iota beta. destruct (span_digits s) as [[|e ds] t'] eqn:E; [done|]. intros [= <- <-] Hf. by rewrite (span_digits_app _ _ _ _ E Hf).
    + cbv iota beta. destruct (span_digits (String d s)) as [[|e ds] t'] eqn:E; [done|]. intros [= <- <-] Hf.
      change (String d (s +:+ r)) with (String d s +:+ r). by rewrite (span_digits_app _ _ _ _ E Hf).
Qed.

Lemma scan_num_app s i t r : scan_num s = Some (i, t) -> may_follow t r -> scan_num (s +:+ r) = Some (i, t +:+ r).
Proof.
  unfold scan_num. intros Hs Hf.
  set (su := match s with String c t => if code c =? 45 then (ch c, t) else ("", s) | "" => ("", "") end) in Hs.
  assert (match s +:+ r with String c t => if code c =? 45 then (ch c, t) else ("", s +:+ r) | "" => ("", "") end
    = (su.1, su.2 +:+ r) \/ s = "") as Hsu.
  { subst su. destruct s as [|c s]; [by right|]. left. rewrite cons_app. by destruct (code c =? 45). }
  destruct Hsu as [-> | ->]; [|done]. destruct su as [sg u]. simpl.
  destruct (scan_int u) as [[i1 s2]|] eqn:E1; [|done]. destruct (scan_frac s2) as [[i2 s3]|] eqn:E2; [|done].
  destruct (scan_exp s3) as [[i3 s4]|] eqn:E3; [|done]. injection Hs as <- <-.
  assert (may_follow s3 r) as F3.
  { destruct Hf as [H|H]; [|by right]. left. intros ->. simpl in E3. by injection E3 as _ <-. }
  assert (may_follow s2 r) as F2.
  { destruct F3 as [H|H]; [|by right]. left. intros ->. simpl in E2. by injection E2 as _ <-. }
  by rewrite (scan_int_app _ _ _ _ E1 F2), (scan_frac_app _ _ _ _ E2 F3), (scan_exp_app _ _ _ _ E3 Hf).
Qed.

Lemma scan_lit_app l s t r : scan_lit l s = Some t -> scan_lit l (s +:+ r) = Some (t +:+ r).
Proof.
  revert s. induction l as [|a l IH]; intros [|b s]; simpl; try done; try by intros [= <-].
  case_match; [|done]. apply IH.
Qed.

Lemma scan_nil f d : scan_value f d "" = None /\ scan_elems f d "" = None /\ scan_members f d "" = None.
Proof. destruct f as [|[|f]]; simpl; done. Qed.

Lemma scan_app f : forall d s v t r, may_follow t r ->
  (scan_value f d s = Some (v, t) -> scan_value f d (s +:+ r) = Some (v, t +:+ r)) /\
  (scan_elems f d s = Some (v, t) -> scan_elems f d (s +:+ r) = Some (v, t +:+ r)) /\
  (scan_members f d s = Some (v, t) -> scan_members f d (s +:+ r) = Some (v, t +:+ r)).
Proof.
  induction f as [|f IH]; intros d s v t r Hf; [by destruct s|].
  split_and!; [destruct s as [|c s]; [done|]; rewrite cons_app|..|destruct s as [|c s]; [done|]; rewrite cons_app];
    cbn [scan_value scan_elems scan_members].
  - case_match; [|case_match; [|case_match; [|case_match; [|case_match; [|case_match]]]]].
    + destruct (scan_str s) as [[b u]|] eqn:E; [|done]. intros [= <- <-]. by rewrite (scan_str_app _ _ _ _ E).
    + case_match; [done|]. destruct (skip_ws s) as [|e u] eqn:E; [done|].
      rewrite skip_ws_app, E, cons_app by by rewrite E. case_match; [by intros [= <- <-]|].
      destruct (scan_members f _ _) as [[b u']|] eqn:E'; [|done]. intros [= <- <-]. rewrite <- cons_app.
      by rewrite (proj2 (proj2 (IH _ _ _ _ _ Hf)) E').
    + case_match; [done|]. destruct (skip_ws s) as [|e u] eqn:E; [done|].
      rewrite skip_ws_app, E, cons_app by by rewrite E. case_match; [by intros [= <- <-]|].
      destruct (scan_elems f _ _) as [[b u']|] eqn:E'; [|done]. intros [= <- <-]. rewrite <- cons_app.
      by rewrite (proj1 (proj2 (IH _ _ _ _ _ Hf)) E').
    + destruct (scan_lit _ s) as [u|] eqn:E; [|done]. intros [= <- <-]. by rewrite (scan_lit_app _ _ _ _ E).
    + destruct (scan_lit _ s) as [u|] eqn:E; [|done]. intros [= <- <-]. by rewrite (scan_lit_app _ _ _ _ E).
    + destruct (scan_lit _ s) as [u|] eqn:E; [|done]. intros [= <- <-]. by rewrite (scan_lit_app _ _ _ _ E).
    + intros E. rewrite <- cons_app. by apply scan_num_app.
  - destruct (scan_value f d s) as [[v1 r1]|] eqn:E1; [|done]. destruct (skip_ws r1) as [|e r2] eqn:Es; [done|]. intros Hs.
    assert (may_follow r1 r) as Hf1 by (left; by intros ->).
    rewrite (proj1 (IH _ _ _ _ _ Hf1) E1). rewrite skip_ws_app, Es, cons_app by by rewrite Es.
    destruct (code e =? 93); [by injection Hs as <- <-|]. destruct (code e =? 44); [|done].
    destruct (scan_elems f d (skip_ws r2)) as [[b r3]|] eqn:E2; [|done]. injection Hs as <- <-.
    assert (skip_ws r2 <> "") as Hne by (intros H; rewrite H in E2; destruct (scan_nil f d) as (_ & ? & _); congruence).
    by rewrite skip_ws_app, (proj1 (proj2 (IH _ _ _ _ _ Hf)) E2) by done.
  - case_match; [|done]. destruct (scan_str s) as [[k r0]|] eqn:E0; [|done]. rewrite (scan_str_app _ _ _ _ E0).
    destruct (skip_ws r0) as [|e r1] eqn:Es0; [done|]. rewrite skip_ws_app, Es0, cons_app by by rewrite Es0.
    case_match; [|done]. destruct (scan_value f d (skip_ws r1)) as [[v1 r2]|] eqn:E1; [|done].
    destruct (skip_ws r2) as [|e2 r3] eqn:Es2; [done|]. intros Hs.
    assert (skip_ws r1 <> "") as Hne1 by (intros H'; rewrite H' in E1; destruct (scan_nil f d) as (? & _ & _); congruence).
    assert (may_follow r2 r) as Hf2 by (left; by intros ->).
    rewrite skip_ws_app, (proj1 (IH _ _ _ _ _ Hf2) E1) by done. rewrite skip_ws_app, Es2, cons_app by by rewrite Es2.
    destruct (code e2 =? 125); [by injection Hs as <- <-|]. destruct (code e2 =? 44); [|done].
    destruct (scan_members f d (skip_ws r3)) as [[b r4]|] eqn:E2; [|done]. injection Hs as <- <-.
    assert (skip_ws r3 <> "") as Hne by (intros H'; rewrite H' in E2; destruct (scan_nil f d) as (_ & _ & ?); congruence).
    by rewrite skip_ws_app, (proj2 (proj2 (IH _ _ _ _ _ Hf)) E2) by done.
Qed.

(** ** Strings come back *)
#[local] Arguments String.append !_ _ : simpl nomatch.

Inductive chunk_wf : chunk -> Prop :=
| wf_ascii c : (code c <? 128) = true -> chunk_wf (CAscii c)
| wf_2 c1 c2 : utf8_2 c1 c2 = true -> chunk_wf (CRune (String c1 (ch c2)))
| wf_3 c1 c2 c3 : utf8_3 c1 c2 c3 = true -> utf8_2 c1 c2 = false -> chunk_wf (CRune (String c1 (String c2 (ch c3))))
| wf_4 c1 c2 c3 c4 : utf8_4 c1 c2 c3 c4 = true -> utf8_2 c1 c2 = false -> utf8_3 c1 c2 c3 = false ->
    chunk_wf (CRune (String c1 (String c2 (String c3 (ch c4)))))
| wf_bad c : chunk_wf (CBad c).

Definition chunk_str (k : chunk) : string := match k with CAscii c | CBad c => ch c | CRune s => s end.

Lemma chunks_of_spec s : Forall chunk_wf (chunks_of s) /\ str_concat (chunk_str <$> chunks_of s) = s.
Proof.
  induction s as [s IH] using (induction_ltof1 _ len). unfold ltof in IH.
  destruct s as [|c s1]; [done|]. cbn [chunks_of].
  assert (forall k t, (len t < len (String c s1))%nat -> chunk_wf k -> chunk_str k +:+ t = String c s1 ->
    Forall chunk_wf (k :: chunks_of t) /\ str_concat (chunk_str <$> k :: chunks_of t) = String c s1) as Hstep.
  { intros k t Hl Hk <-. destruct (IH t Hl) as [H1 H2]. split; [by constructor|]. rewrite fmap_cons.
    change (chunk_str k +:+ str_concat (chunk_str <$> chunks_of t) = chunk_str k +:+ t). by rewrite H2. }
  destruct (code c <? 128) eqn:Ec; [apply Hstep; [simpl; lia|by constructor|done]|].
  destruct s1 as [|c2 s2]; [split; [repeat constructor|done]|].
  destruct (utf8_2 c c2) eqn:E2; [apply Hstep; [simpl; lia|by constructor|done]|].
  destruct s2 as [|c3 s3]; [apply (Hstep (CBad c)); [simpl; lia|constructor|done]|].
  destruct (utf8_3 c c2 c3) eqn:E3; [apply Hstep; [simpl; lia|by constructor|done]|].
  destruct s3 as [|c4 s4]; [apply (Hstep (CBad c)); [simpl; lia|constructor|done]|].
  destruct (utf8_4 c c2 c3 c4) eqn:E4; [apply Hstep; [simpl; lia|by constructor|done]|].
  apply (Hstep (CBad c)); [simpl; lia|constructor|done].
Qed.

Lemma between_bounds lo hi c : between lo hi c = true -> lo <= code c <= hi.
Proof. unfold between. lia. Qed.

Lemma utf8_2_bounds c1 c2 : utf8_2 c1 c2 = true -> 194 <= code c1 <= 223 /\ 128 <= code c2 <= 191.
Proof. unfold utf8_2, cont. by intros [?%between_bounds ?%between_bounds]%andb_prop. Qed.

Lemma utf8_3_bounds c1 c2 c3 : utf8_3 c1 c2 c3 = true ->
  224 <= code c1 <= 239 /\ 128 <= code c2 <= 191 /\ 128 <= code c3 <= 191.
Proof. unfold utf8_3, cont, between. lia. Qed.

Lemma utf8_4_bounds c1 c2 c3 c4 : utf8_4 c1 c2 c3 c4 = true ->
  240 <= code c1 <= 244 /\ 128 <= code c2 <= 191 /\ 128 <= code c3 <= 191 /\ 128 <= code c4 <= 191.
Proof. unfold utf8_4, cont, between. lia. Qed.

Definition add_body (k : string) (o : option (string * string)) : option (string * string) :=
  (fun br => (k +:+ br.1, br.2)) <$> o.

Lemma scan_high c t : 128 <= code c -> scan_str (String c t) = add_body (ch c) (scan_str t).
Proof.
  intros Hc. cbn [scan_str]. assert (code c =? 34 = false) as -> by lia. assert (code c =? 92 = false) as -> by lia.
  assert (code c <? 32 = false) as -> by lia. by destruct (scan_str t) as [[]|].
Qed.

Lemma add_body_app k k' o : add_body k (add_body k' o) = add_body (k +:+ k') o.
Proof. destruct o as [[b r]|]; simpl; [|done]. by rewrite app_app. Qed.

Lemma scan_u4 n t : n ∈ [8232; 8233; 65533] -> scan_str (u4 n +:+ t) = add_body (u4 n) (scan_str t).
Proof.
  assert (u4 8232 = "\u2028" /\ u4 8233 = "\u2029" /\ u4 65533 = "\ufffd") as (H1 & H2 & H3) by done.
  rewrite !elem_of_cons. intros [->|[->|[->|[]%elem_of_nil]]]; rewrite ?H1, ?H2, ?H3; cbn;
    by destruct (scan_str t) as [[]|].
Qed.

(** The escape of a known byte, computed. *)
Ltac eval_escape := repeat match goal with
  |- context [escape ?c] => let e := eval vm_compute in (escape c) in change (escape c) with e end.

Lemma scan_escape c t : (code c <? 128) = true -> scan_str (escape c +:+ t) = add_body (escape c) (scan_str t).
Proof.
  destruct c as [[] [] [] [] [] [] [] []]; intros H; try discriminate H; eval_escape; cbn;
    by destruct (scan_str t) as [[]|].
Qed.

Lemma scan_chunk k t : chunk_wf k -> scan_str (quote_chunk k +:+ t) = add_body (quote_chunk k) (scan_str t).
Proof.
  intros [c Hc|c1 c2 H|c1 c2 c3 H _|c1 c2 c3 c4 H _ _|c]; cbn [quote_chunk].
  - by apply scan_escape.
  - apply utf8_2_bounds in H. repeat (case_bool_decide; [done|]). rewrite !cons_app, ch_app, !scan_high by lia.
    by rewrite !add_body_app.
  - apply utf8_3_bounds in H. repeat (case_bool_decide; [apply scan_u4; set_solver|]).
    rewrite !cons_app, ch_app, !scan_high by lia. by rewrite !add_body_app.
  - apply utf8_4_bounds in H. repeat (case_bool_decide; [done|]). rewrite !cons_app, ch_app, !scan_high by lia.
    by rewrite !add_body_app.
  - apply scan_u4. set_solver.
Qed.

Lemma qbody_cons k ks : str_concat (quote_chunk <$> k :: ks) = quote_chunk k +:+ str_concat (quote_chunk <$> ks).
Proof. done. Qed.

Lemma scan_quote s r : scan_str (qbody s +:+ String dquote r) = Some (qbody s, r).
Proof.
  unfold qbody. destruct (chunks_of_spec s) as [Hwf _]. induction Hwf as [|k ks Hk Hks IH]; [done|].
  rewrite qbody_cons. by rewrite app_app, scan_chunk, IH.
Qed.

(** Compaction leaves quoted strings alone. *)
Definition plain (c : ascii) : bool := negb ((code c =? 60) || (code c =? 62) || (code c =? 38) || (code c =? 226)).
Fixpoint all_plain (s : string) : bool := match s with "" => true | String c s' => plain c && all_plain s' end.

Lemma html_plain1 c t : plain c = true -> html (String c t) = String c (html t).
Proof.
  unfold plain. intros H. cbn [html]. assert ((code c =? 60) || (code c =? 62) || (code c =? 38) = false) as -> by lia.
  assert (code c =? 226 = false) as -> by lia. destruct t as [|c2 [|c3 t]]; done.
Qed.

Lemma html_plain s t : all_plain s = true -> html (s +:+ t) = s +:+ html t.
Proof.
  induction s as [|c s IH]; [done|]. cbn [all_plain]. intros [Hc Hs]%andb_prop. by rewrite cons_app, html_plain1, IH.
Qed.

Lemma plain_high c : 128 <= code c -> code c <> 226 -> plain c = true.
Proof. unfold plain. lia. Qed.

Lemma escape_plain c : (code c <? 128) = true -> all_plain (escape c) = true.
Proof. destruct c as [[] [] [] [] [] [] [] []]; intros H; try discriminate H; by vm_compute. Qed.

Lemma code_inj c c' : code c = code c' -> c = c'.
Proof.
  unfold code. intros H%N2Z.inj. by rewrite <- (ascii_N_embedding c), <- (ascii_N_embedding c'), H.
Qed.

Lemma html_226 c1 c2 c3 t : code c1 = 226 -> (code c2 =? 128) && ((code c3 =? 168) || (code c3 =? 169)) = false ->
  html (String c1 (String c2 (String c3 t))) = String c1 (html (String c2 (String c3 t))).
Proof. intros E1 Hs. cbn [html]. rewrite E1. simpl. by rewrite Hs. Qed.

Lemma html_chunk k t : chunk_wf k -> html (quote_chunk k +:+ t) = quote_chunk k +:+ html t.
Proof.
  intros [c Hc|c1 c2 H|c1 c2 c3 H _|c1 c2 c3 c4 H _ _|c]; cbn [quote_chunk].
  - by apply html_plain, escape_plain.
  - apply utf8_2_bounds in H. repeat (case_bool_decide; [done|]). apply html_plain. simpl.
    by rewrite !plain_high by lia.
  - apply utf8_3_bounds in H. case_bool_decide as Hl; [by apply html_plain|]. case_bool_decide as Hp; [by apply html_plain|].
    destruct (decide (code c1 = 226)) as [E1|]; [|apply html_plain; simpl; by rewrite !plain_high by lia].
    assert ((code c2 =? 128) && ((code c3 =? 168) || (code c3 =? 169)) = false) as Hsep.
    { destruct (code c2 =? 128) eqn:E2; [|done]. simpl. apply Z.eqb_eq in E2.
      destruct (code c3 =? 168) eqn:E3; [destruct Hl|destruct (code c3 =? 169) eqn:E4; [destruct Hp|done]].
      all: apply Z.eqb_eq in E3 || apply Z.eqb_eq in E4; f_equal; [by apply code_inj|]; f_equal; [by apply code_inj|];
        unfold ch; f_equal; by apply code_inj. }
    rewrite !cons_app, ch_app, html_226 by done. by rewrite !html_plain1 by (apply plain_high; lia).
  - apply utf8_4_bounds in H. repeat (case_bool_decide; [done|]). apply html_plain. simpl.
    by rewrite !plain_high by lia.
  - by apply html_plain.
Qed.

Lemma html_quote s : html (qbody s) = qbody s.
Proof.
  unfold qbody. destruct (chunks_of_spec s) as [Hwf _]. induction Hwf as [|k ks Hk Hks IH]; [done|].
  rewrite qbody_cons, html_chunk, IH; done.
Qed.

Lemma unquote_high2 c1 c2 t : utf8_2 c1 c2 = true -> unquote (String c1 (String c2 t)) = cons_str (String c1 (ch c2)) (unquote t).
Proof.
  intros H. pose proof (utf8_2_bounds _ _ H) as [Hb _]. cbn [unquote].
  assert (code c1 =? 92 = false) as -> by lia. assert ((code c1 =? 34) || (code c1 <? 32) = false) as -> by lia.
  assert (code c1 <? 128 = false) as -> by lia. by rewrite H.
Qed.

Lemma unquote_high3 c1 c2 c3 t : utf8_2 c1 c2 = false -> utf8_3 c1 c2 c3 = true ->
  unquote (String c1 (String c2 (String c3 t))) = cons_str (String c1 (String c2 (ch c3))) (unquote t).
Proof.
  intros H2 H. pose proof (utf8_3_bounds _ _ _ H) as [Hb _]. cbn [unquote].
  assert (code c1 =? 92 = false) as -> by lia. assert ((code c1 =? 34) || (code c1 <? 32) = false) as -> by lia.
  assert (code c1 <? 128 = false) as -> by lia. by rewrite H2, H.
Qed.

Lemma unquote_high4 c1 c2 c3 c4 t : utf8_2 c1 c2 = false -> utf8_3 c1 c2 c3 = false -> utf8_4 c1 c2 c3 c4 = true ->
  unquote (String c1 (String c2 (String c3 (String c4 t)))) = cons_str (String c1 (String c2 (String c3 (ch c4)))) (unquote t).
Proof.
  intros H2 H3 H. pose proof (utf8_4_bounds _ _ _ _ H) as [Hb _]. cbn [unquote].
  assert (code c1 =? 92 = false) as -> by lia. assert ((code c1 =? 34) || (code c1 <? 32) = false) as -> by lia.
  assert (code c1 <? 128 = false) as -> by lia. by rewrite H2, H3, H.
Qed.

Lemma unquote_plain c t : 32 <= code c < 128 -> code c <> 34 -> code c <> 92 ->
  unquote (String c t) = cons_str (ch c) (unquote t).
Proof.
  intros H1 H2 H3. cbn [unquote]. assert (code c =? 92 = false) as -> by lia.
  assert ((code c =? 34) || (code c <? 32) = false) as -> by lia. by assert (code c <? 128 = true) as -> by lia.
Qed.

Lemma unquote_simple e e' t : simple_escape e = Some e' -> code e <> 117 ->
  unquote (String backslash (String e t)) = cons_str (ch e') (unquote t).
Proof.
  intros He Hu. cbn [unquote]. change (code backslash =? 92) with true. cbv iota.
  assert (code e =? 117 = false) as -> by lia. by rewrite He.
Qed.

Lemma unquote_u a b c d v t : hex4 a b c d = Some v -> (55296 <=? v) && (v <? 57344) = false ->
  unquote (String backslash (String "u" (String a (String b (String c (String d t)))))) = cons_str (encode_rune v) (unquote t).
Proof.
  intros Hv Hs. cbn [unquote]. change (code backslash =? 92) with true. cbv iota.
  change (code "u" =? 117) with true. cbv iota. by rewrite Hv, Hs.
Qed.

(** The three shapes of an escaped byte. *)
Definition escape_shape (c : ascii) : bool :=
  match escape c with
  | String x "" => bool_decide (x = c) && (32 <=? code c) && (code c <? 128) && negb (code c =? 34) && negb (code c =? 92)
  | String b (String e "") => bool_decide (b = backslash) && bool_decide (simple_escape e = Some c) && negb (code e =? 117)
  | String b (String u (String h1 (String h2 (String h3 (String h4 ""))))) =>
      bool_decide (b = backslash) && bool_decide (u = "u"%char) &&
      match hex4 h1 h2 h3 h4 with
      | Some v => negb ((55296 <=? v) && (v <? 57344)) && bool_decide (encode_rune v = ch c)
      | None => false
      end
  | _ => false
  end.

Lemma escape_shapes c : (code c <? 128) = true -> escape_shape c = true.
Proof. destruct c as [[] [] [] [] [] [] [] []]; intros H; try discriminate H; vm_compute; reflexivity. Qed.

Lemma unquote_escape c t : (code c <? 128) = true -> unquote (escape c +:+ t) = cons_str (ch c) (unquote t).
Proof.
  intros H%escape_shapes. unfold escape_shape in H.
  destruct (escape c) as [|x [|e [|h1 [|h2 [|h3 [|h4 [|]]]]]]]; try discriminate H.
  - repeat (apply andb_prop in H as [H ?]). apply bool_decide_eq_true in H. subst x. rewrite cons_app, nil_app.
    apply unquote_plain; lia.
  - repeat (apply andb_prop in H as [H ?]). apply bool_decide_eq_true in H. subst x. rewrite !cons_app, nil_app.
    apply unquote_simple; [by apply (bool_decide_eq_true_1 _)|lia].
  - apply andb_prop in H as [H1 H2]. apply andb_prop in H1 as [H1 H1']. apply bool_decide_eq_true in H1, H1'. subst x e.
    destruct (hex4 h1 h2 h3 h4) as [v|] eqn:Ev; [|done]. apply andb_prop in H2 as [H2 H3].
    apply bool_decide_eq_true in H3. apply negb_true_iff in H2. rewrite !cons_app, nil_app.
    rewrite (unquote_u _ _ _ _ _ _ Ev H2). by rewrite H3.
Qed.

Lemma unquote_sep t : unquote (u4 8232 +:+ t) = cons_str lineSep (unquote t) /\
  unquote (u4 8233 +:+ t) = cons_str paraSep (unquote t).
Proof.
  split; (etrans; [apply unquote_u; reflexivity|]); f_equal; reflexivity.
Qed.

Lemma unquote_chunk k t : chunk_wf k -> chunk_ok k = true -> unquote (quote_chunk k +:+ t) = cons_str (chunk_str k) (unquote t).
Proof.
  intros [c Hc|c1 c2 H|c1 c2 c3 H H2|c1 c2 c3 c4 H H2 H3|c] Hok; cbn [quote_chunk chunk_str]; [| | | |done].
  - by apply unquote_escape.
  - repeat (case_bool_decide; [done|]). rewrite !cons_app, ch_app. by apply unquote_high2.
  - case_bool_decide as Hl; [rewrite Hl; apply unquote_sep|]. case_bool_decide as Hp; [rewrite Hp; apply unquote_sep|].
    rewrite !cons_app, ch_app. by apply unquote_high3.
  - repeat (case_bool_decide; [done|]). rewrite !cons_app, ch_app. by apply unquote_high4.
Qed.

(** A string of valid UTF-8 is read back as it was written. *)
Lemma unquote_qbody s : valid_utf8 s = true -> unquote (qbody s) = Some s.
Proof.
  unfold valid_utf8, qbody. destruct (chunks_of_spec s) as [Hwf Hs]. rewrite <- Hs at 3. clear Hs.
  induction Hwf as [|k ks Hk Hks IH]; [done|]. cbn [forallb]. intros [Hok Hoks]%andb_prop.
  by rewrite qbody_cons, unquote_chunk, IH.
Qed.

(** ** Integers come back *)
Lemma chr_digit n : 0 <= n < 10 -> is_digit (chr (48 + n)) = true /\ code (chr (48 + n)) = 48 + n.
Proof.
  intros H. rewrite <- (Z2Nat.id n) by lia. assert (Z.to_nat n < 10)%nat as Hn by lia. generalize dependent (Z.to_nat n).
  intros k Hk. do 10 (destruct k as [|k]; [done|]). lia.
Qed.

Lemma dec_digits_val f : forall n acc, 0 <= n < 10 ^ Z.of_nat f -> digits_val 0 (dec_digits f n acc) = digits_val n acc.
Proof.
  induction f as [|f IH]; intros n acc Hn; simpl; [simpl in Hn; by assert (n = 0) as -> by lia|].
  destruct (chr_digit (n mod 10)) as [Hd Hc]; [apply Z.mod_pos_bound; lia|].
  destruct (n <? 10) eqn:E.
  - cbn [digits_val]. rewrite Hd, Hc, Z.mod_small by lia. f_equal. lia.
  - rewrite IH.
    + cbn [digits_val]. rewrite Hd, Hc. f_equal. pose proof (Z.div_mod n 10). lia.
    + rewrite Nat2Z.inj_succ, Z.pow_succ_r in Hn by lia. split; [apply Z.div_pos; lia|].
      apply Z.div_lt_upper_bound; lia.
Qed.

Fixpoint all_digits (s : string) : bool := match s with "" => true | String c s' => is_digit c && all_digits s' end.

Lemma dec_digits_shape f : forall n acc, 0 <= n < 10 ^ Z.of_nat (S f) -> all_digits acc = true ->
  exists c s, dec_digits (S f) n acc = String c s /\ is_digit c = true /\ all_digits s = true /\
    (code c = 48 -> n = 0 /\ s = acc).
Proof.
  induction f as [|f IH]; intros n acc Hn Ha.
  all: destruct (chr_digit (n mod 10)) as [Hd Hc]; [apply Z.mod_pos_bound; lia|].
  - simpl in Hn. simpl. assert (n <? 10 = true) as -> by lia. eexists _, _. split_and!; [done..|].
    rewrite Hc, Z.mod_small by lia. intros H0. split; [lia|done].
  - change (dec_digits (S (S f)) n acc) with
      (if n <? 10 then String (chr (48 + n mod 10)) acc else dec_digits (S f) (n / 10) (String (chr (48 + n mod 10)) acc)).
    destruct (n <? 10) eqn:E.
    + eexists _, _. split_and!; [done..|]. rewrite Hc, Z.mod_small by lia. intros H0. split; [lia|done].
    + destruct (IH (n / 10) (String (chr (48 + n mod 10)) acc)) as (c & s & -> & H1 & H2 & H3).
      * rewrite Nat2Z.inj_succ, Z.pow_succ_r in Hn by lia. split; [apply Z.div_pos; lia|].
        apply Z.div_lt_upper_bound; lia.
      * simpl. by rewrite Hd.
      * exists c, s. split_and!; [done..|]. intros H0. destruct (H3 H0) as [Hz _].
        assert (1 <= n / 10) by (apply Z.div_le_lower_bound; lia). lia.
Qed.

Definition int64 (n : Z) : Prop := - 2 ^ 63 <= n < 2 ^ 63.

Lemma dec_20 n : 0 <= n <= 2 ^ 63 ->
  exists c s, dec_digits 20 n "" = String c s /\ is_digit c = true /\ all_digits s = true /\ (code c = 48 -> s = "") /\
    digits_val 0 (String c s) = Some n.
Proof.
  intros Hn. destruct (dec_digits_shape 19 n "") as (c & s & E & H1 & H2 & H3); [lia|done|].
  exists c, s. split_and!; [done..| |]; [intros H0; by apply H3|]. rewrite <- E, dec_digits_val; [done|lia].
Qed.

Lemma digit_not_sign c : is_digit c = true -> (code c =? 45) = false.
Proof. unfold is_digit, between. lia. Qed.

Lemma itoa_parse n : int64 n -> parse_int64 (itoa n) = Some n.
Proof.
  unfold int64, parse_int64, itoa. intros Hn. destruct (n <? 0) eqn:E.
  - destruct (dec_20 (- n)) as (c & s & -> & H1 & H2 & H3 & H4); [lia|]. change (code "-" =? 45) with true. cbv iota.
    rewrite H4. simpl. assert ((- 2 ^ 63 <=? - - n) && (- - n <? 2 ^ 63) = true) as -> by lia. f_equal. lia.
  - destruct (dec_20 n) as (c & s & -> & H1 & H2 & H3 & H4); [lia|]. rewrite (digit_not_sign c H1), H4.
    by assert ((- 2 ^ 63 <=? n) && (n <? 2 ^ 63) = true) as -> by lia.
Qed.

Lemma span_all_digits s : all_digits s = true -> span_digits s = (s, "").
Proof. induction s as [|c s IH]; simpl; [done|]. intros [-> Hs]%andb_prop. by rewrite IH. Qed.

Lemma scan_int_digits c s : is_digit c = true -> all_digits s = true -> (code c = 48 -> s = "") ->
  scan_int (String c s) = Some (String c s, "").
Proof.
  intros Hc Hs Hz. cbn [scan_int]. destruct (code c =? 48) eqn:E.
  - apply Z.eqb_eq in E. by rewrite Hz.
  - by rewrite Hc, span_all_digits.
Qed.

Lemma scan_num_digits sg c s : sg = "" \/ sg = "-" -> is_digit c = true -> all_digits s = true -> (code c = 48 -> s = "") ->
  scan_num (sg +:+ String c s) = Some (sg +:+ String c s, "").
Proof.
  intros Hsg Hc Hs Hz. unfold scan_num.
  assert (match sg +:+ String c s with String e t => if code e =? 45 then (ch e, t) else ("", sg +:+ String c s)
    | "" => ("", "") end = (sg, String c s)) as ->.
  { destruct Hsg as [-> | ->]; [|done]. rewrite nil_app. by rewrite digit_not_sign. }
  rewrite scan_int_digits by done. simpl. by rewrite !str_app_nil.
Qed.

(** A value in compact form, at depth [d]. *)
Definition value_at (d : Z) (v : string) : Prop := scan_value (fuel_for v) d v = Some (v, "").

Lemma scan_to_num f d c s : is_digit c = true \/ code c = 45 -> scan_value (S f) d (String c s) = scan_num (String c s).
Proof.
  intros Hc. assert (45 <= code c <= 57) as Hb by (unfold is_digit, between in Hc; lia). cbn [scan_value].
  assert (code c =? 34 = false) as -> by lia. assert (code c =? 123 = false) as -> by lia.
  assert (code c =? 91 = false) as -> by lia. assert (code c =? 116 = false) as -> by lia.
  assert (code c =? 102 = false) as -> by lia. by assert (code c =? 110 = false) as -> by lia.
Qed.

Lemma itoa_value d n : int64 n -> value_at d (itoa n).
Proof.
  unfold int64, value_at, itoa. intros Hn. assert (forall s, exists f, fuel_for s = S f) as Hf.
  { intros s. exists (2 * len s + 1)%nat. unfold fuel_for. lia. }
  destruct (n <? 0) eqn:E.
  - destruct (dec_20 (- n)) as (c & s & -> & H1 & H2 & H3 & _); [lia|]. destruct (Hf (String "-" (String c s))) as [f ->].
    rewrite scan_to_num by by right. by apply (scan_num_digits "-"); [right|..].
  - destruct (dec_20 n) as (c & s & -> & H1 & H2 & H3 & _); [lia|]. destruct (Hf (String c s)) as [f ->].
    rewrite scan_to_num by by left. by apply (scan_num_digits ""); [left|..].
Qed.

Lemma quote_value d s : value_at d (quote s).
Proof.
  unfold value_at, fuel_for, quote. replace (2 * len (String dquote (qbody s +:+ ch dquote)) + 2)%nat
    with (S (2 * len (String dquote (qbody s +:+ ch dquote)) + 1)) by lia. cbn [scan_value].
  change (code dquote =? 34) with true. cbv iota. change (ch dquote) with (String dquote "").
  by rewrite scan_quote, html_quote.
Qed.

Lemma lit_value d : value_at d "true" /\ value_at d "false" /\ value_at d "null".
Proof. by split_and!. Qed.

(** ** Objects come back *)
Lemma scan_bad_head f d c v : is_space c = true \/ code c = 93 -> scan_value f d (String c v) = None.
Proof.
  intros H. destruct f as [|f]; [done|]. assert (code c <= 32 \/ code c = 93) as Hc by (unfold is_space in H; lia). clear H.
  cbn [scan_value].
  assert (code c =? 34 = false) as -> by lia. assert (code c =? 123 = false) as -> by lia.
  assert (code c =? 91 = false) as -> by lia. assert (code c =? 116 = false) as -> by lia.
  assert (code c =? 102 = false) as -> by lia. assert (code c =? 110 = false) as -> by lia.
  unfold scan_num. assert (code c =? 45 = false) as -> by lia. cbn [scan_int]. assert (code c =? 48 = false) as -> by lia.
  by assert (is_digit c = false) as -> by (unfold is_digit, between; lia).
Qed.

Lemma value_first d c v : value_at d (String c v) -> is_space c = false /\ code c <> 93.
Proof.
  unfold value_at. intros H. destruct (is_space c) eqn:Es; [rewrite scan_bad_head in H; [done|by left]|].
  split; [done|]. intros E. rewrite scan_bad_head in H; [done|by right].
Qed.

Lemma value_head d v t : value_at d v -> skip_ws (v +:+ t) = v +:+ t /\ v <> "".
Proof.
  destruct v as [|c v]; [done|]. intros [H _]%value_first. split; [|done]. rewrite cons_app. cbn [skip_ws]. by rewrite H.
Qed.

Lemma value_scan f d v t : value_at d v -> delim t -> (2 * len v + 1 <= f)%nat -> scan_value f d (v +:+ t) = Some (v, t).
Proof.
  unfold value_at. intros Hv Ht Hf. rewrite <- (nil_app t) at 2. apply scan_app; [by right|]. rewrite <- Hv.
  apply scan_fuel; unfold fuel_for; lia.
Qed.

Definition member_ok (d : Z) (kv : string * string) : Prop :=
  (forall r, scan_str (kv.1 +:+ String dquote r) = Some (kv.1, r)) /\ html kv.1 = kv.1 /\ value_at d kv.2.

Definition members_tail (rest : list (string * string)) : string :=
  match rest with [] => "}" | _ => String "," (print_members rest) end.

Lemma print_members_cons k v rest :
  print_members ((k, v) :: rest) = String dquote (k +:+ String dquote (String ":" (v +:+ members_tail rest))).
Proof. by destruct rest as [|[k' v'] rest]. Qed.

Lemma tail_delim rest r : delim (members_tail rest +:+ r).
Proof. destruct rest as [|[k v] rest]; simpl; auto. Qed.

Lemma len_app s t : len (s +:+ t) = (len s + len t)%nat.
Proof. induction s as [|c s IH]; [done|]. rewrite cons_app. simpl. lia. Qed.

Lemma len_members k v rest :
  len (print_members ((k, v) :: rest)) = (len k + len v + len (members_tail rest) + 3)%nat.
Proof. rewrite print_members_cons. simpl. rewrite !len_app. simpl. rewrite len_app. lia. Qed.

Lemma len_tail kv rest : len (members_tail (kv :: rest)) = S (len (print_members (kv :: rest))).
Proof. done. Qed.

Lemma members_scan d l : Forall (member_ok d) l -> l <> [] -> forall f r,
  (2 * len (print_members l) + 1 <= f)%nat -> scan_members f d (print_members l +:+ r) = Some (print_members l, r).
Proof.
  induction 1 as [|[k v] rest (Hk & Hh & Hv) Hrest IH]; [done|]. intros _ f r Hf. rewrite len_members in Hf.
  destruct f as [|f]; [lia|]. rewrite print_members_cons. rewrite !cons_app, app_app, !cons_app, !app_app.
  cbn [scan_members]. change (code dquote =? 34) with true. cbv iota. simpl fst in *. rewrite Hk. cbn [skip_ws].
  change (is_space ":") with false. cbv iota. change (code ":" =? 58) with true. cbv iota. simpl snd in *.
  destruct (value_head d v (members_tail rest +:+ r) Hv) as [-> _].
  rewrite (value_scan f d v _ Hv (tail_delim rest r)) by lia. rewrite Hh.
  destruct rest as [|[k' v'] rest].
  - cbn [members_tail]. rewrite (cons_app "}"), nil_app. cbn [skip_ws]. change (is_space "}") with false. cbv iota.
    change (code "}" =? 125) with true. cbv iota. by rewrite !cons_app, app_app.
  - cbn [members_tail]. rewrite cons_app. cbn [skip_ws]. change (is_space ",") with false. cbv iota.
    change (code "," =? 125) with false. change (code "," =? 44) with true. cbv iota.
    assert (skip_ws (print_members ((k', v') :: rest) +:+ r) = print_members ((k', v') :: rest) +:+ r) as ->.
    { rewrite print_members_cons. done. }
    rewrite IH; [|done|rewrite len_tail in Hf; lia]. by rewrite !cons_app, !app_app.
Qed.

Lemma print_obj_value d l : d < maxNestingDepth -> Forall (member_ok (d + 1)) l -> value_at d (print_obj l).
Proof.
  intros Hd Hl. unfold value_at, fuel_for, print_obj.
  replace (2 * len (String "{" (print_members l)) + 2)%nat with (S (2 * len (String "{" (print_members l)) + 1)) by lia.
  cbn [scan_value]. change (code "{" =? 34) with false. change (code "{" =? 123) with true. cbv iota.
  assert (maxNestingDepth <=? d = false) as -> by lia. destruct l as [|[k v] rest]; [done|].
  assert (exists r, print_members ((k, v) :: rest) = String dquote r) as [r Er].
  { rewrite print_members_cons. by eexists. }
  assert (skip_ws (print_members ((k, v) :: rest)) = print_members ((k, v) :: rest)) as -> by by rewrite Er.
  rewrite Er at 1. change (code dquote =? 125) with false. cbv iota. rewrite <- Er.
  pose proof (members_scan (d + 1) ((k, v) :: rest) Hl ltac:(done)
    (2 * len (String "{" (print_members ((k, v) :: rest))) + 1)%nat "") as Hs.
  rewrite str_app_nil in Hs. by rewrite Hs by (simpl; lia).
Qed.

Lemma members_parse d l : Forall (member_ok d) l -> l <> [] -> forall f r,
  (len (print_members l) < f)%nat -> members_of f d (print_members l +:+ r) = Some l.
Proof.
  induction 1 as [|[k v] rest (Hk & Hh & Hv) Hrest IH]; [done|]. intros _ f r Hf. rewrite len_members in Hf.
  destruct f as [|f]; [lia|]. rewrite print_members_cons. rewrite !cons_app, app_app, !cons_app, !app_app.
  cbn [members_of]. change (code dquote =? 34) with true. cbv iota. simpl fst in *. rewrite Hk. cbn [skip_ws].
  change (is_space ":") with false. cbv iota. change (code ":" =? 58) with true. cbv iota zeta. simpl snd in *.
  destruct (value_head d v (members_tail rest +:+ r) Hv) as [-> _].
  rewrite (value_scan _ d v _ Hv (tail_delim rest r)) by (unfold fuel_for; rewrite len_app; lia).
  assert (str_take (len (v +:+ members_tail rest +:+ r) - len (members_tail rest +:+ r)) (v +:+ members_tail rest +:+ r) = v) as ->.
  { rewrite len_app, Nat.add_sub. apply str_take_full. }
  destruct rest as [|[k' v'] rest]; [done|].
  cbn [members_tail]. rewrite cons_app. cbn [skip_ws]. change (is_space ",") with false. cbv iota.
  change (code "," =? 125) with false. change (code "," =? 44) with true. cbv iota.
  assert (skip_ws (print_members ((k', v') :: rest) +:+ r) = print_members ((k', v') :: rest) +:+ r) as ->.
  { rewrite print_members_cons. done. }
  rewrite IH; [done|done|rewrite len_tail in Hf; lia].
Qed.

Lemma object_print d l : Forall (member_ok (d + 1)) l -> object_of d (print_obj l) = Some l.
Proof.
  intros Hl. unfold object_of, print_obj. change (code "{" =? 123) with true. cbv iota.
  destruct l as [|[k v] rest]; [done|].
  assert (exists r, print_members ((k, v) :: rest) = String dquote r) as [r Er].
  { rewrite print_members_cons. by eexists. }
  assert (skip_ws (print_members ((k, v) :: rest)) = print_members ((k, v) :: rest)) as -> by by rewrite Er.
  rewrite Er at 1. change (code dquote =? 125) with false. cbv iota. rewrite <- Er.
  pose proof (members_parse (d + 1) ((k, v) :: rest) Hl ltac:(done) (fuel_for (String "{" (print_members ((k, v) :: rest)))) "") as Hs.
  rewrite str_app_nil in Hs. apply Hs. unfold fuel_for. simpl len. lia.
Qed.

Lemma compact_value v : value_at 0 v -> compact v = Some v.
Proof.
  intros Hv. unfold compact. destruct (value_head 0 v "" Hv) as [Hs _]. rewrite str_app_nil in Hs. rewrite Hs, Hv. done.
Qed.

(** What is accepted at some depth is accepted closer to the top. *)
Lemma scan_shallower f : forall d d' s x, d' <= d ->
  (scan_value f d s = Some x -> scan_value f d' s = Some x) /\
  (scan_elems f d s = Some x -> scan_elems f d' s = Some x) /\
  (scan_members f d s = Some x -> scan_members f d' s = Some x).
Proof.
  induction f as [|f IH]; intros d d' s x Hd; [by destruct s|]. split_and!; cbn [scan_value scan_elems scan_members].
  - destruct s as [|c t]; [done|]. case_match; [done|]. case_match; [|case_match; [|done]].
    + destruct (maxNestingDepth <=? d) eqn:E; [done|]. assert (maxNestingDepth <=? d' = false) as -> by lia.
      destruct (skip_ws t) as [|e u]; [done|]. case_match; [done|].
      destruct (scan_members f (d + 1) _) as [[b r]|] eqn:E'; [|done]. intros <-.
      by rewrite (proj2 (proj2 (IH (d + 1) (d' + 1) _ _ ltac:(lia))) E').
    + destruct (maxNestingDepth <=? d) eqn:E; [done|]. assert (maxNestingDepth <=? d' = false) as -> by lia.
      destruct (skip_ws t) as [|e u]; [done|]. case_match; [done|].
      destruct (scan_elems f (d + 1) _) as [[b r]|] eqn:E'; [|done]. intros <-.
      by rewrite (proj1 (proj2 (IH (d + 1) (d' + 1) _ _ ltac:(lia))) E').
  - destruct (scan_value f d s) as [[v r]|] eqn:E1; [|done]. rewrite (proj1 (IH d d' _ _ Hd) E1).
    destruct (skip_ws r) as [|e r2]; [done|]. case_match; [done|]. case_match; [|done].
    destruct (scan_elems f d _) as [[b r3]|] eqn:E2; [|done]. intros <-. by rewrite (proj1 (proj2 (IH d d' _ _ Hd)) E2).
  - destruct s as [|q t]; [done|]. case_match; [|done]. destruct (scan_str t) as [[k r0]|]; [|done].
    destruct (skip_ws r0) as [|e r1]; [done|]. case_match; [|done].
    destruct (scan_value f d _) as [[v r2]|] eqn:E1; [|done]. rewrite (proj1 (IH d d' _ _ Hd) E1).
    destruct (skip_ws r2) as [|e2 r3]; [done|]. case_match; [done|]. case_match; [|done].
    destruct (scan_members f d _) as [[b r4]|] eqn:E2; [|done]. intros <-. by rewrite (proj2 (proj2 (IH d d' _ _ Hd)) E2).
Qed.

Lemma value_shallower d d' v : d' <= d -> value_at d v -> value_at d' v.
Proof. intros Hd. apply scan_shallower, Hd. Qed.

(** ** Compaction is idempotent *)

(** A string body the scanner accepts. *)
Definition body_ok (b : string) : Prop := forall r, scan_str (b +:+ String dquote r) = Some (b, r).

Lemma body_ok_cons k b : (forall t, scan_str (k +:+ t) = add_body k (scan_str t)) -> body_ok b -> body_ok (k +:+ b).
Proof. intros Hk Hb r. by rewrite app_app, Hk, Hb. Qed.

Lemma scan_plain_char c t : (code c =? 34) = false -> (code c =? 92) = false -> (code c <? 32) = false ->
  scan_str (String c t) = add_body (ch c) (scan_str t).
Proof. intros H1 H2 H3. cbn [scan_str]. rewrite H1, H2, H3. by destruct (scan_str t) as [[]|]. Qed.

Lemma scan_simple e t : (code e =? 117) = false -> is_Some (simple_escape e) ->
  scan_str (String backslash (String e t)) = add_body (String backslash (ch e)) (scan_str t).
Proof.
  intros He [x Hx]. cbn [scan_str]. change (code backslash =? 34) with false. change (code backslash =? 92) with true.
  cbv iota. rewrite He, Hx. by destruct (scan_str t) as [[]|].
Qed.

Lemma scan_hex a b c d t : is_hex a && is_hex b && is_hex c && is_hex d = true ->
  scan_str (String backslash (String "u" (String a (String b (String c (String d t)))))) =
  add_body (String backslash (String "u" (String a (String b (String c (ch d)))))) (scan_str t).
Proof.
  intros H. cbn [scan_str]. change (code backslash =? 34) with false. change (code backslash =? 92) with true.
  cbv iota. change (code "u" =? 117) with true. cbv iota. rewrite H. by destruct (scan_str t) as [[]|].
Qed.

Lemma hex_plain c : is_hex c = true -> plain c = true.
Proof. destruct c as [[] [] [] [] [] [] [] []]; intros H; try discriminate H; by vm_compute. Qed.

Lemma simple_plain e : is_Some (simple_escape e) -> plain e = true.
Proof.
  intros [x H]. destruct e as [[] [] [] [] [] [] [] []]; try (by vm_compute); vm_compute in H; discriminate H.
Qed.

Lemma html_head_special c t : (code c =? 60) || (code c =? 62) || (code c =? 38) = true -> html (String c t) = u4 (code c) +:+ html t.
Proof. intros H. cbn [html]. by rewrite H. Qed.

Lemma scan_u4_special c t : (code c =? 60) || (code c =? 62) || (code c =? 38) = true ->
  scan_str (u4 (code c) +:+ t) = add_body (u4 (code c)) (scan_str t) /\ all_plain (u4 (code c)) = true.
Proof.
  intros H. assert (code c = 60 \/ code c = 62 \/ code c = 38) as [->|[->| ->]] by lia; split; try done; by apply scan_hex.
Qed.

Lemma scan_body_ok s b r0 : scan_str s = Some (b, r0) -> body_ok b.
Proof.
  revert b r0. induction s as [s IH] using (induction_ltof1 _ len). unfold ltof in IH. intros b r0.
  destruct s as [|c s1]; [done|]. cbn [scan_str]. destruct (code c =? 34) eqn:Eq; [by intros [= <- _]|].
  destruct (code c =? 92) eqn:Eb.
  - apply Z.eqb_eq in Eb. assert (c = backslash) as -> by by apply code_inj.
    destruct s1 as [|e s2]; [done|]. destruct (code e =? 117) eqn:Eu.
    + apply Z.eqb_eq in Eu. assert (e = "u"%char) as -> by by apply code_inj.
      destruct s2 as [|h1 [|h2 [|h3 [|h4 s6]]]]; try done. destruct (is_hex h1 && _ && _ && _) eqn:Eh; [|done].
      destruct (scan_str s6) as [[b' r']|] eqn:E; [|done]. intros [= <- <-]. apply IH in E; [|simpl; lia].
      apply (body_ok_cons (String backslash (String "u" (String h1 (String h2 (String h3 (ch h4))))))); [|done].
      intros t. by apply scan_hex.
    + destruct (simple_escape e) as [e'|] eqn:Ee; [|done]. destruct (scan_str s2) as [[b' r']|] eqn:E; [|done].
      intros [= <- <-]. apply IH in E; [|simpl; lia]. apply (body_ok_cons (String backslash (ch e))); [|done].
      intros t. by apply scan_simple.
  - destruct (code c <? 32) eqn:Ec; [done|]. destruct (scan_str s1) as [[b' r']|] eqn:E; [|done]. intros [= <- <-].
    apply IH in E; [|simpl; lia]. apply (body_ok_cons (ch c)); [|done]. intros t. by apply scan_plain_char.
Qed.

(** The piece an accepted body starts with. *)
Inductive piece : string -> Prop :=
  | piece_hex h1 h2 h3 h4 : is_hex h1 && is_hex h2 && is_hex h3 && is_hex h4 = true ->
      piece (String backslash (String "u" (String h1 (String h2 (String h3 (ch h4))))))
  | piece_simple e : (code e =? 117) = false -> is_Some (simple_escape e) -> piece (String backslash (ch e))
  | piece_char c : (code c =? 34) = false -> (code c =? 92) = false -> (code c <? 32) = false -> piece (ch c).

Lemma piece_scan k t : piece k -> scan_str (k +:+ t) = add_body k (scan_str t).
Proof. intros [ | | ]; [by apply scan_hex|by apply scan_simple|by apply scan_plain_char]. Qed.

Lemma piece_body k b : piece k -> body_ok (k +:+ b) -> body_ok b.
Proof.
  intros Hk H r. specialize (H r). rewrite app_app, (piece_scan _ _ Hk) in H.
  destruct (scan_str (b +:+ String dquote r)) as [[b' r']|]; [|done]. simpl in H. injection H as H ->.
  by apply (inj (String.append k)) in H as ->.
Qed.

Lemma body_piece b : body_ok b -> b = "" \/ exists k b', piece k /\ b = k +:+ b' /\ (len b' < len b)%nat /\ body_ok b'.
Proof.
  intros H. assert (b = "" \/ exists k b', piece k /\ b = k +:+ b' /\ (len b' < len b)%nat) as [|(k & b' & Hk & -> & Hl)];
    [|by left|right; exists k, b'; by eauto using piece_body].
  specialize (H ""). destruct b as [|c b1]; [by left|right]. rewrite cons_app in H. cbn [scan_str] in H.
  destruct (code c =? 34) eqn:Eq; [done|]. destruct (code c =? 92) eqn:Eb.
  - apply Z.eqb_eq in Eb. assert (c = backslash) as -> by by apply code_inj.
    destruct b1 as [|e b2]; [done|]. rewrite cons_app in H. destruct (code e =? 117) eqn:Eu.
    + apply Z.eqb_eq in Eu. assert (e = "u"%char) as -> by by apply code_inj.
      destruct b2 as [|h1 [|h2 [|h3 [|h4 b6]]]]; try discriminate H.
      * rewrite !cons_app, nil_app in H. cbv iota in H. change (is_hex dquote) with false in H.
        rewrite !andb_false_r in H. discriminate H.
      * rewrite !cons_app in H. destruct (is_hex h1 && _ && _ && _) eqn:Eh; [|done].
        eexists _, b6. split; [by apply piece_hex, Eh|]. split; [done|simpl; lia].
    + destruct (simple_escape e) as [e'|] eqn:Ee; [|done].
      exists (String backslash (ch e)), b2. split; [by apply piece_simple|]. split; [done|simpl; lia].
  - destruct (code c <? 32) eqn:Ec; [done|]. exists (ch c), b1. split; [by apply piece_char|]. split; [done|simpl; lia].
Qed.

Lemma html_head c t : exists x, html (String c t) = String c x \/ html (String c t) = String backslash x.
Proof.
  cbn [html]. destruct (_ || _); [eexists; by right|]. destruct t as [|c2 [|c3 t]]; try (eexists; by left).
  destruct (_ && _); eexists; [by right|by left].
Qed.

(** What follows a lead byte 226 that starts no separator starts none after escaping. *)
Lemma html_226_again c t : code c = 226 -> html (String c t) = String c (html t) ->
  html (String c (html t)) = String c (html (html t)).
Proof.
  intros Hc H. assert (forall c2 x, (code c2 =? 128) = false -> html (String c (String c2 x)) = String c (html (String c2 x))) as Hn.
  { intros c2 x E. destruct x as [|c3 x]; [|by apply html_226; [|rewrite E]].
    assert ((code c =? 60) || (code c =? 62) || (code c =? 38) = false) as Es by lia.
    remember (String c2 "") as t2 eqn:E2. cbn [html]. rewrite Es. by rewrite E2. }
  destruct t as [|c2 t]; [exact H|]. destruct (code c2 =? 128) eqn:E2.
  - assert (plain c2 = true) as Hp by (unfold plain; lia). rewrite (html_plain1 c2 t Hp) in *.
    destruct t as [|c3 t]; [change (html "") with "" in *; rewrite (html_plain1 c2 "" Hp); exact H|].
    destruct (html_head c3 t) as [x [Hx|Hx]]; rewrite Hx in H |- *.
    + apply html_226; [done|]. rewrite E2. simpl. destruct ((code c3 =? 168) || (code c3 =? 169)) eqn:E3; [|done].
      exfalso. cbn [html] in H. rewrite Hc, E2, E3 in H. unfold u4 in H. injection H as <- _. discriminate Hc.
    + apply html_226; [done|]. by rewrite andb_false_r.
  - destruct (html_head c2 t) as [x [Hx|Hx]]; rewrite Hx; by apply Hn.
Qed.

Lemma piece_plain k : piece k -> all_plain k = true \/ exists c, k = ch c /\ plain c = false.
Proof.
  intros [h1 h2 h3 h4 Eh|e _ He|c _ _ _].
  - left. apply andb_prop in Eh as [Eh ?]. apply andb_prop in Eh as [Eh ?]. apply andb_prop in Eh as [? ?].
    simpl. by rewrite !hex_plain.
  - left. simpl. by rewrite simple_plain.
  - destruct (plain c) eqn:E; [left; simpl; by rewrite E|right; eauto].
Qed.

Lemma html_body b : body_ok b -> body_ok (html b) /\ html (html b) = html b.
Proof.
  induction b as [b IH] using (induction_ltof1 _ len). unfold ltof in IH. intros Hb.
  destruct (body_piece b Hb) as [->|(k & b' & Hk & -> & Hl & Hb')]; [done|]. destruct (IH b' Hl Hb') as [H2 H3].
  pose proof (piece_scan k) as Hs. destruct (piece_plain k Hk) as [Hp|(c & -> & Hp)].
  { rewrite (html_plain k) by done. split; [apply body_ok_cons; [by auto|done]|]. by rewrite html_plain, H3. }
  rewrite ch_app. destruct ((code c =? 60) || (code c =? 62) || (code c =? 38)) eqn:Es.
  { rewrite html_head_special by done. destruct (scan_u4_special c "" Es) as [_ Hu]. split.
    - apply body_ok_cons; [|done]. intros t. by apply scan_u4_special.
    - by rewrite html_plain, H3. }
  assert (code c = 226) as Hc by (unfold plain in Hp; lia).
  assert (html (String c b') = String c (html b') -> body_ok (html (String c b')) /\ html (html (String c b')) = html (String c b')) as Hsame.
  { intros E. rewrite E. split; [apply (body_ok_cons (ch c)); [by auto|done]|]. by rewrite html_226_again, H3. }
  destruct b' as [|c2 [|c3 b3]]; [apply Hsame; cbn [html]; by rewrite Es..|].
  destruct ((code c2 =? 128) && ((code c3 =? 168) || (code c3 =? 169))) eqn:E3; [|by apply Hsame, html_226].
  assert (html (String c (String c2 (String c3 b3))) = u4 (8064 + code c3) +:+ html b3) as ->.
  { cbn [html]. rewrite Es, Hc. change (226 =? 226) with true. cbn [andb]. by rewrite E3. }
  assert (body_ok b3) as Hb3.
  { apply (piece_body (ch c3)); [apply piece_char; lia|]. apply (piece_body (ch c2)); [apply piece_char; lia|done]. }
  rewrite !ch_app in Hl. destruct (IH b3 ltac:(simpl in *; lia) Hb3) as [H4 H5].
  assert (8064 + code c3 ∈ [8232; 8233; 65533]) as Hu by (rewrite !elem_of_cons; lia).
  split; [apply body_ok_cons; [intros t; by apply scan_u4|done]|]. rewrite html_plain, H5; [done|].
  assert (code c3 = 168 \/ code c3 = 169) as [->| ->] by lia; done.
Qed.

(** Numbers. *)
Definition no_digit (x : string) : Prop := match x with "" => True | String c _ => is_digit c = false end.
Definition no_dot (x : string) : Prop := match x with "" => True | String c _ => (code c =? 46) = false end.

Lemma span_digits_out s ds r : span_digits s = (ds, r) -> all_digits ds = true.
Proof.
  revert ds r. induction s as [|c s IH]; intros ds r; cbn [span_digits]; [by intros [= <- _]|].
  destruct (is_digit c) eqn:E; [|by intros [= <- _]]. destruct (span_digits s) as [ds' r'] eqn:Es. intros [= <- _].
  simpl. rewrite E. by eapply IH.
Qed.

Lemma span_digits_again ds x : all_digits ds = true -> no_digit x -> span_digits (ds +:+ x) = (ds, x).
Proof.
  induction ds as [|c ds IH]; cbn [all_digits].
  - intros _ Hx. rewrite nil_app. destruct x as [|c x]; [done|]. simpl in *. by rewrite Hx.
  - intros [Hc Hds]%andb_prop Hx. rewrite cons_app. cbn [span_digits]. by rewrite Hc, IH.
Qed.

Lemma scan_int_again s i t x : scan_int s = Some (i, t) -> no_digit x -> scan_int (i +:+ x) = Some (i, x).
Proof.
  unfold scan_int. destruct s as [|c s]; [done|]. destruct (code c =? 48) eqn:E0.
  - intros [= <- _] _. rewrite ch_app. by rewrite E0.
  - destruct (is_digit c) eqn:Ec; [|done]. destruct (span_digits s) as [ds r] eqn:Es. intros [= <- _] Hx.
    rewrite cons_app, E0, Ec. apply span_digits_out in Es. by rewrite span_digits_again.
Qed.

Lemma scan_frac_again s f t x : scan_frac s = Some (f, t) -> no_digit x -> no_dot x ->
  scan_frac (f +:+ x) = Some (f, x) /\ no_digit (f +:+ x).
Proof.
  assert (no_dot x -> scan_frac ("" +:+ x) = Some ("", x)) as H0.
  { intros H. rewrite nil_app. destruct x; [done|]. simpl in *. by rewrite H. }
  destruct s as [|c s]; cbn [scan_frac]; [intros [= <- _]; by auto|]. destruct (code c =? 46) eqn:E0; [|intros [= <- _]; by auto].
  destruct (span_digits s) as [[|d ds] r] eqn:Es; [done|]. intros [= <- _] Hx _. rewrite cons_app. apply span_digits_out in Es.
  split; [|unfold no_digit, is_digit, between; lia]. cbn [scan_frac]. by rewrite E0, span_digits_again.
Qed.

Lemma scan_exp_again s e t : scan_exp s = Some (e, t) -> scan_exp e = Some (e, "") /\ no_digit e /\ no_dot e.
Proof.
  destruct s as [|c s]; cbn [scan_exp]; [by intros [= <- _]|].
  destruct ((code c =? 101) || (code c =? 69)) eqn:E0; [|by intros [= <- _]].
  assert (no_digit (ch c) /\ no_dot (ch c)) as Hc by (unfold no_digit, no_dot, is_digit, between, ch; lia).
  set (su := match s with String d t' => if (code d =? 43) || (code d =? 45) then (ch d, t') else ("", s) | "" => ("", "") end).
  assert (su.1 = "" \/ exists d, su.1 = ch d /\ (code d =? 43) || (code d =? 45) = true) as Hs.
  { subst su. destruct s as [|d s]; [by left|]. destruct ((code d =? 43) || (code d =? 45)) eqn:E; [right; eauto|by left]. }
  clearbody su. destruct su as [sg u]. simpl in Hs. destruct (span_digits u) as [[|d ds] r] eqn:Es; [done|].
  intros [= <- _]. split; [|done]. apply span_digits_out in Es. cbn [scan_exp]. rewrite E0.
  destruct Hs as [->|(d' & -> & E1)].
  - rewrite nil_app. cbn [all_digits] in Es. apply andb_prop in Es as [Hd Hds].
    assert ((code d =? 43) || (code d =? 45) = false) as -> by (unfold is_digit, between in Hd; lia).
    by rewrite span_all_digits by (simpl; by rewrite Hd).
  - rewrite ch_app, E1. by rewrite span_all_digits, ch_app.
Qed.

Lemma scan_num_again d s v r : scan_num s = Some (v, r) -> value_at d v.
Proof.
  unfold scan_num. set (su := match s with String c t => if code c =? 45 then (ch c, t) else ("", s) | "" => ("", "") end).
  assert (su.1 = "" \/ exists c, su.1 = ch c /\ code c = 45) as Hs.
  { subst su. destruct s as [|c s]; [by left|]. destruct (code c =? 45) eqn:E; [right; exists c; split; [done|lia]|by left]. }
  clearbody su. destruct su as [sg u]. simpl in Hs. destruct (scan_int u) as [[i s2]|] eqn:E1; [|done].
  destruct (scan_frac s2) as [[f s3]|] eqn:E2; [|done]. destruct (scan_exp s3) as [[e s4]|] eqn:E3; [|done].
  intros [= <- _]. destruct (scan_exp_again _ _ _ E3) as (He & Hed & Hep).
  destruct (scan_frac_again _ _ _ e E2 Hed Hep) as [Hf Hfd]. pose proof (scan_int_again _ _ _ _ E1 Hfd) as Hi.
  assert (exists c j, i = String c j /\ is_digit c = true) as (c & j & -> & Hc).
  { unfold scan_int in E1. destruct u as [|c u]; [done|]. destruct (code c =? 48) eqn:E0.
    - injection E1 as <- _. exists c, "". split; [done|]. unfold is_digit, between. lia.
    - destruct (is_digit c) eqn:Ec; [|done]. destruct (span_digits u). injection E1 as <- _. eauto. }
  unfold value_at, fuel_for. set (n := len _). replace (2 * n + 2)%nat with (S (2 * n + 1)) by lia. destruct Hs as [->|(m & -> & Hm)].
  - rewrite nil_app. rewrite cons_app at 1. rewrite scan_to_num by by left. unfold scan_num. rewrite (digit_not_sign c Hc).
    change (String c (j +:+ f +:+ e)) with (String c j +:+ f +:+ e). by rewrite Hi, Hf, He, nil_app.
  - rewrite ch_app. rewrite scan_to_num by by right. unfold scan_num. rewrite Hm. change (45 =? 45) with true. cbv iota beta.
    by rewrite Hi, Hf, He, ch_app.
Qed.

(** What a list of elements or members compacted to, scanned again. *)
Definition elems_at (d : Z) (v : string) : Prop :=
  (forall x, skip_ws (v +:+ x) = v +:+ x) /\ (exists c w, v = String c w /\ code c <> 93) /\
  forall f x, (2 * len v + 1 <= f)%nat -> scan_elems f d (v +:+ x) = Some (v, x).
Definition members_at (d : Z) (v : string) : Prop :=
  (forall x, skip_ws (v +:+ x) = v +:+ x) /\ (exists c w, v = String c w /\ code c <> 125) /\
  forall f x, (2 * len v + 1 <= f)%nat -> scan_members f d (v +:+ x) = Some (v, x).

Lemma code_is c n : code c =? code n = true -> c = n.
Proof. intros E. apply code_inj. lia. Qed.

Lemma string_at d q b t r : code q = 34 -> scan_str t = Some (b, r) -> value_at d (String q (html b +:+ ch dquote)).
Proof.
  intros Hq E. apply scan_body_ok, html_body in E as [Hb Hh]. unfold value_at, fuel_for. set (n := len _).
  replace (2 * n + 2)%nat with (S (2 * n + 1)) by lia. cbn [scan_value]. rewrite Hq. change (34 =? 34) with true. cbv iota.
  change (ch dquote) with (String dquote ""). by rewrite Hb, Hh.
Qed.

Lemma empty_at d c e : d < maxNestingDepth -> code c = 123 /\ code e = 125 \/ code c = 91 /\ code e = 93 ->
  value_at d (String c (ch e)).
Proof.
  intros Hd Hce. unfold value_at, fuel_for. set (n := len _). replace (2 * n + 2)%nat with (S (2 * n + 1)) by lia.
  assert (is_space e = false) as Hs by (unfold is_space; lia). cbn [scan_value]. unfold ch. cbn [skip_ws]. rewrite Hs.
  assert (maxNestingDepth <=? d = false) as -> by lia. by destruct Hce as [[-> ->]|[-> ->]].
Qed.

Lemma object_at d c b : d < maxNestingDepth -> code c = 123 -> members_at (d + 1) b -> value_at d (String c b).
Proof.
  intros Hd Hc (Hw & (e & w & -> & He) & Hb). unfold value_at, fuel_for. set (n := len _).
  replace (2 * n + 2)%nat with (S (2 * n + 1)) by lia. cbn [scan_value]. rewrite Hc. change (123 =? 34) with false.
  change (123 =? 123) with true. cbv iota. assert (maxNestingDepth <=? d = false) as -> by lia.
  specialize (Hw ""). specialize (Hb (2 * n + 1)%nat "" ltac:(subst n; simpl; lia)). rewrite !str_app_nil in *. rewrite Hw.
  assert (code e =? 125 = false) as -> by lia. by rewrite Hb.
Qed.

Lemma array_at d c b : d < maxNestingDepth -> code c = 91 -> elems_at (d + 1) b -> value_at d (String c b).
Proof.
  intros Hd Hc (Hw & (e & w & -> & He) & Hb). unfold value_at, fuel_for. set (n := len _).
  replace (2 * n + 2)%nat with (S (2 * n + 1)) by lia. cbn [scan_value]. rewrite Hc. change (91 =? 34) with false.
  change (91 =? 123) with false. change (91 =? 91) with true. cbv iota. assert (maxNestingDepth <=? d = false) as -> by lia.
  specialize (Hw ""). specialize (Hb (2 * n + 1)%nat "" ltac:(subst n; simpl; lia)). rewrite !str_app_nil in *. rewrite Hw.
  assert (code e =? 93 = false) as -> by lia. by rewrite Hb.
Qed.

Lemma elems_cons d v e b : value_at d v -> code e = 93 /\ b = "" \/ code e = 44 /\ elems_at d b -> elems_at d (v +:+ String e b).
Proof.
  intros Hv He. assert (is_space e = false) as Hs by (unfold is_space; lia).
  split; [intros x; rewrite app_app; by apply (value_head d)|]. split.
  { destruct v as [|c w]; [done|]. rewrite cons_app. eexists _, _. split; [done|]. by apply value_first in Hv as [_ ?]. }
  intros f x Hf. rewrite app_app, len_app, cons_app in *. simpl len in Hf. destruct f as [|f]; [lia|]. cbn [scan_elems].
  rewrite (value_scan f d v); [|done|simpl; lia|lia]. cbn [skip_ws]. rewrite Hs.
  destruct He as [[He ->]|(He & Hw & _ & Hb)]; rewrite He; [by rewrite nil_app|]. change (44 =? 93) with false.
  change (44 =? 44) with true. cbv iota. by rewrite Hw, Hb by lia.
Qed.

Lemma members_cons d q k t r0 e v e2 b : code q = 34 -> scan_str t = Some (k, r0) -> code e = 58 -> value_at d v ->
  code e2 = 125 /\ b = "" \/ code e2 = 44 /\ members_at d b ->
  members_at d (String q (html k +:+ String dquote (String e v)) +:+ String e2 b).
Proof.
  intros Hq Hk He Hv He2. apply scan_body_ok, html_body in Hk as [Hk Hh].
  assert (is_space q = false) as Hsq by (unfold is_space; lia). assert (is_space e = false) as Hse by (unfold is_space; lia).
  assert (is_space e2 = false) as Hs by (unfold is_space; lia).
  split; [intros x; rewrite !cons_app; cbn [skip_ws]; by rewrite Hsq|].
  split; [rewrite cons_app; eexists _, _; split; [done|lia]|]. intros f x Hf.
  rewrite !len_app in Hf. simpl len in Hf. rewrite !len_app in Hf. simpl len in Hf. destruct f as [|f]; [lia|].
  rewrite app_app, cons_app, app_app, !cons_app. cbn [scan_members]. rewrite Hq. change (34 =? 34) with true. cbv iota.
  rewrite Hk. cbn [skip_ws]. rewrite Hse, He. change (58 =? 58) with true. cbv iota.
  destruct (value_head d v (String e2 (b +:+ x)) Hv) as [-> _].
  rewrite (value_scan f d v); [|done|simpl; lia|lia]. cbn [skip_ws]. rewrite Hs, Hh.
  destruct He2 as [[He2 ->]|(He2 & Hw & _ & Hb)]; rewrite He2; [by rewrite nil_app|]. change (44 =? 125) with false.
  change (44 =? 44) with true. cbv iota. by rewrite Hw, Hb by lia.
Qed.

(** What the scanner compacts a text to is compact. *)
Lemma scan_canon f : forall d s v r,
  (scan_value f d s = Some (v, r) -> value_at d v) /\
  (scan_elems f d s = Some (v, r) -> elems_at d v) /\
  (scan_members f d s = Some (v, r) -> members_at d v).
Proof.
  induction f as [|f IH]; intros d s v r; [done|]. split_and!.
  - destruct s as [|c t]; [done|]. cbn [scan_value]. destruct (code c =? 34) eqn:E1.
    { destruct (scan_str t) as [[b r']|] eqn:E; [|done]. intros [= <- _]. eapply string_at; [lia|done]. }
    destruct (code c =? 123) eqn:E2; [|destruct (code c =? 91) eqn:E3].
    1,2: destruct (maxNestingDepth <=? d) eqn:Ed; [done|]; destruct (skip_ws t) as [|e t']; [done|].
    + destruct (code e =? 125) eqn:Ee; [intros [= <- _]; apply empty_at; lia|].
      destruct (scan_members f (d + 1) (String e t')) as [[b r']|] eqn:E; [|done]. intros [= <- _].
      apply object_at; [lia..|]. by eapply IH.
    + destruct (code e =? 93) eqn:Ee; [intros [= <- _]; apply empty_at; lia|].
      destruct (scan_elems f (d + 1) (String e t')) as [[b r']|] eqn:E; [|done]. intros [= <- _].
      apply array_at; [lia..|]. by eapply IH.
    + repeat (case_match; [case_match; [|done]; intros [= <- _]; apply lit_value|]). apply scan_num_again.
  - cbn [scan_elems]. destruct (scan_value f d s) as [[v1 r1]|] eqn:E; [|done]. apply IH in E.
    destruct (skip_ws r1) as [|e r2]; [done|]. destruct (code e =? 93) eqn:E1.
    { intros [= <- _]. apply elems_cons; [done|]. left. split; [lia|done]. }
    destruct (code e =? 44) eqn:E2; [|done]. destruct (scan_elems f d (skip_ws r2)) as [[b r3]|] eqn:Eb; [|done].
    intros [= <- _]. apply elems_cons; [done|]. right. split; [lia|]. by eapply IH.
  - cbn [scan_members]. destruct s as [|q t]; [done|]. destruct (code q =? 34) eqn:Eq; [|done].
    destruct (scan_str t) as [[k r0]|] eqn:Ek; [|done]. destruct (skip_ws r0) as [|e r1]; [done|].
    destruct (code e =? 58) eqn:Ee; [|done]. destruct (scan_value f d (skip_ws r1)) as [[v1 r2]|] eqn:E; [|done]. apply IH in E.
    destruct (skip_ws r2) as [|e2 r3]; [done|]. cbv zeta. destruct (code e2 =? 125) eqn:E1.
    { intros [= <- _]. eapply members_cons; [lia|done|lia|done|]. left. split; [lia|done]. }
    destruct (code e2 =? 44) eqn:E2; [|done]. destruct (scan_members f d (skip_ws r3)) as [[b r4]|] eqn:Eb; [|done].
    intros [= <- _]. eapply members_cons; [lia|done|lia|done|]. right. split; [lia|]. by eapply IH.
Qed.
