(* ===== verification/Rounding.v ===== *)
(** * float64 arithmetic

    [frnd] rounds a rational to the nearest float64, ties to the even
    significand: the result of Go's [+], [-], [*] and [/] on finite operands.
    The exponent is unbounded, which differs from float64 only below 2^-1022
    and above 2^1024; the values of this program are seconds, counts and
    shares. *)
From stdpp Require Import prelude.
From Stdlib Require Import ZArith QArith Qabs Lqa Lia.
From S2P Require Import Prelude.

#[local] Open Scope Z_scope.

(** [n/d] rounded to an integer, ties to even; [0 <= n], [0 < d]. *)
Definition round_half_even (n d : Z) : Z :=
  let q := n / d in
  let r := n mod d in
  if 2 * r <? d then q
  else if d <? 2 * r then q + 1
  else if Z.even q then q else q + 1.

(** The largest [e] with [2^e <= n/d]. *)
Definition exponent (n d : Z) : Z :=
  let e := Z.log2 n - Z.log2 d in
  if (if 0 <=? e then d * 2 ^ e <=? n else d <=? n * 2 ^ (- e)) then e else e - 1.

Definition frnd (q : Q) : Q :=
  let n := Z.abs (Qnum q) in
  let d := Zpos (Qden q) in
  if n =? 0 then 0%Q
  else
    let s := 52 - exponent n d in
    let m := Z.sgn (Qnum q) * (if 0 <=? s then round_half_even (n * 2 ^ s) d else round_half_even n (d * 2 ^ (- s))) in
    if 0 <=? s then m # Z.to_pos (2 ^ s) else inject_Z (m * 2 ^ (- s)).

Definition fadd64 (a b : Q) : Q := frnd (a + b).
Definition fsub64 (a b : Q) : Q := frnd (a - b).
Definition fmul64 (a b : Q) : Q := frnd (a * b).
Definition fdiv64 (a b : Q) : Q := frnd (a / b).

(** Rounding respects the bounds of its grid. *)
Lemma round_half_even_le n d k : 0 < d -> n <= k * d -> round_half_even n d <= k.
Proof.
  intros Hd H. unfold round_half_even. pose proof (Z.div_mod n d). pose proof (Z.mod_pos_bound n d).
  assert (n / d <= k) by (apply Z.div_le_upper_bound; lia).
  repeat case_match; try lia; rewrite ?Z.ltb_lt, ?Z.ltb_ge in *; nia.
Qed.

Lemma round_half_even_ge n d k : 0 < d -> k * d <= n -> k <= round_half_even n d.
Proof.
  intros Hd H. unfold round_half_even. assert (k <= n / d) by (apply Z.div_le_lower_bound; lia).
  repeat case_match; lia.
Qed.

(** Below [2^e] the exponent is below [e]. *)
Lemma exponent_lt n d e : 0 < n -> 0 < d -> 0 <= e -> n < d * 2 ^ e -> exponent n d < e.
Proof.
  intros Hn Hd He H. unfold exponent. pose proof (Z.log2_spec n Hn) as [H1 H2]. pose proof (Z.log2_spec d Hd) as [H3 H4].
  assert (Z.log2 n <= Z.log2 d + e).
  { pose proof (Z.log2_nonneg d).
    assert (2 ^ Z.log2 n < 2 ^ (Z.succ (Z.log2 d) + e)) as H5; [|apply Z.pow_lt_mono_r_iff in H5; lia].
    rewrite Z.pow_add_r by lia. nia. }
  destruct (Z.eq_dec (Z.log2 n - Z.log2 d) e) as [->|]; [|repeat case_match; lia].
  destruct (Z.leb_spec 0 e); [|lia]. destruct (Z.leb_spec (d * 2 ^ e) n); lia.
Qed.

(** The rounded value of a non-negative rational below [2^(52-j)], as a
    fraction over a power of two above [2^j]. *)
Lemma frnd_grid q j :
  (0 < q)%Q -> 0 <= j -> (q < inject_Z (2 ^ (52 - j)))%Q -> j <= 52 ->
  exists s, j <= s /\ frnd q = round_half_even (Qnum q * 2 ^ s) (Zpos (Qden q)) # Z.to_pos (2 ^ s).
Proof.
  intros H0 Hj Hq Hj'. destruct q as [n d]. unfold Qlt in H0, Hq. simpl in H0, Hq.
  unfold frnd. cbn [Qnum Qden]. rewrite Z.abs_eq, Z.sgn_pos, Z.mul_1_l by lia.
  destruct (Z.eqb_spec n 0); [lia|].
  assert (exponent n (Zpos d) < 52 - j) by (apply exponent_lt; lia).
  exists (52 - exponent n (Zpos d)). split; [lia|].
  by destruct (Z.leb_spec 0 (52 - exponent n (Zpos d))); [|lia].
Qed.

Lemma frnd_le q k j :
  (0 <= q)%Q -> 0 <= j <= 52 -> (q < inject_Z (2 ^ (52 - j)))%Q ->
  (q <= k # Z.to_pos (2 ^ j))%Q -> (frnd q <= k # Z.to_pos (2 ^ j))%Q.
Proof.
  intros H0 Hj Hlt H. destruct (Qlt_le_dec 0 q) as [Hpos|Hneg].
  - destruct (frnd_grid q j) as (s & Hs & ->); [done|lia|done|lia|].
    destruct q as [n d]. unfold Qle in *. cbn [Qnum Qden] in *.
    assert (0 < 2 ^ j) by (apply Z.pow_pos_nonneg; lia). assert (0 < 2 ^ s) by (apply Z.pow_pos_nonneg; lia).
    rewrite !Z2Pos.id in * by lia.
    assert (2 ^ s = 2 ^ (s - j) * 2 ^ j) as Es by (rewrite <- Z.pow_add_r by lia; f_equal; lia).
    assert (round_half_even (n * 2 ^ s) (Zpos d) <= k * 2 ^ (s - j)); [|nia].
    apply round_half_even_le; [lia|]. rewrite Es. assert (0 < 2 ^ (s - j)) by (apply Z.pow_pos_nonneg; lia). nia.
  - assert (Qnum q = 0) as E by (unfold Qle in *; simpl in *; lia).
    unfold frnd. rewrite E. simpl. by apply Qle_trans with q.
Qed.

Lemma frnd_ge q k j :
  (0 < q)%Q -> 0 <= j <= 52 -> (q < inject_Z (2 ^ (52 - j)))%Q ->
  (k # Z.to_pos (2 ^ j) <= q)%Q -> (k # Z.to_pos (2 ^ j) <= frnd q)%Q.
Proof.
  intros Hpos Hj Hlt H. destruct (frnd_grid q j) as (s & Hs & ->); [done|lia|done|lia|].
  destruct q as [n d]. unfold Qle in *. cbn [Qnum Qden] in *.
  assert (0 < 2 ^ j) by (apply Z.pow_pos_nonneg; lia). assert (0 < 2 ^ s) by (apply Z.pow_pos_nonneg; lia).
  rewrite !Z2Pos.id in * by lia.
  assert (2 ^ s = 2 ^ (s - j) * 2 ^ j) as Es by (rewrite <- Z.pow_add_r by lia; f_equal; lia).
  assert (k * 2 ^ (s - j) <= round_half_even (n * 2 ^ s) (Zpos d)); [|nia].
  apply round_half_even_ge; [lia|]. rewrite Es. assert (0 < 2 ^ (s - j)) by (apply Z.pow_pos_nonneg; lia). nia.
Qed.

(** Rounding keeps signs. *)
Lemma frnd_nonneg q : (0 <= q)%Q -> (0 <= frnd q)%Q.
Proof.
  intros H. destruct q as [n d]. unfold Qle in H. simpl in H. unfold frnd. cbn [Qnum Qden].
  destruct (Z.eqb_spec (Z.abs n) 0); [done|].
  set (s := 52 - _). rewrite Z.sgn_pos, Z.mul_1_l by lia.
  destruct (Z.leb_spec 0 s); unfold Qle; cbn [Qnum Qden inject_Z].
  - rewrite Z.mul_1_r. apply round_half_even_ge; [lia|]. assert (0 < 2 ^ s) by (apply Z.pow_pos_nonneg; lia). nia.
  - rewrite Z.mul_1_r. assert (0 < 2 ^ (- s)) by (apply Z.pow_pos_nonneg; lia).
    assert (0 <= round_half_even (Z.abs n) (Zpos d * 2 ^ (- s))) by (apply round_half_even_ge; nia). nia.
Qed.

(** What fits in 53 bits is not rounded. *)
Lemma frnd_exact q n j : 0 <= n < 2 ^ 53 -> 0 <= j <= 53 -> (q == n # Z.to_pos (2 ^ j))%Q -> (frnd q == q)%Q.
Proof.
  intros Hn Hj Hq. assert (0 < 2 ^ j) as Hj0 by (apply Z.pow_pos_nonneg; lia).
  destruct q as [a d]. unfold Qeq in Hq. cbn [Qnum Qden] in Hq. rewrite Z2Pos.id in Hq by lia.
  assert (0 <= a) by nia. unfold frnd. cbn [Qnum Qden]. rewrite Z.abs_eq by lia.
  destruct (Z.eqb_spec a 0) as [->|Ha]; [done|]. rewrite Z.sgn_pos, Z.mul_1_l by lia.
  assert (exponent a (Zpos d) < 53 - j) as He.
  { apply exponent_lt; [lia..|]. assert (2 ^ 53 = 2 ^ (53 - j) * 2 ^ j) by (rewrite <- Z.pow_add_r by lia; f_equal; lia). nia. }
  set (s := 52 - exponent a (Zpos d)). assert (j <= s) by lia. destruct (Z.leb_spec 0 s); [|lia].
  assert (2 ^ s = 2 ^ (s - j) * 2 ^ j) as Es by (rewrite <- Z.pow_add_r by lia; f_equal; lia).
  assert (0 < 2 ^ s) by (apply Z.pow_pos_nonneg; lia). assert (0 < 2 ^ (s - j)) by (apply Z.pow_pos_nonneg; lia).
  assert (round_half_even (a * 2 ^ s) (Zpos d) = n * 2 ^ (s - j)) as ->.
  { assert (a * 2 ^ s = n * 2 ^ (s - j) * Zpos d) by nia.
    apply Z.le_antisymm; [apply round_half_even_le|apply round_half_even_ge]; lia. }
  unfold Qeq. cbn [Qnum Qden]. rewrite Z2Pos.id by lia. nia.
Qed.

Lemma round_half_even_near n d : 0 < d -> Z.abs (2 * (round_half_even n d * d - n)) <= d.
Proof.
  intros Hd. unfold round_half_even. pose proof (Z.div_mod n d). pose proof (Z.mod_pos_bound n d). repeat case_match; nia.
Qed.

(** [2^exponent] is at most the quotient. *)
Lemma exponent_ge n d : 0 < n -> 0 < d ->
  let e := exponent n d in if 0 <=? e then d * 2 ^ e <= n else d <= n * 2 ^ (- e).
Proof.
  intros Hn Hd e. subst e. unfold exponent. pose proof (Z.log2_spec n Hn) as [H1 H2]. pose proof (Z.log2_spec d Hd) as [H3 H4].
  pose proof (Z.log2_nonneg n) as Ln. pose proof (Z.log2_nonneg d) as Ld.
  set (a := Z.log2 n) in *. set (b := Z.log2 d) in *. rewrite Z.pow_succ_r in H4 by lia.
  destruct (if 0 <=? a - b then _ else _) eqn:E.
  - destruct (0 <=? a - b); lia.
  - destruct (Z.leb_spec 0 (a - b - 1)).
    + assert (2 ^ a = 2 * 2 ^ b * 2 ^ (a - b - 1)) as Hp by (rewrite <- Z.mul_assoc, <- Z.pow_add_r, <- Z.pow_succ_r by lia; f_equal; lia).
      assert (0 < 2 ^ (a - b - 1)) by (apply Z.pow_pos_nonneg; lia). nia.
    + assert (2 * 2 ^ b = 2 ^ a * 2 ^ (- (a - b - 1))) as Hp by (rewrite <- Z.pow_add_r, <- Z.pow_succ_r by lia; f_equal; lia).
      assert (0 < 2 ^ (- (a - b - 1))) by (apply Z.pow_pos_nonneg; lia). nia.
Qed.

Lemma error_scaled (a b d w k : Z) : 0 < d -> 0 < w -> 0 < k -> Z.abs (2 * (b - a)) <= d -> d * w <= a ->
  - (a * (k * d)) <= (b - a) * (k * (d * (2 * w))) /\ (b - a) * (k * (d * (2 * w))) <= a * (k * d).
Proof.
  intros Hd Hw Hk Hab Hda. assert (- d <= 2 * (b - a) <= d) as [H1 H2] by lia.
  assert (0 < k * d * w) as Hc by nia. split.
  - transitivity (- d * (k * d * w)); [nia|]. replace ((b - a) * (k * (d * (2 * w)))) with (2 * (b - a) * (k * d * w)) by ring. nia.
  - transitivity (d * (k * d * w)); [|nia]. replace ((b - a) * (k * (d * (2 * w)))) with (2 * (b - a) * (k * d * w)) by ring. nia.
Qed.

(** The relative error of a rounding. *)
Lemma frnd_error q : (0 <= q)%Q -> (Qabs (frnd q - q) <= q * (1 # 9007199254740992))%Q.
Proof.
  destruct q as [n d]. intros Hn. assert (0 <= n) by (unfold Qle in Hn; simpl in Hn; lia). clear Hn. unfold frnd. cbn [Qnum Qden].
  rewrite Z.abs_eq by lia. destruct (Z.eqb_spec n 0) as [->|Hz]; [by unfold Qle|]. rewrite Z.sgn_pos, !Z.mul_1_l by lia.
  pose proof (exponent_ge n (Zpos d) ltac:(lia) ltac:(lia)) as He. cbv zeta in He.
  remember (exponent n (Z.pos d)) as e eqn:Ee. clear Ee. remember (52 - e) as s eqn:Es.
  apply Qabs_Qle_condition. change 9007199254740992%positive with (Z.to_pos (2 ^ 53)).
  destruct (Z.leb_spec 0 s) as [Hs|Hs].
  - pose proof (round_half_even_near (n * 2 ^ s) (Zpos d) ltac:(lia)) as Hr. set (m := round_half_even _ _) in *.
    assert (0 < 2 ^ s) as Hps by (apply Z.pow_pos_nonneg; lia).
    assert (Zpos d * 2 ^ 52 <= n * 2 ^ s) as Hge.
    { destruct (Z.leb_spec 0 e).
      - assert (2 ^ 52 = 2 ^ e * 2 ^ s) as -> by (rewrite <- Z.pow_add_r by lia; f_equal; lia). nia.
      - assert (2 ^ s = 2 ^ (- e) * 2 ^ 52) as -> by (rewrite <- Z.pow_add_r by lia; f_equal; lia). nia. }
    unfold Qle, Qopp, Qminus, Qplus, Qmult. cbn [Qnum Qden].
    rewrite !Pos2Z.inj_mul, !Z2Pos.id by (done || lia). cbn [Qopp Qnum Qden].
    change (2 ^ 53) with (2 * 2 ^ 52). remember (2 ^ 52) as w eqn:Ew. assert (0 < w) by (subst w; done). clear Ew. destruct (error_scaled (n * 2 ^ s) (m * Z.pos d) (Z.pos d) w 1) as [X1 X2]; [lia..|]. split; nia.
  - pose proof (round_half_even_near n (Zpos d * 2 ^ (- s)) ltac:(assert (0 < 2 ^ (- s)) by (apply Z.pow_pos_nonneg; lia); lia)) as Hr.
    set (m := round_half_even _ _) in *. assert (0 < 2 ^ (- s)) as Hps by (apply Z.pow_pos_nonneg; lia).
    assert (Zpos d * 2 ^ (- s) * 2 ^ 52 <= n) as Hge.
    { destruct (Z.leb_spec 0 e); [|lia]. assert (2 ^ (- s) * 2 ^ 52 = 2 ^ e) by (rewrite <- Z.pow_add_r by lia; f_equal; lia). nia. }
    unfold inject_Z, Qle, Qopp, Qminus, Qplus, Qmult. cbn [Qnum Qden].
    rewrite !Pos2Z.inj_mul, !Z2Pos.id by (done || lia). cbn [Qopp Qnum Qden].
    change (2 ^ 53) with (2 * 2 ^ 52). remember (2 ^ 52) as w eqn:Ew. assert (0 < w) by (subst w; done). clear Ew. destruct (error_scaled n (m * (Z.pos d * 2 ^ (- s))) (Z.pos d * 2 ^ (- s)) w 1); [nia..|]. split; nia.
Qed.

(** The same, as bounds. *)
Definition ulp : Q := 1 # 9007199254740992.
Lemma frnd_bounds q : (0 <= q)%Q -> (q - q * ulp <= frnd q <= q + q * ulp)%Q.
Proof. intros Hq. pose proof (frnd_error q Hq) as H. apply Qabs_Qle_condition in H as [H1 H2]. unfold ulp. split; lra. Qed.
