(* ===== verification/Api.v ===== *)
(** * The request and result data model (src/api)

    The records below are the Go structs of api.go, internal_api.go,
    inference_error.go and dispatch_control.go with their fields in order.  An
    int64 or int field is a [Z]; a [map[string]string] is a
    [gmap string string], the nil map being the empty one (no code of the
    package tells them apart: reads of both return the zero value, every write
    is guarded by a [make], and JSON omits both).  A pointer that the code
    tests against nil is an [option]. *)
From stdpp Require Import prelude gmap strings list sorting.
From Stdlib Require Import ZArith QArith Lqa Lia.
From S2P Require Import Prelude Json Rounding.

#[local] Open Scope Z_scope.

(** ** Payloads

    A [json.RawMessage]: nil, the empty slice, or some bytes. *)
Inductive RawMessage : Type :=
| RawNil
| RawBytes (s : string).

#[export] Instance RawMessage_eq_dec : EqDecision RawMessage.
Proof. solve_decision. Defined.

Definition raw_bytes (r : RawMessage) : string :=
  match r with
  | RawNil => ""
  | RawBytes s => s
  end.

(** ** Requests *)
Record RequestMessage : Type := mkRequestMessage {
  rm_ID : string;
  rm_Created : Z;
  rm_Deadline : Z;
  rm_Payload : RawMessage;
  rm_Metadata : gmap string string;
  rm_Headers : gmap string string;
  rm_Endpoint : string;
  rm_Model : string
}.

Record RedisRequest : Type := mkRedisRequest {
  rr_Message : RequestMessage;
  rr_RequestQueueName : string;
  rr_ResultQueueName : string
}.

Record PubSubRequest : Type := mkPubSubRequest {
  ps_Message : RequestMessage;
  ps_PubSubID : string;
  ps_ResultQueueName : string
}.

(** A value of the [Request] interface: one of the three concrete pointer
    types (the pointer itself may be nil), or another implementation, known by
    what its accessors return. *)
Inductive Request : Type :=
| PlainRequest (p : option RequestMessage)
| RedisReq (p : option RedisRequest)
| PubSubReq (p : option PubSubRequest)
| OtherRequest (view : RequestMessage).

(** What the accessors ([ReqID], [ReqDeadline], ...) read.  Calling one through
    a nil pointer panics in Go: [None]. *)
Definition request_view (r : Request) : option RequestMessage :=
  match r with
  | PlainRequest p => p
  | RedisReq p => rr_Message <$> p
  | PubSubReq p => ps_Message <$> p
  | OtherRequest v => Some v
  end.

Inductive QuotaClassification : Type :=
| ClassificationNone
| ClassificationReserved
| ClassificationOverflow
| ClassificationOther (s : string).

#[export] Instance QuotaClassification_eq_dec : EqDecision QuotaClassification.
Proof. solve_decision. Defined.

(** [QuotaClassification] is a string type; the constructors name its declared
    constants and these two functions are the conversions. *)
Definition classification_string (c : QuotaClassification) : string :=
  match c with
  | ClassificationNone => ""
  | ClassificationReserved => "reserved"
  | ClassificationOverflow => "overflow"
  | ClassificationOther s => s
  end.

Definition classification_of_string (s : string) : QuotaClassification :=
  if decide (s = "") then ClassificationNone
  else if decide (s = "reserved") then ClassificationReserved
  else if decide (s = "overflow") then ClassificationOverflow
  else ClassificationOther s.

Definition LabelClassification : string := "classification".

Definition TierInteractive : string := "interactive".
Definition TierAsync : string := "async".
Definition TierBatch : string := "batch".

Definition FairnessIDHeader : string := "x-llm-d-inference-fairness-id".
Definition ObjectiveHeader : string := "x-llm-d-inference-objective".

Record InternalRouting : Type := mkInternalRouting {
  rt_RetryCount : Z;
  rt_QueueID : string;
  rt_RequestToken : string;
  rt_DispatchAttempt : Z;
  rt_RequestQueueName : string;
  rt_ResultQueueName : string;
  rt_ResultTTLSeconds : Z;
  rt_ResultRoutingResolved : bool;
  rt_TransportCorrelationID : string;
  rt_EnqueueSeq : Z;
  rt_PayloadRef : string;
  rt_Labels : gmap string string
}.

Definition zeroRouting : InternalRouting :=
  mkInternalRouting 0 "" "" 0 "" "" 0 false "" 0 "" ∅.

Definition set_labels (rt : InternalRouting) (l : gmap string string) : InternalRouting :=
  mkInternalRouting (rt_RetryCount rt) (rt_QueueID rt) (rt_RequestToken rt) (rt_DispatchAttempt rt)
    (rt_RequestQueueName rt) (rt_ResultQueueName rt) (rt_ResultTTLSeconds rt)
    (rt_ResultRoutingResolved rt) (rt_TransportCorrelationID rt) (rt_EnqueueSeq rt)
    (rt_PayloadRef rt) l.

Definition set_retry_count (rt : InternalRouting) (n : Z) : InternalRouting :=
  mkInternalRouting n (rt_QueueID rt) (rt_RequestToken rt) (rt_DispatchAttempt rt)
    (rt_RequestQueueName rt) (rt_ResultQueueName rt) (rt_ResultTTLSeconds rt)
    (rt_ResultRoutingResolved rt) (rt_TransportCorrelationID rt) (rt_EnqueueSeq rt)
    (rt_PayloadRef rt) (rt_Labels rt).

(** [SetClassification] and [GetClassification] read and write one label. *)
Definition SetClassification (c : QuotaClassification) (rt : InternalRouting) : InternalRouting :=
  if decide (c = ClassificationNone)
  then set_labels rt (delete LabelClassification (rt_Labels rt))
  else set_labels rt (<[LabelClassification := classification_string c]> (rt_Labels rt)).

Definition GetClassification (rt : InternalRouting) : QuotaClassification :=
  classification_of_string (default "" (rt_Labels rt !! LabelClassification)).

(** The envelope.  [ir_Public] is [None] for a nil interface; [ir_Ingestion]
    is the in-process ingestion time, 0 when unset. *)
Record InternalRequest : Type := mkInternalRequest {
  ir_Routing : InternalRouting;
  ir_Public : option Request;
  ir_Ingestion : Z
}.

Definition ir_view (ir : InternalRequest) : option RequestMessage :=
  ir_Public ir ≫= request_view.

Definition NewInternalRequest (routing : InternalRouting) (typedReq : Request) : InternalRequest :=
  mkInternalRequest routing (Some typedReq) 0.

(** ** Queue scores *)
Definition queueScoreFractionBits : Z := 21.
Definition maxQueueScoreSeq : Z := Z.shiftl 1 queueScoreFractionBits - 1.

(** [float64(deadline) + float64(seq)/(1<<21)]; the quotient is exact. *)
Definition queueScore (deadline seq : Z) : Q :=
  let seq := Z.min (Z.max seq 0) maxQueueScoreSeq in
  fadd64 (frnd (inject_Z deadline)) (seq # Z.to_pos (Z.shiftl 1 queueScoreFractionBits)).

(** [None]: the accessor is called through a nil pointer, which panics. *)
Definition QueueScore (ir : InternalRequest) : option Q :=
  match ir_Public ir with
  | None => Some 0%Q
  | Some r =>
      (fun m => queueScore (rm_Deadline m) (rt_EnqueueSeq (ir_Routing ir))) <$> request_view r
  end.

(** ** Results *)
Record ResultMessage : Type := mkResultMessage {
  res_ID : string;
  res_StatusCode : Z;
  res_Payload : string;
  res_ErrorCode : string;
  res_ErrorMessage : string;
  res_Routing : InternalRouting;
  res_Metadata : gmap string string
}.

Definition ErrCodeDeadlineExceeded : string := "DEADLINE_EXCEEDED".
Definition ErrCodeCancelled : string := "CANCELLED".
Definition ErrCodeGateDropped : string := "GATE_DROPPED".
Definition ErrCodeGateError : string := "GATE_ERROR".
Definition ErrCodeInferenceError : string := "INFERENCE_ERROR".
Definition ErrCodeInvalidRequest : string := "INVALID_REQUEST".
Definition ErrCodePayloadUnavailable : string := "PAYLOAD_UNAVAILABLE".

Definition RequestCancellationKey (requestID : string) : string := "request-cancel:" +:+ requestID.
Definition RequestActiveTokenKey (requestID : string) : string := "request-active:" +:+ requestID.
Definition RequestPayloadKey (requestID requestToken : string) : string :=
  "request-payload:" +:+ requestID +:+ ":" +:+ requestToken.

(** [json.Marshal(map[string]string{"error": errMsg})]; marshalling a map of
    strings does not fail, so the fallback text of the code is unreachable. *)
Definition error_payload (errMsg : string) : string := print_obj [("error", quote errMsg)].

(** [req] is the request's accessor view. *)
Definition NewErrorResult (req : RequestMessage) (routing : InternalRouting)
    (errorCode errMsg : string) : ResultMessage :=
  mkResultMessage (rm_ID req) 0 (error_payload errMsg) errorCode errMsg routing (rm_Metadata req).

Definition NewHTTPResult (req : RequestMessage) (routing : InternalRouting)
    (statusCode : Z) (responseBody : string) : ResultMessage :=
  mkResultMessage (rm_ID req) statusCode responseBody "" "" routing (rm_Metadata req).

Definition NewGateDroppedResult (req : RequestMessage) (routing : InternalRouting) : ResultMessage :=
  NewErrorResult req routing ErrCodeGateDropped "Pool gating dropped request".

Definition NewDeadlineExceededResult (req : RequestMessage) (routing : InternalRouting) : ResultMessage :=
  NewErrorResult req routing ErrCodeDeadlineExceeded "deadline exceeded".

Definition NewCancelledResult (req : RequestMessage) (routing : InternalRouting) : ResultMessage :=
  NewErrorResult req routing ErrCodeCancelled "cancelled".

(** ** Payload splitting (payload.go) *)
Inductive PayloadErr : Type :=
| ErrRequestNil
| ErrUnsupportedType
| ErrPublicRequestNil
| ErrMarshal.

(** The message a request points to, with the function that writes it back
    through the same pointer. *)
Definition requestMessageOf (r : option Request) :
    Res PayloadErr (RequestMessage * (RequestMessage -> Request)) :=
  match r with
  | Some (PlainRequest (Some m)) => Ok (m, fun m' => PlainRequest (Some m'))
  | Some (RedisReq (Some x)) =>
      Ok (rr_Message x,
          fun m' => RedisReq (Some (mkRedisRequest m' (rr_RequestQueueName x) (rr_ResultQueueName x))))
  | Some (PubSubReq (Some x)) =>
      Ok (ps_Message x,
          fun m' => PubSubReq (Some (mkPubSubRequest m' (ps_PubSubID x) (ps_ResultQueueName x))))
  | Some (OtherRequest _) => Err ErrUnsupportedType
  | Some (PlainRequest None) | Some (RedisReq None) | Some (PubSubReq None) | None => Err ErrPublicRequestNil
  end.

Definition set_payload (m : RequestMessage) (p : RawMessage) : RequestMessage :=
  mkRequestMessage (rm_ID m) (rm_Created m) (rm_Deadline m) p (rm_Metadata m) (rm_Headers m)
    (rm_Endpoint m) (rm_Model m).

Definition AttachPayload (ir : option InternalRequest) (payload : RawMessage) :
    Res PayloadErr InternalRequest :=
  match ir with
  | None => Err ErrRequestNil
  | Some ir =>
      match requestMessageOf (ir_Public ir) with
      | Err e => Err e
      | Ok (m, put) =>
          Ok (mkInternalRequest (ir_Routing ir) (Some (put (set_payload m payload))) (ir_Ingestion ir))
      end
  end.

(** [marshal] is [json.Marshal] on the envelope (its wire format is in
    Wire.v).  The payload is nil while the envelope is encoded and restored
    afterwards, also when encoding fails. *)
Definition SplitPayload {B : Type} (marshal : InternalRequest -> option B) (ir : option InternalRequest) :
    Res PayloadErr (B * RawMessage) * option InternalRequest :=
  match ir with
  | None => (Err ErrRequestNil, ir)
  | Some ir0 =>
      match requestMessageOf (ir_Public ir0) with
      | Err e => (Err e, ir)
      | Ok (msg, put) =>
          let payload := rm_Payload msg in
          let stripped :=
            mkInternalRequest (ir_Routing ir0) (Some (put (set_payload msg RawNil))) (ir_Ingestion ir0) in
          let envelope := marshal stripped in
          let restored :=
            mkInternalRequest (ir_Routing ir0)
              (Some (put (set_payload (set_payload msg RawNil) payload))) (ir_Ingestion ir0) in
          (match envelope with
           | None => Err ErrMarshal
           | Some e => Ok (e, payload)
           end, Some restored)
      end
  end.

(** ** Error categories (inference_error.go) *)
Inductive ErrorCategory : Type :=
| ErrCategoryRateLimit
| ErrCategoryServer
| ErrCategoryInvalidReq
| ErrCategoryAuth
| ErrCategoryParse
| ErrCategoryUnknown.

#[export] Instance ErrorCategory_eq_dec : EqDecision ErrorCategory.
Proof. solve_decision. Defined.

Definition Fatal (c : ErrorCategory) : bool :=
  bool_decide (c <> ErrCategoryRateLimit) && bool_decide (c <> ErrCategoryServer).

Definition Sheddable (c : ErrorCategory) : bool := bool_decide (c = ErrCategoryRateLimit).

(** ** Leased dispatch-rate commands (dispatch_control.go) *)
Definition DispatchRateLimitAPIVersion : string := "llm-d.ai/v1alpha1".

Record DispatchRateLimit : Type := mkDispatchRateLimit {
  drl_APIVersion : string;
  drl_PoolID : string;
  drl_MaxAdmissionRPS : float64;
  drl_ValidUntilUnixMillis : Z;
  drl_DecisionID : string
}.

Inductive RateLimitErr : Type :=
| ErrUnsupportedAPIVersion
| ErrPoolIDRequired
| ErrRateNotFinite
| ErrLeaseExpired
| ErrDecisionIDRequired.

Definition ValidateAt (l : DispatchRateLimit) (now : Z) : Res RateLimitErr unit :=
  if negb (bool_decide (drl_APIVersion l = DispatchRateLimitAPIVersion)) then Err ErrUnsupportedAPIVersion
  else if bool_decide (drl_PoolID l = "") then Err ErrPoolIDRequired
  else if (isNaN (drl_MaxAdmissionRPS l) || isInf (drl_MaxAdmissionRPS l)
           || flt (drl_MaxAdmissionRPS l) (Fin 0))%bool then Err ErrRateNotFinite
  else if drl_ValidUntilUnixMillis l <=? UnixMilli now then Err ErrLeaseExpired
  else if bool_decide (drl_DecisionID l = "") then Err ErrDecisionIDRequired
  else Ok tt.

(** ** Scores order requests by deadline, then by submission *)
Definition clampSeq (seq : Z) : Z := Z.min (Z.max seq 0) maxQueueScoreSeq.

Lemma clampSeq_bounds seq : 0 <= clampSeq seq < 2 ^ 21.
Proof. unfold clampSeq. change maxQueueScoreSeq with 2097151. lia. Qed.

(** The score as a fraction over [2^21]. *)
Lemma queueScore_fraction deadline seq : 0 <= deadline < 2 ^ 32 ->
  queueScore deadline seq == (deadline * 2 ^ 21 + clampSeq seq) # Z.to_pos (2 ^ 21).
Proof.
  intros Hd. pose proof (clampSeq_bounds seq) as Hc. unfold queueScore, fadd64. fold (clampSeq seq).
  assert (frnd (inject_Z deadline) == inject_Z deadline) as Hf by by apply (frnd_exact _ deadline 0); [lia..|].
  assert (frnd (inject_Z deadline) + (clampSeq seq # Z.to_pos (Z.shiftl 1 queueScoreFractionBits)) ==
          (deadline * 2 ^ 21 + clampSeq seq) # Z.to_pos (2 ^ 21)) as Hs.
  { rewrite Hf. unfold Qeq, Qplus, inject_Z. cbn [Qnum Qden].
    change (Z.to_pos (Z.shiftl 1 queueScoreFractionBits)) with 2097152%positive.
    change (Z.to_pos (2 ^ 21)) with 2097152%positive. change (2 ^ 21) with 2097152. lia. }
  rewrite (frnd_exact _ (deadline * 2 ^ 21 + clampSeq seq) 21); [exact Hs|lia|lia|exact Hs].
Qed.

(** Queue scores order requests by deadline and, among equal deadlines, by
    their sequence: for deadlines below 2^32 the float64 score is exact, and one
    score is below another exactly when the deadline is, or the deadlines are
    equal and the sequence, cut off at 2^21-1, is. *)
Theorem queueScore_order d1 s1 d2 s2 : 0 <= d1 < 2 ^ 32 -> 0 <= d2 < 2 ^ 32 ->
  queueScore d1 s1 == inject_Z d1 + (clampSeq s1 # 2097152) /\
  ((queueScore d1 s1 < queueScore d2 s2)%Q <-> d1 < d2 \/ (d1 = d2 /\ clampSeq s1 < clampSeq s2)).
Proof.
  intros Hd1 Hd2. pose proof (clampSeq_bounds s1). pose proof (clampSeq_bounds s2).
  rewrite (queueScore_fraction d1 s1), (queueScore_fraction d2 s2) by done. split.
  - unfold Qeq, Qplus, inject_Z. cbn [Qnum Qden]. change (Z.to_pos (2 ^ 21)) with 2097152%positive.
    change (2 ^ 21) with 2097152. lia.
  - unfold Qlt. simpl. lia.
Qed.

Lemma queueScore_order_witness :
  queueScore 100 3 == inject_Z 100 + (clampSeq 3 # 2097152) /\
  ((queueScore 100 3 < queueScore 100 4)%Q <-> 100 < 100 \/ (100 = 100 /\ clampSeq 3 < clampSeq 4)).
Proof. apply (queueScore_order 100 3 100 4); lia. Defined.

(** SplitPayload gives back the request it was given, also when encoding
    fails, the envelope it encodes has no payload, and attaching the payload it
    returns to that envelope's request restores the original. *)
Theorem SplitPayload_restores {B : Type} (marshal : InternalRequest -> option B) (ir : InternalRequest) :
  let '(r, after) := SplitPayload marshal (Some ir) in
  after = Some ir
  /\ match requestMessageOf (ir_Public ir) with
     | Err e => r = Err e
     | Ok (m, put) =>
         let stripped := mkInternalRequest (ir_Routing ir) (Some (put (set_payload m RawNil))) (ir_Ingestion ir) in
         r = match marshal stripped with None => Err ErrMarshal | Some e => Ok (e, rm_Payload m) end
         /\ AttachPayload (Some stripped) (rm_Payload m) = Ok ir
     end.
Proof.
  destruct ir as [rt pub ing]. unfold SplitPayload, AttachPayload. simpl.
  destruct pub as [[[m|]|[x|]|[x|]|v]|]; simpl; try done;
    (split; [|split; [done|]]); repeat f_equal; by destruct x as [[] ? ?] || by destruct m.
Qed.
