(* ===== verification/QueueSpec.v ===== *)
(** * What a durable request queue promises

    Both backends (the Postgres store of producer-sql/sqlqueue and the Redis
    claims of pkg/redis/claim.go) keep every accepted request until one
    dispatch of it is acknowledged, and fence the acknowledgement of a
    dispatch that has lost its request.  The contract is a transition system
    on the phase one request is in; [DurableQueue] is the interface a backend
    implements by giving its state, its steps and a simulation into that
    system, and the theorems here are proved against the interface. *)
From stdpp Require Import prelude gmap list relations.
From Stdlib Require Import ZArith Lia.
From S2P Require Import Prelude.

(** ** Phases of one request *)
Inductive phase (T : Type) : Type :=
| Absent            (* not in the queue *)
| Pending           (* waiting to be dispatched *)
| Running (t : T)   (* dispatched, [t] identifies the dispatch *)
| Stranded.         (* dispatched, and the dispatch has lost its lease *)

Arguments Absent {T}.
Arguments Pending {T}.
Arguments Running {T} t.
Arguments Stranded {T}.

Inductive qevent (T : Type) : Type :=
| EvEnqueue
| EvDispatch (t : T)
| EvAck (t : T).

Arguments EvEnqueue {T}.
Arguments EvDispatch {T} t.
Arguments EvAck {T} t.

#[export] Instance qevent_eq_dec {T : Type} `{EqDecision T} : EqDecision (qevent T).
Proof. solve_decision. Defined.

(** Visible moves. *)
Inductive qstep {T : Type} : phase T -> qevent T -> phase T -> Prop :=
| q_enqueue : qstep Absent EvEnqueue Pending
| q_dispatch t : qstep Pending (EvDispatch t) (Running t)
| q_ack t : qstep (Running t) (EvAck t) Absent.

(** Internal moves: a dispatch gives its request back or loses it, and a
    stranded request becomes pending again. *)
Inductive qtau {T : Type} : phase T -> phase T -> Prop :=
| q_return t : qtau (Running t) Pending
| q_lose t : qtau (Running t) Stranded
| q_recover : qtau Stranded Pending.

(** Weak traces of one request. *)
Inductive qtrace {T : Type} : phase T -> list (qevent T) -> phase T -> Prop :=
| qtrace_nil p : qtrace p [] p
| qtrace_tau p p' tr p'' : qtrace p tr p' -> qtau p' p'' -> qtrace p tr p''
| qtrace_vis p p' tr ev p'' : qtrace p tr p' -> qstep p' ev p'' -> qtrace p (tr ++ [ev]) p''.

Create HintDb queue.
#[export] Hint Constructors qstep qtau qtrace : queue.

Section phases.
Context {T : Type} `{EqDecision T}.
Implicit Types (p : phase T) (tr : list (qevent T)).

Definition live p : nat := match p with Absent => 0 | _ => 1 end.

Definition is_ack (ev : qevent T) : bool := match ev with EvAck _ => true | _ => false end.
Definition is_enqueue (ev : qevent T) : bool := match ev with EvEnqueue => true | _ => false end.

Definition acks tr : nat := length (filter (fun ev => is_ack ev = true) tr).
Definition enqueues tr : nat := length (filter (fun ev => is_enqueue ev = true) tr).

Lemma acks_snoc tr ev : acks (tr ++ [ev]) = acks tr + if is_ack ev then 1 else 0.
Proof. unfold acks. rewrite filter_app, length_app. by destruct ev. Qed.

Lemma enqueues_snoc tr ev : enqueues (tr ++ [ev]) = enqueues tr + if is_enqueue ev then 1 else 0.
Proof. unfold enqueues. rewrite filter_app, length_app. by destruct ev. Qed.

(** Every accepted request is still in the queue or has been acknowledged. *)
Lemma qtrace_conservation p tr p' :
  qtrace p tr p' -> live p + enqueues tr = acks tr + live p'.
Proof.
  induction 1 as [p|p p' tr p'' _ IH Ht|p p' tr ev p'' _ IH Hs]; [done| |].
  - destruct Ht; simpl in *; lia.
  - rewrite acks_snoc, enqueues_snoc. destruct Hs; simpl in *; lia.
Qed.

(** The last event of a trace that ends in [Running t] is [t]'s dispatch. *)
Lemma qtrace_running tr t :
  qtrace Absent tr (Running t) -> exists tr', tr = tr' ++ [EvDispatch t].
Proof.
  remember Absent as p0 eqn:E0. remember (Running t) as p1 eqn:E1.
  intros Htr. revert E0 t E1.
  induction Htr as [p|p p' tr p'' Htr IH Ht|p p' tr ev p'' Htr IH Hs]; intros -> t' E.
  - done.
  - inversion Ht; congruence.
  - inversion Hs; simplify_eq; eauto.
Qed.

(** An acknowledgement directly follows, among the events of its request, the
    dispatch it acknowledges. *)
Lemma qtrace_ack_after_dispatch tr t tr' p :
  qtrace Absent (tr ++ EvAck t :: tr') p -> exists tr0, tr = tr0 ++ [EvDispatch t].
Proof.
  remember Absent as p0 eqn:E0. remember (tr ++ EvAck t :: tr') as l eqn:E.
  intros Htr. revert tr' E0 E.
  induction Htr as [p|p p' l p'' Htr IH Ht|p p' l ev p'' Htr IH Hs]; intros tr' -> E.
  - by destruct tr.
  - eauto.
  - destruct (exists_last (l := EvAck t :: tr')) as (l' & ev' & El); [done|].
    rewrite El, app_assoc in E. apply app_inj_tail in E as [-> <-].
    destruct l' as [|x l'].
    + rewrite app_nil_r in Htr. injection El as <- ->.
      inversion Hs; simplify_eq. by eapply qtrace_running.
    + injection El as <- ->. eapply (IH l'); eauto.
Qed.

(** From any phase but [Running t], [t] is acknowledged only after being
    dispatched. *)
Lemma qtrace_fenced p tr p' t :
  qtrace p tr p' -> p <> Running t -> EvDispatch t ∉ tr -> (EvAck t ∉ tr) /\ (p' <> Running t).
Proof.
  induction 1 as [p|p p' tr p'' _ IH Ht|p p' tr ev p'' _ IH Hs]; intros Hp Hd.
  - split; [apply not_elem_of_nil|done].
  - destruct IH; [done..|]. split; [done|]. by inversion Ht.
  - rewrite not_elem_of_app, list_elem_of_singleton in *. destruct Hd as [Hd Hev].
    destruct IH as [IH1 IH2]; [done..|].
    inversion Hs; simplify_eq; naive_solver.
Qed.
End phases.

(** ** The interface *)

(** The events of one request. *)
Definition at_key {K T : Type} `{EqDecision K} (k : K) (evs : list (K * qevent T)) : list (qevent T) :=
  (filter (fun e => e.1 = k) evs).*2.

Lemma at_key_app {K T : Type} `{EqDecision K} (k : K) (l l' : list (K * qevent T)) :
  at_key k (l ++ l') = at_key k l ++ at_key k l'.
Proof. unfold at_key. by rewrite filter_app, fmap_app. Qed.

(** [q_good] is the backend's own invariant; [q_simulates] says that whatever
    a step of the backend does to one request, the contract allows. *)
Class DurableQueue (S K T : Type) `{EqDecision K} := {
  q_init : S;
  q_step : S -> list (K * qevent T) -> S -> Prop;
  q_phase : S -> K -> phase T;
  q_good : S -> Prop;
  q_init_good : q_good q_init;
  q_init_absent k : q_phase q_init k = Absent;
  q_step_good s evs s' : q_good s -> q_step s evs s' -> q_good s';
  q_simulates s evs s' k :
    q_good s -> q_step s evs s' -> qtrace (q_phase s k) (at_key k evs) (q_phase s' k)
}.

Lemma elem_of_at_key {K T : Type} `{EqDecision K} (k : K) (ev : qevent T) evs :
  ev ∈ at_key k evs <-> (k, ev) ∈ evs.
Proof.
  unfold at_key. rewrite list_elem_of_fmap. setoid_rewrite list_elem_of_filter. split.
  - by intros ([] & -> & <- & ?).
  - intros ?. by exists (k, ev).
Qed.

Lemma qtrace_app {T : Type} (p p' p'' : phase T) tr tr' :
  qtrace p tr p' -> qtrace p' tr' p'' -> qtrace p (tr ++ tr') p''.
Proof.
  intros H1 H2. revert H1. induction H2; intros H1.
  - by rewrite app_nil_r.
  - eauto with queue.
  - rewrite app_assoc. eauto with queue.
Qed.

Section contract.
Context {S K T : Type} `{EqDecision K} {Q : DurableQueue S K T}.

(** Runs of the backend from its initial state. *)
Inductive q_run : list (K * qevent T) -> S -> Prop :=
| q_run_nil : q_run [] q_init
| q_run_step evs s evs' s' : q_run evs s -> q_step s evs' s' -> q_run (evs ++ evs') s'.

Lemma q_run_good evs s : q_run evs s -> q_good s.
Proof. induction 1; eauto using q_init_good, q_step_good. Qed.

Lemma q_run_trace evs s k : q_run evs s -> qtrace Absent (at_key k evs) (q_phase s k).
Proof.
  induction 1 as [|evs s evs' s' Hrun IH Hstep].
  - rewrite q_init_absent. constructor.
  - rewrite at_key_app. eapply qtrace_app; [done|].
    eapply q_simulates; eauto using q_run_good.
Qed.

Lemma q_run_conservation evs s k :
  q_run evs s -> enqueues (at_key k evs) = acks (at_key k evs) + live (q_phase s k).
Proof. intros H. apply (qtrace_conservation Absent), q_run_trace, H. Qed.

Lemma q_run_ack_after_dispatch evs s k tr t tr' :
  q_run evs s -> at_key k evs = tr ++ EvAck t :: tr' -> exists tr0, tr = tr0 ++ [EvDispatch t].
Proof.
  intros H E. apply (q_run_trace _ _ k) in H. rewrite E in H.
  by eapply qtrace_ack_after_dispatch.
Qed.
End contract.
