(* ===== verification/SqlStore.v ===== *)
(** * The Postgres queue store (src/producer-sql/sqlqueue/store.go)

    The tables of migrations/0001 that hold the queue are finite maps keyed by
    their primary keys.  Each SQL statement is a function on the tables (a
    statement sees one snapshot and takes effect at once); each [Store] method
    is the sequence of statements the Go method runs, in the monad [DB], in
    which any statement may fail: a fault either loses the statement
    ([FLost]) or lets it take effect and loses the reply ([FReply]), and in
    both cases the method sees an error.  [FOR UPDATE SKIP LOCKED] takes the
    set of rows other transactions hold as an argument. *)
From stdpp Require Import prelude gmap strings list sorting.
From Stdlib Require Import ZArith Lia.
From S2P Require Import Prelude.

#[local] Open Scope Z_scope.

(** ** Data *)
Definition Partitions : Z := 64.
Definition enqueueChunk : nat := 1000.

Record Key : Type := mkKey { ID : string; Token : string }.

#[export] Instance Key_eq_dec : EqDecision Key.
Proof. solve_decision. Defined.
#[export] Instance Key_countable : Countable Key.
Proof.
  apply (inj_countable' (fun k => (ID k, Token k)) (fun p => mkKey p.1 p.2)).
  by intros [].
Defined.

(** A row of async_requests without its primary key (id, request_token). *)
Record ReqRow : Type := mkReqRow {
  queue : string;
  partition_id : Z;
  deadline : Z;
  not_before : Z;
  dispatch_epoch : Z;
  dispatch_attempt : Z;
  cancelled : bool;
  envelope : string;
  payload : string;
  created_at : Z
}.

(** A row of async_partitions, keyed by (queue, partition_id). *)
Record PartRow : Type := mkPartRow {
  p_owner : string;
  p_epoch : Z;
  p_draining : bool;
  p_lease_expires_ms : Z
}.

(** A row of async_results, keyed by seq. *)
Record ResRow : Type := mkResRow {
  s_route : string;
  s_id : string;
  s_token : string;
  s_payload : string;
  s_expires_at : Z;
  s_created_at : Z
}.

(** The database; [attempts] and [result_seq] are the last values drawn from
    the sequences async_dispatch_attempts and async_results.seq. *)
Record Store : Type := mkStore {
  requests : gmap Key ReqRow;
  partitions : gmap (string * Z) PartRow;
  dispatchers : gmap (string * string) Z;
  results : gmap Z ResRow;
  attempts : Z;
  result_seq : Z
}.

Definition emptyStore : Store := mkStore ∅ ∅ ∅ ∅ 0 0.

Definition set_requests (st : Store) (r : gmap Key ReqRow) : Store :=
  mkStore r (partitions st) (dispatchers st) (results st) (attempts st) (result_seq st).
Definition set_partitions (st : Store) (p : gmap (string * Z) PartRow) : Store :=
  mkStore (requests st) p (dispatchers st) (results st) (attempts st) (result_seq st).
Definition set_dispatchers (st : Store) (d : gmap (string * string) Z) : Store :=
  mkStore (requests st) (partitions st) d (results st) (attempts st) (result_seq st).
Definition set_results (st : Store) (r : gmap Z ResRow) : Store :=
  mkStore (requests st) (partitions st) (dispatchers st) r (attempts st) (result_seq st).

(** The Go structs. *)
Record Request : Type := mkRequest {
  req_ID : string;
  req_Token : string;
  req_Queue : string;
  req_Partition : Z;
  req_Epoch : Z;
  req_Attempt : Z;
  req_Deadline : Z;
  req_Envelope : string;
  req_Payload : string;
  req_Cancelled : bool;
  req_createdAt : Z
}.

Record Stamp : Type := mkStamp { st_Key : Key; st_Attempt : Z }.

#[export] Instance Stamp_eq_dec : EqDecision Stamp.
Proof. solve_decision. Defined.
#[export] Instance Stamp_countable : Countable Stamp.
Proof.
  apply (inj_countable' (fun s => (st_Key s, st_Attempt s)) (fun p => mkStamp p.1 p.2)).
  by intros [].
Defined.

Definition request_Key (r : Request) : Key := mkKey (req_ID r) (req_Token r).
Definition request_Stamp (r : Request) : Stamp := mkStamp (request_Key r) (req_Attempt r).

Record Completion : Type := mkCompletion {
  c_Key : Key;
  c_Attempt : Z;
  c_Route : string;
  c_Payload : string;
  c_ExpiresAt : Z
}.

Record Result : Type := mkResult {
  r_Seq : Z;
  r_Route : string;
  r_ID : string;
  r_Token : string;
  r_Payload : string
}.

Record Lease : Type := mkLease { l_Partition : Z; l_Epoch : Z; l_Draining : bool }.

#[export] Instance Lease_eq_dec : EqDecision Lease.
Proof. solve_decision. Defined.

(** ** Hashing ids to partitions: FNV-1a on 32 bits, mod [Partitions] *)
Definition fnv_offset32 : Z := 2166136261.
Definition fnv_prime32 : Z := 16777619.

Fixpoint fnv32a (h : Z) (s : string) : Z :=
  match s with
  | EmptyString => h
  | String c s' =>
      let h := Z.lxor h (Z.of_nat (Ascii.nat_of_ascii c)) in
      fnv32a ((h * fnv_prime32) mod 2 ^ 32) s'
  end.

Definition partitionOf (id : string) : Z := fnv32a fnv_offset32 id mod Partitions.

(** ** The database monad *)
Inductive StoreErr : Type :=
| ErrStatement   (* the driver or the server reported an error *)
| ErrUnique      (* primary key violation *)
| ErrNegativeLimit
| ErrManyRows.

Abbreviation DB := (Faulty Store StoreErr).
Abbreviation db_ret := f_ret.
Abbreviation db_fail := f_fail.
Abbreviation db_bind := f_bind.

#[local] Open Scope faulty_scope.

(** A statement: the tables after it and its rows, or a server error that
    changes nothing. *)
Definition stmt (A : Type) : Type := Store -> Res StoreErr (Store * A).

(** Run one statement. *)
Definition exec {A : Type} (q : stmt A) : DB A := f_call ErrStatement q.

(** A transaction: BEGIN, the body, COMMIT.  The body's error rolls back, and
    so does a lost COMMIT; a COMMIT whose reply is lost has taken effect. *)
Definition inTx {A : Type} (fn : DB A) : DB A :=
  fun '(st, fs) =>
    match head fs with
    | Some FLost | Some FReply => (Err ErrStatement, (st, tail fs))
    | _ =>
        match fn (st, tail fs) with
        | (Err e, (_, fs1)) => (Err e, (st, fs1))
        | (Ok a, (st1, fs1)) =>
            match head fs1 with
            | Some FLost => (Err ErrStatement, (st, tail fs1))
            | Some FReply => (Err ErrStatement, (st1, tail fs1))
            | _ => (Ok a, (st1, tail fs1))
            end
        end
    end.

(** ** Requests *)

(** INSERT INTO async_requests ... SELECT * FROM unnest(...): every row or
    none, a duplicate primary key being an error. *)
Fixpoint insert_rows (rows : list (Key * ReqRow)) (m : gmap Key ReqRow) : option (gmap Key ReqRow) :=
  match rows with
  | [] => Some m
  | (k, r) :: rows' =>
      match m !! k with
      | Some _ => None
      | None => insert_rows rows' (<[k := r]> m)
      end
  end.

Definition stmt_insert (rows : list (Key * ReqRow)) : stmt unit :=
  fun st => match insert_rows rows (requests st) with
            | Some m => Ok (set_requests st m, tt)
            | None => Err ErrUnique
            end.

(** The row [Enqueue] builds for its [i]-th argument: columns it does not
    name take their defaults. *)
Definition enqueue_row (createdAt : Z) (i : Z) (r : Request) : Key * ReqRow :=
  (request_Key r,
   mkReqRow (req_Queue r) (partitionOf (req_ID r)) (req_Deadline r) 0 0 0 false
     (req_Envelope r) (req_Payload r) (createdAt + i)).

Fixpoint enqueue_rows (createdAt start : Z) (rs : list Request) : list (Key * ReqRow) :=
  match rs with
  | [] => []
  | r :: rs' => enqueue_row createdAt start r :: enqueue_rows createdAt (start + 1) rs'
  end.

Fixpoint enqueue_chunks (createdAt start : Z) (chs : list (list Request)) : DB unit :=
  match chs with
  | [] => db_ret tt
  | ch :: chs' =>
      do> exec (stmt_insert (enqueue_rows createdAt start ch));
      enqueue_chunks createdAt (start + Z.of_nat enqueueChunk) chs'
  end.

Definition Enqueue (createdAt : Z) (reqs : list Request) : DB unit :=
  match reqs with
  | [] => db_ret tt
  | _ => inTx (enqueue_chunks createdAt 0 (chunks enqueueChunk reqs))
  end.

(** The partition row a request row belongs to. *)
Definition part_of (st : Store) (r : ReqRow) : option PartRow :=
  partitions st !! (queue r, partition_id r).

(** The partition holds [owner] and, for [dispatch_ok], is not draining. *)
Definition owned_by (owner : string) (p : option PartRow) : bool :=
  match p with
  | Some p => bool_decide (p_owner p = owner)
  | None => false
  end.

Definition dispatch_ok (owner : string) (p : option PartRow) : bool :=
  match p with
  | Some p => bool_decide (p_owner p = owner) && negb (p_draining p)
  | None => false
  end.

(** ORDER BY deadline, created_at. *)
Definition row_le (a b : Key * ReqRow) : Prop :=
  deadline a.2 < deadline b.2 \/ (deadline a.2 = deadline b.2 /\ created_at a.2 <= created_at b.2).

#[export] Instance row_le_dec : RelDecision row_le.
Proof. unfold row_le. intros a b. solve_decision. Defined.

(** The rows async_dispatch's SELECT considers, without order or limit. *)
Definition pending_for (st : Store) (owner p_queue : string) (p_now : Z) (locked : Key -> bool)
    (k : Key) (r : ReqRow) : bool :=
  bool_decide (queue r = p_queue) && bool_decide (dispatch_epoch r = 0)
  && bool_decide (not_before r <= p_now) && dispatch_ok owner (part_of st r) && negb (locked k).

Definition picked_rows (st : Store) (owner p_queue : string) (p_now : Z) (limit : Z) (locked : Key -> bool) :
    list (Key * ReqRow) :=
  take (Z.to_nat limit)
    (merge_sort row_le (select_where (pending_for st owner p_queue p_now locked) (requests st))).

Definition stamp_row (r : ReqRow) (epoch attempt : Z) : ReqRow :=
  mkReqRow (queue r) (partition_id r) (deadline r) (not_before r) epoch attempt
    (cancelled r) (envelope r) (payload r) (created_at r).

Definition to_request (k : Key) (r : ReqRow) : Request :=
  mkRequest (ID k) (Token k) (queue r) (partition_id r) (dispatch_epoch r) (dispatch_attempt r)
    (deadline r) (envelope r) (payload r) (cancelled r) (created_at r).

(** UPDATE async_requests SET dispatch_epoch = p.epoch, dispatch_attempt =
    nextval(...): each picked row, whose partition is still the owner's, draws
    the next attempt. *)
Fixpoint stamp_rows (owner : string) (rows : list (Key * ReqRow)) (st : Store) : Store * list Request :=
  match rows with
  | [] => (st, [])
  | (k, r) :: rows' =>
      match part_of st r with
      | Some p =>
          if bool_decide (p_owner p = owner) && negb (p_draining p) then
            let a := attempts st + 1 in
            let r' := stamp_row r (p_epoch p) a in
            let st1 := mkStore (<[k := r']> (requests st)) (partitions st) (dispatchers st)
                         (results st) a (result_seq st) in
            let '(st2, out) := stamp_rows owner rows' st1 in
            (st2, to_request k r' :: out)
          else stamp_rows owner rows' st
      | None => stamp_rows owner rows' st
      end
  end.

Definition async_dispatch (p_owner p_queue : string) (p_now p_limit : Z) (locked : Key -> bool) :
    stmt (list Request) :=
  fun st =>
    if p_limit <? 0 then Err ErrNegativeLimit
    else Ok (stamp_rows p_owner (picked_rows st p_owner p_queue p_now p_limit locked) st).

Definition request_le (a b : Request) : Prop :=
  req_Deadline a < req_Deadline b \/ (req_Deadline a = req_Deadline b /\ req_createdAt a <= req_createdAt b).

#[export] Instance request_le_dec : RelDecision request_le.
Proof. unfold request_le. intros a b. solve_decision. Defined.

Definition Dispatch (q owner : string) (now limit : Z) (locked : Key -> bool) : DB (list Request) :=
  do! rows <- exec (async_dispatch owner q (Unix now) limit locked);
  db_ret (merge_sort request_le rows).

(** SELECT of the stamps [owner] holds under the current epoch. *)
Definition in_flight (st : Store) (q owner : string) (k : Key) (r : ReqRow) : bool :=
  bool_decide (queue r = q) && bool_decide (0 < dispatch_epoch r)
  && match part_of st r with
     | Some p => bool_decide (p_owner p = owner) && bool_decide (dispatch_epoch r = p_epoch p)
     | None => false
     end.

Definition InFlight (q owner : string) : DB (list Stamp) :=
  exec (fun st =>
    Ok (st, (fun kr => mkStamp kr.1 (dispatch_attempt kr.2))
              <$> select_where (in_flight st q owner) (requests st))).

Definition unstamp (r : ReqRow) : ReqRow := stamp_row r 0 (dispatch_attempt r).

Definition stale (st : Store) (q owner : string) (parts : option (list Z)) (locked : Key -> bool)
    (k : Key) (r : ReqRow) : bool :=
  bool_decide (queue r = q) && bool_decide (0 < dispatch_epoch r)
  && match part_of st r with
     | Some p => bool_decide (p_owner p = owner) && bool_decide (dispatch_epoch r < p_epoch p)
     | None => false
     end
  && match parts with
     | None => true
     | Some ps => bool_decide (partition_id r ∈ ps)
     end
  && negb (locked k).

Definition stmt_reset_stale (q owner : string) (parts : option (list Z)) (locked : Key -> bool) : stmt unit :=
  fun st => Ok (set_requests st
                  (update_where (stale st q owner parts locked) (fun _ r => unstamp r) (requests st)), tt).

(** [parts] is [None] for the nil slice; an empty slice runs no statement. *)
Definition ResetStale (q owner : string) (parts : option (list Z)) (locked : Key -> bool) : DB unit :=
  match parts with
  | Some [] => db_ret tt
  | _ => exec (stmt_reset_stale q owner parts locked)
  end.

Fixpoint uniqueStamps_from (seen : gset Stamp) (stamps : list Stamp) : list Stamp :=
  match stamps with
  | [] => []
  | s :: stamps' =>
      if decide (s ∈ seen) then uniqueStamps_from seen stamps'
      else s :: uniqueStamps_from ({[s]} ∪ seen) stamps'
  end.

Definition uniqueStamps (stamps : list Stamp) : list Stamp := uniqueStamps_from ∅ stamps.

(** The rows a stamp-guarded UPDATE touches. *)
Definition stamped_for (st : Store) (owner : string) (stamps : list Stamp) (k : Key) (r : ReqRow) : bool :=
  bool_decide (0 < dispatch_epoch r) && bool_decide (mkStamp k (dispatch_attempt r) ∈ stamps)
  && owned_by owner (part_of st r).

Definition defer_row (notBefore : Z) (r : ReqRow) : ReqRow :=
  mkReqRow (queue r) (partition_id r) (deadline r) (Z.max (not_before r) notBefore) 0
    (dispatch_attempt r) (cancelled r) (envelope r) (payload r) (created_at r).

Definition stmt_undispatch (owner : string) (stamps : list Stamp) (notBefore : Z) : stmt unit :=
  fun st => Ok (set_requests st
                  (update_where (stamped_for st owner stamps) (fun _ r => defer_row notBefore r) (requests st)), tt).

Definition undispatch (owner : string) (stamps : list Stamp) (notBefore : Z) : DB unit :=
  match uniqueStamps stamps with
  | [] => db_ret tt
  | stamps' => inTx (exec (stmt_undispatch owner stamps' notBefore))
  end.

Definition Undispatch (owner : string) (stamps : list Stamp) : DB unit := undispatch owner stamps 0.

Definition Defer (owner : string) (stamps : list Stamp) (notBefore : Z) : DB unit :=
  undispatch owner stamps notBefore.

(** [oneRow] on the number of rows a statement matched. *)
Definition oneRow (n : Z) : DB bool :=
  if 1 <? n then db_fail ErrManyRows else db_ret (n =? 1).

Definition retry_row (notBefore : Z) (env : string) (r : ReqRow) : ReqRow :=
  mkReqRow (queue r) (partition_id r) (deadline r) notBefore 0 (dispatch_attempt r)
    (cancelled r) env (payload r) (created_at r).

Definition stmt_retry (owner : string) (stamp : Stamp) (notBefore : Z) (env : string) : stmt Z :=
  fun st =>
    let P := stamped_for st owner [stamp] in
    Ok (set_requests st (update_where P (fun _ r => retry_row notBefore env r) (requests st)),
        Z.of_nat (length (select_where P (requests st)))).

Definition Retry (owner : string) (stamp : Stamp) (notBefore : Z) (env : string) : DB bool :=
  do! n <- exec (stmt_retry owner stamp notBefore env);
  oneRow n.

Definition cancel_row (r : ReqRow) : ReqRow :=
  mkReqRow (queue r) (partition_id r) (deadline r) (not_before r) (dispatch_epoch r)
    (dispatch_attempt r) true (envelope r) (payload r) (created_at r).

Definition stmt_cancel (live : list string) : stmt unit :=
  fun st => Ok (set_requests st
                  (update_where (fun k _ => bool_decide (ID k ∈ live)) (fun _ r => cancel_row r) (requests st)), tt).

Definition Cancel (ids : list string) : DB unit :=
  match filter (fun id => id <> "") ids with
  | [] => db_ret tt
  | live => exec (stmt_cancel live)
  end.

Definition CancelledKeys (keys : list Key) : DB (gset Key) :=
  match keys with
  | [] => db_ret ∅
  | _ => exec (fun st =>
           Ok (st, list_to_set
                     (select_where (fun k r => bool_decide (k ∈ keys) && cancelled r) (requests st)).*1))
  end.

(** ** Results *)

(** [Ack]'s loop over the completions: [unique] keeps one completion per key,
    the one with the highest attempt, and [first] the index it came from. *)
Fixpoint ack_unique (i : nat) (cs : list Completion)
    (first position : gmap Key nat) (unique : list Completion) : gmap Key nat * list Completion :=
  match cs with
  | [] => (first, unique)
  | c :: cs' =>
      match position !! c_Key c with
      | Some pos =>
          match unique !! pos with
          | Some u =>
              if c_Attempt u <? c_Attempt c
              then ack_unique (S i) cs' (<[c_Key c := i]> first) position (<[pos := c]> unique)
              else ack_unique (S i) cs' first position unique
          | None => ack_unique (S i) cs' first position unique
          end
      | None =>
          ack_unique (S i) cs' (<[c_Key c := i]> first) (<[c_Key c := length unique]> position)
            (unique ++ [c])
      end
  end.

(** The rows the DELETE of the ack statement matches: stamped with this very
    attempt, in a partition [owner] holds under the epoch that stamped it. *)
Definition ackable (st : Store) (owner : string) (c : Completion) : bool :=
  match requests st !! c_Key c with
  | Some r =>
      bool_decide (0 < dispatch_epoch r) && bool_decide (dispatch_attempt r = c_Attempt c)
      && match part_of st r with
         | Some p => bool_decide (p_owner p = owner) && bool_decide (p_epoch p = dispatch_epoch r)
         | None => false
         end
  | None => false
  end.

Definition result_row (createdAt : Z) (c : Completion) : ResRow :=
  mkResRow (c_Route c) (ID (c_Key c)) (Token (c_Key c)) (c_Payload c) (c_ExpiresAt c) createdAt.

Fixpoint insert_results (createdAt : Z) (cs : list Completion) (st : Store) : Store :=
  match cs with
  | [] => st
  | c :: cs' =>
      let seq := result_seq st + 1 in
      insert_results createdAt cs'
        (mkStore (requests st) (partitions st) (dispatchers st)
           (<[seq := result_row createdAt c]> (results st)) (attempts st) seq)
  end.

(** WITH done AS (DELETE ... RETURNING) INSERT INTO async_results ... RETURNING. *)
Definition stmt_ack (owner : string) (createdAt : Z) (unique : list Completion) : stmt (list Key) :=
  fun st =>
    let done := filter (fun c => ackable st owner c = true) unique in
    let st1 := set_requests st
                 (delete_where (fun k _ => bool_decide (k ∈ c_Key <$> done)) (requests st)) in
    Ok (insert_results createdAt done st1, c_Key <$> done).

(** [acked[first[k]] = true] for every returned key. *)
Definition mark_acked (first : gmap Key nat) (ks : list Key) (acked : list bool) : list bool :=
  foldl (fun acc k => <[default O (first !! k) := true]> acc) acked ks.

Definition Ack (owner : string) (createdAt : Z) (completions : list Completion) : DB (list bool) :=
  match completions with
  | [] => db_ret []
  | _ =>
      let '(first, unique) := ack_unique 0 completions ∅ ∅ [] in
      do! ks <- inTx (exec (stmt_ack owner createdAt unique));
      db_ret (mark_acked first ks (replicate (length completions) false))
  end.

Definition expired_result (now : Z) (r : ResRow) : bool :=
  bool_decide (0 < s_expires_at r) && bool_decide (s_expires_at r < now).

Definition stmt_expire_route (route : string) (now : Z) : stmt unit :=
  fun st => Ok (set_results st
                  (delete_where (fun _ r => bool_decide (s_route r = route) && expired_result now r) (results st)), tt).

Definition seq_le (a b : Z * ResRow) : Prop := a.1 <= b.1.
#[export] Instance seq_le_dec : RelDecision seq_le.
Proof. unfold seq_le. intros a b. solve_decision. Defined.

Definition to_result (sr : Z * ResRow) : Result :=
  mkResult sr.1 (s_route sr.2) (s_id sr.2) (s_token sr.2) (s_payload sr.2).

Definition async_pop_results (p_route : string) (p_limit : Z) (locked : Z -> bool) : stmt (list Result) :=
  fun st =>
    if p_limit <? 0 then Err ErrNegativeLimit
    else
      let sel := take (Z.to_nat p_limit)
                   (merge_sort seq_le
                      (select_where (fun s r => bool_decide (s_route r = p_route) && negb (locked s)) (results st))) in
      Ok (set_results st (delete_where (fun s _ => bool_decide (s ∈ sel.*1)) (results st)), to_result <$> sel).

Definition result_le (a b : Result) : Prop := r_Seq a <= r_Seq b.
#[export] Instance result_le_dec : RelDecision result_le.
Proof. unfold result_le. intros a b. solve_decision. Defined.

Definition PopResults (route : string) (now limit : Z) (locked : Z -> bool) : DB (list Result) :=
  do> exec (stmt_expire_route route now);
  do! rows <- exec (async_pop_results route limit locked);
  db_ret (merge_sort result_le rows).

Definition expiry_le (a b : Z * ResRow) : Prop := s_expires_at a.2 <= s_expires_at b.2.
#[export] Instance expiry_le_dec : RelDecision expiry_le.
Proof. unfold expiry_le. intros a b. solve_decision. Defined.

Definition stmt_expire_results (now limit : Z) (locked : Z -> bool) : stmt Z :=
  fun st =>
    if limit <? 0 then Err ErrNegativeLimit
    else
      let sel := take (Z.to_nat limit)
                   (merge_sort expiry_le
                      (select_where (fun s r => expired_result now r && negb (locked s)) (results st))) in
      Ok (set_results st (delete_where (fun s _ => bool_decide (s ∈ sel.*1)) (results st)),
          Z.of_nat (length sel)).

Definition ExpireResults (now limit : Z) (locked : Z -> bool) : DB Z :=
  exec (stmt_expire_results now limit locked).

(** ** Queue statistics *)
Definition pending_in (q : string) (_ : Key) (r : ReqRow) : bool :=
  bool_decide (queue r = q) && bool_decide (dispatch_epoch r = 0).

Definition HasRequests (q : string) : DB bool :=
  exec (fun st => Ok (st, bool_decide (select_where (pending_in q) (requests st) <> []))).

Definition Backlog (q : string) (now : Z) (windows : list Z) : DB (Z * list Z) :=
  exec (fun st =>
    let rows := (select_where (pending_in q) (requests st)).*2 in
    Ok (st, (Z.of_nat (length rows),
             (fun w => Z.of_nat (length (filter (fun r => deadline r <= wrap64 (now + w)) rows))) <$> windows))).

Definition ResultDepth (route : string) : DB Z :=
  exec (fun st =>
    Ok (st, Z.of_nat (length (select_where (fun _ r => bool_decide (s_route r = route)) (results st))))).

(** ** Partitions and leases *)
Definition freshPart : PartRow := mkPartRow "" 0 false 0.

(** One VALUES row, ON CONFLICT DO NOTHING. *)
Definition ensure_one (q : string) (i : nat) (m : gmap (string * Z) PartRow) : gmap (string * Z) PartRow :=
  match m !! (q, Z.of_nat i) with
  | Some _ => m
  | None => <[(q, Z.of_nat i) := freshPart]> m
  end.

Definition stmt_ensure_partitions (q : string) : stmt unit :=
  fun st => Ok (set_partitions st
                  (foldr (ensure_one q) (partitions st) (seq 0 (Z.to_nat Partitions))), tt).

Definition EnsurePartitions (q : string) : DB unit := exec (stmt_ensure_partitions q).

Definition to_lease (pr : (string * Z) * PartRow) : Lease :=
  mkLease pr.1.2 (p_epoch pr.2) (p_draining pr.2).

Definition lease_le (a b : Lease) : Prop := l_Partition a <= l_Partition b.
#[export] Instance lease_le_dec : RelDecision lease_le.
Proof. unfold lease_le. intros a b. solve_decision. Defined.

Definition queryLeases (q : stmt (list Lease)) : DB (list Lease) :=
  do! rows <- exec q;
  db_ret (merge_sort lease_le rows).

Definition stmt_membership (q owner : string) (expires : Z) (member : bool) : stmt unit :=
  fun st => Ok (set_dispatchers st
                  (if member then <[(q, owner) := expires]> (dispatchers st)
                   else delete (q, owner) (dispatchers st)), tt).

Definition stmt_expire_dispatchers (q : string) (nowMs : Z) : stmt unit :=
  fun st => Ok (set_dispatchers st
                  (delete_where (fun qo e => bool_decide (qo.1 = q) && bool_decide (e < nowMs)) (dispatchers st)), tt).

Definition stmt_count_dispatchers (q : string) : stmt Z :=
  fun st => Ok (st, Z.of_nat (length (select_where (fun qo _ => bool_decide (qo.1 = q)) (dispatchers st)))).

Definition held_by (q owner : string) (qp : string * Z) (p : PartRow) : bool :=
  bool_decide (qp.1 = q) && bool_decide (p_owner p = owner).

Definition renew_part (expires : Z) (p : PartRow) : PartRow :=
  mkPartRow (p_owner p) (p_epoch p) (p_draining p) expires.

(** UPDATE ... RETURNING: the rows as updated. *)
Definition stmt_renew_leases (q owner : string) (expires : Z) : stmt (list Lease) :=
  fun st => Ok (set_partitions st
                  (update_where (held_by q owner) (fun _ p => renew_part expires p) (partitions st)),
                to_lease <$> select_where (held_by q owner) (partitions st)).

Definition Heartbeat (q owner : string) (now ttl : Z) (member : bool) : DB (list Lease * Z) :=
  let nowMs := UnixMilli now in
  let expires := UnixMilli (now + ttl) in
  do> exec (stmt_membership q owner expires member);
  do> exec (stmt_expire_dispatchers q nowMs);
  do! members <- exec (stmt_count_dispatchers q);
  do! leases <- queryLeases (stmt_renew_leases q owner expires);
  db_ret (leases, members).

Definition claimable (q : string) (nowMs : Z) (qp : string * Z) (p : PartRow) : bool :=
  bool_decide (qp.1 = q) && (bool_decide (p_owner p = "") || bool_decide (p_lease_expires_ms p < nowMs)).

(** ORDER BY lease_expires_ms, partition_id. *)
Definition part_le (a b : (string * Z) * PartRow) : Prop :=
  p_lease_expires_ms a.2 < p_lease_expires_ms b.2
  \/ (p_lease_expires_ms a.2 = p_lease_expires_ms b.2 /\ a.1.2 <= b.1.2).
#[export] Instance part_le_dec : RelDecision part_le.
Proof. unfold part_le. intros a b. solve_decision. Defined.

Definition take_part (owner : string) (expires : Z) (p : PartRow) : PartRow :=
  mkPartRow owner (p_epoch p + 1) false expires.

Definition picked_parts (st : Store) (q : string) (nowMs limit : Z) (locked : Z -> bool) :
    list ((string * Z) * PartRow) :=
  take (Z.to_nat limit)
    (merge_sort part_le
       (select_where (fun qp p => claimable q nowMs qp p && negb (locked qp.2)) (partitions st))).

Definition stmt_acquire (q owner : string) (nowMs expires limit : Z) (locked : Z -> bool) : stmt (list Lease) :=
  fun st =>
    if limit <? 0 then Err ErrNegativeLimit
    else
      let pk := picked_parts st q nowMs limit locked in
      Ok (set_partitions st
            (update_where (fun qp _ => bool_decide (qp ∈ pk.*1)) (fun _ p => take_part owner expires p) (partitions st)),
          (fun qp => to_lease (qp.1, take_part owner expires qp.2)) <$> pk).

Definition AcquirePartitions (q owner : string) (now ttl limit : Z) (locked : Z -> bool) : DB (list Lease) :=
  queryLeases (stmt_acquire q owner (UnixMilli now) (UnixMilli (now + ttl)) limit locked).

Definition drain_part (draining : bool) (p : PartRow) : PartRow :=
  mkPartRow (p_owner p) (p_epoch p) draining (p_lease_expires_ms p).

Definition held_in (q owner : string) (parts : list Z) (qp : string * Z) (p : PartRow) : bool :=
  held_by q owner qp p && bool_decide (qp.2 ∈ parts).

Definition stmt_set_draining (q owner : string) (parts : list Z) (draining : bool) : stmt unit :=
  fun st => Ok (set_partitions st
                  (update_where (held_in q owner parts) (fun _ p => drain_part draining p) (partitions st)), tt).

Definition SetDraining (q owner : string) (parts : list Z) (draining : bool) : DB unit :=
  match parts with
  | [] => db_ret tt
  | _ => exec (stmt_set_draining q owner parts draining)
  end.

Definition release_part (p : PartRow) : PartRow := mkPartRow "" (p_epoch p) false 0.

Definition stmt_release (q owner : string) (parts : list Z) : stmt unit :=
  fun st => Ok (set_partitions st
                  (update_where (held_in q owner parts) (fun _ p => release_part p) (partitions st)), tt).

Definition ReleasePartitions (q owner : string) (parts : list Z) : DB unit :=
  match parts with
  | [] => db_ret tt
  | _ => exec (stmt_release q owner parts)
  end.

Definition stmt_release_all (q owner : string) : stmt unit :=
  fun st => Ok (set_partitions st
                  (update_where (held_by q owner) (fun _ p => release_part p) (partitions st)), tt).

Definition stmt_remove_member (q owner : string) : stmt unit :=
  fun st => Ok (set_dispatchers st (delete (q, owner) (dispatchers st)), tt).

Definition Leave (q owner : string) : DB unit :=
  inTx (do> exec (stmt_release_all q owner);
        exec (stmt_remove_member q owner)).
