(* ===== verification/SqlSafety.v ===== *)
(** * The SQL store keeps its requests and fences its dispatches

    The statements of [SqlStore] as a transition system whose visible events
    are the requests accepted, dispatched and acknowledged; the invariant
    every statement preserves; and the simulation into the contract of
    [QueueSpec].  A dispatch is identified by the dispatcher's name and the
    attempt number it drew. *)
From stdpp Require Import prelude gmap strings list sorting.
From Stdlib Require Import ZArith Lia.
From S2P Require Import Prelude QueueSpec SqlStore.

#[local] Open Scope Z_scope.
#[local] Open Scope faulty_scope.

Abbreviation sql_event := (Key * qevent (string * Z))%type.

Definition enqueue_events (rs : list Request) : list sql_event :=
  (fun r => (request_Key r, EvEnqueue)) <$> rs.
Definition dispatch_events (owner : string) (rs : list Request) : list sql_event :=
  (fun r => (request_Key r, EvDispatch (owner, req_Attempt r))) <$> rs.
Definition ack_events (owner : string) (cs : list Completion) : list sql_event :=
  (fun c => (c_Key c, EvAck (owner, c_Attempt c))) <$> cs.

(** ** Steps: one rule per statement that writes

    A dispatcher's name is not empty: the empty owner marks a free partition. *)
Inductive sql_step : Store -> list sql_event -> Store -> Prop :=
| S_insert createdAt start rs st st' :
    stmt_insert (enqueue_rows createdAt start rs) st = Ok (st', tt) ->
    sql_step st (enqueue_events rs) st'
| S_dispatch owner q now limit locked st st' out :
    owner <> "" ->
    async_dispatch owner q now limit locked st = Ok (st', out) ->
    sql_step st (dispatch_events owner out) st'
| S_reset_stale q owner parts locked st st' :
    stmt_reset_stale q owner parts locked st = Ok (st', tt) -> sql_step st [] st'
| S_undispatch owner stamps notBefore st st' :
    stmt_undispatch owner stamps notBefore st = Ok (st', tt) -> sql_step st [] st'
| S_retry owner stamp notBefore env st st' n :
    stmt_retry owner stamp notBefore env st = Ok (st', n) -> sql_step st [] st'
| S_cancel ids st st' :
    stmt_cancel ids st = Ok (st', tt) -> sql_step st [] st'
| S_ack owner createdAt cs st st' ks :
    owner <> "" -> NoDup (c_Key <$> cs) ->
    stmt_ack owner createdAt cs st = Ok (st', ks) ->
    sql_step st (ack_events owner (filter (fun c => ackable st owner c = true) cs)) st'
| S_expire_route route now st st' :
    stmt_expire_route route now st = Ok (st', tt) -> sql_step st [] st'
| S_pop_results route limit locked st st' out :
    async_pop_results route limit locked st = Ok (st', out) -> sql_step st [] st'
| S_expire_results now limit locked st st' n :
    stmt_expire_results now limit locked st = Ok (st', n) -> sql_step st [] st'
| S_ensure q st st' :
    stmt_ensure_partitions q st = Ok (st', tt) -> sql_step st [] st'
| S_membership q owner expires member st st' :
    stmt_membership q owner expires member st = Ok (st', tt) -> sql_step st [] st'
| S_expire_dispatchers q nowMs st st' :
    stmt_expire_dispatchers q nowMs st = Ok (st', tt) -> sql_step st [] st'
| S_renew q owner expires st st' out :
    stmt_renew_leases q owner expires st = Ok (st', out) -> sql_step st [] st'
| S_acquire q owner nowMs expires limit locked st st' out :
    stmt_acquire q owner nowMs expires limit locked st = Ok (st', out) -> sql_step st [] st'
| S_draining q owner parts draining st st' :
    stmt_set_draining q owner parts draining st = Ok (st', tt) -> sql_step st [] st'
| S_release q owner parts st st' :
    stmt_release q owner parts st = Ok (st', tt) -> sql_step st [] st'
| S_release_all q owner st st' :
    stmt_release_all q owner st = Ok (st', tt) -> sql_step st [] st'
| S_remove_member q owner st st' :
    stmt_remove_member q owner st = Ok (st', tt) -> sql_step st [] st'.

(** The phase a request is in. *)
Definition sql_phase (st : Store) (k : Key) : phase (string * Z) :=
  match requests st !! k with
  | None => Absent
  | Some r =>
      if bool_decide (dispatch_epoch r = 0) then Pending
      else match part_of st r with
           | Some p =>
               if bool_decide (p_epoch p = dispatch_epoch r) && negb (bool_decide (p_owner p = ""))
               then Running (p_owner p, dispatch_attempt r)
               else Stranded
           | None => Stranded
           end
  end.

(** ** The invariant *)
Definition part_good (p : PartRow) : Prop :=
  0 <= p_epoch p /\ (p_owner p <> "" -> 0 < p_epoch p).

Record row_good (st : Store) (k : Key) (r : ReqRow) : Prop := {
  row_partition : partition_id r = partitionOf (ID k);
  row_epoch : 0 <= dispatch_epoch r;
  row_attempt : 0 <= dispatch_attempt r <= attempts st;
  row_stamped : 0 < dispatch_epoch r ->
    0 < dispatch_attempt r /\ exists p, part_of st r = Some p /\ dispatch_epoch r <= p_epoch p
}.

Record store_good (st : Store) : Prop := {
  good_attempts : 0 <= attempts st;
  good_parts qp p : partitions st !! qp = Some p -> part_good p;
  good_rows k r : requests st !! k = Some r -> row_good st k r;
  good_unique k k' r r' :
    requests st !! k = Some r -> requests st !! k' = Some r' ->
    dispatch_attempt r = dispatch_attempt r' -> 0 < dispatch_attempt r -> k = k';
  good_seq s r : results st !! s = Some r -> s <= result_seq st
}.

Lemma store_good_empty : store_good emptyStore.
Proof. split; simpl; intros; try done; by rewrite ?lookup_empty in *. Qed.

(** ** Statements that rewrite request rows in place *)

(** The row keeps its identity, and its stamp or loses it. *)
Definition row_evolves (r r' : ReqRow) : Prop :=
  queue r' = queue r /\ partition_id r' = partition_id r
  /\ dispatch_attempt r' = dispatch_attempt r
  /\ (dispatch_epoch r' = dispatch_epoch r \/ dispatch_epoch r' = 0).

Lemma row_evolves_refl r : row_evolves r r.
Proof. unfold row_evolves. auto. Qed.

Lemma unstamp_evolves r : row_evolves r (unstamp r).
Proof. unfold row_evolves, unstamp; simpl; auto. Qed.
Lemma defer_evolves nb r : row_evolves r (defer_row nb r).
Proof. unfold row_evolves, defer_row; simpl; auto. Qed.
Lemma retry_evolves nb env r : row_evolves r (retry_row nb env r).
Proof. unfold row_evolves, retry_row; simpl; auto. Qed.
Lemma cancel_evolves r : row_evolves r (cancel_row r).
Proof. unfold row_evolves, cancel_row; simpl; auto. Qed.

Create HintDb sql.
#[export] Hint Resolve row_evolves_refl unstamp_evolves defer_evolves retry_evolves cancel_evolves : sql.

Section row_updates.
Context (st : Store) (P : Key -> ReqRow -> bool) (f : Key -> ReqRow -> ReqRow).
Hypothesis f_evolves : forall k r, row_evolves r (f k r).

Let st' := set_requests st (update_where P f (requests st)).

Lemma update_rows_inv k r' :
  requests st' !! k = Some r' -> exists r, requests st !! k = Some r /\ row_evolves r r'.
Proof.
  subst st'; simpl. rewrite lookup_update_where_Some. intros (r & ? & ->).
  exists r. split; [done|]. destruct (P k r); auto with sql.
Qed.

Lemma update_rows_good : store_good st -> store_good st'.
Proof.
  intros [Ha Hp Hr Hu Hs]. split; try done.
  - intros k r' (r & Hk & Hq & Hpid & Hat & He)%update_rows_inv.
    destruct (Hr _ _ Hk) as [H1 H2 H3 H4].
    split; unfold part_of in *; rewrite ?Hq, ?Hpid, ?Hat; try done; [lia|].
    intros Hpos. destruct He as [He|He]; [|lia]. rewrite He in *. auto.
  - intros k k' r1 r1' (r & Hk & _ & _ & E1 & _)%update_rows_inv
      (r' & Hk' & _ & _ & E2 & _)%update_rows_inv.
    rewrite E1, E2. eauto.
Qed.

Lemma update_rows_simulates k : store_good st -> qtrace (sql_phase st k) [] (sql_phase st' k).
Proof.
  intros Hg. unfold sql_phase. subst st'; simpl. rewrite lookup_update_where.
  destruct (requests st !! k) as [r|] eqn:Hk; simpl; [|constructor].
  set (r' := if P k r then f k r else r).
  assert (row_evolves r r') as (Hq & Hpid & Hat & He) by (subst r'; destruct (P k r); auto with sql).
  unfold part_of; simpl. rewrite Hq, Hpid, Hat.
  destruct He as [->| ->]; [constructor|]. rewrite (bool_decide_true (0 = 0)) by done.
  repeat case_match; eauto with queue.
Qed.
End row_updates.

(** ** Statements that rewrite partitions *)

(** A partition's epoch never goes back, and within an epoch its owner can
    only be dropped. *)
Definition part_evolves (p p' : PartRow) : Prop :=
  part_good p ->
  part_good p' /\ p_epoch p <= p_epoch p'
  /\ (p_epoch p' = p_epoch p -> p_owner p' = p_owner p \/ p_owner p' = "").

Lemma part_evolves_refl p : part_evolves p p.
Proof. unfold part_evolves. auto with lia. Qed.
Lemma renew_evolves e p : part_evolves p (renew_part e p).
Proof. unfold part_evolves, part_good, renew_part; simpl; auto with lia. Qed.
Lemma drain_evolves d p : part_evolves p (drain_part d p).
Proof. unfold part_evolves, part_good, drain_part; simpl; auto with lia. Qed.
Lemma release_evolves p : part_evolves p (release_part p).
Proof. unfold part_evolves, part_good, release_part; simpl. intros. split_and!; try done; auto. lia. Qed.
Lemma take_evolves owner e p : part_evolves p (take_part owner e p).
Proof. unfold part_evolves, part_good, take_part; simpl. intros. split_and!; lia. Qed.

#[export] Hint Resolve part_evolves_refl renew_evolves drain_evolves release_evolves take_evolves : sql.

Section partition_updates.
Context (st : Store) (m' : gmap (string * Z) PartRow).
Hypothesis m'_new : forall qp p', m' !! qp = Some p' -> partitions st !! qp = None -> part_good p'.
Hypothesis m'_old : forall qp p, partitions st !! qp = Some p ->
  exists p', m' !! qp = Some p' /\ part_evolves p p'.

Let st' := set_partitions st m'.

Lemma update_parts_good : store_good st -> store_good st'.
Proof.
  intros [Ha Hp Hr Hu Hs]. split; try done.
  - subst st'; simpl. intros qp p' Hqp. destruct (partitions st !! qp) as [p|] eqn:E; [|eauto].
    destruct (m'_old _ _ E) as (p1 & E1 & Hev). simplify_eq.
    by apply Hev, (Hp qp).
  - intros k r Hk. destruct (Hr _ _ Hk) as [H1 H2 H3 H4]. split; try done.
    intros Hpos. destruct (H4 Hpos) as [Hat (p & Hpart & Hle)]. split; [done|].
    destruct (m'_old _ _ Hpart) as (p' & E' & Hev). exists p'. split; [done|].
    apply Hp in Hpart. destruct (Hev Hpart) as (_ & ? & _). lia.
Qed.

Lemma update_parts_simulates k : store_good st -> qtrace (sql_phase st k) [] (sql_phase st' k).
Proof.
  intros Hg. unfold sql_phase. subst st'; simpl.
  destruct (requests st !! k) as [r|] eqn:Hk; [|constructor].
  case_bool_decide as H0; [constructor|].
  destruct (good_rows _ Hg _ _ Hk) as [_ Hep _ Hst].
  destruct Hst as [_ (p & Hpart & Hle)]; [lia|].
  destruct (m'_old _ _ Hpart) as (p' & E' & Hev).
  destruct Hev as (_ & Hmono & Hown); [by eapply good_parts|].
  rewrite Hpart. unfold part_of; simpl. rewrite E'.
  repeat case_bool_decide; simpl; eauto with queue; try lia;
    (destruct Hown as [Ho|Ho]; [lia|try congruence..]).
  rewrite Ho. constructor.
Qed.
End partition_updates.

(** [UPDATE async_partitions SET ... WHERE ...]. *)
Lemma update_where_parts_old st P f :
  (forall qp p, part_evolves p (f qp p)) ->
  forall qp p, partitions st !! qp = Some p ->
  exists p', update_where P f (partitions st) !! qp = Some p' /\ part_evolves p p'.
Proof.
  intros Hf qp p Hqp. rewrite lookup_update_where, Hqp. simpl.
  eexists; split; [done|]. destruct (P qp p); auto with sql.
Qed.

Lemma update_where_parts_new st P f qp p' :
  update_where P f (partitions st) !! qp = Some p' -> partitions st !! qp = None -> part_good p'.
Proof. rewrite lookup_update_where_Some. intros (? & ? & _). congruence. Qed.

(** INSERT ... ON CONFLICT DO NOTHING keeps the partitions there are. *)
Lemma ensure_partitions_lookup (q : string) (l : list nat) (m : gmap (string * Z) PartRow) qp :
  foldr (ensure_one q) m l !! qp
  = match m !! qp with
    | Some p => Some p
    | None => if bool_decide (qp ∈ (fun i => (q, Z.of_nat i)) <$> l) then Some freshPart else None
    end.
Proof.
  induction l as [|i l IH]; [by simpl; destruct (m !! qp)|].
  rewrite fmap_cons. cbn [foldr]. unfold ensure_one at 1. set (m0 := foldr _ m l) in *.
  destruct (decide (qp = (q, Z.of_nat i))) as [->|Hne].
  - rewrite (bool_decide_true (_ ∈ _ :: _)) by left.
    destruct (m0 !! (q, Z.of_nat i)) eqn:E; rewrite ?lookup_insert_eq, ?E;
      repeat case_match; congruence.
  - assert (bool_decide (qp ∈ (q, Z.of_nat i) :: ((fun j => (q, Z.of_nat j)) <$> l))
            = bool_decide (qp ∈ (fun j => (q, Z.of_nat j)) <$> l)) as ->.
    { apply bool_decide_ext. rewrite elem_of_cons. naive_solver. }
    rewrite <- IH. destruct (m0 !! (q, Z.of_nat i)); [done|]. by rewrite lookup_insert_ne.
Qed.

Lemma ensure_partitions_parts_good q st :
  exists m', stmt_ensure_partitions q st = Ok (set_partitions st m', tt)
  /\ (forall qp p', m' !! qp = Some p' -> partitions st !! qp = None -> part_good p')
  /\ (forall qp p, partitions st !! qp = Some p -> exists p', m' !! qp = Some p' /\ part_evolves p p').
Proof.
  eexists. split; [reflexivity|]. split.
  - intros qp p'. rewrite ensure_partitions_lookup. intros E HN. rewrite HN in E.
    case_bool_decide; simplify_eq. by split; simpl.
  - intros qp p E. rewrite ensure_partitions_lookup, E. eauto with sql.
Qed.

(** ** Statements that leave requests and partitions alone *)
Lemma frame_good st st' :
  requests st' = requests st -> partitions st' = partitions st -> attempts st' = attempts st ->
  (forall s r, results st' !! s = Some r -> s <= result_seq st') ->
  store_good st -> store_good st'.
Proof.
  intros Er Ep Ea Hs [? Hp Hr Hu _]. split; rewrite ?Er, ?Ep, ?Ea; auto.
  intros k r Hk. destruct (Hr k r Hk). split; unfold part_of in *; rewrite ?Ep, ?Ea; auto.
Qed.

Lemma frame_phase st st' k :
  requests st' = requests st -> partitions st' = partitions st -> sql_phase st' k = sql_phase st k.
Proof. intros Er Ep. unfold sql_phase, part_of. by rewrite Er, Ep. Qed.

(** ** INSERT *)

(** One accepted row. *)
Lemma insert_one_good st k r :
  requests st !! k = None -> partition_id r = partitionOf (ID k) ->
  dispatch_epoch r = 0 -> dispatch_attempt r = 0 ->
  store_good st -> store_good (set_requests st (<[k := r]> (requests st))).
Proof.
  intros Hk Hpid He Ha [? ? Hr Hu ?]. split; simpl; try done.
  - intros k0 r0. rewrite lookup_insert_Some. intros [[<- <-]|[_ H0]].
    + split; simpl; lia.
    + destruct (Hr _ _ H0). split; auto.
  - intros k1 k2 r1 r2. rewrite !lookup_insert_Some.
    intros [[<- <-]|[? ?]] [[<- <-]|[? ?]] ? ?; try done; try lia. eauto.
Qed.

Lemma phase_insert_other st k r k' :
  k <> k' -> sql_phase (set_requests st (<[k := r]> (requests st))) k' = sql_phase st k'.
Proof. intros ?. unfold sql_phase; simpl. by rewrite lookup_insert_ne. Qed.

Lemma at_key_cons {T : Type} (k k' : Key) (ev : qevent T) evs :
  at_key k ((k', ev) :: evs) = (if decide (k' = k) then [ev] else []) ++ at_key k evs.
Proof. unfold at_key. rewrite filter_cons. simpl. by case_decide. Qed.

(** An INSERT that succeeds is a run of single insertions. *)
Lemma insert_rows_steps createdAt rs :
  forall start st m,
  insert_rows (enqueue_rows createdAt start rs) (requests st) = Some m ->
  store_good st ->
  store_good (set_requests st m)
  /\ forall k, qtrace (sql_phase st k) (at_key k (enqueue_events rs)) (sql_phase (set_requests st m) k).
Proof.
  induction rs as [|r rs IH]; intros start st m; simpl.
  - intros [= <-] Hg. split; [by destruct st|]. intros k. destruct st; constructor.
  - destruct (requests st !! request_Key r) eqn:Hk; [done|]. intros Hins Hg.
    set (row := (enqueue_row createdAt start r).2).
    set (st1 := set_requests st (<[request_Key r := row]> (requests st))).
    destruct (IH (start + 1) st1 m) as [Hg' Hsim]; [done|by apply insert_one_good|].
    split; [done|]. intros k. change (enqueue_events (r :: rs)) with ((request_Key r, @EvEnqueue (string * Z)) :: enqueue_events rs).
    rewrite at_key_cons.
    apply qtrace_app with (sql_phase st1 k); [|apply Hsim].
    case_decide as E; [subst k|unfold st1; rewrite phase_insert_other by done; constructor].
    unfold sql_phase. rewrite Hk. simpl. rewrite lookup_insert_eq. simpl.
    apply (qtrace_vis _ Absent []); constructor.
Qed.

(** ** Dispatch *)

(** One row stamped with the partition's epoch and the next attempt. *)
Definition stamp_one (st : Store) (k : Key) (r : ReqRow) (p : PartRow) : Store :=
  mkStore (<[k := stamp_row r (p_epoch p) (attempts st + 1)]> (requests st)) (partitions st)
    (dispatchers st) (results st) (attempts st + 1) (result_seq st).

Section stamping.
Context (st : Store) (k : Key) (r : ReqRow) (p : PartRow).
Hypotheses (Hk : requests st !! k = Some r) (Hpending : dispatch_epoch r = 0)
  (Hpart : part_of st r = Some p) (Hown : p_owner p <> "").

Lemma stamp_one_good : store_good st -> store_good (stamp_one st k r p).
Proof.
  intros [Ha Hp Hr Hu Hs].
  pose proof (Hp _ _ Hpart) as [_ Hep]. specialize (Hep Hown).
  split; simpl; try done; [lia| |].
  - intros k0 r0. rewrite lookup_insert_Some. intros [[<- <-]|[_ H0]].
    + destruct (Hr _ _ Hk) as [? ? ? ?]. split; simpl; try done; try lia.
      intros _. split; [lia|]. exists p. split; [done|lia].
    + destruct (Hr _ _ H0) as [? ? ? ?]. split; simpl; auto. lia.
  - intros k1 k2 r1 r2. rewrite !lookup_insert_Some.
    intros [[<- <-]|[? H1]] [[<- <-]|[? H2]] ? ?; try done; simpl in *; [| |by eapply Hu].
    + destruct (Hr _ _ H2) as [_ _ ? _]. lia.
    + destruct (Hr _ _ H1) as [_ _ ? _]. lia.
Qed.

Lemma stamp_one_other k' : k <> k' -> sql_phase (stamp_one st k r p) k' = sql_phase st k'.
Proof. intros ?. unfold sql_phase, stamp_one; simpl. by rewrite lookup_insert_ne. Qed.

Lemma stamp_one_step :
  store_good st ->
  qstep (sql_phase st k) (EvDispatch (p_owner p, attempts st + 1)) (sql_phase (stamp_one st k r p) k).
Proof.
  intros Hg. unfold sql_phase, stamp_one; simpl. rewrite Hk, lookup_insert_eq, Hpending. simpl.
  pose proof (good_parts _ Hg _ _ Hpart) as [_ Hep]. specialize (Hep Hown).
  unfold part_of in *; simpl. rewrite Hpart. rewrite bool_decide_false by lia.
  rewrite !bool_decide_true by done. rewrite bool_decide_false by done. constructor.
Qed.
End stamping.

Lemma stamp_rows_cons owner k r rows st :
  stamp_rows owner ((k, r) :: rows) st =
  match part_of st r with
  | Some p =>
      if bool_decide (p_owner p = owner) && negb (p_draining p) then
        let '(st2, out) := stamp_rows owner rows (stamp_one st k r p) in
        (st2, to_request k (stamp_row r (p_epoch p) (attempts st + 1)) :: out)
      else stamp_rows owner rows st
  | None => stamp_rows owner rows st
  end.
Proof. done. Qed.

(** The rows an UPDATE picks: distinct, in the table and pending. *)
Definition stampable (st : Store) (rows : list (Key * ReqRow)) : Prop :=
  NoDup rows.*1 /\ forall k r, (k, r) ∈ rows -> requests st !! k = Some r /\ dispatch_epoch r = 0.

Lemma stampable_tail st kr rows : stampable st (kr :: rows) -> stampable st rows.
Proof. intros [Hnd H]. rewrite fmap_cons in Hnd. apply NoDup_cons in Hnd as [_ Hnd].
  split; [done|]. intros. apply H. by right. Qed.

Lemma stampable_next st k r p rows :
  stampable st ((k, r) :: rows) -> stampable (stamp_one st k r p) rows.
Proof.
  intros [Hnd H]. rewrite fmap_cons in Hnd. apply NoDup_cons in Hnd as [Hni Hnd]. split; [done|].
  intros k' r' Hin. destruct (H k' r') as [Hk' He]; [by right|]. split; [|done]. simpl.
  rewrite lookup_insert_ne; [done|]. intros ->. apply Hni. apply list_elem_of_fmap. by exists (k', r').
Qed.

Lemma dispatch_events_cons owner r rs :
  dispatch_events owner (r :: rs)
  = (request_Key r, EvDispatch (owner, req_Attempt r)) :: dispatch_events owner rs.
Proof. done. Qed.

Lemma stamp_rows_steps owner rows :
  owner <> "" -> forall st st' out,
  stamp_rows owner rows st = (st', out) -> stampable st rows -> store_good st ->
  store_good st'
  /\ forall k, qtrace (sql_phase st k) (at_key k (dispatch_events owner out)) (sql_phase st' k).
Proof.
  intros Ho. induction rows as [|[k r] rows IH]; intros st st' out Hst Hrows Hg.
  - injection Hst as <- <-. split; [done|]. constructor.
  - rewrite stamp_rows_cons in Hst.
    destruct (part_of st r) as [p|] eqn:Hpart; [|by eauto using stampable_tail].
    destruct (bool_decide (p_owner p = owner) && negb (p_draining p)) eqn:E;
      [|by eauto using stampable_tail].
    apply andb_prop in E as [E%bool_decide_eq_true_1 _].
    destruct (stamp_rows owner rows (stamp_one st k r p)) as [st2 out2] eqn:Hrec.
    injection Hst as <- <-.
    destruct (proj2 Hrows k r) as [Hk Hpend]; [by left|].
    assert (p_owner p <> "") as Hown by congruence.
    destruct (IH _ _ _ Hrec) as [Hg' Hsim]; [by eapply stampable_next|by apply stamp_one_good|].
    split; [done|]. intros k'. rewrite dispatch_events_cons, at_key_cons. simpl.
    eapply qtrace_app; [|apply Hsim]. destruct k as [i t]; simpl in *. case_decide as Ek.
    + subst k'. apply (qtrace_vis _ (sql_phase st (mkKey i t)) []); [constructor|].
      rewrite <- E. by apply stamp_one_step.
    + rewrite stamp_one_other by done. constructor.
Qed.

Lemma picked_rows_stampable st owner q now limit locked :
  stampable st (picked_rows st owner q now limit locked).
Proof.
  split; [apply NoDup_limit_where|]. intros k r Hin%elem_of_limit_where.
  destruct Hin as [Hk HP]. split; [done|]. unfold pending_for in HP.
  by repeat (apply andb_prop in HP as [HP ?]); repeat case_bool_decide.
Qed.

(** ** Ack *)
Lemma insert_results_frame createdAt cs : forall st,
  let st' := insert_results createdAt cs st in
  requests st' = requests st /\ partitions st' = partitions st /\ attempts st' = attempts st
  /\ ((forall s r, results st !! s = Some r -> s <= result_seq st) ->
      forall s r, results st' !! s = Some r -> s <= result_seq st').
Proof.
  induction cs as [|c cs IH]; intros st st'; [by subst st'|]. subst st'. cbn [insert_results].
  set (st1 := mkStore _ _ _ _ _ _). destruct (IH st1) as (H1 & H2 & H3 & H4).
  split_and!; try done. intros Hs. apply H4. subst st1; simpl.
  intros s r. rewrite lookup_insert_Some. intros [[<- _]|[_ ?%Hs]]; lia.
Qed.

Lemma ackable_Running st owner c :
  owner <> "" -> store_good st -> ackable st owner c = true ->
  sql_phase st (c_Key c) = Running (owner, c_Attempt c).
Proof.
  intros Ho Hg. unfold ackable, sql_phase.
  destruct (requests st !! c_Key c) as [r|]; [|done].
  intros [[H1%bool_decide_eq_true_1 H2%bool_decide_eq_true_1]%andb_prop H3]%andb_prop.
  destruct (part_of st r) as [p|]; [|done].
  apply andb_prop in H3 as [H3%bool_decide_eq_true_1 H4%bool_decide_eq_true_1].
  rewrite bool_decide_false by lia. rewrite bool_decide_true by done.
  rewrite bool_decide_false by congruence. simpl. congruence.
Qed.

Lemma ack_rows_good st (D : list Key) :
  store_good st ->
  store_good (set_requests st (delete_where (fun k _ => bool_decide (k ∈ D)) (requests st))).
Proof.
  intros [? ? Hr Hu ?]. split; simpl; try done.
  - intros k r [Hk _]%lookup_delete_where_Some. destruct (Hr _ _ Hk). by split.
  - intros k k' r r' [Hk _]%lookup_delete_where_Some [Hk' _]%lookup_delete_where_Some. eauto.
Qed.

Lemma ack_rows_phase st (D : list Key) k :
  sql_phase (set_requests st (delete_where (fun k _ => bool_decide (k ∈ D)) (requests st))) k
  = if bool_decide (k ∈ D) then Absent else sql_phase st k.
Proof.
  unfold sql_phase; simpl. rewrite lookup_delete_where.
  destruct (requests st !! k); simpl; by case_bool_decide.
Qed.

Lemma at_key_ack_notin owner cs k : k ∉ c_Key <$> cs -> at_key k (ack_events owner cs) = [].
Proof.
  induction cs as [|c cs IH]; [done|]. rewrite fmap_cons, not_elem_of_cons. intros [? ?].
  unfold ack_events in *. rewrite fmap_cons, at_key_cons, decide_False by done. auto.
Qed.

Lemma at_key_ack owner cs c :
  NoDup (c_Key <$> cs) -> c ∈ cs ->
  at_key (c_Key c) (ack_events owner cs) = [EvAck (owner, c_Attempt c)].
Proof.
  induction cs as [|c' cs IH]; [by intros _ ?%not_elem_of_nil|].
  rewrite fmap_cons, NoDup_cons, elem_of_cons. intros [Hni Hnd].
  change (ack_events owner (c' :: cs))
    with ((c_Key c', EvAck (owner, c_Attempt c')) :: ack_events owner cs).
  rewrite at_key_cons. intros [->|Hin].
  - rewrite decide_True, at_key_ack_notin by done. done.
  - rewrite decide_False; [by apply IH|]. intros E. apply Hni. rewrite E. by apply list_elem_of_fmap_2.
Qed.

Lemma stmt_ack_steps owner createdAt cs st st' ks :
  owner <> "" -> NoDup (c_Key <$> cs) -> stmt_ack owner createdAt cs st = Ok (st', ks) ->
  store_good st ->
  store_good st'
  /\ forall k, qtrace (sql_phase st k)
       (at_key k (ack_events owner (filter (fun c => ackable st owner c = true) cs))) (sql_phase st' k).
Proof.
  intros Ho Hnd [= <- <-] Hg. set (D := filter _ cs).
  assert (NoDup (c_Key <$> D)) as HndD.
  { apply (sublist_NoDup _ (c_Key <$> cs)); [done|]. apply fmap_sublist, sublist_filter. }
  set (st1 := set_requests st _).
  destruct (insert_results_frame createdAt D st1) as (E1 & E2 & E3 & E4).
  assert (store_good st1) as Hg1 by by apply ack_rows_good. split.
  - apply (frame_good st1); auto. apply E4. by destruct Hg1.
  - intros k. rewrite (frame_phase st1 (insert_results createdAt D st1)) by done. unfold st1. rewrite ack_rows_phase.
    case_bool_decide as Hin; [|by rewrite at_key_ack_notin; [constructor|]].
    apply list_elem_of_fmap in Hin as (c & -> & Hc). rewrite (at_key_ack _ _ c) by done.
    apply list_elem_of_filter in Hc as [Hc _]. rewrite (ackable_Running st owner c) by done.
    apply (qtrace_vis _ (Running (owner, c_Attempt c)) []); constructor.
Qed.

(** ** Every statement *)
Definition sound (st : Store) (evs : list sql_event) (st' : Store) : Prop :=
  store_good st ->
  store_good st' /\ forall k, qtrace (sql_phase st k) (at_key k evs) (sql_phase st' k).

Lemma update_rows_sound st P f :
  (forall k r, row_evolves r (f k r)) ->
  sound st [] (set_requests st (update_where P f (requests st))).
Proof. intros Hf Hg. split; [by apply update_rows_good|]. intros k. by apply update_rows_simulates. Qed.

Lemma update_parts_sound st P f :
  (forall qp p, part_evolves p (f qp p)) ->
  sound st [] (set_partitions st (update_where P f (partitions st))).
Proof.
  intros Hf Hg. split.
  - apply update_parts_good; eauto using update_where_parts_new, update_where_parts_old.
  - intros k. apply update_parts_simulates; eauto using update_where_parts_old.
Qed.

Lemma delete_results_sound st P : sound st [] (set_results st (delete_where P (results st))).
Proof.
  intros Hg. split; [|constructor]. apply (frame_good st); try done.
  intros s r [? _]%lookup_delete_where_Some. by eapply (good_seq st).
Qed.

Lemma set_dispatchers_sound st d : sound st [] (set_dispatchers st d).
Proof. intros Hg. split; [|constructor]. apply (frame_good st); try done. by destruct Hg. Qed.

#[export] Hint Resolve update_rows_sound update_parts_sound delete_results_sound
  set_dispatchers_sound : sql.

Lemma stmt_insert_sound createdAt start rs st st' :
  stmt_insert (enqueue_rows createdAt start rs) st = Ok (st', tt) -> sound st (enqueue_events rs) st'.
Proof.
  unfold stmt_insert. destruct (insert_rows _ _) eqn:E; [|done]. intros [= <-] Hg.
  by eapply insert_rows_steps.
Qed.

Lemma async_dispatch_sound owner q now limit locked st st' out :
  owner <> "" -> async_dispatch owner q now limit locked st = Ok (st', out) ->
  sound st (dispatch_events owner out) st'.
Proof.
  unfold async_dispatch. destruct (limit <? 0); [done|]. intros Ho [= H] Hg.
  eapply stamp_rows_steps; eauto using picked_rows_stampable.
Qed.

Lemma stmt_ensure_sound q st st' : stmt_ensure_partitions q st = Ok (st', tt) -> sound st [] st'.
Proof.
  destruct (ensure_partitions_parts_good q st) as (m' & E & Hnew & Hold). rewrite E.
  intros [= <-] Hg. split; [by apply update_parts_good|]. intros k. by apply update_parts_simulates.
Qed.

#[export] Hint Resolve stmt_insert_sound async_dispatch_sound stmt_ensure_sound : sql.

Lemma sql_step_sound st evs st' : sql_step st evs st' -> sound st evs st'.
Proof.
  intros Hstep. destruct Hstep; eauto with sql.
  all: try (intros ?; by eapply stmt_ack_steps).
  all: unfold stmt_reset_stale, stmt_undispatch, stmt_retry, stmt_cancel, stmt_expire_route,
    async_pop_results, stmt_expire_results, stmt_membership, stmt_expire_dispatchers,
    stmt_renew_leases, stmt_acquire, stmt_set_draining, stmt_release, stmt_release_all,
    stmt_remove_member in *.
  all: repeat case_match; simplify_eq/=; auto with sql.
Qed.

(** ** The store implements the contract *)
#[export] Instance sql_queue : DurableQueue Store Key (string * Z) := {
  q_init := emptyStore;
  q_step := sql_step;
  q_phase := sql_phase;
  q_good := store_good;
  q_init_good := store_good_empty;
  q_init_absent k := eq_refl;
  q_step_good st evs st' Hg Hs := proj1 (sql_step_sound st evs st' Hs Hg);
  q_simulates st evs st' k Hg Hs := proj2 (sql_step_sound st evs st' Hs Hg) k
}.

(** Runs from any store. *)
Inductive sql_steps : Store -> list sql_event -> Store -> Prop :=
| sql_steps_nil st : sql_steps st [] st
| sql_steps_snoc st evs st1 evs' st2 :
    sql_steps st evs st1 -> sql_step st1 evs' st2 -> sql_steps st (evs ++ evs') st2.

Lemma sql_steps_sound st evs st' : sql_steps st evs st' -> sound st evs st'.
Proof.
  induction 1 as [st|st evs st1 evs' st2 _ IH Hstep]; intros Hg.
  - split; [done|constructor].
  - destruct (IH Hg) as [Hg1 H1]. destruct (sql_step_sound _ _ _ Hstep Hg1) as [Hg2 H2].
    split; [done|]. intros k. rewrite at_key_app. eauto using qtrace_app.
Qed.

Lemma sql_steps_app st evs st1 evs' st2 :
  sql_steps st evs st1 -> sql_steps st1 evs' st2 -> sql_steps st (evs ++ evs') st2.
Proof.
  intros H1 H2. revert H1. induction H2 as [|? ? ? ? ? _ IH Hs]; intros H1.
  - by rewrite app_nil_r.
  - rewrite app_assoc. econstructor; eauto.
Qed.

Lemma sql_steps_one st evs st' : sql_step st evs st' -> sql_steps st evs st'.
Proof. intros H. apply (sql_steps_snoc st [] st); [constructor|done]. Qed.

(** *** Attempts are drawn once *)
Lemma stamp_rows_attempts owner rows : forall st st' out,
  stamp_rows owner rows st = (st', out) ->
  attempts st' = attempts st + Z.of_nat (length out)
  /\ (req_Attempt <$> out) = (fun i => attempts st + 1 + Z.of_nat i) <$> seq 0 (length out).
Proof.
  induction rows as [|[k r] rows IH]; intros st st' out Hst.
  - injection Hst as <- <-. simpl. split; [lia|done].
  - rewrite stamp_rows_cons in Hst.
    destruct (part_of st r) as [p|]; [|by eauto].
    destruct (bool_decide _ && _); [|by eauto].
    destruct (stamp_rows owner rows (stamp_one st k r p)) as [st2 out2] eqn:Hrec.
    injection Hst as <- <-. destruct (IH _ _ _ Hrec) as [E1 E2].
    split; [simpl in *; lia|]. cbn [length seq]. rewrite !fmap_cons. f_equal; [simpl; lia|]. rewrite E2, <- fmap_S_seq, <- list_fmap_compose.
    apply list_fmap_ext. intros i j _. simpl. lia.
Qed.

(** The attempts a trace dispatches. *)
Definition dispatched (evs : list sql_event) : list Z :=
  omap (fun e => match e.2 with EvDispatch (_, a) => Some a | _ => None end) evs.

Lemma dispatched_app l l' : dispatched (l ++ l') = dispatched l ++ dispatched l'.
Proof. apply omap_app. Qed.

Lemma elem_of_dispatched k owner a evs : (k, EvDispatch (owner, a)) ∈ evs -> a ∈ dispatched evs.
Proof. intros H. unfold dispatched. rewrite list_elem_of_omap. by exists (k, EvDispatch (owner, a)). Qed.

Lemma dispatched_enqueue rs : dispatched (enqueue_events rs) = [].
Proof. by induction rs. Qed.
Lemma dispatched_ack owner cs : dispatched (ack_events owner cs) = [].
Proof. by induction cs. Qed.
Lemma dispatched_dispatch owner rs : dispatched (dispatch_events owner rs) = req_Attempt <$> rs.
Proof. induction rs as [|r rs IH]; [done|]. by rewrite fmap_cons, <- IH. Qed.

Definition draws (st : Store) (evs : list sql_event) (st' : Store) : Prop :=
  attempts st <= attempts st' /\ NoDup (dispatched evs)
  /\ forall a, a ∈ dispatched evs -> attempts st < a <= attempts st'.

Lemma draws_none st evs st' :
  attempts st' = attempts st -> dispatched evs = [] -> draws st evs st'.
Proof.
  intros Ea Ee. unfold draws. rewrite Ea, Ee. split_and!; [lia|constructor|].
  intros a ?%not_elem_of_nil. done.
Qed.

Lemma async_dispatch_draws owner q now limit locked st st' out :
  async_dispatch owner q now limit locked st = Ok (st', out) -> draws st (dispatch_events owner out) st'.
Proof.
  unfold async_dispatch. destruct (limit <? 0); [done|]. intros [= H].
  apply stamp_rows_attempts in H as [E1 E2].
  unfold draws. rewrite dispatched_dispatch, E2. split_and!; [lia| |].
  - apply NoDup_fmap; [intros ???; lia|apply NoDup_seq].
  - intros a (i & -> & Hi%elem_of_seq)%list_elem_of_fmap. lia.
Qed.

Lemma stmt_ack_attempts owner createdAt cs st st' ks :
  stmt_ack owner createdAt cs st = Ok (st', ks) -> attempts st' = attempts st.
Proof. intros [= <- _]. set (D := filter _ cs). set (st1 := set_requests st _). apply (insert_results_frame createdAt D st1). Qed.

Lemma stmt_ensure_attempts q st st' :
  stmt_ensure_partitions q st = Ok (st', tt) -> attempts st' = attempts st.
Proof. destruct (ensure_partitions_parts_good q st) as (m' & E & _). rewrite E. by intros [= <-]. Qed.

Lemma sql_step_draws st evs st' : sql_step st evs st' -> draws st evs st'.
Proof.
  intros Hstep. destruct Hstep; [|by eapply async_dispatch_draws|..].
  all: apply draws_none; rewrite ?dispatched_enqueue, ?dispatched_ack; try done.
  all: lazymatch goal with
       | H : stmt_ack _ _ _ _ = _ |- _ => by apply stmt_ack_attempts in H
       | H : stmt_ensure_partitions _ _ = _ |- _ => by apply stmt_ensure_attempts in H
       | _ => idtac
       end.
  all: unfold stmt_insert, stmt_reset_stale, stmt_undispatch, stmt_retry, stmt_cancel, stmt_expire_route,
    async_pop_results, stmt_expire_results, stmt_membership, stmt_expire_dispatchers,
    stmt_renew_leases, stmt_acquire, stmt_set_draining, stmt_release, stmt_release_all,
    stmt_remove_member in *.
  all: by repeat case_match; simplify_eq.
Qed.

Lemma sql_steps_draws st evs st' : sql_steps st evs st' -> draws st evs st'.
Proof.
  induction 1 as [st|st evs st1 evs' st2 _ (H1 & H2 & H3) (H4 & H5 & H6)%sql_step_draws].
  - by apply draws_none.
  - unfold draws. rewrite dispatched_app. split_and!; [lia| |].
    + apply NoDup_app. split_and!; try done. intros a Ha Ha'. apply H3 in Ha. apply H6 in Ha'. lia.
    + intros a [Ha%H3|Ha%H6]%elem_of_app; lia.
Qed.

Lemma sql_run_steps evs st : q_run evs st -> sql_steps emptyStore evs st.
Proof. induction 1; [constructor|]. econstructor; eauto. Qed.

(** *** Fencing *)

(** The attempt [a] on [k] is over: drawn already, and not [k]'s current one. *)
Definition fenced (st : Store) (k : Key) (a : Z) : Prop :=
  a <= attempts st /\ forall owner, sql_phase st k <> Running (owner, a).

Lemma fenced_steps st evs st' k a owner :
  store_good st -> fenced st k a -> sql_steps st evs st' ->
  ((k, EvAck (owner, a)) ∉ evs) /\ fenced st' k a.
Proof.
  intros Hg [Ha Hph] Hsteps. pose proof (sql_steps_draws _ _ _ Hsteps) as (Hle & _ & Hdraw).
  destruct (sql_steps_sound _ _ _ Hsteps Hg) as [_ Hsim].
  assert (forall o, EvDispatch (o, a) ∉ at_key k evs) as Hnd.
  { intros o Hin%elem_of_at_key%elem_of_dispatched%Hdraw. lia. }
  split; [|split; [lia|]].
  - rewrite <- elem_of_at_key. by eapply qtrace_fenced.
  - intros o. by eapply qtrace_fenced.
Qed.
