(* ===== verification/SqlMethods.v ===== *)
(** * The methods of the SQL store

    What each method of [Store] (src/producer-sql/sqlqueue/store.go) does to
    the tables and returns, whichever statements fail: a method is a run of
    the statements of [SqlSafety], so the contract of [QueueSpec] holds for
    every client of the store, and the events of the run are the ones its
    return value reports. *)
From stdpp Require Import prelude gmap strings list sorting.
From Stdlib Require Import ZArith Lia.
From S2P Require Import Prelude QueueSpec SqlStore SqlSafety.

#[local] Open Scope Z_scope.
#[local] Open Scope faulty_scope.

(** [m] is a run of statements whose events satisfy [Post], whatever fails. *)
Definition runs {A : Type} (m : DB A) (Post : Res StoreErr A -> list sql_event -> Prop) : Prop :=
  forall st fs r st' fs', m (st, fs) = (r, (st', fs')) ->
  exists evs, sql_steps st evs st' /\ Post r evs.

(** [m] is a run without events. *)
Definition quiet {A : Type} (m : DB A) : Prop := runs m (fun _ evs => evs = []).

Create HintDb quiet.

Section programs.
Context {A B : Type}.

Lemma quiet_ret (a : A) : quiet (db_ret a).
Proof. intros st fs r st' fs' [= <- <- <-]. eexists; split; [constructor|done]. Qed.

Lemma quiet_fail e : quiet (db_fail e : DB A).
Proof. intros st fs r st' fs' [= <- <- <-]. eexists; split; [constructor|done]. Qed.

Lemma quiet_bind (m : DB A) (k : A -> DB B) : quiet m -> (forall a, quiet (k a)) -> quiet (db_bind m k).
Proof.
  intros Hm Hk st fs r st' fs'. unfold db_bind. destruct (m (st, fs)) as [[a|e] [st1 fs1]] eqn:E.
  - intros H. destruct (Hm _ _ _ _ _ E) as (evs & Hs & ->).
    destruct (Hk a _ _ _ _ _ H) as (evs' & Hs' & ->).
    exists []. split; [|done]. apply (sql_steps_app st [] st1 []); done.
  - intros [= <- <- <-]. by apply Hm in E.
Qed.

(** A statement: lost, or one step. *)
Lemma runs_exec (q : stmt A) (ev : Store -> A -> list sql_event)
    (Post : Res StoreErr A -> list sql_event -> Prop) :
  (forall st st' a, q st = Ok (st', a) ->
     sql_steps st (ev st a) st' /\ Post (Ok a) (ev st a) /\ Post (Err ErrStatement) (ev st a)) ->
  (forall e, Post (Err e) []) -> runs (exec q) Post.
Proof.
  intros Hq He st fs r st' fs'. unfold exec, f_call.
  destruct (q st) as [[st1 a]|e] eqn:E; destruct (head fs) as [[]|]; intros [= <- <- <-];
    try (exists []; split; [constructor|by apply He]);
    destruct (Hq _ _ _ E) as (? & ? & ?); by eexists.
Qed.

Lemma quiet_exec (q : stmt A) :
  (forall st st' a, q st = Ok (st', a) -> sql_step st [] st') -> quiet (exec q).
Proof.
  intros H. apply (runs_exec q (fun _ _ => [])); [|done].
  intros st st' a E%H. eauto using sql_steps_one.
Qed.

Lemma quiet_read (f : Store -> A) : quiet (exec (fun st => Ok (st, f st))).
Proof.
  apply (runs_exec _ (fun _ _ => [])); [|done]. intros st st' a [= <- _].
  split; [constructor|done].
Qed.

(** A transaction: rolled back, or the run of its body. *)
Lemma runs_inTx (m : DB A) (Post : Res StoreErr A -> list sql_event -> Prop) :
  (forall st fs a st' fs', m (st, fs) = (Ok a, (st', fs')) ->
     exists evs, sql_steps st evs st' /\ Post (Ok a) evs /\ Post (Err ErrStatement) evs) ->
  (forall e, Post (Err e) []) -> runs (inTx m) Post.
Proof.
  intros Hm He st fs r st' fs'. unfold inTx.
  destruct (m (st, tail fs)) as [[a|e] [st1 fs1]] eqn:E.
  - destruct (Hm _ _ _ _ _ E) as (evs & Hs & Ha & Herr).
    destruct (head fs) as [[]|]; destruct (head fs1) as [[]|]; intros [= <- <- <-];
      first [by exists evs | exists []; split; [constructor|by apply He]].
  - destruct (head fs) as [[]|]; intros [= <- <- <-]; exists []; split; by try constructor.
Qed.

Lemma quiet_inTx (m : DB A) : quiet m -> quiet (inTx m).
Proof.
  intros Hm. apply runs_inTx; [|done]. intros st fs a st' fs' E%Hm.
  destruct E as (evs & Hs & ->). eauto.
Qed.
End programs.

#[export] Hint Resolve quiet_ret quiet_fail quiet_bind quiet_read quiet_inTx : quiet.

(** ** Methods without events *)
Ltac quiet_stmt C := apply quiet_exec; intros ? ? []; by apply C.

Lemma quiet_reset_stale q o ps l : quiet (exec (stmt_reset_stale q o ps l)).
Proof. quiet_stmt S_reset_stale. Qed.
Lemma quiet_undispatch o ss nb : quiet (exec (stmt_undispatch o ss nb)).
Proof. quiet_stmt S_undispatch. Qed.
Lemma quiet_retry o s nb env : quiet (exec (stmt_retry o s nb env)).
Proof. apply quiet_exec. apply S_retry. Qed.
Lemma quiet_cancel ids : quiet (exec (stmt_cancel ids)).
Proof. quiet_stmt S_cancel. Qed.
Lemma quiet_expire_route rt now : quiet (exec (stmt_expire_route rt now)).
Proof. quiet_stmt S_expire_route. Qed.
Lemma quiet_pop rt lim l : quiet (exec (async_pop_results rt lim l)).
Proof. apply quiet_exec. apply S_pop_results. Qed.
Lemma quiet_expire_results now lim l : quiet (exec (stmt_expire_results now lim l)).
Proof. apply quiet_exec. apply S_expire_results. Qed.
Lemma quiet_ensure q : quiet (exec (stmt_ensure_partitions q)).
Proof. quiet_stmt S_ensure. Qed.
Lemma quiet_membership q o e m : quiet (exec (stmt_membership q o e m)).
Proof. quiet_stmt S_membership. Qed.
Lemma quiet_expire_dispatchers q now : quiet (exec (stmt_expire_dispatchers q now)).
Proof. quiet_stmt S_expire_dispatchers. Qed.
Lemma quiet_count q : quiet (exec (stmt_count_dispatchers q)).
Proof. apply quiet_read. Qed.
Lemma quiet_renew q o e : quiet (exec (stmt_renew_leases q o e)).
Proof. apply quiet_exec. apply S_renew. Qed.
Lemma quiet_acquire q o now e lim l : quiet (exec (stmt_acquire q o now e lim l)).
Proof. apply quiet_exec. apply S_acquire. Qed.
Lemma quiet_draining q o ps d : quiet (exec (stmt_set_draining q o ps d)).
Proof. quiet_stmt S_draining. Qed.
Lemma quiet_release q o ps : quiet (exec (stmt_release q o ps)).
Proof. quiet_stmt S_release. Qed.
Lemma quiet_release_all q o : quiet (exec (stmt_release_all q o)).
Proof. quiet_stmt S_release_all. Qed.
Lemma quiet_remove_member q o : quiet (exec (stmt_remove_member q o)).
Proof. quiet_stmt S_remove_member. Qed.
Lemma quiet_oneRow n : quiet (oneRow n).
Proof. unfold oneRow. destruct (1 <? n); auto with quiet. Qed.

#[export] Hint Resolve quiet_reset_stale quiet_undispatch quiet_retry quiet_cancel quiet_expire_route
  quiet_pop quiet_expire_results quiet_ensure quiet_membership quiet_expire_dispatchers quiet_count
  quiet_renew quiet_acquire quiet_draining quiet_release quiet_release_all quiet_remove_member
  quiet_oneRow : quiet.

(** ** Enqueue *)
Lemma enqueue_events_app rs rs' : enqueue_events (rs ++ rs') = enqueue_events rs ++ enqueue_events rs'.
Proof. apply fmap_app. Qed.

Lemma enqueue_chunks_steps createdAt chs : forall start st fs st' fs',
  enqueue_chunks createdAt start chs (st, fs) = (Ok tt, (st', fs')) ->
  sql_steps st (enqueue_events (mjoin chs)) st'.
Proof.
  induction chs as [|ch chs IH]; intros start st fs st' fs'.
  - intros [= <- <-]. constructor.
  - cbn [enqueue_chunks]. unfold db_bind.
    destruct (exec _ (st, fs)) as [[[]|e] [st1 fs1]] eqn:E; [|done]. intros H%IH.
    change (mjoin (ch :: chs)) with (ch ++ mjoin chs). rewrite enqueue_events_app.
    eapply sql_steps_app; [|done]. apply sql_steps_one. unfold exec, f_call in E.
    destruct (stmt_insert _ st) as [[st2 []]|e] eqn:Ei; destruct (head fs) as [[]|];
      simplify_eq; by eapply S_insert.
Qed.

(** Enqueue is one run that accepts every request or none; its error leaves
    the two possible. *)
Lemma Enqueue_runs createdAt reqs :
  runs (Enqueue createdAt reqs) (fun r evs =>
    match r with
    | Ok _ => evs = enqueue_events reqs
    | Err _ => evs = [] \/ evs = enqueue_events reqs
    end).
Proof.
  unfold Enqueue. destruct reqs as [|r0 reqs].
  - intros st fs r st' fs' [= <- <- <-]. exists []. split; [constructor|done].
  - apply runs_inTx; [|auto]. intros st fs [] st' fs' H%enqueue_chunks_steps.
    rewrite chunks_concat in H by (unfold enqueueChunk; lia). eauto 6.
Qed.

(** *** The chunks make no difference *)
Lemma enqueue_rows_app createdAt rs rs' : forall start,
  enqueue_rows createdAt start (rs ++ rs')
  = enqueue_rows createdAt start rs ++ enqueue_rows createdAt (start + Z.of_nat (length rs)) rs'.
Proof.
  induction rs as [|r rs IH]; intros start; [by rewrite Z.add_0_r|].
  simpl. rewrite IH. do 3 f_equal. lia.
Qed.

Lemma insert_rows_app rows rows' m :
  insert_rows (rows ++ rows') m = insert_rows rows m ≫= insert_rows rows'.
Proof.
  revert m. induction rows as [|[k r] rows IH]; intros m; [done|]. simpl.
  destruct (m !! k); [done|]. apply IH.
Qed.

Lemma enqueue_chunks_flat createdAt fuel : forall start reqs st,
  (length reqs <= fuel)%nat ->
  enqueue_chunks createdAt start (chunks_fuel fuel enqueueChunk reqs) (st, [])
  = match insert_rows (enqueue_rows createdAt start reqs) (requests st) with
    | Some m => (Ok tt, (set_requests st m, []))
    | None => (Err ErrUnique, (st, []))
    end
  \/ insert_rows (enqueue_rows createdAt start reqs) (requests st) = None
     /\ exists st', enqueue_chunks createdAt start (chunks_fuel fuel enqueueChunk reqs) (st, [])
                    = (Err ErrUnique, (st', [])).
Proof.
  induction fuel as [|fuel IH]; intros start reqs st Hl.
  - destruct reqs; simpl in Hl; [|lia]. left. by destruct st.
  - destruct reqs as [|r reqs]; [left; by destruct st|].
    set (l := r :: reqs) in *. set (ch := take enqueueChunk l). set (rest := drop enqueueChunk l).
    assert (chunks_fuel (S fuel) enqueueChunk l = ch :: chunks_fuel fuel enqueueChunk rest) as -> by done.
    assert (length rest <= fuel)%nat as Hrest.
    { unfold rest. rewrite length_drop. unfold enqueueChunk. lia. }
    assert (insert_rows (enqueue_rows createdAt start l) (requests st)
      = insert_rows (enqueue_rows createdAt start ch) (requests st)
          ≫= insert_rows (enqueue_rows createdAt (start + Z.of_nat enqueueChunk) rest)) as ->.
    { rewrite <- (take_drop enqueueChunk l) at 1. fold ch rest.
      rewrite enqueue_rows_app, insert_rows_app. f_equal.
      destruct (decide (enqueueChunk <= length l)%nat) as [Hc|Hc].
      - unfold ch. rewrite length_take, Nat.min_l by lia. done.
      - unfold rest. rewrite drop_ge by lia. done. }
    cbn [enqueue_chunks]. unfold db_bind, exec, f_call, stmt_insert. cbn [head tail].
    destruct (insert_rows (enqueue_rows createdAt start ch) (requests st)) as [m|]; simpl; [|eauto].
    destruct (IH (start + Z.of_nat enqueueChunk) rest (set_requests st m)) as [E|[E1 [st' E2]]]; auto.
    + rewrite E. simpl. destruct (insert_rows _ m) eqn:Em; [by left|]. right. eauto.
    + simpl in E1. rewrite E1, E2. right. eauto.
Qed.

(** A chunked Enqueue without faults is one INSERT of all the rows. *)
Lemma Enqueue_flat_lemma createdAt reqs st :
  Enqueue createdAt reqs (st, [])
  = match insert_rows (enqueue_rows createdAt 0 reqs) (requests st) with
    | Some m => (Ok tt, (set_requests st m, []))
    | None => (Err ErrUnique, (st, []))
    end.
Proof.
  unfold Enqueue. destruct reqs as [|r reqs]; [by destruct st|].
  set (l := r :: reqs). unfold inTx. cbn [head tail].
  destruct (enqueue_chunks_flat createdAt (length l) 0 l st) as [E|[E1 [st' E2]]]; [done| |].
  - unfold chunks. rewrite E. by destruct (insert_rows _ _).
  - unfold chunks. by rewrite E1, E2.
Qed.

Lemma insert_rows_Some_inv rows : forall m m',
  insert_rows rows m = Some m' ->
  NoDup rows.*1 /\ (forall k, k ∈ rows.*1 -> m !! k = None)
  /\ forall k, m' !! k = match list_to_map (M := gmap Key ReqRow) rows !! k with
                         | Some r => Some r
                         | None => m !! k
                         end.
Proof.
  induction rows as [|[k r] rows IH]; intros m m'; simpl.
  - intros [= <-]. split_and!; [constructor|by intros ? ?%not_elem_of_nil|done].
  - destruct (m !! k) eqn:Hk; [done|]. intros H%IH. destruct H as (Hnd & Hnone & Hlook).
    split_and!.
    + constructor; [|done]. intros Hin%Hnone. by rewrite lookup_insert_eq in Hin.
    + intros k' [->|Hin]%elem_of_cons; [done|]. specialize (Hnone _ Hin).
      apply lookup_insert_None in Hnone. tauto.
    + intros k'. rewrite Hlook. destruct (decide (k = k')) as [->|Hne].
      * rewrite !lookup_insert_eq. destruct (list_to_map rows !! k') eqn:E; [|done].
        apply elem_of_list_to_map_2 in E. apply list_elem_of_fmap_2 with (f := fst) in E. simpl in E.
        apply Hnone in E. by rewrite lookup_insert_eq in E.
      * by rewrite !lookup_insert_ne by done.
Qed.

Lemma insert_rows_Some rows : forall m,
  NoDup rows.*1 -> (forall k, k ∈ rows.*1 -> m !! k = None) -> is_Some (insert_rows rows m).
Proof.
  induction rows as [|[k r] rows IH]; intros m; simpl; [by eexists|].
  intros [Hni Hnd]%NoDup_cons Hnone. rewrite Hnone by left. apply IH; [done|].
  intros k' Hin. rewrite lookup_insert_ne; [apply Hnone; by right|]. by intros ->.
Qed.

Lemma enqueue_rows_keys createdAt rs : forall start,
  (enqueue_rows createdAt start rs).*1 = request_Key <$> rs.
Proof. induction rs as [|r rs IH]; intros start; [done|]. simpl. by rewrite IH. Qed.

(** ** Dispatch *)
Lemma exec_dispatch_runs owner q now limit locked :
  owner <> "" ->
  runs (exec (async_dispatch owner q now limit locked)) (fun r evs =>
    match r with
    | Ok out => evs = dispatch_events owner out
    | Err _ => exists out, evs = dispatch_events owner out
    end).
Proof.
  intros Ho. apply (runs_exec _ (fun _ out => dispatch_events owner out)).
  - intros st st' out E. split; [|eauto]. apply sql_steps_one. by eapply S_dispatch.
  - intros e. by exists [].
Qed.

Lemma Dispatch_runs q owner now limit locked :
  owner <> "" ->
  runs (Dispatch q owner now limit locked) (fun r evs =>
    match r with
    | Ok out => exists out0, out ≡ₚ out0 /\ evs = dispatch_events owner out0
    | Err _ => exists out, evs = dispatch_events owner out
    end).
Proof.
  intros Ho st fs r st' fs'. unfold Dispatch, db_bind.
  destruct (exec _ (st, fs)) as [[rows|e] [st1 fs1]] eqn:E;
    apply (exec_dispatch_runs owner q (Unix now) limit locked Ho) in E as (evs & Hs & HP);
    intros [= <- <- <-]; exists evs; split; try done.
  exists rows. split; [apply merge_sort_Permutation|done].
Qed.

(** *** What a dispatch takes *)
Lemma stamp_rows_out owner rows : forall st st' out,
  (forall kr, kr ∈ rows -> dispatch_ok owner (part_of st kr.2) = true) ->
  stamp_rows owner rows st = (st', out) -> request_Key <$> out = rows.*1.
Proof.
  induction rows as [|[k r] rows IH]; intros st st' out Hok Hst; [by injection Hst as <- <-|].
  rewrite stamp_rows_cons in Hst.
  pose proof (Hok (k, r) ltac:(left)) as Hk. unfold dispatch_ok in Hk. simpl in Hk.
  destruct (part_of st r) as [p|] eqn:Hp; [|done]. rewrite Hk in Hst.
  destruct (stamp_rows owner rows (stamp_one st k r p)) as [st2 out2] eqn:Hrec.
  injection Hst as <- <-. rewrite !fmap_cons. f_equal; [by destruct k|].
  eapply IH; [|done]. intros kr Hin. apply (Hok kr). by right.
Qed.

Lemma picked_rows_ok st owner q now limit locked kr :
  kr ∈ picked_rows st owner q now limit locked ->
  requests st !! kr.1 = Some kr.2 /\ pending_for st owner q now locked kr.1 kr.2 = true.
Proof. destruct kr. apply elem_of_limit_where. Qed.

Lemma pending_for_ok st owner q now locked k r :
  pending_for st owner q now locked k r = true -> dispatch_ok owner (part_of st r) = true.
Proof. unfold pending_for. intros H. by repeat (apply andb_prop in H as [H ?]). Qed.

#[export] Instance row_le_trans : Transitive row_le.
Proof. intros a b c. unfold row_le. lia. Qed.
#[export] Instance row_le_total : Total row_le.
Proof. intros a b. unfold row_le. lia. Qed.
#[export] Instance request_le_trans : Transitive request_le.
Proof. intros a b c. unfold request_le. lia. Qed.
#[export] Instance request_le_total : Total request_le.
Proof. intros a b. unfold request_le. lia. Qed.

Lemma Dispatch_ok_lemma st q owner now limit locked :
  0 <= limit ->
  exists st' out, Dispatch q owner now limit locked (st, []) = (Ok out, (st', []))
  /\ request_Key <$> out ≡ₚ (picked_rows st owner q (Unix now) limit locked).*1
  /\ StronglySorted request_le out.
Proof.
  intros Hl. unfold Dispatch, db_bind, exec, f_call, async_dispatch. cbn [head tail].
  rewrite (proj2 (Z.ltb_ge limit 0)) by done.
  destruct (stamp_rows _ _ st) as [st' out] eqn:E. exists st', (merge_sort request_le out).
  split_and!; [done| |apply (StronglySorted_merge_sort _)].
  rewrite merge_sort_Permutation. erewrite stamp_rows_out; [done| |exact E].
  intros kr [_ Hp]%picked_rows_ok. by eapply pending_for_ok.
Qed.

(** The rows left out come after the rows taken. *)
Lemma picked_rows_first st owner q now limit locked k r k' r' :
  (k, r) ∈ picked_rows st owner q now limit locked ->
  requests st !! k' = Some r' -> pending_for st owner q now locked k' r' = true ->
  k' ∉ (picked_rows st owner q now limit locked).*1 -> row_le (k, r) (k', r').
Proof.
  unfold picked_rows. set (l := merge_sort row_le _). intros Hin Hk' Hp Hni.
  assert ((k', r') ∈ l) as Hin'.
  { unfold l. rewrite merge_sort_Permutation. by apply elem_of_select_where. }
  rewrite <- (take_drop (Z.to_nat limit) l) in Hin'. apply elem_of_app in Hin' as [Hin'|Hin'].
  - destruct Hni. apply list_elem_of_fmap. by exists (k', r').
  - apply (StronglySorted_app_1_elem_of row_le (take (Z.to_nat limit) l) (drop (Z.to_nat limit) l));
      [|done..]. rewrite take_drop. apply (StronglySorted_merge_sort _).
Qed.

(** ** Ack *)

(** The completion [Ack] keeps for its key: the highest attempt, and the
    first index among equals. *)
Definition chosen (cs : list Completion) (i : nat) (c : Completion) : Prop :=
  cs !! i = Some c
  /\ forall j c', cs !! j = Some c' -> c_Key c' = c_Key c ->
     c_Attempt c' < c_Attempt c \/ (c_Attempt c' = c_Attempt c /\ (i <= j)%nat).

Lemma chosen_unique cs i c j c' :
  chosen cs i c -> chosen cs j c' -> c_Key c = c_Key c' -> i = j /\ c = c'.
Proof.
  intros [Hi Hc] [Hj Hc'] E. specialize (Hc _ _ Hj (eq_sym E)). specialize (Hc' _ _ Hi E).
  assert (i = j) as -> by lia. split; congruence.
Qed.

Lemma lookup_snoc_cases {A : Type} (l : list A) x j y :
  (l ++ [x]) !! j = Some y -> l !! j = Some y \/ (j = length l /\ y = x).
Proof.
  intros [H|[H1 H2]]%lookup_app_Some; [by left|]. right.
  apply list_lookup_singleton_Some in H2 as [? ?]. split; [lia|congruence].
Qed.

Lemma chosen_snoc_keep pre c i u :
  chosen pre i u -> (c_Key c = c_Key u -> c_Attempt c <= c_Attempt u) -> chosen (pre ++ [c]) i u.
Proof.
  intros [Hi H] Hc. split; [by apply lookup_app_l_Some|].
  intros j c' [Hj|[-> ->]]%lookup_snoc_cases E; [by eapply H|].
  apply lookup_lt_Some in Hi. specialize (Hc E). lia.
Qed.

Lemma chosen_snoc_new pre c :
  (forall j c', pre !! j = Some c' -> c_Key c' = c_Key c -> c_Attempt c' < c_Attempt c) ->
  chosen (pre ++ [c]) (length pre) c.
Proof.
  intros H. split; [by rewrite lookup_app_r, Nat.sub_diag by lia|].
  intros j c' [Hj|[-> ->]]%lookup_snoc_cases E; [left; by eapply H|right; lia].
Qed.

(** The loop's invariant after the completions [pre]. *)
Record ack_inv (pre : list Completion) (first position : gmap Key nat) (unique : list Completion) : Prop := {
  ai_nodup : NoDup (c_Key <$> unique);
  ai_position k p : position !! k = Some p -> exists c, unique !! p = Some c /\ c_Key c = k;
  ai_chosen c : c ∈ unique -> exists i, first !! c_Key c = Some i /\ chosen pre i c;
  ai_known c : c ∈ pre -> is_Some (position !! c_Key c)
}.

Lemma ack_inv_nil : ack_inv [] ∅ ∅ [].
Proof. split; intros; simplify_map_eq; try constructor; by apply not_elem_of_nil in H. Qed.

Lemma keys_insert (unique : list Completion) (pos : nat) u c :
  unique !! pos = Some u -> c_Key u = c_Key c -> c_Key <$> <[pos := c]> unique = c_Key <$> unique.
Proof.
  intros Hu E. rewrite list_fmap_insert. apply list_insert_id. rewrite list_lookup_fmap, Hu. simpl. congruence.
Qed.

Lemma key_unique (unique : list Completion) u u' (p p' : nat) :
  NoDup (c_Key <$> unique) -> unique !! p = Some u -> unique !! p' = Some u' ->
  c_Key u = c_Key u' -> p = p'.
Proof.
  intros Hnd Hp Hp' E. eapply NoDup_lookup; [exact Hnd| |].
  - by rewrite list_lookup_fmap, Hp.
  - rewrite list_lookup_fmap, Hp'. simpl. congruence.
Qed.

Section ack_inv_steps.
Context (pre : list Completion) (first position : gmap Key nat) (unique : list Completion).
Hypothesis Hinv : ack_inv pre first position unique.

Lemma ack_inv_keep c pos u :
  position !! c_Key c = Some pos -> unique !! pos = Some u -> c_Attempt c <= c_Attempt u ->
  ack_inv (pre ++ [c]) first position unique.
Proof.
  destruct Hinv as [H1 H2 H3 H4]. intros Hpos Hu Hle. split; try done.
  - intros u' Hin. destruct (H3 _ Hin) as (i & Hf & Hc). exists i. split; [done|].
    apply chosen_snoc_keep; [done|]. intros E. destruct (H2 _ _ Hpos) as (u1 & Hu1 & E1).
    apply list_elem_of_lookup in Hin as [p' Hp']. simplify_eq.
    assert (pos = p') as <- by (eapply key_unique; eauto; congruence). by simplify_eq.
  - intros c' [Hin|Hin%list_elem_of_singleton]%elem_of_app; subst; eauto.
Qed.

Lemma ack_inv_replace c pos u :
  position !! c_Key c = Some pos -> unique !! pos = Some u -> c_Attempt u < c_Attempt c ->
  ack_inv (pre ++ [c]) (<[c_Key c := length pre]> first) position (<[pos := c]> unique).
Proof.
  destruct Hinv as [H1 H2 H3 H4]. intros Hpos Hu Hlt.
  destruct (H2 _ _ Hpos) as (u1 & Hu1 & E1). simplify_eq.
  pose proof (lookup_lt_Some _ _ _ Hu) as Hltp. split.
  - by rewrite (keys_insert _ _ u).
  - intros k p Hp. destruct (decide (p = pos)) as [->|Hne].
    + exists c. split; [by apply list_lookup_insert_eq|]. destruct (H2 _ _ Hp) as (u2 & ? & ?). congruence.
    + rewrite list_lookup_insert_ne by done. eauto.
  - intros u' [p' Hp']%list_elem_of_lookup. destruct (decide (p' = pos)) as [->|Hne].
    + rewrite list_lookup_insert_eq in Hp' by done. injection Hp' as <-.
      exists (length pre). rewrite lookup_insert_eq. split; [done|]. apply chosen_snoc_new.
      intros j c' Hj Ek. destruct (H3 u) as (i & _ & _ & Hmax); [by eapply list_elem_of_lookup_2|].
      specialize (Hmax j c' Hj). rewrite <- E1 in Ek. specialize (Hmax Ek). lia.
    + rewrite list_lookup_insert_ne in Hp' by done.
      assert (c_Key c <> c_Key u') as Hk. { intros E. apply Hne. eapply key_unique; eauto. congruence. }
      destruct (H3 u') as (i & Hf & Hc); [by eapply list_elem_of_lookup_2|].
      exists i. rewrite lookup_insert_ne by done. split; [done|]. by apply chosen_snoc_keep.
  - intros c' [Hin|Hin%list_elem_of_singleton]%elem_of_app; subst; eauto.
Qed.

Lemma ack_inv_new c :
  position !! c_Key c = None ->
  ack_inv (pre ++ [c]) (<[c_Key c := length pre]> first)
    (<[c_Key c := length unique]> position) (unique ++ [c]).
Proof.
  destruct Hinv as [H1 H2 H3 H4]. intros Hpos.
  assert (forall u, u ∈ pre -> c_Key c <> c_Key u) as Hfresh.
  { intros u Hin E. destruct (H4 _ Hin). congruence. }
  assert (forall u, u ∈ unique -> c_Key c <> c_Key u) as Hfresh'.
  { intros u Hin. destruct (H3 _ Hin) as (i & _ & Hi & _). eapply Hfresh, list_elem_of_lookup_2, Hi. }
  split.
  - rewrite fmap_app. apply NoDup_app. split_and!; [done| |apply NoDup_singleton].
    intros k (u & -> & Hin)%list_elem_of_fmap E%list_elem_of_singleton. by eapply Hfresh'.
  - intros k p. rewrite lookup_insert_Some. intros [[<- <-]|[Hne Hp]].
    + exists c. by rewrite lookup_app_r, Nat.sub_diag by lia.
    + destruct (H2 _ _ Hp) as (u & Hu & E). exists u. split; [by apply lookup_app_l_Some|done].
  - intros u [Hin|Hin%list_elem_of_singleton]%elem_of_app.
    + destruct (H3 _ Hin) as (i & Hf & Hc). exists i.
      rewrite lookup_insert_ne by auto. split; [done|]. apply chosen_snoc_keep; [done|].
      intros E. by destruct (Hfresh' _ Hin).
    + subst u. exists (length pre). rewrite lookup_insert_eq. split; [done|].
      apply chosen_snoc_new. intros j c' Hj E.
      destruct (Hfresh c'); [by eapply list_elem_of_lookup_2|done].
  - intros c' [Hin|Hin%list_elem_of_singleton]%elem_of_app.
    + rewrite lookup_insert_ne by auto. eauto.
    + subst. rewrite lookup_insert_eq. eauto.
Qed.
End ack_inv_steps.

Lemma ack_unique_inv cs : forall pre first position unique first' unique',
  ack_inv pre first position unique ->
  ack_unique (length pre) cs first position unique = (first', unique') ->
  exists position', ack_inv (pre ++ cs) first' position' unique'.
Proof.
  induction cs as [|c cs IH]; intros pre first position unique first' unique' Hinv.
  - intros [= <- <-]. rewrite app_nil_r. eauto.
  - cbn [ack_unique]. assert (S (length pre) = length (pre ++ [c])) as -> by (rewrite length_app; simpl; lia).
    rewrite (cons_middle c pre cs), app_assoc.
    destruct (position !! c_Key c) as [pos|] eqn:Hpos.
    + destruct (ai_position _ _ _ _ Hinv _ _ Hpos) as (u & Hu & _). rewrite Hu.
      destruct (Z.ltb_spec (c_Attempt u) (c_Attempt c)); apply IH.
      * by eapply ack_inv_replace.
      * by eapply ack_inv_keep.
    + apply IH. by apply ack_inv_new.
Qed.

Lemma ack_unique_spec cs first unique :
  ack_unique 0 cs ∅ ∅ [] = (first, unique) ->
  NoDup (c_Key <$> unique)
  /\ (forall c, c ∈ unique -> exists i, first !! c_Key c = Some i /\ chosen cs i c)
  /\ (forall i c, chosen cs i c -> c ∈ unique /\ first !! c_Key c = Some i).
Proof.
  intros H. apply (ack_unique_inv cs [] ∅ ∅ []) in H as [position [H1 H2 H3 H4]]; [|apply ack_inv_nil].
  simpl in *. split_and!; try done. intros i c Hc.
  destruct (H4 c) as [p Hp]; [by eapply list_elem_of_lookup_2, Hc|].
  destruct (H2 _ _ Hp) as (u & Hu & E). apply list_elem_of_lookup_2 in Hu.
  destruct (H3 _ Hu) as (j & Hj & Hcj). destruct (chosen_unique _ _ _ _ _ Hcj Hc E) as [-> ->]. done.
Qed.

Lemma mark_acked_lookup first ks : forall acked i,
  (mark_acked first ks acked : list bool) !! i = Some true <->
  (i < length acked)%nat /\ (acked !! i = Some true \/ exists k, k ∈ ks /\ default O (first !! k) = i).
Proof.
  induction ks as [|k ks IH]; intros acked i; simpl.
  - split; [|by intros [_ [?|(k & ?%not_elem_of_nil & _)]]].
    intros H. split; [by eapply lookup_lt_Some|by left].
  - unfold mark_acked in *; simpl. rewrite IH, length_insert.
    setoid_rewrite elem_of_cons. split.
    + intros [Hl [H|(k' & ? & ?)]]; (split; [done|]); [|eauto].
      apply list_lookup_insert_Some in H as [(E & _ & _)|[_ ?]]; eauto.
    + intros [Hl [H|(k' & [->|?] & E)]]; (split; [done|]); [| |eauto].
      * left. destruct (decide (default O (first !! k) = i)) as [<-|Hne].
        -- by apply list_lookup_insert_eq.
        -- by rewrite list_lookup_insert_ne.
      * left. rewrite E. by apply list_lookup_insert_eq.
Qed.

Lemma mark_acked_length first ks acked : length (mark_acked first ks acked) = length acked.
Proof.
  revert acked. induction ks as [|k ks IH]; intros acked; [done|]. unfold mark_acked in *. simpl.
  by rewrite IH, length_insert.
Qed.

(** The results a statement records come after the ones there are. *)
Lemma insert_results_lookup createdAt cs : forall st,
  let st' := insert_results createdAt cs st in
  result_seq st' = result_seq st + Z.of_nat (length cs)
  /\ (forall s, s <= result_seq st -> results st' !! s = results st !! s)
  /\ (forall i c, cs !! i = Some c ->
       results st' !! (result_seq st + 1 + Z.of_nat i) = Some (result_row createdAt c)).
Proof.
  induction cs as [|c cs IH]; intros st st'; subst st'; cbn [insert_results].
  - simpl. split_and!; [lia|done|]. intros i c. by rewrite lookup_nil.
  - set (st1 := mkStore _ _ _ _ _ _). destruct (IH st1) as (H1 & H2 & H3). split_and!.
    + rewrite H1. simpl. lia.
    + intros s Hs. rewrite H2 by (simpl; lia). simpl. apply lookup_insert_ne. lia.
    + intros [|i] c'; simpl.
      * intros [= <-]. rewrite H2 by (simpl; lia). simpl. apply lookup_insert_Some. left. split; [lia|done].
      * intros Hi. apply H3 in Hi. simpl in Hi. rewrite <- Hi. f_equal. lia.
Qed.

(** What an Ack that took effect did. *)
Record ack_effect (owner : string) (createdAt : Z) (cs : list Completion) (st st' : Store) : Prop := {
  ae_gone i c : chosen cs i c -> ackable st owner c = true -> requests st' !! c_Key c = None;
  ae_kept k : (forall i c, chosen cs i c -> ackable st owner c = true -> c_Key c <> k) ->
    requests st' !! k = requests st !! k;
  ae_result i c : chosen cs i c -> ackable st owner c = true ->
    exists s, result_seq st < s <= result_seq st' /\ results st' !! s = Some (result_row createdAt c);
  ae_results s : s <= result_seq st -> results st' !! s = results st !! s;
  ae_partitions : partitions st' = partitions st
}.

Lemma stmt_ack_effect owner createdAt cs first unique st st' ks :
  ack_unique 0 cs ∅ ∅ [] = (first, unique) ->
  stmt_ack owner createdAt unique st = Ok (st', ks) -> ack_effect owner createdAt cs st st'.
Proof.
  intros (Hnd & Hch & Huni)%ack_unique_spec [= <- _]. set (D := filter _ unique).
  assert (forall c, c ∈ D <-> ackable st owner c = true /\ c ∈ unique) as HD
    by (intros c; unfold D; rewrite list_elem_of_filter; tauto).
  set (st1 := set_requests st _).
  destruct (insert_results_frame createdAt D st1) as (E1 & E2 & _ & _).
  destruct (insert_results_lookup createdAt D st1) as (H1 & H2 & H3).
  split; [| | |done|done]; rewrite ?E1; simpl.
  - intros i c [Hc _]%Huni Ha. rewrite lookup_delete_where. rewrite bool_decide_true.
    + by destruct (requests st !! c_Key c).
    + apply list_elem_of_fmap_2, HD. done.
  - intros k Hk. rewrite lookup_delete_where. rewrite bool_decide_false.
    + by destruct (requests st !! k).
    + intros (c & -> & [Ha Hin]%HD)%list_elem_of_fmap. destruct (Hch _ Hin) as (i & _ & Hc). by eapply Hk.
  - intros i c [Hc _]%Huni Ha. assert (c ∈ D) as [j Hj]%list_elem_of_lookup by by apply HD.
    exists (result_seq st1 + 1 + Z.of_nat j). apply lookup_lt_Some in Hj as Hlt.
    rewrite (H3 _ _ Hj), H1. simpl. split; [lia|done].
Qed.

(** The flags [Ack] returns. *)
Definition ack_flags (owner : string) (cs : list Completion) (st : Store) (acked : list bool) : Prop :=
  length acked = length cs
  /\ forall i c, cs !! i = Some c ->
     acked !! i = Some true <-> chosen cs i c /\ ackable st owner c = true.

Lemma stmt_ack_flags owner createdAt cs first unique st st' ks :
  ack_unique 0 cs ∅ ∅ [] = (first, unique) ->
  stmt_ack owner createdAt unique st = Ok (st', ks) ->
  ack_flags owner cs st (mark_acked first ks (replicate (length cs) false)).
Proof.
  intros (Hnd & Hch & Huni)%ack_unique_spec [= _ <-]. split; [by rewrite mark_acked_length, length_replicate|].
  intros i c Hi. rewrite mark_acked_lookup, length_replicate. split.
  - intros [_ [Hr|(k & Hk & E)]].
    { apply lookup_replicate in Hr as [? _]. done. }
    apply list_elem_of_fmap in Hk as (u & -> & Hu). apply list_elem_of_filter in Hu as [Ha Hu].
    destruct (Hch _ Hu) as (j & Hj & Hc). rewrite Hj in E. simpl in E. subst j.
    destruct Hc as [Hi' Hc]. simplify_eq. by repeat split.
  - intros [Hc Ha]. split; [by eapply lookup_lt_Some|]. right.
    destruct (Huni _ _ Hc) as [Hin Hf]. exists (c_Key c). rewrite Hf. split; [|done].
    apply list_elem_of_fmap_2, list_elem_of_filter. done.
Qed.

Lemma inTx_exec {A : Type} (q : stmt A) st fs r st' fs' :
  inTx (exec q) (st, fs) = (r, (st', fs')) ->
  (exists e, r = Err e /\ st' = st)
  \/ exists a, q st = Ok (st', a) /\ (r = Ok a \/ r = Err ErrStatement).
Proof.
  unfold inTx, exec, f_call. destruct (head fs) as [[]|], (head (tail fs)) as [[]|], (q st) as [[st1 a]|e] eqn:E;
    repeat case_match; intros [= <- <- <-]; simplify_eq; eauto.
Qed.

Lemma Ack_outcome owner createdAt cs st fs r st' fs' :
  Ack owner createdAt cs (st, fs) = (r, (st', fs')) ->
  (exists e, r = Err e /\ st' = st)
  \/ ack_effect owner createdAt cs st st'
     /\ (r = Err ErrStatement \/ exists acked, r = Ok acked /\ ack_flags owner cs st acked).
Proof.
  unfold Ack. destruct cs as [|c0 cs'].
  - intros [= <- <- <-]. right. split.
    + split; try done; by intros i c [? _].
    + right. exists []. split; [done|]. by split.
  - set (cs := c0 :: cs'). destruct (ack_unique 0 cs ∅ ∅ []) as [first unique] eqn:Eu.
    unfold db_bind. destruct (inTx _ (st, fs)) as [r1 [st1 fs1]] eqn:Etx.
    apply inTx_exec in Etx as [(e & -> & ->)|(ks & Eq & [-> | ->])]; intros [= <- <- <-].
    + left. eauto.
    + right. eauto 10 using stmt_ack_effect, stmt_ack_flags.
    + right. eauto using stmt_ack_effect.
Qed.

Lemma Ack_runs owner createdAt cs :
  owner <> "" ->
  runs (Ack owner createdAt cs) (fun _ evs =>
    forall k ev, (k, ev) ∈ evs -> exists i c, chosen cs i c /\ k = c_Key c /\ ev = EvAck (owner, c_Attempt c)).
Proof.
  intros Ho st fs r st' fs'. unfold Ack. destruct cs as [|c0 cs'].
  { intros [= <- <- <-]. exists []. split; [constructor|]. by intros ? ? ?%not_elem_of_nil. }
  set (cs := c0 :: cs'). destruct (ack_unique 0 cs ∅ ∅ []) as [first unique] eqn:Eu.
  apply ack_unique_spec in Eu as (Hnd & Hch & _).
  unfold db_bind. destruct (inTx _ (st, fs)) as [r1 [st1 fs1]] eqn:Etx.
  assert (forall st2, (exists a : list Key, stmt_ack owner createdAt unique st = Ok (st2, a)) \/ st2 = st ->
    exists evs, sql_steps st evs st2 /\ (forall k ev, (k, ev) ∈ evs ->
      exists i c, chosen cs i c /\ k = c_Key c /\ ev = EvAck (owner, c_Attempt c))) as Hst.
  { intros st2 [[ks E]| ->].
    - eexists. split; [apply sql_steps_one; by eapply S_ack|].
      intros k ev (c & [= -> ->] & [_ Hc]%list_elem_of_filter)%list_elem_of_fmap.
      destruct (Hch _ Hc) as (i & _ & Hi). eauto.
    - exists []. split; [constructor|]. by intros ? ? ?%not_elem_of_nil. }
  apply inTx_exec in Etx as [(e & -> & ->)|(ks & Eq & [-> | ->])]; intros [= <- <- <-]; apply Hst; eauto.
Qed.

(** ** Clients *)

(** The methods of [Store], with their arguments. *)
Inductive store_call : Type :=
| CEnqueue (createdAt : Z) (reqs : list Request)
| CDispatch (q owner : string) (now limit : Z) (locked : Key -> bool)
| CInFlight (q owner : string)
| CResetStale (q owner : string) (parts : option (list Z)) (locked : Key -> bool)
| CUndispatch (owner : string) (stamps : list Stamp)
| CDefer (owner : string) (stamps : list Stamp) (notBefore : Z)
| CRetry (owner : string) (stamp : Stamp) (notBefore : Z) (env : string)
| CCancel (ids : list string)
| CCancelledKeys (keys : list Key)
| CAck (owner : string) (createdAt : Z) (cs : list Completion)
| CPopResults (route : string) (now limit : Z) (locked : Z -> bool)
| CExpireResults (now limit : Z) (locked : Z -> bool)
| CHasRequests (q : string)
| CBacklog (q : string) (now : Z) (windows : list Z)
| CResultDepth (route : string)
| CEnsurePartitions (q : string)
| CHeartbeat (q owner : string) (now ttl : Z) (member : bool)
| CAcquirePartitions (q owner : string) (now ttl limit : Z) (locked : Z -> bool)
| CSetDraining (q owner : string) (parts : list Z) (draining : bool)
| CReleasePartitions (q owner : string) (parts : list Z)
| CLeave (q owner : string).

(** Run a call, dropping its result. *)
Definition call_run (c : store_call) : DB unit :=
  match c with
  | CEnqueue t rs => do> Enqueue t rs; db_ret tt
  | CDispatch q o now lim l => do> Dispatch q o now lim l; db_ret tt
  | CInFlight q o => do> InFlight q o; db_ret tt
  | CResetStale q o ps l => do> ResetStale q o ps l; db_ret tt
  | CUndispatch o ss => do> Undispatch o ss; db_ret tt
  | CDefer o ss nb => do> Defer o ss nb; db_ret tt
  | CRetry o s nb env => do> Retry o s nb env; db_ret tt
  | CCancel ids => do> Cancel ids; db_ret tt
  | CCancelledKeys ks => do> CancelledKeys ks; db_ret tt
  | CAck o t cs => do> Ack o t cs; db_ret tt
  | CPopResults rt now lim l => do> PopResults rt now lim l; db_ret tt
  | CExpireResults now lim l => do> ExpireResults now lim l; db_ret tt
  | CHasRequests q => do> HasRequests q; db_ret tt
  | CBacklog q now ws => do> Backlog q now ws; db_ret tt
  | CResultDepth rt => do> ResultDepth rt; db_ret tt
  | CEnsurePartitions q => do> EnsurePartitions q; db_ret tt
  | CHeartbeat q o now ttl m => do> Heartbeat q o now ttl m; db_ret tt
  | CAcquirePartitions q o now ttl lim l => do> AcquirePartitions q o now ttl lim l; db_ret tt
  | CSetDraining q o ps d => do> SetDraining q o ps d; db_ret tt
  | CReleasePartitions q o ps => do> ReleasePartitions q o ps; db_ret tt
  | CLeave q o => do> Leave q o; db_ret tt
  end.

(** A dispatcher has a name. *)
Definition call_named (c : store_call) : bool :=
  match c with
  | CDispatch _ o _ _ _ | CAck o _ _ => negb (bool_decide (o = ""))
  | _ => true
  end.

(** Calls one after another, each with the faults that hit it. *)
Fixpoint client (calls : list (store_call * list fault)) (st : Store) : Store :=
  match calls with
  | [] => st
  | (c, fs) :: calls' => client calls' (call_run c (st, fs)).2.1
  end.

Lemma quiet_queryLeases q : quiet (exec q) -> quiet (queryLeases q).
Proof. intros ?. unfold queryLeases. auto with quiet. Qed.

Lemma runs_drop {A : Type} (m : DB A) Post :
  runs m Post -> runs (do> m; db_ret tt) (fun _ evs => exists r, Post r evs).
Proof.
  intros Hm st fs r st' fs'. unfold db_bind. destruct (m (st, fs)) as [[a|e] [st1 fs1]] eqn:E;
    intros [= <- <- <-]; apply Hm in E as (evs & ? & ?); eauto.
Qed.

Lemma runs_True {A : Type} (m : DB A) Post : runs m Post -> runs m (fun _ _ => True).
Proof. intros H st fs r st' fs' E. destruct (H _ _ _ _ _ E) as (evs & ? & _). eauto. Qed.

Lemma call_run_runs c : call_named c = true -> runs (call_run c) (fun _ _ => True).
Proof.
  assert (forall A (m : DB A), quiet m -> runs (do> m; db_ret tt) (fun _ _ => True)) as Hq
    by (intros; eapply runs_True, runs_drop; eauto).
  destruct c; cbn [call_run call_named]; intros Hn.
  1: { eapply runs_True, runs_drop, Enqueue_runs. }
  1: { eapply runs_True, runs_drop, Dispatch_runs. by case_bool_decide. }
  8: { eapply runs_True, runs_drop, Ack_runs. by case_bool_decide. }
  all: apply Hq; unfold InFlight, ResetStale, Undispatch, Defer, undispatch, Retry, Cancel, CancelledKeys,
    PopResults, ExpireResults, HasRequests, Backlog, ResultDepth, EnsurePartitions, Heartbeat,
    AcquirePartitions, SetDraining, ReleasePartitions, Leave;
    repeat case_match; auto 8 using quiet_queryLeases with quiet.
Qed.

Lemma client_steps calls : forall st,
  Forall (fun cf => call_named cf.1 = true) calls -> exists evs, sql_steps st evs (client calls st).
Proof.
  induction calls as [|[c fs] calls IH]; intros st Hn; [exists []; constructor|].
  apply Forall_cons in Hn as [Hc Hn]. cbn [client].
  destruct (call_run c (st, fs)) as [r [st1 fs1]] eqn:E.
  destruct (call_run_runs c Hc _ _ _ _ _ E) as (evs & Hs & _).
  destruct (IH st1 Hn) as (evs' & Hs'). exists (evs ++ evs'). by eapply sql_steps_app.
Qed.

Lemma sql_steps_run evs st : sql_steps emptyStore evs st -> q_run evs st.
Proof.
  remember emptyStore as s0 eqn:E0. induction 1 as [|? evs s1 evs' s2 ? IH Hs]; subst.
  - constructor.
  - econstructor; eauto.
Qed.

Lemma client_good calls st :
  Forall (fun cf => call_named cf.1 = true) calls -> store_good st -> store_good (client calls st).
Proof. intros Hn Hg. destruct (client_steps calls st Hn) as (evs & Hs). by apply (sql_steps_sound _ _ _ Hs). Qed.

(** ** Properties *)

(** C1. No request is lost or duplicated: at any point of any interleaving of
    the store's statements, the number of times a key was enqueued is the
    number of times it was acknowledged, plus one if it has a row. *)
Theorem sql_conservation evs st k :
  q_run evs st ->
  enqueues (at_key k evs)
  = (acks (at_key k evs) + if decide (is_Some (requests st !! k)) then 1 else 0)%nat.
Proof.
  intros H. rewrite (q_run_conservation evs st k H). f_equal.
  unfold q_phase; simpl. unfold sql_phase, live.
  case_decide as Hd; [destruct Hd as [r ->]; by repeat case_match|].
  by rewrite (proj2 (eq_None_not_Some _) Hd).
Qed.

(** C21. An acknowledgement accepted for a request directly follows, among the
    events of that request, the dispatch it acknowledges: same dispatcher, same
    attempt, and no other dispatch in between. *)
Theorem sql_ack_follows_dispatch evs st k owner a tr tr' :
  q_run (Q := sql_queue) evs st -> at_key k evs = tr ++ EvAck (owner, a) :: tr' ->
  exists tr0, tr = tr0 ++ [EvDispatch (owner, a)].
Proof. apply q_run_ack_after_dispatch. Qed.

(** No two dispatches ever carry the same attempt number. *)
Theorem sql_attempts_unique evs st :
  q_run (Q := sql_queue) evs st -> NoDup (dispatched evs).
Proof. intros H%sql_run_steps%sql_steps_draws. apply H. Qed.

(** The rows of a partition just taken over are fenced. *)
Lemma acquired_fenced st q owner nowMs expires limit locked st' out k r qp :
  store_good st -> stmt_acquire q owner nowMs expires limit locked st = Ok (st', out) ->
  requests st !! k = Some r -> dispatch_epoch r <> 0 ->
  qp = (queue r, partition_id r) ->
  qp ∈ (picked_parts st q nowMs limit locked).*1 ->
  fenced st' k (dispatch_attempt r).
Proof.
  intros Hg H Hk He -> Hin. unfold stmt_acquire in H. destruct (limit <? 0); [done|].
  injection H as <- _. pose proof (good_rows _ Hg _ _ Hk) as [_ Hep Hat Hst].
  destruct Hst as (_ & p & Hp & Hle); [lia|]. split; simpl; [lia|]. intros o.
  unfold sql_phase; simpl. rewrite Hk, bool_decide_false by done.
  unfold part_of in *; simpl. rewrite lookup_update_where, Hp. simpl.
  rewrite (bool_decide_true (_ ∈ _)) by done. simpl. rewrite bool_decide_false by lia. done.
Qed.

Lemma queryLeases_inv q st fs leases st1 fs1 :
  queryLeases q (st, fs) = (Ok leases, (st1, fs1)) ->
  exists out, q st = Ok (st1, out) /\ leases = merge_sort lease_le out.
Proof.
  unfold queryLeases, db_bind, exec, f_call.
  destruct (q st) as [[st' out]|e], (head fs) as [[]|]; intros [= <- <- _]; eauto.
Qed.

Lemma acquire_leases q owner nowMs expires limit locked st st' out l :
  stmt_acquire q owner nowMs expires limit locked st = Ok (st', out) -> l ∈ out ->
  (q, l_Partition l) ∈ (picked_parts st q nowMs limit locked).*1.
Proof.
  unfold stmt_acquire. destruct (limit <? 0); [done|]. intros [= _ <-].
  intros ([[q' p'] pr] & -> & Hin)%list_elem_of_fmap.
  apply list_elem_of_fmap. exists (q', p', pr). split; [|done]. simpl.
  apply elem_of_limit_where in Hin as [_ HP]. unfold claimable in HP. simpl in HP.
  apply andb_prop in HP as [[HP _]%andb_prop _]. by case_bool_decide; subst.
Qed.

(** C6. A takeover fences: once AcquirePartitions has returned the lease of a
    partition, no attempt that was in flight on a request of that partition is
    ever acknowledged, by any dispatcher, whatever runs afterwards. *)
Theorem takeover_fences st q owner now ttl limit locked fs leases st1 fs1 evs st2 k r l o :
  store_good st ->
  AcquirePartitions q owner now ttl limit locked (st, fs) = (Ok leases, (st1, fs1)) ->
  l ∈ leases -> requests st !! k = Some r -> queue r = q -> partition_id r = l_Partition l ->
  dispatch_epoch r <> 0 -> sql_steps st1 evs st2 ->
  (k, EvAck (o, dispatch_attempt r)) ∉ evs.
Proof.
  intros Hg Hacq Hl Hk Hq Hpid He Hsteps.
  apply queryLeases_inv in Hacq as (out & E & ->). rewrite merge_sort_Permutation in Hl.
  destruct (sql_step_sound _ _ _ (S_acquire _ _ _ _ _ _ _ _ _ E) Hg) as [Hg1 _].
  assert (fenced st1 k (dispatch_attempt r)) as Hf; [|by eapply fenced_steps].
  eapply (acquired_fenced st); [done|exact E|done|done|reflexivity|].
  rewrite Hq, Hpid. by eapply acquire_leases.
Qed.

(** Ack, whatever fails: either it reports an error and changed nothing,
    or it took effect: exactly the requests whose kept completion is fenced by
    nobody are deleted and have their result recorded, everything else is
    untouched; and the flags it returns are true for exactly those completions,
    so missing, fenced and duplicate completions report false. *)
Theorem Ack_spec owner createdAt cs st fs r st' fs' :
  Ack owner createdAt cs (st, fs) = (r, (st', fs')) ->
  (exists e, r = Err e /\ st' = st)
  \/ ack_effect owner createdAt cs st st'
     /\ (r = Err ErrStatement \/ exists acked, r = Ok acked /\ ack_flags owner cs st acked).
Proof. apply Ack_outcome. Qed.

(** Enqueue accepts every request or none, and fails exactly when a key is
    repeated or already present; the rows it adds are one INSERT's, whatever
    the chunking. *)
Theorem Enqueue_all_or_none createdAt reqs st :
  let keys := request_Key <$> reqs in
  match Enqueue createdAt reqs (st, []) with
  | (Ok _, (st', _)) =>
      NoDup keys /\ (forall k, k ∈ keys -> requests st !! k = None)
      /\ forall k, requests st' !! k =
           match list_to_map (M := gmap Key ReqRow) (enqueue_rows createdAt 0 reqs) !! k with
           | Some row => Some row
           | None => requests st !! k
           end
  | (Err e, (st', _)) =>
      e = ErrUnique /\ st' = st /\ ~ (NoDup keys /\ forall k, k ∈ keys -> requests st !! k = None)
  end.
Proof.
  intros keys. rewrite Enqueue_flat_lemma.
  destruct (insert_rows _ _) as [m|] eqn:E; cbn [fst snd].
  - apply insert_rows_Some_inv in E as (H1 & H2 & H3). rewrite enqueue_rows_keys in *. done.
  - split_and!; [done..|]. intros [H1 H2]. unfold keys in *.
    destruct (insert_rows_Some (enqueue_rows createdAt 0 reqs) (requests st)) as [m Hm];
      [by rewrite enqueue_rows_keys..|]. congruence.
Qed.

(** Dispatch takes pending requests in the order of their deadlines: it
    returns as many as the limit allows, in deadline order, and every eligible
    request it leaves behind is due no earlier than each one it took. *)
Theorem Dispatch_earliest_first st q owner now limit locked :
  0 <= limit ->
  let eligible := select_where (pending_for st owner q (Unix now) locked) (requests st) in
  exists st' out, Dispatch q owner now limit locked (st, []) = (Ok out, (st', []))
  /\ length out = Nat.min (Z.to_nat limit) (length eligible)
  /\ StronglySorted request_le out
  /\ (forall r, r ∈ out -> request_Key r ∈ eligible.*1)
  /\ forall k row k' row', (k, row) ∈ eligible -> (k', row') ∈ eligible ->
     k ∈ request_Key <$> out -> k' ∉ request_Key <$> out -> row_le (k, row) (k', row').
Proof.
  intros Hl eligible. destruct (Dispatch_ok_lemma st q owner now limit locked Hl) as (st' & out & E & Hp & Hs).
  exists st', out. split_and!; try done.
  - rewrite <- (length_fmap request_Key), Hp, length_fmap. unfold picked_rows.
    by rewrite length_take, merge_sort_Permutation.
  - intros r Hr. apply (list_elem_of_fmap_2 request_Key) in Hr. rewrite Hp in Hr.
    apply list_elem_of_fmap in Hr as ([k row] & Ek & Hin). apply picked_rows_ok in Hin as [H1 H2].
    apply list_elem_of_fmap. exists (k, row). split; [done|]. by apply elem_of_select_where.
  - intros k row k' row' [Hk _]%elem_of_select_where [Hk' HP']%elem_of_select_where Hin Hni.
    rewrite Hp in Hin, Hni. apply list_elem_of_fmap in Hin as ([k0 row0] & -> & Hin).
    apply picked_rows_ok in Hin as Hrow. destruct Hrow as [Hrow _]. simplify_eq/=.
    by eapply picked_rows_first.
Qed.

(** C7. Whatever calls clients make, in whatever order and with whatever
    statements failing, the store they leave is one the contract allows: it is
    reached from the empty store by a run of the durable queue, and satisfies
    the store's invariant. *)
Theorem client_refines calls :
  Forall (fun cf => call_named cf.1 = true) calls ->
  exists evs, q_run (Q := sql_queue) evs (client calls emptyStore) /\ store_good (client calls emptyStore).
Proof.
  intros Hn. destruct (client_steps calls emptyStore Hn) as (evs & Hs). exists evs.
  split; [by apply sql_steps_run|]. by apply (sql_steps_sound _ _ _ Hs), store_good_empty.
Qed.

Lemma stamped_for_one st owner s k r : stamped_for st owner [s] k r = true -> k = st_Key s.
Proof.
  unfold stamped_for. intros [[_ H]%andb_prop _]%andb_prop. case_bool_decide as E; [|done].
  by apply list_elem_of_singleton in E as <-.
Qed.

(** [s] is the current stamp of its request and its partition is [owner]'s. *)
Definition holds_stamp (st : Store) (owner : string) (s : Stamp) : bool :=
  match requests st !! st_Key s with
  | Some r => stamped_for st owner [s] (st_Key s) r
  | None => false
  end.

(** Retry of a stamp the dispatcher holds makes the request pending again,
    hidden until notBefore and with the new envelope, and touches no other
    request; a stamp it does not hold changes nothing; and the result tells the
    two cases apart. *)
Theorem Retry_spec st owner s notBefore env :
  match Retry owner s notBefore env (st, []) with
  | (Ok retried, (st', _)) =>
      retried = holds_stamp st owner s
      /\ (forall k, requests st' !! k =
            if retried && bool_decide (k = st_Key s) then retry_row notBefore env <$> requests st !! k
            else requests st !! k)
      /\ (retried = true -> sql_phase st' (st_Key s) = Pending)
  | (Err _, _) => False
  end.
Proof.
  unfold Retry, db_bind, exec, f_call, stmt_retry, oneRow. cbn [head tail].
  rewrite (select_where_one _ _ (st_Key s)) by apply stamped_for_one.
  assert (forall k, k <> st_Key s -> update_where (stamped_for st owner [s])
    (fun _ r => retry_row notBefore env r) (requests st) !! k = requests st !! k) as Hother.
  { intros k Hne. rewrite lookup_update_where. destruct (requests st !! k) as [r|]; [|done]. simpl.
    destruct (stamped_for st owner [s] k r) eqn:E; [|done]. by apply stamped_for_one in E. }
  unfold holds_stamp, sql_phase. destruct (requests st !! st_Key s) as [r|] eqn:Hr; simpl.
  2: { split_and!; [done| |done]. intros k. destruct (decide (k = st_Key s)) as [->|]; [|auto].
       by rewrite lookup_update_where, Hr. }
  destruct (stamped_for st owner [s] (st_Key s) r) eqn:E; simpl; split_and!; try done.
  - intros k. case_bool_decide; subst; [|auto]. by rewrite lookup_update_where, Hr; simpl; rewrite E.
  - intros _. by rewrite lookup_update_where, Hr; simpl; rewrite E.
  - intros k. destruct (decide (k = st_Key s)) as [->|]; [|auto].
    by rewrite lookup_update_where, Hr; simpl; rewrite E.
Qed.

(** Enqueue under faults: when it succeeds every request was accepted, and
    when it reports an error either none was or, the reply of the commit being
    lost, every one was. *)
Theorem Enqueue_atomic createdAt reqs st fs r st' fs' :
  Enqueue createdAt reqs (st, fs) = (r, (st', fs')) ->
  exists evs, sql_steps st evs st' /\
    match r with
    | Ok _ => evs = enqueue_events reqs
    | Err _ => evs = [] \/ evs = enqueue_events reqs
    end.
Proof. apply Enqueue_runs. Qed.

(** ** Witnesses: one request from acceptance to acknowledgement *)
Definition w_req : Request := mkRequest "r1" "t1" "q" 0 0 0 100 "env" "body" false 0.
Definition w_key : Key := request_Key w_req.
Definition w_done : Completion := mkCompletion w_key 1 "out" "ok" 0.
Definition w_nolock {A : Type} (_ : A) : bool := false.

Definition w_enqueued : Store := client [(CEnqueue 7 [w_req], [])] emptyStore.
Definition w_ensured : Store := client [(CEnsurePartitions "q", [])] w_enqueued.
Definition w_leased : Store := client [(CAcquirePartitions "q" "d1" 0 1000 64 w_nolock, [])] w_ensured.
Lemma w_leased_good : store_good w_leased.
Proof. by do 3 (apply client_good; [by repeat constructor|]); apply store_good_empty. Qed.
Definition w_dispatched : Store := client [(CDispatch "q" "d1" 0 10 w_nolock, [])] w_leased.
Definition w_acked : Store := client [(CAck "d1" 9 [w_done], [])] w_dispatched.
Definition w_leases : list Lease :=
  match stmt_acquire "q" "d1" 0 0 64 w_nolock w_ensured with Ok (_, ls) => ls | Err _ => [] end.
Definition w_out : list Request :=
  [mkRequest "r1" "t1" "q" (partitionOf "r1") 1 1 100 "env" "body" false 7].
Definition w_events : list sql_event :=
  ((([] ++ enqueue_events [w_req]) ++ []) ++ [])
  ++ dispatch_events "d1" w_out.

Lemma w_dispatched_run : q_run w_events w_dispatched.
Proof.
  unfold w_events. eapply q_run_step; [eapply q_run_step; [eapply q_run_step; [eapply q_run_step|]|]|].
  - apply q_run_nil.
  - apply (S_insert 7 0 [w_req] emptyStore w_enqueued). by_vm.
  - apply (S_ensure "q" w_enqueued w_ensured). by_vm.
  - apply (S_acquire "q" "d1" 0 0 64 w_nolock w_ensured w_leased w_leases). by_vm.
  - apply (S_dispatch "d1" "q" 0 10 w_nolock w_leased w_dispatched w_out); [done|]. by_vm.
Qed.

Lemma w_acked_run : q_run (w_events ++ ack_events "d1" [w_done]) w_acked.
Proof.
  eapply q_run_step; [apply w_dispatched_run|].
  apply (S_ack "d1" 9 [w_done] w_dispatched w_acked [w_key]); [done|apply NoDup_singleton|].
  by_vm.
Qed.

Lemma sql_conservation_witness :
  enqueues (at_key w_key (w_events ++ ack_events "d1" [w_done]))
  = (acks (at_key w_key (w_events ++ ack_events "d1" [w_done]))
     + if decide (is_Some (requests w_acked !! w_key)) then 1 else 0)%nat.
Proof. apply (sql_conservation _ _ w_key w_acked_run). Defined.

Lemma sql_ack_follows_dispatch_witness :
  exists tr0 : list (qevent (string * Z)), [EvEnqueue; EvDispatch ("d1", 1)] = tr0 ++ [EvDispatch ("d1", 1)].
Proof.
  apply (sql_ack_follows_dispatch _ _ w_key "d1" 1 [EvEnqueue; EvDispatch ("d1", 1)] [] w_acked_run).
  by_vm.
Defined.

Lemma sql_attempts_unique_witness : NoDup (dispatched (w_events ++ ack_events "d1" [w_done])).
Proof. apply (sql_attempts_unique _ _ w_acked_run). Defined.

(** A second dispatcher takes the lapsed partitions over, and the first one's
    acknowledgement comes too late. *)
Definition w_later : Z := 10 * Second.
Definition w_taken : Store := client [(CAcquirePartitions "q" "d2" w_later 1000 64 w_nolock, [])] w_dispatched.
Definition w_taken_leases : list Lease :=
  match AcquirePartitions "q" "d2" w_later 1000 64 w_nolock (w_dispatched, []) with
  | (Ok ls, _) => ls
  | _ => []
  end.
Definition w_row : ReqRow := stamp_row (enqueue_row 7 0 w_req).2 1 1.

Lemma takeover_fences_witness :
  (w_key, EvAck ("d1", dispatch_attempt w_row)) ∉ ack_events "d1" (filter (fun c => ackable w_taken "d1" c = true) [w_done]).
Proof.
  apply (takeover_fences w_dispatched "q" "d2" w_later 1000 64 w_nolock [] w_taken_leases w_taken []
    _ (client [(CAck "d1" 9 [w_done], [])] w_taken) w_key w_row (mkLease (partitionOf "r1") 2 false) "d1").
  - apply (q_run_good (Q := sql_queue) _ _ w_dispatched_run).
  - by_vm.
  - apply (bool_decide_eq_true_1 _). by_vm.
  - by_vm.
  - reflexivity.
  - reflexivity.
  - done.
  - apply (sql_steps_one w_taken). apply (S_ack "d1" 9 [w_done] w_taken _ []); [done|apply NoDup_singleton|].
    by_vm.
Defined.

Lemma Ack_spec_witness :
  (exists e, Ok [true] = Err (A := list bool) (e : StoreErr) /\ w_acked = w_dispatched)
  \/ ack_effect "d1" 9 [w_done] w_dispatched w_acked
     /\ (Ok [true] = Err ErrStatement
         \/ exists acked, Ok (E := StoreErr) [true] = Ok acked /\ ack_flags "d1" [w_done] w_dispatched acked).
Proof. apply (Ack_spec "d1" 9 [w_done] w_dispatched [] (Ok [true]) w_acked []). by_vm. Defined.

Lemma Enqueue_atomic_witness :
  exists evs, sql_steps emptyStore evs w_enqueued /\ (evs = [] \/ evs = enqueue_events [w_req]).
Proof. apply (Enqueue_atomic 7 [w_req] emptyStore [FNone; FNone; FReply] (Err ErrStatement) w_enqueued []). by_vm. Defined.

Lemma Dispatch_earliest_first_witness :
  exists st' out, Dispatch "q" "d1" 0 10 w_nolock (w_leased, []) = (Ok out, (st', [])).
Proof.
  destruct (Dispatch_earliest_first w_leased "q" "d1" 0 10 w_nolock ltac:(lia)) as (st' & out & H & _).
  exists st', out. exact H.
Defined.

Lemma client_refines_witness :
  exists evs, q_run (Q := sql_queue) evs (client [(CEnqueue 7 [w_req], [FNone; FLost]); (CLeave "q" "d1", [])] emptyStore)
  /\ store_good (client [(CEnqueue 7 [w_req], [FNone; FLost]); (CLeave "q" "d1", [])] emptyStore).
Proof. apply client_refines. repeat constructor. Defined.
