(* ===== verification/SqlConsumer.v ===== *)
(** * One dispatcher on an SQL queue (src/producer-sql/sqlqueue/consumer.go)

    A [Consumer]'s fields, and its methods as programs over the consumer, the
    shared store and the rest of the world.  [Poll], [Rebalance] and [Close]
    exclude each other (the cycle mutex); [Ack], [Retry], [Undispatch],
    [Defer], [Abandon] and [Stop] do not, and neither do other dispatchers, so
    between two sections under the consumer's lock anything of [interference]
    may happen: the world lists what does, around every store call, together
    with the faults that hit the call.

    Maps of pointers are maps of values: no partitionState is shared between
    two maps that are both read.  An error is the list of the store errors it
    joins, [[]] being nil. *)
From stdpp Require Import prelude gmap strings list sorting.
From Stdlib Require Import ZArith Lia.
From S2P Require Import Prelude QueueSpec SqlStore SqlSafety SqlMethods.

#[local] Open Scope Z_scope.

Record tracked : Type := mkTracked { t_partition : Z; t_epoch : Z; t_attempt : Z }.

Record partitionState : Type := mkPartitionState {
  ps_epoch : Z;
  ps_acquiredAt : Z;
  ps_draining : bool;
  ps_drainSince : Z;
  ps_inflight : Z
}.

Record Consumer : Type := mkConsumer {
  cs_queue : string;
  cs_owner : string;
  cs_leaseTTL : Z;
  cs_drainTimeout : Z;
  seeded : bool;
  stopping : bool;
  reconcile : bool;
  beats : Z;
  leases : gmap Z partitionState;
  inflight : gmap Key tracked;
  orphans : gmap Key Z
}.

Definition NewConsumer (queue owner : string) (leaseTTL drainTimeout : Z) : Consumer :=
  mkConsumer queue owner leaseTTL drainTimeout false false false 0 ∅ ∅ ∅.

Definition set_seeded (c : Consumer) : Consumer :=
  mkConsumer (cs_queue c) (cs_owner c) (cs_leaseTTL c) (cs_drainTimeout c) true (stopping c)
    (reconcile c) (beats c) (leases c) (inflight c) (orphans c).
Definition set_stopping (c : Consumer) : Consumer :=
  mkConsumer (cs_queue c) (cs_owner c) (cs_leaseTTL c) (cs_drainTimeout c) (seeded c) true
    (reconcile c) (beats c) (leases c) (inflight c) (orphans c).
Definition set_reconcile (c : Consumer) (b : bool) : Consumer :=
  mkConsumer (cs_queue c) (cs_owner c) (cs_leaseTTL c) (cs_drainTimeout c) (seeded c) (stopping c)
    b (beats c) (leases c) (inflight c) (orphans c).
Definition set_beats (c : Consumer) (n : Z) : Consumer :=
  mkConsumer (cs_queue c) (cs_owner c) (cs_leaseTTL c) (cs_drainTimeout c) (seeded c) (stopping c)
    (reconcile c) n (leases c) (inflight c) (orphans c).
Definition set_leases (c : Consumer) (m : gmap Z partitionState) : Consumer :=
  mkConsumer (cs_queue c) (cs_owner c) (cs_leaseTTL c) (cs_drainTimeout c) (seeded c) (stopping c)
    (reconcile c) (beats c) m (inflight c) (orphans c).
Definition set_inflight (c : Consumer) (m : gmap Key tracked) : Consumer :=
  mkConsumer (cs_queue c) (cs_owner c) (cs_leaseTTL c) (cs_drainTimeout c) (seeded c) (stopping c)
    (reconcile c) (beats c) (leases c) m (orphans c).
Definition set_orphans (c : Consumer) (m : gmap Key Z) : Consumer :=
  mkConsumer (cs_queue c) (cs_owner c) (cs_leaseTTL c) (cs_drainTimeout c) (seeded c) (stopping c)
    (reconcile c) (beats c) (leases c) (inflight c) m.

(** ** Sections under the lock *)
Definition ps_add (d : Z) (st : partitionState) : partitionState :=
  mkPartitionState (ps_epoch st) (ps_acquiredAt st) (ps_draining st) (ps_drainSince st) (ps_inflight st + d).

Definition untrackLocked (k : Key) (t : tracked) (c : Consumer) : Consumer :=
  let c := set_inflight c (delete k (inflight c)) in
  match leases c !! t_partition t with
  | Some st =>
      if bool_decide (ps_epoch st = t_epoch t) && bool_decide (0 < ps_inflight st)
      then set_leases c (<[t_partition t := ps_add (-1) st]> (leases c))
      else c
  | None => c
  end.

(** [Poll]'s loop body. *)
Definition trackLocked (r : Request) (c : Consumer) : Consumer :=
  let k := request_Key r in
  let c := match inflight c !! k with
           | Some prev => untrackLocked k prev c
           | None => c
           end in
  let c := set_orphans c (delete k (orphans c)) in
  let c := set_inflight c (<[k := mkTracked (req_Partition r) (req_Epoch r) (req_Attempt r)]> (inflight c)) in
  match leases c !! req_Partition r with
  | Some st =>
      if bool_decide (ps_epoch st = req_Epoch r)
      then set_leases c (<[req_Partition r := ps_add 1 st]> (leases c))
      else c
  | None => c
  end.

Definition doneStamp (s : Stamp) (c : Consumer) : Consumer :=
  match inflight c !! st_Key s with
  | Some t => if bool_decide (t_attempt t = st_Attempt s) then untrackLocked (st_Key s) t c else c
  | None => c
  end.

Definition doneStamps (stamps : list Stamp) (c : Consumer) : Consumer :=
  foldl (fun c s => doneStamp s c) c stamps.

Definition abandonStamp (s : Stamp) (c : Consumer) : Consumer :=
  match inflight c !! st_Key s with
  | Some t =>
      if bool_decide (t_attempt t = st_Attempt s)
      then untrackLocked (st_Key s) t (set_orphans c (<[st_Key s := t_attempt t]> (orphans c)))
      else c
  | None => c
  end.

Definition Abandon (stamps : list Stamp) (c : Consumer) : Consumer :=
  foldl (fun c s => abandonStamp s c) c stamps.

Definition Stop (c : Consumer) : Consumer := set_stopping c.

Definition syncLease (c : Consumer) (now : Z) (next : gmap Z partitionState) (l : Lease) : gmap Z partitionState :=
  let fresh := mkPartitionState (l_Epoch l) now false 0 0 in
  let st := match leases c !! l_Partition l with
            | Some st => if bool_decide (ps_epoch st = l_Epoch l) then st else fresh
            | None => fresh
            end in
  let since := if l_Draining l && negb (ps_draining st) then now else ps_drainSince st in
  <[l_Partition l :=
      mkPartitionState (ps_epoch st) (ps_acquiredAt st) (l_Draining l) since (ps_inflight st)]> next.

Definition syncLeases (held : list Lease) (now : Z) (c : Consumer) : Consumer :=
  set_leases c (foldl (syncLease c now) ∅ held).

Definition sortInts : list Z -> list Z := merge_sort Z.le.

Definition partitionsLocked (c : Consumer) : list Z * list Z :=
  (sortInts (select_where (fun _ st => negb (ps_draining st)) (leases c)).*1,
   sortInts (select_where (fun _ st => ps_draining st) (leases c)).*1).

(** The order of [sort.SliceStable]: fewest in flight first, then the highest
    partition. *)
Definition inflight_at (c : Consumer) (p : Z) : Z :=
  match leases c !! p with Some st => ps_inflight st | None => 0 end.

Definition drain_le (c : Consumer) (p q : Z) : Prop :=
  inflight_at c p < inflight_at c q \/ (inflight_at c p = inflight_at c q /\ q <= p).

#[export] Instance drain_le_dec c : RelDecision (drain_le c).
Proof. unfold drain_le. intros p q. solve_decision. Defined.

Definition drainCandidatesLocked (c : Consumer) (active : list Z) (n : Z) : list Z :=
  sortInts (take (Z.to_nat n) (merge_sort (drain_le c) active)).

Definition mark_draining (since : option Z) (c : Consumer) (p : Z) : Consumer :=
  match leases c !! p with
  | Some st =>
      set_leases c (<[p := match since with
                           | None => mkPartitionState (ps_epoch st) (ps_acquiredAt st) false (ps_drainSince st) (ps_inflight st)
                           | Some now => mkPartitionState (ps_epoch st) (ps_acquiredAt st) true now (ps_inflight st)
                           end]> (leases c))
  | None => c
  end.

(** ** The world around a section *)
Inductive interference : Type :=
| IDone (stamps : list Stamp)       (* the end of a concurrent Ack, Retry, Undispatch or Defer *)
| IAbandon (stamps : list Stamp)
| IStop
| ICall (c : store_call) (fs : list fault).  (* a store call of this or another dispatcher *)

Record World : Type := mkWorld {
  w_c : Consumer;
  w_store : Store;
  w_env : list (list interference * list fault * list interference)
}.

Definition interfere (w : World) (i : interference) : World :=
  match i with
  | IDone ss => mkWorld (doneStamps ss (w_c w)) (w_store w) (w_env w)
  | IAbandon ss => mkWorld (Abandon ss (w_c w)) (w_store w) (w_env w)
  | IStop => mkWorld (Stop (w_c w)) (w_store w) (w_env w)
  | ICall c fs => mkWorld (w_c w) (call_run c (w_store w, fs)).2.1 (w_env w)
  end.

Definition CM (A : Type) : Type := World -> A * World.

Definition cm_ret {A : Type} (a : A) : CM A := fun w => (a, w).
Definition cm_bind {A B : Type} (m : CM A) (k : A -> CM B) : CM B :=
  fun w => let '(a, w') := m w in k a w'.

Declare Scope cm_scope.
Delimit Scope cm_scope with cm.
Notation "'cm!' x <- m ; k" := (cm_bind m (fun x => k))
  (at level 10, x name, m at level 100, k at level 200) : cm_scope.
Notation "'cm>' m ; k" := (cm_bind m (fun _ => k))
  (at level 10, m at level 100, k at level 200) : cm_scope.
#[local] Open Scope cm_scope.

(** A section under the consumer's lock that reads or rewrites its fields. *)
Definition cm_get {A : Type} (f : Consumer -> A) : CM A := fun w => (f (w_c w), w).
Definition cm_set (f : Consumer -> Consumer) : CM unit :=
  fun w => (tt, mkWorld (f (w_c w)) (w_store w) (w_env w)).

(** A store call outside the lock: interference, the call with its faults,
    interference. *)
Definition cm_call {A : Type} (m : DB A) : CM (Res StoreErr A) :=
  fun w =>
    let '(before, fs, after) := default ([], [], []) (head (w_env w)) in
    let w1 := foldl interfere (mkWorld (w_c w) (w_store w) (tail (w_env w))) before in
    let '(r, (st', _)) := m (w_store w1, fs) in
    (r, foldl interfere (mkWorld (w_c w1) st' (w_env w1)) after).

(** [queue] and [owner] never change. *)
Definition cm_self : CM (string * string) := cm_get (fun c => (cs_queue c, cs_owner c)).

Definition errs {A : Type} (r : Res StoreErr A) : list StoreErr :=
  match r with Ok _ => [] | Err e => [e] end.

(** ** The methods *)
Definition Poll (now limit : Z) (locked : Key -> bool) : CM (Res StoreErr (list Request)) :=
  cm! qo <- cm_self;
  cm! r <- cm_call (Dispatch qo.1 qo.2 now limit locked);
  match r with
  | Err e => cm> cm_set (fun c => set_reconcile c true); cm_ret (Err e)
  | Ok rows => cm> cm_set (fun c => foldl (fun c r => trackLocked r c) c rows); cm_ret (Ok rows)
  end.

Definition completion_Stamp (c : Completion) : Stamp := mkStamp (c_Key c) (c_Attempt c).

Definition Ack (createdAt : Z) (completions : list Completion) : CM (Res StoreErr (list bool)) :=
  cm! qo <- cm_self;
  cm! r <- cm_call (SqlStore.Ack qo.2 createdAt completions);
  match r with
  | Err e => cm_ret (Err e)
  | Ok acked => cm> cm_set (doneStamps (completion_Stamp <$> completions)); cm_ret (Ok acked)
  end.

Definition Retry (stamp : Stamp) (notBefore : Z) (env : string) : CM (Res StoreErr bool) :=
  cm! qo <- cm_self;
  cm! r <- cm_call (SqlStore.Retry qo.2 stamp notBefore env);
  match r with
  | Err e => cm_ret (Err e)
  | Ok ok => cm> cm_set (doneStamps [stamp]); cm_ret (Ok ok)
  end.

Definition Undispatch (stamps : list Stamp) : CM (list StoreErr) :=
  cm! qo <- cm_self;
  cm! r <- cm_call (SqlStore.Undispatch qo.2 stamps);
  cm> cm_set (if is_ok r then doneStamps stamps else Abandon stamps);
  cm_ret (errs r).

Definition Defer (stamps : list Stamp) (notBefore : Z) : CM (list StoreErr) :=
  cm! qo <- cm_self;
  cm! r <- cm_call (SqlStore.Defer qo.2 stamps notBefore);
  cm> cm_set (if is_ok r then doneStamps stamps else Abandon stamps);
  cm_ret (errs r).

Definition orphan_stamps (c : Consumer) : list Stamp :=
  (fun ka => mkStamp ka.1 ka.2) <$> map_to_list (orphans c).

Definition drop_orphan (c : Consumer) (s : Stamp) : Consumer :=
  if bool_decide (orphans c !! st_Key s = Some (st_Attempt s)) then set_orphans c (delete (st_Key s) (orphans c)) else c.

Definition undispatchOrphans : CM (list StoreErr) :=
  cm! qo <- cm_self;
  cm! stamps <- cm_get orphan_stamps;
  match stamps with
  | [] => cm_ret []
  | _ =>
      cm! r <- cm_call (SqlStore.Undispatch qo.2 stamps);
      match r with
      | Err e => cm_ret [e]
      | Ok _ => cm> cm_set (fun c => foldl drop_orphan c stamps); cm_ret []
      end
  end.

(** The stamped rows this consumer does not track. *)
Definition untracked (c : Consumer) (stamped : list Stamp) : list Stamp :=
  filter (fun s => t_attempt <$> inflight c !! st_Key s <> Some (st_Attempt s)) stamped.

Definition reconcileInFlight : CM (list StoreErr) :=
  cm! qo <- cm_self;
  cm! needed <- cm_get reconcile;
  if negb needed then cm_ret []
  else
    cm! r <- cm_call (InFlight qo.1 qo.2);
    match r with
    | Err e => cm_ret [e]
    | Ok stamped =>
        cm! us <- cm_get (fun c => untracked c stamped);
        cm! r <- cm_call (SqlStore.Undispatch qo.2 us);
        match r with
        | Err e => cm_ret [e]
        | Ok _ => cm> cm_set (fun c => set_reconcile c false); cm_ret []
        end
    end.

Definition fullResetEvery : Z := 10.

(** The partitions the next reset looks at; [None] (a nil slice) for all. *)
Definition reset_parts (now : Z) (c : Consumer) : option (list Z) :=
  if bool_decide (beats c mod fullResetEvery = 0) then None
  else Some (sortInts (select_where (fun _ st => bool_decide (now - ps_acquiredAt st < 2 * cs_leaseTTL c)) (leases c)).*1).

Definition resetStale (now : Z) (locked : Key -> bool) : CM (list StoreErr) :=
  cm! qo <- cm_self;
  cm> cm_set (fun c => set_beats c (beats c + 1));
  cm! parts <- cm_get (reset_parts now);
  cm! r <- cm_call (ResetStale qo.1 qo.2 parts locked);
  cm_ret (errs r).

Definition drained (now : Z) (c : Consumer) : list Z :=
  sortInts (select_where (fun _ st =>
    ps_draining st && (bool_decide (ps_inflight st = 0) || bool_decide (cs_drainTimeout c <= now - ps_drainSince st)))
    (leases c)).*1.

Definition releaseDrained (now : Z) : CM (list StoreErr) :=
  cm! qo <- cm_self;
  cm! release <- cm_get (drained now);
  cm! r <- cm_call (ReleasePartitions qo.1 qo.2 release);
  match r with
  | Err e => cm_ret [e]
  | Ok _ => cm> cm_set (fun c => set_leases c (foldl (fun m p => delete p m) (leases c) release)); cm_ret []
  end.

(** The share of a queue's partitions a member takes: the ceiling of
    [Partitions / members]. *)
Definition share (members : Z) (stopped : bool) : Z :=
  if stopped then 0 else (Partitions + Z.max 1 members - 1) / Z.max 1 members.

Definition add_lease (now : Z) (c : Consumer) (l : Lease) : Consumer :=
  set_leases c (<[l_Partition l := mkPartitionState (l_Epoch l) now false 0 0]> (leases c)).

(** The switch of [Rebalance], below its share. *)
Definition grow (now need : Z) (draining : list Z) (lockedP : Z -> bool) (locked : Key -> bool) : CM (list StoreErr) :=
  cm! qo <- cm_self;
  cm! ttl <- cm_get cs_leaseTTL;
  let undrain := take (Z.to_nat (Z.min need (Z.of_nat (length draining)))) draining in
  cm! r <- cm_call (SetDraining qo.1 qo.2 undrain false);
  match r with
  | Err e => cm_ret [e]
  | Ok _ =>
      cm> cm_set (fun c => foldl (mark_draining None) c undrain);
      let need := need - Z.of_nat (length undrain) in
      if need =? 0 then cm_ret []
      else
        cm! r <- cm_call (AcquirePartitions qo.1 qo.2 now ttl need lockedP);
        match r with
        | Err e => cm_ret [e]
        | Ok acquired =>
            cm> cm_set (fun c => foldl (add_lease now) c acquired);
            cm! r <- cm_call (ResetStale qo.1 qo.2 (Some (l_Partition <$> acquired)) locked);
            cm_ret (errs r)
        end
  end.

(** The switch of [Rebalance], above its share. *)
Definition shrink (now excess : Z) (active : list Z) : CM (list StoreErr) :=
  cm! qo <- cm_self;
  cm! drain <- cm_get (fun c => drainCandidatesLocked c active excess);
  cm! r <- cm_call (SetDraining qo.1 qo.2 drain true);
  match r with
  | Err e => cm_ret [e]
  | Ok _ =>
      cm> cm_set (fun c => foldl (mark_draining (Some now)) c drain);
      releaseDrained now
  end.

Definition rebalance_share (now target : Z) (lockedP : Z -> bool) (locked : Key -> bool) : CM (list StoreErr) :=
  cm! ad <- cm_get partitionsLocked;
  let n := Z.of_nat (length ad.1) in
  if n <? target then grow now (target - n) ad.2 lockedP locked
  else if target <? n then shrink now (n - target) ad.1
  else cm_ret [].

Definition ensure_seeded : CM (list StoreErr) :=
  cm! qo <- cm_self;
  cm! s <- cm_get seeded;
  if (s : bool) then cm_ret []
  else
    cm! r <- cm_call (EnsurePartitions qo.1);
    match r with
    | Err e => cm_ret [e]
    | Ok _ => cm> cm_set set_seeded; cm_ret []
    end.

Definition Rebalance (now : Z) (lockedP : Z -> bool) (locked : Key -> bool) : CM (list StoreErr) :=
  cm! qo <- cm_self;
  cm! e0 <- ensure_seeded;
  match e0 with
  | _ :: _ => cm_ret e0
  | [] =>
      cm! e1 <- undispatchOrphans;
      cm! e2 <- reconcileInFlight;
      let orphanErr := e1 ++ e2 in
      cm! stop <- cm_get stopping;
      cm! ttl <- cm_get cs_leaseTTL;
      cm! hb <- cm_call (Heartbeat qo.1 qo.2 now ttl (negb stop));
      match hb with
      | Err e => cm_ret (orphanErr ++ [e])
      | Ok (held, members) =>
          cm> cm_set (syncLeases held now);
          cm! e3 <- resetStale now locked;
          match e3 with
          | _ :: _ => cm_ret (orphanErr ++ e3)
          | [] =>
              cm! e4 <- releaseDrained now;
              match e4 with
              | _ :: _ => cm_ret (orphanErr ++ e4)
              | [] =>
                  cm! e5 <- rebalance_share now (share members stop) lockedP locked;
                  cm_ret (orphanErr ++ e5)
              end
          end
      end
  end.

Definition Close : CM (list StoreErr) :=
  cm! qo <- cm_self;
  cm! e1 <- undispatchOrphans;
  cm! r <- cm_call (Leave qo.1 qo.2);
  match r with
  | Err e => cm_ret (e1 ++ [e])
  | Ok _ => cm> cm_set (fun c => set_leases c ∅); cm_ret e1
  end.

(** ** The in-flight counters never overstate

    The counter of a leased partition is at most the number of requests the
    consumer tracks there under the lease's epoch. *)
Definition at_lease (p e : Z) (_ : Key) (t : tracked) : bool :=
  bool_decide (t_partition t = p) && bool_decide (t_epoch t = e).

Definition tracked_at (c : Consumer) (p e : Z) : Z := Z.of_nat (count_where (at_lease p e) (inflight c)).

Definition counters_good (c : Consumer) : Prop :=
  forall p st, leases c !! p = Some st -> 0 <= ps_inflight st <= tracked_at c p (ps_epoch st).

Lemma counters_new queue owner ttl dt : counters_good (NewConsumer queue owner ttl dt).
Proof. intros p st. simpl. by rewrite lookup_empty. Qed.

(** Sections that leave the tracked requests alone. *)
Lemma counters_leases c m :
  (forall p st, m !! p = Some st -> ps_inflight st = 0 \/
     exists st0, leases c !! p = Some st0 /\ ps_epoch st = ps_epoch st0 /\ ps_inflight st = ps_inflight st0) ->
  counters_good c -> counters_good (set_leases c m).
Proof.
  intros Hm Hc p st Hp. simpl in Hp. destruct (Hm _ _ Hp) as [E|(st0 & H0 & -> & ->)].
  - rewrite E. unfold tracked_at. lia.
  - apply (Hc _ _ H0).
Qed.

Lemma counters_untrack k t c :
  inflight c !! k = Some t -> counters_good c -> counters_good (untrackLocked k t c).
Proof.
  intros Hk Hc. unfold untrackLocked. simpl.
  assert (forall p e, tracked_at c p e
    = tracked_at (set_inflight c (delete k (inflight c))) p e + if at_lease p e k t then 1 else 0) as Hcount.
  { intros p e. unfold tracked_at. simpl. rewrite (count_where_delete _ _ _ _ Hk).
    destruct (at_lease p e k t); lia. }
  destruct (leases c !! t_partition t) as [st|] eqn:Hst.
  - destruct (bool_decide (ps_epoch st = t_epoch t) && _) eqn:E; intros p st' Hp; simpl in Hp.
    + apply andb_prop in E as [E1%bool_decide_eq_true_1 E2%bool_decide_eq_true_1].
      apply lookup_insert_Some in Hp as [[<- <-]|[Hne Hp]].
      * specialize (Hc _ _ Hst). rewrite Hcount in Hc. simpl. unfold at_lease in Hc.
        rewrite !bool_decide_true in Hc by done. simpl in Hc. unfold tracked_at in *. simpl in *. lia.
      * specialize (Hc _ _ Hp). rewrite Hcount in Hc. unfold at_lease in Hc.
        rewrite (bool_decide_false (t_partition t = p)) in Hc by done. simpl in Hc.
        unfold tracked_at in *. simpl in *. lia.
    + specialize (Hc _ _ Hp). rewrite Hcount in Hc. unfold at_lease in Hc.
      destruct (decide (t_partition t = p /\ t_epoch t = ps_epoch st')) as [[<- Ee]|Hne].
      * simplify_eq. rewrite (bool_decide_true (ps_epoch st = _)) in E by done.
        rewrite !bool_decide_true in Hc by done. case_bool_decide; [done|]. simpl in *.
        unfold tracked_at in *. simpl in *. lia.
      * destruct (bool_decide (t_partition t = p) && _) eqn:Eb; [|unfold tracked_at in *; simpl in *; lia].
        apply andb_prop in Eb as [?%bool_decide_eq_true_1 ?%bool_decide_eq_true_1]. tauto.
  - intros p st' Hp. simpl in Hp. specialize (Hc _ _ Hp). rewrite Hcount in Hc. unfold at_lease in Hc.
    rewrite (bool_decide_false (t_partition t = p)) in Hc by congruence. simpl in Hc.
    unfold tracked_at in *. simpl in *. lia.
Qed.

Lemma untrack_not_tracked k t c : inflight (untrackLocked k t c) !! k = None.
Proof. unfold untrackLocked. simpl. repeat case_match; simpl; apply lookup_delete_eq. Qed.

Lemma counters_track r c : counters_good c -> counters_good (trackLocked r c).
Proof.
  intros Hc. unfold trackLocked. set (k := request_Key r).
  set (c1 := match inflight c !! k with Some prev => _ | None => c end).
  assert (counters_good c1 /\ inflight c1 !! k = None) as [Hc1 Hk].
  { unfold c1. destruct (inflight c !! k) eqn:E; [|done].
    split; [by apply counters_untrack|apply untrack_not_tracked]. }
  clearbody c1. simpl. set (t := mkTracked _ _ _).
  assert (forall c', inflight c' = <[k := t]> (inflight c1) -> forall p e,
    tracked_at c' p e = tracked_at c1 p e + if at_lease p e k t then 1 else 0) as Hcount.
  { intros c' E p e. unfold tracked_at. rewrite E, count_where_insert by done.
    destruct (at_lease p e k t); lia. }
  destruct (leases c1 !! req_Partition r) as [st|] eqn:Hst.
  - case_bool_decide as E; intros p st' Hp; rewrite Hcount by done; simpl in Hp.
    + apply lookup_insert_Some in Hp as [[<- <-]|[Hne Hp]].
      * specialize (Hc1 _ _ Hst). unfold at_lease. simpl. rewrite !bool_decide_true by done. simpl. lia.
      * specialize (Hc1 _ _ Hp). destruct (at_lease _ _ _ _); lia.
    + specialize (Hc1 _ _ Hp). destruct (at_lease _ _ _ _); lia.
  - intros p st' Hp. rewrite Hcount by done. specialize (Hc1 _ _ Hp). destruct (at_lease _ _ _ _); lia.
Qed.

Lemma counters_track_rows rows : forall c,
  counters_good c -> counters_good (foldl (fun c r => trackLocked r c) c rows).
Proof. induction rows as [|r rows IH]; intros c Hc; [done|]. apply IH, counters_track, Hc. Qed.

Lemma counters_done ss : forall c, counters_good c -> counters_good (doneStamps ss c).
Proof.
  induction ss as [|s ss IH]; intros c Hc; [done|]. apply IH. unfold doneStamp.
  repeat case_match; auto. by apply counters_untrack.
Qed.

Lemma counters_abandon ss : forall c, counters_good c -> counters_good (Abandon ss c).
Proof.
  induction ss as [|s ss IH]; intros c Hc; [done|]. apply IH. unfold abandonStamp.
  repeat case_match; auto. by apply counters_untrack.
Qed.

Lemma counters_sync held now c : counters_good c -> counters_good (syncLeases held now c).
Proof.
  apply counters_leases. cut (forall acc : gmap Z partitionState,
    (forall p st, acc !! p = Some st -> ps_inflight st = 0 \/ exists st0, leases c !! p = Some st0
       /\ ps_epoch st = ps_epoch st0 /\ ps_inflight st = ps_inflight st0) ->
    forall p st, foldl (syncLease c now) acc held !! p = Some st -> ps_inflight st = 0 \/
    exists st0, leases c !! p = Some st0 /\ ps_epoch st = ps_epoch st0 /\ ps_inflight st = ps_inflight st0).
  { intros H. apply H. intros p st. by rewrite lookup_empty. }
  induction held as [|l held IH]; intros acc Hacc; [done|]. apply IH.
  intros p st. unfold syncLease. rewrite lookup_insert_Some. intros [[<- <-]|[_ ?]]; [|eauto]. simpl.
  destruct (leases c !! l_Partition l) as [st0|]; [|by left]. case_bool_decide; [|by left]. eauto.
Qed.

Lemma counters_mark since ps : forall c,
  counters_good c -> counters_good (foldl (mark_draining since) c ps).
Proof.
  induction ps as [|p ps IH]; intros c Hc; [done|]. apply IH. unfold mark_draining.
  destruct (leases c !! p) as [st|] eqn:E; [|done]. apply counters_leases; [|done].
  intros p' st'. rewrite lookup_insert_Some. intros [[<- <-]|[_ ?]]; right; [|eauto].
  exists st. by destruct since.
Qed.

Lemma counters_add now ls : forall c, counters_good c -> counters_good (foldl (add_lease now) c ls).
Proof.
  induction ls as [|l ls IH]; intros c Hc; [done|]. apply IH, counters_leases; [|done].
  intros p st. rewrite lookup_insert_Some. intros [[<- <-]|[_ ?]]; [by left|right; eauto].
Qed.

Lemma counters_release ps c :
  counters_good c -> counters_good (set_leases c (foldl (fun m p => delete p m) (leases c) ps)).
Proof.
  apply counters_leases. cut (forall m, m ⊆ leases c -> foldl (fun m p => delete p m) m ps ⊆ leases c).
  { intros H p st Hp. right. exists st. split; [|done]. eapply lookup_weaken; [exact Hp|by apply H]. }
  induction ps as [|p ps IH]; intros m Hm; [done|]. apply IH. etrans; [apply delete_subseteq|done].
Qed.

(** ** Programs preserve the counters *)
Definition keeps {A : Type} (m : CM A) : Prop :=
  forall w, counters_good (w_c w) -> counters_good (w_c (m w).2).

Create HintDb consumer.

Lemma keeps_ret {A : Type} (a : A) : keeps (cm_ret a).
Proof. by intros w. Qed.
Lemma keeps_bind {A B : Type} (m : CM A) (k : A -> CM B) :
  keeps m -> (forall a, keeps (k a)) -> keeps (cm_bind m k).
Proof.
  intros Hm Hk w Hw. unfold cm_bind. specialize (Hm w Hw). destruct (m w) as [a w'].
  by apply Hk.
Qed.
Lemma keeps_get {A : Type} (f : Consumer -> A) : keeps (cm_get f).
Proof. by intros w. Qed.
Lemma keeps_set f : (forall c, counters_good c -> counters_good (f c)) -> keeps (cm_set f).
Proof. intros Hf w Hw. by apply Hf. Qed.

Lemma interfere_counters il : forall w, counters_good (w_c w) -> counters_good (w_c (foldl interfere w il)).
Proof.
  induction il as [|i il IH]; intros w Hw; [done|]. apply IH.
  destruct i; simpl; auto using counters_done, counters_abandon.
Qed.

Lemma keeps_call {A : Type} (m : DB A) : keeps (cm_call m).
Proof.
  intros w Hw. unfold cm_call. destruct (default _ _) as [[before fs] after].
  destruct (m _) as [r [st' fs']]. simpl. apply interfere_counters. simpl. by apply interfere_counters.
Qed.

#[export] Hint Resolve keeps_ret keeps_bind keeps_get keeps_call keeps_set
  counters_track_rows counters_done counters_abandon counters_sync counters_mark counters_add
  counters_release : consumer.

Ltac keeps_tac :=
  repeat first [progress auto with consumer | progress cbn beta zeta iota | case_match
               | apply keeps_bind; intros].

Lemma keeps_undispatchOrphans : keeps undispatchOrphans.
Proof.
  unfold undispatchOrphans, cm_self.
  keeps_tac.
  apply keeps_set. intros c Hc. generalize (s :: l). intros ss. revert c Hc.
  induction ss as [|s' ss IH]; intros c Hc; [done|]. apply IH. unfold drop_orphan. by case_match.
Qed.

Lemma keeps_reconcileInFlight : keeps reconcileInFlight.
Proof.
  unfold reconcileInFlight, cm_self.
  keeps_tac.
Qed.

Lemma keeps_resetStale now locked : keeps (resetStale now locked).
Proof.
  unfold resetStale, cm_self.
  keeps_tac.
Qed.

Lemma keeps_releaseDrained now : keeps (releaseDrained now).
Proof.
  unfold releaseDrained, cm_self.
  keeps_tac.
Qed.

#[export] Hint Resolve keeps_undispatchOrphans keeps_reconcileInFlight keeps_resetStale
  keeps_releaseDrained : consumer.

Lemma keeps_rebalance_share now target lockedP locked : keeps (rebalance_share now target lockedP locked).
Proof.
  unfold rebalance_share, grow, shrink, cm_self.
  keeps_tac.
Qed.

#[export] Hint Resolve keeps_rebalance_share : consumer.

(** ** Runs of one consumer *)
Inductive consumer_op : Type :=
| OPoll (now limit : Z) (locked : Key -> bool)
| OAck (createdAt : Z) (cs : list Completion)
| ORetry (s : Stamp) (notBefore : Z) (env : string)
| OUndispatch (ss : list Stamp)
| ODefer (ss : list Stamp) (notBefore : Z)
| OAbandon (ss : list Stamp)
| OStop
| ORebalance (now : Z) (lockedP : Z -> bool) (locked : Key -> bool)
| OClose.

Definition op_run (o : consumer_op) : CM unit :=
  match o with
  | OPoll now lim l => cm> Poll now lim l; cm_ret tt
  | OAck t cs => cm> Ack t cs; cm_ret tt
  | ORetry s nb env => cm> Retry s nb env; cm_ret tt
  | OUndispatch ss => cm> Undispatch ss; cm_ret tt
  | ODefer ss nb => cm> Defer ss nb; cm_ret tt
  | OAbandon ss => cm_set (Abandon ss)
  | OStop => cm_set Stop
  | ORebalance now lp l => cm> Rebalance now lp l; cm_ret tt
  | OClose => cm> Close; cm_ret tt
  end.

(** A consumer's operations, each with the world's interference. *)
Fixpoint consumer_run (ops : list (consumer_op * list (list interference * list fault * list interference)))
    (cs : Consumer * Store) : Consumer * Store :=
  match ops with
  | [] => cs
  | (o, env) :: ops' =>
      let w := (op_run o (mkWorld cs.1 cs.2 env)).2 in
      consumer_run ops' (w_c w, w_store w)
  end.

Lemma keeps_op o : keeps (op_run o).
Proof.
  destruct o; unfold op_run, Poll, Ack, Retry, Undispatch, Defer, Rebalance, Close, ensure_seeded, cm_self;
    keeps_tac.
  apply keeps_set. intros c _ p st. simpl. by rewrite lookup_empty.
Qed.

Lemma consumer_run_counters ops : forall cs, counters_good cs.1 -> counters_good (consumer_run ops cs).1.
Proof.
  induction ops as [|[o env] ops IH]; intros cs Hc; [done|]. cbn [consumer_run]. apply IH.
  by apply (keeps_op o (mkWorld cs.1 cs.2 env)).
Qed.

Lemma elem_of_sortInts p l : p ∈ sortInts l <-> p ∈ l.
Proof. unfold sortInts. by rewrite merge_sort_Permutation. Qed.

(** ** The share *)

(** The partitions the consumer holds, and whether each is draining. *)
Definition shape (c : Consumer) : gmap Z bool := ps_draining <$> leases c.

Definition active_count (c : Consumer) : nat := count_where (fun _ d => negb d) (shape c).

Lemma shape_leases c m : shape (set_leases c m) = ps_draining <$> m.
Proof. done. Qed.

Lemma shape_add_inflight c p st d :
  leases c !! p = Some st -> ps_draining <$> <[p := ps_add d st]> (leases c) = shape c.
Proof.
  intros Hp. rewrite fmap_insert. simpl. apply insert_id. unfold shape. by rewrite lookup_fmap, Hp.
Qed.

Lemma shape_untrack k t c : shape (untrackLocked k t c) = shape c.
Proof.
  unfold untrackLocked. simpl. destruct (leases c !! t_partition t) as [st|] eqn:E; [|done].
  destruct (_ && _); [|done]. rewrite shape_leases. simpl. by apply shape_add_inflight.
Qed.

Lemma shape_done ss : forall c, shape (doneStamps ss c) = shape c.
Proof.
  induction ss as [|s ss IH]; intros c; [done|]. unfold doneStamps in *. simpl. rewrite IH.
  unfold doneStamp. repeat case_match; auto using shape_untrack.
Qed.

Lemma shape_abandon ss : forall c, shape (Abandon ss c) = shape c.
Proof.
  induction ss as [|s ss IH]; intros c; [done|]. unfold Abandon in *. simpl. rewrite IH.
  unfold abandonStamp. repeat case_match; auto. by rewrite shape_untrack.
Qed.

Lemma shape_interfere il : forall w, shape (w_c (foldl interfere w il)) = shape (w_c w).
Proof.
  induction il as [|i il IH]; intros w; [done|]. simpl. rewrite IH.
  destruct i; simpl; auto using shape_done, shape_abandon.
Qed.

Lemma shape_call {A : Type} (m : DB A) w : shape (w_c (cm_call m w).2) = shape (w_c w).
Proof.
  unfold cm_call. destruct (default _ _) as [[before fs] after]. destruct (m _) as [r [st' fs']].
  simpl. rewrite shape_interfere. simpl. by rewrite shape_interfere.
Qed.

(** What a call returned, whatever interfered. *)
Lemma cm_call_result {A : Type} (m : DB A) w :
  exists st fs st' fs', m (st, fs) = ((cm_call m w).1, (st', fs')).
Proof.
  unfold cm_call. destruct (default _ _) as [[before fs] after].
  set (st := w_store _). exists st, fs. destruct (m (st, fs)) as [r [st' fs']]. eauto.
Qed.

Lemma shape_mark since c p :
  shape (mark_draining since c p)
  = if decide (is_Some (shape c !! p)) then <[p := bool_decide (since <> None)]> (shape c) else shape c.
Proof.
  unfold mark_draining, shape. rewrite lookup_fmap. destruct (leases c !! p) as [st|] eqn:E.
  - rewrite decide_True by (simpl; eauto). simpl. rewrite fmap_insert. f_equal. by destruct since.
  - rewrite decide_False; [done|]. by intros [].
Qed.

Lemma partitionsLocked_active c : length (partitionsLocked c).1 = active_count c.
Proof.
  unfold partitionsLocked, sortInts, active_count, shape. simpl.
  rewrite merge_sort_Permutation, length_fmap. by rewrite count_where_fmap.
Qed.

Lemma active_undrain ps : forall c,
  (active_count (foldl (mark_draining None) c ps) <= active_count c + length ps)%nat.
Proof.
  induction ps as [|p ps IH]; intros c; simpl; [lia|]. etrans; [apply IH|].
  unfold active_count. rewrite shape_mark. case_decide; [|lia].
  etrans; [apply Nat.add_le_mono_r, count_where_insert_le|lia].
Qed.

Lemma active_add now ls : forall c,
  (active_count (foldl (add_lease now) c ls) <= active_count c + length ls)%nat.
Proof.
  induction ls as [|l ls IH]; intros c; simpl; [lia|]. etrans; [apply IH|].
  unfold active_count, add_lease. rewrite shape_leases, fmap_insert.
  etrans; [apply Nat.add_le_mono_r, count_where_insert_le|unfold shape; lia].
Qed.

Lemma active_release ps c :
  (active_count (set_leases c (foldl (fun m p => delete p m) (leases c) ps)) <= active_count c)%nat.
Proof.
  unfold active_count. rewrite shape_leases. unfold shape. generalize (leases c) as m.
  induction ps as [|p ps IH]; intros m; simpl; [lia|]. etrans; [apply IH|].
  rewrite fmap_delete. apply count_where_delete_le.
Qed.

Lemma active_drain now ps : forall c,
  NoDup ps -> (forall p, p ∈ ps -> shape c !! p = Some false) ->
  (active_count (foldl (mark_draining (Some now)) c ps) + length ps = active_count c)%nat.
Proof.
  induction ps as [|p ps IH]; intros c Hnd Hps; simpl; [lia|].
  apply NoDup_cons in Hnd as [Hni Hnd]. pose proof (Hps p ltac:(left)) as Hp.
  assert (shape (mark_draining (Some now) c p) = <[p := true]> (shape c)) as E.
  { rewrite shape_mark, decide_True by eauto. by rewrite bool_decide_true. }
  assert (S (active_count (mark_draining (Some now) c p)) = active_count c) as <-.
  { unfold active_count. rewrite E. by eapply count_where_overwrite. }
  rewrite <- (IH (mark_draining (Some now) c p)); [lia|done|].
  intros p' Hp'. rewrite E, lookup_insert_ne by (by intros ->). apply Hps. by right.
Qed.

Lemma cm_call_inv {A : Type} (m : DB A) w r w' :
  cm_call m w = (r, w') ->
  shape (w_c w') = shape (w_c w) /\ exists st fs st' fs', m (st, fs) = (r, (st', fs')).
Proof.
  intros E. pose proof (shape_call m w) as H1. pose proof (cm_call_result m w) as H2.
  rewrite E in *. done.
Qed.

Lemma AcquirePartitions_length q o now ttl limit lp st fs ls st' fs' :
  AcquirePartitions q o now ttl limit lp (st, fs) = (Ok ls, (st', fs')) ->
  0 <= limit /\ Z.of_nat (length ls) <= limit.
Proof.
  intros (out & E & ->)%queryLeases_inv. unfold stmt_acquire in E.
  destruct (Z.ltb_spec limit 0); [done|]. injection E as _ <-. split; [done|].
  rewrite merge_sort_Permutation, length_fmap. unfold picked_parts. rewrite length_take. lia.
Qed.

Lemma releaseDrained_active now w : (active_count (w_c (releaseDrained now w).2) <= active_count (w_c w))%nat.
Proof.
  unfold releaseDrained, cm_bind, cm_self, cm_get.
  destruct (cm_call _ w) as [r w1] eqn:E. apply cm_call_inv in E as [E _].
  destruct r as [u|e]; simpl.
  - etrans; [apply active_release|]. unfold active_count. by rewrite E.
  - unfold active_count. by rewrite E.
Qed.

Lemma grow_active now need draining lp l w w' :
  0 <= need -> grow now need draining lp l w = ([], w') ->
  Z.of_nat (active_count (w_c w')) <= Z.of_nat (active_count (w_c w)) + need.
Proof.
  intros Hn. unfold grow, cm_bind, cm_self, cm_get. cbn beta iota. set (un := take _ draining).
  assert (Z.of_nat (length un) <= need) as Hun by (unfold un; rewrite length_take; lia).
  destruct (cm_call _ w) as [[u|e] w1] eqn:E1; [|done]. apply cm_call_inv in E1 as [S1 _].
  unfold cm_set. set (w2 := mkWorld _ _ _).
  assert (active_count (w_c w2) <= active_count (w_c w) + length un)%nat as H2.
  { unfold w2. simpl. etrans; [apply active_undrain|]. unfold active_count. rewrite S1. lia. }
  destruct (Z.eqb_spec (need - Z.of_nat (length un)) 0); [intros [= <-]; lia|].
  destruct (cm_call (AcquirePartitions _ _ _ _ _ _) w2) as [[ls|e] w3] eqn:E3; [|done].
  apply cm_call_inv in E3 as (S3 & st & fs & st' & fs' & Hacq).
  apply AcquirePartitions_length in Hacq as [_ Hls].
  set (w4 := mkWorld (foldl (add_lease now) (w_c w3) ls) _ _).
  destruct (cm_call (ResetStale _ _ _ _) w4) as [r w5] eqn:E5. apply cm_call_inv in E5 as [S5 _].
  unfold cm_ret. intros [= _ <-]. unfold active_count at 1. rewrite S5. fold (active_count (w_c w4)).
  pose proof (active_add now ls (w_c w3)) as H4. unfold w4. simpl.
  unfold active_count in H4 at 2. rewrite S3 in H4. fold (active_count (w_c w2)) in H4. lia.
Qed.

Lemma active_partition p c : p ∈ (partitionsLocked c).1 -> shape c !! p = Some false.
Proof.
  unfold partitionsLocked. cbn [fst]. rewrite elem_of_sortInts.
  intros ([p' st] & -> & [H1 H2]%elem_of_select_where)%list_elem_of_fmap. simpl.
  unfold shape. rewrite lookup_fmap, H1. simpl. by destruct (ps_draining st).
Qed.

Lemma drainCandidates_good c active n :
  NoDup active ->
  NoDup (drainCandidatesLocked c active n)
  /\ length (drainCandidatesLocked c active n) = Nat.min (Z.to_nat n) (length active)
  /\ forall p, p ∈ drainCandidatesLocked c active n -> p ∈ active.
Proof.
  intros Hnd. unfold drainCandidatesLocked, sortInts. set (l := merge_sort (drain_le c) active).
  assert (l ≡ₚ active) as Hl by apply merge_sort_Permutation. split_and!.
  - rewrite merge_sort_Permutation. eapply sublist_NoDup, sublist_take. by rewrite Hl.
  - by rewrite merge_sort_Permutation, length_take, Hl.
  - intros p. rewrite merge_sort_Permutation. intros Hp. rewrite <- Hl.
    eapply elem_of_sublist, sublist_take; eauto.
Qed.

Lemma shrink_active now target w w' :
  let active := (partitionsLocked (w_c w)).1 in
  0 <= target < Z.of_nat (length active) ->
  shrink now (Z.of_nat (length active) - target) active w = ([], w') ->
  Z.of_nat (active_count (w_c w')) <= target.
Proof.
  intros active Ht. unfold shrink, cm_bind, cm_self, cm_get. cbn beta iota.
  assert (NoDup active) as Hnd.
  { unfold active, partitionsLocked, sortInts. cbn [fst]. rewrite merge_sort_Permutation. apply NoDup_select_where_fst. }
  destruct (drainCandidates_good (w_c w) active (Z.of_nat (length active) - target) Hnd) as (D1 & D2 & D3).
  set (drain := drainCandidatesLocked _ _ _) in *.
  destruct (cm_call _ w) as [[u|e] w1] eqn:E1; [|done]. apply cm_call_inv in E1 as [S1 _].
  unfold cm_set. set (w2 := mkWorld _ _ _). intros Hr.
  pose proof (releaseDrained_active now w2) as H2. rewrite Hr in H2. cbn [snd] in H2.
  assert (active_count (w_c w2) + length drain = active_count (w_c w))%nat as H3.
  { unfold w2. simpl. rewrite active_drain; [unfold active_count; by rewrite S1|done|].
    intros p Hp%D3. rewrite S1. by apply active_partition. }
  rewrite <- (partitionsLocked_active (w_c w)) in H3. fold active in H3. lia.
Qed.

(** ** Properties *)

(** The members' shares cover a queue's partitions, and no share can be
    made smaller for all of them. *)
Lemma share_covers members :
  1 <= members ->
  let s := share members false in
  Partitions <= members * s /\ members * (s - 1) < Partitions.
Proof.
  intros Hm. unfold share. rewrite Z.max_r by lia. set (n := Partitions + members - 1).
  pose proof (Z.div_mod n members ltac:(lia)). pose proof (Z.mod_pos_bound n members ltac:(lia)).
  unfold n in *. simpl. split; nia.
Qed.

(** Whatever a consumer and the world around it do, the in-flight counter
    of a leased partition never exceeds the number of requests the consumer
    tracks there; so a draining partition on which nothing is tracked is
    released by the next pass. *)
Theorem consumer_counters ops queue owner ttl dt st0 :
  let c := (consumer_run ops (NewConsumer queue owner ttl dt, st0)).1 in
  counters_good c
  /\ forall p st now, leases c !! p = Some st /\ ps_draining st = true /\ tracked_at c p (ps_epoch st) = 0 ->
     p ∈ drained now c.
Proof.
  intros c. assert (counters_good c) as Hc by apply consumer_run_counters, counters_new.
  split; [done|]. intros p st now (Hp & Hd & Ht). unfold drained. rewrite elem_of_sortInts.
  apply list_elem_of_fmap. exists (p, st). split; [done|]. apply elem_of_select_where.
  specialize (Hc _ _ Hp). rewrite Hd, bool_decide_true by lia. done.
Qed.

(** A rebalance that reports no error leaves the consumer with at most its
    share of active partitions, whatever interferes. *)
Theorem Rebalance_share now target lp l w w' :
  0 <= target -> rebalance_share now target lp l w = ([], w') ->
  Z.of_nat (active_count (w_c w')) <= target.
Proof.
  intros Ht. unfold rebalance_share, cm_bind, cm_get. cbn beta iota.
  pose proof (partitionsLocked_active (w_c w)) as Hlen.
  destruct (Z.ltb_spec (Z.of_nat (length (partitionsLocked (w_c w)).1)) target).
  - intros Hg%grow_active; lia.
  - destruct (Z.ltb_spec target (Z.of_nat (length (partitionsLocked (w_c w)).1))).
    + apply shrink_active. lia.
    + intros [= <-]. lia.
Qed.

Lemma elem_of_uniqueStamps_from ss : forall seen s,
  s ∈ uniqueStamps_from seen ss <-> s ∈ ss /\ s ∉ seen.
Proof.
  induction ss as [|s0 ss IH]; intros seen s; simpl.
  - split; [by intros ?%not_elem_of_nil|by intros [?%not_elem_of_nil _]].
  - case_decide as Hs; rewrite ?elem_of_cons, IH; [set_solver|].
    destruct (decide (s = s0)); set_solver.
Qed.

Lemma elem_of_uniqueStamps ss s : s ∈ uniqueStamps ss <-> s ∈ ss.
Proof. unfold uniqueStamps. rewrite elem_of_uniqueStamps_from. set_solver. Qed.

(** A call nothing interferes with. *)
Lemma cm_call_quiet {A : Type} (m : DB A) c st :
  cm_call m (mkWorld c st []) = let '(r, (st', _)) := m (st, []) in (r, mkWorld c st' []).
Proof. unfold cm_call. simpl. by destruct (m (st, [])) as [r [st' fs']]. Qed.

(** A return of stamps without faults gives back every listed stamp its owner
    holds, and touches no other request. *)
Lemma undispatch_quiet owner ss nb st :
  exists m, undispatch owner ss nb (st, []) = (Ok tt, (set_requests st m, []))
  /\ forall k, m !! k = (fun r => if stamped_for st owner ss k r then defer_row nb r else r) <$> requests st !! k.
Proof.
  assert (forall k r, stamped_for st owner (uniqueStamps ss) k r = stamped_for st owner ss k r) as Hu.
  { intros k r. unfold stamped_for. do 2 f_equal. apply bool_decide_ext, elem_of_uniqueStamps. }
  unfold undispatch. destruct (uniqueStamps ss) as [|s0 ss'] eqn:E.
  - exists (requests st). split; [by destruct st|]. intros k. destruct (requests st !! k) as [r|]; [|done].
    simpl. rewrite <- Hu. unfold stamped_for.
    rewrite (bool_decide_false (_ ∈ [])) by apply not_elem_of_nil. by rewrite andb_false_r.
  - eexists. split; [reflexivity|]. intros k. rewrite lookup_update_where.
    destruct (requests st !! k) as [r|]; [|done]. simpl. by rewrite Hu.
Qed.

Lemma Undispatch_quiet owner ss st :
  exists m, SqlStore.Undispatch owner ss (st, []) = (Ok tt, (set_requests st m, []))
  /\ forall k, m !! k = (fun r => if stamped_for st owner ss k r then defer_row 0 r else r) <$> requests st !! k.
Proof. apply undispatch_quiet. Qed.

Lemma in_flight_epoch st q o k r : in_flight st q o k r = true -> 0 < dispatch_epoch r.
Proof. unfold in_flight. intros [[_ H]%andb_prop _]%andb_prop. by apply bool_decide_eq_true_1 in H. Qed.

(** After a Poll whose dispatch may have been lost, a reconciliation that
    reports no error leaves no request in flight behind: every row still
    stamped for this dispatcher is one it tracks, under the attempt it
    tracks. *)
Theorem reconcile_complete c st e w' k r :
  reconcile c = true ->
  reconcileInFlight (mkWorld c st []) = (e, w') ->
  requests (w_store w') !! k = Some r ->
  in_flight (w_store w') (cs_queue c) (cs_owner c) k r = true ->
  e = [] /\ t_attempt <$> inflight c !! k = Some (dispatch_attempt r).
Proof.
  intros Hrec. unfold reconcileInFlight, cm_bind, cm_self, cm_get. cbn [w_c fst snd]. rewrite Hrec. cbn [negb].
  rewrite cm_call_quiet. unfold InFlight, exec, f_call. cbn [head tail].
  set (stamped := _ <$> select_where _ _). cbn [w_c]. rewrite cm_call_quiet.
  destruct (Undispatch_quiet (cs_owner c) (untracked c stamped) st) as (m & -> & Hm).
  unfold cm_set, cm_ret. cbn [w_c w_store w_env]. intros [= <- <-]. cbn [w_store requests set_requests].
  rewrite Hm. intros (r0 & Hk & Er)%fmap_Some Hin. split; [done|].
  destruct (stamped_for st (cs_owner c) (untracked c stamped) k r0) eqn:Es; subst r;
    [by apply in_flight_epoch in Hin|].
  assert (in_flight st (cs_queue c) (cs_owner c) k r0 = true) as Hin0 by done. clear Hin.
  assert (mkStamp k (dispatch_attempt r0) ∈ stamped) as Hst.
  { apply list_elem_of_fmap. exists (k, r0). split; [done|]. by apply elem_of_select_where. }
  destruct (decide (t_attempt <$> inflight c !! k = Some (dispatch_attempt r0))) as [|Hne]; [done|exfalso].
  unfold stamped_for in Es. rewrite (bool_decide_true (_ ∈ _)) in Es
    by (unfold untracked; apply list_elem_of_filter; done).
  unfold in_flight in Hin0. apply andb_prop in Hin0 as [[_ H1]%andb_prop H2]. rewrite H1 in Es. simpl in Es.
  unfold owned_by in Es. destruct (part_of st r0) as [p|]; [|done]. by destruct (bool_decide (p_owner p = cs_owner c)).
Qed.

(** The run of [early_release]: a rebalance whose AcquirePartitions commits and
    loses its reply, a poll, another rebalance, and a stop; the clock stands
    still and the drain timeout is an hour. *)
Definition early_ops : list (consumer_op * list (list interference * list fault * list interference)) :=
  [(ORebalance 0 w_nolock w_nolock, [([], [], []); ([], [], []); ([], [], []); ([], [], []); ([], [], []);
                                     ([], [FReply], [])]);
   (OPoll 0 10 w_nolock, []);
   (ORebalance 0 w_nolock w_nolock, []);
   (OStop, []);
   (ORebalance 0 w_nolock w_nolock, [])].

Definition early_end : Consumer * Store :=
  consumer_run early_ops (NewConsumer "q" "d1" (30 * Second) (60 * Minute), w_enqueued).

(** A lease whose acquisition was committed but not reported is entered
    with an in-flight counter of zero although requests of it were dispatched
    meanwhile: when the consumer then drains, it releases the partition at
    once, with the request still in flight and the drain timeout not over. *)
Theorem early_release :
  let '(c, st) := early_end in
  is_Some (inflight c !! w_key)
  /\ (exists r, requests st !! w_key = Some r /\ 0 < dispatch_epoch r
        /\ p_owner <$> partitions st !! (queue r, partition_id r) = Some "")
  /\ leases c = ∅.
Proof.
  assert (match early_end with
          | (c, st) =>
              bool_decide (is_Some (inflight c !! w_key))
              && match requests st !! w_key with
                 | Some r => bool_decide (0 < dispatch_epoch r)
                             && bool_decide (p_owner <$> partitions st !! (queue r, partition_id r) = Some "")
                 | None => false
                 end
              && bool_decide (leases c = ∅)
          end = true) as H by by_vm.
  destruct early_end as [c st]. apply andb_prop in H as [[H1 H2]%andb_prop H3].
  split; [by apply bool_decide_eq_true_1 in H1|]. split.
  - destruct (requests st !! w_key) as [r|]; [|done]. exists r.
    apply andb_prop in H2 as [H2 H4]. by apply bool_decide_eq_true_1 in H2, H4.
  - by apply bool_decide_eq_true_1 in H3.
Qed.

(** ** Witnesses *)
Definition w_world : World :=
  mkWorld (NewConsumer "q" "d2" (30 * Second) Minute) w_ensured [([], [FNone], [IStop])].

Lemma Rebalance_share_witness :
  Z.of_nat (active_count (w_c (rebalance_share 0 (share 3 false) w_nolock w_nolock w_world).2)) <= share 3 false.
Proof.
  apply (Rebalance_share 0 (share 3 false) w_nolock w_nolock w_world); [vm_compute; discriminate|].
  apply surjective_pairing_eq. by_vm.
Defined.

Definition w_lost : Consumer :=
  set_inflight (set_reconcile (NewConsumer "q" "d1" (30 * Second) Minute) true)
    {[w_key := mkTracked (partitionOf "r1") 1 1]}.

Lemma reconcile_complete_witness :
  @nil StoreErr = [] /\ t_attempt <$> inflight w_lost !! w_key = Some (dispatch_attempt w_row).
Proof.
  apply (reconcile_complete w_lost w_dispatched [] (reconcileInFlight (mkWorld w_lost w_dispatched [])).2 w_key w_row).
  - by_vm.
  - apply surjective_pairing_eq. by_vm.
  - by_vm.
  - by_vm.
Defined.
