(* ===== verification/SqlQuotaDb.v ===== *)
(** * The quota tables of the SQL transport

    [producer-sql/sqlqueue/quota.go] and the functions [async_quota_acquire],
    [async_quota_admit] and [async_quota_reap] of the schema: concurrency slots
    counted per holder while the holder's lease lives, and rate admissions
    logged per key and window.  Each statement takes the clock readings it
    makes as arguments; rows a statement picks without an order are arguments
    too.  The theorems are over every sequence of statements on a clock that
    does not run backwards. *)
From stdpp Require Import prelude gmap strings list.
From Stdlib Require Import ZArith Lia.
From S2P Require Import Prelude.

#[local] Open Scope Z_scope.

(** ** Tables *)
Record admit_row : Type := mkAdmit {
  a_key : string;
  a_window : Z;
  a_at : Z;
  a_n : Z
}.

Record QuotaDb : Type := mkQuotaDb {
  q_keys : gset string;
  q_holders : gmap string Z;               (* holder -> expires_ms *)
  q_slots : gmap (string * string) Z;      (* (key, holder) -> used *)
  q_windows : gmap (string * Z) Z;         (* (key, window_ms) -> used *)
  q_admits : list admit_row
}.

Definition emptyQuota : QuotaDb := mkQuotaDb ∅ ∅ ∅ ∅ [].

Definition set_keys (db : QuotaDb) (x : gset string) : QuotaDb :=
  mkQuotaDb x (q_holders db) (q_slots db) (q_windows db) (q_admits db).
Definition set_holders (db : QuotaDb) (x : gmap string Z) : QuotaDb :=
  mkQuotaDb (q_keys db) x (q_slots db) (q_windows db) (q_admits db).
Definition set_slots (db : QuotaDb) (x : gmap (string * string) Z) : QuotaDb :=
  mkQuotaDb (q_keys db) (q_holders db) x (q_windows db) (q_admits db).
Definition set_rate (db : QuotaDb) (ws : gmap (string * Z) Z) (l : list admit_row) : QuotaDb :=
  mkQuotaDb (q_keys db) (q_holders db) (q_slots db) ws l.

Inductive QuotaErr : Type :=
| ErrQuotaStatement      (* the driver or the server reported an error *)
| ErrQuotaHolderLapsed
| ErrQuotaArguments.

Abbreviation QDB := (Faulty QuotaDb QuotaErr).
Definition qstmt (A : Type) : Type := QuotaDb -> Res QuotaErr (QuotaDb * A).

#[local] Open Scope faulty_scope.

(** INTEGER columns and arguments are 32 bits wide. *)
Definition int32 (z : Z) : bool := (- 2 ^ 31 <=? z) && (z <? 2 ^ 31).

Definition Milliseconds (d : Z) : Z := Z.quot d Millisecond.

Definition live (db : QuotaDb) (now : Z) (holder : string) : bool :=
  match q_holders db !! holder with
  | Some expires => now <? expires
  | None => false
  end.

(** The slots of [key] whose holder's lease lives: the sum the acquire
    statement makes. *)
Definition slot_value (db : QuotaDb) (now : Z) (key : string) (kh : string * string) (used : Z) : Z :=
  if bool_decide (kh.1 = key) && live db now kh.2 then used else 0.

Definition live_used (db : QuotaDb) (now : Z) (key : string) : Z :=
  map_sum (slot_value db now key) (q_slots db).

(** ** Statements *)
Definition stmt_register (holder : string) (ttl now : Z) : qstmt unit := fun db =>
  match q_holders db !! holder with
  | Some _ => Err ErrQuotaStatement
  | None => Ok (set_holders db (<[holder := now + ttl]> (q_holders db)), tt)
  end.

(** The clock is read once to find the row and once to write it. *)
Definition stmt_renew (holder : string) (ttl now later : Z) : qstmt bool := fun db =>
  if live db now holder
  then Ok (set_holders db (<[holder := later + ttl]> (q_holders db)), true)
  else Ok (db, false).

Definition async_quota_acquire (p_key p_holder : string) (p_n p_limit v_now : Z) : qstmt Z := fun db0 =>
  if negb (int32 p_n && int32 p_limit) then Err ErrQuotaStatement else
  let db := set_keys db0 ({[p_key]} ∪ q_keys db0) in
  if negb (live db v_now p_holder) then Ok (db, -1) else
  let v_used := live_used db v_now p_key in
  let v_grant := Z.min p_n (Z.max (p_limit - v_used) 0) in
  if 0 <? v_grant then
    let used := default 0 (q_slots db !! (p_key, p_holder)) + v_grant in
    if int32 used then Ok (set_slots db (<[(p_key, p_holder) := used]> (q_slots db)), v_grant)
    else Err ErrQuotaStatement
  else Ok (db, v_grant).

(** The row of unnest(keys, counts) that names [key]. *)
Fixpoint release_count (keys : list string) (counts : list Z) (key : string) : option Z :=
  match keys, counts with
  | k :: keys', n :: counts' => if decide (k = key) then Some n else release_count keys' counts' key
  | _, _ => None
  end.

Definition released (holder : string) (keys : list string) (counts : list Z)
    (kh : string * string) (used : Z) : Z :=
  if decide (kh.2 = holder) then
    match release_count keys counts kh.1 with
    | Some n => Z.max (used - n) 0
    | None => used
    end
  else used.

Definition stmt_release_slots (holder : string) (keys : list string) (counts : list Z) : qstmt unit := fun db =>
  Ok (set_slots db (map_imap (fun kh u => Some (released holder keys counts kh u)) (q_slots db)), tt).

Definition expired_admit (key : string) (window now : Z) (r : admit_row) : bool :=
  bool_decide (a_key r = key) && bool_decide (a_window r = window) && (a_at r <=? now - window).

Definition admits_sum (l : list admit_row) : Z := sum_list_Z (a_n <$> l).

Definition async_quota_admit (p_key : string) (p_n p_limit p_window_ms v_now : Z) : qstmt Z := fun db =>
  if negb (int32 p_n && int32 p_limit) then Err ErrQuotaStatement else
  let used0 := default 0 (q_windows db !! (p_key, p_window_ms)) in
  let gone := filter (fun r => expired_admit p_key p_window_ms v_now r = true) (q_admits db) in
  let kept := filter (fun r => expired_admit p_key p_window_ms v_now r = false) (q_admits db) in
  let v_expired := admits_sum gone in
  let v_used := used0 - v_expired in
  let v_grant := Z.min p_n (Z.max (p_limit - v_used) 0) in
  let admits := if 0 <? v_grant then kept ++ [mkAdmit p_key p_window_ms v_now v_grant] else kept in
  let used1 := if (0 <? v_grant) || (0 <? v_expired) then v_used + v_grant else used0 in
  Ok (set_rate db (<[(p_key, p_window_ms) := used1]> (q_windows db)) admits, v_grant).

Definition stmt_delete_holders (gone : string -> Z -> bool) : qstmt unit := fun db =>
  Ok (set_slots (set_holders db (delete_where gone (q_holders db)))
        (delete_where (fun kh _ => match q_holders db !! kh.2 with
                                   | Some e => gone kh.2 e
                                   | None => false
                                   end) (q_slots db)), tt).

(** The rows a SELECT without ORDER BY takes, up to its LIMIT: those of an
    enumeration of the unlocked rows that satisfy its WHERE. *)
Definition picked {A : Type} `{EqDecision A} (limit : Z) (ok : A -> bool) (order : list A) : list A :=
  take (Z.to_nat limit) (filter (fun x => ok x = true) (remove_dups order)).

Definition reap_window (v_now : Z) (db : QuotaDb) (kw : string * Z) : QuotaDb :=
  let gone := filter (fun r => expired_admit kw.1 kw.2 v_now r = true) (q_admits db) in
  let kept := filter (fun r => expired_admit kw.1 kw.2 v_now r = false) (q_admits db) in
  set_rate db (alter (fun used => used - admits_sum gone) kw (q_windows db)) kept.

Definition has_expired (db : QuotaDb) (v_now : Z) (kw : string * Z) : bool :=
  bool_decide (is_Some (q_windows db !! kw)) && existsb (expired_admit kw.1 kw.2 v_now) (q_admits db).

Definition idle_window (db : QuotaDb) (kw : string * Z) : bool :=
  bool_decide (q_windows db !! kw = Some 0)
  && negb (existsb (fun r => bool_decide (a_key r = kw.1) && bool_decide (a_window r = kw.2)) (q_admits db)).

Definition idle_slot (db : QuotaDb) (kh : string * string) : bool :=
  bool_decide (q_slots db !! kh = Some 0).

Definition idle_key (db : QuotaDb) (k : string) : bool :=
  bool_decide (k ∈ q_keys db) && negb (existsb (fun kh => bool_decide (kh.1 = k)) (map_to_list (q_slots db)).*1).

Definition delete_all {K V : Type} `{Countable K} (ks : list K) (m : gmap K V) : gmap K V :=
  foldr (fun k m => delete k m) m ks.

(** What the reaper finds, in the order it finds it. *)
Record reap_order : Type := mkReapOrder {
  ro_expired : list (string * Z);
  ro_windows : list (string * Z);
  ro_slots : list (string * string);
  ro_keys : list string
}.

Definition async_quota_reap (p_limit v_now : Z) (o : reap_order) : qstmt Z := fun db =>
  if p_limit <? 0 then Err ErrQuotaStatement else
  let ws := picked p_limit (has_expired db v_now) (ro_expired o) in
  let db1 := foldl (reap_window v_now) db ws in
  let idle := picked p_limit (idle_window db1) (ro_windows o) in
  let db2 := set_rate db1 (delete_all idle (q_windows db1)) (q_admits db1) in
  let slots := picked p_limit (idle_slot db2) (ro_slots o) in
  let db3 := set_slots db2 (delete_all slots (q_slots db2)) in
  let keys := picked p_limit (idle_key db3) (ro_keys o) in
  Ok (set_keys db3 (q_keys db3 ∖ list_to_set keys),
      Z.of_nat (length ws + length idle + length slots + length keys)).

(** ** Methods of the store *)
Definition RegisterQuotaHolder (holder : string) (ttl now : Z) : QDB unit :=
  f_call ErrQuotaStatement (stmt_register holder (Milliseconds ttl) now).

Definition RenewQuotaHolder (holder : string) (ttl now later : Z) : QDB bool :=
  f_call ErrQuotaStatement (stmt_renew holder (Milliseconds ttl) now later).

Definition AcquireQuotaSlots (holder key : string) (n limit now : Z) : QDB Z :=
  do! granted <- f_call ErrQuotaStatement (async_quota_acquire key holder n limit now);
  if granted <? 0 then f_fail ErrQuotaHolderLapsed else f_ret granted.

Definition ReleaseQuotaSlots (holder : string) (keys : list string) (counts : list Z) : QDB unit :=
  if decide (length keys = length counts)
  then f_call ErrQuotaStatement (stmt_release_slots holder keys counts)
  else f_fail ErrQuotaArguments.

Definition AdmitQuota (key : string) (n limit window now : Z) : QDB Z :=
  f_call ErrQuotaStatement (async_quota_admit key n limit (Milliseconds window) now).

Definition DeleteQuotaHolder (holder : string) : QDB unit :=
  f_call ErrQuotaStatement (stmt_delete_holders (fun h _ => bool_decide (h = holder))).

Definition ReapQuotaHolders (grace now : Z) : QDB unit :=
  f_call ErrQuotaStatement (stmt_delete_holders (fun _ e => e <? now - Milliseconds grace)).

Definition ReapQuota (limit now : Z) (o : reap_order) : QDB Z :=
  f_call ErrQuotaStatement (async_quota_reap limit now o).

(** ** Runs of statements *)
Inductive quota_op : Type :=
| QRegister (holder : string) (ttl : Z)
| QRenew (holder : string) (ttl delay : Z)
| QAcquire (key holder : string) (n limit : Z)
| QRelease (holder : string) (keys : list string) (counts : list Z)
| QAdmit (key : string) (n limit window : Z)
| QDelete (holder : string)
| QReapHolders (grace : Z)
| QReap (limit : Z) (o : reap_order).

Definition q_void {A : Type} (r : Res QuotaErr (QuotaDb * A)) : Res QuotaErr (QuotaDb * Z) :=
  match r with
  | Ok (db, _) => Ok (db, 0)
  | Err e => Err e
  end.

(** The tables after a statement issued at [now], with the number it granted. *)
Definition q_exec (op : quota_op) (now : Z) (db : QuotaDb) : Res QuotaErr (QuotaDb * Z) :=
  match op with
  | QRegister h ttl => q_void (stmt_register h ttl now db)
  | QRenew h ttl delay => q_void (stmt_renew h ttl now (now + delay) db)
  | QAcquire key h n limit => async_quota_acquire key h n limit now db
  | QRelease h keys counts => q_void (stmt_release_slots h keys counts db)
  | QAdmit key n limit window => async_quota_admit key n limit window now db
  | QDelete h => q_void (stmt_delete_holders (fun h' _ => bool_decide (h' = h)) db)
  | QReapHolders grace => q_void (stmt_delete_holders (fun _ e => e <? now - grace) db)
  | QReap limit o => async_quota_reap limit now o db
  end.

(** The limits statements use: [Ls key] bounds the slot limits given for
    [key], [Lr key window] the rate limits; the counts asked for and released
    are not negative. *)
Definition op_within (Ls : string -> Z) (Lr : string -> Z -> Z) (op : quota_op) : Prop :=
  match op with
  | QAcquire key _ _ limit => limit <= Ls key
  | QAdmit key n limit window => 0 <= n /\ limit <= Lr key window
  | QRelease _ _ counts => Forall (fun n => 0 <= n) counts
  | QRenew _ _ delay => 0 <= delay
  | _ => True
  end.

Definition admitted (op : quota_op) (now granted : Z) : list admit_row :=
  match op with
  | QAdmit key _ _ window => if 0 <? granted then [mkAdmit key window now granted] else []
  | _ => []
  end.

(** [quota_run Ls Lr now db log]: some statements, at times that never
    decrease and are at most [now], leave the tables [db]; [log] holds every
    admission they granted. *)
Inductive quota_run (Ls : string -> Z) (Lr : string -> Z -> Z) : Z -> QuotaDb -> list admit_row -> Prop :=
| run_start now : quota_run Ls Lr now emptyQuota []
| run_wait now now' db log :
    quota_run Ls Lr now db log -> now <= now' -> quota_run Ls Lr now' db log
| run_step now db log op db' granted :
    quota_run Ls Lr now db log ->
    op_within Ls Lr op ->
    q_exec op now db = Ok (db', granted) ->
    quota_run Ls Lr now db' (log ++ admitted op now granted).

(** ** Slots *)
Definition slots_wf (db : QuotaDb) : Prop :=
  forall key h u, q_slots db !! (key, h) = Some u -> 0 <= u /\ is_Some (q_holders db !! h).

Lemma slot_value_le (db db' : QuotaDb) now now' key kh u u' :
  0 <= u' -> u <= u' -> (live db' now' kh.2 = true -> live db now kh.2 = true) ->
  slot_value db' now' key kh u <= slot_value db now key kh u'.
Proof.
  intros H0 Hu Hl. unfold slot_value. case_bool_decide; simpl; [|done].
  destruct (live db' now' kh.2), (live db now kh.2); try lia; naive_solver.
Qed.

(** Every slot row of [db'] was a row of [db], no smaller then and live then if
    it is live now. *)
Definition shrinks (db : QuotaDb) (now : Z) (db' : QuotaDb) (now' : Z) : Prop :=
  forall key h u, q_slots db' !! (key, h) = Some u ->
    exists u', q_slots db !! (key, h) = Some u' /\ u <= u' /\
      (live db' now' h = true -> live db now h = true).

Lemma live_used_shrinks db now db' now' key :
  slots_wf db -> shrinks db now db' now' -> live_used db' now' key <= live_used db now key.
Proof.
  intros Hwf Hs. apply map_sum_mono.
  - intros [k h] u Hu. right. destruct (Hs k h u Hu) as (u' & Hu' & Hle & Hl).
    exists u'. split; [done|]. apply slot_value_le; [by eapply Hwf|done|done].
  - intros [k h] u Hu. unfold slot_value. case_bool_decide; simpl; [|done].
    destruct (live db now h); [|done]. by eapply Hwf.
Qed.

Lemma live_later db h now now' : now <= now' -> live db now' h = true -> live db now h = true.
Proof. unfold live. destruct (q_holders db !! h); [|done]. lia. Qed.

Lemma lookup_delete_all {K V : Type} `{Countable K} (ks : list K) (m : gmap K V) k v :
  delete_all ks m !! k = Some v -> m !! k = Some v.
Proof.
  unfold delete_all. induction ks as [|j ks IH]; simpl; [done|].
  intros ?%lookup_delete_Some. naive_solver.
Qed.

Lemma reap_window_slots v_now ws : forall db,
  q_slots (foldl (reap_window v_now) db ws) = q_slots db /\
  q_holders (foldl (reap_window v_now) db ws) = q_holders db.
Proof. induction ws as [|kw ws IH]; intros db; simpl; [done|]. by destruct (IH (reap_window v_now db kw)). Qed.

Lemma delete_holders_shrinks gone now now' db :
  slots_wf db -> now <= now' ->
  let db' := set_slots (set_holders db (delete_where gone (q_holders db)))
        (delete_where (fun kh _ => match q_holders db !! kh.2 with
                                   | Some e => gone kh.2 e
                                   | None => false
                                   end) (q_slots db)) in
  slots_wf db' /\ shrinks db now db' now'.
Proof.
  intros Hwf Hnow db'. split; intros k h u Hu; simpl in *;
    apply lookup_delete_where_Some in Hu as [Hu Hg]; simpl in Hg.
  - destruct (Hwf _ _ _ Hu) as [? [e He]]. rewrite He in Hg. split; [done|].
    exists e. by apply lookup_delete_where_Some.
  - exists u. repeat split; [done|lia|]. unfold live; simpl.
    destruct (delete_where gone (q_holders db) !! h) as [e|] eqn:Ed; [|done].
    apply lookup_delete_where_Some in Ed as [-> _]. lia.
Qed.

(** The slot rows are among those of [db], and the holders they name keep their
    rows. *)
Lemma same_slots_shrinks now now' db db' :
  slots_wf db -> now <= now' ->
  (forall k h u, q_slots db' !! (k, h) = Some u -> q_slots db !! (k, h) = Some u) ->
  (forall h, is_Some (q_holders db !! h) -> is_Some (q_holders db' !! h)) ->
  (forall h, is_Some (q_holders db !! h) -> live db' now' h = true -> live db now' h = true) ->
  slots_wf db' /\ shrinks db now db' now'.
Proof.
  intros Hwf Hnow Hs Hh Hl. split; intros k h u Hu%Hs; destruct (Hwf _ _ _ Hu) as [? Hown].
  - eauto.
  - exists u. repeat split; [done|lia|]. intros. eapply live_later; eauto.
Qed.

Lemma register_shrinks holder ttl now now' db db' x :
  slots_wf db -> now <= now' -> stmt_register holder ttl now' db = Ok (db', x) ->
  slots_wf db' /\ shrinks db now db' now'.
Proof.
  intros Hwf Hnow He. unfold stmt_register in He. destruct (q_holders db !! holder) eqn:Eh; simplify_eq/=.
  apply same_slots_shrinks; [done..| |]; intros h [e He]; assert (h <> holder) by congruence;
    unfold live; simpl; rewrite lookup_insert_ne by done; by rewrite He.
Qed.

Lemma renew_shrinks holder ttl now now' later db db' x :
  slots_wf db -> now <= now' -> stmt_renew holder ttl now' later db = Ok (db', x) ->
  slots_wf db' /\ shrinks db now db' now'.
Proof.
  intros Hwf Hnow He. unfold stmt_renew in He. destruct (live db now' holder) eqn:El; simplify_eq/=;
    apply same_slots_shrinks; try done; intros h Hh; simpl; destruct (decide (h = holder)) as [->|].
  - by rewrite lookup_insert_eq.
  - by rewrite lookup_insert_ne.
  - done.
  - unfold live; simpl. by rewrite lookup_insert_ne.
Qed.

Lemma release_count_nonneg keys counts k n :
  Forall (fun n => 0 <= n) counts -> release_count keys counts k = Some n -> 0 <= n.
Proof.
  revert counts. induction keys as [|j keys IH]; intros [|m counts] Hok; simpl; try done.
  inversion Hok; subst. case_decide; [by intros [= <-]|eauto].
Qed.

Lemma release_shrinks holder keys counts now now' db db' x :
  slots_wf db -> now <= now' -> Forall (fun n => 0 <= n) counts ->
  stmt_release_slots holder keys counts db = Ok (db', x) ->
  slots_wf db' /\ shrinks db now db' now'.
Proof.
  intros Hwf Hnow Hc He. unfold stmt_release_slots in He. simplify_eq/=.
  assert (forall k h u, map_imap (fun kh u => Some (released holder keys counts kh u)) (q_slots db) !! (k, h) = Some u ->
    exists u', q_slots db !! (k, h) = Some u' /\ 0 <= u <= u') as Hrel.
  { intros k h u. rewrite map_lookup_imap. destruct (q_slots db !! (k, h)) as [u'|] eqn:Eu; [|done].
    simpl. intros [= <-]. exists u'. split; [done|]. unfold released; simpl.
    destruct (Hwf _ _ _ Eu) as [? _]. case_decide; [|lia].
    destruct (release_count keys counts k) eqn:Er; [|lia].
    eapply release_count_nonneg in Er; [|done]. lia. }
  split; intros k h u Hu; destruct (Hrel k h u Hu) as (u' & Hu' & ?); destruct (Hwf _ _ _ Hu') as [? ?].
  - split; [lia|done].
  - exists u'. repeat split; [done|lia|]. by apply (live_later db).
Qed.

(** Every statement but an acquire keeps the slots or takes from them, and no
    holder it adds or renews brings slots back. *)
Lemma op_shrinks Ls Lr op now now' db db' g :
  slots_wf db -> now <= now' -> op_within Ls Lr op ->
  (forall key h n limit, op <> QAcquire key h n limit) ->
  q_exec op now' db = Ok (db', g) ->
  slots_wf db' /\ shrinks db now db' now'.
Proof.
  intros Hwf Hnow Hok Hna He. destruct op; simpl in He, Hok.
  - destruct (stmt_register _ _ _ _) as [[? []]|] eqn:E; simplify_eq/=. by eapply register_shrinks.
  - destruct (stmt_renew _ _ _ _ _) as [[? ?]|] eqn:E; simplify_eq/=. by eapply renew_shrinks.
  - by destruct (Hna key holder n limit).
  - simplify_eq/=. by eapply release_shrinks.
  - unfold async_quota_admit in He. case_match; simplify_eq/=. by apply same_slots_shrinks.
  - simplify_eq/=. by apply delete_holders_shrinks.
  - simplify_eq/=. by apply delete_holders_shrinks.
  - unfold async_quota_reap in He. case_match; simplify_eq/=.
    pose proof (reap_window_slots now' (picked limit (has_expired db now') (ro_expired o)) db) as [Es Eh].
    apply same_slots_shrinks; [done..| | |]; simpl.
    + intros k h u Hu%lookup_delete_all. by rewrite Es in Hu.
    + by rewrite Eh.
    + unfold live; simpl. by rewrite Eh.
Qed.

Lemma live_set_keys db x now h : live (set_keys db x) now h = live db now h.
Proof. done. Qed.

(** An acquire grants no more than the limit leaves. *)
Lemma acquire_spec key holder n limit now db db' g :
  slots_wf db -> async_quota_acquire key holder n limit now db = Ok (db', g) ->
  slots_wf db' /\ q_holders db' = q_holders db /\ g <= Z.max n 0 /\
  (0 < g -> live db now holder = true /\ g <= limit - live_used db now key) /\
  (forall kh, q_slots db' !! kh = if decide (kh = (key, holder) /\ 0 < g)
                                  then Some (default 0 (q_slots db !! kh) + g) else q_slots db !! kh).
Proof.
  intros Hwf He. unfold async_quota_acquire in He. case_match; [done|].
  rewrite live_set_keys in He.
  change (live_used (set_keys db _) now key) with (live_used db now key) in He.
  destruct (live db now holder) eqn:El; simpl in He; simplify_eq/=.
  2:{ split_and!; [done|done|lia|lia|]. intros kh. case_decide; [lia|done]. }
  set (g0 := Z.min n (Z.max (limit - live_used db now key) 0)) in *.
  destruct (0 <? g0) eqn:Eg.
  - case_match; simplify_eq/=. split_and!; [|done|lia| |].
    + intros k h u Hu; simpl in *. destruct (decide ((key, holder) = (k, h))) as [[= <- <-]|Hne].
      * rewrite lookup_insert_eq in Hu. injection Hu as <-. unfold live in El.
        destruct (q_holders db !! holder) eqn:E; [|done]. split; [|done].
        destruct (q_slots db !! (key, holder)) eqn:E'; simpl; [destruct (Hwf _ _ _ E'); lia|lia].
      * rewrite lookup_insert_ne in Hu by done. by eapply Hwf.
    + lia.
    + intros kh. case_decide as Hd; simpl.
      * destruct Hd as [-> _]. by rewrite lookup_insert_eq.
      * rewrite lookup_insert_ne; [done|]. intros <-. apply Hd. split; [done|lia].
  - simplify_eq/=. split_and!; [done|done|lia|lia|]. intros kh. case_decide; [lia|done].
Qed.

Lemma live_used_acquire key holder n limit now db db' g key' :
  slots_wf db -> async_quota_acquire key holder n limit now db = Ok (db', g) ->
  live_used db' now key' = live_used db now key' + if decide (key' = key /\ 0 < g) then g else 0.
Proof.
  intros Hwf He. destruct (acquire_spec _ _ _ _ _ _ _ _ Hwf He) as (_ & Hh & _ & Hg & Hs).
  assert (slot_value db' now key' = slot_value db now key') as Hsv.
  { unfold slot_value, live. by rewrite Hh. }
  unfold live_used. rewrite Hsv. destruct (decide (0 < g)) as [Hpos|Hz].
  2:{ assert (q_slots db' = q_slots db) as ->.
      { apply map_eq. intros kh. rewrite Hs. destruct (decide _) as [[_ ?]|]; [lia|]. reflexivity. }
      destruct (decide _) as [[_ ?]|]; [done|by rewrite Z.add_0_r]. }
  destruct (Hg Hpos) as [El _].
  assert (q_slots db' = <[(key, holder) := default 0 (q_slots db !! (key, holder)) + g]> (q_slots db)) as ->.
  { apply map_eq. intros kh. rewrite Hs. destruct (decide (kh = (key, holder) /\ 0 < g)) as [[-> _]|Hd].
    - by rewrite lookup_insert_eq.
    - rewrite lookup_insert_ne; [done|]. intros <-. by apply Hd. }
  assert (forall u, slot_value db now key' (key, holder) u = if decide (key' = key) then u else 0) as Hv.
  { intros u. unfold slot_value; simpl. rewrite El.
    destruct (decide (key' = key)); case_bool_decide; naive_solver. }
  destruct (q_slots db !! (key, holder)) as [u|] eqn:E; simpl.
  - rewrite (map_sum_overwrite _ _ _ _ _ E), !Hv.
    destruct (decide (key' = key /\ 0 < g)), (decide (key' = key)); naive_solver lia.
  - rewrite map_sum_insert, !Hv by done.
    destruct (decide (key' = key /\ 0 < g)), (decide (key' = key)); naive_solver lia.
Qed.

Lemma slots_run Ls Lr now db log :
  (forall key, 0 <= Ls key) -> quota_run Ls Lr now db log ->
  slots_wf db /\ forall key, live_used db now key <= Ls key.
Proof.
  intros HL. induction 1 as [now|now now' db log Hrun [Hwf IH] Hnow|now db log op db' g Hrun [Hwf IH] Hok He].
  { split; [by intros ???|]. intros key. unfold live_used; simpl. by rewrite map_sum_empty. }
  { split; [done|]. intros key. etrans; [|apply (IH key)]. apply live_used_shrinks; [done|].
    intros k j u Hu. exists u. repeat split; [done|lia|]. by apply live_later. }
  assert ((forall key h n limit, op <> QAcquire key h n limit) \/
    exists key h n limit, op = QAcquire key h n limit) as [Hna|(key & h & n & limit & ->)].
  { destruct op; first [left; by intros | right; by eauto]. }
  - destruct (op_shrinks _ _ _ _ _ _ _ _ Hwf (Z.le_refl now) Hok Hna He) as [Hwf' Hs]. split; [done|].
    intros key. pose proof (live_used_shrinks db now db' now key Hwf Hs). pose proof (IH key). lia.
  - simpl in He, Hok. destruct (acquire_spec _ _ _ _ _ _ _ _ Hwf He) as (Hwf' & _ & _ & Hg & _).
    split; [done|]. intros key'. rewrite (live_used_acquire _ _ _ _ _ _ _ _ _ Hwf He).
    pose proof (IH key'). destruct (decide (key' = key /\ 0 < g)) as [[-> Hpos]|]; [|lia].
    destruct (Hg Hpos) as [_ ?]. lia.
Qed.

(** ** Rates *)
Definition of_kw (key : string) (w : Z) (r : admit_row) : Prop := a_key r = key /\ a_window r = w.
#[local] Instance of_kw_dec key w r : Decision (of_kw key w r).
Proof. unfold of_kw. apply _. Defined.

(** The admissions of [key] under window [w] after time [c], and what they
    total up to [c + w]. *)
Definition kw_after (key : string) (w c : Z) (l : list admit_row) : list admit_row :=
  filter (fun r => of_kw key w r /\ c < a_at r) l.

Definition admitted_in (key : string) (w c : Z) (l : list admit_row) : Z :=
  admits_sum (filter (fun r => of_kw key w r /\ c < a_at r <= c + w) l).

Definition positive_by (now : Z) (l : list admit_row) : Prop :=
  Forall (fun r => 0 < a_n r /\ a_at r <= now) l.

Record rate_inv (Lr : string -> Z -> Z) (now : Z) (db : QuotaDb) (log : list admit_row) : Prop := {
  ri_used key w : default 0 (q_windows db !! (key, w)) = admits_sum (filter (of_kw key w) (q_admits db));
  ri_rows : positive_by now (q_admits db);
  ri_log : positive_by now log;
  ri_kept key w c : now - w <= c -> kw_after key w c (q_admits db) = kw_after key w c log;
  ri_limit key w c : admitted_in key w c log <= Lr key w
}.

Lemma admits_sum_cons r l : admits_sum (r :: l) = a_n r + admits_sum l.
Proof. done. Qed.

Lemma admits_sum_app l1 l2 : admits_sum (l1 ++ l2) = admits_sum l1 + admits_sum l2.
Proof. unfold admits_sum. by rewrite fmap_app, sum_list_Z_app. Qed.

Lemma admits_sum_split (P : admit_row -> Prop) `{!forall r, Decision (P r)} l :
  admits_sum l = admits_sum (filter P l) + admits_sum (filter (fun r => ~ P r) l).
Proof.
  induction l as [|r l IH]; [done|]. rewrite !filter_cons.
  destruct (decide (P r)), (decide (~ P r)); try tauto; rewrite !admits_sum_cons; lia.
Qed.

Lemma positive_filter now (P : admit_row -> Prop) `{!forall r, Decision (P r)} l :
  positive_by now l -> positive_by now (filter P l).
Proof. unfold positive_by. rewrite !Forall_forall. intros Hl r [_ ?]%list_elem_of_filter. auto. Qed.

Lemma positive_later now now' l : now <= now' -> positive_by now l -> positive_by now' l.
Proof. intros ? Hl. eapply Forall_impl; [exact Hl|]. intros r []. split; [done|lia]. Qed.

Lemma admits_sum_sub now (P Q : admit_row -> Prop) `{!forall r, Decision (P r)} `{!forall r, Decision (Q r)} l :
  positive_by now l -> (forall r, r ∈ l -> P r -> Q r) ->
  admits_sum (filter P l) <= admits_sum (filter Q l).
Proof.
  intros Hp Hsub. induction l as [|r l IH]; [done|].
  inversion Hp as [|? ? [Hr _] Hl]; subst.
  assert (admits_sum (filter P l) <= admits_sum (filter Q l)) as Hle.
  { apply IH; [done|]. intros r' Hr'. apply Hsub. by right. }
  rewrite !filter_cons.
  destruct (decide (P r)) as [HP|], (decide (Q r)) as [|HQ]; rewrite ?admits_sum_cons; try lia.
  destruct HQ. apply Hsub; [by left|done].
Qed.

Lemma expired_admit_spec key w now r :
  expired_admit key w now r = true <-> of_kw key w r /\ a_at r <= now - w.
Proof. unfold expired_admit, of_kw. rewrite !andb_true_iff, !bool_decide_eq_true, Z.leb_le. tauto. Qed.

Abbreviation kept_of key w now l := (filter (fun r => expired_admit key w now r = false) l).
Abbreviation gone_of key w now l := (filter (fun r => expired_admit key w now r = true) l).

(** Dropping the expired rows of a window takes them off its total, and no row
    that still counts. *)
Lemma kept_total key w now (l : list admit_row) :
  admits_sum (filter (of_kw key w) (kept_of key w now l))
  = admits_sum (filter (of_kw key w) l) - admits_sum (gone_of key w now l).
Proof.
  rewrite (admits_sum_split (fun r => expired_admit key w now r = true) (filter (of_kw key w) l)).
  assert (filter (fun r => expired_admit key w now r = true) (filter (of_kw key w) l) = gone_of key w now l) as ->.
  { rewrite list_filter_filter. apply list_filter_iff. intros r. rewrite expired_admit_spec. tauto. }
  assert (filter (fun r => expired_admit key w now r <> true) (filter (of_kw key w) l)
          = filter (of_kw key w) (kept_of key w now l)) as ->.
  { rewrite !list_filter_filter. apply list_filter_iff. intros r. rewrite not_true_iff_false. tauto. }
  lia.
Qed.

Lemma kept_other key w key' w' now (l : list admit_row) :
  (key', w') <> (key, w) -> filter (of_kw key' w') (kept_of key w now l) = filter (of_kw key' w') l.
Proof.
  intros Hne. rewrite list_filter_filter. apply list_filter_iff. intros r.
  split; [tauto|]. intros [<- <-]. split; [done|]. apply not_true_iff_false.
  rewrite expired_admit_spec. intros [[? ?] _]. congruence.
Qed.

Lemma kept_after key w key' w' now c (l : list admit_row) :
  now - w' <= c -> kw_after key' w' c (kept_of key w now l) = kw_after key' w' c l.
Proof.
  intros Hc. unfold kw_after. rewrite list_filter_filter. apply list_filter_iff. intros r.
  split; [tauto|]. intros [[<- <-] ?]. split; [done|]. apply not_true_iff_false.
  rewrite expired_admit_spec. unfold of_kw. intros [[? ?] ?]. subst. lia.
Qed.

Lemma rate_inv_later Lr now now' db log : now <= now' -> rate_inv Lr now db log -> rate_inv Lr now' db log.
Proof.
  intros Hle [Hu Hr Hl Hk Hm]. split; [done|by eapply positive_later..| |done].
  intros key w c Hc. apply Hk. lia.
Qed.

(** Pruning one window: its counter goes down with the rows it loses. *)
Lemma rate_inv_prune Lr now db log key w ws :
  rate_inv Lr now db log ->
  (forall kw, kw <> (key, w) -> ws !! kw = q_windows db !! kw) ->
  default 0 (ws !! (key, w)) = default 0 (q_windows db !! (key, w)) - admits_sum (gone_of key w now (q_admits db)) ->
  rate_inv Lr now (set_rate db ws (kept_of key w now (q_admits db))) log.
Proof.
  intros [Hu Hr Hl Hk Hm] Hother Hkw. split; simpl; [| |done| |done].
  - intros key' w'. destruct (decide ((key', w') = (key, w))) as [[= -> ->]|Hne].
    + rewrite Hkw, Hu, kept_total. done.
    + rewrite Hother, kept_other by done. apply Hu.
  - by apply positive_filter.
  - intros key' w' c Hc. rewrite kept_after by lia. by apply Hk.
Qed.

Lemma rate_inv_reap_window Lr now db log kw :
  rate_inv Lr now db log -> is_Some (q_windows db !! kw) ->
  rate_inv Lr now (reap_window now db kw) log.
Proof.
  destruct kw as [key w]. intros Hinv [u Hw]. apply rate_inv_prune; [done| |].
  - intros kw Hne. by rewrite lookup_alter_ne.
  - simpl. rewrite lookup_alter_eq, Hw. done.
Qed.

Lemma rate_inv_reap_windows Lr now kws : forall db log,
  rate_inv Lr now db log -> Forall (fun kw => is_Some (q_windows db !! kw)) kws ->
  rate_inv Lr now (foldl (reap_window now) db kws) log.
Proof.
  induction kws as [|kw kws IH]; intros db log Hinv Hall; simpl; [done|].
  inversion Hall as [|? ? Hkw Hrest]; subst. apply IH; [by apply rate_inv_reap_window|].
  eapply Forall_impl; [exact Hrest|]. intros kw' Hkw'. simpl. by rewrite lookup_alter_is_Some.
Qed.

(** A window with no rows counts 0, so its row can go. *)
Lemma rate_inv_idle Lr now idle : forall db log,
  rate_inv Lr now db log -> Forall (fun kw => default 0 (q_windows db !! kw) = 0) idle ->
  rate_inv Lr now (set_rate db (delete_all idle (q_windows db)) (q_admits db)) log.
Proof.
  intros db log [Hu Hr Hl Hk Hm] Hidle. split; simpl; try done.
  intros key w. rewrite <- Hu. clear -Hidle. induction idle as [|kw idle IH]; simpl; [done|].
  inversion Hidle; subst. destruct (decide (kw = (key, w))) as [->|Hne].
  - by rewrite lookup_delete_eq.
  - rewrite lookup_delete_ne by done. by apply IH.
Qed.

Lemma picked_ok {A : Type} `{EqDecision A} limit (ok : A -> bool) order :
  Forall (fun x => ok x = true) (picked limit ok order).
Proof.
  apply Forall_forall. intros x Hx. unfold picked in Hx.
  eapply elem_of_sublist in Hx; [|apply sublist_take]. by apply list_elem_of_filter in Hx as [? _].
Qed.

Lemma filter_snoc_admit (P : admit_row -> Prop) `{!forall r, Decision (P r)} l r :
  filter P (l ++ [r]) = filter P l ++ if decide (P r) then [r] else [].
Proof. rewrite filter_app, filter_cons. by destruct (decide (P r)). Qed.

Lemma positive_snoc now l r : positive_by now l -> 0 < a_n r -> a_at r <= now -> positive_by now (l ++ [r]).
Proof. intros. apply Forall_app. split; [done|]. by repeat constructor. Qed.

(** One more admission, that the limit leaves room for. *)
Lemma rate_inv_grant Lr now db log key w g :
  rate_inv Lr now db log -> 0 < g ->
  Forall (fun r => expired_admit key w now r = false) (q_admits db) ->
  default 0 (q_windows db !! (key, w)) + g <= Lr key w ->
  rate_inv Lr now (set_rate db (<[(key, w) := default 0 (q_windows db !! (key, w)) + g]> (q_windows db))
                     (q_admits db ++ [mkAdmit key w now g]))
    (log ++ [mkAdmit key w now g]).
Proof.
  intros [Hu Hr Hl Hk Hm] Hg Hfresh Hle. split; simpl.
  - intros key' w'. rewrite filter_snoc_admit, admits_sum_app, <- Hu.
    unfold of_kw at 1; simpl. destruct (decide ((key, w) = (key', w'))) as [[= -> ->]|Hne].
    + rewrite lookup_insert_eq. simpl. destruct (decide _); [unfold admits_sum; simpl; lia|naive_solver].
    + rewrite lookup_insert_ne by done. destruct (decide _); [naive_solver|unfold admits_sum; simpl; lia].
  - apply positive_snoc; simpl; [done|lia|lia].
  - apply positive_snoc; simpl; [done|lia|lia].
  - intros key' w' c Hc. unfold kw_after. rewrite !filter_snoc_admit. f_equal. by apply Hk.
  - intros key' w' c. unfold admitted_in. rewrite filter_snoc_admit, admits_sum_app.
    specialize (Hm key' w' c). unfold admitted_in in Hm.
    destruct (decide _) as [[[Ek Ew] Hin]|]; simpl in *; [subst key' w'|unfold admits_sum at 2; simpl; lia].
    assert (admits_sum (filter (fun r => of_kw key w r /\ c < a_at r <= c + w) log)
            <= default 0 (q_windows db !! (key, w))); [|unfold admits_sum at 2; simpl; lia].
    rewrite Hu. etrans; [|apply (admits_sum_sub now (fun r => of_kw key w r /\ c < a_at r)); [done|tauto]].
    fold (kw_after key w c (q_admits db)). rewrite Hk by lia.
    apply (admits_sum_sub now); [done|]. intros r _. tauto.
Qed.

Lemma kept_fresh key w now l : Forall (fun r => expired_admit key w now r = false) (kept_of key w now l).
Proof. apply Forall_forall. by intros r [? _]%list_elem_of_filter. Qed.

Lemma gone_nonneg now now' key w l : positive_by now' l -> 0 <= admits_sum (gone_of key w now l).
Proof.
  intros Hl. etrans; [|apply (admits_sum_sub now' (fun _ => False)); [done|done]].
  clear Hl. induction l as [|r l IH]; [done|]. rewrite filter_cons. by destruct (decide False).
Qed.

Lemma rate_inv_admit Lr now db log key n limit w db' g :
  rate_inv Lr now db log -> 0 <= n -> limit <= Lr key w ->
  async_quota_admit key n limit w now db = Ok (db', g) ->
  rate_inv Lr now db' (log ++ admitted (QAdmit key n limit w) now g).
Proof.
  intros Hinv Hn Hle He. unfold async_quota_admit in He. case_match; [done|]. injection He as <- <-.
  set (used := default 0 (q_windows db !! (key, w)) - admits_sum (gone_of key w now (q_admits db))).
  set (g := Z.min n (Z.max (limit - used) 0)).
  assert (rate_inv Lr now (set_rate db (<[(key, w) := used]> (q_windows db)) (kept_of key w now (q_admits db))) log) as Hp.
  { apply rate_inv_prune; [done| |].
    - intros kw Hne. by rewrite lookup_insert_ne.
    - by rewrite lookup_insert_eq. }
  unfold admitted. destruct (0 <? g) eqn:Eg; simpl.
  - apply Z.ltb_lt in Eg. eapply rate_inv_grant in Hp; [|exact Eg|apply kept_fresh|].
    + simpl in Hp. rewrite lookup_insert_eq, insert_insert_eq in Hp. exact Hp.
    + simpl. rewrite lookup_insert_eq. simpl. lia.
  - rewrite app_nil_r. pose proof (gone_nonneg now now key w _ (ri_rows _ _ _ _ Hinv)).
    assert (g = 0) as -> by lia. rewrite Z.add_0_r.
    destruct (0 <? admits_sum (gone_of key w now (q_admits db))) eqn:Ex; [done|].
    assert (used = default 0 (q_windows db !! (key, w))) as <- by lia. done.
Qed.

Lemma rate_inv_same Lr now db db' log :
  rate_inv Lr now db log -> q_windows db' = q_windows db -> q_admits db' = q_admits db ->
  rate_inv Lr now db' log.
Proof. intros [? ? ? ? ?] Hw Ha. split; rewrite ?Hw, ?Ha; done. Qed.

Lemma rates_run Ls Lr now db log :
  (forall key w, 0 <= Lr key w) -> quota_run Ls Lr now db log -> rate_inv Lr now db log.
Proof.
  intros HL. induction 1 as [now|now now' db log Hrun IH Hnow|now db log op db' g Hrun IH Hok He].
  { split; try done; apply Forall_nil_2. }
  { by eapply rate_inv_later. }
  destruct op; simpl in He, Hok; rewrite ?app_nil_r.
  - destruct (stmt_register _ _ _ _) as [[? []]|] eqn:E; simplify_eq/=.
    unfold stmt_register in E. case_match; simplify_eq/=. by eapply rate_inv_same.
  - destruct (stmt_renew _ _ _ _ _) as [[? ?]|] eqn:E; simplify_eq/=.
    unfold stmt_renew in E. case_match; simplify_eq/=; by eapply rate_inv_same.
  - unfold async_quota_acquire in He. repeat case_match; simplify_eq/=; by eapply rate_inv_same.
  - simplify_eq/=. by eapply rate_inv_same.
  - destruct Hok. by eapply rate_inv_admit.
  - simplify_eq/=. by eapply rate_inv_same.
  - simplify_eq/=. by eapply rate_inv_same.
  - unfold async_quota_reap in He. case_match; [done|]. injection He as <- <-.
    eapply rate_inv_reap_windows in IH as H1; [eapply rate_inv_idle in H1; [by eapply rate_inv_same|]|].
    + eapply Forall_impl; [apply picked_ok|]. intros kw Hkw. simpl in Hkw.
      unfold idle_window in Hkw. apply andb_true_iff in Hkw as [Hkw%bool_decide_eq_true _].
      by rewrite Hkw.
    + eapply Forall_impl; [apply picked_ok|]. intros kw Hkw. simpl in Hkw.
      unfold has_expired in Hkw. by apply andb_true_iff in Hkw as [Hkw%bool_decide_eq_true _].
Qed.

(** However dispatchers interleave their statements, no trailing window of
    a rate key ever sees more admissions than the largest limit any gate on it
    gives: the log the statements prune never loses an admission that still
    counts.  The clock does not run backwards. *)
Theorem quota_rate_window Ls Lr now db log key w t :
  (forall key w, 0 <= Lr key w) ->
  quota_run Ls Lr now db log ->
  admitted_in key w (t - w) log <= Lr key w.
Proof. intros HL Hrun. apply (ri_limit _ _ _ _ (rates_run _ _ _ _ _ HL Hrun)). Qed.

(** However dispatchers interleave their statements, the slots of a key
    under live leases never exceed the largest limit any gate on it gives,
    holders that lapse, come back under a new name or are reaped included. *)
Theorem quota_slots_limit Ls Lr now db log key :
  (forall key, 0 <= Ls key) ->
  quota_run Ls Lr now db log ->
  live_used db now key <= Ls key.
Proof. intros HL Hrun. by apply (slots_run _ _ _ _ _ HL Hrun). Qed.

(** The slots a grant adds to are the holder's own, so the 32-bit column never
    overflows: an acquire within the argument range always returns. *)
Lemma acquire_total key holder n limit now db :
  slots_wf db -> int32 n = true -> int32 limit = true ->
  exists db' g, async_quota_acquire key holder n limit now db = Ok (db', g).
Proof.
  intros Hwf Hn Hl. unfold async_quota_acquire. rewrite Hn, Hl. simpl.
  rewrite live_set_keys. change (live_used (set_keys db _) now key) with (live_used db now key).
  destruct (live db now holder) eqn:El; simpl; [|eauto].
  case_match eqn:Eg; [|eauto].
  assert (default 0 (q_slots db !! (key, holder)) <= live_used db now key /\
    0 <= default 0 (q_slots db !! (key, holder))) as Hown.
  { assert (forall kh u, q_slots db !! kh = Some u -> 0 <= slot_value db now key kh u) as Hnn.
    { intros [k h] u Hu. unfold slot_value. destruct (Hwf _ _ _ Hu). by case_match. }
    destruct (q_slots db !! (key, holder)) as [u|] eqn:E; simpl.
    - split; [|by eapply Hwf]. pose proof (map_sum_in _ _ _ _ Hnn E) as Hin.
      unfold slot_value at 1 in Hin. simpl in Hin. rewrite bool_decide_eq_true_2, El in Hin by done. done.
    - split; [by apply map_sum_nonneg|done]. }
  assert (int32 (default 0 (q_slots db !! (key, holder)) + Z.min n (Z.max (limit - live_used db now key) 0)) = true) as ->.
  { unfold int32 in *. rewrite !andb_true_iff, !Z.leb_le, !Z.ltb_lt in *. lia. }
  eauto.
Qed.

(** ** Witnesses *)
Lemma w_rate_run :
  exists db, quota_run (fun _ => 0) (fun _ _ => 2) 5 db [mkAdmit "k" 1000 5 2].
Proof.
  assert (exists db, q_exec (QAdmit "k" 3 2 1000) 5 emptyQuota = Ok (db, 2)) as [db Hdb] by (by eexists).
  exists db. apply (run_step (fun _ => 0) (fun _ _ => 2) 5 emptyQuota [] (QAdmit "k" 3 2 1000) db 2); [constructor| |done].
  simpl. lia.
Qed.

Lemma quota_rate_window_witness : admitted_in "k" 1000 (5 - 1000) [mkAdmit "k" 1000 5 2] <= 2.
Proof.
  destruct w_rate_run as [db Hrun].
  apply (quota_rate_window (fun _ => 0) (fun _ _ => 2) 5 db [mkAdmit "k" 1000 5 2] "k" 1000 5); [done|exact Hrun].
Defined.

Lemma w_slots_run : exists db, quota_run (fun _ => 1) (fun _ _ => 0) 5 db [] /\ live_used db 5 "k" = 1.
Proof.
  assert (exists db1, q_exec (QRegister "h" 100) 5 emptyQuota = Ok (db1, 0) /\
    exists db2, q_exec (QAcquire "k" "h" 3 1) 5 db1 = Ok (db2, 1) /\ live_used db2 5 "k" = 1)
    as (db1 & H1 & db2 & H2 & Hu).
  { eexists. split; [reflexivity|]. eexists. split; [vm_compute; reflexivity|]. by vm_compute. }
  exists db2. split; [|done].
  apply (run_step (fun _ => 1) (fun _ _ => 0) 5 db1 [] (QAcquire "k" "h" 3 1) db2 1); [|simpl; lia|done].
  apply (run_step (fun _ => 1) (fun _ _ => 0) 5 emptyQuota [] (QRegister "h" 100) db1 0); [constructor|done|done].
Qed.

Lemma quota_slots_limit_witness : exists db, live_used db 5 "k" = 1 /\ live_used db 5 "k" <= 1.
Proof.
  destruct w_slots_run as (db & Hrun & Hu). exists db. split; [exact Hu|].
  apply (quota_slots_limit (fun _ => 1) (fun _ _ => 0) 5 db [] "k"); [done|exact Hrun].
Defined.
