(* ===== verification/SqlQuotaStore.v ===== *)
(** * The dispatchers' quota store over the quota tables

    [pkg/sqlflow/quota.go]: the [QuotaStore] every dispatcher runs, its holders
    ([quotaHolder]), the batched acquire statement ([acquireSlots]), the reply
    to each waiter ([flush]), the queued releases ([flushReleases]), renewal,
    retirement and deletion of holders and [Close].  The state holds every
    dispatcher and the shared tables; a step is one critical section or one
    statement, so every interleaving of goroutines and dispatchers is a run. *)
From stdpp Require Import prelude gmap strings list.
From Stdlib Require Import ZArith Lia.
From S2P Require Import Prelude SqlQuotaDb.

#[local] Open Scope Z_scope.

(** ** Holders

    The first fields are those of the struct; the rest say which goroutines and
    grants name the holder. *)
Record quotaHolder : Type := mkHolder {
  h_owner : nat;                                  (* the dispatcher it belongs to *)
  known : Z;
  renewed : Z;
  retired : bool;
  deleting : bool;
  gone : bool;
  h_calls : list (string * Z * Z);                (* acquire statements to run: key, n, limit *)
  h_replies : list (string * Z * Res QuotaErr Z); (* run, not settled: key, n, granted *)
  h_grants : list string;                         (* grants in use, by key *)
  h_queued : list string;                         (* pending[h], by key *)
  h_flush : list string;                          (* taken by flushReleases *)
  h_sent : list (list string * bool)              (* released, not settled; true: the statement failed *)
}.

Definition set_h_calls (h : quotaHolder) (x : list (string * Z * Z)) : quotaHolder :=
  mkHolder (h_owner h) (known h) (renewed h) (retired h) (deleting h) (gone h)
    x (h_replies h) (h_grants h) (h_queued h) (h_flush h) (h_sent h).
Definition set_h_replies (h : quotaHolder) (x : list (string * Z * Res QuotaErr Z)) : quotaHolder :=
  mkHolder (h_owner h) (known h) (renewed h) (retired h) (deleting h) (gone h)
    (h_calls h) x (h_grants h) (h_queued h) (h_flush h) (h_sent h).
Definition set_h_grants (h : quotaHolder) (x y : list string) : quotaHolder :=
  mkHolder (h_owner h) (known h) (renewed h) (retired h) (deleting h) (gone h)
    (h_calls h) (h_replies h) x y (h_flush h) (h_sent h).
Definition set_h_flush (h : quotaHolder) (x y : list string) (z : list (list string * bool)) : quotaHolder :=
  mkHolder (h_owner h) (known h) (renewed h) (retired h) (deleting h) (gone h)
    (h_calls h) (h_replies h) (h_grants h) x y z.
Definition set_h_life (h : quotaHolder) (n t : Z) (r d g : bool) : quotaHolder :=
  mkHolder (h_owner h) n t r d g
    (h_calls h) (h_replies h) (h_grants h) (h_queued h) (h_flush h) (h_sent h).

Definition countHolder (h : quotaHolder) : quotaHolder :=
  set_h_life h (known h + 1) (renewed h) (retired h) (deleting h) (gone h).

Definition retireHolder (h : quotaHolder) : quotaHolder :=
  set_h_life h (known h) (renewed h) true (deleting h) (gone h).

Definition settle (n : Z) (h : quotaHolder) : quotaHolder :=
  let k := known h - n in
  let drop := retired h && negb (gone h) && negb (deleting h) && (k =? 0) in
  set_h_life h k (renewed h) (retired h) (deleting h || drop) (gone h).

(** ** Dispatchers and tables *)
Record QSys : Type := mkQSys {
  s_db : QuotaDb;
  s_now : Z;                          (* the database clock, in ms *)
  s_holders : gmap string quotaHolder;
  s_current : gmap nat string;        (* current, by dispatcher *)
  s_closed : gset nat;                (* dispatchers whose Close has stopped every statement *)
  s_reaped : gset string              (* holders a reaper removed after their lease lapsed *)
}.

Definition startSys (now : Z) : QSys := mkQSys emptyQuota now ∅ ∅ ∅ ∅.

Definition set_db (s : QSys) (db : QuotaDb) : QSys :=
  mkQSys db (s_now s) (s_holders s) (s_current s) (s_closed s) (s_reaped s).
Definition put_holder (name : string) (h : quotaHolder) (s : QSys) : QSys :=
  mkQSys (s_db s) (s_now s) (<[name := h]> (s_holders s)) (s_current s) (s_closed s) (s_reaped s).
Definition set_current (s : QSys) (c : gmap nat string) : QSys :=
  mkQSys (s_db s) (s_now s) (s_holders s) c (s_closed s) (s_reaped s).

(** One call to the tables, with what happened to it. *)
Definition call {A : Type} (m : QDB A) (f : fault) (db : QuotaDb) : Res QuotaErr A * QuotaDb :=
  let '(r, (db', _)) := m (db, [f]) in (r, db').

Definition current_is (s : QSys) (d : nat) (name : string) : bool :=
  bool_decide (s_current s !! d = Some name).

(** retire: [current] is cleared when it is this holder. *)
Definition retire (name : string) (h : quotaHolder) (s : QSys) : QSys :=
  let s' := put_holder name (retireHolder h) s in
  if current_is s (h_owner h) name then set_current s' (delete (h_owner h) (s_current s)) else s'.

Definition freshHolder (d : nat) (started : Z) : quotaHolder :=
  mkHolder d 1 started false false false [] [] [] [] [] [].

(** begin: count a statement against the current holder, or register one. *)
Definition begin (ttl : Z) (d : nat) (name : string) (started : Z) (f : fault) (s : QSys) :
    QSys * option string :=
  match s_current s !! d with
  | Some cur =>
      match s_holders s !! cur with
      | Some h => (put_holder cur (countHolder h) s, Some cur)
      | None => (s, None)
      end
  | None =>
      match call (RegisterQuotaHolder name ttl (s_now s)) f (s_db s) with
      | (Ok _, db) =>
          (set_current (put_holder name (freshHolder d started) (set_db s db)) (<[d := name]> (s_current s)),
           Some name)
      | (Err _, db) => (set_db s db, None)
      end
  end.

(** The keys and counts of a batch of releases. *)
Definition release_keys (l : list string) : list string := remove_dups l.
Definition release_counts (l : list string) : list Z :=
  (fun k => Z.of_nat (count_occ_dec k l)) <$> release_keys l.

(** flush: the first [granted] waiters of the batch got a slot; [abandoned]
    says, in the order they arrived, which of them had given up. *)
Definition answered (granted : Z) (abandoned : list bool) : nat :=
  count_occ_dec false (take (Z.to_nat granted) abandoned).
Definition given_back (granted : Z) (abandoned : list bool) : nat :=
  count_occ_dec true (take (Z.to_nat granted) abandoned).

Inductive qevent : Type :=
| EvBegin (d : nat) (key : string) (n limit : Z) (name : string) (started : Z) (f : fault)
| EvAcquire (name : string) (i : nat) (f : fault)
| EvReply (name : string) (i : nat) (abandoned : list bool)
| EvRelease (name : string) (i : nat)
| EvFlushTake (d : nat)
| EvFlushSend (name : string) (f : fault)
| EvFlushDone (name : string) (i : nat)
| EvRenew (name : string) (delay started ended : Z) (f : fault)
| EvDelete (name : string) (f : fault)
| EvClose (d : nat)
| EvReapHolders (f : fault)
| EvReap (limit : Z) (o : reap_order) (f : fault)
| EvTick (dt : Z).

Definition names_of (d : nat) (h : quotaHolder) : bool := bool_decide (h_owner h = d).

(** flushReleases takes the pending map once the batch before it is done. *)
Definition take_pending (d : nat) (h : quotaHolder) : quotaHolder :=
  if names_of d h then set_h_flush h [] (h_flush h ++ h_queued h) (h_sent h) else h.

Definition flushing (d : nat) (s : QSys) : bool :=
  existsb (fun h => names_of d h && (negb (bool_decide (h_flush h = [])) || negb (bool_decide (h_sent h = []))))
    (map_to_list (s_holders s)).*2.

Definition busy (d : nat) (s : QSys) : bool :=
  existsb (fun h => names_of d h && (negb (bool_decide (length (h_calls h) = 0%nat))
                                     || negb (bool_decide (length (h_replies h) = 0%nat))))
    (map_to_list (s_holders s)).*2.

(** renew, after its statement returned [r]. *)
Definition renew (ttl started ended : Z) (name : string) (h : quotaHolder) (r : Res QuotaErr bool) (s : QSys) : QSys :=
  match r with
  | Ok true => put_holder name (set_h_life h (known h) started (retired h) (deleting h) (gone h)) s
  | Ok false =>
      let s' := retire name h s in
      put_holder name (set_h_life h (known h) (renewed h) true (deleting h) true) s'
  | Err _ => if ttl <=? ended - renewed h then retire name h s else s
  end.

Definition with_holder (name : string) (s : QSys) (k : quotaHolder -> option QSys) : option QSys :=
  h ← s_holders s !! name; k h.

(** ** Steps

    [None]: the step is not one the program can take in this state. *)

(** acquireSlots up to its statement: the batcher's run counts [n] waiters of
    [key] against a holder.  newOwner's random names are new ones. *)
Definition ev_begin (ttl : Z) (d : nat) (key : string) (n : Z) (limit : Z) (name : string) (started : Z) (f : fault) (s : QSys) : option QSys :=
  if decide (d ∈ s_closed s \/ n <= 0 \/ is_Some (s_holders s !! name)) then None else
  match begin ttl d name started f s with
  | (s', Some cur) =>
      with_holder cur s' (fun h => Some (put_holder cur (set_h_calls h (h_calls h ++ [(key, n, limit)])) s'))
  | (s', None) => Some s'
  end.

(** acquireSlots: the statement of call [i]. *)
Definition acquireSlots (name : string) (i : nat) (f : fault) (s : QSys) : option QSys :=
  with_holder name s (fun h =>
    '(key, n, limit) ← h_calls h !! i;
    let '(r, db) := call (AcquireQuotaSlots name key n limit (s_now s)) f (s_db s) in
    Some (put_holder name
            (set_h_replies (set_h_calls h (delete i (h_calls h))) (h_replies h ++ [(key, n, r)]))
            (set_db s db))).

(** acquireSlots after its statement, and the replies of [flush]: an error
    retires the holder; otherwise the grants go to the waiters, and those of
    waiters that gave up are released. *)
Definition flush (name : string) (i : nat) (abandoned : list bool) (s : QSys) : option QSys :=
  with_holder name s (fun h =>
    '(key, n, r) ← h_replies h !! i;
    let h1 := set_h_replies h (delete i (h_replies h)) in
    match r with
    | Err _ =>
        let s1 := retire name h1 s in
        with_holder name s1 (fun h2 => Some (put_holder name (settle 1 h2) s1))
    | Ok granted =>
        if decide (Z.of_nat (length abandoned) = n) then
          let h2 := settle (1 - granted) h1 in
          Some (put_holder name
                  (set_h_grants h2 (h_grants h2 ++ replicate (answered granted abandoned) key)
                                   (h_queued h2 ++ replicate (given_back granted abandoned) key)) s)
        else None
    end).

(** release: a grant goes to the pending releases. *)
Definition release (name : string) (i : nat) (s : QSys) : option QSys :=
  with_holder name s (fun h =>
    key ← h_grants h !! i;
    Some (put_holder name (set_h_grants h (delete i (h_grants h)) (h_queued h ++ [key])) s)).

(** flushReleases: take the pending map. *)
Definition take_batch (d : nat) (s : QSys) : option QSys :=
  if flushing d s then None
  else Some (mkQSys (s_db s) (s_now s) (take_pending d <$> s_holders s) (s_current s) (s_closed s) (s_reaped s)).

(** flushReleases: the statement for one holder. *)
Definition flushReleases (name : string) (f : fault) (s : QSys) : option QSys :=
  with_holder name s (fun h =>
    if decide (h_flush h = []) then None else
    let '(r, db) := call (ReleaseQuotaSlots name (release_keys (h_flush h)) (release_counts (h_flush h))) f (s_db s) in
    Some (put_holder name (set_h_flush h (h_queued h) [] (h_sent h ++ [(h_flush h, negb (is_ok r))])) (set_db s db))).

(** flushReleases after that statement. *)
Definition flush_settle (name : string) (i : nat) (s : QSys) : option QSys :=
  with_holder name s (fun h =>
    '(keys, failed) ← h_sent h !! i;
    let h1 := set_h_flush h (h_queued h) (h_flush h) (delete i (h_sent h)) in
    let s1 := if failed : bool then retire name h1 s else put_holder name h1 s in
    with_holder name s1 (fun h2 => Some (put_holder name (settle (Z.of_nat (length keys)) h2) s1))).

(** heartbeat: one holder it does not find deleting. *)
Definition heartbeat_renew (ttl : Z) (name : string) (delay : Z) (started : Z) (ended : Z) (f : fault) (s : QSys) : option QSys :=
  with_holder name s (fun h =>
    if gone h || deleting h || bool_decide (h_owner h ∈ s_closed s) || (delay <? 0) then None else
    let '(r, db) := call (RenewQuotaHolder name ttl (s_now s) (s_now s + delay)) f (s_db s) in
    Some (renew ttl started ended name h r (set_db s db))).

(** delete: of a holder marked for deletion, or by Close of one that nothing names. *)
Definition delete_holder (name : string) (f : fault) (s : QSys) : option QSys :=
  with_holder name s (fun h =>
    if negb (deleting h || (bool_decide (h_owner h ∈ s_closed s) && (known h =? 0))) then None else
    let '(r, db) := call (DeleteQuotaHolder name) f (s_db s) in
    let s' := set_db s db in
    Some (if is_ok r
          then put_holder name (set_h_life h (known h) (renewed h) (retired h) (deleting h) true) s'
          else s')).

(** Close, once every statement it waits for is done. *)
Definition Close (d : nat) (s : QSys) : option QSys :=
  if busy d s then None
  else Some (mkQSys (s_db s) (s_now s) (s_holders s) (s_current s) ({[d]} ∪ s_closed s) (s_reaped s)).

(** heartbeat: ReapQuotaHolders. *)
Definition reap_holders (ttl : Z) (f : fault) (s : QSys) : option QSys :=
  let '(_, db) := call (ReapQuotaHolders ttl (s_now s)) f (s_db s) in
  Some (mkQSys db (s_now s) (s_holders s) (s_current s) (s_closed s)
          (s_reaped s ∪ (dom (q_holders (s_db s)) ∖ dom (q_holders db)))).

(** heartbeat: ReapQuota. *)
Definition reap_rows (limit : Z) (o : reap_order) (f : fault) (s : QSys) : option QSys :=
  let '(_, db) := call (ReapQuota limit (s_now s) o) f (s_db s) in Some (set_db s db).

(** Time passes. *)
Definition ev_tick (dt : Z) (s : QSys) : option QSys :=
  if dt <? 0 then None
  else Some (mkQSys (s_db s) (s_now s + dt) (s_holders s) (s_current s) (s_closed s) (s_reaped s)).

Definition qs_step (ttl : Z) (e : qevent) (s : QSys) : option QSys :=
  match e with
  | EvBegin d key n limit name started f => ev_begin ttl d key n limit name started f s
  | EvAcquire name i f => acquireSlots name i f s
  | EvReply name i abandoned => flush name i abandoned s
  | EvRelease name i => release name i s
  | EvFlushTake d => take_batch d s
  | EvFlushSend name f => flushReleases name f s
  | EvFlushDone name i => flush_settle name i s
  | EvRenew name delay started ended f => heartbeat_renew ttl name delay started ended f s
  | EvDelete name f => delete_holder name f s
  | EvClose d => Close d s
  | EvReapHolders f => reap_holders ttl f s
  | EvReap limit o f => reap_rows limit o f s
  | EvTick dt => ev_tick dt s
  end.

(** Every run of the dispatchers in which the limits given for [key] are at
    most [Ls key]. *)
Definition ev_within (Ls : string -> Z) (e : qevent) : Prop :=
  match e with
  | EvBegin _ key _ limit _ _ _ => limit <= Ls key
  | _ => True
  end.

Inductive qs_reach (Ls : string -> Z) (ttl : Z) : QSys -> Prop :=
| reach_start now : qs_reach Ls ttl (startSys now)
| reach_step s e s' :
    qs_reach Ls ttl s -> ev_within Ls e -> qs_step ttl e s = Some s' -> qs_reach Ls ttl s'.

(** The grants of [key] in use under a live lease. *)
Definition in_use (s : QSys) (key : string) : Z :=
  map_sum (fun name h => if live (s_db s) (s_now s) name then Z.of_nat (count_occ_dec key (h_grants h)) else 0)
    (s_holders s).

(** ** What a statement does to one holder *)
Lemma call_spec {A : Type} e (q : qstmt A) f db r db' :
  call (f_call e q) f db = (r, db') ->
  (db' = db /\ exists e', r = Err e') \/
  exists a, q db = Ok (db', a) /\ (r = Ok a \/ exists e', r = Err e').
Proof.
  unfold call, f_call. intros Hc. destruct f; simpl in Hc; destruct (q db) as [[db1 a]|e1] eqn:E; simplify_eq; eauto 6.
Qed.

(** The holder's row and slots survive. *)
Definition row_keeps (db db' : QuotaDb) (name : string) : Prop :=
  (is_Some (q_holders db' !! name) -> is_Some (q_holders db !! name) /\
     forall key, default 0 (q_slots db' !! (key, name)) = default 0 (q_slots db !! (key, name))) /\
  (is_Some (q_holders db !! name) -> is_Some (q_holders db' !! name)).

Lemma row_keeps_refl db name : row_keeps db db name.
Proof. by split. Qed.

Lemma row_keeps_call {A : Type} e (q : qstmt A) f db r db' name :
  (forall db1 a, q db = Ok (db1, a) -> row_keeps db db1 name) ->
  call (f_call e q) f db = (r, db') -> row_keeps db db' name.
Proof.
  intros Hq [[-> _]|(a & Hqa & _)]%call_spec; [apply row_keeps_refl|eauto].
Qed.

Lemma register_keeps holder ttl now db db' a name :
  name <> holder -> stmt_register holder ttl now db = Ok (db', a) -> row_keeps db db' name.
Proof.
  intros Hne He. unfold stmt_register in He. case_match; simplify_eq/=.
  split; simpl; by rewrite lookup_insert_ne.
Qed.

Lemma renew_keeps holder ttl now later db db' a name :
  stmt_renew holder ttl now later db = Ok (db', a) -> row_keeps db db' name.
Proof.
  intros He. unfold stmt_renew, live in He. destruct (q_holders db !! holder) as [e|] eqn:E; [|simplify_eq; apply row_keeps_refl].
  case_match; simplify_eq/=; [|apply row_keeps_refl].
  split; simpl; (destruct (decide (name = holder)) as [->|]; [rewrite lookup_insert_eq|rewrite lookup_insert_ne by done]); done.
Qed.

Lemma acquire_keeps key holder n limit now db db' g name :
  slots_wf db -> name <> holder ->
  async_quota_acquire key holder n limit now db = Ok (db', g) -> row_keeps db db' name.
Proof.
  intros Hwf Hne He. destruct (acquire_spec _ _ _ _ _ _ _ _ Hwf He) as (_ & Hh & _ & _ & Hs).
  split; rewrite Hh; [|done]. intros Hr. split; [done|]. intros key'. rewrite Hs.
  destruct (decide _) as [[? ?]|]; [congruence|done].
Qed.

Lemma release_keeps holder keys counts db db' a name :
  name <> holder -> stmt_release_slots holder keys counts db = Ok (db', a) -> row_keeps db db' name.
Proof.
  intros Hne He. unfold stmt_release_slots in He. simplify_eq/=. split; simpl; [|done].
  intros. split; [done|]. intros key. rewrite map_lookup_imap.
  destruct (q_slots db !! (key, name)); simpl; [|done]. unfold released; simpl. by case_decide.
Qed.

Lemma delete_holders_keeps gone db db' a name :
  stmt_delete_holders gone db = Ok (db', a) ->
  (forall e, q_holders db !! name = Some e -> gone name e = false) -> row_keeps db db' name.
Proof.
  intros He Hg. unfold stmt_delete_holders in He. simplify_eq/=. split; simpl.
  - intros [e He]. apply lookup_delete_where_Some in He as [He Hge]. rewrite He. split; [done|].
    intros key. rewrite lookup_delete_where. simpl. rewrite He, Hge.
    by destruct (q_slots db !! (key, name)).
  - intros [e He]. exists e. apply lookup_delete_where_Some. eauto.
Qed.

Lemma lookup_delete_all_zero {K : Type} `{Countable K} (ks : list K) (m : gmap K Z) k :
  Forall (fun k => m !! k = Some 0) ks -> default 0 (delete_all ks m !! k) = default 0 (m !! k).
Proof.
  unfold delete_all. induction 1 as [|j ks Hj Hks IH]; simpl; [done|].
  destruct (decide (j = k)) as [->|]; [by rewrite lookup_delete_eq, Hj|by rewrite lookup_delete_ne].
Qed.

Lemma reap_keeps limit now o db db' a name :
  async_quota_reap limit now o db = Ok (db', a) -> row_keeps db db' name.
Proof.
  intros He. unfold async_quota_reap in He. case_match; [done|]. injection He as <- _.
  pose proof (reap_window_slots now (picked limit (has_expired db now) (ro_expired o)) db) as [Es Eh].
  split; simpl; rewrite Eh; [|done]. intros. split; [done|]. intros key.
  rewrite lookup_delete_all_zero, Es; [done|].
  eapply Forall_impl; [apply picked_ok|]. intros kh Hkh. by apply bool_decide_eq_true in Hkh.
Qed.

(** ** The invariant of a holder *)

(** What names the holder: statements in flight, grants, queued releases. *)
Definition work (h : quotaHolder) : Z :=
  Z.of_nat (length (h_calls h) + length (h_replies h) + length (h_grants h)
            + length (h_queued h) + length (h_flush h) + length (mjoin (h_sent h).*1)).

Definition reply_granted (key : string) (r : string * Z * Res QuotaErr Z) : Z :=
  match r with
  | (k, _, Ok g) => if decide (k = key) then g else 0
  | (_, _, Err _) => 0
  end.

(** The slots of [key] the holder accounts for. *)
Definition counted (key : string) (h : quotaHolder) : Z :=
  Z.of_nat (count_occ_dec key (h_grants h) + count_occ_dec key (h_queued h) + count_occ_dec key (h_flush h))
  + sum_list_Z (reply_granted key <$> h_replies h).

Definition call_ok (Ls : string -> Z) (c : string * Z * Z) : Prop := c.2 <= Ls c.1.1 /\ 0 < c.1.2.
Definition reply_ok (r : string * Z * Res QuotaErr Z) : Prop :=
  match r.2 with
  | Ok g => 0 <= g <= r.1.2
  | Err _ => True
  end.

(** No statement of the holder has failed. *)
Definition clean (h : quotaHolder) : Prop :=
  retired h = false /\ Forall (fun r => is_ok r.2 = true) (h_replies h) /\ Forall (fun k => k.2 = false) (h_sent h).

Record holder_ok (Ls : string -> Z) (db : QuotaDb) (reaped cur : Prop) (name : string) (h : quotaHolder) : Prop := {
  ho_known : known h = work h;
  ho_calls : Forall (call_ok Ls) (h_calls h);
  ho_replies : Forall reply_ok (h_replies h);
  ho_deleting : deleting h = true -> retired h = true /\ known h = 0;
  ho_current : cur -> retired h = false;
  ho_cover : is_Some (q_holders db !! name) ->
    forall key, counted key h <= default 0 (q_slots db !! (key, name));
  ho_exact : clean h -> is_Some (q_holders db !! name) ->
    forall key, default 0 (q_slots db !! (key, name)) <= counted key h;
  ho_row : 0 < known h \/ cur -> is_Some (q_holders db !! name) \/ reaped
}.

(** The holder new statements go to. *)
Definition cur_of (s : QSys) (name : string) (h : quotaHolder) : Prop :=
  s_current s !! h_owner h = Some name /\ h_owner h ∉ s_closed s.

Definition sys_ok (Ls : string -> Z) (s : QSys) : Prop :=
  (exists log, quota_run Ls (fun _ _ => 0) (s_now s) (s_db s) log) /\
  (forall name h, s_holders s !! name = Some h ->
     holder_ok Ls (s_db s) (name ∈ s_reaped s) (cur_of s name h) name h) /\
  (forall d name, s_current s !! d = Some name -> exists h, s_holders s !! name = Some h /\ h_owner h = d).

Lemma holder_ok_keeps Ls db db' (reaped reaped' cur cur' : Prop) name h :
  holder_ok Ls db reaped cur name h -> row_keeps db db' name ->
  (reaped -> reaped') -> (cur' -> cur) -> holder_ok Ls db' reaped' cur' name h.
Proof.
  intros [? ? ? ? ? Hc Hx Hr] [Hk1 Hk2] Hre Hcu. split; try done; [auto| | |].
  - intros Hs key. destruct (Hk1 Hs) as [Hs' ->]. by apply Hc.
  - intros Hcl Hs key. destruct (Hk1 Hs) as [Hs' ->]. by apply Hx.
  - intros Hw. destruct Hr as [?|?]; [tauto|by left; apply Hk2|by right; apply Hre].
Qed.

(** A statement on the tables: what it does and how its run continues. *)
Lemma run_call Ls {A : Type} e (q : qstmt A) f op s r db' :
  (exists log, quota_run Ls (fun _ _ => 0) (s_now s) (s_db s) log) ->
  op_within Ls (fun _ _ => 0) op ->
  (forall db1 a, q (s_db s) = Ok (db1, a) -> exists g, q_exec op (s_now s) (s_db s) = Ok (db1, g)) ->
  call (f_call e q) f (s_db s) = (r, db') ->
  exists log, quota_run Ls (fun _ _ => 0) (s_now s) db' log.
Proof.
  intros [log Hrun] Hok Hex [[-> _]|(a & Hq & _)]%call_spec; [by eexists|].
  destruct (Hex _ _ Hq) as [g Hg]. eexists. by eapply run_step.
Qed.

(** One holder changes, with the tables; the others keep their rows. *)
Lemma sys_ok_update Ls s s' name h' :
  sys_ok Ls s ->
  (exists log, quota_run Ls (fun _ _ => 0) (s_now s') (s_db s') log) ->
  (forall name', name' <> name -> s_holders s' !! name' = s_holders s !! name') ->
  s_holders s' !! name = Some h' ->
  holder_ok Ls (s_db s') (name ∈ s_reaped s') (cur_of s' name h') name h' ->
  (forall name', name' <> name -> is_Some (s_holders s !! name') -> row_keeps (s_db s) (s_db s') name') ->
  s_closed s' = s_closed s -> s_reaped s' = s_reaped s ->
  (forall d name', name' <> name -> s_current s' !! d = Some name' -> s_current s !! d = Some name') ->
  (forall d, s_current s' !! d = Some name -> h_owner h' = d) ->
  sys_ok Ls s'.
Proof.
  intros (Hrun & Hh & Hc) Hrun' Hother Hname Hok Hkeep Hcl Hre Hcur Hcurn. split; [done|split].
  - intros name' h0 Hl. destruct (decide (name' = name)) as [->|Hne].
    + rewrite Hname in Hl. by simplify_eq.
    + rewrite Hother in Hl by done. eapply holder_ok_keeps; [by apply Hh|by apply Hkeep| |].
      * by rewrite Hre.
      * unfold cur_of. rewrite Hcl. intros [? ?]. eauto.
  - intros d name' Hd. destruct (decide (name' = name)) as [->|Hne].
    + exists h'. eauto.
    + rewrite Hother by done. apply Hc. by eapply Hcur.
Qed.

Lemma sys_ok_put Ls s db' name h h' :
  sys_ok Ls s -> s_holders s !! name = Some h -> h_owner h' = h_owner h ->
  (exists log, quota_run Ls (fun _ _ => 0) (s_now s) db' log) ->
  (forall name', name' <> name -> is_Some (s_holders s !! name') -> row_keeps (s_db s) db' name') ->
  holder_ok Ls db' (name ∈ s_reaped s) (cur_of s name h) name h' ->
  sys_ok Ls (put_holder name h' (set_db s db')).
Proof.
  intros Hs Hl Ho Hrun Hkeep Hok. eapply (sys_ok_update Ls s _ name h'); simpl; try done.
  - intros. by rewrite lookup_insert_ne.
  - by rewrite lookup_insert_eq.
  - unfold cur_of; simpl. by rewrite Ho.
  - intros d Hd. destruct Hs as (_ & _ & Hc). destruct (Hc _ _ Hd) as (h0 & Hl' & <-). by simplify_eq.
Qed.

Lemma retire_holders name h s : s_holders (retire name h s) = <[name := retireHolder h]> (s_holders s).
Proof. unfold retire. by destruct (current_is s (h_owner h) name). Qed.

(** Once retired, no new statement goes to the holder. *)
Lemma sys_ok_retire Ls s db' name h h1 h' :
  sys_ok Ls s -> s_holders s !! name = Some h -> h_owner h1 = h_owner h -> h_owner h' = h_owner h ->
  (exists log, quota_run Ls (fun _ _ => 0) (s_now s) db' log) ->
  (forall name', name' <> name -> is_Some (s_holders s !! name') -> row_keeps (s_db s) db' name') ->
  holder_ok Ls db' (name ∈ s_reaped s) False name h' ->
  sys_ok Ls (put_holder name h' (retire name h1 (set_db s db'))).
Proof.
  intros Hs Hl Ho1 Ho Hrun Hkeep Hok.
  assert (s_current (retire name h1 (set_db s db')) !! h_owner h <> Some name) as Hnc.
  { unfold retire, current_is; simpl. rewrite Ho1. case_bool_decide; simpl; [by rewrite lookup_delete_eq|done]. }
  assert (forall d name', s_current (retire name h1 (set_db s db')) !! d = Some name' -> s_current s !! d = Some name') as Hcur.
  { unfold retire, current_is; simpl. intros d name'. case_bool_decide; simpl; [|done].
    by intros [_ ?]%lookup_delete_Some. }
  assert (forall A (g : QSys -> A), (forall s c, g (set_current s c) = g s) ->
    g (retire name h1 (set_db s db')) = g (put_holder name (retireHolder h1) (set_db s db'))) as Hsame.
  { intros A g Hg. unfold retire. case_match; [apply Hg|done]. }
  eapply (sys_ok_update Ls s _ name h'); simpl; try done.
  - rewrite (Hsame _ s_now), (Hsame _ s_db) by done. done.
  - intros name' Hne. rewrite lookup_insert_ne, retire_holders by done. by rewrite lookup_insert_ne.
  - by rewrite lookup_insert_eq.
  - rewrite (Hsame _ s_db), (Hsame _ s_reaped) by done. eapply holder_ok_keeps; [done|apply row_keeps_refl|done|].
    unfold cur_of; simpl. rewrite Ho. intros [? _]. by apply Hnc.
  - rewrite (Hsame _ s_db) by done. done.
  - by rewrite (Hsame _ s_closed).
  - by rewrite (Hsame _ s_reaped).
  - eauto.
  - intros d Hd. destruct Hs as (_ & _ & Hc). destruct (Hc d name (Hcur _ _ Hd)) as (h0 & Hl' & <-).
    by simplify_eq.
Qed.

(** The same, for steps that leave the tables alone. *)
Lemma set_db_same s : set_db s (s_db s) = s.
Proof. by destruct s. Qed.

Lemma sys_ok_put_local Ls s name h h' :
  sys_ok Ls s -> s_holders s !! name = Some h -> h_owner h' = h_owner h ->
  holder_ok Ls (s_db s) (name ∈ s_reaped s) (cur_of s name h) name h' ->
  sys_ok Ls (put_holder name h' s).
Proof.
  intros Hs Hl Ho Hok. pose proof (sys_ok_put Ls s (s_db s) name h h' Hs Hl Ho (proj1 Hs)) as Hp.
  rewrite set_db_same in Hp. apply Hp; [|done]. intros. apply row_keeps_refl.
Qed.

Lemma sys_ok_retire_local Ls s name h h1 h' :
  sys_ok Ls s -> s_holders s !! name = Some h -> h_owner h1 = h_owner h -> h_owner h' = h_owner h ->
  holder_ok Ls (s_db s) (name ∈ s_reaped s) False name h' ->
  sys_ok Ls (put_holder name h' (retire name h1 s)).
Proof.
  intros Hs Hl Ho1 Ho Hok. pose proof (sys_ok_retire Ls s (s_db s) name h h1 h' Hs Hl Ho1 Ho (proj1 Hs)) as Hp.
  rewrite set_db_same in Hp. apply Hp; [|done]. intros. apply row_keeps_refl.
Qed.

(** ** Counting *)
Lemma count_occ_dec_app {A : Type} `{EqDecision A} (x : A) l1 l2 :
  count_occ_dec x (l1 ++ l2) = (count_occ_dec x l1 + count_occ_dec x l2)%nat.
Proof. unfold count_occ_dec. by rewrite filter_app, length_app. Qed.

Lemma count_occ_dec_perm {A : Type} `{EqDecision A} (x : A) l1 l2 :
  l1 ≡ₚ l2 -> count_occ_dec x l1 = count_occ_dec x l2.
Proof. intros Hp. unfold count_occ_dec. by rewrite Hp. Qed.

Lemma count_occ_dec_cons {A : Type} `{EqDecision A} (x y : A) l :
  count_occ_dec x (y :: l) = ((if decide (y = x) then 1 else 0) + count_occ_dec x l)%nat.
Proof. unfold count_occ_dec. rewrite filter_cons. by destruct (decide (y = x)). Qed.

Lemma count_occ_dec_replicate {A : Type} `{EqDecision A} (x y : A) n :
  count_occ_dec x (replicate n y) = if decide (y = x) then n else O.
Proof.
  induction n as [|n IH]; simpl; [by destruct (decide _)|].
  rewrite count_occ_dec_cons, IH. by destruct (decide (y = x)).
Qed.

Lemma count_bool_length l : (count_occ_dec false l + count_occ_dec true l)%nat = length l.
Proof. induction l as [|[] l IH]; [done|..]; rewrite !count_occ_dec_cons; simpl; lia. Qed.

Lemma won_total g abandoned : 0 <= g <= Z.of_nat (length abandoned) ->
  Z.of_nat (answered g abandoned + given_back g abandoned) = g.
Proof. intros. unfold answered, given_back. rewrite count_bool_length, length_take. lia. Qed.

Lemma settle_ok Ls db (reaped cur : Prop) name n h :
  known h - n = work h -> Forall (call_ok Ls) (h_calls h) -> Forall reply_ok (h_replies h) ->
  (deleting h = true -> retired h = true /\ known h - n = 0) -> (cur -> retired h = false) ->
  (is_Some (q_holders db !! name) -> forall key, counted key h <= default 0 (q_slots db !! (key, name))) ->
  (clean h -> is_Some (q_holders db !! name) -> forall key, default 0 (q_slots db !! (key, name)) <= counted key h) ->
  (0 < known h - n \/ cur -> is_Some (q_holders db !! name) \/ reaped) ->
  holder_ok Ls db reaped cur name (settle n h).
Proof.
  intros Hk Hc Hr Hd Hcu Hcov Hx Hrow. split; simpl; try done.
  rewrite orb_true_iff, !andb_true_iff, Z.eqb_eq. tauto.
Qed.

Lemma not_deleting Ls db (reaped cur : Prop) name h :
  holder_ok Ls db reaped cur name h -> 0 < work h -> deleting h = false.
Proof.
  intros [Hk _ _ Hd _ _ _ _] Hw. destruct (deleting h); [|done]. destruct (Hd eq_refl). lia.
Qed.

Lemma length_delete_Some {A : Type} (l : list A) i x :
  l !! i = Some x -> length l = S (length (delete i l)).
Proof. intros Hx. by rewrite (Permutation_length (delete_Permutation l i x Hx)). Qed.

Lemma reply_granted_delete key (l : list (string * Z * Res QuotaErr Z)) i x :
  l !! i = Some x ->
  sum_list_Z (reply_granted key <$> l) = reply_granted key x + sum_list_Z (reply_granted key <$> delete i l).
Proof. intros Hx. by rewrite (sum_list_Z_perm _ _ (fmap_Permutation _ _ _ (delete_Permutation l i x Hx))). Qed.

Lemma Forall_delete_list {A : Type} (P : A -> Prop) (l : list A) i : Forall P l -> Forall P (delete i l).
Proof.
  intros Hl. apply Forall_forall. intros x Hx. rewrite Forall_forall in Hl. apply Hl.
  eapply elem_of_sublist; [|apply sublist_delete]; done.
Qed.

(** An acquire statement, whatever happened to it: the slots the holder's row
    counts grow at least by what the caller learns. *)
Lemma acquire_call name key n limit f now db r db' :
  slots_wf db -> 0 < n ->
  call (AcquireQuotaSlots name key n limit now) f db = (r, db') ->
  (db' = db \/ exists g, async_quota_acquire key name n limit now db = Ok (db', g)) /\
  (forall name', name' <> name -> row_keeps db db' name') /\
  q_holders db' = q_holders db /\
  reply_ok (key, n, r) /\
  (forall key', default 0 (q_slots db !! (key', name)) + reply_granted key' (key, n, r)
                <= default 0 (q_slots db' !! (key', name)) /\
     (is_ok r = true -> default 0 (q_slots db' !! (key', name))
                        = default 0 (q_slots db !! (key', name)) + reply_granted key' (key, n, r))).
Proof.
  intros Hwf Hn Hc. unfold call, AcquireQuotaSlots, f_bind in Hc.
  destruct (f_call ErrQuotaStatement (async_quota_acquire key name n limit now) (db, [f])) as [r0 [db0 fs]] eqn:E.
  assert (db' = db0 /\ forall g, r = Ok g -> r0 = Ok g /\ 0 <= g) as [-> Hr].
  { destruct r0 as [g|e]; [destruct (g <? 0) eqn:Eg|]; unfold f_fail, f_ret in Hc; simplify_eq; split; try done.
    intros ? [= <-]. split; [done|lia]. }
  assert (call (f_call ErrQuotaStatement (async_quota_acquire key name n limit now)) f db = (r0, db0)) as Hc0.
  { unfold call. by rewrite E. }
  clear E Hc. apply call_spec in Hc0 as [[-> [e ->]]|(g & Hq & Hres)].
  { split; [by left|]. split; [intros; apply row_keeps_refl|]. split; [done|].
    destruct r as [g|e']; [by destruct (Hr g eq_refl)|]. split; [done|]. intros; simpl. split; [lia|done]. }
  split; [by right; eexists|]. split; [intros; by eapply acquire_keeps|].
  destruct (acquire_spec _ _ _ _ _ _ _ _ Hwf Hq) as (_ & Hh & Hg & _ & Hs). split; [done|]. split.
  - destruct r as [g'|]; [|done]. destruct (Hr g' eq_refl) as [-> ?]. destruct Hres as [[= ->]|[? ?]]; [|done].
    unfold reply_ok; simpl. lia.
  - intros key'. rewrite Hs. destruct r as [g'|e']; simpl.
    + destruct (Hr g' eq_refl) as [-> ?]. destruct Hres as [[= ->]|[? ?]]; [|done].
      destruct (decide (key = key')) as [->|Hne], (decide _) as [[? ?]|Hno]; simplify_eq/=; try lia.
      assert (~ 0 < g) by (intros ?; by apply Hno). lia.
    + split; [|done]. destruct (decide _) as [[? ?]|]; simpl; lia.
Qed.

Lemma release_count_fmap (f : string -> Z) ks k :
  release_count ks (f <$> ks) k = if decide (k ∈ ks) then Some (f k) else None.
Proof.
  induction ks as [|j ks IH]; [done|]. rewrite fmap_cons. cbn [release_count].
  destruct (decide (j = k)) as [->|Hne].
  - rewrite decide_True; [done|by left].
  - rewrite IH. destruct (decide (k ∈ ks)), (decide (k ∈ j :: ks)) as [Hin|Hin]; try done.
    + exfalso. apply Hin. by right.
    + exfalso. apply elem_of_cons in Hin as [->|?]; done.
Qed.

Lemma count_occ_dec_pos {A : Type} `{EqDecision A} (x : A) l : (x ∈ l) <-> (0 < count_occ_dec x l)%nat.
Proof.
  induction l as [|y l IH]; [split; [by intros ?%not_elem_of_nil|unfold count_occ_dec; simpl; lia]|].
  rewrite elem_of_cons, count_occ_dec_cons, IH. destruct (decide (y = x)); naive_solver lia.
Qed.

(** A release statement, whatever happened to it: the holder's slots go down by
    the batch at most, and other holders keep theirs. *)
Lemma release_call name l f db r db' :
  call (ReleaseQuotaSlots name (release_keys l) (release_counts l)) f db = (r, db') ->
  (db' = db \/ stmt_release_slots name (release_keys l) (release_counts l) db = Ok (db', tt)) /\
  (forall name', name' <> name -> row_keeps db db' name') /\
  q_holders db' = q_holders db /\
  (forall key, default 0 (q_slots db !! (key, name)) - Z.of_nat (count_occ_dec key l)
               <= default 0 (q_slots db' !! (key, name)) /\
     (is_ok r = true -> Z.of_nat (count_occ_dec key l) <= default 0 (q_slots db !! (key, name)) ->
      default 0 (q_slots db' !! (key, name)) = default 0 (q_slots db !! (key, name)) - Z.of_nat (count_occ_dec key l))).
Proof.
  unfold ReleaseQuotaSlots, release_counts. rewrite length_fmap, decide_True by done.
  intros [[-> [e ->]]|([] & Hq & _)]%call_spec.
  { split; [by left|]. split; [intros; apply row_keeps_refl|]. split; [done|]. intros. split; [lia|done]. }
  split; [by right|]. split; [intros; by eapply release_keeps|].
  unfold stmt_release_slots in Hq. injection Hq as <-. split; [done|]. intros key. simpl.
  rewrite map_lookup_imap. destruct (q_slots db !! (key, name)) as [u|]; simpl; [|split; intros; lia].
  unfold released; simpl. rewrite decide_True by done. rewrite release_count_fmap.
  unfold release_keys.
  destruct (decide _) as [Hin|Hin]; rewrite elem_of_remove_dups, count_occ_dec_pos in Hin; split; intros; lia.
Qed.

Lemma replies_nonneg key l : Forall reply_ok l -> 0 <= sum_list_Z (reply_granted key <$> l).
Proof.
  induction 1 as [|[[k n] [g|e]] l Hr Hl IH]; [done|..]; rewrite fmap_cons; unfold sum_list_Z in *;
    cbn [foldr]; [|done]. unfold reply_ok in Hr; simpl in Hr. unfold reply_granted at 1. destruct (decide _); lia.
Qed.

(** ** Every step keeps the invariant *)
Section steps.
Context (Ls : string -> Z) (ttl : Z).
Hypothesis HLs : forall key, 0 <= Ls key.

Lemma sys_slots_wf s : sys_ok Ls s -> slots_wf (s_db s).
Proof. intros ([log Hrun] & _). by apply (slots_run _ _ _ _ _ HLs) in Hrun as [? _]. Qed.

Lemma step_acquire name i f s s' :
  sys_ok Ls s -> qs_step ttl (EvAcquire name i f) s = Some s' -> sys_ok Ls s'.
Proof.
  intros Hs He. simpl in He. unfold acquireSlots in He. unfold with_holder in He.
  destruct (s_holders s !! name) as [h|] eqn:Hl; [|done]. simpl in He.
  destruct (h_calls h !! i) as [[[key n] limit]|] eqn:Hi; [|done]. simpl in He.
  destruct (call _ f (s_db s)) as [r db] eqn:Ec. injection He as <-.
  pose proof (proj1 (proj2 Hs) _ _ Hl) as Hok.
  assert (call_ok Ls (key, n, limit)) as [Hlim Hn].
  { eapply Forall_lookup_1; [apply (ho_calls _ _ _ _ _ _ Hok)|done]. }
  simpl in Hlim, Hn.
  pose proof (acquire_call name key n limit f (s_now s) (s_db s) r db (sys_slots_wf s Hs) Hn Ec)
    as (Hdb & Hkeep & Hh & Hr & Hcov).
  eapply sys_ok_put; [done|done|done| |intros; by apply Hkeep|].
  { destruct Hdb as [->|[g Hg]]; [by apply Hs|]. destruct (proj1 Hs) as [log Hrun]. eexists.
    eapply (run_step _ _ _ _ _ (QAcquire key name n limit)); [exact Hrun|done|exact Hg]. }
  destruct Hok as [Hk Hc Hrep Hd Hcu Hcv Hx Hrow].
  split; simpl; rewrite ?Hh; try done.
  - rewrite Hk. unfold work; simpl. rewrite (length_delete_Some _ _ _ Hi), length_app; simpl. lia.
  - by apply Forall_delete_list.
  - apply Forall_app. split; [done|]. by repeat constructor.
  - intros Hsm key'. specialize (Hcv Hsm key'). destruct (Hcov key') as [Hle _]. unfold counted in *; simpl in *.
    rewrite fmap_app, sum_list_Z_app. unfold sum_list_Z at 2; simpl. lia.
  - intros (Hret & Hok & Hsent) Hsm key'. simpl in *. apply Forall_app in Hok as [Hok Hnew].
    inversion Hnew as [|? ? Hrok]; subst. specialize (Hx (conj Hret (conj Hok Hsent)) Hsm key').
    destruct (Hcov key') as [_ Heq]. rewrite (Heq Hrok). unfold counted in *; simpl in *.
    rewrite fmap_app, sum_list_Z_app. unfold sum_list_Z at 2; simpl. lia.
Qed.

Lemma step_reply name i ab s s' :
  sys_ok Ls s -> qs_step ttl (EvReply name i ab) s = Some s' -> sys_ok Ls s'.
Proof.
  intros Hs He. simpl in He. unfold flush in He. unfold with_holder in He.
  destruct (s_holders s !! name) as [h|] eqn:Hl; [|done]. simpl in He.
  destruct (h_replies h !! i) as [[[key n] r]|] eqn:Hi; [|done]. simpl in He.
  pose proof (proj1 (proj2 Hs) _ _ Hl) as Hok.
  assert (0 < work h) as Hw by (unfold work; rewrite (length_delete_Some _ _ _ Hi); lia).
  pose proof (not_deleting _ _ _ _ _ _ Hok Hw) as Hnd.
  assert (reply_ok (key, n, r)) as Hro.
  { eapply Forall_lookup_1; [apply (ho_replies _ _ _ _ _ _ Hok)|done]. }
  destruct Hok as [Hk Hc Hrep Hd Hcu Hcv Hx Hrow].
  assert (work (set_h_replies h (delete i (h_replies h))) = work h - 1) as Hw1.
  { unfold work; simpl. rewrite (length_delete_Some _ _ _ Hi). lia. }
  destruct r as [g|e].
  - destruct (decide _) as [Hlen|]; [|done]. injection He as <-. unfold reply_ok in Hro; simpl in Hro.
    pose proof (won_total g ab ltac:(lia)) as Hwon.
    eapply sys_ok_put_local; [done|done|done|].
    set (h2 := set_h_grants (set_h_replies h (delete i (h_replies h)))
        (h_grants h ++ replicate (answered g ab) key) (h_queued h ++ replicate (given_back g ab) key)).
    match goal with |- holder_ok _ _ _ _ _ ?h' => change h' with (settle (1 - g) h2) end.
    assert (forall key', counted key' h2 = counted key' h) as Hcnt.
    { intros key'. unfold counted; simpl. rewrite !count_occ_dec_app, !count_occ_dec_replicate.
      rewrite (reply_granted_delete _ _ _ _ Hi). unfold reply_granted at 2. destruct (decide (key = key')); lia. }
    apply settle_ok; simpl; try done; [|by apply Forall_delete_list|by rewrite Hnd|..].
    + unfold work in *; simpl in *. rewrite !length_app, !length_replicate. lia.
    + intros Hsm key'. rewrite Hcnt. by apply Hcv.
    + intros (Hret & Hrok & Hsent) Hsm key'. rewrite Hcnt. apply Hx; [|done]. split; [done|split; [|done]].
      rewrite (delete_Permutation _ _ _ Hi). by constructor.
    + intros [?|?]; apply Hrow; [left; lia|by right].
  - rewrite retire_holders, lookup_insert_eq in He. simpl in He. injection He as <-.
    eapply sys_ok_retire_local; [done|done|done|done|].
    apply settle_ok; simpl; try done; [unfold work in *; simpl in *; lia|by apply Forall_delete_list|by rewrite Hnd|..].
    + intros Hsm key'. specialize (Hcv Hsm key'). unfold counted in *; simpl in *.
      rewrite (reply_granted_delete _ _ _ _ Hi) in Hcv. simpl in Hcv. lia.
    + by intros [? _].
    + intros [?|[]]; apply Hrow. left; lia.
Qed.

Lemma step_release name i s s' :
  sys_ok Ls s -> qs_step ttl (EvRelease name i) s = Some s' -> sys_ok Ls s'.
Proof.
  intros Hs He. simpl in He. unfold release in He. unfold with_holder in He.
  destruct (s_holders s !! name) as [h|] eqn:Hl; [|done]. simpl in He.
  destruct (h_grants h !! i) as [key|] eqn:Hi; [|done]. simpl in He. injection He as <-.
  destruct (proj1 (proj2 Hs) _ _ Hl) as [Hk Hc Hrep Hd Hcu Hcv Hx Hrow].
  assert (forall key', counted key' (set_h_grants h (delete i (h_grants h)) (h_queued h ++ [key])) = counted key' h) as Hcnt.
  { intros key'. unfold counted; simpl.
    rewrite (count_occ_dec_perm _ _ _ (delete_Permutation _ _ _ Hi)), count_occ_dec_cons.
    rewrite count_occ_dec_app, (count_occ_dec_cons key' key []).
    change (count_occ_dec key' []) with O. lia. }
  eapply sys_ok_put_local; [done|done|done|]. split; simpl; try done.
  - rewrite Hk. unfold work; simpl. rewrite (length_delete_Some _ _ _ Hi), length_app; simpl. lia.
  - intros Hsm key'. rewrite Hcnt. by apply Hcv.
  - intros Hcl Hsm key'. rewrite Hcnt. by apply Hx.
Qed.

Lemma step_flush_take d s s' :
  sys_ok Ls s -> qs_step ttl (EvFlushTake d) s = Some s' -> sys_ok Ls s'.
Proof.
  intros (Hrun & Hh & Hc) He. simpl in He. unfold take_batch in He. case_match; [done|]. injection He as <-.
  split; [done|split; simpl].
  - intros name h Hl. rewrite lookup_fmap in Hl. destruct (s_holders s !! name) as [h0|] eqn:E; [|done].
    injection Hl as <-. specialize (Hh _ _ E). unfold take_pending. destruct (names_of d h0) eqn:En; [|done].
    destruct Hh as [Hk Hca Hrep Hd Hcu Hcv Hx Hrow]. split; simpl; try done.
    + rewrite Hk. unfold work; simpl. rewrite length_app. lia.
    + intros Hsm key. specialize (Hcv Hsm key). unfold counted in *; simpl in *.
      rewrite count_occ_dec_app. change (count_occ_dec key []) with O. lia.
    + intros Hcl Hsm key. specialize (Hx Hcl Hsm key). unfold counted in *; simpl in *.
      rewrite count_occ_dec_app. change (count_occ_dec key []) with O. lia.
  - intros d' name Hd. destruct (Hc _ _ Hd) as (h & Hl & Ho). rewrite lookup_fmap, Hl.
    eexists. split; [done|]. unfold take_pending. by destruct (names_of d h).
Qed.

Lemma step_flush_send name f s s' :
  sys_ok Ls s -> qs_step ttl (EvFlushSend name f) s = Some s' -> sys_ok Ls s'.
Proof.
  intros Hs He. simpl in He. unfold flushReleases in He. unfold with_holder in He.
  destruct (s_holders s !! name) as [h|] eqn:Hl; [|done]. simpl in He.
  destruct (decide (h_flush h = [])); [done|].
  destruct (call _ f (s_db s)) as [r db] eqn:Ec. injection He as <-.
  apply release_call in Ec as (Hdb & Hkeep & Hh & Hcnt).
  destruct (proj1 (proj2 Hs) _ _ Hl) as [Hk Hc Hrep Hd Hcu Hcv Hx Hrow].
  eapply sys_ok_put; [done|done|done| |intros; by apply Hkeep|].
  { destruct Hdb as [->|Hq]; [by apply Hs|]. destruct (proj1 Hs) as [log Hrun]. eexists.
    eapply (run_step _ _ _ _ _ (QRelease name (release_keys (h_flush h)) (release_counts (h_flush h))));
      [exact Hrun| |unfold q_exec; by rewrite Hq].
    simpl. apply Forall_fmap, Forall_forall. intros; simpl; lia. }
  split; simpl; try done.
  - rewrite Hk. unfold work; simpl. rewrite fmap_app, join_app, length_app; simpl. rewrite app_nil_r. lia.
  - rewrite Hh. intros Hsm key. specialize (Hcv Hsm key). destruct (Hcnt key) as [Hle _].
    unfold counted in *; simpl in *. change (count_occ_dec key []) with O. lia.
  - rewrite Hh. intros (Hret & Hrok & Hsent) Hsm key. simpl in *. apply Forall_app in Hsent as [Hsent Hnew].
    inversion Hnew as [|? ? Hneg _]; subst. simpl in Hneg. apply negb_false_iff in Hneg.
    specialize (Hx (conj Hret (conj Hrok Hsent)) Hsm key). specialize (Hcv Hsm key).
    destruct (Hcnt key) as [_ Heq]. rewrite (Heq Hneg); unfold counted in *; simpl in *.
    + change (count_occ_dec key []) with O. lia.
    + enough (0 <= sum_list_Z (reply_granted key <$> h_replies h)) by lia.
      by apply replies_nonneg.
  - by rewrite Hh.
Qed.

Lemma length_join_delete {A B : Type} (l : list (list A * B)) i x :
  l !! i = Some x -> length (mjoin l.*1) = (length x.1 + length (mjoin (delete i l).*1))%nat.
Proof.
  intros Hx. rewrite <- length_app. apply Permutation_length.
  change (x.1 ++ mjoin (delete i l).*1) with (mjoin (x :: delete i l).*1).
  by rewrite <- (delete_Permutation l i x Hx).
Qed.

Lemma step_flush_done name i s s' :
  sys_ok Ls s -> qs_step ttl (EvFlushDone name i) s = Some s' -> sys_ok Ls s'.
Proof.
  intros Hs He. simpl in He. unfold flush_settle in He. unfold with_holder in He.
  destruct (s_holders s !! name) as [h|] eqn:Hl; [|done]. simpl in He.
  destruct (h_sent h !! i) as [[keys failed]|] eqn:Hi; [|done]. simpl in He.
  pose proof (proj1 (proj2 Hs) _ _ Hl) as Hok.
  set (h1 := set_h_flush h (h_queued h) (h_flush h) (delete i (h_sent h))) in He.
  assert (known h - Z.of_nat (length keys) = work h1) as Hw1.
  { rewrite (ho_known _ _ _ _ _ _ Hok). unfold work; simpl. rewrite (length_join_delete _ _ _ Hi); simpl. lia. }
  destruct Hok as [Hk Hc Hrep Hd Hcu Hcv Hx Hrow].
  assert (deleting h = true -> retired h = true /\ known h - Z.of_nat (length keys) = 0) as Hd'.
  { intros Hdel. destruct (Hd Hdel). split; [done|]. assert (0 <= work h1) by (unfold work; lia). lia. }
  assert (forall n cur, (cur -> cur_of s name h) -> n = Z.of_nat (length keys) ->
    0 < known h - n \/ cur -> is_Some (q_holders (s_db s) !! name) \/ name ∈ s_reaped s) as Hrow'.
  { intros n cur Hcur -> [?|?]; apply Hrow; [left; lia|right; auto]. }
  destruct failed.
  - rewrite retire_holders, lookup_insert_eq in He. simpl in He. injection He as <-.
    eapply sys_ok_retire_local; [done|done|done|done|].
    apply settle_ok; simpl; try done; [naive_solver|by intros [? _]|by apply Hrow'].
  - unfold put_holder at 1 in He. simpl in He. rewrite lookup_insert_eq in He. simpl in He. injection He as <-.
    match goal with |- sys_ok _ ?s' =>
      replace s' with (put_holder name (settle (Z.of_nat (length keys)) h1) s)
        by (unfold put_holder; simpl; by rewrite insert_insert_eq) end.
    eapply sys_ok_put_local; [done|done|done|].
    apply settle_ok; simpl; try done; [|by apply Hrow'].
    intros (Hret & Hrok & Hsent). apply Hx. split; [done|split; [done|]].
    rewrite (delete_Permutation _ _ _ Hi). by constructor.
Qed.

Lemma call_register name ttl' f s r db :
  sys_ok Ls s -> call (RegisterQuotaHolder name ttl' (s_now s)) f (s_db s) = (r, db) ->
  (exists log, quota_run Ls (fun _ _ => 0) (s_now s) db log) /\
  (forall name', name' <> name -> row_keeps (s_db s) db name') /\
  (is_ok r = true -> is_Some (q_holders db !! name) /\ forall key, q_slots db !! (key, name) = None).
Proof.
  intros Hs Ec. split; [|split].
  - eapply (run_call Ls _ _ _ (QRegister name (Milliseconds ttl')) s); [apply Hs|done| |exact Ec].
    intros db1 a Hq. unfold q_exec. rewrite Hq. by eexists.
  - intros name' Hne. eapply row_keeps_call; [|exact Ec]. intros; by eapply register_keeps.
  - intros Hr. apply call_spec in Ec as [[_ [? ->]]|(a & Hq & _)]; [done|].
    unfold stmt_register in Hq. destruct (q_holders (s_db s) !! name) eqn:E; simplify_eq/=.
    rewrite lookup_insert_eq. split; [done|]. intros key.
    destruct (q_slots (s_db s) !! (key, name)) eqn:E'; [|done].
    destruct (sys_slots_wf _ Hs _ _ _ E') as [_ [? ?]]. congruence.
Qed.

Lemma step_begin d key n limit name started f s s' :
  sys_ok Ls s -> limit <= Ls key ->
  qs_step ttl (EvBegin d key n limit name started f) s = Some s' -> sys_ok Ls s'.
Proof.
  intros Hs Hlim He. simpl in He. unfold ev_begin in He. destruct (decide _) as [|Hno]; [done|].
  assert (d ∉ s_closed s /\ 0 < n /\ s_holders s !! name = None) as (Hcl & Hn & Hfresh).
  { split; [tauto|]. split; [lia|]. destruct (s_holders s !! name) eqn:E; [|done]. destruct Hno. eauto. }
  clear Hno. unfold begin in He. destruct (s_current s !! d) as [cur|] eqn:Ecur.
  - destruct (proj2 (proj2 Hs) _ _ Ecur) as (h & Hl & Ho). rewrite Hl in He. simpl in He.
    unfold with_holder in He. simpl in He. rewrite lookup_insert_eq in He. simpl in He. injection He as <-.
    match goal with |- sys_ok _ ?s' => replace s' with
      (put_holder cur (set_h_calls (countHolder h) (h_calls h ++ [(key, n, limit)])) s)
      by (unfold put_holder; simpl; by rewrite insert_insert_eq) end.
    destruct (proj1 (proj2 Hs) _ _ Hl) as [Hk Hc Hrep Hd Hcu Hcv Hx Hrow].
    assert (cur_of s cur h) as Hcur by (unfold cur_of; by rewrite Ho).
    eapply sys_ok_put_local; [done|done|done|]. split; simpl; try done.
    + rewrite Hk. unfold work; simpl. rewrite length_app; simpl. lia.
    + apply Forall_app. split; [done|]. by repeat constructor.
    + intros Hdel. destruct (Hd Hdel) as [Hr _]. by rewrite (Hcu Hcur) in Hr.
    + intros _. apply Hrow. by right.
  - destruct (call _ f (s_db s)) as [[u|e] db] eqn:Ec;
      apply call_register in Ec as (Hrun & Hkeep & Hreg); try done.
    + destruct (Hreg eq_refl) as [Hrow Hslots].
      unfold with_holder in He. simpl in He. rewrite lookup_insert_eq in He. simpl in He. injection He as <-.
      match goal with |- sys_ok _ (put_holder _ ?h' _) => eapply (sys_ok_update Ls s _ name h') end; simpl; try done.
      * intros. rewrite !lookup_insert_ne by done. done.
      * by rewrite lookup_insert_eq.
      * split; simpl; try done; [by apply Forall_singleton| | |by left].
        -- intros _ key'. unfold counted; simpl. by rewrite Hslots.
        -- intros _ _ key'. unfold counted; simpl. by rewrite Hslots.
      * intros name' Hne _. by apply Hkeep.
      * intros d' name' Hne Hd'. destruct (decide (d' = d)) as [->|].
        -- rewrite lookup_insert_eq in Hd'. congruence.
        -- by rewrite lookup_insert_ne in Hd'.
      * intros d' Hd'. destruct (decide (d = d')) as [|Hne]; [done|]. rewrite lookup_insert_ne in Hd' by done.
        destruct (proj2 (proj2 Hs) _ _ Hd') as (h0 & Hl0 & _). congruence.
    + injection He as <-. split; [done|split; simpl].
      * intros name' h Hl. eapply holder_ok_keeps; [by apply (proj1 (proj2 Hs) _ _ Hl)|apply Hkeep; congruence|done|done].
      * apply Hs.
Qed.

(** A step on the tables that keeps every known holder's row. *)
Lemma sys_ok_db s db :
  sys_ok Ls s -> (exists log, quota_run Ls (fun _ _ => 0) (s_now s) db log) ->
  (forall name, is_Some (s_holders s !! name) -> row_keeps (s_db s) db name) -> sys_ok Ls (set_db s db).
Proof.
  intros Hs Hrun Hkeep. split; [done|split; [|apply Hs]]. intros name h Hl. simpl in *.
  eapply holder_ok_keeps; [by apply (proj1 (proj2 Hs) _ _ Hl)|apply Hkeep; eauto|done|done].
Qed.

Lemma step_renew name delay started ended f s s' :
  sys_ok Ls s -> qs_step ttl (EvRenew name delay started ended f) s = Some s' -> sys_ok Ls s'.
Proof.
  intros Hs He. simpl in He. unfold heartbeat_renew in He. unfold with_holder in He.
  destruct (s_holders s !! name) as [h|] eqn:Hl; [|done]. simpl in He.
  destruct (gone h || deleting h || bool_decide (h_owner h ∈ s_closed s) || (delay <? 0)) eqn:Eg; [done|].
  rewrite !orb_false_iff in Eg. destruct Eg as [[[Hgone Hdel] Hcl] Hdelay].
  destruct (call _ f (s_db s)) as [r db] eqn:Ec. injection He as <-.
  assert (exists log, quota_run Ls (fun _ _ => 0) (s_now s) db log) as Hrun.
  { eapply (run_call Ls _ _ _ (QRenew name (Milliseconds ttl) delay) s); [apply Hs|simpl; lia| |exact Ec].
    intros db1 a Hq. unfold q_exec. rewrite Hq. by eexists. }
  assert (forall name', row_keeps (s_db s) db name') as Hkeep.
  { intros. eapply row_keeps_call; [|exact Ec]. intros; by eapply renew_keeps. }
  pose proof (holder_ok_keeps _ _ db _ (name ∈ s_reaped s) _ (cur_of s name h) _ _
    (proj1 (proj2 Hs) _ _ Hl) (Hkeep name) id id) as [Hk Hc Hrep Hd Hcu Hcv Hx Hrow].
  assert (forall g r', holder_ok Ls db (name ∈ s_reaped s) False name
    (set_h_life h (known h) r' true (deleting h) g)) as Hret.
  { intros g r'. split; simpl; try done; [naive_solver|by intros [? _]|].
    intros [?|[]]. apply Hrow. by left. }
  destruct r as [[]|e]; simpl.
  - eapply sys_ok_put; [done|done|done|done|by intros; apply Hkeep|]. by split.
  - by eapply sys_ok_retire.
  - case_match; [|by apply sys_ok_db].
    match goal with |- sys_ok _ ?s' => replace s' with (put_holder name (retireHolder h) s') end.
    + eapply sys_ok_retire; [done|done|done|done|done|by intros; apply Hkeep|]. apply Hret.
    + unfold retire. case_match; unfold put_holder, set_current; simpl; by rewrite insert_insert_eq.
Qed.

Lemma step_delete name f s s' :
  sys_ok Ls s -> qs_step ttl (EvDelete name f) s = Some s' -> sys_ok Ls s'.
Proof.
  intros Hs He. simpl in He. unfold delete_holder in He. unfold with_holder in He.
  destruct (s_holders s !! name) as [h|] eqn:Hl; [|done]. simpl in He.
  destruct (deleting h || bool_decide (h_owner h ∈ s_closed s) && (known h =? 0)) eqn:Eg; simpl in He; [|done].
  destruct (call _ f (s_db s)) as [r db] eqn:Ec. injection He as <-.
  assert (exists log, quota_run Ls (fun _ _ => 0) (s_now s) db log) as Hrun.
  { eapply (run_call Ls _ _ _ (QDelete name) s); [apply Hs|done| |exact Ec].
    intros db1 a Hq. unfold q_exec. rewrite Hq. by eexists. }
  assert (forall name', name' <> name -> row_keeps (s_db s) db name') as Hkeep.
  { intros name' Hne. eapply row_keeps_call; [|exact Ec]. intros. eapply delete_holders_keeps; [done|].
    intros. by apply bool_decide_eq_false. }
  assert (db = s_db s \/ q_holders db !! name = None) as Hdb.
  { apply call_spec in Ec as [[-> _]|([] & Hq & _)]; [by left|right]. unfold stmt_delete_holders in Hq.
    injection Hq as <-. simpl. rewrite lookup_delete_where.
    destruct (q_holders (s_db s) !! name); simpl; [|done]. by rewrite bool_decide_eq_true_2. }
  pose proof (proj1 (proj2 Hs) _ _ Hl) as [Hk Hc Hrep Hd Hcu Hcv Hx Hrow].
  assert (known h = 0 /\ ~ cur_of s name h) as [Hk0 Hnc].
  { apply orb_true_iff in Eg as [Hdel|[Hcl%bool_decide_eq_true ?]%andb_true_iff].
    - destruct (Hd Hdel) as [Hr ?]. split; [done|]. intros Hcur. rewrite (Hcu Hcur) in Hr. done.
    - split; [lia|]. by intros [_ ?]. }
  assert (forall g, holder_ok Ls db (name ∈ s_reaped s) (cur_of s name h) name
    (set_h_life h (known h) (renewed h) (retired h) (deleting h) g)) as Hok.
  { intros g. split; simpl; try done; [| |intros [?|?]; [lia|done]];
      destruct Hdb as [->|Hnone]; try done; rewrite Hnone; [by intros [? ?]|by intros _ [? ?]]. }
  assert (forall g, sys_ok Ls (put_holder name
    (set_h_life h (known h) (renewed h) (retired h) (deleting h) g) (set_db s db))) as Hput.
  { intros g. eapply sys_ok_put; [done|done|done|done|by intros; apply Hkeep|]. apply Hok. }
  destruct (is_ok r); [apply Hput|]. specialize (Hput (gone h)).
  unfold put_holder in Hput; simpl in Hput. rewrite insert_id in Hput; [done|]. rewrite Hl. by destruct h.
Qed.

Lemma reap_holders_call now f db r db' name :
  call (ReapQuotaHolders ttl now) f db = (r, db') -> row_keeps db db' name \/ q_holders db' !! name = None.
Proof.
  intros [[-> _]|(a & Hq & _)]%call_spec; [left; apply row_keeps_refl|].
  destruct (q_holders db' !! name) as [e|] eqn:E; [left|by right].
  eapply delete_holders_keeps; [done|]. intros e' He'. unfold stmt_delete_holders in Hq.
  injection Hq as <-. simpl in E. apply lookup_delete_where_Some in E as [? ?]. by simplify_eq.
Qed.

Lemma step_world e s s' :
  match e with EvClose _ | EvReapHolders _ | EvReap _ _ _ | EvTick _ => True | _ => False end ->
  sys_ok Ls s -> qs_step ttl e s = Some s' -> sys_ok Ls s'.
Proof.
  intros Hev Hs He. pose proof Hs as (Hrun & Hh & Hcur). destruct e; try done; simpl in He;
    unfold Close, reap_holders, reap_rows, ev_tick in He.
  - case_match; [done|]. injection He as <-. split; [done|split; [|done]]; simpl. intros name h Hl.
    eapply holder_ok_keeps; [by apply Hh|apply row_keeps_refl|done|]. unfold cur_of; simpl. set_solver.
  - destruct (call _ f (s_db s)) as [r db] eqn:Ec. injection He as <-.
    split; [|split; [|done]]; simpl.
    { eapply (run_call Ls _ _ _ (QReapHolders (Milliseconds ttl)) s); [done|done| |exact Ec].
      intros db1 a Hq. unfold q_exec. rewrite Hq. by eexists. }
    intros name h Hl. destruct (Hh _ _ Hl) as [Hk Hc Hrep Hd Hcu Hcv Hx Hrow].
    destruct (reap_holders_call _ _ _ _ _ name Ec) as [Hkeep|Hnone].
    + eapply holder_ok_keeps; [by apply Hh|done|set_solver|done].
    + split; try done; rewrite Hnone; [by intros [? ?]|by intros _ [? ?]|]. intros Hw. right.
      apply elem_of_union. destruct (Hrow Hw) as [Hsm|]; [right|by left].
      apply elem_of_difference. by rewrite elem_of_dom, not_elem_of_dom.
  - destruct (call _ f (s_db s)) as [r db] eqn:Ec. injection He as <-. apply sys_ok_db; [done| |].
    + eapply (run_call Ls _ _ _ (QReap limit o) s); [done|done| |exact Ec].
      intros db1 a Hq. unfold q_exec. rewrite Hq. by eexists.
    + intros. eapply row_keeps_call; [|exact Ec]. intros; by eapply reap_keeps.
  - case_match; [done|]. injection He as <-. split; [|split; [|done]]; simpl.
    + destruct Hrun as [log Hrun]. exists log. eapply run_wait; [done|lia].
    + done.
Qed.

Lemma sys_ok_start now : sys_ok Ls (startSys now).
Proof. split; [exists []; constructor|split; [by intros ??|by intros ??]]. Qed.

Lemma step_ok e s s' : sys_ok Ls s -> ev_within Ls e -> qs_step ttl e s = Some s' -> sys_ok Ls s'.
Proof.
  intros Hs Hw He. destruct e; simpl in Hw.
  - by eapply step_begin.
  - by eapply step_acquire.
  - by eapply step_reply.
  - by eapply step_release.
  - by eapply step_flush_take.
  - by eapply step_flush_send.
  - by eapply step_flush_done.
  - by eapply step_renew.
  - by eapply step_delete.
  - by eapply step_world in He.
  - by eapply step_world in He.
  - by eapply step_world in He.
  - by eapply step_world in He.
Qed.

Lemma reach_ok s : qs_reach Ls ttl s -> sys_ok Ls s.
Proof. induction 1; [apply sys_ok_start|by eapply step_ok]. Qed.
End steps.

(** ** What the store promises *)

(** C12. Whatever the dispatchers do, in any interleaving, with statements lost,
    applied without a reply, abandoned by their callers, or raced by lease
    expiry, the grants of a key in use under live leases, over every
    dispatcher, never exceed the limit its gates give. *)
Theorem sql_quota_in_use Ls ttl s key :
  (forall key, 0 <= Ls key) -> qs_reach Ls ttl s -> in_use s key <= Ls key.
Proof.
  intros HL Hr. pose proof (reach_ok Ls ttl HL s Hr) as Hok. destruct Hok as ([log Hrun] & Hh & _).
  destruct (slots_run _ _ _ _ _ HL Hrun) as [Hwf Hlim]. etrans; [|apply (Hlim key)].
  apply (map_sum_inj (fun name => (key, name))).
  - intros name h Hl. destruct (live (s_db s) (s_now s) name) eqn:El; [|by left].
    destruct (Hh _ _ Hl) as [_ _ Hrep _ _ Hcv _ _].
    assert (is_Some (q_holders (s_db s) !! name)) as Hsm.
    { unfold live in El. by destruct (q_holders (s_db s) !! name). }
    specialize (Hcv Hsm key). unfold counted in Hcv. pose proof (replies_nonneg key _ Hrep).
    destruct (q_slots (s_db s) !! (key, name)) as [u|]; simpl in Hcv; [right|left; lia].
    exists u. split; [done|]. unfold slot_value; simpl. rewrite bool_decide_eq_true_2, El by done. simpl. lia.
  - intros [k h] u Hu. unfold slot_value; simpl. destruct (Hwf _ _ _ Hu). by case_match.
Qed.

(** A holder's count is exact: it is the statements in flight under it, the
    grants handed out and the releases on their way.  While anything names a
    holder, its row is in the table unless its lease lapsed and a reaper took
    it: no dispatcher, closing included, deletes a holder with a grant in use.
    And while none of its statements has failed, its row holds exactly the
    slots it accounts for, so slots go back as their grants are released. *)
Theorem sql_quota_holder_exact Ls ttl s name h :
  (forall key, 0 <= Ls key) -> qs_reach Ls ttl s -> s_holders s !! name = Some h ->
  known h = work h /\
  (0 < work h -> is_Some (q_holders (s_db s) !! name) \/ name ∈ s_reaped s) /\
  (clean h -> is_Some (q_holders (s_db s) !! name) ->
   forall key, default 0 (q_slots (s_db s) !! (key, name)) = counted key h).
Proof.
  intros HL Hr Hl. destruct (proj1 (proj2 (reach_ok Ls ttl HL s Hr)) _ _ Hl) as [Hk _ _ _ _ Hcv Hx Hrow].
  split; [done|]. split; [intros; apply Hrow; left; lia|].
  intros Hcl Hsm key. pose proof (Hcv Hsm key). pose proof (Hx Hcl Hsm key). lia.
Qed.

(** ** Runs *)
Fixpoint qs_run (ttl : Z) (es : list qevent) (s : QSys) : option QSys :=
  match es with
  | [] => Some s
  | e :: es' => s' ← qs_step ttl e s; qs_run ttl es' s'
  end.

Lemma qs_run_reach Ls ttl es : forall s s',
  qs_reach Ls ttl s -> Forall (ev_within Ls) es -> qs_run ttl es s = Some s' -> qs_reach Ls ttl s'.
Proof.
  induction es as [|e es IH]; intros s s' Hs Hall Hrun; simpl in Hrun; [by simplify_eq|].
  inversion Hall; subst. destruct (qs_step ttl e s) as [s1|] eqn:E; [|done].
  eapply IH; [|done|done]. by eapply reach_step.
Qed.

(** One request takes a slot and gives it back; its dispatcher then fails to
    reach the database for as long as the lease lasts. *)
Definition idle_run : list qevent :=
  [EvBegin 0 "k" 1 1 "h" 0 FNone; EvAcquire "h" 0 FNone; EvReply "h" 0 [false]; EvRelease "h" 0;
   EvFlushTake 0; EvFlushSend "h" FNone; EvFlushDone "h" 0; EvTick 29999;
   EvRenew "h" 0 (30 * Second) (31 * Second) FLost].

Definition idle_sys : QSys := default (startSys 0) (qs_run (30 * Second) idle_run (startSys 0)).

Definition lingers (s : QSys) (name : string) : bool :=
  match s_holders s !! name with
  | Some h => retired h && (known h =? 0) && negb (deleting h) && negb (gone h)
  | None => false
  end.

(** A holder that a failed renewal retires while nothing names it is never
    marked for deletion: a renewal that follows keeps its row, and only Close
    deletes it. *)
Theorem retired_holder_lingers :
  qs_reach (fun _ => 1) (30 * Second) idle_sys /\
  lingers idle_sys "h" = true /\
  qs_step (30 * Second) (EvDelete "h" FNone) idle_sys = None /\
  match qs_step (30 * Second) (EvRenew "h" 0 (31 * Second) (31 * Second) FNone) idle_sys with
  | Some s => lingers s "h" && live (s_db s) (s_now s + 29999) "h"
  | None => false
  end = true.
Proof.
  split; [|split; [by_vm|split; by_vm]].
  assert (is_Some (qs_run (30 * Second) idle_run (startSys 0))) as [s Hs].
  { apply (bool_decide_eq_true_1 _). by_vm. }
  unfold idle_sys. rewrite Hs. eapply qs_run_reach; [constructor| |exact Hs]. by repeat constructor.
Qed.

Definition held_run : list qevent :=
  [EvBegin 0 "k" 2 1 "h" 0 FNone; EvAcquire "h" 0 FNone; EvReply "h" 0 [false; false]].

Definition held_sys : QSys := default (startSys 0) (qs_run (30 * Second) held_run (startSys 0)).

Lemma held_reach : qs_reach (fun _ => 1) (30 * Second) held_sys.
Proof.
  assert (is_Some (qs_run (30 * Second) held_run (startSys 0))) as [s Hs].
  { apply (bool_decide_eq_true_1 _). by_vm. }
  unfold held_sys. rewrite Hs. eapply qs_run_reach; [constructor| |exact Hs]. by repeat constructor.
Qed.

Lemma sql_quota_in_use_witness : in_use held_sys "k" = 1 /\ in_use held_sys "k" <= 1.
Proof.
  split; [by_vm|]. apply (sql_quota_in_use (fun _ => 1) (30 * Second) held_sys "k"); [done|exact held_reach].
Defined.

Lemma sql_quota_holder_exact_witness :
  exists h, s_holders held_sys !! "h" = Some h /\
    (known h = work h /\
     (0 < work h -> is_Some (q_holders (s_db held_sys) !! "h") \/ "h" ∈ s_reaped held_sys) /\
     (clean h -> is_Some (q_holders (s_db held_sys) !! "h") ->
      forall key, default 0 (q_slots (s_db held_sys) !! (key, "h")) = counted key h)).
Proof.
  assert (is_Some (s_holders held_sys !! "h")) as [h Hh].
  { apply (bool_decide_eq_true_1 _). by_vm. }
  exists h. split; [exact Hh|].
  apply (sql_quota_holder_exact (fun _ => 1) (30 * Second) held_sys "h" h); [done|exact held_reach|exact Hh].
Defined.
