(* ===== verification/KeySlot.v ===== *)
(** * Redis Cluster slots of the bookkeeping keys
    (src/pkg/redis/keyslot.go, claim.go newClaimKeys; src/producer/redis_conn.go
    slotKey, redis_result_delivery.go newResultClaimKeys)

    A script may touch several keys only when they share a slot; the private
    keys of a queue or of a result route are named so that they share the slot
    of the key they belong to.  This file gives the slot function, the naming,
    and when it is right. *)
From stdpp Require Import prelude strings.
From Stdlib Require Import ZArith Lia Ascii.
From S2P Require Import Prelude.

#[local] Open Scope Z_scope.

Definition hashSlots : Z := 16384.

Definition lbrace : Ascii.ascii := "{"%char.
Definition rbrace : Ascii.ascii := "}"%char.

Definition hashTag (key : string) : string :=
  match IndexByte key lbrace with
  | None => key
  | Some start =>
      let rest := str_drop (S start) key in
      match IndexByte rest rbrace with
      | None | Some O => key
      | Some e => str_take e rest
      end
  end.

Definition slotKey (primary : string) (cluster : bool) : string :=
  if negb cluster || negb (bool_decide (hashTag primary = primary)) then primary
  else "{" +:+ primary +:+ "}".

(** One bit of the checksum, on 16 bits. *)
Definition crc_bit (crc : Z) : Z :=
  if negb (Z.land crc 0x8000 =? 0) then Z.lxor (Z.land (Z.shiftl crc 1) 0xFFFF) 0x1021
  else Z.land (Z.shiftl crc 1) 0xFFFF.

Fixpoint crc16_from (crc : Z) (data : string) : Z :=
  match data with
  | EmptyString => crc
  | String b data' =>
      let crc := Z.lxor crc (Z.land (Z.shiftl (Z.of_nat (Ascii.nat_of_ascii b)) 8) 0xFFFF) in
      crc16_from (Nat.iter 8 crc_bit crc) data'
  end.

Definition crc16 (data : string) : Z := crc16_from 0 data.

Definition keySlot (key : string) : Z := crc16 (hashTag key) mod hashSlots.

Definition sameHashSlot (a b : string) : bool := keySlot a =? keySlot b.

(** The producer's own copy decides by [hasHashTag]. *)
Definition hasHashTag (key : string) : bool :=
  match IndexByte key lbrace with
  | None => false
  | Some start =>
      match IndexByte (str_drop (S start) key) rbrace with
      | None | Some O => false
      | Some _ => true
      end
  end.

Definition producer_slotKey (primary : string) (cluster : bool) : string :=
  if negb cluster || hasHashTag primary then primary else "{" +:+ primary +:+ "}".

Record claimKeys : Type := mkClaimKeys { ck_pending : string; ck_claimed : string; ck_owners : string; ck_idx : string }.

Definition newClaimKeys (queueName : string) (cluster : bool) : claimKeys :=
  let base := slotKey queueName cluster in
  mkClaimKeys queueName (base +:+ ":claimed") (base +:+ ":claim-owners") (base +:+ ":claims-idx").

Record resultClaimKeys : Type := mkResultClaimKeys {
  rk_pending : string; rk_claimed : string; rk_owners : string; rk_idx : string; rk_tombstones : string
}.

Definition newResultClaimKeys (route : string) (cluster : bool) : resultClaimKeys :=
  let base := producer_slotKey route cluster in
  mkResultClaimKeys route (base +:+ ":result-claimed") (base +:+ ":result-claim-owners")
    (base +:+ ":result-claims-idx") (base +:+ ":result-ack-tombstones").

(** ** Tags *)
Lemma hashTag_tagged key : hasHashTag key = true -> String.length (hashTag key) <> String.length key.
Proof.
  unfold hasHashTag, hashTag. destruct (IndexByte key lbrace) as [start|] eqn:E1; [|done].
  destruct (IndexByte (str_drop (S start) key) rbrace) as [[|e]|] eqn:E2; try done. intros _.
  apply IndexByte_lt in E1, E2. pose proof (str_drop_length (S start) key).
  rewrite str_take_length by lia. lia.
Qed.

Lemma hashTag_untagged key : hasHashTag key = false -> hashTag key = key.
Proof. unfold hasHashTag, hashTag. repeat case_match; done. Qed.

(** The two copies of [slotKey] agree. *)
Lemma slotKey_producer primary cluster : slotKey primary cluster = producer_slotKey primary cluster.
Proof.
  unfold slotKey, producer_slotKey. do 2 f_equal. destruct (hasHashTag primary) eqn:E.
  - apply hashTag_tagged in E. case_bool_decide as H; [|done]. by rewrite H in E.
  - apply hashTag_untagged in E. by rewrite bool_decide_true.
Qed.

(** A suffix does not change a tag. *)
Lemma hashTag_app key suffix : hasHashTag key = true -> hashTag (key +:+ suffix) = hashTag key.
Proof.
  unfold hasHashTag, hashTag. destruct (IndexByte key lbrace) as [start|] eqn:E1; [|done].
  destruct (IndexByte (str_drop (S start) key) rbrace) as [[|e]|] eqn:E2; try done. intros _.
  apply IndexByte_lt in E1 as Hl1. apply IndexByte_lt in E2 as Hl2.
  rewrite (IndexByte_app_Some _ suffix _ _ E1), str_drop_app by lia.
  rewrite (IndexByte_app_Some _ suffix _ _ E2). apply str_take_app. lia.
Qed.

Lemma hashTag_wrapped p suffix :
  p <> "" -> IndexByte p rbrace = None -> hashTag (("{" +:+ p +:+ "}") +:+ suffix) = p.
Proof.
  intros Hp Hn.
  assert (("{" +:+ p +:+ "}") +:+ suffix = String lbrace (p +:+ String rbrace suffix)) as ->.
  { clear. change (String lbrace ((p +:+ "}") +:+ suffix) = String lbrace (p +:+ String rbrace suffix)).
    f_equal. induction p as [|c p IH]; [done|]. change (String c ((p +:+ "}") +:+ suffix) = String c (p +:+ String rbrace suffix)).
    by f_equal. }
  unfold hashTag. change (IndexByte (String lbrace (p +:+ String rbrace suffix)) lbrace) with (Some O).
  cbv beta iota zeta. change (str_drop 1 (String lbrace (p +:+ String rbrace suffix))) with (p +:+ String rbrace suffix).
  rewrite IndexByte_app_None by done.
  change (IndexByte (String rbrace suffix) rbrace) with (Some O).
  change ((fun n : nat => (String.length p + n)%nat) <$> Some O) with (Some (String.length p + 0)%nat).
  rewrite Nat.add_0_r. destruct (String.length p) eqn:El; [by destruct p|]. rewrite <- El. apply str_take_full.
Qed.

(** The names [slotKey] is right for: a name with a tag, or a name that is
    not empty and has no closing brace. *)
Definition slot_safe (primary : string) : bool :=
  hasHashTag primary
  || (negb (bool_decide (primary = "")) && bool_decide (IndexByte primary rbrace = None)).

Lemma keySlot_slotKey p suffix : slot_safe p = true -> keySlot (slotKey p true +:+ suffix) = keySlot p.
Proof.
  intros Hs. rewrite slotKey_producer. unfold keySlot, producer_slotKey. do 2 f_equal. simpl.
  unfold slot_safe in Hs. destruct (hasHashTag p) eqn:Ht.
  - by apply hashTag_app.
  - simpl in Hs. apply andb_prop in Hs as [H1 H2%bool_decide_eq_true_1].
    rewrite (hashTag_untagged p) by done. apply hashTag_wrapped; [|done]. by case_bool_decide.
Qed.

(** ** Properties *)

(** In cluster mode, for every queue name with a hash tag and every
    non-empty name without a closing brace, the three private claim keys hash
    to the slot of the queue's own key; so do the four private keys of a result
    route. *)
Theorem private_keys_share_slot name :
  slot_safe name = true ->
  let c := newClaimKeys name true in
  let r := newResultClaimKeys name true in
  Forall (fun k => sameHashSlot (ck_pending c) k = true) [ck_claimed c; ck_owners c; ck_idx c]
  /\ Forall (fun k => sameHashSlot (rk_pending r) k = true)
       [rk_claimed r; rk_owners r; rk_idx r; rk_tombstones r].
Proof.
  intros Hs c r. unfold c, r, newClaimKeys, newResultClaimKeys. rewrite <- slotKey_producer.
  unfold sameHashSlot. simpl. repeat constructor; rewrite keySlot_slotKey by done; apply Z.eqb_refl.
Qed.

(** For other names the naming fails: a queue name with a closing brace
    and no tag has its claim keys in another slot than its pending key, so no
    script may touch both. *)
Theorem brace_name_splits_slots :
  let c := newClaimKeys "a}b" true in
  hashTag "a}b" = "a}b" /\ sameHashSlot (ck_pending c) (ck_claimed c) = false.
Proof. by split; vm_compute. Qed.

(** The checksum and the slots Redis documents. *)
Example crc16_check : crc16 "123456789" = 0x31C3.
Proof. by vm_compute. Qed.
Example keySlot_foo : keySlot "foo" = 12182 /\ keySlot "{foo}bar" = 12182.
Proof. by split; vm_compute. Qed.

Lemma private_keys_share_slot_witness :
  let c := newClaimKeys "request-sortedset" true in
  let r := newResultClaimKeys "request-sortedset" true in
  Forall (fun k => sameHashSlot (ck_pending c) k = true) [ck_claimed c; ck_owners c; ck_idx c]
  /\ Forall (fun k => sameHashSlot (rk_pending r) k = true)
       [rk_claimed r; rk_owners r; rk_idx r; rk_tombstones r].
Proof. apply (private_keys_share_slot "request-sortedset"). reflexivity. Defined.
