(* ===== verification/RedisClaim.v ===== *)
(** * Claims of the Redis sorted-set transport (src/pkg/redis/claim.go)

    The keys of one queue (its pending zset and its private claimed, owners
    and idx keys) are the fields of one record; the Lua scripts, which Redis
    runs atomically, are functions on it.  The Go methods are programs over the
    flow's own claim handles and Redis, any call of which may fail (see
    [Faulty]).  Keys of different roles are different keys.

    A score or an expiry is the rational its float64 stands for.  The random
    ownership token is an argument ([None]: the source of randomness failed);
    [unmarshal] is [json.Unmarshal] into an InternalRequest. *)
From stdpp Require Import prelude gmap strings list sorting.
From Stdlib Require Import ZArith QArith Lia Ascii.
From S2P Require Import Prelude Api KeySlot.

#[local] Open Scope Z_scope.

(** ** Redis *)
Record QueueKeys : Type := mkQueueKeys {
  pending : gmap string Q;       (* zset: member -> score *)
  claimed : gmap string string;  (* hash: claim id -> member *)
  owners : gmap string string;   (* hash: claim id -> ownership token *)
  idx : gmap string Q            (* zset: claim id -> lease expiry, unix seconds *)
}.

Definition noKeys : QueueKeys := mkQueueKeys ∅ ∅ ∅ ∅.

Record Redis : Type := mkRedis {
  queues : gmap string QueueKeys;
  retryset : gmap string Q;             (* the retry zset: member -> due time *)
  lists : gmap string (list string);    (* result lists, LPUSHed: newest first *)
  strs : gmap string string;            (* payloads and per-request markers *)
  ttls : gmap string Z                  (* EXPIRE, in seconds *)
}.

Definition emptyRedis : Redis := mkRedis ∅ ∅ ∅ ∅ ∅.

Definition queue_at (r : Redis) (q : string) : QueueKeys := default noKeys (queues r !! q).

Definition set_queue (q : string) (k : QueueKeys) (r : Redis) : Redis :=
  mkRedis (<[q := k]> (queues r)) (retryset r) (lists r) (strs r) (ttls r).
Definition set_retryset (s : gmap string Q) (r : Redis) : Redis :=
  mkRedis (queues r) s (lists r) (strs r) (ttls r).
Definition set_strs (s : gmap string string) (r : Redis) : Redis :=
  mkRedis (queues r) (retryset r) (lists r) s (ttls r).

(** LPUSH, and EXPIRE when the TTL is positive. *)
Definition lpush (list_key v : string) (listTTL : Z) (r : Redis) : Redis :=
  mkRedis (queues r) (retryset r) (<[list_key := v :: default [] (lists r !! list_key)]> (lists r)) (strs r)
    (if 0 <? listTTL then <[list_key := listTTL]> (ttls r) else ttls r).

(** HDEL claimed, HDEL owners, ZREM idx. *)
Definition drop_claim (id : string) (k : QueueKeys) : QueueKeys :=
  mkQueueKeys (pending k) (delete id (claimed k)) (delete id (owners k)) (delete id (idx k)).

Definition zadd_pending (member : string) (score : Q) (k : QueueKeys) : QueueKeys :=
  mkQueueKeys (<[member := score]> (pending k)) (claimed k) (owners k) (idx k).

(** ** The scripts: the keys after, and the integer returned *)
Definition claimScript (id member token : string) (expiry : Q) (k : QueueKeys) : QueueKeys * Z :=
  match pending k !! member with
  | None => (k, 0)
  | Some _ =>
      (mkQueueKeys (delete member (pending k)) (<[id := member]> (claimed k))
         (<[id := token]> (owners k)) (<[id := expiry]> (idx k)), 1)
  end.

Definition releaseClaimScript (id member : string) (score : Q) (token : string) (k : QueueKeys) : QueueKeys * Z :=
  if bool_decide (owners k !! id = Some token)
  then (drop_claim id (zadd_pending member score k), 1)
  else (k, 0).

(** Whether an ack by [token] passes the fence. *)
Definition owns (id token : string) (k : QueueKeys) : bool :=
  bool_decide (owners k !! id = Some token) && negb (bool_decide (token = "")).

Definition ackResultScript (q list_key : string) (payloadKey : option string)
    (id result token : string) (listTTL : Z) (r : Redis) : Redis * Z :=
  if owns id token (queue_at r q) then
    let r := lpush list_key result listTTL r in
    let r := set_queue q (drop_claim id (queue_at r q)) r in
    (match payloadKey with
     | Some p => set_strs (delete p (strs r)) r
     | None => r
     end, 1)
  else (r, 0).

Definition pushResultScript (list_key result : string) (listTTL : Z) (r : Redis) : Redis * Z :=
  (lpush list_key result listTTL r, 1).

Definition dropClaimScript (id token : string) (k : QueueKeys) : QueueKeys * Z :=
  if bool_decide (owners k !! id = Some token) then (drop_claim id k, 1) else (k, 0).

Definition reclaimExpiredScript (id : string) (score now : Q) (k : QueueKeys) : QueueKeys * Z :=
  match idx k !! id with
  | None => (k, 0)
  | Some exp =>
      if negb (Qle_bool exp now) then (k, 0)
      else match claimed k !! id with
           | None => (mkQueueKeys (pending k) (claimed k) (owners k) (delete id (idx k)), 0)
           | Some member => (drop_claim id (zadd_pending member score k), 1)
           end
  end.

Definition renewClaimScript (id : string) (expiry : Q) (token : string) (k : QueueKeys) : QueueKeys * Z :=
  if bool_decide (owners k !! id = Some token)
  then (mkQueueKeys (pending k) (claimed k) (owners k) (<[id := expiry]> (idx k)), 1)
  else (k, if bool_decide (is_Some (claimed k !! id)) then -1 else 0).

(** Run a script on one queue's keys. *)
Definition on_queue (q : string) (f : QueueKeys -> QueueKeys * Z) (r : Redis) : Redis * Z :=
  let '(k, n) := f (queue_at r q) in (set_queue q k r, n).

(** [claimKey]: the generation-scoped id. *)
Definition nul : string := String "000"%char EmptyString.
Definition claimKey (requestID requestToken : string) : string :=
  if bool_decide (requestToken = "") then requestID else requestID +:+ nul +:+ requestToken.

Record claimHandle : Type := mkClaimHandle {
  h_token : string;
  h_queue : string;
  h_deadline : Q;
  h_requestID : string;
  h_requestToken : string
}.

(** ** One queue's keys under the scripts

    The steps any number of flows and producers make on the keys of one queue.
    [claim_of] reads the claim id off a member ([None]: not a request). *)
Inductive claim_event : Type :=
| EvClaim (id token : string)
| EvAcked (id token : string).

#[export] Instance claim_event_eq_dec : EqDecision claim_event.
Proof. solve_decision. Defined.

(** An ack that is accepted is the owner's, and drops the claim. *)
Lemma ack_accepted q l p id res token ttl r r' : ackResultScript q l p id res token ttl r = (r', 1) ->
  owners (queue_at r q) !! id = Some token /\ queue_at r' q = drop_claim id (queue_at r q).
Proof.
  unfold ackResultScript. destruct (owns id token (queue_at r q)) eqn:Ho; [|done]. intros [= <-].
  unfold owns in Ho. apply andb_prop in Ho as [Ho%bool_decide_eq_true_1 _]. split; [done|].
  destruct p; unfold queue_at, set_queue, lpush; simpl; by rewrite lookup_insert_eq.
Qed.

Section queue_steps.
Context (claim_of : string -> option string).

Inductive claim_step : QueueKeys -> list claim_event -> QueueKeys -> Prop :=
| K_add member score k :           (* a producer, or the retry mover *)
    claim_step k [] (zadd_pending member score k)
| K_remove member k :              (* an entry that does not parse *)
    claim_of member = None ->
    claim_step k [] (mkQueueKeys (delete member (pending k)) (claimed k) (owners k) (idx k))
| K_claim id member token expiry k k' :
    claim_of member = Some id -> claimScript id member token expiry k = (k', 1) ->
    claim_step k [EvClaim id token] k'
| K_release id member score token k k' n :
    claim_of member = Some id -> releaseClaimScript id member score token k = (k', n) ->
    claim_step k [] k'
| K_ack q list_key payloadKey id result token listTTL r r' :
    ackResultScript q list_key payloadKey id result token listTTL r = (r', 1) ->
    claim_step (queue_at r q) [EvAcked id token] (queue_at r' q)
| K_drop id token k k' :           (* the last step of the cross-slot ack *)
    dropClaimScript id token k = (k', 1) -> claim_step k [EvAcked id token] k'
| K_reclaim id score now k k' n :
    reclaimExpiredScript id score now k = (k', n) -> claim_step k [] k'
| K_renew id expiry token k k' n :
    renewClaimScript id expiry token k = (k', n) -> claim_step k [] k'.

Inductive claim_steps : QueueKeys -> list claim_event -> QueueKeys -> Prop :=
| claim_steps_nil k : claim_steps k [] k
| claim_steps_snoc k evs k1 evs' k2 :
    claim_steps k evs k1 -> claim_step k1 evs' k2 -> claim_steps k (evs ++ evs') k2.

(** The invariant: a claim is a member, an owner and a lease, all three or
    none, and its member is a request with the claim's id. *)
Record keys_good (k : QueueKeys) : Prop := {
  kg_owners id : is_Some (owners k !! id) <-> is_Some (claimed k !! id);
  kg_idx id : is_Some (idx k !! id) <-> is_Some (claimed k !! id);
  kg_member id m : claimed k !! id = Some m -> claim_of m = Some id
}.

(** The request is waiting or claimed. *)
Definition in_queue (id : string) (k : QueueKeys) : Prop :=
  is_Some (claimed k !! id) \/ exists m, is_Some (pending k !! m) /\ claim_of m = Some id.

Lemma keys_good_empty : keys_good noKeys.
Proof. split; intros; simpl in *; rewrite ?lookup_empty in *; naive_solver. Qed.

Lemma drop_claim_good id k : keys_good k -> keys_good (drop_claim id k).
Proof.
  intros [H1 H2 H3]. split; simpl.
  - intros id'. destruct (decide (id = id')) as [->|]; [by rewrite !lookup_delete_eq|].
    rewrite !lookup_delete_ne by done. auto.
  - intros id'. destruct (decide (id = id')) as [->|]; [by rewrite !lookup_delete_eq|].
    rewrite !lookup_delete_ne by done. auto.
  - intros id' m [_ ?]%lookup_delete_Some. auto.
Qed.

Lemma zadd_good m s k : keys_good k -> keys_good (zadd_pending m s k).
Proof. intros [H1 H2 H3]. by split. Qed.

Lemma is_Some_insert_iff {A B : Type} (m : gmap string A) (m' : gmap string B) id a b :
  (forall i, is_Some (m !! i) <-> is_Some (m' !! i)) ->
  forall i, is_Some (<[id := a]> m !! i) <-> is_Some (<[id := b]> m' !! i).
Proof.
  intros H i. destruct (decide (id = i)) as [->|].
  - rewrite !lookup_insert_eq. split; eauto.
  - by rewrite !lookup_insert_ne.
Qed.

Lemma claim_step_good k evs k' : claim_step k evs k' -> keys_good k -> keys_good k'.
Proof.
  intros Hs Hg. destruct Hs as [| |id m t e k k' Hm H|id m sc t k k' n Hm H
    |q l p id res t ttl r r' H|id t k k' H|id sc now k k' n H|id e t k k' n H]; auto using zadd_good.
  - destruct Hg. by split.
  - unfold claimScript in H. destruct (pending k !! m); simplify_eq. destruct Hg as [H1 H2 H3].
    split; simpl; auto using is_Some_insert_iff.
    intros id' m'. rewrite lookup_insert_Some. intros [[<- <-]|[_ ?]]; auto.
  - unfold releaseClaimScript in H. case_bool_decide; simplify_eq; auto using zadd_good, drop_claim_good.
  - destruct (ack_accepted _ _ _ _ _ _ _ _ _ H) as [_ ->]. by apply drop_claim_good.
  - unfold dropClaimScript in H. case_bool_decide; simplify_eq; auto using drop_claim_good.
  - unfold reclaimExpiredScript in H. destruct (idx k !! id) as [exp|] eqn:E; [|by simplify_eq].
    destruct (Qle_bool exp now); simplify_eq/=; [|done].
    destruct (claimed k !! id) eqn:Ec; simplify_eq; auto using zadd_good, drop_claim_good.
    destruct (proj1 (kg_idx k Hg id)); [by rewrite E|congruence].
  - unfold renewClaimScript in H. case_bool_decide as Ho; simplify_eq; [|done].
    destruct Hg as [H1 H2 H3]. split; simpl; auto. intros id'. destruct (decide (id = id')) as [->|].
    + rewrite lookup_insert_eq, <- H1, Ho. split; eauto.
    + by rewrite lookup_insert_ne.
Qed.

Lemma in_queue_pending id m k :
  claim_of m = Some id -> is_Some (pending k !! m) -> in_queue id k.
Proof. intros. right. eauto. Qed.

Lemma in_queue_zadd id m s k : in_queue id k -> in_queue id (zadd_pending m s k).
Proof.
  intros [H|(m' & Hm' & E)]; [by left|]. right. exists m'. split; [|done]. simpl.
  by apply lookup_insert_is_Some'; right.
Qed.

(** Dropping a claim whose member has gone back to pending. *)
Lemma in_queue_back id id' m s k :
  claim_of m = Some id' -> in_queue id k -> in_queue id (drop_claim id' (zadd_pending m s k)).
Proof.
  intros Hm. destruct (decide (id = id')) as [->|Hne].
  - intros _. apply (in_queue_pending _ m); [done|]. simpl. rewrite lookup_insert_eq. eauto.
  - intros [H|H]%(in_queue_zadd id m s); [|by right].
    left. simpl in *. by rewrite lookup_delete_ne.
Qed.

Lemma claim_step_in_queue id k evs k' :
  claim_step k evs k' -> keys_good k -> (forall token, EvAcked id token ∉ evs) ->
  in_queue id k -> in_queue id k'.
Proof.
  intros Hs Hg Hev Hq. destruct Hs as [m s k|m k Hm|id' m t e k k' Hm H|id' m sc t k k' n Hm H
    |q l p id' res t ttl r r' H|id' t k k' H|id' sc now k k' n H|id' e t k k' n H].
  - by apply in_queue_zadd.
  - destruct Hq as [?|(m' & Hm' & E)]; [by left|]. apply (in_queue_pending _ m'); [done|]. simpl.
    rewrite lookup_delete_ne; [done|]. intros ->. congruence.
  - unfold claimScript in H. destruct (pending k !! m) eqn:Em; simplify_eq.
    destruct (decide (id = id')) as [->|Hne]; [left; simpl; rewrite lookup_insert_eq; eauto|].
    destruct Hq as [?|(m' & Hm' & E)]; [left; simpl; by rewrite lookup_insert_ne|].
    apply (in_queue_pending _ m'); [done|]. simpl. rewrite lookup_delete_ne; [done|].
    intros ->. congruence.
  - unfold releaseClaimScript in H. case_bool_decide; simplify_eq; [|done]. by apply in_queue_back.
  - assert (id <> id') by (intros ->; by apply (Hev t), list_elem_of_singleton).
    destruct (ack_accepted _ _ _ _ _ _ _ _ _ H) as [_ ->].
    destruct Hq as [?|?]; [left; simpl; by rewrite lookup_delete_ne|by right].
  - assert (id <> id') by (intros ->; by apply (Hev t), list_elem_of_singleton).
    unfold dropClaimScript in H. case_bool_decide; simplify_eq.
    destruct Hq as [?|?]; [left; simpl; by rewrite lookup_delete_ne|by right].
  - unfold reclaimExpiredScript in H. destruct (idx k !! id') as [exp|]; [|by simplify_eq].
    destruct (Qle_bool exp now); simplify_eq/=; [|done].
    destruct (claimed k !! id') as [m|] eqn:Ec; simplify_eq; [|done].
    apply in_queue_back; [|done]. by eapply kg_member.
  - unfold renewClaimScript in H. by case_bool_decide; simplify_eq.
Qed.

(** How often a trace claims and acks an id with a token. *)
Definition claims (id token : string) (evs : list claim_event) : nat :=
  length (filter (fun e => e = EvClaim id token) evs).
Definition acked (id token : string) (evs : list claim_event) : nat :=
  length (filter (fun e => e = EvAcked id token) evs).
Definition holds (id token : string) (k : QueueKeys) : nat :=
  if decide (owners k !! id = Some token) then 1 else 0.

Lemma holds_drop id token id' k :
  holds id token (drop_claim id' k) = if decide (id = id') then O else holds id token k.
Proof.
  unfold holds. simpl. case_decide as E; case_decide as E'; subst;
    rewrite ?lookup_delete_eq, ?lookup_delete_ne in E by done; try done.
  - by rewrite decide_True.
  - by rewrite decide_False.
Qed.

Lemma holds_le id token k : (holds id token k <= 1)%nat.
Proof. unfold holds. case_decide; lia. Qed.

Lemma claims_one id token id' t : claims id token [EvClaim id' t] = if decide (id = id' /\ token = t) then 1%nat else O.
Proof.
  unfold claims. rewrite filter_cons. case_decide; case_decide; naive_solver.
Qed.

Lemma acked_one id token id' t : acked id token [EvAcked id' t] = if decide (id = id' /\ token = t) then 1%nat else O.
Proof.
  unfold acked. rewrite filter_cons. case_decide; case_decide; naive_solver.
Qed.

Lemma ack_counts id token id' t k :
  owners k !! id' = Some t ->
  (acked id token [EvAcked id' t] + holds id token (drop_claim id' k) <= holds id token k)%nat.
Proof.
  intros Ho. rewrite acked_one, holds_drop. case_decide as E.
  - destruct E as [-> ->]. rewrite decide_True by done. unfold holds. by rewrite decide_True.
  - case_decide; lia.
Qed.

Lemma claim_step_counts id token k evs k' :
  claim_step k evs k' ->
  (acked id token evs + holds id token k' <= claims id token evs + holds id token k)%nat.
Proof.
  intros Hs. destruct Hs as [m s k|m k Hm|id' m t e k k' Hm H|id' m sc t k k' n Hm H
    |q l p id' res t ttl r r' H|id' t k k' H|id' sc now k k' n H|id' e t k k' n H]; try done.
  - unfold claimScript in H. destruct (pending k !! m); simplify_eq. rewrite claims_one.
    pose proof (holds_le id token (mkQueueKeys (delete m (pending k)) (<[id':=m]> (claimed k))
      (<[id':=t]> (owners k)) (<[id':=e]> (idx k)))).
    case_decide as E; [change (acked id token [EvClaim id' t]) with O; lia|].
    change (acked id token [EvClaim id' t]) with O. unfold holds; simpl.
    destruct (decide (id = id')) as [->|]; [|by rewrite lookup_insert_ne].
    rewrite lookup_insert_eq. rewrite decide_False by naive_solver. lia.
  - unfold releaseClaimScript in H. case_bool_decide; simplify_eq; [|done].
    rewrite holds_drop. case_decide; [cbn; lia|done].
  - destruct (ack_accepted _ _ _ _ _ _ _ _ _ H) as [Ho ->]. etrans; [by apply ack_counts|lia].
  - unfold dropClaimScript in H. case_bool_decide; simplify_eq. etrans; [by apply ack_counts|lia].
  - unfold reclaimExpiredScript in H. repeat case_match; simplify_eq; try done.
    rewrite holds_drop. case_decide; [cbn; lia|done].
  - unfold renewClaimScript in H. by case_bool_decide; simplify_eq.
Qed.

Lemma claims_app id token l l' : claims id token (l ++ l') = (claims id token l + claims id token l')%nat.
Proof. unfold claims. by rewrite filter_app, length_app. Qed.
Lemma acked_app id token l l' : acked id token (l ++ l') = (acked id token l + acked id token l')%nat.
Proof. unfold acked. by rewrite filter_app, length_app. Qed.

Lemma claim_steps_good k evs k' : claim_steps k evs k' -> keys_good k -> keys_good k'.
Proof. induction 1; eauto using claim_step_good. Qed.

Lemma claim_steps_counts id token k evs k' :
  claim_steps k evs k' ->
  (acked id token evs + holds id token k' <= claims id token evs + holds id token k)%nat.
Proof.
  induction 1 as [|k evs k1 evs' k2 _ IH Hs]; [done|].
  apply (claim_step_counts id token) in Hs. rewrite claims_app, acked_app. lia.
Qed.
End queue_steps.

(** ** The methods of claim.go *)
#[local] Open Scope faulty_scope.

Inductive RedisErr : Type :=
| ErrRedis      (* the call failed *)
| ErrToken      (* no randomness *)
| ErrNilRequest. (* a nil pointer dereference: the goroutine panics *)

(** A flow's claim handles, and Redis. *)
Abbreviation Claims := (gmap string claimHandle).
Abbreviation FlowM := (Faulty (Claims * Redis) RedisErr).

Definition redis_do {A : Type} (f : Redis -> Redis * A) : FlowM A :=
  f_call ErrRedis (fun '(h, r) => let '(r', a) := f r in Ok ((h, r'), a)).

Definition handles (f : Claims -> Claims) : FlowM unit := f_local (fun '(h, r) => ((f h, r), tt)).
Definition handle_of (id : string) : FlowM (option claimHandle) := f_local (fun '(h, r) => ((h, r), h !! id)).

Definition reclaimGraceAfterDeadline : Z := 5 * Minute.
Definition reclaimBatchSize : nat := 100.

(** [Duration.Seconds] *)
Definition Seconds (d : Z) : Q := d # 1000000000.

Section claims_flow.
Context (clusterKeys : bool) (claimLeaseTTL : Z) (unmarshal : string -> option InternalRequest).

(** [now] is [time.Now()]. *)
Definition claimExpiry (now : Z) (deadline : Q) : Q :=
  let expiry := (inject_Z (Unix now) + Seconds claimLeaseTTL)%Q in
  let grace := Seconds reclaimGraceAfterDeadline in
  if negb (Qle_bool deadline 0) && negb (Qle_bool expiry (deadline + grace))
  then (deadline + grace)%Q else expiry.

(** [Some token]: claimed. *)
Definition claimRequest (now : Z) (tok : option string) (q : string) (ir : InternalRequest)
    (member : string) (deadline : Q) : FlowM (option string) :=
  match tok, ir_view ir with
  | None, _ => f_fail ErrToken
  | _, None => f_fail ErrNilRequest
  | Some token, Some m =>
      let reqID := rm_ID m in
      let reqToken := rt_RequestToken (ir_Routing ir) in
      let id := claimKey reqID reqToken in
      do! res <- redis_do (on_queue q (claimScript id member token (claimExpiry now deadline)));
      if res =? 0 then f_ret None
      else do> handles (<[id := mkClaimHandle token q deadline reqID reqToken]>);
           f_ret (Some token)
  end.

Definition releaseClaim (q requestID requestToken member : string) (score : Q) (token : string) : FlowM unit :=
  let id := claimKey requestID requestToken in
  do> redis_do (on_queue q (releaseClaimScript id member score token));
  handles (delete id).

(** The cross-slot branch of the cluster ack. *)
Definition ackCrossSlot (now : Z) (q resultList id : string) (deadline : Q) (token resultJSON : string)
    (listTTLSec : Z) : FlowM bool :=
  do! res <- redis_do (on_queue q (renewClaimScript id (claimExpiry now deadline) token));
  if negb (res =? 1) then do> handles (delete id); f_ret false
  else
    do> redis_do (pushResultScript resultList resultJSON listTTLSec);
    do> handles (delete id);
    do> f_try (redis_do (on_queue q (dropClaimScript id token)));
    f_ret true.

Definition ackResultCluster (now : Z) (q resultList id : string) (deadline : Q) (token resultJSON : string)
    (listTTLSec : Z) : FlowM bool :=
  if sameHashSlot (ck_owners (newClaimKeys q clusterKeys)) resultList then
    do! res <- redis_do (ackResultScript q resultList None id resultJSON token listTTLSec);
    do> handles (delete id);
    f_ret (res =? 1)
  else ackCrossSlot now q resultList id deadline token resultJSON listTTLSec.

Definition redis_del (key : string) : FlowM unit :=
  redis_do (fun r => (set_strs (delete key (strs r)) r, tt)).

(** [listTTL] is a duration. *)
Definition ackResult (now : Z) (q resultList requestID requestToken payloadRef resultJSON : string)
    (listTTL : Z) : FlowM bool :=
  let id := claimKey requestID requestToken in
  do! h <- handle_of id;
  let token := match h with Some h => h_token h | None => "" end in
  let deadline := match h with Some h => h_deadline h | None => 0%Q end in
  let listTTLSec := if 0 <? listTTL then listTTL / Second else 0 in
  if clusterKeys then
    do! pushed <- ackResultCluster now q resultList id deadline token resultJSON listTTLSec;
    if pushed && negb (bool_decide (payloadRef = ""))
    then do> f_try (redis_del payloadRef); f_ret pushed
    else f_ret pushed
  else
    let payloadKey := if bool_decide (payloadRef = "") then None else Some payloadRef in
    do! res <- redis_do (ackResultScript q resultList payloadKey id resultJSON token listTTLSec);
    do> handles (delete id);
    f_ret (negb (res =? 0)).

Definition renewClaim (now : Z) (q requestID requestToken : string) (deadline : Q) (token : string) : FlowM Z :=
  redis_do (on_queue q (renewClaimScript (claimKey requestID requestToken) (claimExpiry now deadline) token)).

(** ZRANGE idx BYSCORE -inf now LIMIT 0 100: earliest lease first. *)
Definition lease_le (a b : string * Q) : Prop := Qle_bool a.2 b.2 = true.
#[export] Instance lease_le_dec : RelDecision lease_le.
Proof. unfold lease_le. intros a b. solve_decision. Defined.

Definition expired_ids (q : string) (now : Q) (r : Redis) : list string :=
  (take reclaimBatchSize
     (merge_sort lease_le (select_where (fun _ e => Qle_bool e now) (idx (queue_at r q))))).*1.

(** The queue score of a claimed member, 0 when it does not parse. *)
Definition member_score (payload : option string) : Q :=
  match payload ≫= unmarshal with
  | Some ir => match ir_Public ir with
               | Some _ => default 0%Q (QueueScore ir)
               | None => 0%Q
               end
  | None => 0%Q
  end.

Definition reclaimOne (q id : string) (now : Q) : FlowM Z :=
  do! payload <- redis_do (fun r => (r, claimed (queue_at r q) !! id));
  redis_do (on_queue q (reclaimExpiredScript id (member_score payload) now)).

Fixpoint reclaimIDs (q : string) (now : Q) (ids : list string) (released : Z) : FlowM Z :=
  match ids with
  | [] => f_ret released
  | id :: ids' =>
      do! res <- reclaimOne q id now;
      reclaimIDs q now ids' (if res =? 1 then released + 1 else released)
  end.

(** [snapshot]: the names of the registered queues.  The count is dropped on
    error; the only caller ignores it. *)
Fixpoint reclaimExpiredClaims (now : Z) (snapshot : list string) (released : Z) : FlowM Z :=
  match snapshot with
  | [] => f_ret released
  | q :: snapshot' =>
      let nowSec := inject_Z (Unix now) in
      do! ids <- redis_do (fun r => (r, expired_ids q nowSec r));
      do! n <- reclaimIDs q nowSec ids released;
      reclaimExpiredClaims now snapshot' n
  end.

Definition heartbeatInterval : Z :=
  let hb := claimLeaseTTL / 3 in
  let hb := if hb <? Second then Second else hb in
  if 30 * Second <? hb then 30 * Second else hb.

Definition heartbeatOne (now : Z) (id : string) (h : claimHandle) : FlowM unit :=
  if bool_decide (id = "") then f_ret tt
  else
    let reqID := if bool_decide (h_requestID h = "") then id else h_requestID h in
    do! r <- f_try (renewClaim now (h_queue h) reqID (h_requestToken h) (h_deadline h) (h_token h));
    match r with
    | Err _ => f_ret tt
    | Ok res => if negb (res =? 1) then handles (delete id) else f_ret tt
    end.

Fixpoint heartbeatEach (now : Z) (hs : list (string * claimHandle)) : FlowM unit :=
  match hs with
  | [] => f_ret tt
  | (id, h) :: hs' => do> heartbeatOne now id h; heartbeatEach now hs'
  end.

Definition heartbeatClaims (now : Z) : FlowM unit :=
  do! hs <- f_local (fun '(h, r) => ((h, r), map_to_list h));
  heartbeatEach now hs.

(** ** The claim id of a member, and what parses *)
Definition parse_ok (ir : InternalRequest) : option RequestMessage :=
  match ir_view ir with
  | Some m => if 0 <? rm_Deadline m then Some m else None
  | None => None
  end.

Definition member_claim (member : string) : option string :=
  match unmarshal member with
  | Some ir => (fun m => claimKey (rm_ID m) (rt_RequestToken (ir_Routing ir))) <$> parse_ok ir
  | None => None
  end.

(** ** Every method is a run of scripts on every queue *)
Definition flow_runs {A : Type} (m : FlowM A) : Prop :=
  forall h r fs a h' r' fs', m ((h, r), fs) = (a, ((h', r'), fs')) ->
  forall q, exists evs, claim_steps member_claim (queue_at r q) evs (queue_at r' q).

Lemma claim_steps_app k evs k1 evs' k2 :
  claim_steps member_claim k evs k1 -> claim_steps member_claim k1 evs' k2 ->
  claim_steps member_claim k (evs ++ evs') k2.
Proof.
  intros H1 H2. revert H1. induction H2 as [|? ? ? ? ? _ IH Hs]; intros H1; [by rewrite app_nil_r|].
  rewrite app_assoc. econstructor; eauto.
Qed.

Lemma flow_runs_ret {A : Type} (a : A) : flow_runs (f_ret a).
Proof. intros h r fs a' h' r' fs' [= <- <- <- <-] q. exists []. constructor. Qed.

Lemma flow_runs_fail {A : Type} (e : RedisErr) : flow_runs (f_fail e : FlowM A).
Proof. intros h r fs a' h' r' fs' [= <- <- <- <-] q. exists []. constructor. Qed.

Lemma flow_runs_bind {A B : Type} (m : FlowM A) (k : A -> FlowM B) :
  flow_runs m -> (forall a, flow_runs (k a)) -> flow_runs (f_bind m k).
Proof.
  intros Hm Hk h r fs b h' r' fs'. unfold f_bind.
  destruct (m (h, r, fs)) as [[a|e] [[h1 r1] fs1]] eqn:E.
  - intros H q. destruct (Hm _ _ _ _ _ _ _ E q) as (evs & Hs).
    destruct (Hk a _ _ _ _ _ _ _ H q) as (evs' & Hs'). eauto using claim_steps_app.
  - intros [= <- <- <- <-]. eauto.
Qed.

Lemma flow_runs_try {A : Type} (m : FlowM A) : flow_runs m -> flow_runs (f_try m).
Proof.
  intros Hm h r fs a h' r' fs'. unfold f_try. destruct (m (h, r, fs)) as [x [[h1 r1] fs1]] eqn:E.
  intros [= <- <- <- <-]. eauto.
Qed.

Lemma flow_runs_handles f : flow_runs (handles f).
Proof. intros h r fs a h' r' fs' [= <- <- <- <-] q. exists []. constructor. Qed.

Lemma flow_runs_handle_of id : flow_runs (handle_of id).
Proof. intros h r fs a h' r' fs' [= <- <- <- <-] q. exists []. constructor. Qed.

(** One Redis call. *)
Lemma flow_runs_do {A : Type} (f : Redis -> Redis * A) :
  (forall r q, exists evs, claim_steps member_claim (queue_at r q) evs (queue_at (f r).1 q)) ->
  flow_runs (redis_do f).
Proof.
  intros Hf h r fs a h' r' fs'. unfold redis_do, f_call. specialize (Hf r).
  destruct (f r) as [r1 x]. simpl in Hf.
  destruct (head fs) as [[]|]; intros [= <- <- <- <-] q; auto. exists []. constructor.
Qed.

Lemma queue_at_set q k r q' : queue_at (set_queue q k r) q' = if decide (q = q') then k else queue_at r q'.
Proof.
  unfold queue_at, set_queue. simpl. case_decide; subst.
  - by rewrite lookup_insert_eq.
  - by rewrite lookup_insert_ne.
Qed.

Lemma on_queue_runs q f :
  (forall k, exists evs, claim_steps member_claim k evs (f k).1) ->
  forall r q', exists evs, claim_steps member_claim (queue_at r q') evs (queue_at (on_queue q f r).1 q').
Proof.
  intros Hf r q'. unfold on_queue. specialize (Hf (queue_at r q)).
  destruct (f (queue_at r q)) as [k n]. simpl in *. rewrite queue_at_set.
  case_decide; subst; [done|]. exists []. constructor.
Qed.

Lemma claim_steps_one k evs k' :
  claim_step member_claim k evs k' -> exists evs', claim_steps member_claim k evs' k'.
Proof. intros H. exists ([] ++ evs). econstructor; [constructor|done]. Qed.

Lemma claim_script_runs id member token e k :
  member_claim member = Some id ->
  exists evs, claim_steps member_claim k evs (claimScript id member token e k).1.
Proof.
  intros Hm. destruct (claimScript id member token e k) as [k' n] eqn:E. simpl.
  assert (n = 1 \/ k' = k) as [->| ->].
  { unfold claimScript in E. destruct (pending k !! member); simplify_eq; auto. }
  - eapply claim_steps_one, K_claim; eauto.
  - exists []. constructor.
Qed.

Lemma release_script_runs id member sc token k :
  member_claim member = Some id ->
  exists evs, claim_steps member_claim k evs (releaseClaimScript id member sc token k).1.
Proof. intros Hm. eapply claim_steps_one, (K_release _ _ _ sc token); [done|apply surjective_pairing]. Qed.

Lemma renew_script_runs id e token k :
  exists evs, claim_steps member_claim k evs (renewClaimScript id e token k).1.
Proof. eapply claim_steps_one, (K_renew _ id e token). apply surjective_pairing. Qed.

Lemma reclaim_script_runs id sc now k :
  exists evs, claim_steps member_claim k evs (reclaimExpiredScript id sc now k).1.
Proof. eapply claim_steps_one, (K_reclaim _ id sc now). apply surjective_pairing. Qed.

Lemma drop_script_runs id token k :
  exists evs, claim_steps member_claim k evs (dropClaimScript id token k).1.
Proof.
  destruct (dropClaimScript id token k) as [k' n] eqn:E. simpl.
  assert (n = 1 \/ k' = k) as [->| ->].
  { unfold dropClaimScript in E. case_bool_decide; simplify_eq; auto. }
  - eapply claim_steps_one, K_drop; eauto.
  - exists []. constructor.
Qed.

Lemma ack_queue_at q l p id res token ttl r q' :
  queue_at (ackResultScript q l p id res token ttl r).1 q'
  = if owns id token (queue_at r q)
    then if decide (q = q') then drop_claim id (queue_at r q) else queue_at r q'
    else queue_at r q'.
Proof.
  unfold ackResultScript. destruct (owns id token (queue_at r q)); [|done].
  destruct p; cbn [fst]; [change (queue_at (set_strs ?s ?r1) q') with (queue_at r1 q')|];
    rewrite queue_at_set; by case_decide.
Qed.

Lemma ack_script_runs q l p id res token ttl r q' :
  exists evs, claim_steps member_claim (queue_at r q') evs
                (queue_at (ackResultScript q l p id res token ttl r).1 q').
Proof.
  destruct (owns id token (queue_at r q)) eqn:Eo; [|rewrite ack_queue_at, Eo; exists []; constructor].
  destruct (decide (q = q')) as [<-|N]; [|rewrite ack_queue_at, Eo, decide_False by done; exists []; constructor].
  eapply claim_steps_one, (K_ack _ q l p id res token ttl). unfold ackResultScript. by rewrite Eo.
Qed.

(** A script that leaves the queues alone. *)
Lemma other_runs {A : Type} (f : Redis -> Redis * A) :
  (forall r, queues (f r).1 = queues r) ->
  forall r q, exists evs, claim_steps member_claim (queue_at r q) evs (queue_at (f r).1 q).
Proof. intros Hf r q. exists []. unfold queue_at. rewrite Hf. constructor. Qed.

Create HintDb claims.
#[local] Hint Resolve flow_runs_ret flow_runs_fail flow_runs_bind flow_runs_try flow_runs_handles
  flow_runs_handle_of flow_runs_do on_queue_runs claim_script_runs release_script_runs renew_script_runs
  reclaim_script_runs drop_script_runs ack_script_runs : claims.

Ltac flow_tac :=
  repeat first
    [ progress auto with claims
    | apply flow_runs_do, other_runs; by intros
    | apply flow_runs_try
    | case_match
    | apply flow_runs_bind; intros ].

(** The request a flow passes to [claimRequest] is the one its member parses
    to. *)
Definition parsed_as (member : string) (ir : InternalRequest) : Prop :=
  exists m, ir_view ir = Some m /\ member_claim member = Some (claimKey (rm_ID m) (rt_RequestToken (ir_Routing ir))).

Lemma claimRequest_runs now tok q ir member dl :
  parsed_as member ir -> flow_runs (claimRequest now tok q ir member dl).
Proof. intros (m & Hv & Hm). unfold claimRequest. rewrite Hv. flow_tac. Qed.

Lemma releaseClaim_runs q id tk member sc token :
  member_claim member = Some (claimKey id tk) -> flow_runs (releaseClaim q id tk member sc token).
Proof. intros Hm. unfold releaseClaim. flow_tac. Qed.

Lemma ackResult_runs now q l id tk p res ttl : flow_runs (ackResult now q l id tk p res ttl).
Proof. unfold ackResult, ackResultCluster, ackCrossSlot, redis_del. flow_tac. Qed.

Lemma renewClaim_runs now q id tk dl token : flow_runs (renewClaim now q id tk dl token).
Proof. unfold renewClaim. flow_tac. Qed.

Lemma reclaimIDs_runs q now ids : forall n, flow_runs (reclaimIDs q now ids n).
Proof.
  induction ids as [|id ids IH]; intros n; cbn [reclaimIDs]; unfold reclaimOne; flow_tac.
Qed.

Lemma reclaimExpiredClaims_runs now qs : forall n, flow_runs (reclaimExpiredClaims now qs n).
Proof.
  induction qs as [|q qs IH]; intros n; cbn [reclaimExpiredClaims]; [flow_tac|].
  apply flow_runs_bind; [apply flow_runs_do, other_runs; by intros|]. intros ids.
  apply flow_runs_bind; auto using reclaimIDs_runs.
Qed.

Lemma heartbeatClaims_runs now : flow_runs (heartbeatClaims now).
Proof.
  unfold heartbeatClaims. apply flow_runs_bind.
  - intros h r fs a h' r' fs' [= <- <- <- <-] q. exists []. constructor.
  - intros hs. induction hs as [|[id h] hs IH]; cbn [heartbeatEach]; [flow_tac|].
    apply flow_runs_bind; [|done]. unfold heartbeatOne, renewClaim. flow_tac.
Qed.
End claims_flow.

(** ** Any number of flows and producers *)
Inductive flow_call : Type :=
| FClaim (now : Z) (tok : option string) (q : string) (ir : InternalRequest) (member : string) (deadline : Q)
| FRelease (q id tk member : string) (score : Q) (token : string)
| FAck (now : Z) (q l id tk payloadRef res : string) (listTTL : Z)
| FRenew (now : Z) (q id tk : string) (deadline : Q) (token : string)
| FReclaim (now : Z) (snapshot : list string)
| FHeartbeat (now : Z).

Section reachable.
Context (cluster : bool) (ttl : Z) (unmarshal : string -> option InternalRequest).

Definition flow_run (c : flow_call) : FlowM unit :=
  match c with
  | FClaim now tok q ir m d => do> claimRequest ttl now tok q ir m d; f_ret tt
  | FRelease q id tk m s t => releaseClaim q id tk m s t
  | FAck now q l id tk p res lt => do> ackResult cluster ttl now q l id tk p res lt; f_ret tt
  | FRenew now q id tk d t => do> renewClaim ttl now q id tk d t; f_ret tt
  | FReclaim now qs => do> reclaimExpiredClaims unmarshal now qs 0; f_ret tt
  | FHeartbeat now => heartbeatClaims ttl now
  end.

(** A flow claims and releases members under the id they parse to. *)
Definition flow_well_formed (c : flow_call) : Prop :=
  match c with
  | FClaim _ _ _ ir m _ => parsed_as unmarshal m ir
  | FRelease _ id tk m _ _ => member_claim unmarshal m = Some (claimKey id tk)
  | _ => True
  end.

(** The states of Redis that producers adding members and flows making calls,
    each from whatever handles it has and with whatever faults, can reach. *)
Inductive reachable : Redis -> Prop :=
| R_empty : reachable emptyRedis
| R_produce r q member score :
    reachable r -> reachable (set_queue q (zadd_pending member score (queue_at r q)) r)
| R_call r h fs c a h' r' fs' :
    reachable r -> flow_well_formed c -> flow_run c ((h, r), fs) = (a, ((h', r'), fs')) -> reachable r'.

Lemma flow_run_runs c : flow_well_formed c -> flow_runs unmarshal (flow_run c).
Proof.
  intros Hc. destruct c; cbn [flow_run flow_well_formed] in *;
    try (apply flow_runs_bind; [|intros; apply flow_runs_ret]).
  - by apply claimRequest_runs.
  - by apply releaseClaim_runs.
  - apply ackResult_runs.
  - apply renewClaim_runs.
  - apply reclaimExpiredClaims_runs.
  - apply heartbeatClaims_runs.
Qed.

(** ** Properties *)

(** Whatever flows do, with whatever calls failing, every claim of every
    queue is complete: it has a member, an owner and a lease, or none of the
    three, and its member parses to the request the claim is for. *)
Theorem redis_claims_complete r q : reachable r -> keys_good (member_claim unmarshal) (queue_at r q).
Proof.
  intros Hr. revert q. induction Hr as [|r q' m s _ IH|r h fs c a h' r' fs' _ IH Hc Hrun]; intros q.
  - apply keys_good_empty.
  - rewrite queue_at_set. case_decide; [|done]. by apply zadd_good.
  - destruct (flow_run_runs c Hc _ _ _ _ _ _ _ Hrun q) as (evs & Hs).
    eapply claim_steps_good; eauto.
Qed.
End reachable.

(** C2. A request in a queue stays in it, waiting or claimed, through every
    interleaving of claims, releases, renewals, reclaims and arrivals, until
    an acknowledgement of it is accepted. *)
Theorem redis_no_loss claim_of id k evs k' :
  keys_good claim_of k -> claim_steps claim_of k evs k' ->
  (forall token, EvAcked id token ∉ evs) -> in_queue claim_of id k -> in_queue claim_of id k'.
Proof.
  intros Hg Hs. induction Hs as [|k evs k1 evs' k2 Hs IH Hstep]; [done|].
  intros Hev Hq. setoid_rewrite not_elem_of_app in Hev.
  eapply claim_step_in_queue; [done|by eapply claim_steps_good|apply Hev|].
  apply IH; [done|apply Hev|done].
Qed.


Lemma heartbeatInterval_bounds ttl :
  3 * Second <= ttl -> Second <= heartbeatInterval ttl <= ttl / 3.
Proof.
  intros Ht. unfold heartbeatInterval.
  assert (Second <= ttl / 3) by (apply Z.div_le_lower_bound; lia).
  destruct (Z.ltb_spec (ttl / 3) Second); [lia|].
  destruct (Z.ltb_spec (30 * Second) (ttl / 3)); unfold Second in *; lia.
Qed.

(** With a lease of three seconds or more, a claim its owner renews every
    heartbeat interval does not lapse between two heartbeats: at any time up to
    the next one the reclaimer leaves it alone, unless the request's deadline
    and its grace period have passed. *)
Theorem heartbeat_keeps_claim ttl now d deadline k id score :
  3 * Second <= ttl -> 0 <= d <= heartbeatInterval ttl ->
  ((deadline <= 0)%Q \/ (inject_Z (Unix (now + d)) < deadline + 300)%Q) ->
  idx k !! id = Some (claimExpiry ttl now deadline) ->
  reclaimExpiredScript id score (inject_Z (Unix (now + d))) k = (k, 0).
Proof.
  intros Ht Hd Hdl Hi. unfold reclaimExpiredScript. rewrite Hi, Qle_bool_gt; [done|].
  assert (inject_Z (Unix (now + d)) < inject_Z (Unix now) + Seconds ttl)%Q as Hlease.
  { apply heartbeatInterval_bounds in Ht as Hb. unfold Unix, Seconds, Qlt, Qplus, inject_Z. simpl.
    assert (3 * (ttl / 3) <= ttl) by (apply Z.mul_div_le; lia).
    pose proof (Z.mul_div_le (now + d) Second ltac:(unfold Second; lia)).
    pose proof (Z.mul_succ_div_gt now Second ltac:(unfold Second; lia)).
    unfold Second in *. lia. }
  unfold claimExpiry. change (Seconds reclaimGraceAfterDeadline) with (300000000000 # 1000000000)%Q.
  destruct (Qle_bool deadline 0) eqn:E0; [done|]. cbn [negb andb].
  case_match; [|done]. destruct Hdl as [Hdl|Hdl].
  - apply Qle_bool_iff in Hdl. congruence.
  - eapply Qlt_le_trans; [exact Hdl|]. apply Qplus_le_r. unfold Qle. simpl. lia.
Qed.

(** ** Witnesses *)
Definition w_msg : RequestMessage := mkRequestMessage "r1" 0 100 RawNil ∅ ∅ "" "".
Definition w_ir : InternalRequest := mkInternalRequest zeroRouting (Some (PlainRequest (Some w_msg))) 0.
(** A decoder that knows one member. *)
Definition w_unmarshal (m : string) : option InternalRequest :=
  if bool_decide (m = "m1") then Some w_ir else None.
Definition w_produced : Redis := set_queue "q" (zadd_pending "m1" 100 noKeys) emptyRedis.
Definition w_claim : flow_call := FClaim 0 (Some "tokA") "q" w_ir "m1" 100.
Definition w_claimed : Redis := (flow_run false (30 * Second) w_unmarshal w_claim ((∅, w_produced), [])).2.1.2.

Lemma redis_claims_complete_witness : keys_good (member_claim w_unmarshal) (queue_at w_claimed "q").
Proof.
  apply (redis_claims_complete false (30 * Second) w_unmarshal w_claimed "q").
  eapply (R_call _ _ _ w_produced ∅ [] w_claim).
  - apply (R_produce _ _ _ emptyRedis "q" "m1" 100), R_empty.
  - exists w_msg. split; reflexivity.
  - reflexivity.
Defined.

Definition w_of (m : string) : option string := if bool_decide (m = "m1") then Some "r1" else None.
Definition w_keys : QueueKeys := zadd_pending "m1" 100 noKeys.
Definition w_run_keys : QueueKeys := (claimScript "r1" "m1" "tokA" 30 w_keys).1.
Definition w_reclaimed : QueueKeys := (reclaimExpiredScript "r1" 100 31 w_run_keys).1.

Lemma w_steps : claim_steps w_of w_keys ([EvClaim "r1" "tokA"] ++ []) w_reclaimed.
Proof.
  eapply claim_steps_snoc; [apply (claim_steps_snoc _ w_keys [] w_keys [EvClaim "r1" "tokA"] w_run_keys)|].
  - constructor.
  - by apply (K_claim w_of "r1" "m1" "tokA" 30).
  - by apply (K_reclaim w_of "r1" 100 31 w_run_keys w_reclaimed 1).
Qed.

Lemma redis_no_loss_witness : in_queue w_of "r1" w_reclaimed.
Proof.
  apply (redis_no_loss w_of "r1" w_keys ([EvClaim "r1" "tokA"] ++ []) w_reclaimed).
  - apply zadd_good, keys_good_empty.
  - exact w_steps.
  - intros t H. apply list_elem_of_singleton in H. discriminate H.
  - right. exists "m1". split; [exists 100%Q|]; reflexivity.
Defined.


Definition w_leased : QueueKeys := (claimScript "r1" "m1" "tokA" (claimExpiry (30 * Second) 0 100) w_keys).1.

Lemma heartbeat_keeps_claim_witness :
  reclaimExpiredScript "r1" 100 (inject_Z (Unix (0 + 10 * Second))) w_leased = (w_leased, 0).
Proof.
  apply (heartbeat_keeps_claim (30 * Second) 0 (10 * Second) 100 w_leased "r1" 100).
  - vm_compute. discriminate.
  - split; vm_compute; discriminate.
  - right. reflexivity.
  - reflexivity.
Defined.
