(* ===== verification/ResultDelivery.v ===== *)
(** * Durable delivery of results to the producer

    [producer/redis_result_delivery.go]: the scripts that claim the oldest
    result of a route, renew a delivery and acknowledge it, and the receive
    loop around them.  One [Route] holds the five keys of a result route; each
    script is one step on it at the server's time, in milliseconds.  [decode]
    is [cjson.decode] of a result: what the script reads of it. *)
From stdpp Require Import prelude gmap strings list sorting.
From Stdlib Require Import ZArith Lia.
From S2P Require Import Prelude RedisClaim.

#[local] Open Scope Z_scope.

Definition defaultResultClaimLeaseTTL : Z := 5 * Minute.
Definition resultAckTombstoneTTL : Z := 7 * 24 * 3600 * 1000.
Definition resultReclaimBatchSize : nat := 100.
Definition resultReceiveScanBatchSize : nat := 100.
Definition resultTombstoneCleanupBatchSize : nat := 100.

(** ** The keys of a route *)
Record Route : Type := mkRoute {
  rt_pending : list string;           (* oldest first: LPUSH appends, RPOP takes the head *)
  rt_claimed : gmap string string;    (* claim id -> result *)
  rt_owners : gmap string string;
  rt_idx : gmap string Z;             (* claim id -> expiry of its lease *)
  rt_tombstones : gmap string Z;      (* acked claim id -> expiry *)
  rt_tombTTL : Z                      (* when the tombstone key itself expires *)
}.

Definition emptyRoute : Route := mkRoute [] ∅ ∅ ∅ ∅ 0.

Definition lpush_result (p : string) (r : Route) : Route :=
  mkRoute (rt_pending r ++ [p]) (rt_claimed r) (rt_owners r) (rt_idx r) (rt_tombstones r) (rt_tombTTL r).

(** Redis drops the whole tombstone key once its TTL has run out. *)
Definition expire_keys (now : Z) (r : Route) : Route :=
  if rt_tombTTL r <=? now
  then mkRoute (rt_pending r) (rt_claimed r) (rt_owners r) (rt_idx r) ∅ (rt_tombTTL r) else r.

Definition score_le (a b : string * Z) : Prop := (a.2 <? b.2) || ((a.2 =? b.2) && String.leb a.1 b.1) = true.
#[export] Instance score_le_dec : RelDecision score_le.
Proof. intros a b. unfold score_le. apply _. Defined.

(** ZRANGEBYSCORE key -inf now LIMIT 0 n *)
Definition up_to (now : Z) (n : nat) (z : gmap string Z) : list string :=
  (take n (filter (fun e => e.2 <=? now = true) (merge_sort score_le (map_to_list z)))).*1.

(** What the script reads of a result: its id, and its token. *)
Inductive token : Type := TokAbsent | TokString (s : string) | TokOther.

(** The script's replies. *)
Inductive received : Type :=
| REmpty                              (* {} *)
| RSkip                               (* {0} *)
| RResult (payload claimID : string)  (* {1, ..} *)
| RBad (payload claimID : string).    (* {-1, ..} *)

Section delivery.
Context (decode : string -> option (string * token)) (leaseMs : Z).

(** The claim id of a result; None when it does not parse. *)
Definition result_key (payload : string) : option string :=
  match decode payload with
  | Some (id, tok) =>
      if bool_decide (id = "") then None
      else match tok with
           | TokAbsent => Some id
           | TokString t => Some (claimKey id t)
           | TokOther => None
           end
  | None => None
  end.

Definition unparsable_id (owner : string) : string := nul +:+ "unparsable-result" +:+ nul +:+ owner.

(** *** receiveResultScript *)
Definition reclaim_one (claimID : string) (r : Route) : Route :=
  mkRoute (match rt_claimed r !! claimID with Some p => p :: rt_pending r | None => rt_pending r end)
    (delete claimID (rt_claimed r)) (delete claimID (rt_owners r)) (delete claimID (rt_idx r))
    (rt_tombstones r) (rt_tombTTL r).

(** Last expired first, so that the oldest lease ends up next in line. *)
Definition requeue_expired (now : Z) (r : Route) : Route :=
  foldr reclaim_one r (up_to now resultReclaimBatchSize (rt_idx r)).

Definition set_tombstones (t : gmap string Z) (r : Route) : Route :=
  mkRoute (rt_pending r) (rt_claimed r) (rt_owners r) (rt_idx r) t (rt_tombTTL r).

Definition delete_keys (ks : list string) (m : gmap string Z) : gmap string Z := foldr delete m ks.

Definition clean_tombstones (now : Z) (r : Route) : Route :=
  set_tombstones (delete_keys (up_to now resultTombstoneCleanupBatchSize (rt_tombstones r)) (rt_tombstones r)) r.

Definition rpop (r : Route) : Route :=
  mkRoute (tail (rt_pending r)) (rt_claimed r) (rt_owners r) (rt_idx r) (rt_tombstones r) (rt_tombTTL r).

Definition claim_result (owner : string) (now : Z) (payload claimID : string) (r : Route) : Route :=
  mkRoute (tail (rt_pending r)) (<[claimID := payload]> (rt_claimed r)) (<[claimID := owner]> (rt_owners r))
    (<[claimID := now + leaseMs]> (rt_idx r)) (rt_tombstones r) (rt_tombTTL r).

Fixpoint scan (owner : string) (now : Z) (n : nat) (r : Route) : Route * received :=
  match n with
  | O => (r, RSkip)
  | S n' =>
      match rt_pending r with
      | [] => (r, REmpty)
      | payload :: _ =>
          match result_key payload with
          | None => (claim_result owner now payload (unparsable_id owner) r, RBad payload (unparsable_id owner))
          | Some claimID =>
              let '(r1, tombstoned) :=
                match rt_tombstones r !! claimID with
                | Some e => if e <=? now then (set_tombstones (delete claimID (rt_tombstones r)) r, false) else (r, true)
                | None => (r, false)
                end in
              if tombstoned then scan owner now n' (rpop r1)
              else if bool_decide (is_Some (rt_owners r1 !! claimID)) then scan owner now n' (rpop r1)
              else (claim_result owner now payload claimID r1, RResult payload claimID)
          end
      end
  end.

Definition receiveResultScript (owner : string) (now : Z) (r0 : Route) : Route * received :=
  let r := clean_tombstones now (requeue_expired now (expire_keys now r0)) in
  match Nat.min (length (rt_pending r)) resultReceiveScanBatchSize with
  | O => (r, REmpty)
  | S n => scan owner now (S n) r
  end.

(** *** renewResultScript *)
Definition live_owner (claimID owner : string) (now : Z) (r : Route) : bool :=
  bool_decide (rt_owners r !! claimID = Some owner) && negb (bool_decide (owner = "")) &&
  match rt_idx r !! claimID with Some e => now <? e | None => false end.

Definition renewResultScript (claimID owner : string) (now : Z) (r : Route) : Route * Z :=
  if live_owner claimID owner now r
  then (mkRoute (rt_pending r) (rt_claimed r) (rt_owners r) (<[claimID := now + leaseMs]> (rt_idx r))
          (rt_tombstones r) (rt_tombTTL r), 1)
  else (r, 0).

(** *** ackResultDeliveryScript *)
Definition ackResultDeliveryScript (claimID owner : string) (now : Z) (r0 : Route) : Route * Z :=
  let r := clean_tombstones now (expire_keys now r0) in
  if live_owner claimID owner now r
  then (mkRoute (rt_pending r) (delete claimID (rt_claimed r)) (delete claimID (rt_owners r)) (delete claimID (rt_idx r))
          (<[claimID := now + resultAckTombstoneTTL]> (rt_tombstones r)) (now + resultAckTombstoneTTL), 1)
  else match rt_tombstones r !! claimID with
       | Some e => if now <? e then (r, 2) else (set_tombstones (delete claimID (rt_tombstones r)) r, 0)
       | None => (r, 0)
       end.

(** ClearResultQueue: one DEL per key. *)
Definition ClearResultQueue (r : Route) : Route := emptyRoute.

(** *** ReceiveResult's loop

    A delivery, or the script's error; [None] while the fuel runs out, which
    the loop's bound excludes. [nows] are the server's times at each call. *)
Inductive ReceiveOutcome : Type :=
| GotDelivery (payload claimID owner : string)
| GotUnparsable
| GotNothing                 (* the route is empty: wait, or the context ends *)
| OutOfFuel.

Fixpoint ReceiveResult (fuel : nat) (parses : string -> bool) (owner : string) (nows : nat -> Z) (r : Route) :
    Route * ReceiveOutcome :=
  match fuel with
  | O => (r, OutOfFuel)
  | S fuel' =>
      match receiveResultScript owner (nows O) r with
      | (r', REmpty) => (r', GotNothing)
      | (r', RSkip) => ReceiveResult fuel' parses owner (fun i => nows (S i)) r'
      | (r', RBad _ _) => (r', GotUnparsable)
      | (r', RResult p claimID) => (r', if parses p then GotDelivery p claimID owner else GotUnparsable)
      end
  end.
End delivery.

(** ** Histories of a route *)
Inductive d_op : Type :=
| DPush (payload : string)
| DReceive (owner : string) (now : Z)
| DRenew (claimID owner : string) (now : Z)
| DAck (claimID owner : string) (now : Z).

Inductive d_reply : Type :=
| Pushed
| Received (x : received)
| Code (n : Z).

Definition d_time (op : d_op) : option Z :=
  match op with DPush _ => None | DReceive _ now | DRenew _ _ now | DAck _ _ now => Some now end.

Section histories.
Context (decode : string -> option (string * token)) (leaseMs : Z).

Definition d_exec (op : d_op) (r : Route) : Route * d_reply :=
  match op with
  | DPush p => (lpush_result p r, Pushed)
  | DReceive owner now => let '(r', x) := receiveResultScript decode leaseMs owner now r in (r', Received x)
  | DRenew id owner now => let '(r', n) := renewResultScript leaseMs id owner now r in (r', Code n)
  | DAck id owner now => let '(r', n) := ackResultDeliveryScript id owner now r in (r', Code n)
  end.

(** The operations with their replies, and the route they leave. *)
Fixpoint d_run (ops : list d_op) (r : Route) : Route * list (d_op * d_reply) :=
  match ops with
  | [] => (r, [])
  | op :: rest =>
      let '(r1, x) := d_exec op r in
      let '(r2, xs) := d_run rest r1 in
      (r2, (op, x) :: xs)
  end.
End histories.

(** The server's clock does not go back; it is [t] at the start and stays
    below [stop]. *)
Fixpoint timed (t : Z) (stop : option Z) (ops : list d_op) : Prop :=
  match ops with
  | [] => True
  | op :: rest =>
      match d_time op with
      | None => timed t stop rest
      | Some now => t <= now /\ match stop with Some e => now < e | None => True end /\ timed now stop rest
      end
  end.

Definition accepted (id : string) (x : d_op * d_reply) : Prop :=
  match x with (DAck c _ _, Code 1) => c = id | _ => False end.

(** ** The route's invariant *)
Section invariant.
Context (decode : string -> option (string * token)) (leaseMs : Z).

Abbreviation key := (result_key decode).

(** [t]: the server's time. *)
Record route_good (t : Z) (r : Route) : Prop := {
  rg_owners id : is_Some (rt_owners r !! id) <-> is_Some (rt_claimed r !! id);
  rg_idx id : is_Some (rt_idx r !! id) <-> is_Some (rt_claimed r !! id);
  rg_payload id p : rt_claimed r !! id = Some p ->
    key p = Some id \/ key p = None /\ exists owner, id = unparsable_id owner;
  rg_tombs id e : rt_tombstones r !! id = Some e -> e <= rt_tombTTL r;
  rg_ttl : rt_tombTTL r <= t + resultAckTombstoneTTL
}.

Lemma route_good_empty t : 0 <= t -> route_good t emptyRoute.
Proof. intros Ht. split; intros *; simpl; rewrite ?lookup_empty; try naive_solver. unfold resultAckTombstoneTTL. lia. Qed.

Lemma good_later t t' r : t <= t' -> route_good t r -> route_good t' r.
Proof. intros Ht [H1 H2 H3 H4 H5]. split; auto. lia. Qed.

Lemma good_pending t l r : route_good t r ->
  route_good t (mkRoute l (rt_claimed r) (rt_owners r) (rt_idx r) (rt_tombstones r) (rt_tombTTL r)).
Proof. by intros []. Qed.

Lemma good_tombs t ts r : (forall id e, ts !! id = Some e -> rt_tombstones r !! id = Some e) ->
  route_good t r -> route_good t (set_tombstones ts r).
Proof. intros Ht [H1 H2 H3 H4 H5]. split; simpl; eauto. Qed.

Lemma good_drop t id l ts ttl r : (forall i e, ts !! i = Some e -> e <= ttl) -> ttl <= t + resultAckTombstoneTTL -> route_good t r ->
  route_good t (mkRoute l (delete id (rt_claimed r)) (delete id (rt_owners r)) (delete id (rt_idx r)) ts ttl).
Proof.
  intros Ht Httl [H1 H2 H3 H4 H5]. split; simpl; [intros i|intros i|intros i p [_ ?]%lookup_delete_Some; auto|done|done].
  all: destruct (decide (id = i)) as [->|]; [by rewrite !lookup_delete_eq|rewrite !lookup_delete_ne by done; auto].
Qed.

Lemma good_reclaim_one t id r : route_good t r -> route_good t (reclaim_one id r).
Proof. intros Hg. apply good_drop; [apply Hg|apply Hg|done]. Qed.

Lemma good_foldr_reclaim t ids r : route_good t r -> route_good t (foldr reclaim_one r ids).
Proof. intros Hg. induction ids as [|id ids IH]; simpl; [done|]. by apply good_reclaim_one. Qed.

Lemma delete_keys_Some ks m id e : delete_keys ks m !! id = Some e -> m !! id = Some e.
Proof. induction ks as [|k ks IH]; simpl; [done|]. intros [_ ?]%lookup_delete_Some. auto. Qed.

Lemma good_clean t now r : route_good t r -> route_good t (clean_tombstones now r).
Proof. apply good_tombs. intros id e. apply delete_keys_Some. Qed.

Lemma good_expire t now r : route_good t r -> route_good t (expire_keys now r).
Proof. intros Hg. unfold expire_keys. case_match; [|done]. by apply (good_tombs t ∅). Qed.

Lemma good_claim t owner now p id r :
  key p = Some id \/ key p = None /\ (exists owner, id = unparsable_id owner) ->
  route_good t r -> route_good t (claim_result leaseMs owner now p id r).
Proof.
  intros Hk [H1 H2 H3 H4 H5]. split; simpl; auto using is_Some_insert_iff.
  intros i q. rewrite lookup_insert_Some. intros [[<- <-]|[_ ?]]; auto.
Qed.

(** The tombstone of the head, dropped when it has run out. *)
Lemma scan_cases owner now n p l r : rt_pending r = p :: l ->
  scan decode leaseMs owner now (S n) r =
  match key p with
  | None => (claim_result leaseMs owner now p (unparsable_id owner) r, RBad p (unparsable_id owner))
  | Some id =>
      let live := match rt_tombstones r !! id with Some e => now <? e | None => false end in
      let r1 := match rt_tombstones r !! id with
                | Some e => if now <? e then r else set_tombstones (delete id (rt_tombstones r)) r
                | None => r
                end in
      if live || bool_decide (is_Some (rt_owners r !! id)) then scan decode leaseMs owner now n (rpop r1)
      else (claim_result leaseMs owner now p id r1, RResult p id)
  end.
Proof.
  intros Hp. simpl. rewrite Hp. destruct (key p) as [id|]; [|done].
  destruct (rt_tombstones r !! id) as [e|]; [|done].
  destruct (e <=? now) eqn:E.
  - assert (now <? e = false) as -> by lia. done.
  - assert (now <? e = true) as -> by lia. done.
Qed.

Lemma tomb_delete_Some id r i e : delete id (rt_tombstones r) !! i = Some e -> rt_tombstones r !! i = Some e.
Proof. by intros [_ ?]%lookup_delete_Some. Qed.

Lemma good_scan t owner now n : forall r r' x, scan decode leaseMs owner now n r = (r', x) -> route_good t r -> route_good t r'.
Proof.
  induction n as [|n IH]; intros r r' x; [by intros [= <- _]|]. destruct (rt_pending r) as [|p l] eqn:Hp.
  { simpl. rewrite Hp. by intros [= <- _]. }
  rewrite (scan_cases owner now n p l r Hp). intros Hs Hg. destruct (key p) as [id|] eqn:Hk.
  - set (r1 := match rt_tombstones r !! id with Some e => if now <? e then r else _ | None => r end) in Hs.
    assert (route_good t r1) as Hg1.
    { subst r1. destruct (rt_tombstones r !! id); [|done]. case_match; [done|]. apply good_tombs; [apply tomb_delete_Some|done]. }
    cbv zeta in Hs. destruct (_ || _) in Hs.
    + eapply IH; [exact Hs|]. by apply good_pending.
    + injection Hs as <- _. apply good_claim; auto.
  - injection Hs as <- _. apply good_claim; eauto.
Qed.

Lemma good_receive t owner now r : route_good t r -> route_good t (receiveResultScript decode leaseMs owner now r).1.
Proof.
  intros Hg. unfold receiveResultScript. set (r1 := clean_tombstones _ _).
  assert (route_good t r1) as Hg1 by by apply good_clean, good_foldr_reclaim, good_expire.
  destruct (Nat.min _ _) as [|n]; [done|]. destruct (scan _ _ _ _ (S n) r1) as [r' x] eqn:E. by eapply good_scan.
Qed.

Lemma good_renew t id owner now r : route_good t r -> route_good t (renewResultScript leaseMs id owner now r).1.
Proof.
  intros Hg. unfold renewResultScript. destruct (live_owner id owner now r) eqn:El; [|done].
  destruct Hg as [H1 H2 H3 H4 H5]. split; simpl; auto. intros i. rewrite <- H2. unfold live_owner in El.
  destruct (rt_idx r !! id) as [e|] eqn:Ei; [|by rewrite !andb_false_r in El].
  destruct (decide (id = i)) as [->|]; [rewrite lookup_insert_eq, Ei; split; eauto|by rewrite lookup_insert_ne].
Qed.

Lemma good_ack id owner now t r : t <= now -> route_good t r -> route_good now (ackResultDeliveryScript id owner now r).1.
Proof.
  intros Ht Hg. unfold ackResultDeliveryScript. set (r1 := clean_tombstones _ _).
  assert (route_good now r1) as Hg1 by by apply good_clean, good_expire, (good_later t).
  clearbody r1. destruct (live_owner id owner now r1) eqn:El; simpl.
  - apply (good_drop now id _ _ _ r1); [|lia|done]. intros i e. rewrite lookup_insert_Some. intros [[_ <-]|[_ Hi]]; [lia|].
    apply (rg_tombs _ _ Hg1) in Hi. pose proof (rg_ttl _ _ Hg1). lia.
  - destruct (rt_tombstones r1 !! id); [|done]. case_match; [done|]. apply good_tombs; [apply tomb_delete_Some|done].
Qed.
End invariant.

(** ** What becomes of a result *)
Section results_kept.
Context (decode : string -> option (string * token)) (leaseMs : Z).

Abbreviation key := (result_key decode).

(** A result with the claim id [id] waits in the route or is leased out. *)
Definition present (id : string) (r : Route) : Prop :=
  (exists p, rt_claimed r !! id = Some p /\ key p = Some id) \/ (exists p, p ∈ rt_pending r /\ key p = Some id).

(** Claim ids do not look like those of results that do not parse. *)
Hypothesis Hids : forall p owner, key p <> Some (unparsable_id owner).

Lemma present_reclaim id c r : present id r -> present id (reclaim_one c r).
Proof.
  intros [(p & Hp & Hk)|(p & Hp & Hk)]; unfold present; simpl.
  - destruct (decide (c = id)) as [->|].
    + right. exists p. rewrite Hp. split; [by left|done].
    + left. exists p. by rewrite lookup_delete_ne.
  - right. exists p. split; [|done]. case_match; [by right|done].
Qed.

Lemma present_requeue id ids r : present id r -> present id (foldr reclaim_one r ids).
Proof. intros Hp. induction ids as [|c ids IH]; simpl; [done|]. by apply present_reclaim. Qed.

Lemma present_same id r r' : rt_pending r' = rt_pending r -> rt_claimed r' = rt_claimed r -> present id r -> present id r'.
Proof. unfold present. by intros -> ->. Qed.

Lemma present_expire id now r : present id r -> present id (expire_keys now r).
Proof. unfold expire_keys. by case_match. Qed.

(** The head is taken: claimed, or a duplicate of an owned result. *)
Lemma present_claim id owner now p c l r :
  rt_pending r = p :: l -> key p = Some c \/ key p = None /\ c = unparsable_id owner ->
  present id r -> present id (claim_result leaseMs owner now p c r).
Proof.
  intros Hpe Hk Hp. unfold present; simpl. rewrite Hpe. simpl. destruct (decide (c = id)) as [->|Hc].
  - left. exists p. rewrite lookup_insert_eq. split; [done|]. destruct Hk as [?|[Hn ->]]; [done|].
    destruct Hp as [(q & _ & Hq)|(q & _ & Hq)]; by apply Hids in Hq.
  - rewrite lookup_insert_ne by done. destruct Hp as [?|(q & Hq & Hkq)]; [by left|]. right. exists q.
    rewrite Hpe in Hq. apply elem_of_cons in Hq as [->|?]; [|done]. destruct Hk as [Hk|[Hk _]]; congruence.
Qed.

Lemma present_scan t id owner now n : forall r r' x,
  scan decode leaseMs owner now n r = (r', x) -> route_good decode t r -> rt_tombstones r !! id = None ->
  present id r -> present id r' /\ rt_tombstones r' !! id = None.
Proof.
  induction n as [|n IH]; intros r r' x; [by intros [= <- _]|]. destruct (rt_pending r) as [|p l] eqn:Hp.
  { simpl. rewrite Hp. by intros [= <- _]. }
  rewrite (scan_cases decode leaseMs owner now n p l r Hp). intros Hs Hg Hn Hpr.
  destruct (key p) as [c|] eqn:Hk; [|injection Hs as <- _; split; [eapply present_claim; eauto|done]].
  set (r1 := match rt_tombstones r !! c with Some e => if now <? e then r else _ | None => r end) in Hs.
  assert (rt_pending r1 = p :: l /\ rt_claimed r1 = rt_claimed r /\ rt_owners r1 = rt_owners r /\
    rt_tombstones r1 !! id = None /\ route_good decode t r1) as (Hp1 & Hc1 & Ho1 & Hn1 & Hg1).
  { subst r1. destruct (rt_tombstones r !! c); [|done]. case_match; [done|]. split_and!; try done; simpl.
    - rewrite lookup_delete_None. by right.
    - apply good_tombs; [apply tomb_delete_Some|done]. }
  assert (present id r1) as Hpr1 by (eapply present_same; [| |exact Hpr]; congruence).
  cbv zeta in Hs. destruct (_ || _) eqn:Edup in Hs.
  - eapply IH; [exact Hs|by apply good_pending|done|]. unfold present in *; simpl. rewrite Hp1 in *. simpl.
    destruct Hpr1 as [?|(q & [->|Hq]%elem_of_cons & Hkq)]; [by left| |by right; eauto].
    left. rewrite Hk in Hkq. injection Hkq as ->. rewrite Hn in Edup. simpl in Edup. apply bool_decide_eq_true in Edup.
    apply (rg_owners _ _ _ Hg) in Edup as [q Hq]. exists q. rewrite Hc1. split; [done|].
    destruct (rg_payload _ _ _ Hg _ _ Hq) as [?|[_ [o ->]]]; [done|]. by apply Hids in Hk.
  - injection Hs as <- _. split; [|done]. eapply present_claim; eauto.
Qed.

Lemma up_to_Some now n z id : id ∈ up_to now n z -> exists e, z !! id = Some e /\ e <= now.
Proof.
  unfold up_to. intros [[i e] [-> Hin]]%list_elem_of_fmap. exists e.
  eapply elem_of_sublist in Hin; [|apply sublist_take]. apply list_elem_of_filter in Hin as [Hle Hf]. simpl in *.
  rewrite (merge_sort_Permutation score_le) in Hf. apply elem_of_map_to_list in Hf. split; [done|lia].
Qed.

Lemma delete_keys_not ks m id : id ∉ ks -> delete_keys ks m !! id = m !! id.
Proof.
  induction ks as [|k ks IH]; simpl; [done|]. intros [Hk Hn]%not_elem_of_cons. rewrite lookup_delete_ne by done. auto.
Qed.

Lemma clean_None now id r : rt_tombstones r !! id = None -> rt_tombstones (clean_tombstones now r) !! id = None.
Proof.
  intros Hn. simpl. destruct (delete_keys _ _ !! id) as [e|] eqn:E; [|done]. apply delete_keys_Some in E. congruence.
Qed.

Lemma requeue_tombs now r : rt_tombstones (requeue_expired now r) = rt_tombstones r.
Proof. unfold requeue_expired. by induction (up_to _ _ _). Qed.

Lemma expire_None now id r : rt_tombstones r !! id = None -> rt_tombstones (expire_keys now r) !! id = None.
Proof. unfold expire_keys. by case_match. Qed.

Lemma exec_good t op r stop ops : route_good decode t r -> timed t stop (op :: ops) ->
  exists t', t <= t' /\ route_good decode t' (d_exec decode leaseMs op r).1 /\ timed t' stop ops.
Proof.
  intros Hg Ht. destruct op as [p|owner now|id owner now|id owner now]; simpl in Ht.
  - exists t. split_and!; [done| |done]. by apply good_pending.
  - destruct Ht as (Ht & _ & Hr). exists now. split_and!; [done| |done]. simpl.
    pose proof (good_receive decode leaseMs now owner now r (good_later _ _ _ _ Ht Hg)).
    by destruct (receiveResultScript _ _ _ _ _).
  - destruct Ht as (Ht & _ & Hr). exists now. split_and!; [done| |done]. simpl.
    pose proof (good_renew decode leaseMs now id owner now r (good_later _ _ _ _ Ht Hg)).
    by destruct (renewResultScript _ _ _ _ _).
  - destruct Ht as (Ht & _ & Hr). exists now. split_and!; [done| |done]. simpl.
    pose proof (good_ack decode id owner now t r Ht Hg). by destruct (ackResultDeliveryScript _ _ _ _).
Qed.

Lemma exec_present id op r t : route_good decode t r -> rt_tombstones r !! id = None -> present id r ->
  ~ accepted id (op, (d_exec decode leaseMs op r).2) ->
  let r' := (d_exec decode leaseMs op r).1 in rt_tombstones r' !! id = None /\ present id r'.
Proof.
  intros Hg Hn Hp. destruct op as [p|owner now|c owner now|c owner now]; simpl.
  - intros _. split; [done|]. unfold present; simpl. destruct Hp as [?|(q & Hq & Hk)]; [by left|].
    right. exists q. by rewrite elem_of_app; auto.
  - intros _. unfold receiveResultScript. set (r1 := clean_tombstones _ _).
    assert (rt_tombstones r1 !! id = None) as Hn1 by (apply clean_None; rewrite requeue_tombs; by apply expire_None).
    assert (present id r1) as Hp1 by by apply (present_requeue id _ (expire_keys now r)), present_expire.
    assert (route_good decode t r1) as Hg1 by by apply good_clean, good_foldr_reclaim, good_expire.
    destruct (Nat.min _ _) as [|n]; [done|]. destruct (scan _ _ _ _ (S n) r1) as [r' x] eqn:E.
    destruct (present_scan t id owner now (S n) r1 r' x E Hg1 Hn1 Hp1). done.
  - intros _. unfold renewResultScript. destruct (live_owner c owner now r); by split.
  - unfold ackResultDeliveryScript. set (r1 := clean_tombstones _ _).
    assert (rt_tombstones r1 !! id = None) as Hn1 by by apply clean_None, expire_None.
    assert (present id r1) as Hp1 by by apply present_expire. clearbody r1.
    destruct (live_owner c owner now r1); simpl.
    + intros Hc. rewrite lookup_insert_ne by done. split; [done|]. unfold present in *; simpl.
      by rewrite lookup_delete_ne.
    + intros _. destruct (rt_tombstones r1 !! c) as [e|]; [|done]. destruct (now <? e); [done|]. simpl.
      rewrite lookup_delete_None. auto.
Qed.

(** C9. No result is lost before it is acknowledged: whatever sequence of
    pushes, receives, renewals and acknowledgements reaches the route, as long
    as no receiver's acknowledgement of it was accepted, a result that was
    waiting or leased out still is.  (Claim ids of the form the script makes up
    for records that do not parse are excluded.) *)
Theorem result_not_lost id ops t r :
  route_good decode t r -> timed t None ops -> rt_tombstones r !! id = None -> present id r ->
  Forall (fun x => ~ accepted id x) (d_run decode leaseMs ops r).2 ->
  present id (d_run decode leaseMs ops r).1.
Proof.
  revert t r. induction ops as [|op ops IH]; intros t r Hg Ht Hn Hp Ha; simpl in *; [done|].
  destruct (exec_good t op r None ops Hg Ht) as (t' & _ & Hg' & Ht').
  pose proof (exec_present id op r t Hg Hn Hp) as Hstep. destruct (d_exec decode leaseMs op r) as [r1 x].
  specialize (IH t' r1 Hg' Ht'). destruct (d_run decode leaseMs ops r1) as [r2 xs]. simpl in *.
  apply Forall_cons in Ha as [Hx Hxs]. destruct (Hstep Hx). auto.
Qed.
End results_kept.

(** ** An acknowledged result *)
Section acknowledged.
Context (decode : string -> option (string * token)) (leaseMs : Z).

(** [id] is acked until [e], and nobody holds it. *)
Definition entombed (id : string) (e : Z) (r : Route) : Prop :=
  rt_tombstones r !! id = Some e /\ rt_owners r !! id = None.

Lemma entombed_clean id e now r : now < e -> entombed id e r -> entombed id e (clean_tombstones now r).
Proof.
  intros Hlt [Ht Ho]. split; [|done]. simpl. rewrite delete_keys_not; [done|].
  intros (e' & He' & Hle)%up_to_Some. rewrite Ht in He'. injection He' as <-. lia.
Qed.

Lemma entombed_expire t id e now r : route_good decode t r -> now < e -> entombed id e r -> entombed id e (expire_keys now r).
Proof.
  intros Hg Hlt [Ht Ho]. unfold expire_keys. pose proof (rg_tombs _ _ _ Hg _ _ Ht).
  assert (rt_tombTTL r <=? now = false) as -> by lia. done.
Qed.

Lemma entombed_requeue id e now r : entombed id e r -> entombed id e (requeue_expired now r).
Proof.
  unfold requeue_expired. intros Ht. induction (up_to _ _ _) as [|c cs IH]; simpl; [done|].
  destruct IH as [H1 H2]. split; [done|]. simpl. rewrite lookup_delete_None. by right.
Qed.

Lemma entombed_scan id e owner now n : now < e -> id <> unparsable_id owner -> forall r r' x,
  scan decode leaseMs owner now n r = (r', x) -> entombed id e r ->
  entombed id e r' /\ forall p, x <> RResult p id.
Proof.
  intros Hlt Hu. induction n as [|n IH]; intros r r' x; [by intros [= <- <-]|].
  destruct (rt_pending r) as [|p l] eqn:Hp; [simpl; rewrite Hp; by intros [= <- <-]|].
  rewrite (scan_cases decode leaseMs owner now n p l r Hp). intros Hs [Ht Ho].
  destruct (result_key decode p) as [c|]; [|injection Hs as <- <-; split; [split|]; simpl; [done|by rewrite lookup_insert_ne|done]].
  destruct (decide (c = id)) as [->|Hc].
  - rewrite Ht in Hs. assert (now <? e = true) as E by lia. rewrite E in Hs. simpl in Hs. by eapply IH.
  - set (r1 := match rt_tombstones r !! c with Some e => if now <? e then r else _ | None => r end) in Hs.
    assert (entombed id e r1) as [Ht1 Ho1].
    { subst r1. destruct (rt_tombstones r !! c); [|done]. case_match; [done|]. split; [|done]. simpl.
      by rewrite lookup_delete_ne. }
    cbv zeta in Hs. destruct (_ || _) in Hs; [by eapply IH|]. injection Hs as <- <-. split; [split|].
    + done.
    + simpl. by rewrite lookup_insert_ne.
    + intros q [= _ ?]. done.
Qed.

Lemma not_owned_not_live id owner now r : rt_owners r !! id = None -> live_owner id owner now r = false.
Proof. intros H. unfold live_owner. by rewrite H. Qed.

(** What an operation may reply about an entombed result. *)
Definition quiet (id : string) (x : d_op * d_reply) : Prop :=
  match x with
  | (DReceive _ _, Received (RResult _ c)) => c <> id
  | (DAck c _ _, Code n) => c = id -> n = 2
  | (DRenew c _ _, Code n) => c = id -> n = 0
  | _ => True
  end.

Lemma exec_entombed id e t op r ops :
  (forall owner, id <> unparsable_id owner) -> route_good decode t r -> entombed id e r ->
  timed t (Some e) (op :: ops) ->
  let '(r', x) := d_exec decode leaseMs op r in entombed id e r' /\ quiet id (op, x).
Proof.
  intros Hu Hg He Ht. destruct op as [p|owner now|c owner now|c owner now]; simpl in *.
  - by split.
  - destruct Ht as (_ & Hlt & _). unfold receiveResultScript. set (r1 := clean_tombstones _ _).
    assert (entombed id e r1) as He1 by by eapply entombed_clean, entombed_requeue, entombed_expire.
    destruct (Nat.min _ _) as [|n]; [by split|]. destruct (scan _ _ _ _ (S n) r1) as [r' x] eqn:E.
    destruct (entombed_scan id e owner now (S n) Hlt (Hu owner) _ _ _ E He1) as [? Hx]. split; [done|].
    destruct x; try done. intros ->. by eapply Hx.
  - unfold renewResultScript. destruct (live_owner c owner now r) eqn:El; simpl; [|by split].
    split; [done|]. intros ->. by rewrite (not_owned_not_live id) in El by apply He.
  - destruct Ht as (_ & Hlt & _). unfold ackResultDeliveryScript. set (r1 := clean_tombstones _ _).
    assert (entombed id e r1) as [Ht1 Ho1] by by eapply entombed_clean, entombed_expire. clearbody r1.
    destruct (decide (c = id)) as [->|Hc].
    + rewrite not_owned_not_live, Ht1 by done. assert (now <? e = true) as -> by lia. by split.
    + destruct (live_owner c owner now r1); simpl; [|destruct (rt_tombstones r1 !! c) as [e'|]; [destruct (now <? e')|]].
      * split; [split|done]; simpl; [by rewrite lookup_insert_ne|rewrite lookup_delete_None; by right].
      * by split.
      * split; [split|done]; simpl; [by rewrite lookup_delete_ne|done].
      * by split.
Qed.

Lemma run_entombed id e ops : (forall owner, id <> unparsable_id owner) -> forall t r,
  route_good decode t r -> entombed id e r -> timed t (Some e) ops -> Forall (quiet id) (d_run decode leaseMs ops r).2.
Proof.
  intros Hu. induction ops as [|op ops IH]; intros t r Hg He Ht; simpl; [done|].
  pose proof (exec_entombed id e t op r ops Hu Hg He Ht) as Hx.
  destruct (exec_good decode leaseMs t op r (Some e) ops Hg Ht) as (t' & _ & Hg' & Ht').
  destruct (d_exec decode leaseMs op r) as [r1 x]. destruct Hx as [He1 Hq]. simpl in Hg'.
  specialize (IH t' r1 Hg' He1 Ht'). destruct (d_run decode leaseMs ops r1) as [r2 xs]. by constructor.
Qed.

(** What a reply says of result [id], once [owner] has acknowledged it: nobody
    gets it or its lease, nobody else's acknowledgement takes effect, and
    [owner]'s own, repeated, is a success. *)
Definition final (id owner : string) (x : d_op * d_reply) : Prop :=
  match x with
  | (DReceive _ _, Received (RResult _ c)) => c <> id
  | (DAck c o _, Code n) => c = id -> n <> 1 /\ (o = owner -> n = 2)
  | (DRenew c _ _, Code n) => c = id -> n = 0
  | _ => True
  end.

Lemma quiet_final id owner x : quiet id x -> final id owner x.
Proof. destruct x as [[] []]; simpl; try done. intros H E. rewrite (H E). done. Qed.

(** C10. An acknowledgement takes effect only for the receiver that holds the
    result's lease, and while the lease runs.  From then on, for the seven days of
    its tombstone, it is final: the result is delivered to nobody, duplicates of
    it pushed by the dispatcher included; no renewal of it is granted, and no
    other acknowledgement takes effect; the receiver that repeats its own is told
    that it is done.  (What the reply to a receiver is that had lost its lease
    before, [stale_ack_succeeds] tells.) *)
Theorem ack_is_final id owner now ops t r :
  (forall o, id <> unparsable_id o) -> route_good decode t r -> t <= now ->
  (ackResultDeliveryScript id owner now r).2 = 1 ->
  timed now (Some (now + resultAckTombstoneTTL)) ops ->
  (rt_owners r !! id = Some owner /\ owner <> "" /\ exists e, rt_idx r !! id = Some e /\ now < e) /\
  Forall (final id owner) (d_run decode leaseMs ops (ackResultDeliveryScript id owner now r).1).2.
Proof.
  intros Hu Hg Ht Ha Hops. assert (live_owner id owner now r = true) as Hl.
  { assert (live_owner id owner now r = live_owner id owner now (clean_tombstones now (expire_keys now r))) as ->.
    { unfold expire_keys. by destruct (rt_tombTTL r <=? now). }
    unfold ackResultDeliveryScript in Ha. set (r1 := clean_tombstones _ _) in *. clearbody r1.
    destruct (live_owner id owner now r1); [done|]. destruct (rt_tombstones r1 !! id) as [e|]; [by destruct (now <? e)|done]. }
  split.
  - unfold live_owner in Hl. apply andb_prop in Hl as [[H1%bool_decide_eq_true_1 H2%negb_true_iff%bool_decide_eq_false_1]%andb_prop H3].
    split; [done|]. split; [done|]. destruct (rt_idx r !! id) as [e|]; [|done]. exists e. split; [done|lia].
  - eapply Forall_impl; [|apply quiet_final]. eapply run_entombed; [done|by eapply good_ack| |done].
    unfold ackResultDeliveryScript in *. set (r1 := clean_tombstones _ _) in *. clearbody r1.
    destruct (live_owner id owner now r1); simpl in *; [split; simpl; [apply lookup_insert_eq|apply lookup_delete_eq]|].
    destruct (rt_tombstones r1 !! id) as [e|]; [by destruct (now <? e)|done].
Qed.
End acknowledged.

(** ** The receive loop *)
Section receive_loop.
Context (decode : string -> option (string * token)) (leaseMs : Z).

(** Results in the route: each skipped one leaves it for good. *)
Definition results_in (r : Route) : nat := (length (rt_pending r) + size (rt_claimed r))%nat.

Lemma reclaim_results c r : results_in (reclaim_one c r) = results_in r.
Proof.
  unfold results_in; simpl. destruct (rt_claimed r !! c) as [p|] eqn:E; simpl.
  - rewrite map_size_delete_Some by eauto. assert (size (rt_claimed r) <> 0%nat); [|lia].
    intros H%map_size_empty_iff. rewrite H in E. done.
  - by rewrite map_size_delete_None.
Qed.

Lemma requeue_results now r : results_in (requeue_expired now r) = results_in r.
Proof. unfold requeue_expired. induction (up_to _ _ _) as [|c cs IH]; simpl; [done|]. by rewrite reclaim_results. Qed.

Lemma scan_skips owner now n : forall r r', scan decode leaseMs owner now n r = (r', RSkip) ->
  length (rt_pending r) = (n + length (rt_pending r'))%nat /\ rt_claimed r' = rt_claimed r.
Proof.
  induction n as [|n IH]; intros r r'; [by intros [= <-]|].
  destruct (rt_pending r) as [|p l] eqn:Hp; [simpl; by rewrite Hp|].
  rewrite (scan_cases decode leaseMs owner now n p l r Hp). destruct (result_key decode p) as [c|]; [|done].
  set (r1 := match rt_tombstones r !! c with Some e => if now <? e then r else _ | None => r end).
  assert (rt_pending r1 = p :: l /\ rt_claimed r1 = rt_claimed r) as [Hp1 Hc1].
  { subst r1. destruct (rt_tombstones r !! c); [|done]. by case_match. }
  cbv zeta. destruct (_ || _); [|done]. intros [H1 H2]%IH. simpl in *. rewrite Hp1 in H1. simpl in H1.
  split; [lia|congruence].
Qed.

Lemma receive_skips owner now r r' : receiveResultScript decode leaseMs owner now r = (r', RSkip) ->
  (results_in r' < results_in r)%nat.
Proof.
  unfold receiveResultScript. set (r1 := clean_tombstones _ _).
  assert (results_in r1 = results_in r) as Hr1.
  { transitivity (results_in (requeue_expired now (expire_keys now r))); [done|]. rewrite requeue_results.
    unfold expire_keys. by case_match. }
  destruct (Nat.min _ _) as [|n]; [done|]. intros [H1 H2]%scan_skips. rewrite <- Hr1. unfold results_in. rewrite H2. lia.
Qed.

(** ReceiveResult does not spin: a route with [n] results makes it call the
    script at most [n + 1] times before it has a delivery, a record that does
    not parse, or an empty route to wait on, whatever the clock shows at each
    call. *)
Theorem ReceiveResult_returns fuel parses owner nows r :
  (results_in r < fuel)%nat -> (ReceiveResult decode leaseMs fuel parses owner nows r).2 <> OutOfFuel.
Proof.
  revert nows r. induction fuel as [|fuel IH]; intros nows r Hf; [lia|]. simpl.
  destruct (receiveResultScript decode leaseMs owner (nows 0%nat) r) as [r' [| |p c|p c]] eqn:E; try done.
  - apply IH. apply receive_skips in E. lia.
  - simpl. by destruct (parses p).
Qed.

Lemma NoDup_up_to now n z : NoDup (up_to now n z).
Proof.
  unfold up_to. apply (NoDup_fmap_fst).
  - intros k x y Hx Hy. eapply elem_of_sublist in Hx; [|apply sublist_take]. eapply elem_of_sublist in Hy; [|apply sublist_take].
    apply list_elem_of_filter in Hx as [_ Hx]. apply list_elem_of_filter in Hy as [_ Hy].
    rewrite (merge_sort_Permutation score_le) in Hx, Hy. apply elem_of_map_to_list in Hx, Hy. congruence.
  - eapply sublist_NoDup; [|apply sublist_take]. apply NoDup_filter. rewrite (merge_sort_Permutation score_le).
    apply NoDup_map_to_list.
Qed.

Lemma foldr_reclaim_claimed c cs r : c ∉ cs -> rt_claimed (foldr reclaim_one r cs) !! c = rt_claimed r !! c.
Proof. induction cs as [|k cs IH]; simpl; [done|]. intros [? ?]%not_elem_of_cons. rewrite lookup_delete_ne by done. auto. Qed.

(** A delivery that is never acknowledged comes back: at the first receive
    after its lease has run out, the result whose lease ended first is handed
    to that receiver, ahead of everything waiting, and is leased to it. *)
Theorem expired_lease_redelivered owner now id ids p t r :
  route_good decode t r -> t <= now -> rt_tombstones r !! id = None ->
  up_to now resultReclaimBatchSize (rt_idx r) = id :: ids ->
  rt_claimed r !! id = Some p -> result_key decode p = Some id ->
  let '(r', x) := receiveResultScript decode leaseMs owner now r in
  x = RResult p id /\ rt_owners r' !! id = Some owner /\ rt_idx r' !! id = Some (now + leaseMs).
Proof.
  intros Hg Ht Hn Hup Hc Hk. unfold receiveResultScript, requeue_expired.
  assert (rt_idx (expire_keys now r) = rt_idx r /\ rt_claimed (expire_keys now r) = rt_claimed r) as [Ei Ec].
  { unfold expire_keys. by case_match. }
  rewrite Ei, Hup. simpl foldr. set (r0 := foldr reclaim_one (expire_keys now r) ids).
  assert (rt_claimed r0 !! id = Some p) as Hc0.
  { subst r0. pose proof (NoDup_up_to now resultReclaimBatchSize (rt_idx r)) as Hnd. rewrite Hup in Hnd.
    apply NoDup_cons in Hnd as [Hid _]. by rewrite foldr_reclaim_claimed, Ec. }
  assert (rt_tombstones r0 !! id = None) as Hn0.
  { subst r0. clear -Hn. induction ids as [|c ids IH]; simpl; [by apply expire_None|done]. }
  set (r1 := clean_tombstones now (reclaim_one id r0)).
  assert (rt_pending r1 = p :: rt_pending r0) as Hp1 by (simpl; by rewrite Hc0).
  assert (rt_tombstones r1 !! id = None) as Hn1 by by apply clean_None.
  assert (rt_owners r1 !! id = None) as Ho1 by apply lookup_delete_eq. clearbody r1. rewrite Hp1. simpl length.
  destruct (Nat.min (S (length (rt_pending r0))) resultReceiveScanBatchSize) as [|n] eqn:Em; [done|].
  rewrite (scan_cases decode leaseMs owner now n p _ r1 Hp1), Hk, Hn1, Ho1. simpl. by rewrite !lookup_insert_eq.
Qed.
End receive_loop.

(** ** A stale owner's acknowledgement *)
Definition w_decode (p : string) : option (string * token) := if decide (p = "json") then Some ("r1", TokAbsent) else None.
Definition w_lease : Z := 300000.
Definition w_pushed : Route := lpush_result "json" emptyRoute.
Definition w_first : Route := (receiveResultScript w_decode w_lease "ownerA" 1000 w_pushed).1.
Definition w_second : Route := (receiveResultScript w_decode w_lease "ownerB" 400000 w_first).1.

(** The fence on acknowledgements has a gap: a receiver whose lease lapsed
    and whose result another receiver took over is refused, as documented, only
    until that receiver acknowledges; from then on the stale receiver's own
    acknowledgement is answered as a success, although none of its
    acknowledgements was ever accepted. *)
Theorem stale_ack_succeeds :
  (receiveResultScript w_decode w_lease "ownerA" 1000 w_pushed).2 = RResult "json" "r1" /\
  (receiveResultScript w_decode w_lease "ownerB" 400000 w_first).2 = RResult "json" "r1" /\
  (ackResultDeliveryScript "r1" "ownerA" 400001 w_second).2 = 0 /\
  let '(r, n) := ackResultDeliveryScript "r1" "ownerB" 400002 w_second in
  n = 1 /\ (ackResultDeliveryScript "r1" "ownerA" 400003 r).2 = 2.
Proof. vm_compute. by repeat split. Qed.

(** ** Witnesses *)
Lemma w_ids p owner : result_key w_decode p <> Some (unparsable_id owner).
Proof. unfold result_key, w_decode. case_decide; simpl; [|done]. done. Qed.

Lemma w_pushed_good : route_good w_decode 0 w_pushed.
Proof. apply good_pending, route_good_empty. lia. Qed.

Definition w_ops : list d_op :=
  [DReceive "ownerA" 1000; DRenew "r1" "ownerA" 2000; DReceive "ownerB" 400000; DAck "r1" "ownerA" 400001].

Lemma result_not_lost_witness : present w_decode "r1" (d_run w_decode w_lease w_ops w_pushed).1.
Proof.
  apply (result_not_lost w_decode w_lease w_ids "r1" w_ops 0 w_pushed).
  - apply w_pushed_good.
  - simpl. lia.
  - reflexivity.
  - right. exists "json". split; [by left|reflexivity].
  - assert ((d_run w_decode w_lease w_ops w_pushed).2
      = [(DReceive "ownerA" 1000, Received (RResult "json" "r1")); (DRenew "r1" "ownerA" 2000, Code 1);
         (DReceive "ownerB" 400000, Received (RResult "json" "r1")); (DAck "r1" "ownerA" 400001, Code 0)]) as -> by by_vm.
    repeat constructor; simpl; auto.
Defined.

Lemma ack_is_final_witness :
  (rt_owners w_second !! "r1" = Some "ownerB" /\ "ownerB" <> "" /\ exists e, rt_idx w_second !! "r1" = Some e /\ 400002 < e) /\
  Forall (final "r1" "ownerB") (d_run w_decode w_lease [DPush "json"; DReceive "ownerC" 500000; DAck "r1" "ownerA" 500001]
    (ackResultDeliveryScript "r1" "ownerB" 400002 w_second).1).2.
Proof.
  apply (ack_is_final w_decode w_lease "r1" "ownerB" 400002 _ 400000).
  - done.
  - apply good_receive, (good_later _ 1000); [lia|]. apply good_receive, (good_later _ 0); [lia|]. apply w_pushed_good.
  - lia.
  - by_vm.
  - unfold resultAckTombstoneTTL. simpl. lia.
Defined.

Lemma ReceiveResult_returns_witness :
  (ReceiveResult w_decode w_lease 2 (fun _ => true) "ownerA" (fun _ => 1000) w_pushed).2 <> OutOfFuel.
Proof. apply ReceiveResult_returns. vm_compute. lia. Defined.

Lemma expired_lease_redelivered_witness :
  let '(r', x) := receiveResultScript w_decode w_lease "ownerB" 400000 w_first in
  x = RResult "json" "r1" /\ rt_owners r' !! "r1" = Some "ownerB" /\ rt_idx r' !! "r1" = Some (400000 + w_lease).
Proof.
  apply (expired_lease_redelivered w_decode w_lease "ownerB" 400000 "r1" [] "json" 1000 w_first).
  - apply good_receive, (good_later _ 0); [lia|]. apply w_pushed_good.
  - lia.
  - by_vm.
  - by_vm.
  - by_vm.
  - reflexivity.
Defined.
