(* ===== verification/Wire.v ===== *)
(** * The wire format of requests and results (src/api/internal_api.go)

    [MarshalJSON] and [UnmarshalJSON] of InternalRequest, on the bytes, over
    Go's encoding (Json.v); the persisted result envelope; and the sequence
    number the Redis producer writes into an already encoded request.  A
    decoded field keeps its value on [null]; an unknown key is skipped; keys
    match up to case, as Go matches them. *)
From stdpp Require Import prelude gmap strings list sorting.
From Stdlib Require Import ZArith Lia Ascii String.
From S2P Require Import Prelude Api Json.

#[local] Open Scope Z_scope.

(** ** Encoding *)
Definition field_string (name v : string) : list (string * string) := if decide (v = "") then [] else [(name, quote v)].
Definition field_int (name : string) (v : Z) : list (string * string) := if decide (v = 0) then [] else [(name, itoa v)].
Definition field_bool (name : string) (v : bool) : list (string * string) := if v then [(name, "true")] else [].

(** Maps are written with their keys sorted. *)
Definition key_le (a b : string * string) : Prop := String.leb a.1 b.1 = true.
#[export] Instance key_le_dec : RelDecision key_le.
Proof. intros a b. unfold key_le. apply _. Defined.

Definition map_text (m : gmap string string) : string :=
  print_obj ((fun kv => (qbody kv.1, quote kv.2)) <$> merge_sort key_le (map_to_list m)).
Definition field_map (name : string) (m : gmap string string) : list (string * string) :=
  if decide (m = ∅) then [] else [(name, map_text m)].

(** The routing fields before and after the sequence number. *)
Definition routing_before (rt : InternalRouting) : list (string * string) :=
  field_int "retry_count" (rt_RetryCount rt) ++ field_string "queue_id" (rt_QueueID rt) ++
  field_string "request_token" (rt_RequestToken rt) ++ field_int "dispatch_attempt" (rt_DispatchAttempt rt) ++
  field_string "request_queue_name" (rt_RequestQueueName rt) ++ field_string "result_queue_name" (rt_ResultQueueName rt) ++
  field_int "result_ttl_seconds" (rt_ResultTTLSeconds rt) ++
  field_bool "result_routing_resolved" (rt_ResultRoutingResolved rt) ++
  field_string "transport_correlation_id" (rt_TransportCorrelationID rt).

Definition routing_after (rt : InternalRouting) : list (string * string) :=
  field_string "payload_ref" (rt_PayloadRef rt) ++ field_map "labels" (rt_Labels rt).

Definition routing_fields (rt : InternalRouting) : list (string * string) :=
  routing_before rt ++ field_int "enqueue_seq" (rt_EnqueueSeq rt) ++ routing_after rt.

(** A raw message is written compacted; nil as [null]. *)
Definition raw_text (p : RawMessage) : option string :=
  match p with RawNil => Some "null" | RawBytes s => compact s end.

Definition message_fields (m : RequestMessage) (payload : string) : list (string * string) :=
  [("id", quote (rm_ID m)); ("created", itoa (rm_Created m)); ("deadline", itoa (rm_Deadline m)); ("payload", payload)] ++
  field_map "metadata" (rm_Metadata m) ++ field_map "headers" (rm_Headers m) ++
  field_string "endpoint" (rm_Endpoint m) ++ field_string "model" (rm_Model m).

(** The kind and the encoding of the concrete request; a nil pointer is
    [null]. *)
Definition request_data (r : Request) : option (string * string) :=
  match r with
  | PlainRequest None => Some ("plain", "null")
  | PlainRequest (Some m) => (fun p => ("plain", print_obj (message_fields m p))) <$> raw_text (rm_Payload m)
  | RedisReq None => Some ("redis", "null")
  | RedisReq (Some x) =>
      (fun p => ("redis", print_obj (message_fields (rr_Message x) p ++
         field_string "request_queue_name" (rr_RequestQueueName x) ++ field_string "result_queue_name" (rr_ResultQueueName x))))
      <$> raw_text (rm_Payload (rr_Message x))
  | PubSubReq None => Some ("pubsub", "null")
  | PubSubReq (Some x) =>
      (fun p => ("pubsub", print_obj (message_fields (ps_Message x) p ++
         field_string "pubsub_id" (ps_PubSubID x) ++ field_string "result_queue_name" (ps_ResultQueueName x))))
      <$> raw_text (rm_Payload (ps_Message x))
  | OtherRequest _ => None
  end.

Definition envelope (internal : list (string * string)) (kind data : string) : string :=
  print_obj [("internal", print_obj internal); ("request_kind", quote kind); ("data", data)].

Definition MarshalJSON (ir : InternalRequest) : option string :=
  match ir_Public ir with
  | None => None
  | Some r =>
      match request_data r with
      | None => None
      | Some (kind, data) => envelope (routing_fields (ir_Routing ir)) kind <$> compact data
      end
  end.

(** [json.Marshal]: the encoder compacts what MarshalJSON returns. *)
Definition marshal (ir : InternalRequest) : option string := MarshalJSON ir ≫= compact.

(** ** Decoding *)
Definition lower (c : ascii) : ascii := if between 65 90 c then chr (code c + 32) else c.

(** Keys are compared up to Unicode case folding; besides the ASCII letters,
    the long s and the Kelvin sign fold to ASCII. *)
Fixpoint fold_name (s : string) : string :=
  match s with
  | "" => ""
  | String c s1 =>
      match s1 with
      | String c2 s2 =>
          if (code c =? 197) && (code c2 =? 191) then String "s" (fold_name s2)
          else match s2 with
               | String c3 s3 =>
                   if (code c =? 226) && (code c2 =? 132) && (code c3 =? 170) then String "k" (fold_name s3)
                   else String (lower c) (fold_name s1)
               | "" => String (lower c) (fold_name s1)
               end
      | "" => String (lower c) (fold_name s1)
      end
  end.

Definition d_string (raw : string) (cur : string) : option string :=
  if decide (raw = "null") then Some cur
  else match raw with
       | String c t => if code c =? 34 then match scan_str t with Some (b, _) => unquote b | None => None end else None
       | "" => None
       end.
Definition d_int (raw : string) (cur : Z) : option Z := if decide (raw = "null") then Some cur else parse_int64 raw.
Definition d_bool (raw : string) (cur : bool) : option bool :=
  if decide (raw = "null") then Some cur
  else if decide (raw = "true") then Some true else if decide (raw = "false") then Some false else None.

(** Members in order, into [r]. *)
Fixpoint dec_fields {R : Type} (step : string -> string -> R -> option R) (l : list (string * string)) (r : R) : option R :=
  match l with
  | [] => Some r
  | (k, raw) :: rest =>
      match unquote k with
      | Some key => match step key raw r with Some r' => dec_fields step rest r' | None => None end
      | None => None
      end
  end.

Definition d_struct {R : Type} (d : Z) (step : string -> string -> R -> option R) (raw : string) (r : R) : option R :=
  if decide (raw = "null") then Some r
  else match object_of d raw with Some l => dec_fields step l r | None => None end.

Definition map_step (key raw : string) (m : gmap string string) : option (gmap string string) :=
  (fun v => <[key := v]> m) <$> d_string raw "".
Definition d_map (d : Z) (raw : string) (m : gmap string string) : option (gmap string string) :=
  if decide (raw = "null") then Some ∅
  else match object_of d raw with Some l => dec_fields map_step l m | None => None end.

Definition routing_step (key raw : string) (rt : InternalRouting) : option InternalRouting :=
  let '(mkInternalRouting a b c e f g h i j k l m) := rt in
  let name := fold_name key in
  if String.eqb name "retry_count" then (fun x => mkInternalRouting x b c e f g h i j k l m) <$> d_int raw a
  else if String.eqb name "queue_id" then (fun x => mkInternalRouting a x c e f g h i j k l m) <$> d_string raw b
  else if String.eqb name "request_token" then (fun x => mkInternalRouting a b x e f g h i j k l m) <$> d_string raw c
  else if String.eqb name "dispatch_attempt" then (fun x => mkInternalRouting a b c x f g h i j k l m) <$> d_int raw e
  else if String.eqb name "request_queue_name" then (fun x => mkInternalRouting a b c e x g h i j k l m) <$> d_string raw f
  else if String.eqb name "result_queue_name" then (fun x => mkInternalRouting a b c e f x h i j k l m) <$> d_string raw g
  else if String.eqb name "result_ttl_seconds" then (fun x => mkInternalRouting a b c e f g x i j k l m) <$> d_int raw h
  else if String.eqb name "result_routing_resolved" then (fun x => mkInternalRouting a b c e f g h x j k l m) <$> d_bool raw i
  else if String.eqb name "transport_correlation_id" then (fun x => mkInternalRouting a b c e f g h i x k l m) <$> d_string raw j
  else if String.eqb name "enqueue_seq" then (fun x => mkInternalRouting a b c e f g h i j x l m) <$> d_int raw k
  else if String.eqb name "payload_ref" then (fun x => mkInternalRouting a b c e f g h i j k x m) <$> d_string raw l
  else if String.eqb name "labels" then (fun x => mkInternalRouting a b c e f g h i j k l x) <$> d_map 2 raw m
  else Some rt.

Definition message_step (key raw : string) (m : RequestMessage) : option RequestMessage :=
  let '(mkRequestMessage a b c e f g h i) := m in
  let name := fold_name key in
  if String.eqb name "id" then (fun x => mkRequestMessage x b c e f g h i) <$> d_string raw a
  else if String.eqb name "created" then (fun x => mkRequestMessage a x c e f g h i) <$> d_int raw b
  else if String.eqb name "deadline" then (fun x => mkRequestMessage a b x e f g h i) <$> d_int raw c
  else if String.eqb name "payload" then Some (mkRequestMessage a b c (RawBytes raw) f g h i)
  else if String.eqb name "metadata" then (fun x => mkRequestMessage a b c e x g h i) <$> d_map 1 raw f
  else if String.eqb name "headers" then (fun x => mkRequestMessage a b c e f x h i) <$> d_map 1 raw g
  else if String.eqb name "endpoint" then (fun x => mkRequestMessage a b c e f g x i) <$> d_string raw h
  else if String.eqb name "model" then (fun x => mkRequestMessage a b c e f g h x) <$> d_string raw i
  else Some m.

Definition redis_step (key raw : string) (x : RedisRequest) : option RedisRequest :=
  let '(mkRedisRequest m q res) := x in
  let name := fold_name key in
  if String.eqb name "request_queue_name" then (fun v => mkRedisRequest m v res) <$> d_string raw q
  else if String.eqb name "result_queue_name" then (fun v => mkRedisRequest m q v) <$> d_string raw res
  else (fun m' => mkRedisRequest m' q res) <$> message_step key raw m.

Definition pubsub_step (key raw : string) (x : PubSubRequest) : option PubSubRequest :=
  let '(mkPubSubRequest m i res) := x in
  let name := fold_name key in
  if String.eqb name "pubsub_id" then (fun v => mkPubSubRequest m v res) <$> d_string raw i
  else if String.eqb name "result_queue_name" then (fun v => mkPubSubRequest m i v) <$> d_string raw res
  else (fun m' => mkPubSubRequest m' i res) <$> message_step key raw m.

Definition zeroMessage : RequestMessage := mkRequestMessage "" 0 0 RawNil ∅ ∅ "" "".

(** internalRequestWire: the routing, the kind, and the raw data if present. *)
Record wireRequest : Type := mkWire { w_internal : InternalRouting; w_kind : string; w_data : option string }.

Definition wire_step (key raw : string) (w : wireRequest) : option wireRequest :=
  let '(mkWire internal kind data) := w in
  let name := fold_name key in
  if String.eqb name "internal" then (fun x => mkWire x kind data) <$> d_struct 1 routing_step raw internal
  else if String.eqb name "request_kind" then (fun x => mkWire internal x data) <$> d_string raw kind
  else if String.eqb name "data" then Some (mkWire internal kind (Some raw))
  else Some w.

Definition decode_request (kind data : string) : option Request :=
  if String.eqb kind "plain" then (fun m => PlainRequest (Some m)) <$> d_struct 0 message_step data zeroMessage
  else if String.eqb kind "redis"
    then (fun x => RedisReq (Some x)) <$> d_struct 0 redis_step data (mkRedisRequest zeroMessage "" "")
  else if String.eqb kind "pubsub"
    then (fun x => PubSubReq (Some x)) <$> d_struct 0 pubsub_step data (mkPubSubRequest zeroMessage "" "")
  else None.

Definition UnmarshalJSON (b : string) : option InternalRequest :=
  if decide (b = "" \/ b = "null") then Some (mkInternalRequest zeroRouting None 0)
  else match d_struct 0 wire_step b (mkWire zeroRouting "" None) with
       | None => None
       | Some w =>
           if decide (w_kind w = "") then None
           else match w_data w with
                | None => None
                | Some data => (fun r => mkInternalRequest (w_internal w) (Some r) 0) <$> decode_request (w_kind w) data
                end
       end.

(** [json.Unmarshal]: the whole text must be valid; the value it holds is
    decoded. *)
Definition value_text (s : string) : option string :=
  if json_valid s then
    let v := skip_ws s in
    match scan_value (fuel_for v) 0 v with
    | Some (_, r) => Some (str_take (String.length v - String.length r) v)
    | None => None
    end
  else None.

Definition unmarshal (s : string) : option InternalRequest := value_text s ≫= UnmarshalJSON.

(** ** The persisted result (InternalResult): the message and its token *)
Definition result_fields (r : ResultMessage) : list (string * string) :=
  [("id", quote (res_ID r))] ++ field_int "status_code" (res_StatusCode r) ++ [("payload", quote (res_Payload r))] ++
  field_string "error_code" (res_ErrorCode r) ++ field_string "error_message" (res_ErrorMessage r) ++
  field_string "request_token" (rt_RequestToken (res_Routing r)).

Definition marshalInternalResult (msg : ResultMessage) : string := print_obj (result_fields msg).

(** The decoded fields, and the token beside them. *)
Definition result_step (key raw : string) (x : ResultMessage * string) : option (ResultMessage * string) :=
  let '(mkResultMessage a b c e f g h, t) := x in
  let name := fold_name key in
  if String.eqb name "id" then (fun v => (mkResultMessage v b c e f g h, t)) <$> d_string raw a
  else if String.eqb name "status_code" then (fun v => (mkResultMessage a v c e f g h, t)) <$> d_int raw b
  else if String.eqb name "payload" then (fun v => (mkResultMessage a b v e f g h, t)) <$> d_string raw c
  else if String.eqb name "error_code" then (fun v => (mkResultMessage a b c v f g h, t)) <$> d_string raw e
  else if String.eqb name "error_message" then (fun v => (mkResultMessage a b c e v g h, t)) <$> d_string raw f
  else if String.eqb name "request_token" then (fun v => (mkResultMessage a b c e f g h, v)) <$> d_string raw t
  else Some x.

Definition zeroResult : ResultMessage := mkResultMessage "" 0 "" "" "" zeroRouting ∅.

Definition set_token (t : string) (rt : InternalRouting) : InternalRouting :=
  let '(mkInternalRouting a b _ e f g h i j k l m) := rt in mkInternalRouting a b t e f g h i j k l m.

Definition parseInternalResult (s : string) : option ResultMessage :=
  match value_text s ≫= (fun v => d_struct 0 result_step v (zeroResult, "")) with
  | None => None
  | Some (mkResultMessage a b c e f g h, t) =>
      if decide (a = "") then None else Some (mkResultMessage a b c e f (set_token t g) h)
  end.

(** ** What is written is read back *)
Definition texts_valid (m : gmap string string) : Prop :=
  map_Forall (fun k v => valid_utf8 k = true /\ valid_utf8 v = true) m.

Lemma d_string_quote v cur : valid_utf8 v = true -> d_string (quote v) cur = Some v.
Proof.
  intros Hv. unfold d_string, quote. rewrite decide_False by done. change (code dquote =? 34) with true. cbv iota.
  change (ch dquote) with (String dquote ""). rewrite scan_quote. by apply unquote_qbody.
Qed.

Lemma itoa_not_null n : int64 n -> itoa n <> "null".
Proof.
  intros Hn. unfold itoa. destruct (n <? 0) eqn:En; [done|].
  destruct (dec_20 n) as (c & s & -> & Hc & _); [unfold int64 in Hn; lia|]. by intros [= -> _].
Qed.

Lemma d_int_itoa n cur : int64 n -> d_int (itoa n) cur = Some n.
Proof. intros Hn. unfold d_int. rewrite decide_False by by apply itoa_not_null. by apply itoa_parse. Qed.

Lemma dec_fields_app {R : Type} (step : string -> string -> R -> option R) l l' r r' :
  dec_fields step l r = Some r' -> dec_fields step (l ++ l') r = dec_fields step l' r'.
Proof.
  revert r. induction l as [|[k raw] l IH]; intros r; simpl; [by intros [= ->]|].
  destruct (unquote k) as [key|]; [|done]. destruct (step key raw r); [|done]. apply IH.
Qed.

Lemma entry_ok d k v : member_ok d (qbody k, quote v).
Proof. split_and!; simpl; [apply scan_quote|apply html_quote|apply quote_value]. Qed.

Lemma map_text_value d m : d < maxNestingDepth -> value_at d (map_text m).
Proof. intros Hd. apply print_obj_value; [done|]. apply Forall_fmap, Forall_true. intros [k v]. apply entry_ok. Qed.

Lemma dec_map_entries l : Forall (fun kv => valid_utf8 kv.1 = true /\ valid_utf8 kv.2 = true) l -> forall m,
  dec_fields map_step ((fun kv => (qbody kv.1, quote kv.2)) <$> l) m = Some (foldl (fun m kv => <[kv.1 := kv.2]> m) m l).
Proof.
  induction 1 as [|[k v] l [Hk Hv] Hl IH]; intros m; [done|]. rewrite fmap_cons. cbn [dec_fields fst snd].
  rewrite unquote_qbody by done. unfold map_step at 1. rewrite d_string_quote by done. simpl. apply IH.
Qed.

Lemma foldl_inserts (l : list (string * string)) : NoDup l.*1 -> forall m : gmap string string,
  foldl (fun m kv => <[kv.1 := kv.2]> m) m l = list_to_map l ∪ m.
Proof.
  induction l as [|[k v] l IH]; simpl; intros Hnd m; [by rewrite (left_id_L ∅ (∪))|]. apply NoDup_cons in Hnd as [Hk Hnd].
  rewrite IH by done. rewrite <- insert_union_r by by apply not_elem_of_list_to_map_1. by rewrite insert_union_l.
Qed.

Lemma d_map_text d m : d < maxNestingDepth -> texts_valid m -> d_map d (map_text m) ∅ = Some m.
Proof.
  intros Hd Hm. unfold d_map, map_text. rewrite decide_False by done. rewrite object_print.
  2: { apply Forall_fmap, Forall_true. intros [k v]. apply entry_ok. }
  pose proof (merge_sort_Permutation key_le (map_to_list m)) as Hp.
  rewrite dec_map_entries.
  - f_equal. rewrite foldl_inserts by (rewrite Hp; apply NoDup_fst_map_to_list). rewrite (right_id_L ∅ (∪)).
    rewrite (list_to_map_proper _ (map_to_list m)); [apply list_to_map_to_list|rewrite Hp; apply NoDup_fst_map_to_list|done].
  - rewrite Hp. apply Forall_forall. intros [k v] Hin%elem_of_map_to_list. apply (Hm k v Hin).
Qed.

(** One field: written under its own name, read into its own place. *)
Lemma dec_one {R : Type} (step : string -> string -> R -> option R) k raw r :
  unquote k = Some k -> dec_fields step [(k, raw)] r = step k raw r.
Proof. intros Hk. simpl. rewrite Hk. by destruct (step k raw r). Qed.

Ltac one_field step :=
  rewrite dec_one by reflexivity; unfold step;
  repeat match goal with |- context [fold_name ?k] => let e := eval vm_compute in (fold_name k) in change (fold_name k) with e end;
  cbn [String.eqb Ascii.eqb Bool.eqb].

Record routing_ok (rt : InternalRouting) : Prop := {
  rk_retry : int64 (rt_RetryCount rt);
  rk_queue : valid_utf8 (rt_QueueID rt) = true;
  rk_token : valid_utf8 (rt_RequestToken rt) = true;
  rk_attempt : int64 (rt_DispatchAttempt rt);
  rk_request : valid_utf8 (rt_RequestQueueName rt) = true;
  rk_result : valid_utf8 (rt_ResultQueueName rt) = true;
  rk_ttl : int64 (rt_ResultTTLSeconds rt);
  rk_correlation : valid_utf8 (rt_TransportCorrelationID rt) = true;
  rk_seq : int64 (rt_EnqueueSeq rt);
  rk_ref : valid_utf8 (rt_PayloadRef rt) = true;
  rk_labels : texts_valid (rt_Labels rt)
}.

(** The first field of the rest leaves [r']. *)
Ltac field step lem r' :=
  match goal with |- dec_fields _ (?l ++ _) _ = _ => rewrite (dec_fields_app _ l _ _ r') end;
  [|unfold field_string, field_int, field_bool, field_map;
    first [case_decide as Hz; [subst; reflexivity|]|case_match; [|reflexivity]];
    one_field step; rewrite ?lem by done; reflexivity].

Lemma routing_decodes rt : routing_ok rt -> dec_fields routing_step (routing_fields rt) zeroRouting = Some rt.
Proof.
  destruct rt as [a b c e f g h i j k l m]. intros []. simpl in *.
  unfold routing_fields, routing_before, routing_after, zeroRouting. simpl. rewrite <- !app_assoc.
  rewrite <- (app_nil_r (field_map _ _)).
  field routing_step d_int_itoa (mkInternalRouting a "" "" 0 "" "" 0 false "" 0 "" ∅).
  field routing_step d_string_quote (mkInternalRouting a b "" 0 "" "" 0 false "" 0 "" ∅).
  field routing_step d_string_quote (mkInternalRouting a b c 0 "" "" 0 false "" 0 "" ∅).
  field routing_step d_int_itoa (mkInternalRouting a b c e "" "" 0 false "" 0 "" ∅).
  field routing_step d_string_quote (mkInternalRouting a b c e f "" 0 false "" 0 "" ∅).
  field routing_step d_string_quote (mkInternalRouting a b c e f g 0 false "" 0 "" ∅).
  field routing_step d_int_itoa (mkInternalRouting a b c e f g h false "" 0 "" ∅).
  field routing_step d_int_itoa (mkInternalRouting a b c e f g h i "" 0 "" ∅).
  field routing_step d_string_quote (mkInternalRouting a b c e f g h i j 0 "" ∅).
  field routing_step d_int_itoa (mkInternalRouting a b c e f g h i j k "" ∅).
  field routing_step d_string_quote (mkInternalRouting a b c e f g h i j k l ∅).
  field routing_step d_map_text (mkInternalRouting a b c e f g h i j k l m).
  reflexivity.
Qed.

(** *** Every field is a well-formed member *)
Definition key_ok (k : string) : Prop := (forall r, scan_str (k +:+ String dquote r) = Some (k, r)) /\ html k = k.

Lemma mem d k v : key_ok k -> value_at d v -> member_ok d (k, v).
Proof. intros [H1 H2] Hv. by split_and!. Qed.

Lemma string_ok d k v : key_ok k -> Forall (member_ok d) (field_string k v).
Proof. intros Hk. unfold field_string. case_decide; [constructor|]. apply Forall_singleton, mem; auto using quote_value. Qed.
Lemma int_ok d k v : key_ok k -> int64 v -> Forall (member_ok d) (field_int k v).
Proof. intros Hk Hv. unfold field_int. case_decide; [constructor|]. apply Forall_singleton, mem; auto using itoa_value. Qed.
Lemma bool_ok d k v : key_ok k -> Forall (member_ok d) (field_bool k v).
Proof. intros Hk. unfold field_bool. destruct v; [|constructor]. apply Forall_singleton, mem; [done|apply lit_value]. Qed.
Lemma map_ok d k v : d < maxNestingDepth -> key_ok k -> Forall (member_ok d) (field_map k v).
Proof. intros Hd Hk. unfold field_map. case_decide; [constructor|]. apply Forall_singleton, mem; auto using map_text_value. Qed.

Create HintDb wire_db.
#[local] Hint Resolve string_ok int_ok bool_ok map_ok Forall_app_2 : wire_db.
#[local] Hint Extern 1 (key_ok _) => (split; [intros; reflexivity|reflexivity]) : wire_db.
#[local] Hint Extern 1 (_ < maxNestingDepth) => (unfold maxNestingDepth; lia) : wire_db.

Lemma routing_members rt : routing_ok rt -> Forall (member_ok 2) (routing_fields rt).
Proof.
  intros []. unfold routing_fields, routing_before, routing_after. auto 20 with wire_db.
Qed.

(** The payload as it is read back: compacted, nil as [null]. *)
Definition canon_payload (p : RawMessage) : RawMessage := from_option RawBytes p (raw_text p).
Definition canon_message (m : RequestMessage) : RequestMessage :=
  mkRequestMessage (rm_ID m) (rm_Created m) (rm_Deadline m) (canon_payload (rm_Payload m)) (rm_Metadata m) (rm_Headers m)
    (rm_Endpoint m) (rm_Model m).
Definition canon_request (r : Request) : Request :=
  match r with
  | PlainRequest m => PlainRequest (canon_message <$> m)
  | RedisReq x => RedisReq ((fun x => mkRedisRequest (canon_message (rr_Message x)) (rr_RequestQueueName x) (rr_ResultQueueName x)) <$> x)
  | PubSubReq x => PubSubReq ((fun x => mkPubSubRequest (canon_message (ps_Message x)) (ps_PubSubID x) (ps_ResultQueueName x)) <$> x)
  | OtherRequest v => OtherRequest v
  end.

(** The texts are UTF-8, the numbers 64-bit, and the payload JSON, at most
    9,998 deep. *)
Record message_ok (m : RequestMessage) : Prop := {
  mk_id : valid_utf8 (rm_ID m) = true;
  mk_created : int64 (rm_Created m);
  mk_deadline : int64 (rm_Deadline m);
  mk_payload : exists p, raw_text (rm_Payload m) = Some p /\ value_at 2 p;
  mk_metadata : texts_valid (rm_Metadata m);
  mk_headers : texts_valid (rm_Headers m);
  mk_endpoint : valid_utf8 (rm_Endpoint m) = true;
  mk_model : valid_utf8 (rm_Model m) = true
}.

Lemma members_shallower d d' l : d' <= d -> Forall (member_ok d) l -> Forall (member_ok d') l.
Proof.
  intros Hd Hl. eapply Forall_impl; [exact Hl|]. intros kv (H1 & H2 & H3). split_and!; [done..|]. by eapply value_shallower.
Qed.

Lemma message_members m p : message_ok m -> value_at 2 p -> Forall (member_ok 2) (message_fields m p).
Proof.
  intros [] Hp. unfold message_fields. apply Forall_app_2; [|auto 20 with wire_db].
  repeat constructor; apply mem; auto using quote_value, itoa_value with wire_db.
Qed.

(** *** Decoding the concrete requests *)
Ltac kv_field step lem r' :=
  match goal with |- dec_fields ?st (?kv :: ?l) ?r = _ =>
    change (dec_fields st (kv :: l) r) with (dec_fields st ([kv] ++ l) r); rewrite (dec_fields_app _ [kv] _ _ r') end;
  [|one_field step; rewrite ?lem by done; reflexivity].

Lemma message_decodes m p : message_ok m -> raw_text (rm_Payload m) = Some p ->
  dec_fields message_step (message_fields m p) zeroMessage = Some (canon_message m).
Proof.
  destruct m as [a b c e f g h i]. intros [] Hp. unfold message_fields, zeroMessage, canon_message, canon_payload.
  cbn [app rm_ID rm_Created rm_Deadline rm_Payload rm_Metadata rm_Headers rm_Endpoint rm_Model] in *. rewrite Hp.
  cbn [from_option].
  rewrite <- (app_nil_r (field_string "model" _)).
  kv_field message_step d_string_quote (mkRequestMessage a 0 0 RawNil ∅ ∅ "" "").
  kv_field message_step d_int_itoa (mkRequestMessage a b 0 RawNil ∅ ∅ "" "").
  kv_field message_step d_int_itoa (mkRequestMessage a b c RawNil ∅ ∅ "" "").
  kv_field message_step d_int_itoa (mkRequestMessage a b c (RawBytes p) ∅ ∅ "" "").
  field message_step d_map_text (mkRequestMessage a b c (RawBytes p) f ∅ "" "").
  field message_step d_map_text (mkRequestMessage a b c (RawBytes p) f g "" "").
  field message_step d_string_quote (mkRequestMessage a b c (RawBytes p) f g h "").
  field message_step d_string_quote (mkRequestMessage a b c (RawBytes p) f g h i).
  reflexivity.
Qed.

Definition message_names : list string := ["id"; "created"; "deadline"; "payload"; "metadata"; "headers"; "endpoint"; "model"].

Lemma message_names_in m p : Forall (fun kv => kv.1 ∈ message_names) (message_fields m p).
Proof.
  unfold message_fields, field_map, field_string, message_names.
  repeat case_decide; simpl; repeat constructor; set_solver.
Qed.

(** A step that passes the message's fields on to the embedded message. *)
Lemma dec_embedded {R : Type} (step : string -> string -> R -> option R) (wrap : RequestMessage -> R) l m :
  (forall k raw m, k ∈ message_names -> step k raw (wrap m) = wrap <$> message_step k raw m) ->
  Forall (fun kv => kv.1 ∈ message_names) l ->
  dec_fields step l (wrap m) = wrap <$> dec_fields message_step l m.
Proof.
  intros Hstep Hl. revert m. induction Hl as [|[k raw] l Hk Hl IH]; intros m; [done|]. cbn [dec_fields].
  assert (unquote k = Some k) as ->.
  { simpl in Hk. unfold message_names in Hk. rewrite !elem_of_cons in Hk.
    repeat (destruct Hk as [->|Hk]; [done|]). by apply not_elem_of_nil in Hk. }
  rewrite Hstep by done. destruct (message_step k raw m) as [m'|]; [|done]. apply IH.
Qed.

Lemma redis_embeds k raw m : k ∈ message_names ->
  redis_step k raw (mkRedisRequest m "" "") = (fun m => mkRedisRequest m "" "") <$> message_step k raw m.
Proof.
  unfold message_names. rewrite !elem_of_cons. intros Hk. repeat (destruct Hk as [->|Hk]; [done|]). by apply not_elem_of_nil in Hk.
Qed.

Lemma pubsub_embeds k raw m : k ∈ message_names ->
  pubsub_step k raw (mkPubSubRequest m "" "") = (fun m => mkPubSubRequest m "" "") <$> message_step k raw m.
Proof.
  unfold message_names. rewrite !elem_of_cons. intros Hk. repeat (destruct Hk as [->|Hk]; [done|]). by apply not_elem_of_nil in Hk.
Qed.

(** The text of a request, and that it decodes to it. *)
Definition request_ok (r : Request) : Prop :=
  match r with
  | PlainRequest (Some m) => message_ok m
  | RedisReq (Some x) => message_ok (rr_Message x) /\ valid_utf8 (rr_RequestQueueName x) = true /\
      valid_utf8 (rr_ResultQueueName x) = true
  | PubSubReq (Some x) => message_ok (ps_Message x) /\ valid_utf8 (ps_PubSubID x) = true /\
      valid_utf8 (ps_ResultQueueName x) = true
  | _ => False
  end.

Lemma request_data_decodes r : request_ok r ->
  exists kind l, request_data r = Some (kind, print_obj l) /\ Forall (member_ok 2) l /\
    kind ∈ ["plain"; "redis"; "pubsub"] /\ decode_request kind (print_obj l) = Some (canon_request r).
Proof.
  assert (forall l, Forall (member_ok 2) l -> object_of 0 (print_obj l) = Some l /\ print_obj l <> "null") as Hobj.
  { intros l Hl. split; [|done]. apply object_print. by apply (members_shallower 2). }
  destruct r as [[m|]|[[m q res]|]|[[m i res]|]|v]; simpl; try done.
  - intros Hm. destruct (mk_payload m Hm) as (p & Hp & Hv). rewrite Hp. pose proof (message_members m p Hm Hv) as Hl.
    eexists "plain", _. split_and!; [reflexivity|done|set_solver|]. unfold decode_request, d_struct. simpl String.eqb. cbv iota.
    destruct (Hobj _ Hl) as [-> Hn]. rewrite decide_False by done. by rewrite message_decodes.
  - intros (Hm & Hq & Hres). destruct (mk_payload m Hm) as (p & Hp & Hv). rewrite Hp. pose proof (message_members m p Hm Hv) as Hl.
    assert (Forall (member_ok 2) (message_fields m p ++ field_string "request_queue_name" q ++ field_string "result_queue_name" res))
      as Hl' by auto 10 with wire_db.
    exists "redis", (message_fields m p ++ field_string "request_queue_name" q ++ field_string "result_queue_name" res).
    split_and!; [reflexivity|done|set_solver|]. unfold decode_request, d_struct. simpl String.eqb. cbv iota.
    destruct (Hobj _ Hl') as [-> Hn]. rewrite decide_False by done.
    assert (dec_fields redis_step (message_fields m p ++ field_string "request_queue_name" q ++ field_string "result_queue_name" res)
      (mkRedisRequest zeroMessage "" "") = Some (mkRedisRequest (canon_message m) q res)) as ->; [|done].
    rewrite (dec_fields_app _ (message_fields m p) _ _ (mkRedisRequest (canon_message m) "" "")).
    + rewrite <- (app_nil_r (field_string "result_queue_name" res)).
      field redis_step d_string_quote (mkRedisRequest (canon_message m) q ""). field redis_step d_string_quote (mkRedisRequest (canon_message m) q res). done.
    + rewrite (dec_embedded redis_step (fun m => mkRedisRequest m "" "")); [by rewrite message_decodes|apply redis_embeds|apply message_names_in].
  - intros (Hm & Hq & Hres). destruct (mk_payload m Hm) as (p & Hp & Hv). rewrite Hp. pose proof (message_members m p Hm Hv) as Hl.
    assert (Forall (member_ok 2) (message_fields m p ++ field_string "pubsub_id" i ++ field_string "result_queue_name" res))
      as Hl' by auto 10 with wire_db.
    exists "pubsub", (message_fields m p ++ field_string "pubsub_id" i ++ field_string "result_queue_name" res).
    split_and!; [reflexivity|done|set_solver|]. unfold decode_request, d_struct. simpl String.eqb. cbv iota.
    destruct (Hobj _ Hl') as [-> Hn]. rewrite decide_False by done.
    assert (dec_fields pubsub_step (message_fields m p ++ field_string "pubsub_id" i ++ field_string "result_queue_name" res)
      (mkPubSubRequest zeroMessage "" "") = Some (mkPubSubRequest (canon_message m) i res)) as ->; [|done].
    rewrite (dec_fields_app _ (message_fields m p) _ _ (mkPubSubRequest (canon_message m) "" "")).
    + rewrite <- (app_nil_r (field_string "result_queue_name" res)).
      field pubsub_step d_string_quote (mkPubSubRequest (canon_message m) i ""). field pubsub_step d_string_quote (mkPubSubRequest (canon_message m) i res). done.
    + rewrite (dec_embedded pubsub_step (fun m => mkPubSubRequest m "" "")); [by rewrite message_decodes|apply pubsub_embeds|apply message_names_in].
Qed.

(** *** The envelope *)
Lemma kind_valid kind : kind ∈ ["plain"; "redis"; "pubsub"] -> valid_utf8 kind = true /\ kind <> "".
Proof.
  rewrite !elem_of_cons. intros Hk. repeat (destruct Hk as [->|Hk]; [done|]). by apply not_elem_of_nil in Hk.
Qed.

Lemma envelope_members l kind data : Forall (member_ok 2) l -> value_at 1 data ->
  Forall (member_ok 1) [("internal", print_obj l); ("request_kind", quote kind); ("data", data)].
Proof.
  intros Hl Hd. repeat constructor; apply mem; auto using quote_value with wire_db.
  apply print_obj_value; [unfold maxNestingDepth; lia|done].
Qed.

Lemma envelope_value l kind data : Forall (member_ok 2) l -> value_at 1 data -> value_at 0 (envelope l kind data).
Proof. intros Hl Hd. apply print_obj_value; [unfold maxNestingDepth; lia|by apply envelope_members]. Qed.

Lemma data_value d l : d <= 1 -> Forall (member_ok 2) l -> value_at d (print_obj l).
Proof.
  intros Hd Hl. apply print_obj_value; [unfold maxNestingDepth; lia|]. by apply (members_shallower 2); [lia|].
Qed.

Lemma value_text_value v : value_at 0 v -> value_text v = Some v.
Proof.
  intros Hv. unfold value_text, json_valid. rewrite compact_value by done.
  destruct (value_head 0 v "" Hv) as [Hs _]. rewrite str_app_nil in Hs. rewrite Hs, Hv. f_equal.
  simpl. rewrite Nat.sub_0_r. rewrite <- (str_app_nil v) at 2. apply str_take_full.
Qed.

Lemma unmarshal_value v : value_at 0 v -> unmarshal v = UnmarshalJSON v.
Proof. intros Hv. unfold unmarshal. by rewrite value_text_value. Qed.

Lemma UnmarshalJSON_envelope rt kind data r :
  routing_ok rt -> kind ∈ ["plain"; "redis"; "pubsub"] -> value_at 1 data -> decode_request kind data = Some r ->
  UnmarshalJSON (envelope (routing_fields rt) kind data) = Some (mkInternalRequest rt (Some r) 0).
Proof.
  intros Hrt Hk Hd Hr. destruct (kind_valid kind Hk) as [Hkv Hkn]. pose proof (routing_members rt Hrt) as Hm.
  unfold UnmarshalJSON. rewrite decide_False by by intros [?|?]. unfold d_struct at 1. rewrite decide_False by done.
  unfold envelope. rewrite object_print by by apply envelope_members.
  assert (dec_fields wire_step [("internal", print_obj (routing_fields rt)); ("request_kind", quote kind); ("data", data)]
    (mkWire zeroRouting "" None) = Some (mkWire rt kind (Some data))) as ->.
  { assert (d_struct 1 routing_step (print_obj (routing_fields rt)) zeroRouting = Some rt) as Hint.
    { unfold d_struct. rewrite decide_False by done. rewrite object_print by done. by apply routing_decodes. }
    kv_field wire_step Hint (mkWire rt "" None). kv_field wire_step d_string_quote (mkWire rt kind None).
    kv_field wire_step Hint (mkWire rt kind (Some data)). done. }
  simpl. rewrite decide_False by done. by rewrite Hr.
Qed.

Lemma marshal_text ir r : ir_Public ir = Some r -> request_ok r -> routing_ok (ir_Routing ir) ->
  exists kind l, kind ∈ ["plain"; "redis"; "pubsub"] /\ Forall (member_ok 2) l /\
    decode_request kind (print_obj l) = Some (canon_request r) /\ request_data r = Some (kind, print_obj l) /\
    marshal ir = Some (envelope (routing_fields (ir_Routing ir)) kind (print_obj l)).
Proof.
  intros Hp Hr Hrt. destruct (request_data_decodes r Hr) as (kind & l & Hd & Hl & Hk & Hdec). exists kind, l. split_and!; [done..|].
  unfold marshal, MarshalJSON. rewrite Hp, Hd, (compact_value (print_obj l)) by (apply data_value; [lia|done]). simpl.
  apply compact_value, envelope_value; [by apply routing_members|by apply data_value].
Qed.

Lemma wire_decodes ir r :
  ir_Public ir = Some r -> request_ok r -> routing_ok (ir_Routing ir) ->
  exists s, marshal ir = Some s /\ unmarshal s = Some (mkInternalRequest (ir_Routing ir) (Some (canon_request r)) 0).
Proof.
  intros Hp Hr Hrt. destruct (marshal_text ir r Hp Hr Hrt) as (kind & l & Hk & Hl & Hdec & _ & Hm).
  eexists. split; [exact Hm|]. rewrite unmarshal_value by (apply envelope_value; [by apply routing_members|by apply data_value]).
  apply UnmarshalJSON_envelope; auto. by apply data_value.
Qed.

(** C16. The wire format loses nothing: a request whose texts are valid UTF-8 and
    whose payload is nil or any JSON the encoder accepts is encoded, and
    decoding the encoded bytes gives it back, routing, kind and all fields of
    the concrete request, the payload compacted and the in-process ingestion
    time reset. *)
Theorem wire_roundtrip ir r :
  ir_Public ir = Some r -> request_ok r -> routing_ok (ir_Routing ir) ->
  exists s, marshal ir = Some s /\ unmarshal s = Some (mkInternalRequest (ir_Routing ir) (Some (canon_request r)) 0).
Proof. apply wire_decodes. Qed.

(** ** The sequence number, written into the encoded request *)
Definition enqueueSeqFieldJSON : string := String dquote ("enqueue_seq" +:+ String dquote ":").
Definition enqueueSeqPlaceholderJSON : string := enqueueSeqFieldJSON +:+ "-1".

(** [bytes.Index] *)
Fixpoint str_index (pat s : string) : option nat :=
  match scan_lit pat s with
  | Some _ => Some O
  | None => match s with "" => None | String _ s' => S <$> str_index pat s' end
  end.

(** No occurrence of [pat] starts inside [a]. *)
Fixpoint clean (pat a rest : string) : Prop :=
  match a with "" => True | String _ a' => scan_lit pat (a +:+ rest) = None /\ clean pat a' rest end.

Lemma clean_app pat a b rest : clean pat a (b +:+ rest) -> clean pat b rest -> clean pat (a +:+ b) rest.
Proof.
  induction a as [|c a IH]; [done|]. cbn [clean]. intros [H1 H2] Hb. rewrite cons_app. cbn [clean]. split; [|by apply IH].
  by rewrite <- H1, !cons_app, app_app.
Qed.

Lemma scan_lit_self pat rest : scan_lit pat (pat +:+ rest) = Some rest.
Proof. induction pat as [|c pat IH]; [done|]. rewrite cons_app. cbn [scan_lit]. by rewrite Ascii.eqb_refl. Qed.

Lemma str_index_eq pat s :
  str_index pat s = match scan_lit pat s with Some _ => Some O | None => match s with "" => None | String _ s' => S <$> str_index pat s' end end.
Proof. by destruct s. Qed.

Lemma str_index_clean pat a rest : clean pat a (pat +:+ rest) -> str_index pat (a +:+ pat +:+ rest) = Some (String.length a).
Proof.
  induction a as [|c a IH]; cbn [clean].
  - intros _. rewrite nil_app, str_index_eq. by rewrite scan_lit_self.
  - intros [H1 H2]. rewrite cons_app in *. cbn [str_index]. rewrite H1, IH by done. done.
Qed.

Fixpoint no_quote (s : string) : bool :=
  match s with "" => true | String c s' => negb (Ascii.eqb dquote c) && no_quote s' end.

Fixpoint all_high (s : string) : Prop := match s with "" => True | String c s' => 128 <= code c /\ all_high s' end.

Notation seq_pat := enqueueSeqPlaceholderJSON.
Notation seq_tail := (("enqueue_seq" +:+ String dquote ":-1")%string).

Lemma no_quote_clean s rest : no_quote s = true -> clean seq_pat s rest.
Proof.
  induction s as [|c s IH]; [done|]. cbn [no_quote clean]. intros [Hc Hs]%andb_prop. split; [|by apply IH].
  rewrite cons_app. change seq_pat with (String dquote seq_tail). cbn [scan_lit]. by destruct (Ascii.eqb dquote c).
Qed.

Lemma high_shape s : s <> "" -> all_high s -> no_quote s = true /\ exists c r, s = String c r /\ (c = backslash \/ 128 <= code c \/ r = "").
Proof.
  intros Hs Hh. split.
  - clear Hs. induction s as [|c s IH]; [done|]. destruct Hh as [Hc Hh]. cbn [no_quote]. rewrite IH by done.
    destruct (Ascii.eqb_spec dquote c) as [<-|]; [|done]. by change (code dquote) with 34 in Hc.
  - destruct s as [|c s]; [done|]. destruct Hh as [Hc _]. eauto 10.
Qed.

Definition ascii_shape (s : string) : bool :=
  String.eqb s (String backslash (ch dquote)) ||
  no_quote s && match s with String c r => Ascii.eqb c backslash || (128 <=? code c) || String.eqb r "" | "" => false end.

Lemma ascii_shapes c : implb (code c <? 128) (ascii_shape (escape c)) = true.
Proof. by destruct c as [[] [] [] [] [] [] [] []]. Qed.

(** What an encoded character looks like. *)
Lemma quote_chunk_shape k : chunk_wf k ->
  quote_chunk k = String backslash (ch dquote) \/
  no_quote (quote_chunk k) = true /\ exists c r, quote_chunk k = String c r /\ (c = backslash \/ 128 <= code c \/ r = "").
Proof.
  intros [c Hc|c1 c2 H|c1 c2 c3 H _|c1 c2 c3 c4 H _ _|c]; cbn [quote_chunk].
  - pose proof (ascii_shapes c) as Hs. rewrite Hc in Hs. cbn [implb] in Hs. unfold ascii_shape in Hs.
    destruct (String.eqb_spec (escape c) (String backslash (ch dquote))) as [->|_]; [by left|]. right. cbn [orb] in Hs.
    apply andb_true_iff in Hs as [Hq Hs]. split; [done|]. destruct (escape c) as [|c' r]; [done|]. exists c', r. split; [done|].
    destruct (Ascii.eqb_spec c' backslash) as [->|_]; [by left|]. right. destruct (Z.leb_spec 128 (code c')); [by left|]. right. by apply String.eqb_eq.
  - apply utf8_2_bounds in H. right. repeat (case_bool_decide; [done|]). apply high_shape; [done|simpl; lia].
  - apply utf8_3_bounds in H. right. case_bool_decide; [|case_bool_decide; [|apply high_shape; [done|simpl; lia]]];
      (split; [reflexivity|]; eexists _, _; split; [reflexivity|]; by auto).
  - apply utf8_4_bounds in H. right. repeat (case_bool_decide; [done|]). apply high_shape; [done|simpl; lia].
  - right. vm_compute. split; [done|]. eexists _, _. split; [done|]. by auto.
Qed.

(** The pattern's name does not occur, closing quote included, at the start of
    what remains of a string value. *)
Lemma tail_not_in_value w : no_quote w = true -> forallb (fun c => (code c <? 128) && negb (Ascii.eqb backslash c)) (list_ascii_of_string w) = true ->
  forall ks rest, Forall chunk_wf ks ->
  scan_lit (w +:+ String dquote ":-1") (str_concat (quote_chunk <$> ks) +:+ String dquote (String "," rest)) = None.
Proof.
  induction w as [|c w IH]; intros Hq Hw ks rest Hks.
  - rewrite nil_app. destruct Hks as [|k ks Hk Hks]; [done|]. rewrite qbody_cons, app_app.
    destruct (quote_chunk_shape k Hk) as [->|[Hn (c & r & E & _)]]; [done|]. rewrite E in *. rewrite cons_app. cbn [scan_lit].
    cbn [no_quote] in Hn. by destruct (Ascii.eqb dquote c).
  - cbn [no_quote list_ascii_of_string forallb] in *. apply andb_prop in Hq as [Hc Hq]. apply andb_prop in Hw as [Hc' Hw].
    apply andb_prop in Hc' as [Hlow Hb]. rewrite cons_app.
    destruct Hks as [|k ks Hk Hks]; [rewrite nil_app; cbn [scan_lit]; rewrite Ascii.eqb_sym; by destruct (Ascii.eqb dquote c)|].
    rewrite qbody_cons, app_app. assert (backslash <> c) as Hbc by (intros <-; discriminate Hb).
    destruct (quote_chunk_shape k Hk) as [->|[Hn (c' & r & E & Hs)]].
    + rewrite cons_app. cbn [scan_lit]. destruct (Ascii.eqb_spec c backslash); [by subst|done].
    + rewrite E, cons_app. cbn [scan_lit]. destruct (Ascii.eqb_spec c c') as [<-|]; [|done].
      destruct Hs as [->|[?| ->]]; [done|lia|]. rewrite nil_app. by apply IH.
Qed.

Lemma qbody_clean ks rest : Forall chunk_wf ks ->
  clean seq_pat (str_concat (quote_chunk <$> ks)) (String dquote (String "," rest)).
Proof.
  induction 1 as [|k ks Hk Hks IH]; [done|]. rewrite qbody_cons. apply clean_app; [|done].
  destruct (quote_chunk_shape k Hk) as [->|[Hn _]]; [|by apply no_quote_clean].
  split; [done|]. split; [|done]. rewrite cons_app, nil_app. change seq_pat with (String dquote seq_tail). cbn [scan_lit].
  rewrite Ascii.eqb_refl. by apply tail_not_in_value.
Qed.

Lemma quote_clean v rest : clean seq_pat (quote v +:+ ",") rest.
Proof.
  destruct (chunks_of_spec v) as [Hwf _]. unfold quote, qbody. rewrite cons_app, app_app. cbn [clean]. split.
  - rewrite cons_app, app_app. change seq_pat with (String dquote seq_tail). cbn [scan_lit]. rewrite Ascii.eqb_refl.
    by apply tail_not_in_value.
  - apply clean_app; [by apply qbody_clean|done].
Qed.

Lemma digits_no_quote s : all_digits s = true -> no_quote s = true.
Proof.
  induction s as [|c s IH]; [done|]. cbn [all_digits no_quote]. intros [Hc Hs]%andb_prop. rewrite IH by done.
  by destruct (Ascii.eqb_spec dquote c) as [<-|].
Qed.

Lemma itoa_no_quote n : int64 n -> no_quote (itoa n +:+ ",") = true.
Proof.
  assert (forall s, all_digits s = true -> no_quote (s +:+ ",") = true) as Hd.
  { intros s Hs. apply digits_no_quote in Hs. induction s as [|c s IH]; [done|]. rewrite cons_app. cbn [no_quote] in *.
    apply andb_prop in Hs as [-> Hs]. by apply IH. }
  unfold int64, itoa. intros Hn. destruct (n <? 0) eqn:E.
  - destruct (dec_20 (- n)) as (c & s & -> & H1 & H2 & _); [lia|]. rewrite cons_app. cbn [no_quote]. apply Hd. simpl. by rewrite H1.
  - destruct (dec_20 n) as (c & s & -> & H1 & H2 & _); [lia|]. apply Hd. simpl. by rewrite H1.
Qed.

(** The members before the sequence number. *)
Definition member_text (kv : string * string) : string := String dquote (kv.1 +:+ String dquote (String ":" (kv.2 +:+ ","))).
Definition pre_text (l : list (string * string)) : string := str_concat (member_text <$> l).
Definition text_clean (kv : string * string) : Prop := forall rest, clean seq_pat (member_text kv) rest.

Lemma pre_clean l rest : Forall text_clean l -> clean seq_pat (pre_text l) rest.
Proof.
  induction 1 as [|kv l Hkv Hl IH]; [done|].
  change (pre_text (kv :: l)) with (member_text kv +:+ pre_text l). by apply clean_app.
Qed.

Lemma print_members_pre l k v l' : print_members (l ++ (k, v) :: l') = pre_text l +:+ String dquote (k +:+ String dquote (String ":" (v +:+ members_tail l'))).
Proof.
  induction l as [|[k0 v0] l IH].
  - by rewrite nil_app, <- print_members_cons.
  - change (pre_text ((k0, v0) :: l)) with (member_text (k0, v0) +:+ pre_text l). rewrite <- app_comm_cons, print_members_cons, app_app, <- IH.
    unfold member_text. simpl fst. simpl snd. rewrite !cons_app, !app_app, !cons_app, !app_app.
    destruct (l ++ (k, v) :: l') eqn:E; [by destruct l|]. done.
Qed.

(** A key the pattern neither starts at nor ends. *)
Definition key_clean (k : string) : Prop := forall rest, clean seq_pat (String dquote (k +:+ String dquote ":")) rest.

Lemma clean_member k v : key_clean k -> (forall rest, clean seq_pat (v +:+ ",") rest) -> text_clean (k, v).
Proof.
  intros Hk Hv rest. unfold member_text. simpl fst. simpl snd.
  replace (String dquote (k +:+ String dquote (String ":" (v +:+ ",")))) with
    (String dquote (k +:+ String dquote ":") +:+ v +:+ ",") by (by rewrite !cons_app, !app_app, !cons_app).
  by apply clean_app.
Qed.

Lemma string_clean k v : key_clean k -> Forall text_clean (field_string k v).
Proof. intros Hk. unfold field_string. case_decide; [done|]. apply Forall_singleton, clean_member; [done|apply quote_clean]. Qed.
Lemma int_clean k v : key_clean k -> int64 v -> Forall text_clean (field_int k v).
Proof.
  intros Hk Hv. unfold field_int. case_decide; [done|]. apply Forall_singleton, clean_member; [done|].
  intros rest. by apply no_quote_clean, itoa_no_quote.
Qed.
Lemma bool_clean k v : key_clean k -> Forall text_clean (field_bool k v).
Proof. intros Hk. unfold field_bool. destruct v; [|done]. apply Forall_singleton, clean_member; [done|]. intros rest. by apply no_quote_clean. Qed.

#[local] Hint Resolve string_clean int_clean bool_clean : wire_db.
#[local] Hint Extern 1 (key_clean _) => (intros ?; repeat split; reflexivity) : wire_db.

Lemma before_clean rt : routing_ok rt -> Forall text_clean (routing_before rt).
Proof. intros []. unfold routing_before. auto 20 with wire_db. Qed.

Definition set_seq (n : Z) (rt : InternalRouting) : InternalRouting :=
  let '(mkInternalRouting a b c e f g h i j _ l m) := rt in mkInternalRouting a b c e f g h i j n l m.

Lemma set_seq_ok n rt : int64 n -> routing_ok rt -> routing_ok (set_seq n rt).
Proof. destruct rt. intros Hn []. by split. Qed.

Lemma envelope_split rt n kind data : n <> 0 ->
  envelope (routing_fields (set_seq n rt)) kind data =
  (String "{" (String dquote ("internal" +:+ String dquote (String ":" "{"))) +:+ pre_text (routing_before rt)) +:+
  enqueueSeqFieldJSON +:+ itoa n +:+ members_tail (routing_after rt) +:+ members_tail [("request_kind", quote kind); ("data", data)].
Proof.
  intros Hn. unfold envelope, print_obj. rewrite print_members_cons. unfold routing_fields.
  assert (routing_before (set_seq n rt) = routing_before rt /\ routing_after (set_seq n rt) = routing_after rt /\
          rt_EnqueueSeq (set_seq n rt) = n) as (-> & -> & ->) by by destruct rt.
  unfold field_int. rewrite decide_False by done. rewrite <- app_comm_cons, app_nil_l, print_members_pre.
  unfold enqueueSeqFieldJSON. by rewrite ?cons_app, ?nil_app, ?app_app, ?cons_app, ?nil_app, ?app_app, ?cons_app, ?nil_app.
Qed.

(** The encoded request with another number in the place of the sequence
    placeholder. *)
Definition splice (s seq : string) : option string :=
  match str_index enqueueSeqPlaceholderJSON s with
  | None => None
  | Some i => Some (str_take (i + String.length enqueueSeqFieldJSON) s +:+ seq +:+
                    str_drop (i + String.length enqueueSeqPlaceholderJSON) s)
  end.

Lemma str_drop_full s t : str_drop (String.length s) (s +:+ t) = t.
Proof. induction s; [done|]. rewrite cons_app. done. Qed.

(** The first occurrence of the placeholder is the field itself, whatever the
    strings before it hold. *)
Lemma seq_spliced rt n kind data : routing_ok rt -> n <> 0 ->
  splice (envelope (routing_fields (set_seq (-1) rt)) kind data) (itoa n) =
  Some (envelope (routing_fields (set_seq n rt)) kind data).
Proof.
  intros Hrt Hn. rewrite !envelope_split by done. set (A := _ +:+ pre_text _). set (B := members_tail _ +:+ members_tail _).
  change (itoa (-1)) with "-1". unfold splice.
  replace (A +:+ enqueueSeqFieldJSON +:+ "-1" +:+ B) with (A +:+ seq_pat +:+ B)
    by (unfold enqueueSeqPlaceholderJSON; by rewrite (app_app enqueueSeqFieldJSON)).
  rewrite str_index_clean.
  - f_equal. rewrite <- !len_app. rewrite <- (app_app A seq_pat B), str_drop_full. rewrite !app_app.
    unfold enqueueSeqPlaceholderJSON. rewrite (app_app enqueueSeqFieldJSON), <- (app_app A). by rewrite str_take_full, app_app.
  - subst A. apply clean_app; [repeat split; reflexivity|]. by apply pre_clean, before_clean.
Qed.

(** ** Results come back *)
Record result_ok (r : ResultMessage) : Prop := {
  ro_id : valid_utf8 (res_ID r) = true;
  ro_some : res_ID r <> "";
  ro_status : int64 (res_StatusCode r);
  ro_payload : valid_utf8 (res_Payload r) = true;
  ro_code : valid_utf8 (res_ErrorCode r) = true;
  ro_message : valid_utf8 (res_ErrorMessage r) = true;
  ro_token : valid_utf8 (rt_RequestToken (res_Routing r)) = true
}.

Lemma result_decodes r : result_ok r ->
  parseInternalResult (marshalInternalResult r) =
  Some (mkResultMessage (res_ID r) (res_StatusCode r) (res_Payload r) (res_ErrorCode r) (res_ErrorMessage r)
          (set_token (rt_RequestToken (res_Routing r)) zeroRouting) ∅).
Proof.
  destruct r as [a b c e f g h]. intros [].
  cbn [res_ID res_StatusCode res_Payload res_ErrorCode res_ErrorMessage res_Routing] in *. set (t := rt_RequestToken g) in *.
  set (l := result_fields (mkResultMessage a b c e f g h)).
  assert (forall d, Forall (member_ok d) l) as Hl.
  { intros d. assert (forall k v, key_ok k -> Forall (member_ok d) [(k, quote v)]) as Hq.
    { intros k v Hk. by apply Forall_singleton, mem, quote_value. }
    subst l. unfold result_fields. auto 20 with wire_db. }
  assert (dec_fields result_step l (zeroResult, "") = Some (mkResultMessage a b c e f zeroRouting ∅, t)) as Hdec.
  { subst l. unfold result_fields, zeroResult.
    cbn [res_ID res_StatusCode res_Payload res_ErrorCode res_ErrorMessage res_Routing app]. fold t. clearbody t.
    rewrite <- (app_nil_r (field_string "request_token" _)).
    kv_field result_step d_string_quote (mkResultMessage a 0 "" "" "" zeroRouting ∅, "").
    field result_step d_int_itoa (mkResultMessage a b "" "" "" zeroRouting ∅, "").
    kv_field result_step d_string_quote (mkResultMessage a b c "" "" zeroRouting ∅, "").
    field result_step d_string_quote (mkResultMessage a b c e "" zeroRouting ∅, "").
    field result_step d_string_quote (mkResultMessage a b c e f zeroRouting ∅, "").
    field result_step d_string_quote (mkResultMessage a b c e f zeroRouting ∅, t). done. }
  unfold parseInternalResult, marshalInternalResult. fold l.
  rewrite value_text_value by (apply print_obj_value; [unfold maxNestingDepth; lia|done]). simpl. unfold d_struct.
  rewrite decide_False by done. rewrite object_print by done. rewrite Hdec. by rewrite decide_False.
Qed.

(** A result comes back from its persisted form: the id, status, body and
    error of a result in UTF-8 are read back as written, with the generation
    token of the request it answers; the rest of the routing and the metadata
    are not persisted. *)
Theorem result_roundtrip r : result_ok r ->
  parseInternalResult (marshalInternalResult r) =
  Some (mkResultMessage (res_ID r) (res_StatusCode r) (res_Payload r) (res_ErrorCode r) (res_ErrorMessage r)
          (set_token (rt_RequestToken (res_Routing r)) zeroRouting) ∅).
Proof. apply result_decodes. Qed.

(** ** A request with every kind of text in it *)
Definition w_payload : string := String "{" (String dquote ("p" +:+ String dquote (" : [1, 2.5e3, " +:+ quote "<&>" +:+ " ] }"))).
Definition w_compact : string := String "{" (String dquote ("p" +:+ String dquote (":[1,2.5e3," +:+ quote "<&>" +:+ "]}"))).
Definition w_wire_message (p : string) : RequestMessage :=
  mkRequestMessage "r1" 0 100 (RawBytes p) {["a" := "b"]} ∅ "/v1" "m".
Definition w_wire_routing (seq : Z) : InternalRouting :=
  mkInternalRouting 2 enqueueSeqPlaceholderJSON "t1" 0 "q" "res" (-5) true "" seq "" {["k" := "v"]}.
Definition w_wire (p : string) : InternalRequest :=
  mkInternalRequest (w_wire_routing 7) (Some (RedisReq (Some (mkRedisRequest (w_wire_message p) "q" "")))) 9.

Lemma w_wire_ok : request_ok (RedisReq (Some (mkRedisRequest (w_wire_message w_payload) "q" ""))) /\ routing_ok (w_wire_routing 7).
Proof.
  assert (forall n, - 2 ^ 10 <= n < 2 ^ 10 -> int64 n) as Hn by (unfold int64; lia).
  split; [split_and!; [|done|done]|]; split; try done; try (by apply Hn).
  - by exists w_compact.
  - by apply map_Forall_singleton.
  - by apply map_Forall_singleton.
Qed.

Lemma wire_roundtrip_witness : exists s, marshal (w_wire w_payload) = Some s /\
  unmarshal s = Some (mkInternalRequest (w_wire_routing 7) (Some (RedisReq (Some (mkRedisRequest (w_wire_message w_compact) "q" "")))) 0).
Proof. exact (wire_roundtrip (w_wire w_payload) _ eq_refl (proj1 w_wire_ok) (proj2 w_wire_ok)). Defined.

Definition w_res : ResultMessage := mkResultMessage "r1" 200 (String dquote "<body>") "" "" (w_wire_routing 7) ∅.

Lemma result_roundtrip_witness : parseInternalResult (marshalInternalResult w_res) =
  Some (mkResultMessage "r1" 200 (String dquote "<body>") "" "" (set_token "t1" zeroRouting) ∅).
Proof. apply (result_roundtrip w_res). split; try done; unfold int64; simpl; lia. Defined.
