(* ===== verification/RedisProducer.v ===== *)
(** * The Redis producer (src/producer/redis_sortedset_producer.go, redis_conn.go)

    [SubmitRequest], [CancelRequests], [GetResult] and the queue operations,
    with their Lua scripts, over the keys of RedisClaim.v plus what only the
    producer uses: the sequence counters and the expiry times of keys.  A
    call's reply may be lost, before or after it took effect.  A request is
    written and read with the wire format of Wire.v.

    The client's clock (in ns), the server's (in ms) and the random token are
    arguments.  [redis.ParseURL] and the kind of the client are parameters. *)
From stdpp Require Import prelude gmap strings list sorting.
From Stdlib Require Import ZArith QArith Lia Ascii String.
From S2P Require Import Prelude Json Rounding Api KeySlot RedisClaim Wire.

#[local] Open Scope Z_scope.
#[local] Open Scope faulty_scope.

(** ** Redis, as the producer uses it *)
Record PRedis : Type := mkPRedis {
  pr_r : Redis;
  pr_seqs : gmap string Z;      (* counters *)
  pr_expiry : gmap string Z     (* key -> when it expires, unix ms *)
}.

Definition dead (e : gmap string Z) (t : Z) (key : string) : bool :=
  match e !! key with Some x => x <=? t | None => false end.

(** Keys whose time has come are gone before the next command. *)
Definition purge (t : Z) (p : PRedis) : PRedis :=
  mkPRedis (set_strs (filter (fun kv => dead (pr_expiry p) t kv.1 = false) (strs (pr_r p))) (pr_r p))
    (filter (fun kv => dead (pr_expiry p) t kv.1 = false) (pr_seqs p)) (pr_expiry p).

Definition INCR (key : string) (p : PRedis) : PRedis * Z :=
  let n := default 0 (pr_seqs p !! key) + 1 in
  (mkPRedis (pr_r p) (<[key := n]> (pr_seqs p))
     (if bool_decide (is_Some (pr_seqs p !! key)) then pr_expiry p else delete key (pr_expiry p)), n).

(** A time in the past deletes the key; a time that does not fit in
    milliseconds is an error. *)
Definition EXPIREAT (key : string) (sec t : Z) (p : PRedis) : option PRedis :=
  if 2 ^ 63 / 1000 <? sec then None
  else if sec * 1000 <=? t then Some (mkPRedis (pr_r p) (delete key (pr_seqs p)) (delete key (pr_expiry p)))
  else Some (mkPRedis (pr_r p) (pr_seqs p) (<[key := sec * 1000]> (pr_expiry p))).

Definition SET (key v : string) (expiry : option Z) (p : PRedis) : PRedis :=
  mkPRedis (set_strs (<[key := v]> (strs (pr_r p))) (pr_r p)) (pr_seqs p)
    (match expiry with Some e => <[key := e]> (pr_expiry p) | None => delete key (pr_expiry p) end).

(** [SET key v PX ms]: a time that is not positive is an error. *)
Definition SET_PX (key v : string) (ms t : Z) (p : PRedis) : option PRedis :=
  if 0 <? ms then Some (SET key v (Some (t + ms)) p) else None.

Definition DEL (key : string) (p : PRedis) : PRedis :=
  mkPRedis (set_strs (delete key (strs (pr_r p))) (pr_r p)) (pr_seqs p) (delete key (pr_expiry p)).

Definition ZADD (q : string) (score : Q) (member : string) (p : PRedis) : PRedis :=
  mkPRedis (set_queue q (zadd_pending member score (queue_at (pr_r p) q)) (pr_r p)) (pr_seqs p) (pr_expiry p).

(** ** Constants and times *)
Definition cancellationMarkerTTL : Z := 7 * 24 * 3600 * Second.
Definition payloadTTLGrace : Z := 10 * Minute.
Definition enqueueSeqPlaceholder : Z := -1.
Definition enqueueSeqGrace : Z := 3600.

(** The offset of Go's internal second count, and a subtraction of times,
    which stops at the ends of [time.Duration]. *)
Definition unixToInternal : Z := 62135596800.
Definition clamp64 (d : Z) : Z := Z.max (- 2 ^ 63) (Z.min d (2 ^ 63 - 1)).
Definition untilUnix (deadline now : Z) : Z :=
  clamp64 ((wrap64 (deadline + unixToInternal) - unixToInternal) * Second - now).
Definition Milliseconds (d : Z) : Z := Z.quot d Millisecond.

Definition enqueueSeqKey (queueName : string) (deadline : Z) (cluster : bool) : string :=
  "request-seq:" +:+ producer_slotKey queueName cluster +:+ ":" +:+ itoa deadline.

(** ** The scripts *)

(** [tonumber(deadline) + math.min(seq, 2097151) / 2097152] in doubles; the 17
    digits it is printed with give the same double back. *)
Definition lua_score (deadline seq : Z) : Q :=
  fadd64 (frnd (inject_Z deadline)) (Z.min seq 2097151 # 2097152).

(** [before .. seq .. after]: an integer below 10^14 is printed in full. *)
Definition lua_member (before : string) (seq : Z) (after : string) : string := before +:+ itoa seq +:+ after.

Inductive ProducerErr : Type :=
| ErrRequestRequired
| ErrIDRequired
| ErrDeadlineRequired
| ErrDeadlineExpired
| ErrNoToken
| ErrInvalidPayload
| ErrMarshalFailed
| ErrNoPlaceholder
| ErrQueue           (* the call, or the script, failed *)
| ErrCancelFailed
| ErrResult.

(** A script that fails keeps what it did before. *)
Definition script (A : Type) : Type := PRedis -> PRedis * option A.
Definition sc_ret {A : Type} (a : A) : script A := fun p => (p, Some a).
Definition sc_bind {A B : Type} (m : script A) (k : A -> script B) : script B :=
  fun p => match m p with (p', Some a) => k a p' | (p', None) => (p', None) end.
Definition sc_do {A : Type} (f : PRedis -> PRedis * A) : script A := fun p => let '(p', a) := f p in (p', Some a).
Definition sc_upd (f : PRedis -> PRedis) : script unit := fun p => (f p, Some tt).
Definition sc_try (f : PRedis -> option PRedis) : script unit :=
  fun p => match f p with Some p' => (p', Some tt) | None => (p, None) end.

Declare Scope script_scope.
Notation "'lua!' x <- m ; k" := (sc_bind m (fun x => k)) (at level 10, x name, m at level 100, k at level 200) : script_scope.
Notation "'lua>' m ; k" := (sc_bind m (fun _ => k)) (at level 10, m at level 100, k at level 200) : script_scope.
#[local] Open Scope script_scope.

Definition submitRequestScript (t : Z) (seqKey cancelKey activeKey queue : string) (payloadKey : option (string * string * Z))
    (token : string) (activePX seqExpireAt : Z) (before after : string) (deadline : Z) : script Z :=
  lua! seq <- sc_do (INCR seqKey);
  lua> sc_try (EXPIREAT seqKey seqExpireAt t);
  lua> sc_upd (DEL cancelKey);
  lua> sc_try (SET_PX activeKey token activePX t);
  lua> sc_upd (ZADD queue (lua_score deadline seq) (lua_member before seq after));
  lua> match payloadKey with
       | Some (key, payload, px) => sc_try (SET_PX key payload px t)
       | None => sc_ret tt
       end;
  sc_ret seq.

Definition enqueueRequestScript (t : Z) (seqKey queue : string) (seqExpireAt : Z) (before after : string) (deadline : Z) : script Z :=
  lua! seq <- sc_do (INCR seqKey);
  lua> sc_try (EXPIREAT seqKey seqExpireAt t);
  lua> sc_upd (ZADD queue (lua_score deadline seq) (lua_member before seq after));
  sc_ret seq.

(** ** The producer *)
Record RedisSortedSetProducer : Type := mkProducer {
  rp_clusterKeys : bool;
  rp_requestQueueName : string;
  rp_resultQueueName : string;
  rp_resultClaimLeaseTTL : Z;
  rp_resultClaimReclaimInterval : Z;
  rp_payloadKeys : bool
}.

Abbreviation PM := (Faulty PRedis ProducerErr).

(** One command or script at server time [t]. *)
Definition p_call {A : Type} (t : Z) (s : script A) : PM A :=
  do! r <- f_call ErrQueue (fun p => Ok (s (purge t p)));
  match r with Some a => f_ret a | None => f_fail ErrQueue end.

(** A pipeline sends every command and reports the first error. *)
Fixpoint p_pipe (cmds : list (PM unit)) : PM unit :=
  match cmds with
  | [] => f_ret tt
  | c :: rest =>
      do! r <- f_try c;
      do! r' <- f_try (p_pipe rest);
      match r with Err e => f_fail e | Ok _ => match r' with Err e => f_fail e | Ok _ => f_ret tt end end
  end.

(** go-redis's [Set]: an expiration that is not positive sets none. *)
Definition client_Set (t : Z) (key v : string) (expiration : Z) : PM unit :=
  p_call t (sc_upd (SET key v (if 0 <? expiration then Some (t + Z.max 1 (Milliseconds expiration)) else None))).

Definition toInternalRequest (req : Request) : InternalRequest :=
  let ir rt pub := mkInternalRequest rt pub 0 in
  match req with
  | PlainRequest None | RedisReq None | PubSubReq None => ir zeroRouting None
  | PlainRequest (Some m) => ir zeroRouting (Some (PlainRequest (Some m)))
  | RedisReq (Some x) =>
      ir (mkInternalRouting 0 "" "" 0 (rr_RequestQueueName x) (rr_ResultQueueName x) 0 false "" 0 "" ∅) (Some (RedisReq (Some x)))
  | PubSubReq (Some x) => ir (mkInternalRouting 0 "" "" 0 "" "" 0 false (ps_PubSubID x) 0 "" ∅) (Some (PubSubReq (Some x)))
  | OtherRequest v => ir zeroRouting (Some (PlainRequest (Some v)))
  end.

(** [bytes.TrimSpace]: the runes of unicode.IsSpace are cut at both ends. *)
Definition space_runes : list string :=
  encode_rune <$> [133; 160; 5760; 8192; 8193; 8194; 8195; 8196; 8197; 8198; 8199; 8200; 8201; 8202; 8232; 8233; 8239; 8287; 12288].
Definition space_chunk (k : chunk) : bool :=
  match k with
  | CAscii c => between 9 13 c || (code c =? 32)
  | CRune s => bool_decide (s ∈ space_runes)
  | CBad _ => false
  end.
Fixpoint drop_spaces (ks : list chunk) : list chunk :=
  match ks with k :: ks' => if space_chunk k then drop_spaces ks' else ks | [] => [] end.
Definition TrimSpace (s : string) : string :=
  str_concat (chunk_str <$> reverse (drop_spaces (reverse (drop_spaces (chunks_of s))))).

(** Nil, or JSON that is an object or [null]. *)
Definition payload_valid (p : RawMessage) : bool :=
  match p with
  | RawNil => true
  | RawBytes s =>
      let trimmed := TrimSpace s in
      json_valid trimmed && (match trimmed with String c _ => code c =? 123 | "" => false end || bool_decide (trimmed = "null"))
  end.

Definition or_default (s d : string) : string := if decide (s = "") then d else s.

Section producer.
Context (p : RedisSortedSetProducer).

(** The routing a request is submitted with. *)
Definition submit_routing (token payloadRef : string) (rt : InternalRouting) : InternalRouting :=
  mkInternalRouting (rt_RetryCount rt) (rt_QueueID rt) token (rt_DispatchAttempt rt)
    (or_default (rt_RequestQueueName rt) (rp_requestQueueName p)) (or_default (rt_ResultQueueName rt) (rp_resultQueueName p))
    (rt_ResultTTLSeconds rt) (rt_ResultRoutingResolved rt) (rt_TransportCorrelationID rt) enqueueSeqPlaceholder payloadRef (rt_Labels rt).

(** The envelope, and the payload to store beside it. *)
Definition encode_submission (ir : InternalRequest) : option (string * option string) :=
  if rp_payloadKeys p then
    match (SplitPayload marshal (Some ir)).1 with
    | Ok (envelope, payload) => Some (envelope, Some (raw_bytes payload))
    | Err _ => None
    end
  else (fun envelope => (envelope, None)) <$> marshal ir.

(** Where the sequence goes: the text before it and after it. *)
Definition split_envelope (envelope : string) : option (string * string) :=
  (fun i => (str_take (i + String.length enqueueSeqFieldJSON) envelope,
             str_drop (i + String.length enqueueSeqPlaceholderJSON) envelope))
  <$> str_index enqueueSeqPlaceholderJSON envelope.

Definition enqueueCluster (t1 t2 : Z) (reqID token queue : string) (deadline activeTTL seqExpireAt : Z)
    (jsonBefore jsonAfter payloadRef payload : string) (payloadTTL : Z) : PM unit :=
  do> p_pipe ([p_call t1 (sc_upd (DEL (RequestCancellationKey reqID)));
               client_Set t1 (RequestActiveTokenKey reqID) token activeTTL] ++
              (if decide (payloadRef = "") then [] else [client_Set t1 payloadRef payload payloadTTL]));
  do> p_call t2 (enqueueRequestScript t2 (enqueueSeqKey queue deadline true) queue seqExpireAt jsonBefore jsonAfter deadline);
  f_ret tt.

(** [now] and [tok] are what the clock and the random source give; [t1] and
    [t2] the server's times. *)
Definition SubmitRequest (now : Z) (tok : option string) (t1 t2 : Z) (req : option Request) : PM unit :=
  match req with
  | None => f_fail ErrRequestRequired
  | Some req =>
      let ir := toInternalRequest req in
      match ir_Public ir ≫= (fun r => (fun v => (r, v)) <$> request_view r) with
      | None => f_fail ErrRequestRequired
      | Some (r, v) =>
          let deadline := rm_Deadline v in
          let activeTTL := untilUnix deadline now in
          if decide (rm_ID v = "") then f_fail ErrIDRequired
          else if deadline <=? 0 then f_fail ErrDeadlineRequired
          else if activeTTL <=? 0 then f_fail ErrDeadlineExpired
          else match tok with
          | None => f_fail ErrNoToken
          | Some token =>
              if negb (payload_valid (rm_Payload v)) then f_fail ErrInvalidPayload
              else
                let ref := if rp_payloadKeys p then RequestPayloadKey (rm_ID v) token else "" in
                let rt := submit_routing token ref (ir_Routing ir) in
                match encode_submission (mkInternalRequest rt (Some r) 0) with
                | None => f_fail ErrMarshalFailed
                | Some (envelope, payload) =>
                    match split_envelope envelope with
                    | None => f_fail ErrNoPlaceholder
                    | Some (before, after) =>
                        let queue := rt_RequestQueueName rt in
                        let seqExpireAt := wrap64 (deadline + enqueueSeqGrace) in
                        let payloadTTL := wrap64 (activeTTL + payloadTTLGrace) in
                        if rp_clusterKeys p
                        then enqueueCluster t1 t2 (rm_ID v) token queue deadline activeTTL seqExpireAt before after
                               ref (default "" payload) payloadTTL
                        else do> p_call t1 (submitRequestScript t1 (enqueueSeqKey queue deadline false)
                                   (RequestCancellationKey (rm_ID v)) (RequestActiveTokenKey (rm_ID v)) queue
                                   (if decide (ref = "") then None else Some (ref, default "" payload, Milliseconds payloadTTL))
                                   token (Z.max (Milliseconds activeTTL) 1) seqExpireAt before after deadline);
                             f_ret tt
                    end
                end
          end
      end
  end.

(** [GET], then [SET], for each id. *)
Definition cancel_read (t : Z) (id : string) : PM (option string) :=
  p_call t (fun q => (q, Some (strs (pr_r q) !! RequestActiveTokenKey id))).
Definition cancel_write (t : Z) (id active : string) : PM unit :=
  client_Set t (RequestCancellationKey id) active cancellationMarkerTTL.

Fixpoint CancelRequests (ts : nat -> Z) (requestIDs : list string) : PM unit :=
  match requestIDs with
  | [] => f_ret tt
  | id :: rest =>
      if decide (id = "") then CancelRequests ts rest
      else
        do! active <- cancel_read (ts 0%nat) id;
        match active with
        | None => CancelRequests (fun i => ts (S i)) rest
        | Some token => do> cancel_write (ts 1%nat) id token; CancelRequests (fun i => ts (S (S i))) rest
        end
  end.

(** [BRPOP]: the oldest result of the list, which LPUSH left last. *)
Definition brpop (key : string) (q : PRedis) : PRedis * option string :=
  let l := default [] (lists (pr_r q) !! key) in
  match last l with
  | None => (q, None)
  | Some v =>
      let r := pr_r q in
      (mkPRedis (mkRedis (queues r) (retryset r) (<[key := take (Datatypes.length l - 1) l]> (lists r)) (strs r) (ttls r))
         (pr_seqs q) (pr_expiry q), Some v)
  end.

(** [waits] holds, per wait of a second, what others did to Redis meanwhile and
    whether the context was still live before it.  [None]: still waiting. *)
Fixpoint GetResult (waits : list ((PRedis -> PRedis) * bool)) : PM (option ResultMessage) :=
  match waits with
  | [] => f_ret None
  | (_, false) :: _ => f_fail ErrResult
  | (others, true) :: rest =>
      do! v <- f_call ErrResult (fun q => Ok (brpop (rp_resultQueueName p) (others q)));
      match v with
      | None => GetResult rest
      | Some data => match parseInternalResult data with Some r => f_ret (Some r) | None => f_fail ErrResult end
      end
  end.

Definition RequestQueueDepth (t : Z) : PM Z :=
  p_call t (fun q => (q, Some (Z.of_nat (size (pending (queue_at (pr_r q) (rp_requestQueueName p))))))).
Definition ResultQueueDepth (t : Z) : PM Z :=
  p_call t (fun q => (q, Some (Z.of_nat (Datatypes.length (default [] (lists (pr_r q) !! rp_resultQueueName p)))))).
Definition ClearRequestQueue (t : Z) : PM unit :=
  p_call t (sc_upd (fun q =>
    let k := queue_at (pr_r q) (rp_requestQueueName p) in
    mkPRedis (set_queue (rp_requestQueueName p) (mkQueueKeys ∅ (claimed k) (owners k) (idx k)) (pr_r q)) (pr_seqs q) (pr_expiry q))).
End producer.

(** ** Construction *)
Record RedisSortedSetConfig : Type := mkSSConfig {
  cf_RedisURL : string;
  cf_RedisMode : string;
  cf_RedisAddrs : list string;
  cf_RedisMasterName : string;
  cf_RequestQueueName : string;
  cf_ResultQueueName : string
}.

Inductive ConfigErr : Type :=
| ErrResultQueueRequired
| ErrNilClient
| ErrNotPositive
| ErrAddrsNeedMode
| ErrMasterNeedsSentinel
| ErrMasterRequired
| ErrUnknownMode
| ErrURLRequired
| ErrBadURL
| ErrClusterDatabase
| ErrConnect.

Inductive ProducerOption : Type :=
| WithRedisClient (client : option bool)     (* nil, or a client; true for a cluster client *)
| WithResultClaimLeaseTTL (ttl : Z)
| WithResultClaimReclaimInterval (interval : Z)
| WithPayloadKeys.

Section construction.
(** The database a URL selects; None when it does not parse. *)
Context (ParseURL : string -> option Z) (ping : bool).

(** The client's kind: a cluster client exactly in cluster mode. *)
Definition newRedisClient (c : RedisSortedSetConfig) : Res ConfigErr bool :=
  let mode := cf_RedisMode c in
  let checked :=
    if decide (mode = "" \/ mode = "standalone") then
      if decide (cf_RedisAddrs c <> []) then Err ErrAddrsNeedMode
      else if decide (cf_RedisMasterName c <> "") then Err ErrMasterNeedsSentinel else Ok tt
    else if decide (mode = "cluster") then
      if decide (cf_RedisMasterName c <> "") then Err ErrMasterNeedsSentinel else Ok tt
    else if decide (mode = "sentinel") then
      if decide (cf_RedisMasterName c = "") then Err ErrMasterRequired else Ok tt
    else Err ErrUnknownMode in
  match checked with
  | Err e => Err e
  | Ok _ =>
      if decide (cf_RedisURL c = "") then Err ErrURLRequired
      else match ParseURL (cf_RedisURL c) with
           | None => Err ErrBadURL
           | Some db => if decide (mode = "cluster" /\ db <> 0) then Err ErrClusterDatabase else Ok (bool_decide (mode = "cluster"))
           end
  end.

(** The producer under construction, and its client if one was injected. *)
Definition apply_option (o : ProducerOption) (pc : RedisSortedSetProducer * option bool) :
    Res ConfigErr (RedisSortedSetProducer * option bool) :=
  let '(mkProducer c rq sq ttl iv pk, client) := pc in
  match o with
  | WithRedisClient None => Err ErrNilClient
  | WithRedisClient (Some kind) => Ok (mkProducer c rq sq ttl iv pk, Some kind)
  | WithResultClaimLeaseTTL d => if d <=? 0 then Err ErrNotPositive else Ok (mkProducer c rq sq d iv pk, client)
  | WithResultClaimReclaimInterval d => if d <=? 0 then Err ErrNotPositive else Ok (mkProducer c rq sq ttl d pk, client)
  | WithPayloadKeys => Ok (mkProducer c rq sq ttl iv true, client)
  end.

Fixpoint apply_options (os : list ProducerOption) (pc : RedisSortedSetProducer * option bool) :
    Res ConfigErr (RedisSortedSetProducer * option bool) :=
  match os with
  | [] => Ok pc
  | o :: rest => match apply_option o pc with Ok pc' => apply_options rest pc' | Err e => Err e end
  end.

Definition NewRedisSortedSetProducer (config : RedisSortedSetConfig) (opts : list ProducerOption) :
    Res ConfigErr RedisSortedSetProducer :=
  if decide (cf_ResultQueueName config = "") then Err ErrResultQueueRequired
  else
    let p0 := mkProducer false (or_default (cf_RequestQueueName config) "request-sortedset") (cf_ResultQueueName config)
                (5 * Minute) Second false in
    match apply_options opts (p0, None) with
    | Err e => Err e
    | Ok (mkProducer _ rq sq ttl iv pk, client) =>
        match (match client with Some kind => Ok kind | None => newRedisClient config end) with
        | Err e => Err e
        | Ok cluster => if ping then Ok (mkProducer cluster rq sq ttl iv pk) else Err ErrConnect
        end
    end.
End construction.

(** ** What is submitted is what is read *)

(** The request as the envelope holds it: without its payload when that goes
    under its own key. *)
Definition strip (r : Request) : Request :=
  match requestMessageOf (Some r) with Ok (m, put) => put (set_payload m RawNil) | Err _ => r end.
Definition in_envelope (pk : bool) (r : Request) : Request := if pk then strip r else r.

Lemma strip_ok r : request_ok r -> request_ok (strip r).
Proof.
  assert (forall m, message_ok m -> message_ok (set_payload m RawNil)) as Hm.
  { intros m []. split; try done. exists "null". split; [done|apply lit_value]. }
  destruct r as [[m|]|[[m q res]|]|[[m i res]|]|v]; simpl; try done; [apply Hm|intros (? & ? & ?)..]; auto.
Qed.

Lemma request_ok_message r : request_ok r -> exists m put, requestMessageOf (Some r) = Ok (m, put) /\ request_view r = Some m.
Proof. destruct r as [[m|]|[[m q res]|]|[[m i res]|]|v]; simpl; try done; intros; eauto. Qed.

Lemma splice_split s n : splice s n = (fun ba => ba.1 +:+ n +:+ ba.2) <$> split_envelope s.
Proof. unfold splice, split_envelope. by destruct (str_index _ s). Qed.

(** The envelope holds the placeholder; with any sequence number in its place
    it decodes to the request with that number. *)
Lemma submission_decodes p rt r : request_ok r -> routing_ok rt -> rt_EnqueueSeq rt = -1 ->
  exists envelope payload before after,
    encode_submission p (mkInternalRequest rt (Some r) 0) = Some (envelope, payload) /\
    split_envelope envelope = Some (before, after) /\
    (rp_payloadKeys p = true -> payload = raw_bytes <$> (rm_Payload <$> request_view r)) /\
    forall n, 1 <= n < 2 ^ 63 -> unmarshal (lua_member before n after) =
      Some (mkInternalRequest (set_seq n rt) (Some (canon_request (in_envelope (rp_payloadKeys p) r))) 0).
Proof.
  intros Hr Hrt Hseq. set (r' := in_envelope (rp_payloadKeys p) r).
  assert (request_ok r') as Hr' by (unfold r', in_envelope; destruct (rp_payloadKeys p); auto using strip_ok).
  assert (set_seq (-1) rt = rt) as Hset by (destruct rt; simpl in *; by subst).
  destruct (marshal_text (mkInternalRequest rt (Some r') 0) r' eq_refl Hr' Hrt) as (kind & l & Hk & Hl & Hdec & _ & Hm).
  simpl in Hm. exists (envelope (routing_fields rt) kind (print_obj l)).
  assert (exists b a, split_envelope (envelope (routing_fields rt) kind (print_obj l)) = Some (b, a) /\
    forall n, 1 <= n -> lua_member b n a = envelope (routing_fields (set_seq n rt)) kind (print_obj l)) as (b & a & Hs & Hn).
  { pose proof (fun n => seq_spliced rt n kind (print_obj l) Hrt) as Hsp. rewrite Hset in Hsp.
    destruct (split_envelope _) as [[b a]|] eqn:E.
    - exists b, a. split; [done|]. intros n Hn. specialize (Hsp n ltac:(lia)). rewrite splice_split, E in Hsp. by injection Hsp.
    - specialize (Hsp 1 ltac:(lia)). rewrite splice_split, E in Hsp. done. }
  assert (exists pl, encode_submission p (mkInternalRequest rt (Some r) 0) = Some (envelope (routing_fields rt) kind (print_obj l), pl) /\
    (rp_payloadKeys p = true -> pl = raw_bytes <$> (rm_Payload <$> request_view r))) as (pl & He & Hpl).
  { unfold encode_submission. destruct (rp_payloadKeys p) eqn:Epk.
    - destruct (request_ok_message r Hr) as (m & put & Hmo & Hv). unfold SplitPayload. simpl ir_Public. rewrite Hmo. cbv zeta.
      cbn [ir_Routing ir_Ingestion]. unfold r', in_envelope, strip in Hm. rewrite ?Epk, Hmo in Hm. rewrite Hm.
      eexists. split; [done|]. intros _. by rewrite Hv.
    - unfold r', in_envelope in Hm. rewrite ?Epk in Hm. rewrite Hm. by exists None. }
  exists pl, b, a. split_and!; [done..|]. intros n Hn'. rewrite Hn by lia.
  assert (routing_ok (set_seq n rt)) as Hrtn by (apply set_seq_ok; [unfold int64; lia|done]).
  rewrite unmarshal_value by (apply envelope_value; [by apply routing_members|by apply data_value]).
  apply UnmarshalJSON_envelope; auto. by apply data_value.
Qed.

(** The script's score is the score the dispatcher computes. *)
Lemma lua_score_eq deadline seq : 0 <= seq -> lua_score deadline seq = queueScore deadline seq.
Proof. intros Hs. unfold lua_score, queueScore. by rewrite Z.max_l by lia. Qed.

(** ** A submission that gets through *)
Lemma p_call_any {A : Type} t (sc : script A) st fs :
  p_call t sc (st, fs) =
  match head fs with
  | Some FLost => (Err ErrQueue, (st, tail fs))
  | Some FReply => (Err ErrQueue, ((sc (purge t st)).1, tail fs))
  | _ => (match (sc (purge t st)).2 with Some a => Ok a | None => Err ErrQueue end, ((sc (purge t st)).1, tail fs))
  end.
Proof. unfold p_call, f_bind, f_call. destruct (head fs) as [[]|]; destruct (sc (purge t st)) as [st' [a|]]; done. Qed.

Lemma p_call_run {A : Type} t (sc : script A) st :
  p_call t sc (st, []) = match sc (purge t st) with (st', Some a) => (Ok a, (st', [])) | (st', None) => (Err ErrQueue, (st', [])) end.
Proof. rewrite p_call_any. simpl. by destruct (sc (purge t st)) as [st' [a|]]. Qed.

Lemma wrap64_id z : - 2 ^ 63 <= z < 2 ^ 63 -> wrap64 z = z.
Proof. intros H. unfold wrap64. rewrite Z.mod_small; lia. Qed.

(** A deadline the code is written for: in the future, below 2^32 seconds. *)
Definition due_in (deadline now : Z) : Prop := 0 <= now < deadline * Second /\ deadline < 2 ^ 32.

Lemma untilUnix_due deadline now : due_in deadline now -> untilUnix deadline now = deadline * Second - now.
Proof.
  unfold due_in, untilUnix, clamp64, unixToInternal, Second. intros [H1 H2]. rewrite wrap64_id by lia.
  rewrite Z.max_r; rewrite Z.min_l; lia.
Qed.

(** What the queue and the markers hold afterwards, and until when. *)
Record submitted (s' : PRedis) (queue id token member : string) (score : Q) (until : Z) (payload : option (string * string * Z)) : Prop := {
  sb_member : pending (queue_at (pr_r s') queue) !! member = Some score;
  sb_active : strs (pr_r s') !! RequestActiveTokenKey id = Some token;
  sb_until : pr_expiry s' !! RequestActiveTokenKey id = Some until;
  sb_cancel : strs (pr_r s') !! RequestCancellationKey id = None;
  sb_payload key v e : payload = Some (key, v, e) -> strs (pr_r s') !! key = Some v /\ pr_expiry s' !! key = Some e
}.

(** The keys of different roles differ. *)
Lemma marker_keys id id' token : RequestCancellationKey id <> RequestActiveTokenKey id' /\
  RequestCancellationKey id <> RequestPayloadKey id' token /\ RequestActiveTokenKey id <> RequestPayloadKey id' token.
Proof. by split_and!; intros [=]. Qed.

Lemma queue_at_insert q k r : queue_at (set_queue q k r) q = k.
Proof. unfold queue_at, set_queue. simpl. by rewrite lookup_insert_eq. Qed.

(** Counters below 10^14, so that the next number is printed in full. *)
Definition counters_good (s : PRedis) : Prop := map_Forall (fun _ n => 0 <= n < 10 ^ 14 - 1) (pr_seqs s).

Lemma purge_strs t s k : strs (pr_r (purge t s)) !! k = if dead (pr_expiry s) t k then None else strs (pr_r s) !! k.
Proof.
  unfold purge. simpl. rewrite map_lookup_filter. destruct (strs (pr_r s) !! k) as [v|]; simpl; [|by destruct (dead _ _ _)].
  destruct (dead (pr_expiry s) t k) eqn:E; [by rewrite option_guard_False by (intros ?; congruence)|by rewrite option_guard_True].
Qed.

Lemma purge_none t s k : strs (pr_r s) !! k = None -> strs (pr_r (purge t s)) !! k = None.
Proof. intros H. rewrite purge_strs, H. by destruct (dead _ _ _). Qed.

Lemma purge_counters t s : counters_good s -> counters_good (purge t s).
Proof. intros H k n [Hk _]%map_lookup_filter_Some. by apply (H k). Qed.

Lemma counter_next s key : counters_good s -> 1 <= default 0 (pr_seqs s !! key) + 1 < 10 ^ 14.
Proof. intros H. destruct (pr_seqs s !! key) as [n|] eqn:E; simpl; [specialize (H key n E); simpl in H; lia|lia]. Qed.

Lemma script_submits t id token queue payload activePX seqExpireAt before after deadline s cluster :
  seqExpireAt <= 2 ^ 63 / 1000 -> 0 < activePX ->
  (forall key v px, payload = Some (key, v, px) -> 0 < px /\ key = RequestPayloadKey id token) ->
  let key := enqueueSeqKey queue deadline cluster in
  let n := default 0 (pr_seqs (purge t s) !! key) + 1 in
  exists s', submitRequestScript t key (RequestCancellationKey id) (RequestActiveTokenKey id) queue payload token activePX
    seqExpireAt before after deadline (purge t s) = (s', Some n) /\
  submitted s' queue id token (lua_member before n after) (lua_score deadline n) (t + activePX)
    ((fun x => (x.1, t + x.2)) <$> payload).
Proof.
  intros Hexp Hpx Hpl key n. destruct (marker_keys id id token) as (K1 & K2 & K3).
  unfold submitRequestScript, sc_bind, sc_do, INCR. cbn [fst snd].
  fold n. generalize (purge t s). intros p0.
  unfold sc_try at 1, EXPIREAT. destruct (2 ^ 63 / 1000 <? seqExpireAt) eqn:E; [lia|].
  set (p1 := if seqExpireAt * 1000 <=? t then _ else _).
  assert (exists p1', p1 = Some p1' /\ pr_r p1' = pr_r p0) as (p1' & Hp1 & Hr).
  { subst p1. destruct (seqExpireAt * 1000 <=? t); eexists; split; done. }
  rewrite Hp1. clear p1 Hp1. unfold sc_upd, sc_try, SET_PX. destruct (0 <? activePX) eqn:E2; [|lia].
  destruct payload as [[[k v] px]|].
  - destruct (Hpl k v px eq_refl) as [Hp ->]. destruct (0 <? px) eqn:E3; [|lia]. eexists. split; [reflexivity|].
    split; simpl; rewrite ?Hr.
    + unfold queue_at. simpl. rewrite lookup_insert_eq. simpl. by rewrite lookup_insert_eq.
    + rewrite lookup_insert_ne by done. by rewrite lookup_insert_eq.
    + rewrite lookup_insert_ne by done. by rewrite lookup_insert_eq.
    + rewrite !lookup_insert_ne by done. by rewrite lookup_delete_eq.
    + intros k' v' e [= <- <- <-]. by rewrite !lookup_insert_eq.
  - eexists. split; [reflexivity|]. split; simpl; rewrite ?Hr.
    + unfold queue_at. simpl. rewrite lookup_insert_eq. simpl. by rewrite lookup_insert_eq.
    + by rewrite lookup_insert_eq.
    + by rewrite lookup_insert_eq.
    + rewrite lookup_insert_ne by done. by rewrite lookup_delete_eq.
    + done.
Qed.

Lemma client_Set_run t key v d s : 0 < d ->
  client_Set t key v d (s, []) = (Ok tt, (SET key v (Some (t + Z.max 1 (Milliseconds d))) (purge t s), [])).
Proof. intros Hd. unfold client_Set. rewrite p_call_run. by destruct (Z.ltb_spec 0 d); [|lia]. Qed.

Lemma pipe_markers t1 t2 id token ref payload e1 e2 s2 :
  strs (pr_r s2) !! RequestActiveTokenKey id = Some token -> pr_expiry s2 !! RequestActiveTokenKey id = Some e1 ->
  strs (pr_r s2) !! RequestCancellationKey id = None -> t1 < e1 -> t2 < e1 -> t2 < e2 ->
  ref = "" \/ ref = RequestPayloadKey id token ->
  let s3 := if decide (ref = "") then s2 else SET ref payload (Some e2) (purge t1 s2) in
  strs (pr_r (purge t2 s3)) !! RequestActiveTokenKey id = Some token /\ pr_expiry s3 !! RequestActiveTokenKey id = Some e1 /\
  strs (pr_r (purge t2 s3)) !! RequestCancellationKey id = None /\
  (ref <> "" -> strs (pr_r (purge t2 s3)) !! ref = Some payload /\ pr_expiry s3 !! ref = Some e2).
Proof.
  intros A1 A2 A3 H1 H2 H3 Href s3. destruct (marker_keys id id token) as (K1 & K2 & K3).
  assert (strs (pr_r (purge t1 s2)) !! RequestActiveTokenKey id = Some token) as B1.
  { rewrite purge_strs, A1. unfold dead. rewrite A2. by destruct (Z.leb_spec e1 t1); [lia|]. }
  pose proof (purge_none t1 s2 _ A3) as B3.
  assert (strs (pr_r s3) !! RequestActiveTokenKey id = Some token /\ pr_expiry s3 !! RequestActiveTokenKey id = Some e1 /\
          strs (pr_r s3) !! RequestCancellationKey id = None) as (C1 & C2 & C3).
  { subst s3. case_decide; [done|]. destruct Href as [->|Href]; [done|]. unfold SET. cbn [pr_r pr_expiry].
    unfold set_strs. cbn [strs]. rewrite !lookup_insert_ne by congruence. split_and!; [exact B1|exact A2|exact B3]. }
  split_and!.
  - rewrite purge_strs, C1. unfold dead. rewrite C2. by destruct (Z.leb_spec e1 t2); [lia|].
  - done.
  - by apply purge_none.
  - intros Hne. subst s3. rewrite decide_False by done. rewrite purge_strs. unfold dead, SET, set_strs. cbn [pr_r pr_expiry strs].
    rewrite !lookup_insert_eq. by destruct (Z.leb_spec e2 t2); [lia|].
Qed.

(** The state after the pipeline of a cluster submission. *)
Definition after_pipe (t1 : Z) (id token : string) (activeTTL : Z) (ref payload : string) (payloadTTL : Z) (s : PRedis) : PRedis :=
  let s2 := SET (RequestActiveTokenKey id) token (Some (t1 + Z.max 1 (Milliseconds activeTTL)))
              (purge t1 (DEL (RequestCancellationKey id) (purge t1 s))) in
  if decide (ref = "") then s2 else SET ref payload (Some (t1 + Z.max 1 (Milliseconds payloadTTL))) (purge t1 s2).

Lemma pipe_run t1 id token activeTTL ref payload payloadTTL s : 0 < activeTTL -> 0 < payloadTTL ->
  p_pipe ([p_call t1 (sc_upd (DEL (RequestCancellationKey id))); client_Set t1 (RequestActiveTokenKey id) token activeTTL] ++
    (if decide (ref = "") then [] else [client_Set t1 ref payload payloadTTL])) (s, []) =
  (Ok tt, (after_pipe t1 id token activeTTL ref payload payloadTTL s, [])).
Proof.
  intros Ha Hp. unfold after_pipe. cbn [app p_pipe]. unfold f_bind, f_try at 1. rewrite p_call_run. unfold sc_upd at 1.
  unfold f_try at 1 2. rewrite client_Set_run by done. case_decide; cbn [p_pipe]; [done|].
  unfold f_bind, f_try. by rewrite client_Set_run.
Qed.

Lemma cluster_submits t1 t2 id token queue deadline activeTTL seqExpireAt before after ref payload payloadTTL s :
  seqExpireAt <= 2 ^ 63 / 1000 -> 0 < activeTTL -> 0 < payloadTTL -> counters_good s ->
  t2 < t1 + Milliseconds activeTTL -> t2 < t1 + Milliseconds payloadTTL -> ref = "" \/ ref = RequestPayloadKey id token ->
  exists s' n, enqueueCluster t1 t2 id token queue deadline activeTTL seqExpireAt before after ref payload payloadTTL (s, []) =
    (Ok tt, (s', [])) /\ 1 <= n < 10 ^ 14 /\
    enqueueRequestScript t2 (enqueueSeqKey queue deadline true) queue seqExpireAt before after deadline
      (purge t2 (after_pipe t1 id token activeTTL ref payload payloadTTL s)) = (s', Some n) /\
    submitted s' queue id token (lua_member before n after) (lua_score deadline n) (t1 + Z.max 1 (Milliseconds activeTTL))
      (if decide (ref = "") then None else Some (ref, payload, t1 + Z.max 1 (Milliseconds payloadTTL))).
Proof.
  intros Hexp Ha Hp Hc Ht Ht' Href. destruct (marker_keys id id token) as (K1 & K2 & K3).
  set (s1 := DEL (RequestCancellationKey id) (purge t1 s)).
  set (s2 := SET (RequestActiveTokenKey id) token (Some (t1 + Z.max 1 (Milliseconds activeTTL))) (purge t1 s1)).
  set (s3 := if decide (ref = "") then s2 else SET ref payload (Some (t1 + Z.max 1 (Milliseconds payloadTTL))) (purge t1 s2)).
  pose proof (pipe_run t1 id token activeTTL ref payload payloadTTL s Ha Hp) as Hpipe.
  change (after_pipe t1 id token activeTTL ref payload payloadTTL s) with s3 in *.
  assert (counters_good s3) as Hc3.
  { subst s3 s2 s1. case_decide; repeat first [apply purge_counters|done|progress unfold SET, DEL]; by repeat apply purge_counters. }
  pose proof (counter_next _ (enqueueSeqKey queue deadline true) (purge_counters t2 s3 Hc3)) as Hn.
  set (n := default 0 (pr_seqs (purge t2 s3) !! enqueueSeqKey queue deadline true) + 1) in *.
  assert (exists p1, enqueueRequestScript t2 (enqueueSeqKey queue deadline true) queue seqExpireAt before after deadline (purge t2 s3) =
    (ZADD queue (lua_score deadline n) (lua_member before n after) p1, Some n) /\ pr_r p1 = pr_r (purge t2 s3) /\
    forall k, k <> enqueueSeqKey queue deadline true -> pr_expiry p1 !! k = pr_expiry s3 !! k) as (p1 & Hscript & Hr & He).
  { unfold enqueueRequestScript, sc_bind, sc_do, INCR, sc_upd, sc_ret, sc_try, EXPIREAT. fold n.
    destruct (2 ^ 63 / 1000 <? seqExpireAt) eqn:E; [lia|]. destruct (seqExpireAt * 1000 <=? t2); eexists; (split; [done|]); split; try done;
      intros k Hk; cbn [pr_expiry]; case_bool_decide; by rewrite ?lookup_delete_ne, ?lookup_insert_ne, ?lookup_delete_ne by congruence. }
  unfold enqueueCluster, f_bind at 1. rewrite Hpipe. unfold f_bind. rewrite p_call_run, Hscript.
  eexists _, n. split; [reflexivity|]. split; [done|]. split; [done|].
  assert (strs (pr_r s2) !! RequestActiveTokenKey id = Some token /\
    pr_expiry s2 !! RequestActiveTokenKey id = Some (t1 + Z.max 1 (Milliseconds activeTTL)) /\
    strs (pr_r s2) !! RequestCancellationKey id = None) as (A1 & A2 & A3).
  { subst s2. unfold SET, set_strs. cbn [pr_r pr_expiry strs]. rewrite !lookup_insert_eq, lookup_insert_ne by done.
    split_and!; [done..|]. apply (purge_none t1 s1). apply lookup_delete_eq. }
  destruct (pipe_markers t1 t2 id token ref payload _ (t1 + Z.max 1 (Milliseconds payloadTTL)) s2 A1 A2 A3) as (B1 & B0 & B2 & B3);
    [lia..|done|]. change (if decide (ref = "") then s2 else _) with s3 in B0, B1, B2, B3. rewrite <- Hr in B1, B2, B3.
  split; [|exact B1| |exact B2|].
  - unfold ZADD, queue_at at 1. simpl. rewrite lookup_insert_eq. simpl. by rewrite lookup_insert_eq.
  - cbn [pr_expiry ZADD]. by rewrite He.
  - intros k v e Hk. case_decide; [done|]. injection Hk as <- <- <-. destruct B3 as [B3 B4]; [done|]. split; [done|].
    cbn [pr_expiry ZADD]. rewrite He; [done|]. by destruct Href as [->| ->].
Qed.

Lemma envelope_view pk r v : request_ok r -> request_view r = Some v ->
  exists v', request_view (canon_request (in_envelope pk r)) = Some v' /\ rm_ID v' = rm_ID v /\ rm_Deadline v' = rm_Deadline v.
Proof.
  destruct r as [[m|]|[[m q res]|]|[[m i res]|]|v0]; simpl; try done; intros _ [= <-]; destruct pk; eexists; split; done.
Qed.

Lemma set_seq_token n rt : rt_RequestToken (set_seq n rt) = rt_RequestToken rt /\ rt_EnqueueSeq (set_seq n rt) = n.
Proof. by destruct rt. Qed.

(** The request the dispatcher reads back. *)
Definition read_back (p : RedisSortedSetProducer) (n : Z) (rt : InternalRouting) (r : Request) : InternalRequest :=
  mkInternalRequest (set_seq n rt) (Some (canon_request (in_envelope (rp_payloadKeys p) r))) 0.

Lemma read_back_score p n rt r v : request_ok r -> request_view r = Some v -> 0 <= n ->
  QueueScore (read_back p n rt r) = Some (lua_score (rm_Deadline v) n).
Proof.
  intros Hr Hv Hn. destruct (envelope_view (rp_payloadKeys p) r v Hr Hv) as (v' & Hv' & _ & Hd).
  unfold QueueScore, read_back. cbn [ir_Public ir_Routing]. rewrite Hv'. simpl. destruct (set_seq_token n rt) as [_ ->].
  by rewrite Hd, lua_score_eq.
Qed.

Section submission.
Context (p : RedisSortedSetProducer) (now : Z) (token : string) (t1 t2 : Z) (req r : Request) (v : RequestMessage).

Definition submit_ref : string := if rp_payloadKeys p then RequestPayloadKey (rm_ID v) token else "".
Definition submit_rt : InternalRouting := submit_routing p token submit_ref (ir_Routing (toInternalRequest req)).
Definition submit_ttl : Z := rm_Deadline v * Second - now.
(** The payload stored under its own key, and how long: ten minutes longer
    than the request's deadline. *)
Definition active_until : Z := t1 + Z.max 1 (Milliseconds submit_ttl).
Definition beside_until : Z := t1 + Z.max 1 (Milliseconds (submit_ttl + payloadTTLGrace)).
Definition beside : option (string * string * Z) :=
  if rp_payloadKeys p then Some (submit_ref, raw_bytes (rm_Payload v), beside_until) else None.

(** A request the producer accepts. *)
Record submittable : Prop := {
  su_public : ir_Public (toInternalRequest req) = Some r;
  su_view : request_view r = Some v;
  su_request : request_ok r;
  su_id : rm_ID v <> "";
  su_payload : payload_valid (rm_Payload v) = true;
  su_due : due_in (rm_Deadline v) now;
  su_routing : routing_ok submit_rt;
  su_calls : rp_clusterKeys p = true -> t2 < t1 + Milliseconds (rm_Deadline v * Second - now)
}.

(** The calls such a request makes. *)
Definition submit_calls (before after payload : string) : PM unit :=
  let queue := rt_RequestQueueName submit_rt in
  if rp_clusterKeys p
  then enqueueCluster t1 t2 (rm_ID v) token queue (rm_Deadline v) submit_ttl (rm_Deadline v + enqueueSeqGrace) before after
         submit_ref payload (submit_ttl + payloadTTLGrace)
  else do> p_call t1 (submitRequestScript t1 (enqueueSeqKey queue (rm_Deadline v) false)
             (RequestCancellationKey (rm_ID v)) (RequestActiveTokenKey (rm_ID v)) queue
             (if decide (submit_ref = "") then None else Some (submit_ref, payload, Milliseconds (submit_ttl + payloadTTLGrace)))
             token (Z.max (Milliseconds submit_ttl) 1) (rm_Deadline v + enqueueSeqGrace) before after (rm_Deadline v));
       f_ret tt.

Lemma SubmitRequest_calls : submittable ->
  exists before after payload,
    SubmitRequest p now (Some token) t1 t2 (Some req) = submit_calls before after payload /\
    beside = (if decide (submit_ref = "") then None else Some (submit_ref, payload, beside_until)) /\
    forall n, 1 <= n < 2 ^ 63 -> unmarshal (lua_member before n after) = Some (read_back p n submit_rt r).
Proof.
  intros [Hpub Hview Hreq Hid Hpv Hdue Hrt Hcalls]. assert (rt_EnqueueSeq submit_rt = -1) as Hseq by done.
  destruct (submission_decodes p submit_rt r Hreq Hrt Hseq) as (envelope & payload & before & after & He & Hs & Hpl & Hun).
  exists before, after, (default "" payload). split_and!; [| |exact Hun].
  - pose proof (untilUnix_due _ _ Hdue) as Hu. pose proof Hdue as [Hnow Hd]. unfold submit_calls, submit_ttl, Second in *.
    unfold SubmitRequest. rewrite Hpub. cbn [mbind option_bind]. rewrite Hview. cbn [fmap option_fmap option_map].
    rewrite decide_False by done. destruct (rm_Deadline v <=? 0) eqn:E1; [lia|]. rewrite Hu.
    destruct (rm_Deadline v * 1000000000 - now <=? 0) eqn:E2; [lia|]. rewrite Hpv. cbn [negb].
    fold submit_ref. fold submit_rt. rewrite He, Hs. cbv zeta.
    rewrite !wrap64_id by (unfold enqueueSeqGrace, payloadTTLGrace, Minute, Second; lia). done.
  - unfold beside, submit_ref. destruct (rp_payloadKeys p) eqn:Epk; [|done]. rewrite decide_False by done.
    rewrite Hpl by done. by rewrite Hview.
Qed.

Lemma ms_le a b : 0 <= a -> a <= b -> Milliseconds a <= Milliseconds b.
Proof. intros. unfold Milliseconds, Millisecond. rewrite !Z.quot_div_nonneg by lia. apply Z.div_le_mono; lia. Qed.

(** The state after those calls, all of them answered. *)
Definition enqueued_as (n : Z) (s' : PRedis) : Prop := 1 <= n /\ exists member score,
  submitted s' (rt_RequestQueueName submit_rt) (rm_ID v) token member score active_until beside /\
  unmarshal member = Some (read_back p n submit_rt r) /\ QueueScore (read_back p n submit_rt r) = Some score.
Definition enqueued (s' : PRedis) : Prop := exists n, enqueued_as n s'.

Lemma enqueued_intro s' before after payload n : submittable ->
  beside = (if decide (submit_ref = "") then None else Some (submit_ref, payload, beside_until)) ->
  (forall n, 1 <= n < 2 ^ 63 -> unmarshal (lua_member before n after) = Some (read_back p n submit_rt r)) -> 1 <= n < 10 ^ 14 ->
  submitted s' (rt_RequestQueueName submit_rt) (rm_ID v) token (lua_member before n after) (lua_score (rm_Deadline v) n)
    active_until (if decide (submit_ref = "") then None else Some (submit_ref, payload, beside_until)) -> enqueued_as n s'.
Proof.
  intros Hsu Hb Hun Hn Hs. split; [lia|]. exists (lua_member before n after), (lua_score (rm_Deadline v) n). rewrite Hb.
  split_and!; [done|apply Hun; lia|]. apply read_back_score; [apply Hsu|apply Hsu|lia].
Qed.

Lemma submit_bounds : submittable ->
  rm_Deadline v + enqueueSeqGrace <= 2 ^ 63 / 1000 /\ 0 < submit_ttl /\ 0 < submit_ttl + payloadTTLGrace /\
  0 < Milliseconds (submit_ttl + payloadTTLGrace).
Proof.
  intros Hsu. destruct (su_due Hsu) as [Hnow Hd]. unfold submit_ttl. assert (0 < payloadTTLGrace) by done.
  change (2 ^ 63 / 1000) with 9223372036854775. unfold enqueueSeqGrace, Second in *. split_and!; [lia..|].
  apply Z.lt_le_trans with (Milliseconds payloadTTLGrace); [done|]. apply ms_le; lia.
Qed.

Lemma submit_ref_cases : submit_ref = "" \/ submit_ref = RequestPayloadKey (rm_ID v) token.
Proof. unfold submit_ref. destruct (rp_payloadKeys p); auto. Qed.

(** The script that took the number [n]. *)
Definition ran (n : Z) (s s' : PRedis) : Prop := exists before after payload,
  let queue := rt_RequestQueueName submit_rt in
  if rp_clusterKeys p
  then enqueueRequestScript t2 (enqueueSeqKey queue (rm_Deadline v) true) queue (rm_Deadline v + enqueueSeqGrace) before after
         (rm_Deadline v) (purge t2 (after_pipe t1 (rm_ID v) token submit_ttl submit_ref payload (submit_ttl + payloadTTLGrace) s)) = (s', Some n)
  else submitRequestScript t1 (enqueueSeqKey queue (rm_Deadline v) false)
         (RequestCancellationKey (rm_ID v)) (RequestActiveTokenKey (rm_ID v)) queue
         (if decide (submit_ref = "") then None else Some (submit_ref, payload, Milliseconds (submit_ttl + payloadTTLGrace)))
         token (Z.max (Milliseconds submit_ttl) 1) (rm_Deadline v + enqueueSeqGrace) before after (rm_Deadline v) (purge t1 s) = (s', Some n).

Lemma SubmitRequest_effect s : submittable -> counters_good s ->
  exists n s', SubmitRequest p now (Some token) t1 t2 (Some req) (s, []) = (Ok tt, (s', [])) /\ enqueued_as n s' /\ ran n s s'.
Proof.
  intros Hsu Hc. destruct (SubmitRequest_calls Hsu) as (b & a & pl & -> & Hb & Hun).
  destruct (submit_bounds Hsu) as (B1 & B2 & B3 & B4). pose proof submit_ref_cases as Href. unfold submit_calls.
  destruct (rp_clusterKeys p) eqn:Ecl.
  - destruct (cluster_submits t1 t2 (rm_ID v) token (rt_RequestQueueName submit_rt) (rm_Deadline v) submit_ttl
      (rm_Deadline v + enqueueSeqGrace) b a submit_ref pl (submit_ttl + payloadTTLGrace) s)
      as (s' & n & Hrun & Hn & Hsc & Hsub); [done..|by apply Hsu| |done|].
    + eapply Z.lt_le_trans; [by apply Hsu|]. apply Zplus_le_compat_l. fold submit_ttl.
      apply ms_le; [lia|]. unfold payloadTTLGrace, Minute, Second. lia.
    + exists n, s'. split; [done|]. split; [by eapply enqueued_intro|]. exists b, a, pl. by rewrite Ecl.
  - destruct (script_submits t1 (rm_ID v) token (rt_RequestQueueName submit_rt)
      (if decide (submit_ref = "") then None else Some (submit_ref, pl, Milliseconds (submit_ttl + payloadTTLGrace)))
      (Z.max (Milliseconds submit_ttl) 1) (rm_Deadline v + enqueueSeqGrace) b a (rm_Deadline v) s false)
      as (s' & Hrun & Hsub); [done|lia| |].
    + intros key v' px Hk. case_decide; [done|]. injection Hk as <- <- <-. split; [done|]. by destruct Href.
    + pose proof (counter_next _ (enqueueSeqKey (rt_RequestQueueName submit_rt) (rm_Deadline v) false) (purge_counters t1 s Hc)) as Hn.
      eexists _, s'. unfold f_bind. rewrite p_call_run, Hrun. split; [done|]. split.
      * eapply enqueued_intro; [done|done|done|exact Hn|]. revert Hsub. unfold active_until. rewrite Z.max_comm.
        case_decide; cbn [fmap option_fmap option_map fst snd]; [done|]. unfold beside_until. by rewrite (Z.max_r 1 (Milliseconds (submit_ttl + _))) by lia.
      * exists b, a, pl. by rewrite Ecl.
Qed.
End submission.

(** A submission that gets through is what the dispatcher reads: the queue
    it names holds a member that decodes to the request, with its generation
    token, its queues and its sequence number written in, under the very score
    the dispatcher computes for it; the payload, compacted, is in it or, raw,
    under the key it names; the generation is the active one until
    its deadline, the payload key lives ten minutes longer, and no cancellation
    of an earlier generation is left. In standalone and in cluster mode. *)
Theorem submit_enqueues p now token t1 t2 req r v s :
  submittable p now token t1 t2 req r v -> counters_good s ->
  exists s', SubmitRequest p now (Some token) t1 t2 (Some req) (s, []) = (Ok tt, (s', [])) /\ enqueued p now token t1 req r v s'.
Proof.
  intros Hs Hc. destruct (SubmitRequest_effect p now token t1 t2 req r v s Hs Hc) as (n & s' & H1 & H2 & _).
  exists s'. split; [done|]. by exists n.
Qed.

(** ** What a producer leaves of the queues *)

(** Members are only added; claims are not touched. *)
Definition grows (s s' : PRedis) : Prop :=
  forall q, claimed (queue_at (pr_r s') q) = claimed (queue_at (pr_r s) q) /\
    owners (queue_at (pr_r s') q) = owners (queue_at (pr_r s) q) /\ idx (queue_at (pr_r s') q) = idx (queue_at (pr_r s) q) /\
    forall m, is_Some (pending (queue_at (pr_r s) q) !! m) -> is_Some (pending (queue_at (pr_r s') q) !! m).

#[local] Instance grows_refl : Reflexive grows.
Proof. intros s q. by split_and!. Qed.
#[local] Instance grows_trans : Transitive grows.
Proof.
  intros s1 s2 s3 H1 H2 q. destruct (H1 q) as (A1 & A2 & A3 & A4). destruct (H2 q) as (B1 & B2 & B3 & B4).
  split_and!; [congruence..|auto].
Qed.

Lemma grows_same s s' : queues (pr_r s') = queues (pr_r s) -> grows s s'.
Proof. intros H q. unfold queue_at. rewrite H. by split_and!. Qed.

Lemma grows_ZADD q score m s : grows s (ZADD q score m s).
Proof.
  intros q'. unfold ZADD, queue_at. simpl. destruct (decide (q = q')) as [->|].
  - rewrite lookup_insert_eq. simpl. split_and!; [done..|]. intros m' Hm. destruct (decide (m = m')) as [->|].
    + rewrite lookup_insert_eq. eauto.
    + by rewrite lookup_insert_ne.
  - by rewrite lookup_insert_ne.
Qed.

(** A script relates the states by [R] when its commands do. *)
Lemma sc_try_keeps (R : PRedis -> PRedis -> Prop) `{!Reflexive R} (f : PRedis -> option PRedis) s :
  (forall s', f s = Some s' -> R s s') -> R s (sc_try f s).1.
Proof. intros H. unfold sc_try. destruct (f s); [by apply H|reflexivity]. Qed.

Lemma sc_bind_keeps {A B : Type} (R : PRedis -> PRedis -> Prop) `{!Transitive R} (m : script A) (k : A -> script B) s :
  R s (m s).1 -> (forall a s', R s' (k a s').1) -> R s (sc_bind m k s).1.
Proof. unfold sc_bind. destruct (m s) as [s' [a|]]; simpl; intros H1 H2; [|done]. by etransitivity; [|apply H2]. Qed.

(** Down to the commands. *)
Ltac commands :=
  match goal with
  | |- ?R _ (sc_bind _ _ _).1 => apply (sc_bind_keeps R); [commands|intros ? ?; commands]
  | |- ?R _ (sc_try _ _).1 => apply (sc_try_keeps R); intros ? ?
  | |- _ _ (sc_ret _ _).1 => reflexivity
  | |- ?R _ _ => unfold sc_do, sc_upd; cbn [fst]
  end.

Lemma EXPIREAT_grows key sec t s s' : EXPIREAT key sec t s = Some s' -> grows s s'.
Proof. unfold EXPIREAT. repeat case_match; intros [= <-]; by apply grows_same. Qed.
Lemma SET_PX_grows key v ms t s s' : SET_PX key v ms t s = Some s' -> grows s s'.
Proof. unfold SET_PX. case_match; intros [= <-]. by apply grows_same. Qed.

Lemma submit_grows t k1 k2 k3 q pl tok px e b a d s : grows s (submitRequestScript t k1 k2 k3 q pl tok px e b a d s).1.
Proof.
  unfold submitRequestScript. destruct pl as [[[k v] px']|]; commands;
    eauto using EXPIREAT_grows, SET_PX_grows, grows_ZADD; by apply grows_same.
Qed.

Lemma enqueue_grows t k q e b a d s : grows s (enqueueRequestScript t k q e b a d s).1.
Proof. unfold enqueueRequestScript. commands; eauto using EXPIREAT_grows, grows_ZADD; by apply grows_same. Qed.

(** A program of the producer, whatever fails: [R] relates the states before
    and after. *)
Section relations.
Context (R : PRedis -> PRedis -> Prop) `{!Reflexive R, !Transitive R}.

Definition p_keeps {A : Type} (m : PM A) : Prop := forall s fs, R s (m (s, fs)).2.1.

Lemma kp_ret {A : Type} (a : A) : p_keeps (f_ret a).
Proof. intros s fs. simpl. reflexivity. Qed.
Lemma kp_fail {A : Type} e : p_keeps (f_fail e : PM A).
Proof. intros s fs. simpl. reflexivity. Qed.
Lemma kp_bind {A B : Type} (m : PM A) (k : A -> PM B) : p_keeps m -> (forall a, p_keeps (k a)) -> p_keeps (f_bind m k).
Proof.
  intros Hm Hk s fs. unfold f_bind. specialize (Hm s fs). destruct (m (s, fs)) as [[a|e] [s' fs']]; simpl in *; [|done].
  by etransitivity; [|apply Hk].
Qed.
Lemma kp_try {A : Type} (m : PM A) : p_keeps m -> p_keeps (f_try m).
Proof. intros Hm s fs. unfold f_try. specialize (Hm s fs). by destruct (m (s, fs)) as [r [s' fs']]. Qed.
Lemma kp_call {A : Type} t (sc : script A) : (forall s, R s (sc (purge t s)).1) -> p_keeps (p_call t sc).
Proof. intros Hs s fs. rewrite p_call_any. specialize (Hs s). destruct (head fs) as [[]|]; simpl; done || reflexivity. Qed.
Lemma kp_pipe cmds : Forall p_keeps cmds -> p_keeps (p_pipe cmds).
Proof.
  induction 1 as [|c cmds Hc Hcs IH]; simpl; [apply kp_ret|]. apply kp_bind; [by apply kp_try|].
  intros r. apply kp_bind; [by apply kp_try|]. intros r'. destruct r, r'; auto using kp_ret, kp_fail.
Qed.
End relations.

(** The calls of a submission, with whatever times. *)
Definition calls_of (p : RedisSortedSetProducer) (t1 t2 : Z) (id token queue : string) (deadline act : Z) (b a ref payload : string) : PM unit :=
  if rp_clusterKeys p
  then enqueueCluster t1 t2 id token queue deadline act (wrap64 (deadline + enqueueSeqGrace)) b a ref payload (wrap64 (act + payloadTTLGrace))
  else do> p_call t1 (submitRequestScript t1 (enqueueSeqKey queue deadline false) (RequestCancellationKey id)
             (RequestActiveTokenKey id) queue
             (if decide (ref = "") then None else Some (ref, payload, Milliseconds (wrap64 (act + payloadTTLGrace))))
             token (Z.max (Milliseconds act) 1) (wrap64 (deadline + enqueueSeqGrace)) b a deadline);
       f_ret tt.

Definition req_id (req : option Request) : string := from_option rm_ID "" (req ≫= (fun q => ir_view (toInternalRequest q))).
Definition req_deadline (req : option Request) : Z := from_option rm_Deadline 0 (req ≫= (fun q => ir_view (toInternalRequest q))).

Lemma SubmitRequest_cases p now tok t1 t2 req :
  (exists e, SubmitRequest p now tok t1 t2 req = f_fail e) \/
  exists token queue act b a ref payload, tok = Some token /\ (ref = "" \/ ref = RequestPayloadKey (req_id req) token) /\
    SubmitRequest p now tok t1 t2 req = calls_of p t1 t2 (req_id req) token queue (req_deadline req) act b a ref payload.
Proof.
  unfold SubmitRequest, req_id, req_deadline, ir_view. destruct req as [req|]; [|left; eauto].
  destruct (ir_Public (toInternalRequest req)) as [r|] eqn:Er; simpl; [|left; eauto]. rewrite ?Er. simpl.
  destruct (request_view r) as [v|] eqn:Ev; simpl; [|left; eauto]. case_decide; [left; eauto|].
  destruct (rm_Deadline v <=? 0); [left; eauto|]. destruct (untilUnix (rm_Deadline v) now <=? 0); [left; eauto|].
  destruct tok as [token|]; [|left; eauto]. destruct (negb (payload_valid (rm_Payload v))); [left; eauto|].
  destruct (encode_submission p _) as [[envelope pl]|] eqn:E1; [|left; eauto].
  destruct (split_envelope envelope) as [[b a]|]; [|left; eauto]. right.
  eexists token, _, _, b, a, _, _. split_and!; [done| |unfold calls_of; reflexivity].
  destruct (rp_payloadKeys p); auto.
Qed.

(** Every call relates the states: so does a submission. *)
Lemma SubmitRequest_keeps (R : PRedis -> PRedis -> Prop) `{!Reflexive R, !Transitive R} p now tok t1 t2 req :
  (forall token queue act b a ref payload, tok = Some token -> ref = "" \/ ref = RequestPayloadKey (req_id req) token ->
     p_keeps R (calls_of p t1 t2 (req_id req) token queue (req_deadline req) act b a ref payload)) ->
  p_keeps R (SubmitRequest p now tok t1 t2 req).
Proof.
  intros H. destruct (SubmitRequest_cases p now tok t1 t2 req) as [[e ->]|(token & q & act & b & a & ref & pl & Ht & Hr & ->)];
    [by apply kp_fail|by apply H].
Qed.

Lemma enqueueCluster_keeps (R : PRedis -> PRedis -> Prop) `{!Reflexive R, !Transitive R} t1 t2 id tok q d act e b a ref pl ttl :
  (forall s, R s (DEL (RequestCancellationKey id) (purge t1 s))) ->
  (forall key v o s, (key = RequestActiveTokenKey id /\ v = tok) \/ (key = ref /\ ref <> "") -> R s (SET key v o (purge t1 s))) ->
  (forall s, R s (enqueueRequestScript t2 (enqueueSeqKey q d true) q e b a d (purge t2 s)).1) ->
  p_keeps R (enqueueCluster t1 t2 id tok q d act e b a ref pl ttl).
Proof.
  intros H1 H2 H3. unfold enqueueCluster. apply kp_bind; [done| |intros _; apply kp_bind; [done|by apply kp_call|intros _; by apply kp_ret]].
  assert (p_keeps R (p_call t1 (sc_upd (DEL (RequestCancellationKey id))))) by by apply kp_call.
  assert (forall key v o, (key = RequestActiveTokenKey id /\ v = tok) \/ (key = ref /\ ref <> "") -> p_keeps R (client_Set t1 key v o)).
  { intros key v o Hk. apply kp_call; [done|]. intros s. by apply H2. }
  apply kp_pipe; [done..|]. case_decide; cbn [app]; repeat apply Forall_cons_2; auto.
Qed.

Lemma purge_grows t s : grows s (purge t s).
Proof. by apply grows_same. Qed.

Lemma SubmitRequest_grows p now tok t1 t2 req : p_keeps grows (SubmitRequest p now tok t1 t2 req).
Proof.
  apply SubmitRequest_keeps; [apply _..|]. intros token queue act b a ref payload _ _. unfold calls_of. destruct (rp_clusterKeys p).
  - apply enqueueCluster_keeps; [apply _..| | |]; [intros s; by apply grows_same|intros; by apply grows_same|].
    intros s. by etransitivity; [apply (purge_grows t2)|apply enqueue_grows].
  - apply kp_bind; [apply _| |intros _; apply kp_ret; apply _]. apply kp_call; [apply _|].
    intros s. by etransitivity; [apply (purge_grows t1)|apply submit_grows].
Qed.

Lemma CancelRequests_keeps (R : PRedis -> PRedis -> Prop) `{!Reflexive R, !Transitive R} ts ids :
  (forall t s, R s (purge t s)) -> (forall t id v o s, R s (SET (RequestCancellationKey id) v o (purge t s))) ->
  p_keeps R (CancelRequests ts ids).
Proof.
  intros Hp Hs. revert ts. induction ids as [|id ids IH]; intros ts; cbn [CancelRequests]; [by apply kp_ret|].
  case_decide; [done|]. apply kp_bind; [done|apply kp_call; [done|intros s; apply Hp]|]. intros [tok|]; [|done].
  apply kp_bind; [done| |done]. apply kp_call; [done|]. intros s. apply Hs.
Qed.

Lemma CancelRequests_grows ts ids : p_keeps grows (CancelRequests ts ids).
Proof. apply CancelRequests_keeps; [apply _..| |]; intros; by apply grows_same. Qed.

(** ** Faults *)

(** A program that reports no error met no fault. *)
Definition faultless {A : Type} (m : PM A) : Prop := forall s fs a s' fs',
  m (s, fs) = (Ok a, (s', fs')) -> m (s, []) = (Ok a, (s', [])).

Lemma fl_ret {A : Type} (a : A) : faultless (f_ret a).
Proof. by intros s fs a' s' fs' [= <- <- <-]. Qed.
Lemma fl_bind {A B : Type} (m : PM A) (k : A -> PM B) : faultless m -> (forall a, faultless (k a)) -> faultless (f_bind m k).
Proof.
  intros Hm Hk s fs b s' fs'. unfold f_bind. destruct (m (s, fs)) as [[a|e] [s1 fs1]] eqn:E; [|done].
  apply Hm in E. rewrite E. apply Hk.
Qed.
Lemma fl_call {A : Type} t (sc : script A) : faultless (p_call t sc).
Proof.
  intros s fs a s' fs'. rewrite p_call_any, p_call_run. destruct (sc (purge t s)) as [s1 o] eqn:E.
  destruct (head fs) as [[]|]; simpl; try done; destruct o; by intros [= <- <- _].
Qed.
Lemma fl_pipe cmds : Forall faultless cmds -> faultless (p_pipe cmds).
Proof.
  induction 1 as [|c cmds Hc _ IH]; [apply fl_ret|]. intros s fs [] s' fs'. cbn [p_pipe]. unfold f_bind, f_try.
  destruct (c (s, fs)) as [[[]|e] [s1 fs1]] eqn:E; [|destruct (p_pipe cmds (s1, fs1)) as [[|] [s2 fs2]]; done].
  apply Hc in E. rewrite E. destruct (p_pipe cmds (s1, fs1)) as [[[]|e] [s2 fs2]] eqn:E2; [|done].
  apply IH in E2. rewrite E2. by intros [= <- <-].
Qed.

(** A program that leaves the queues alone. *)
Definition aside {A : Type} (m : PM A) : Prop := forall s fs, queues (pr_r (m (s, fs)).2.1) = queues (pr_r s).
Lemma aside_call {A : Type} t (sc : script A) : (forall s, queues (pr_r (sc s).1) = queues (pr_r s)) -> aside (p_call t sc).
Proof. intros H s fs. rewrite p_call_any. specialize (H (purge t s)). by destruct (head fs) as [[]|]. Qed.
Lemma aside_pipe cmds : Forall aside cmds -> aside (p_pipe cmds).
Proof.
  induction 1 as [|c cmds Hc _ IH]; [done|]. intros s fs. cbn [p_pipe]. unfold f_bind, f_try. specialize (Hc s fs).
  destruct (c (s, fs)) as [r [s1 fs1]]. specialize (IH s1 fs1). destruct (p_pipe cmds (s1, fs1)) as [r' [s2 fs2]]. simpl in *.
  destruct r, r'; simpl; congruence.
Qed.

Lemma pipe_cmds t1 id token activeTTL ref payload payloadTTL :
  let cmds := [p_call t1 (sc_upd (DEL (RequestCancellationKey id))); client_Set t1 (RequestActiveTokenKey id) token activeTTL] ++
    (if decide (ref = "") then [] else [client_Set t1 ref payload payloadTTL]) in
  Forall faultless cmds /\ Forall aside cmds.
Proof.
  assert (forall key v d, aside (client_Set t1 key v d)) as Hs by (intros key v d; by apply aside_call).
  assert (aside (p_call t1 (sc_upd (DEL (RequestCancellationKey id))))) by by apply aside_call.
  assert (forall key v d, faultless (client_Set t1 key v d)) as Hf by (intros key v d; apply fl_call).
  split; case_decide; cbn [app]; repeat apply Forall_cons_2; auto using fl_call.
Qed.

(** C17. The submission of a request the producer takes ([submittable]: it has an
    id, its texts are valid UTF-8 and its payload is JSON, its deadline is ahead and
    below 2^32 Unix seconds, and in cluster mode the second call is made before it;
    with queue counters below 10^14) is all or nothing in its queue: whichever calls
    are lost, before or after they take effect, either the request is enqueued as
    [submit_enqueues] says (the caller may still see an error, when only the
    reply was lost), or the caller sees an error and no queue changed; in
    standalone mode nothing changed at all.  For deadlines more than 292 years
    away it is not so: [far_deadline_orphans]. *)
Theorem submit_all_or_nothing p now token t1 t2 req r v s fs res s' fs' :
  submittable p now token t1 t2 req r v -> counters_good s ->
  SubmitRequest p now (Some token) t1 t2 (Some req) (s, fs) = (res, (s', fs')) ->
  enqueued p now token t1 req r v s' \/
  (res <> Ok tt /\ queues (pr_r s') = queues (pr_r s) /\ (rp_clusterKeys p = false -> s' = s)).
Proof.
  intros Hsu Hc Hrun. destruct (SubmitRequest_effect p now token t1 t2 req r v s Hsu Hc) as (num & s1 & H1 & He & _).
  destruct (SubmitRequest_calls p now token t1 t2 req r v Hsu) as (b & a & pl & Heq & _ & _). rewrite Heq in *. clear Heq.
  unfold submit_calls in *. destruct (rp_clusterKeys p).
  - unfold enqueueCluster in *. set (cmds := [_; _] ++ _) in *.
    destruct (pipe_cmds t1 (rm_ID v) token (submit_ttl now v) (submit_ref p token v) pl (submit_ttl now v + payloadTTLGrace)) as [Hf Ha].
    fold cmds in Hf, Ha. unfold f_bind at 1 in Hrun. unfold f_bind at 1 in H1.
    pose proof (aside_pipe cmds Ha s fs) as Hq. destruct (p_pipe cmds (s, fs)) as [[[]|e] [s2 fs2]] eqn:E.
    2: { injection Hrun as <- <- <-. by right. }
    apply (fl_pipe cmds Hf) in E. rewrite E in H1. simpl in Hq. unfold f_bind in *. rewrite p_call_any in Hrun. rewrite p_call_run in H1.
    destruct (enqueueRequestScript _ _ _ _ _ _ _ _) as [s3 [n|]] eqn:Es; [|done]. injection H1 as ->.
    destruct (head fs2) as [[]|]; injection Hrun as <- <- <-; first [left; by exists num|by right].
  - unfold f_bind in *. rewrite p_call_any in Hrun. rewrite p_call_run in H1.
    destruct (submitRequestScript _ _ _ _ _ _ _ _ _ _ _ _ _) as [s3 [n|]] eqn:Es; [|done]. injection H1 as ->.
    destruct (head fs) as [[]|]; injection Hrun as <- <- <-; first [left; by exists num|by right].
Qed.

(** ** Cancellations and generations *)
Definition marker (s : PRedis) (id : string) : option string := strs (pr_r s) !! RequestCancellationKey id.
Definition active (s : PRedis) (id : string) : option string := strs (pr_r s) !! RequestActiveTokenKey id.

(** No marker is set and the only generation made active is [token] of [id]. *)
Definition activates (id token : string) (s s' : PRedis) : Prop := forall id',
  (marker s' id' = marker s id' \/ marker s' id' = None) /\
  (active s' id' = active s id' \/ active s' id' = None \/ (id' = id /\ active s' id' = Some token)).

#[local] Instance activates_refl id token : Reflexive (activates id token).
Proof. intros s id'. auto. Qed.
#[local] Instance activates_trans id token : Transitive (activates id token).
Proof.
  intros s1 s2 s3 H1 H2 id'. destruct (H1 id') as [A1 A2]. destruct (H2 id') as [B1 B2].
  split; [destruct B1 as [->|]; auto|]. destruct B2 as [->|[|]]; auto.
Qed.

Lemma activates_same id token s s' : strs (pr_r s') = strs (pr_r s) -> activates id token s s'.
Proof. intros H id'. unfold marker, active. rewrite H. auto. Qed.
Lemma activates_purge id token t s : activates id token s (purge t s).
Proof. intros id'. unfold marker, active. rewrite !purge_strs. split; destruct (dead _ _ _); auto. Qed.
Lemma activates_DEL id token id' s : activates id token s (DEL (RequestCancellationKey id') s).
Proof.
  intros id0. unfold marker, active. simpl. split.
  - destruct (decide (id' = id0)) as [->|]; [right; apply lookup_delete_eq|left].
    apply lookup_delete_ne. by intros [= ?].
  - left. apply lookup_delete_ne. by intros [=].
Qed.
Lemma activates_SET id token key v o s :
  (key = RequestActiveTokenKey id /\ v = token) \/ (exists i t, key = RequestPayloadKey i t) -> activates id token s (SET key v o s).
Proof.
  intros [[-> ->]|(i & t & ->)] id'; unfold marker, active; simpl.
  - split; [left; apply lookup_insert_ne; by intros [=]|]. destruct (decide (id = id')) as [->|].
    + right. right. split; [done|]. apply lookup_insert_eq.
    + left. apply lookup_insert_ne. by intros [= ?].
  - split; left; apply lookup_insert_ne; by intros [=].
Qed.
Lemma activates_EXPIREAT id token key sec t s s' : EXPIREAT key sec t s = Some s' -> activates id token s s'.
Proof. unfold EXPIREAT. repeat case_match; intros [= <-]; by apply activates_same. Qed.
Lemma activates_SET_PX id token key v ms t s s' :
  (key = RequestActiveTokenKey id /\ v = token) \/ (exists i t, key = RequestPayloadKey i t) ->
  SET_PX key v ms t s = Some s' -> activates id token s s'.
Proof. intros Hk. unfold SET_PX. case_match; intros [= <-]. by apply activates_SET. Qed.

Lemma SubmitRequest_activates p now token t1 t2 req :
  p_keeps (activates (req_id req) token) (SubmitRequest p now (Some token) t1 t2 req).
Proof.
  apply SubmitRequest_keeps; [apply _..|]. intros tok queue act b a ref payload [= <-] Href.
  assert (ref <> "" -> exists i t, ref = RequestPayloadKey i t) as Hk by (destruct Href as [->| ->]; eauto; by intros []).
  unfold calls_of. destruct (rp_clusterKeys p).
  - apply enqueueCluster_keeps; [apply _..| | |].
    + intros s. by etransitivity; [apply (activates_purge _ _ t1)|apply activates_DEL].
    + intros key v o s Hkey. etransitivity; [apply (activates_purge _ _ t1)|]. apply activates_SET.
      destruct Hkey as [?|[-> ?]]; auto.
    + intros s. etransitivity; [apply (activates_purge _ _ t2)|]. unfold enqueueRequestScript.
      commands; eauto using activates_EXPIREAT; by apply activates_same.
  - apply kp_bind; [apply _| |intros _; apply kp_ret; apply _]. apply kp_call; [apply _|].
    intros s. etransitivity; [apply (activates_purge _ _ t1)|]. unfold submitRequestScript.
    case_decide; commands; eauto using activates_EXPIREAT, activates_DEL, activates_SET_PX; by apply activates_same.
Qed.

(** *** Interleaved submissions and cancellations

    CancelRequests reads a request's active generation with one command and
    writes the marker with another; anything may come in between.  The state
    carries what cancellations have read.  Dispatchers and the server only
    remove markers. *)
Inductive c_event : Type :=
| ESubmit (id token : string)
| ERead (id token : string).

Definition forgets (s s' : PRedis) : Prop := forall id,
  (marker s' id = marker s id \/ marker s' id = None) /\ (active s' id = active s id \/ active s' id = None).

Inductive c_step : PRedis * list (string * string) -> list c_event -> PRedis * list (string * string) -> Prop :=
| c_submit p now token t1 t2 req s fs reads :
    c_step (s, reads) [ESubmit (req_id req) token] ((SubmitRequest p now (Some token) t1 t2 req (s, fs)).2.1, reads)
| c_read t id s fs reads tok st' :
    cancel_read t id (s, fs) = (Ok (Some tok), st') -> c_step (s, reads) [ERead id tok] (st'.1, (id, tok) :: reads)
| c_write t id tok s fs reads :
    (id, tok) ∈ reads -> c_step (s, reads) [] ((cancel_write t id tok (s, fs)).2.1, reads)
| c_forget s s' reads : forgets s s' -> c_step (s, reads) [] (s', reads).

Inductive c_steps (st : PRedis * list (string * string)) : list c_event -> PRedis * list (string * string) -> Prop :=
| c_nil : c_steps st [] st
| c_snoc evs st1 evs' st2 : c_steps st evs st1 -> c_step st1 evs' st2 -> c_steps st (evs ++ evs') st2.

(** A cancellation read the generation after it was submitted. *)
Definition read_after_submit (id token : string) (evs : list c_event) : Prop :=
  exists l1 l2, evs = l1 ++ ERead id token :: l2 /\ ESubmit id token ∈ l1.

Lemma read_after_submit_app id token evs evs' : read_after_submit id token evs -> read_after_submit id token (evs ++ evs').
Proof. intros (l1 & l2 & -> & H). exists l1, (l2 ++ evs'). split; [|done]. by rewrite <- app_assoc. Qed.

Record c_good (s0 : PRedis) (evs : list c_event) (st : PRedis * list (string * string)) : Prop := {
  cg_active id t : active st.1 id = Some t -> active s0 id = Some t \/ ESubmit id t ∈ evs;
  cg_reads id t : (id, t) ∈ st.2 -> active s0 id = Some t \/ read_after_submit id t evs;
  cg_marker id t : marker st.1 id = Some t -> marker s0 id = Some t \/ active s0 id = Some t \/ read_after_submit id t evs
}.

Lemma cancel_write_strs t id tok s fs id' :
  let s' := (cancel_write t id tok (s, fs)).2.1 in
  (active s' id' = active s id' \/ active s' id' = None) /\
  (marker s' id' = marker s id' \/ marker s' id' = None \/ (id' = id /\ marker s' id' = Some tok)).
Proof.
  cbv zeta. unfold cancel_write, client_Set. rewrite p_call_any.
  assert (forall o, let s2 := SET (RequestCancellationKey id) tok o (purge t s) in
    (active s2 id' = active s id' \/ active s2 id' = None) /\
    (marker s2 id' = marker s id' \/ marker s2 id' = None \/ (id' = id /\ marker s2 id' = Some tok))) as Hset.
  { intros o s2. unfold s2, active, marker, SET, set_strs. cbn [pr_r strs]. rewrite lookup_insert_ne by by intros [=].
    fold (active (purge t s) id') (active s id').
    destruct (activates_purge id' "" t s id') as [Hm _]. unfold marker in *.
    assert (active (purge t s) id' = active s id' \/ active (purge t s) id' = None) as Ha.
    { unfold active. rewrite purge_strs. destruct (dead _ _ _); auto. }
    split; [exact Ha|]. destruct (decide (id = id')) as [->|].
    - right. right. split; [done|]. apply lookup_insert_eq.
    - rewrite lookup_insert_ne by by intros [= ?]. destruct Hm; auto. }
  destruct (head fs) as [[]|]; simpl; auto; apply Hset.
Qed.

Lemma c_step_good s0 evs st evs' st' : c_good s0 evs st -> c_step st evs' st' -> c_good s0 (evs ++ evs') st'.
Proof.
  intros [H1 H2 H3] Hstep. destruct Hstep as [p now token t1 t2 req s fs reads|t id s fs reads tok st' Hr|t id tok s fs reads Hin|s s' reads Hf];
    cbn [fst snd] in *.
  - pose proof (SubmitRequest_activates p now token t1 t2 req s fs) as Hact. split.
    + intros id t E. destruct (Hact id) as [_ [Ha|[Ha|[-> Ha]]]]; cbn [fst] in *; rewrite Ha in E.
      * destruct (H1 id t E); [auto|right; apply elem_of_app; auto].
      * done.
      * injection E as <-. right. apply elem_of_app. right. by apply list_elem_of_singleton.
    + intros id t E. destruct (H2 id t E); auto using read_after_submit_app.
    + intros id t E. destruct (Hact id) as [[Hm|Hm] _]; cbn [fst] in *; rewrite Hm in E; [|done].
      destruct (H3 id t E) as [|[|]]; auto using read_after_submit_app.
  - unfold cancel_read in Hr. rewrite p_call_any in Hr.
    assert (st'.1 = purge t s /\ active (purge t s) id = Some tok) as [-> Ha].
    { destruct (head fs) as [[]|]; simpl in Hr; try done; by injection Hr as E <-. }
    assert (active s id = Some tok) as Has.
    { unfold active in *. rewrite purge_strs in Ha. by destruct (dead _ _ _). }
    assert (read_after_submit id tok (evs ++ [ERead id tok]) \/ active s0 id = Some tok) as Hras.
    { destruct (H1 id tok Has); [auto|left]. by exists evs, []. }
    split.
    + intros id' t' E. assert (active s id' = Some t') as E' by (unfold active in *; cbn [fst] in E; rewrite purge_strs in E; by destruct (dead _ _ _)).
      destruct (H1 id' t' E'); [auto|right; apply elem_of_app; auto].
    + intros id' t' [[= -> ->]|Hin]%elem_of_cons; [destruct Hras; auto|]. destruct (H2 id' t' Hin); auto using read_after_submit_app.
    + intros id' t' E. assert (marker s id' = Some t') as E' by (unfold marker in *; cbn [fst] in E; rewrite purge_strs in E; by destruct (dead _ _ _)).
      destruct (H3 id' t' E') as [|[|]]; auto using read_after_submit_app.
  - rewrite app_nil_r. split; [|done|].
    + intros id' t' E. cbn [fst] in E. destruct (cancel_write_strs t id tok s fs id') as [[Ha|Ha] _]; rewrite Ha in E; [by apply H1|done].
    + intros id' t' E. cbn [fst] in E. destruct (cancel_write_strs t id tok s fs id') as [_ [Hm|[Hm|[-> Hm]]]]; rewrite Hm in E; [by apply H3|done|].
      injection E as <-. destruct (H2 id tok Hin); auto.
  - rewrite app_nil_r. split; [|done|]; intros id t E; cbn [fst] in E; destruct (Hf id) as [[Hm|Hm] [Ha|Ha]];
      rewrite ?Hm, ?Ha in E; auto; done.
Qed.

(** C18. A cancellation reaches only the generation it saw: however submissions
    and the two commands of each cancellation interleave, whatever calls are
    lost, a request generation is marked cancelled only if some cancellation
    read it as the active one after it was submitted. So resubmitting an id
    never inherits a cancellation of an earlier generation, one under way
    included. *)
Theorem cancel_hits_generation s0 evs s reads id token :
  c_steps (s0, []) evs (s, reads) -> active s0 id <> Some token -> marker s0 id <> Some token ->
  marker s id = Some token -> read_after_submit id token evs.
Proof.
  intros Hsteps Ha Hm E. assert (c_good s0 evs (s, reads)) as Hg.
  { revert Hsteps. generalize (s, reads). intros st. induction 1 as [|evs1 st1 evs2 st2 _ IH Hs].
    - split; simpl; auto. by intros ? ? ?%not_elem_of_nil.
    - by eapply c_step_good. }
  destruct (cg_marker _ _ _ Hg id token E) as [|[|]]; done.
Qed.

(** The two commands of a cancellation, on a generation that is alive. *)
Lemma cancel_pair t t' id s token e : active s id = Some token -> pr_expiry s !! RequestActiveTokenKey id = Some e -> t < e ->
  cancel_read t id (s, []) = (Ok (Some token), (purge t s, [])) /\
  exists s', cancel_write t' id token (purge t s, []) = (Ok tt, (s', [])) /\ marker s' id = Some token.
Proof.
  intros Ha He Ht. split.
  - unfold cancel_read. rewrite p_call_run. cbn [fst snd]. rewrite purge_strs. unfold dead. rewrite He.
    destruct (Z.leb_spec e t); [lia|]. unfold active in Ha. by rewrite Ha.
  - unfold cancel_write. rewrite client_Set_run by done. eexists. split; [done|]. unfold marker, SET, set_strs. simpl.
    apply lookup_insert_eq.
Qed.

Lemma cancel_marks ts id s token e : id <> "" -> active s id = Some token ->
  pr_expiry s !! RequestActiveTokenKey id = Some e -> ts 0%nat < e ->
  exists s', CancelRequests ts [id] (s, []) = (Ok tt, (s', [])) /\ marker s' id = Some token.
Proof.
  intros Hid Ha He Ht. destruct (cancel_pair (ts 0%nat) (ts 1%nat) id s token e Ha He Ht) as (Hr & s' & Hw & Hm).
  exists s'. split; [|done]. cbn [CancelRequests]. rewrite decide_False by done. unfold f_bind at 1. rewrite Hr.
  unfold f_bind. by rewrite Hw.
Qed.

(** CancelRequests is such steps. *)
Lemma CancelRequests_steps ts ids s0 evs s reads fs :
  c_steps (s0, []) evs (s, reads) ->
  exists evs' reads', c_steps (s0, []) (evs ++ evs') ((CancelRequests ts ids (s, fs)).2.1, reads').
Proof.
  revert ts evs s reads fs. induction ids as [|id ids IH]; intros ts evs s reads fs H; cbn [CancelRequests].
  { exists [], reads. by rewrite app_nil_r. }
  case_decide; [by eapply IH|]. unfold f_bind at 1.
  destruct (cancel_read (ts 0%nat) id (s, fs)) as [r [s1 fs1]] eqn:Er.
  assert (forgets s s1) as Hf.
  { unfold cancel_read in Er. rewrite p_call_any in Er. assert (s1 = s \/ s1 = purge (ts 0%nat) s) as [->| ->].
    - destruct (head fs) as [[]|]; simpl in Er; injection Er as _ <- _; auto.
    - intros id'; auto.
    - intros id'. unfold marker, active. rewrite !purge_strs. split; destruct (dead _ _ _); auto. }
  destruct r as [[tok|]|e].
  - assert (c_steps (s0, []) (evs ++ [ERead id tok]) (s1, (id, tok) :: reads)) as H1.
    { eapply c_snoc; [exact H|]. by apply (c_read _ _ _ _ _ _ (s1, fs1) Er). }
    unfold f_bind. destruct (cancel_write (ts 1%nat) id tok (s1, fs1)) as [r2 [s2 fs2]] eqn:Ew.
    assert (c_steps (s0, []) ((evs ++ [ERead id tok]) ++ []) (s2, (id, tok) :: reads)) as H2.
    { eapply c_snoc; [exact H1|]. replace s2 with (cancel_write (ts 1%nat) id tok (s1, fs1)).2.1 by by rewrite Ew.
      apply c_write, elem_of_cons. by left. }
    rewrite app_nil_r in H2. destruct r2 as [[]|e2]; [|simpl; eauto].
    destruct (IH (fun i => ts (S (S i))) _ _ _ fs2 H2) as (evs' & reads' & H3). rewrite <- app_assoc in H3. eauto.
  - assert (c_steps (s0, []) (evs ++ []) (s1, reads)) as H1 by (eapply c_snoc; [exact H|by apply c_forget]).
    rewrite app_nil_r in H1. by eapply IH.
  - exists [], reads. eapply c_snoc; [exact H|]. by apply c_forget.
Qed.

(** ** Submission order *)
Fixpoint no_colon (s : string) : bool := match s with "" => true | String c s' => negb (Ascii.eqb c ":") && no_colon s' end.

Lemma last_colon a b x y : no_colon x = true -> no_colon y = true -> a +:+ String ":" x = b +:+ String ":" y -> x = y.
Proof.
  assert (forall s t, no_colon (s +:+ String ":" t) = false) as Hno.
  { intros s t. induction s as [|c s IH]; [done|]. rewrite cons_app. cbn [no_colon]. rewrite IH. by rewrite andb_false_r. }
  intros Hx Hy. revert b. induction a as [|c a IH]; intros [|c' b]; rewrite ?nil_app, ?cons_app.
  - by intros [= ->].
  - intros [= _ ->]. by rewrite Hno in Hx.
  - intros [= _ <-]. by rewrite Hno in Hy.
  - intros [= _ E]. by eapply IH.
Qed.

Lemma digits_no_colon s : all_digits s = true -> no_colon s = true.
Proof.
  induction s as [|c s IH]; [done|]. cbn [all_digits no_colon]. intros [Hc Hs]%andb_prop. rewrite IH by done.
  by destruct (Ascii.eqb_spec c ":") as [->|].
Qed.

Lemma itoa_no_colon n : int64 n -> no_colon (itoa n) = true.
Proof.
  unfold int64, itoa. intros Hn. destruct (n <? 0) eqn:E.
  - destruct (dec_20 (- n)) as (c & s & -> & H1 & H2 & _); [lia|]. cbn [no_colon]. apply (digits_no_colon (String c s)).
    simpl. by rewrite H1.
  - destruct (dec_20 n) as (c & s & -> & H1 & H2 & _); [lia|]. apply digits_no_colon. simpl. by rewrite H1.
Qed.

(** The counter's key names the deadline. *)
Lemma seq_key_deadline q d c q' d' c' : int64 d -> int64 d' -> enqueueSeqKey q d c = enqueueSeqKey q' d' c' -> d = d'.
Proof.
  intros Hd Hd' E. unfold enqueueSeqKey in E. rewrite !(cons_app ":"), !nil_app, <- !app_app in E.
  apply last_colon in E; [|by apply itoa_no_colon..]. assert (Some d = Some d') as [= ->]; [|done].
  by rewrite <- (itoa_parse d), <- (itoa_parse d'), E.
Qed.

Section counting.
Context (key : string) (E : Z).

(** The counter has reached [n], and lives until [E]. *)
Definition counted (n : Z) (s : PRedis) : Prop :=
  exists n', pr_seqs s !! key = Some n' /\ n <= n' /\ pr_expiry s !! key = Some E.
Definition counting (s s' : PRedis) : Prop := forall n, counted n s -> counted n s'.

#[local] Instance counting_refl : Reflexive counting.
Proof. by intros s n. Qed.
#[local] Instance counting_trans : Transitive counting.
Proof. intros s1 s2 s3 H1 H2 n Hn. auto. Qed.

Lemma counting_purge t s : t < E -> counting s (purge t s).
Proof.
  intros Ht n (n' & H1 & H2 & H3). exists n'. split_and!; [|done..]. unfold purge. cbn [pr_seqs].
  apply map_lookup_filter_Some. split; [done|]. unfold dead. simpl. rewrite H3. lia.
Qed.
Lemma counting_INCR k s : counting s (INCR k s).1.
Proof.
  intros n (n' & H1 & H2 & H3). unfold INCR, counted. cbn [fst pr_seqs pr_expiry]. destruct (decide (k = key)) as [->|].
  - rewrite lookup_insert_eq, H1. eexists. split; [done|]. split; [simpl; lia|].
    rewrite bool_decide_eq_true_2 by eauto. done.
  - rewrite lookup_insert_ne by done. exists n'. split_and!; [done..|]. case_bool_decide; [done|]. by rewrite lookup_delete_ne.
Qed.
Lemma counting_EXPIREAT k sec t s s' : (k = key -> sec * 1000 = E) -> t < E -> EXPIREAT k sec t s = Some s' -> counting s s'.
Proof.
  intros Hk Ht. unfold EXPIREAT. case_match; [done|]. destruct (decide (k = key)) as [->|Hne].
  - rewrite Hk by done. destruct (Z.leb_spec E t); [lia|]. intros [= <-] n (n' & H1 & H2 & H3). exists n'. cbn.
    split_and!; [done..|]. apply lookup_insert_eq.
  - case_match; intros [= <-] n (n' & H1 & H2 & H3); exists n'; cbn; rewrite ?lookup_delete_ne, ?lookup_insert_ne by done; done.
Qed.
Lemma counting_SET k v o s : k <> key -> counting s (SET k v o s).
Proof.
  intros Hk n (n' & H1 & H2 & H3). exists n'. unfold SET. cbn [pr_seqs pr_expiry].
  destruct o; rewrite ?lookup_insert_ne, ?lookup_delete_ne by done; done.
Qed.
Lemma counting_SET_PX k v ms t s s' : k <> key -> SET_PX k v ms t s = Some s' -> counting s s'.
Proof. intros Hk. unfold SET_PX. case_match; intros [= <-]. by apply counting_SET. Qed.
Lemma counting_DEL k s : k <> key -> counting s (DEL k s).
Proof. intros Hk n (n' & H1 & H2 & H3). exists n'. cbn. by rewrite lookup_delete_ne. Qed.
Lemma counting_ZADD q sc m s : counting s (ZADD q sc m s).
Proof. intros n H. exact H. Qed.
End counting.

#[local] Existing Instances counting_refl counting_trans.

Section order.
Context (q : string) (d : Z) (c : bool).
Definition seq_key : string := enqueueSeqKey q d c.
Definition seq_expiry : Z := (d + enqueueSeqGrace) * 1000.
Context (Hd : 0 < d < 2 ^ 32).

Lemma other_keys id token : RequestCancellationKey id <> seq_key /\ RequestActiveTokenKey id <> seq_key /\ RequestPayloadKey id token <> seq_key.
Proof. by split_and!; intros [=]. Qed.

Lemma expiry_of queue deadline cl : int64 deadline -> enqueueSeqKey queue deadline cl = seq_key ->
  wrap64 (deadline + enqueueSeqGrace) * 1000 = seq_expiry.
Proof.
  intros Hi Hk. apply seq_key_deadline in Hk as ->; [|done|unfold int64; lia]. unfold seq_expiry, enqueueSeqGrace.
  rewrite wrap64_id by lia. done.
Qed.

Lemma SubmitRequest_counting p now tok t1 t2 req :
  t1 < seq_expiry -> t2 < seq_expiry -> int64 (req_deadline req) ->
  p_keeps (counting seq_key seq_expiry) (SubmitRequest p now tok t1 t2 req).
Proof.
  intros H1 H2 Hi. apply SubmitRequest_keeps; [apply _..|]. intros token queue act b a ref payload _ Href.
  destruct (other_keys (req_id req) token) as (K1 & K2 & K3).
  assert (ref <> "" -> ref <> seq_key) as K4 by (destruct Href as [->| ->]; [by intros []|done]).
  pose proof (fun cl => expiry_of queue (req_deadline req) cl Hi) as Hexp. unfold calls_of. destruct (rp_clusterKeys p).
  - apply enqueueCluster_keeps; [apply _..| | |].
    + intros s. etransitivity; [by apply (counting_purge _ _ t1)|by apply counting_DEL].
    + intros k v o s Hk. etransitivity; [by apply (counting_purge _ _ t1)|]. apply counting_SET. destruct Hk as [[-> _]|[-> ?]]; auto.
    + intros s. etransitivity; [by apply (counting_purge _ _ t2)|]. unfold enqueueRequestScript.
      commands; [apply counting_INCR|by eapply counting_EXPIREAT; [apply Hexp|exact H2|]|apply counting_ZADD].
  - apply kp_bind; [apply _| |intros _; apply kp_ret; apply _]. apply kp_call; [apply _|].
    intros s. etransitivity; [by apply (counting_purge _ _ t1)|]. unfold submitRequestScript.
    case_decide; commands; try apply counting_ZADD; try (by apply counting_DEL);
      try (by eapply counting_SET_PX; [|eassumption]; auto);
      first [apply counting_INCR|by eapply counting_EXPIREAT; [apply Hexp|exact H1|]].
Qed.

Lemma CancelRequests_counting ts ids : (forall i, ts i < seq_expiry) -> p_keeps (counting seq_key seq_expiry) (CancelRequests ts ids).
Proof.
  intros Ht. revert ts Ht. induction ids as [|id ids IH]; intros ts Ht; cbn [CancelRequests]; [apply kp_ret; apply _|].
  destruct (other_keys id "") as (K1 & _ & _).
  case_decide; [by apply IH|]. apply kp_bind; [apply _| |].
  { apply kp_call; [apply _|]. intros s. by apply (counting_purge _ _ (ts 0%nat)). }
  intros [tok|]; [|apply IH; auto]. apply kp_bind; [apply _| |intros _; apply IH; auto].
  apply kp_call; [apply _|]. intros s. etransitivity; [by apply (counting_purge _ _ (ts 1%nat))|by apply counting_SET].
Qed.

(** The number a submission takes. *)
Definition numbered (s s' : PRedis) (n : Z) : Prop :=
  counted seq_key seq_expiry n s' /\ forall m, counted seq_key seq_expiry m s -> m < n.

(** After the counter is raised and its time set, what follows keeps it. *)
Lemma number_first {A : Type} t (k : Z -> script A) s s' a : t < seq_expiry ->
  sc_bind (sc_do (INCR seq_key)) (fun n => sc_bind (sc_try (EXPIREAT seq_key (d + enqueueSeqGrace) t)) (fun _ => k n)) (purge t s) = (s', Some a) ->
  (forall n s1, counting seq_key seq_expiry s1 (k n s1).1) ->
  exists n s1, k n s1 = (s', Some a) /\ numbered s s' n.
Proof.
  intros Ht Hrun Hk. unfold sc_bind, sc_do, sc_try, EXPIREAT, INCR in Hrun.
  set (n := default 0 (pr_seqs (purge t s) !! seq_key) + 1) in Hrun.
  destruct (2 ^ 63 / 1000 <? d + enqueueSeqGrace) eqn:E1; [done|]. fold seq_expiry in Hrun.
  destruct (Z.leb_spec seq_expiry t); [lia|]. exists n. eexists. split; [exact Hrun|]. split.
  - apply (f_equal fst) in Hrun. simpl in Hrun. rewrite <- Hrun. apply Hk. exists n. cbn [pr_seqs pr_expiry].
    rewrite !lookup_insert_eq. split_and!; [done|lia|done].
  - intros m Hm. apply (counting_purge _ _ t) in Hm as (n' & Hn' & Hle & _); [|done]. subst n. rewrite Hn'. simpl. lia.
Qed.

Lemma enqueue_numbers t before after s s' n : t < seq_expiry ->
  enqueueRequestScript t seq_key q (d + enqueueSeqGrace) before after d (purge t s) = (s', Some n) -> numbered s s' n.
Proof.
  intros Ht Hrun. apply number_first in Hrun as (n' & s1 & Hk & Hn); [|done|intros; commands; apply counting_ZADD].
  by injection Hk as _ <-.
Qed.

Lemma submit_numbers t id token payload px before after s s' n : t < seq_expiry ->
  (forall k v x, payload = Some (k, v, x) -> k = RequestPayloadKey id token) ->
  submitRequestScript t seq_key (RequestCancellationKey id) (RequestActiveTokenKey id) q payload token px (d + enqueueSeqGrace)
    before after d (purge t s) = (s', Some n) -> numbered s s' n.
Proof.
  intros Ht Hp Hrun. destruct (other_keys id token) as (K1 & K2 & K3).
  apply number_first in Hrun as (n' & s1 & Hk & Hn); [|done|].
  - unfold sc_bind in Hk. repeat case_match; simplify_eq; by injection Hk as _ <-.
  - intros m s1. destruct payload as [[[k v] x]|]; [rewrite (Hp k v x eq_refl)|]; commands;
      first [by apply counting_DEL|apply counting_ZADD|by eapply counting_SET_PX; [|eassumption]].
Qed.
End order.

Lemma after_pipe_counting q d c t1 id token act ref pl ttl s : t1 < seq_expiry d -> ref = "" \/ ref = RequestPayloadKey id token ->
  counting (seq_key q d c) (seq_expiry d) s (after_pipe t1 id token act ref pl ttl s).
Proof.
  intros Ht Href. destruct (other_keys q d c id token) as (K1 & K2 & K3).
  assert (forall s, counting (seq_key q d c) (seq_expiry d) s (purge t1 s)) as Hp by (intros s'; by apply counting_purge).
  unfold after_pipe. etransitivity; [apply Hp|]. etransitivity; [by apply (counting_DEL _ _ (RequestCancellationKey id))|].
  etransitivity; [apply Hp|]. case_decide; [by apply counting_SET|]. destruct Href as [->| ->]; [done|].
  etransitivity; [by apply (counting_SET _ _ (RequestActiveTokenKey id))|]. etransitivity; [apply Hp|by apply counting_SET].
Qed.

Lemma ran_numbers p now token t1 t2 req r v n s s' :
  submittable p now token t1 t2 req r v -> t1 < seq_expiry (rm_Deadline v) -> t2 < seq_expiry (rm_Deadline v) ->
  ran p now token t1 t2 req v n s s' ->
  numbered (rt_RequestQueueName (submit_rt p token req v)) (rm_Deadline v) (rp_clusterKeys p) s s' n.
Proof.
  intros Hsu H1 H2 (b & a & pl & Hran). pose proof (submit_ref_cases p token v) as Href.
  unfold ran in Hran. destruct (rp_clusterKeys p); cbv zeta in Hran.
  - apply (enqueue_numbers _ _ true) in Hran as [Hc Hm]; [|done]. split; [done|]. intros m Hcm. apply Hm.
    by apply (after_pipe_counting _ _ true).
  - eapply (submit_numbers _ _ false); [exact H1| |exact Hran]. intros k w x Hk. case_decide; [done|].
    injection Hk as <- _ _. by destruct Href.
Qed.

Lemma SubmitRequest_faultless p now tok t1 t2 req : faultless (SubmitRequest p now tok t1 t2 req).
Proof.
  destruct (SubmitRequest_cases p now tok t1 t2 req) as [[e ->]|(token & q & act & b & a & ref & pl & Ht & Hr & ->)]; [done|].
  unfold calls_of. destruct (rp_clusterKeys p).
  - unfold enqueueCluster. apply fl_bind; [apply fl_pipe; apply pipe_cmds|]. intros _. apply fl_bind; [apply fl_call|intros _; apply fl_ret].
  - apply fl_bind; [apply fl_call|intros _; apply fl_ret].
Qed.

(** A submission: the producer, its clock and token, the server's times and
    the request. *)
Record Submission : Type := mkSub {
  sub_p : RedisSortedSetProducer;
  sub_now : Z;
  sub_token : string;
  sub_t1 : Z;
  sub_t2 : Z;
  sub_req : Request;
  sub_r : Request;
  sub_v : RequestMessage
}.
Definition sub_run (x : Submission) : PM unit :=
  SubmitRequest (sub_p x) (sub_now x) (Some (sub_token x)) (sub_t1 x) (sub_t2 x) (Some (sub_req x)).
Definition sub_ok (x : Submission) : Prop :=
  submittable (sub_p x) (sub_now x) (sub_token x) (sub_t1 x) (sub_t2 x) (sub_req x) (sub_r x) (sub_v x).
Definition sub_as (n : Z) (x : Submission) (s' : PRedis) : Prop :=
  enqueued_as (sub_p x) (sub_now x) (sub_token x) (sub_t1 x) (sub_req x) (sub_r x) (sub_v x) n s'.
(** Where its number comes from. *)
Definition sub_counter (x : Submission) : string * Z * bool :=
  (rt_RequestQueueName (submit_rt (sub_p x) (sub_token x) (sub_req x) (sub_v x)), rm_Deadline (sub_v x), rp_clusterKeys (sub_p x)).

(** Anything producers do in between. *)
Inductive p_op : Type :=
| OSubmit (p : RedisSortedSetProducer) (now : Z) (tok : option string) (t1 t2 : Z) (req : option Request)
| OCancel (ts : nat -> Z) (ids : list string).
Definition op_exec (o : p_op) : PM unit :=
  match o with
  | OSubmit p now tok t1 t2 req => SubmitRequest p now tok t1 t2 req
  | OCancel ts ids => CancelRequests ts ids
  end.
Definition op_before (e : Z) (o : p_op) : Prop :=
  match o with
  | OSubmit _ _ _ t1 t2 req => t1 < e /\ t2 < e /\ int64 (req_deadline req)
  | OCancel ts _ => forall i, ts i < e
  end.
Fixpoint ops_run (ops : list p_op) (st : PRedis * list fault) : PRedis * list fault :=
  match ops with [] => st | o :: rest => ops_run rest (op_exec o st).2 end.

Lemma ops_counting q d c ops : 0 < d < 2 ^ 32 -> Forall (op_before (seq_expiry d)) ops -> forall s fs,
  counting (seq_key q d c) (seq_expiry d) s (ops_run ops (s, fs)).1.
Proof.
  intros Hd. induction 1 as [|o ops Ho Hops IH]; intros s fs; cbn [ops_run]; [reflexivity|].
  assert (counting (seq_key q d c) (seq_expiry d) s (op_exec o (s, fs)).2.1) as H1.
  { destruct o as [p now tok t1 t2 req|ts ids]; simpl in *.
    - destruct Ho as (? & ? & ?). by apply SubmitRequest_counting.
    - by apply CancelRequests_counting. }
  destruct (op_exec o (s, fs)) as [res [s1 fs1]]. simpl in *. by etransitivity; [|apply IH].
Qed.

Lemma sub_effect x s fs s' fs' : sub_ok x -> counters_good s ->
  sub_t1 x < seq_expiry (rm_Deadline (sub_v x)) -> sub_t2 x < seq_expiry (rm_Deadline (sub_v x)) ->
  sub_run x (s, fs) = (Ok tt, (s', fs')) ->
  exists n, sub_as n x s' /\ numbered (sub_counter x).1.1 (sub_counter x).1.2 (sub_counter x).2 s s' n.
Proof.
  intros Hx Hc H1 H2 Hrun. unfold sub_run in Hrun. apply SubmitRequest_faultless in Hrun.
  destruct (SubmitRequest_effect _ _ _ _ _ _ _ _ s Hx Hc) as (n & s1 & Hrun' & Has & Hran).
  rewrite Hrun in Hrun'. injection Hrun' as <-. exists n. split; [done|]. by eapply ran_numbers.
Qed.

(** Requests with one queue and one deadline are queued in the order of their
    submission: whatever producers submit and cancel in between, whatever calls
    are lost, while the server's clock is within an hour of the deadline the
    later of two accepted submissions gets the greater sequence number, and the
    greater score as long as fewer than 2^21 were submitted. *)
Theorem submission_order x y s fs s1 fs1 ops s2 fs2 s3 fs3 :
  sub_ok x -> sub_ok y -> sub_counter x = sub_counter y -> counters_good s -> counters_good s2 ->
  (let e := seq_expiry (rm_Deadline (sub_v x)) in
   sub_t1 x < e /\ sub_t2 x < e /\ sub_t1 y < e /\ sub_t2 y < e /\ Forall (op_before e) ops) ->
  sub_run x (s, fs) = (Ok tt, (s1, fs1)) -> ops_run ops (s1, fs1) = (s2, fs2) -> sub_run y (s2, fs2) = (Ok tt, (s3, fs3)) ->
  exists n m, sub_as n x s1 /\ sub_as m y s3 /\ n < m /\
    (m <= maxQueueScoreSeq -> (queueScore (rm_Deadline (sub_v x)) n < queueScore (rm_Deadline (sub_v y)) m)%Q).
Proof.
  intros Hx Hy Hk Hc Hc2 (T1 & T2 & T3 & T4 & Hops) Hrx Hops_run Hry.
  assert (rm_Deadline (sub_v x) = rm_Deadline (sub_v y)) as Ed by (unfold sub_counter in Hk; congruence).
  assert (0 < rm_Deadline (sub_v x) < 2 ^ 32) as Hd.
  { destruct (su_due _ _ _ _ _ _ _ _ Hx) as [? ?]. unfold Second in *. lia. }
  destruct (sub_effect x s fs s1 fs1 Hx Hc T1 T2 Hrx) as (n & Hn & [Hcn _]).
  rewrite Ed in T3, T4. destruct (sub_effect y s2 fs2 s3 fs3 Hy Hc2 T3 T4 Hry) as (m & Hm & [_ Hlt]).
  rewrite Hk in Hcn. exists n, m.
  assert (n < m) as Hnm.
  { apply Hlt. replace s2 with (ops_run ops (s1, fs1)).1 by by rewrite Hops_run. cbn [sub_counter fst snd] in *.
    apply ops_counting; [lia|by rewrite <- Ed|done]. }
  split_and!; [done..|]. intros Hmax. rewrite <- Ed. rewrite !queueScore_fraction by lia. unfold Qlt. simpl.
  assert (clampSeq n < clampSeq m); [|lia]. destruct Hn as [Hn _]. unfold clampSeq. change maxQueueScoreSeq with 2097151 in *. lia.
Qed.

(** ** A deadline far in the future *)

(** A producer with payload keys, and a deadline beyond the range of
    [time.Duration] (a time in milliseconds, say). *)
Record far_submission (p : RedisSortedSetProducer) (now : Z) (token : string) (req r : Request) (v : RequestMessage) : Prop := {
  fs_standalone : rp_clusterKeys p = false;
  fs_payloadKeys : rp_payloadKeys p = true;
  fs_public : ir_Public (toInternalRequest req) = Some r;
  fs_view : request_view r = Some v;
  fs_request : request_ok r;
  fs_id : rm_ID v <> "";
  fs_payload : payload_valid (rm_Payload v) = true;
  fs_deadline : 2 ^ 63 <= rm_Deadline v * Second - now /\ rm_Deadline v < 2 ^ 50 /\ 0 <= now;
  fs_routing : routing_ok (submit_rt p token req v)
}.

Lemma script_orphans t id token queue ref payload px activePX seqExpireAt before after deadline s cluster :
  seqExpireAt <= 2 ^ 63 / 1000 -> 0 < activePX -> px <= 0 -> ref = RequestPayloadKey id token ->
  let key := enqueueSeqKey queue deadline cluster in
  let n := default 0 (pr_seqs (purge t s) !! key) + 1 in
  exists s', submitRequestScript t key (RequestCancellationKey id) (RequestActiveTokenKey id) queue (Some (ref, payload, px)) token activePX
    seqExpireAt before after deadline (purge t s) = (s', None) /\
  is_Some (pending (queue_at (pr_r s') queue) !! lua_member before n after) /\
  strs (pr_r s') !! ref = strs (pr_r (purge t s)) !! ref.
Proof.
  intros Hexp Hpx Hp -> key n. destruct (marker_keys id id token) as (K1 & K2 & K3).
  unfold submitRequestScript, sc_bind, sc_do, INCR. fold n. generalize (purge t s). intros p0.
  unfold sc_try at 1, EXPIREAT. destruct (2 ^ 63 / 1000 <? seqExpireAt) eqn:E; [lia|].
  set (p1 := if seqExpireAt * 1000 <=? t then _ else _).
  assert (exists p1', p1 = Some p1' /\ pr_r p1' = pr_r p0) as (p1' & Hp1 & Hr).
  { subst p1. destruct (seqExpireAt * 1000 <=? t); eexists; split; done. }
  rewrite Hp1. clear p1 Hp1. unfold sc_upd, sc_try, SET_PX. destruct (0 <? activePX) eqn:E2; [|lia].
  destruct (0 <? px) eqn:E3; [lia|]. eexists. split; [reflexivity|]. simpl. rewrite Hr. split.
  - unfold queue_at. simpl. rewrite lookup_insert_eq. simpl. rewrite lookup_insert_eq. eauto.
  - rewrite lookup_insert_ne by done. by rewrite lookup_delete_ne.
Qed.

(** With payload keys, a deadline more than 292 years away is accepted and
    then breaks the submission: the payload's lifetime overflows to a negative
    time, which Redis refuses when the request is already in the queue. The
    caller sees an error, the dispatcher finds the request, and its payload was
    never stored. *)
Theorem far_deadline_orphans p now token t1 t2 req r v s :
  far_submission p now token req r v -> counters_good s ->
  strs (pr_r s) !! submit_ref p token v = None ->
  exists s' n member, SubmitRequest p now (Some token) t1 t2 (Some req) (s, []) = (Err ErrQueue, (s', [])) /\
    is_Some (pending (queue_at (pr_r s') (rt_RequestQueueName (submit_rt p token req v))) !! member) /\
    unmarshal member = Some (read_back p n (submit_rt p token req v) r) /\
    strs (pr_r s') !! rt_PayloadRef (submit_rt p token req v) = None.
Proof.
  intros [Hcl Hpk Hpub Hview Hreq Hid Hpv (Hfar & Hd & Hnow) Hrt] Hc Hnone.
  assert (rt_EnqueueSeq (submit_rt p token req v) = -1) as Hseq by done.
  destruct (submission_decodes p _ r Hreq Hrt Hseq) as (envelope & payload & before & after & He & Hs & Hpl & Hun).
  assert (untilUnix (rm_Deadline v) now = 2 ^ 63 - 1) as Hu.
  { unfold untilUnix, clamp64, unixToInternal, Second in *. rewrite wrap64_id by lia. lia. }
  assert (0 < rm_Deadline v) by (unfold Second in *; lia).
  assert (submit_ref p token v = RequestPayloadKey (rm_ID v) token) as Href by (unfold submit_ref; by rewrite Hpk).
  destruct (script_orphans t1 (rm_ID v) token (rt_RequestQueueName (submit_rt p token req v)) (submit_ref p token v) (default "" payload)
    (Milliseconds (wrap64 (2 ^ 63 - 1 + payloadTTLGrace))) (Z.max (Milliseconds (2 ^ 63 - 1)) 1)
    (wrap64 (rm_Deadline v + enqueueSeqGrace)) before after (rm_Deadline v) s false) as (s' & Hrun & Hm & Hp).
  { unfold enqueueSeqGrace. rewrite wrap64_id by lia. change (2 ^ 63 / 1000) with 9223372036854775. lia. }
  { lia. } { done. } { done. }
  pose proof (counter_next _ (enqueueSeqKey (rt_RequestQueueName (submit_rt p token req v)) (rm_Deadline v) false) (purge_counters t1 s Hc)) as Hn.
  eexists s', _, _. split_and!; [|exact Hm|apply Hun; lia|].
  - unfold SubmitRequest. rewrite Hpub. cbn [mbind option_bind]. rewrite Hview. cbn [fmap option_fmap option_map].
    rewrite decide_False by done. destruct (rm_Deadline v <=? 0) eqn:E1; [lia|]. rewrite Hu.
    change (2 ^ 63 - 1 <=? 0) with false. cbv iota. rewrite Hpv. cbn [negb].
    fold (submit_ref p token v). fold (submit_rt p token req v). rewrite He, Hs, Hcl. unfold f_bind. rewrite p_call_run.
    rewrite decide_False by by rewrite Href. by rewrite Hrun.
  - change (rt_PayloadRef (submit_rt p token req v)) with (submit_ref p token v). rewrite Hp. by apply purge_none.
Qed.

(** ** What the constructor returns *)

(** A producer that is constructed is well-formed, whatever the options and
    their order: its queues are named, its lease and its interval are positive
    and the server answered; and without an injected client it uses the cluster
    layout exactly in cluster mode, with a URL that parses and database 0. *)
Theorem producer_well_formed ParseURL ping config opts p :
  NewRedisSortedSetProducer ParseURL ping config opts = Ok p ->
  rp_requestQueueName p <> "" /\ rp_resultQueueName p = cf_ResultQueueName config /\ rp_resultQueueName p <> "" /\
  0 < rp_resultClaimLeaseTTL p /\ 0 < rp_resultClaimReclaimInterval p /\ ping = true /\
  (Forall (fun o => match o with WithRedisClient _ => False | _ => True end) opts ->
   rp_clusterKeys p = bool_decide (cf_RedisMode config = "cluster") /\
   exists db, ParseURL (cf_RedisURL config) = Some db /\ (cf_RedisMode config = "cluster" -> db = 0)).
Proof.
  unfold NewRedisSortedSetProducer. case_decide as Hq; [done|].
  set (p0 := mkProducer false _ _ _ _ _).
  assert (forall os pc pc', apply_options os pc = Ok pc' ->
    rp_requestQueueName pc'.1 = rp_requestQueueName pc.1 /\ rp_resultQueueName pc'.1 = rp_resultQueueName pc.1 /\
    (0 < rp_resultClaimLeaseTTL pc.1 -> 0 < rp_resultClaimLeaseTTL pc'.1) /\
    (0 < rp_resultClaimReclaimInterval pc.1 -> 0 < rp_resultClaimReclaimInterval pc'.1) /\
    (Forall (fun o => match o with WithRedisClient _ => False | _ => True end) os -> pc'.2 = pc.2)) as Hopts.
  { induction os as [|o os IH]; intros [[c rq sq ttl iv pk] cl] pc'; cbn [apply_options]; [by intros [= <-]|].
    destruct (apply_option o _) as [pc1|] eqn:E; [|done]. intros Hrun. destruct (IH pc1 pc' Hrun) as (-> & -> & H1 & H2 & H3).
    destruct o as [[k|]|d|d|]; simpl in E; repeat case_match; simplify_eq; simpl in *; split_and!; try done;
      try (intros; first [apply H1|apply H2]; lia); intros [? Ho]%Forall_cons; auto; done. }
  destruct (apply_options opts (p0, None)) as [[[c rq sq ttl iv pk] cl]|e] eqn:E; [|done].
  destruct (Hopts _ _ _ E) as (Hrq & Hsq & Httl & Hiv & Hcl). simpl in *.
  destruct (match cl with Some _ => _ | None => _ end) as [cluster|e] eqn:Ec; [|done].
  destruct ping; [|done]. intros [= <-]. simpl. subst rq sq. split_and!; try done.
  - unfold or_default. by case_decide.
  - by apply Httl.
  - by apply Hiv.
  - intros Ho. rewrite (Hcl Ho) in Ec. unfold newRedisClient in Ec. repeat case_match; simplify_eq; split; try done; eexists; (split; [done|]);
      intros ?; apply dec_stable; intros ?; naive_solver.
Qed.

(** ** Concrete submissions *)
Definition w_producer (cluster pk : bool) : RedisSortedSetProducer := mkProducer cluster "q" "res" (5 * Minute) Second pk.
Definition w_small : string := "{}".
Definition w_msg (d : Z) : RequestMessage := mkRequestMessage "r1" 0 d (RawBytes w_small) ∅ ∅ "" "m".
Definition w_request (d : Z) : Request := RedisReq (Some (mkRedisRequest (w_msg d) "" "")).
Definition w_redis : PRedis := mkPRedis emptyRedis ∅ ∅.
Definition w_sub (cluster pk : bool) (d : Z) (token : string) : Submission :=
  mkSub (w_producer cluster pk) Second token 1000 1001 (w_request d) (w_request d) (w_msg d).

Lemma w_routing_ok cluster pk d token : token = "t1" \/ token = "t2" -> routing_ok (submit_rt (w_producer cluster pk) token (w_request d) (w_msg d)).
Proof.
  assert (forall n, - 2 ^ 10 <= n < 2 ^ 10 -> int64 n) as Hn by (unfold int64; lia).
  intros [->| ->]; destruct cluster, pk; split; try done; try (by apply Hn); apply map_Forall_empty.
Qed.
Lemma w_request_ok d : int64 d -> request_ok (w_request d).
Proof. intros Hd. split_and!; [|done|done]. split; try done. by exists w_small. Qed.

Lemma w_sub_ok cluster pk d token : 60 <= d < 2 ^ 20 -> token = "t1" \/ token = "t2" -> sub_ok (w_sub cluster pk d token).
Proof.
  intros Hd Ht. split; try done.
  - apply w_request_ok. unfold int64. lia.
  - simpl. unfold due_in, Second. lia.
  - by apply w_routing_ok.
  - intros _. simpl. unfold Milliseconds, Millisecond, Second. rewrite Z.quot_div_nonneg by lia.
    assert (59 * 1000 <= (d * 1000000000 - 1000000000) / 1000000); [apply Z.div_le_lower_bound; lia|lia].
Qed.
Lemma w_counters : counters_good w_redis.
Proof. apply map_Forall_empty. Qed.

Lemma submit_enqueues_witness : exists s', SubmitRequest (w_producer true true) Second (Some "t1") 1000 1001 (Some (w_request 60)) (w_redis, []) =
  (Ok tt, (s', [])) /\ enqueued (w_producer true true) Second "t1" 1000 (w_request 60) (w_request 60) (w_msg 60) s'.
Proof. apply (submit_enqueues _ _ _ _ 1001); [apply (w_sub_ok true true 60 "t1"); [lia|by left]|apply w_counters]. Defined.

Lemma submit_all_or_nothing_witness : exists res s' fs',
  SubmitRequest (w_producer false true) Second (Some "t1") 1000 1001 (Some (w_request 60)) (w_redis, [FReply]) = (res, (s', fs')) /\
  (enqueued (w_producer false true) Second "t1" 1000 (w_request 60) (w_request 60) (w_msg 60) s' \/
   res <> Ok tt /\ queues (pr_r s') = queues (pr_r w_redis) /\ (false = false -> s' = w_redis)).
Proof.
  destruct (SubmitRequest (w_producer false true) Second (Some "t1") 1000 1001 (Some (w_request 60)) (w_redis, [FReply])) as [res [s' fs']] eqn:E.
  exists res, s', fs'. split; [done|]. apply (submit_all_or_nothing (w_producer false true) Second "t1" 1000 1001 (w_request 60) (w_request 60) (w_msg 60) w_redis [FReply] res s' fs');
    [apply (w_sub_ok false true 60 "t1"); [lia|by left]|apply w_counters|done].
Defined.

Lemma cancel_hits_generation_witness : exists evs s reads,
  c_steps (w_redis, []) evs (s, reads) /\ marker s "r1" = Some "t1" /\ read_after_submit "r1" "t1" evs.
Proof.
  destruct (SubmitRequest_effect _ _ _ _ _ _ _ _ w_redis (w_sub_ok false false 60 "t1" ltac:(lia) ltac:(by left)) w_counters)
    as (n & s1 & Hrun & (_ & member & score & Hs & _) & _).
  destruct (cancel_pair 1002 1003 "r1" s1 "t1" _ (sb_active _ _ _ _ _ _ _ _ Hs) (sb_until _ _ _ _ _ _ _ _ Hs)) as (Hr & s2 & Hw & Hm); [done|].
  assert (c_steps (w_redis, []) ([ESubmit "r1" "t1"] ++ [ERead "r1" "t1"] ++ []) (s2, [("r1", "t1")])) as Hsteps.
  { rewrite app_assoc. apply (c_snoc _ _ (purge 1002 s1, [("r1", "t1")])); [apply (c_snoc _ _ (s1, [])); [apply (c_snoc _ [] (w_redis, [])); [constructor|]|]|].
    - pose proof (c_submit (w_producer false false) Second "t1" 1000 1001 (Some (w_request 60)) w_redis [] []) as Hc.
      cbn [w_sub sub_p sub_now sub_token sub_t1 sub_t2 sub_req] in Hrun. by rewrite Hrun in Hc.
    - exact (c_read 1002 "r1" s1 [] [] "t1" _ Hr).
    - pose proof (c_write 1003 "r1" "t1" (purge 1002 s1) [] [("r1", "t1")]) as Hc. rewrite Hw in Hc. apply Hc. by apply list_elem_of_singleton. }
  eexists _, s2, _. split; [exact Hsteps|]. split; [exact Hm|].
  by apply (cancel_hits_generation w_redis _ s2 _ "r1" "t1" Hsteps).
Defined.

Lemma w_counts n s1 : ran (w_producer false false) Second "t1" 1000 1001 (w_request 60) (w_msg 60) n w_redis s1 -> counters_good s1.
Proof.
  intros (b & a & pl & H). cbn [rp_clusterKeys w_producer] in H. unfold submitRequestScript, sc_bind, sc_do, sc_upd, sc_ret, sc_try, SET_PX in H.
  injection H as <- _. cbn [pr_seqs ZADD SET DEL]. unfold counters_good. cbn [pr_seqs].
  apply map_Forall_insert_2; [done|]. apply (purge_counters 1000 w_redis), w_counters.
Qed.

Lemma submission_order_witness :
  let x := w_sub false false 60 "t1" in let y := w_sub false false 60 "t2" in
  exists s1 s3 n m, sub_as n x s1 /\ sub_as m y s3 /\ n < m /\ (m <= maxQueueScoreSeq -> (queueScore 60 n < queueScore 60 m)%Q).
Proof.
  intros x y. pose proof (w_sub_ok false false 60 "t1" ltac:(lia) ltac:(by left)) as Hx.
  pose proof (w_sub_ok false false 60 "t2" ltac:(lia) ltac:(by right)) as Hy.
  destruct (SubmitRequest_effect _ _ _ _ _ _ _ _ w_redis Hx w_counters) as (n1 & s1 & R1 & A1 & N1).
  pose proof (w_counts n1 s1 N1) as Hc1.
  destruct (SubmitRequest_effect _ _ _ _ _ _ _ _ s1 Hy Hc1) as (n2 & s3 & R2 & A2 & _).
  destruct (submission_order x y w_redis [] s1 [] [] s1 [] s3 [] Hx Hy eq_refl w_counters Hc1) as (n & m & H); [|done..|by exists s1, s3, n, m].
  simpl. unfold seq_expiry, enqueueSeqGrace. split_and!; [lia..|constructor].
Defined.

Lemma far_deadline_orphans_witness : exists s' n member,
  let d := 1763251200000 in let rt := submit_rt (w_producer false true) "t1" (w_request d) (w_msg d) in
  SubmitRequest (w_producer false true) (1763164800 * Second) (Some "t1") 0 0 (Some (w_request d)) (w_redis, []) = (Err ErrQueue, (s', [])) /\
  is_Some (pending (queue_at (pr_r s') "q") !! member) /\
  unmarshal member = Some (read_back (w_producer false true) n rt (w_request d)) /\ strs (pr_r s') !! rt_PayloadRef rt = None.
Proof.
  apply (far_deadline_orphans (w_producer false true) (1763164800 * Second) "t1" 0 0 (w_request 1763251200000) (w_request 1763251200000) (w_msg 1763251200000) w_redis).
  - split; try done. by apply w_request_ok.
  - apply w_counters.
  - done.
Defined.

Lemma producer_well_formed_witness : rp_resultQueueName (w_producer true false) = "res" /\
  rp_clusterKeys (w_producer true false) = bool_decide ("cluster" = "cluster").
Proof.
  destruct (producer_well_formed (fun _ => Some 0) true (mkSSConfig "redis://h" "cluster" [] "" "q" "res") [] (w_producer true false) eq_refl)
    as (_ & H1 & _ & _ & _ & _ & H2). split; [exact H1|]. by apply H2.
Defined.
