(* ===== verification/Gates.v ===== *)
(** * Admission gates (src/pipeline/gate.go, src/pkg/async/inference/flowcontrol,
    src/pkg/redis/dispatch_gate.go)

    A gate is a tree: the leaves read a budget or count requests, the inner
    nodes are the composite, wait-on-refuse and tier-priority gates.  A release
    closure is the resource it gives back.  What gates read from outside (a
    metric source, a Redis key, the context) is the argument [env]; the store
    behind quota gates is an instance of [QuotaStore]. *)
From stdpp Require Import prelude gmap strings list.
From Stdlib Require Import ZArith QArith Lqa Lia.
From S2P Require Import Prelude Rounding Api.

#[local] Open Scope Z_scope.

(** ** Verdicts *)
Inductive VerdictAction : Type := ActionContinue | ActionDrop | ActionRefuse | ActionWait.

#[export] Instance VerdictAction_eq_dec : EqDecision VerdictAction.
Proof. solve_decision. Defined.

Record Verdict : Type := mkVerdict {
  v_Action : VerdictAction;
  v_Result : option ResultMessage;
  v_Reason : string
}.

Definition Continue : Verdict := mkVerdict ActionContinue None "".
Definition Drop (r : option ResultMessage) : Verdict := mkVerdict ActionDrop r "".
Definition Refuse : Verdict := mkVerdict ActionRefuse None "".
Definition Wait : Verdict := mkVerdict ActionWait None "".
Definition WithReason (v : Verdict) (reason : string) : Verdict := mkVerdict (v_Action v) (v_Result v) reason.
Definition zeroVerdict : Verdict := Continue.

Definition ReasonQuotaExhausted : string := "quota_exhausted".
Definition ReasonGateClosed : string := "gate_closed".

Inductive GateErr : Type :=
| ErrQuotaStore
| ErrQuotaMode
| ErrContext     (* the context ended *)
| ErrNilMessage. (* a nil pointer dereference *)

#[export] Instance GateErr_eq_dec : EqDecision GateErr.
Proof. solve_decision. Defined.

(** ** Quota stores *)
Class QuotaStore (QS Slot : Type) := {
  (** [Ok (Some s)]: a slot; [Ok None]: every slot is held. *)
  AcquireSlot : string -> Z -> QS -> QS * Res unit (option Slot);
  ReleaseSlot : Slot -> QS -> QS;
  Admit : string -> Z -> Z -> QS -> QS * Res unit bool
}.

(** What the accounting below asks of a store: a slot is held from the call
    that returns it until its release. *)
Class QuotaStoreLaws (QS Slot : Type) `{EqDecision Slot} `{!QuotaStore QS Slot} := {
  slots_held : QS -> Slot -> Z;
  acquire_held key limit qs x :
    slots_held (AcquireSlot key limit qs).1 x
    = slots_held qs x + match (AcquireSlot key limit qs).2 with
                        | Ok (Some s) => if decide (s = x) then 1 else 0
                        | _ => 0
                        end;
  release_held s qs x : slots_held (ReleaseSlot s qs) x = slots_held qs x - if decide (s = x) then 1 else 0;
  admit_held key limit w qs x : slots_held (Admit key limit w qs).1 x = slots_held qs x
}.

Inductive QuotaMode : Type := QuotaModeRateLimit | QuotaModeConcurrency | QuotaModeOther.
Inductive GatingMode : Type := GatingModeBlocking | GatingModeClassifying.

#[export] Instance GatingMode_eq_dec : EqDecision GatingMode.
Proof. solve_decision. Defined.

(** ** Gates *)
Inductive gate : Type :=
| GFunc (f : nat)                                   (* DispatchGateFunc *)
| GConstOpen                                        (* ConstOpenGate *)
| GMetric (src : nat) (threshold fallback : float64)
| GBinaryMetric (src : nat)
| GRedisBudget (key : string)
| GLocal (id : nat) (limit : Z) (mode : GatingMode)
| GQuota (attribute : string) (mode : QuotaMode) (gating : GatingMode) (limit window : Z) (prefix : string)
| GWaitOnRefuse (inner : gate)
| GTierPriority (saturation : gate) (tierLabel : string)
| GComposite (gates : list gate).

(** What a Redis GET of a budget key gives: an error, no key, a value that is
    no float, or a float. *)
Inductive budget_reading : Type :=
| ReadErr
| ReadNil
| ReadBad
| ReadFloat (f : float64).

Record GateEnv : Type := mkGateEnv {
  env_func : nat -> float64;
  env_query : nat -> Res unit (list float64);
  env_redis : string -> budget_reading;
  env_done : bool  (* a select on the context picks ctx.Done() *)
}.

(** math.Min and math.Max. *)
Definition fmin (a b : float64) : float64 :=
  match a, b with
  | NegInf, _ | _, NegInf => NegInf
  | NaN, _ | _, NaN => NaN
  | _, _ => if fle a b then a else b
  end.

Definition fmax (a b : float64) : float64 :=
  match a, b with
  | PosInf, _ | _, PosInf => PosInf
  | NaN, _ | _, NaN => NaN
  | _, _ => if fle a b then b else a
  end.

Definition fsub (a b : float64) : float64 :=
  match a, b with
  | NaN, _ | _, NaN => NaN
  | PosInf, PosInf | NegInf, NegInf => NaN
  | PosInf, _ | _, NegInf => PosInf
  | NegInf, _ | _, PosInf => NegInf
  | Fin x, Fin y => Fin (fsub64 x y)
  end.

Definition feq (a b : float64) : bool := fle a b && fle b a.

Section gates.
Context {QS Slot : Type} `{EqDecision Slot} `{!QuotaStore QS Slot}.

Inductive release : Type :=
| RelLocal (id : nat)
| RelSlot (s : Slot).

(** The counters of the local gates and the quota store. *)
Record GateState : Type := mkGateState { inFlight : gmap nat Z; quotas : QS }.

Definition in_flight (st : GateState) (id : nat) : Z := default 0 (inFlight st !! id).
Definition add_in_flight (id : nat) (d : Z) (st : GateState) : GateState :=
  mkGateState (<[id := in_flight st id + d]> (inFlight st)) (quotas st).

Definition run_release (r : release) (st : GateState) : GateState :=
  match r with
  | RelLocal id => add_in_flight id (-1) st
  | RelSlot s => mkGateState (inFlight st) (ReleaseSlot s (quotas st))
  end.

(** [ReleaseGateReleases]: in reverse order. *)
Definition ReleaseGateReleases (rels : list release) (st : GateState) : GateState :=
  foldr run_release st rels.

(** ** Budgets *)
Definition metric_budget (env : GateEnv) (src : nat) (threshold fallback : float64) : float64 :=
  match env_query env src with
  | Err _ => fallback
  | Ok [] => fallback
  | Ok (value :: _) =>
      if isNaN value || isInf value then fallback
      else if fle value threshold then Fin 0
      else fmin (Fin 1) (fmax (Fin 0) (fsub value threshold))
  end.

(** [NewMetricDispatchGate] clamps its fallback. *)
Definition NewMetricDispatchGate (src : nat) (threshold fallback : float64) : gate :=
  GMetric src threshold (fmax (Fin 0) (fmin (Fin 1) fallback)).
Definition NewSaturationDispatchGate (src : nat) (threshold fallback : float64) : gate :=
  NewMetricDispatchGate src (fsub (Fin 1) threshold) (fsub (Fin 1) fallback).
Definition NewBudgetDispatchGate (src : nat) (baseline fallback : float64) : gate :=
  NewMetricDispatchGate src baseline fallback.

Definition binary_budget (env : GateEnv) (src : nat) : float64 :=
  match env_query env src with
  | Err _ => Fin 1
  | Ok [] => Fin 1
  | Ok (value :: _) => if feq value (Fin 0) then Fin 1 else Fin 0
  end.

Definition redis_budget (r : budget_reading) : float64 :=
  match r with
  | ReadNil => Fin 1
  | ReadErr => Fin 0
  | ReadBad => Fin 1
  | ReadFloat b => if flt b (Fin 0) then Fin 0 else if flt (Fin 1) b then Fin 1 else b
  end.

Definition local_budget (limit n : Z) : float64 :=
  if limit <=? 0 then Fin 0
  else if limit <=? n then Fin 0
  else Fin (fdiv64 (inject_Z (limit - n)) (inject_Z limit)).

Fixpoint Budget (env : GateEnv) (st : GateState) (g : gate) : float64 :=
  match g with
  | GFunc f => env_func env f
  | GConstOpen => Fin 1
  | GMetric src t fb => metric_budget env src t fb
  | GBinaryMetric src => binary_budget env src
  | GRedisBudget key => redis_budget (env_redis env key)
  | GLocal id limit _ => local_budget limit (in_flight st id)
  | GQuota _ _ _ _ _ _ => Fin 1
  | GWaitOnRefuse inner => Budget env st inner
  | GTierPriority sat _ => Budget env st sat
  | GComposite [] => Fin 1
  | GComposite gs => foldl (fun b g => let b' := Budget env st g in if flt b' b then b' else b) (Fin 1) gs
  end.

(** ** Apply: the state, the message, the releases and the verdict *)
Record GateRun : Type := mkGateRun {
  gr_state : GateState;
  gr_msg : InternalRequest;
  gr_releases : option (list release)   (* [None]: a nil pointer *)
}.

Definition with_state (r : GateRun) (st : GateState) : GateRun := mkGateRun st (gr_msg r) (gr_releases r).
Definition push_release (r : GateRun) (x : release) : GateRun :=
  mkGateRun (gr_state r) (gr_msg r) ((fun l => l ++ [x]) <$> gr_releases r).
Definition classify (r : GateRun) (c : QuotaClassification) : GateRun :=
  let m := gr_msg r in
  mkGateRun (gr_state r) (mkInternalRequest (SetClassification c (ir_Routing m)) (ir_Public m) (ir_Ingestion m))
    (gr_releases r).

Abbreviation gate_result := (GateRun * Res GateErr Verdict)%type.

(** The budget gates: refuse when the budget is not positive. *)
Definition apply_budget (b : float64) (r : GateRun) : gate_result :=
  (r, Ok (if fle b (Fin 0) then Refuse else Continue)).

Definition apply_local (env : GateEnv) (id : nat) (limit : Z) (mode : GatingMode) (r : GateRun) : gate_result :=
  let st := gr_state r in
  let admitted := (push_release (with_state r (add_in_flight id 1 st)) (RelLocal id), Ok Continue) in
  if limit <=? 0 then (r, Ok Refuse)
  else match mode with
       | GatingModeBlocking =>
           (* with no room on the semaphore, the select can only end with the context *)
           if env_done env || (limit <=? in_flight st id) then (r, Err ErrContext) else admitted
       | GatingModeClassifying =>
           if limit <=? in_flight st id then (r, Ok Refuse) else admitted
       end.

Definition quota_key (prefix attribute val : string) : string := prefix +:+ attribute +:+ ":" +:+ val.

Definition quota_ask (mode : QuotaMode) (key : string) (limit window : Z) (qs : QS) :
    QS * Res GateErr (bool * option Slot) :=
  match mode with
  | QuotaModeConcurrency =>
      let '(qs', res) := AcquireSlot key limit qs in
      (qs', match res with
            | Err _ => Err ErrQuotaStore
            | Ok None => Ok (false, None)
            | Ok (Some s) => Ok (true, Some s)
            end)
  | QuotaModeRateLimit =>
      let '(qs', res) := Admit key limit window qs in
      (qs', match res with Err _ => Err ErrQuotaStore | Ok b => Ok (b, None) end)
  | QuotaModeOther => (qs, Err ErrQuotaMode)
  end.

Definition apply_quota (attribute : string) (mode : QuotaMode) (gating : GatingMode) (limit window : Z)
    (prefix : string) (r : GateRun) : gate_result :=
  match ir_view (gr_msg r) with
  | None => (r, Err ErrNilMessage)
  | Some m =>
      match rm_Metadata m !! attribute with
      | None => (r, Ok Continue)
      | Some val =>
          let st := gr_state r in
          let '(qs', res) := quota_ask mode (quota_key prefix attribute val) limit window (quotas st) in
          let r := with_state r (mkGateState (inFlight st) qs') in
          match res with
          | Err e => (r, Err e)
          | Ok (false, _) =>
              let r := classify r ClassificationOverflow in
              (r, Ok (if bool_decide (gating = GatingModeBlocking)
                      then WithReason Refuse ReasonQuotaExhausted else Continue))
          | Ok (true, slot) =>
              let r := classify r ClassificationReserved in
              (match slot with Some s => push_release r (RelSlot s) | None => r end, Ok Continue)
          end
      end
  end.

(** Run the closures of [releases] from the end down to [snapshot]. *)
Definition rollback (snapshot : nat) (r : GateRun) : GateRun :=
  match gr_releases r with
  | None => r
  | Some l => mkGateRun (ReleaseGateReleases (drop snapshot l) (gr_state r)) (gr_msg r) (Some (take snapshot l))
  end.

Fixpoint ApplyChain_from (apply : gate -> GateRun -> gate_result) (snapshot : nat) (gates : list gate)
    (r : GateRun) : gate_result :=
  match gates with
  | [] => (r, Ok Continue)
  | g :: gates' =>
      let '(r', v) := apply g r in
      match v with
      | Ok v' =>
          if bool_decide (v_Action v' = ActionContinue)
          then ApplyChain_from apply snapshot gates' r'
          else (rollback snapshot r', v)
      | Err _ => (rollback snapshot r', v)
      end
  end.

Definition ApplyChain (apply : gate -> GateRun -> gate_result) (gates : list gate) (r : GateRun) : gate_result :=
  ApplyChain_from apply (length (default [] (gr_releases r))) gates r.

Definition tier_drop_payload : string :=
  let dquote := String (Ascii.ascii_of_nat 34) EmptyString in
  "{" +:+ dquote +:+ "error" +:+ dquote +:+ ": " +:+ dquote +:+ "Too Many Requests" +:+ dquote +:+ ", "
  +:+ dquote +:+ "code" +:+ dquote +:+ ": 429}".

(** The verdict of the tier-priority gate once its saturation gate refused. *)
Definition tier_verdict (tierLabel : string) (msg : InternalRequest) : Res GateErr Verdict :=
  let rt := ir_Routing msg in
  let c := GetClassification rt in
  if bool_decide (c = ClassificationReserved) then Ok Wait
  else
    let tier := default "" (rt_Labels rt !! tierLabel) in
    if bool_decide (tier = TierInteractive) && bool_decide (c = ClassificationOverflow) then
      match ir_view msg with
      | None => Err ErrNilMessage
      | Some m => Ok (Drop (Some (mkResultMessage (rm_ID m) 0 tier_drop_payload "" "" rt ∅)))
      end
    else Ok Refuse.

Fixpoint Apply (env : GateEnv) (g : gate) (r : GateRun) : gate_result :=
  match g with
  | GLocal id limit mode => apply_local env id limit mode r
  | GQuota attribute mode gating limit window prefix => apply_quota attribute mode gating limit window prefix r
  | GWaitOnRefuse inner =>
      let '(r', v) := Apply env inner r in
      (r', match v with
           | Ok v' => Ok (if bool_decide (v_Action v' = ActionRefuse)
                          then mkVerdict ActionWait (v_Result v') (v_Reason v') else v')
           | Err e => Err e
           end)
  | GTierPriority sat tierLabel =>
      let '(r', v) := Apply env sat r in
      match v with
      | Err e => (r', Err e)
      | Ok v' =>
          if bool_decide (v_Action v' = ActionRefuse) then (r', tier_verdict tierLabel (gr_msg r'))
          else (r', Ok Continue)
      end
  | GComposite gates => ApplyChain (Apply env) gates r
  | GFunc _ | GConstOpen | GMetric _ _ _ | GBinaryMetric _ | GRedisBudget _ =>
      apply_budget (Budget env (gr_state r) g) r
  end.
End gates.

Arguments release Slot : clear implicits.
Arguments GateState QS : clear implicits.
Arguments GateRun QS Slot : clear implicits.

(** Induction over gates, with the hypothesis for every gate of a composite. *)
Section gate_induction.
Context (P : gate -> Prop).
Hypotheses (Hfunc : forall f, P (GFunc f)) (Hopen : P GConstOpen)
  (Hmetric : forall s t f, P (GMetric s t f)) (Hbinary : forall s, P (GBinaryMetric s))
  (Hredis : forall k, P (GRedisBudget k)) (Hlocal : forall i l m, P (GLocal i l m))
  (Hquota : forall a m g l w p, P (GQuota a m g l w p))
  (Hwait : forall g, P g -> P (GWaitOnRefuse g))
  (Htier : forall g l, P g -> P (GTierPriority g l))
  (Hcomp : forall gs, Forall P gs -> P (GComposite gs)).

Fixpoint gate_induction (g : gate) : P g :=
  match g with
  | GFunc f => Hfunc f
  | GConstOpen => Hopen
  | GMetric s t f => Hmetric s t f
  | GBinaryMetric s => Hbinary s
  | GRedisBudget k => Hredis k
  | GLocal i l m => Hlocal i l m
  | GQuota a m gm l w p => Hquota a m gm l w p
  | GWaitOnRefuse g => Hwait g (gate_induction g)
  | GTierPriority g l => Htier g l (gate_induction g)
  | GComposite gs =>
      Hcomp gs ((fix go gs : Forall P gs := match gs with
                              | [] => Forall_nil_2 P
                              | g :: gs' => Forall_cons_2 P g gs' (gate_induction g) (go gs')
                              end) gs)
  end.
End gate_induction.

(** ** Accounting: what a gate acquires, a release gives back *)
Section accounting.
Context {QS Slot : Type} `{EqDecision Slot} `{!QuotaStore QS Slot} `{!QuotaStoreLaws QS Slot}.

#[export] Instance release_eq_dec : EqDecision (release Slot).
Proof. solve_decision. Defined.

Definition held (st : GateState QS) (x : release Slot) : Z :=
  match x with
  | RelLocal id => in_flight st id
  | RelSlot s => slots_held (quotas st) s
  end.

Definition occurrences (x : release Slot) (l : list (release Slot)) : Z :=
  Z.of_nat (length (filter (fun y => y = x) l)).

Lemma occurrences_nil x : occurrences x [] = 0.
Proof. done. Qed.
Lemma occurrences_cons x y l : occurrences x (y :: l) = (if decide (y = x) then 1 else 0) + occurrences x l.
Proof. unfold occurrences. rewrite filter_cons. case_decide; simpl; lia. Qed.
Lemma occurrences_app x l l' : occurrences x (l ++ l') = occurrences x l + occurrences x l'.
Proof. unfold occurrences. rewrite filter_app, length_app. lia. Qed.

Lemma in_flight_add (st : GateState QS) id d id' :
  in_flight (add_in_flight id d st) id' = in_flight st id' + if decide (id = id') then d else 0.
Proof.
  unfold in_flight, add_in_flight. simpl. case_decide as E.
  - subst. by rewrite lookup_insert_eq.
  - rewrite lookup_insert_ne by done. lia.
Qed.

Lemma held_run_release y st x : held (run_release y st) x = held st x - if decide (y = x) then 1 else 0.
Proof.
  destruct y as [id|s], x as [id'|s']; cbn [held run_release].
  - rewrite in_flight_add. repeat case_decide; simplify_eq; lia.
  - case_decide; simplify_eq. cbn. lia.
  - case_decide; simplify_eq. unfold in_flight. cbn. lia.
  - cbn [quotas]. rewrite release_held. repeat case_decide; simplify_eq; lia.
Qed.

Lemma held_releases l st x : held (ReleaseGateReleases l st) x = held st x - occurrences x l.
Proof.
  unfold ReleaseGateReleases. induction l as [|y l IH]; cbn [foldr]; [rewrite occurrences_nil; lia|].
  rewrite held_run_release, IH, occurrences_cons. lia.
Qed.

(** [r'] comes from [r] by acquiring exactly the resources [new] releases. *)
Definition acquired (r r' : GateRun QS Slot) (rels new : list (release Slot)) : Prop :=
  gr_releases r = Some rels /\ gr_releases r' = Some (rels ++ new)
  /\ forall x, held (gr_state r') x = held (gr_state r) x + occurrences x new.

Definition admits (v : Res GateErr Verdict) : bool :=
  match v with
  | Ok v => bool_decide (v_Action v = ActionContinue)
  | Err _ => false
  end.

(** [f] acquires exactly what its new releases give back, and nothing at all
    unless it admits the request. *)
Definition balanced (f : GateRun QS Slot -> GateRun QS Slot * Res GateErr Verdict) : Prop :=
  forall r rels, gr_releases r = Some rels ->
  exists new, acquired r (f r).1 rels new /\ (admits (f r).2 = false -> new = []).

Lemma acquired_refl r rels : gr_releases r = Some rels -> acquired r r rels [].
Proof. intros E. split_and!; [done|by rewrite app_nil_r|]. intros x. rewrite occurrences_nil. lia. Qed.

Lemma acquired_trans r r1 r2 rels new new' :
  acquired r r1 rels new -> acquired r1 r2 (rels ++ new) new' -> acquired r r2 rels (new ++ new').
Proof.
  intros (H1 & H2 & H3) (H4 & H5 & H6). split_and!; [done|by rewrite app_assoc|].
  intros x. rewrite H6, H3, occurrences_app. lia.
Qed.

Lemma rollback_acquired r r' rels new :
  acquired r r' rels new -> acquired r (rollback (length rels) r') rels [].
Proof.
  intros (H1 & H2 & H3). unfold rollback. rewrite H2. split_and!; [done| |].
  - simpl. by rewrite take_app_length, app_nil_r.
  - intros x. simpl. rewrite drop_app_length, held_releases, H3, occurrences_nil. lia.
Qed.

Lemma chain_balanced apply gates :
  Forall (fun g => balanced (apply g)) gates ->
  forall r0 r rels new, acquired r0 r rels new ->
  exists new', acquired r0 (ApplyChain_from apply (length rels) gates r).1 rels new'
    /\ (admits (ApplyChain_from apply (length rels) gates r).2 = false -> new' = []).
Proof.
  induction 1 as [|g gates Hg _ IH]; intros r0 r rels new Hacq; cbn [ApplyChain_from]; [by exists new|].
  destruct (Hg r (rels ++ new)) as (new1 & H1 & _); [apply Hacq|].
  destruct (apply g r) as [r1 v]. pose proof (acquired_trans _ _ _ _ _ _ Hacq H1) as H2.
  assert (acquired r0 (rollback (length rels) r1) rels []) by by eapply rollback_acquired.
  destruct v as [v|e]; [|by exists []].
  case_bool_decide; [by apply (IH r0 r1 rels (new ++ new1))|by exists []].
Qed.

Lemma ApplyChain_balanced apply gates :
  Forall (fun g => balanced (apply g)) gates -> balanced (ApplyChain apply gates).
Proof.
  intros H r rels E. unfold ApplyChain. rewrite E. simpl.
  by apply (chain_balanced apply gates H r r rels []), acquired_refl.
Qed.

Lemma push_acquired r rels x st msg :
  gr_releases r = Some rels ->
  (forall y, held st y = held (gr_state r) y + if decide (x = y) then 1 else 0) ->
  acquired r (push_release (mkGateRun st msg (gr_releases r)) x) rels [x].
Proof.
  intros E Hst. split_and!; [done|by simpl; rewrite E|].
  intros y. simpl. rewrite Hst, occurrences_cons, occurrences_nil. lia.
Qed.

Lemma local_balanced env id limit mode : balanced (apply_local env id limit mode).
Proof.
  intros r rels E. unfold apply_local.
  assert (acquired r (push_release (with_state r (add_in_flight id 1 (gr_state r))) (RelLocal id)) rels [RelLocal id]).
  { apply push_acquired; [done|]. intros [id'|s]; cbn [held with_state].
    - rewrite in_flight_add. repeat case_decide; simplify_eq; lia.
    - case_decide; simplify_eq. cbn. lia. }
  repeat case_match; simpl; (eexists; split; [first [eassumption|by apply acquired_refl]|done]).
Qed.

(** The slot an answer of the quota store carries. *)
Definition answer_slot (res : Res GateErr (bool * option Slot)) : option Slot :=
  match res with
  | Ok (_, slot) => slot
  | Err _ => None
  end.

Lemma quota_ask_held mode key limit window qs x :
  slots_held (quota_ask mode key limit window qs).1 x
  = slots_held qs x + match answer_slot (quota_ask mode key limit window qs).2 with
                      | Some s => if decide (s = x) then 1 else 0
                      | None => 0
                      end.
Proof.
  unfold quota_ask. destruct mode.
  - pose proof (admit_held key limit window qs x).
    destruct (Admit _ _ _ _) as [q' [b|e]]; simpl in *; lia.
  - pose proof (acquire_held key limit qs x).
    destruct (AcquireSlot _ _ _) as [q' [[s|]|e]]; simpl in *; lia.
  - simpl. lia.
Qed.

Lemma quota_ask_refused mode key limit window qs slot :
  (quota_ask mode key limit window qs).2 = Ok (false, slot) -> slot = None.
Proof.
  unfold quota_ask. destruct mode; [destruct (Admit _ _ _ _) as [? []]|destruct (AcquireSlot _ _ _) as [? [[]|]]|];
    naive_solver.
Qed.

(** A change of the quota store that hands out [slot]. *)
Lemma quota_acquired r rels qs' slot msg :
  gr_releases r = Some rels ->
  (forall x, slots_held qs' x = slots_held (quotas (gr_state r)) x
             + match slot with Some s => if decide (s = x) then 1 else 0 | None => 0 end) ->
  let r' := mkGateRun (mkGateState (inFlight (gr_state r)) qs') msg (gr_releases r) in
  exists new, acquired r (match slot with Some s => push_release r' (RelSlot s) | None => r' end) rels new
    /\ (slot = None -> new = []).
Proof.
  intros E Hq r'. destruct slot as [s|].
  - exists [RelSlot s]. split; [|done]. apply push_acquired; [done|]. intros [id|s']; cbn [held].
    + rewrite decide_False by done. unfold in_flight. cbn. lia.
    + cbn [quotas]. rewrite Hq. repeat case_decide; simplify_eq; lia.
  - exists []. split; [|done]. split_and!; [done|by rewrite app_nil_r|].
    intros [id|s']; cbn [held gr_state r']; rewrite occurrences_nil; [unfold in_flight; cbn; lia|apply Hq].
Qed.

Lemma quota_balanced attribute mode gating limit window prefix :
  balanced (apply_quota attribute mode gating limit window prefix).
Proof.
  intros r rels E. unfold apply_quota. destruct (ir_view (gr_msg r)) as [m|]; [|exists []; by split; [apply acquired_refl|]].
  destruct (rm_Metadata m !! attribute) as [val|]; [|exists []; by split; [apply acquired_refl|]].
  set (key := quota_key prefix attribute val).
  pose proof (quota_ask_held mode key limit window (quotas (gr_state r))) as Hq.
  pose proof (quota_ask_refused mode key limit window (quotas (gr_state r))) as Hr.
  destruct (quota_ask _ _ _ _ _) as [qs' res]. simpl in Hq, Hr.
  pose proof (fun msg => quota_acquired r rels qs' (answer_slot res) msg E Hq) as Hacq.
  destruct res as [[[] slot]|e]; [|rewrite (Hr slot eq_refl) in Hacq|]; cbn [answer_slot] in Hacq;
    (edestruct Hacq as (new & H1 & H2); exists new; split; [exact H1|auto; done]).
Qed.

Lemma budget_balanced b : balanced (apply_budget b).
Proof. intros r rels E. exists []. by split; [apply acquired_refl|]. Qed.

Lemma Apply_balanced env g : balanced (Apply env g).
Proof.
  induction g as [| | | | | | |g IH|g l IH|gs IH] using gate_induction;
    try (intros r rels E; cbn [Apply]; first [by apply budget_balanced|by apply local_balanced|by apply quota_balanced]).
  - intros r rels E. destruct (IH r rels E) as (new & H & Hn). cbn [Apply].
    destruct (Apply env g r) as [r' [[[] ? ?]|e]]; exists new; auto.
  - intros r rels E. destruct (IH r rels E) as (new & H & Hn). cbn [Apply].
    destruct (Apply env g r) as [r' [[[] ? ?]|e]]; exists new; (split; [done|]); auto; done.
  - intros r rels E. by apply ApplyChain_balanced.
Qed.

(** ** Requests in flight

    Many requests pass the gates of a process; each runs its releases later,
    interleaved with the others.  [pending] holds the releases not run yet. *)
Inductive gate_event : Type :=
| EvApply (env : GateEnv) (g : gate) (msg : InternalRequest)
| EvRelease (i : nat).

Definition gate_event_step (s : GateState QS * list (release Slot)) (e : gate_event) :
    GateState QS * list (release Slot) :=
  let '(st, pending) := s in
  match e with
  | EvApply env g msg =>
      let r := (Apply env g (mkGateRun st msg (Some []))).1 in
      (gr_state r, pending ++ default [] (gr_releases r))
  | EvRelease i =>
      match pending !! i with
      | Some x => (run_release x st, delete i pending)
      | None => (st, pending)
      end
  end.

Definition gate_events (es : list gate_event) (st : GateState QS) : GateState QS * list (release Slot) :=
  foldl gate_event_step (st, []) es.

(** Every local gate of [g] has the limit [L] gives its counter. *)
Fixpoint gate_limits (L : nat -> Z) (g : gate) : bool :=
  match g with
  | GLocal id limit _ => limit =? L id
  | GWaitOnRefuse g | GTierPriority g _ => gate_limits L g
  | GComposite gs => forallb (gate_limits L) gs
  | _ => true
  end.

Definition event_limits (L : nat -> Z) (e : gate_event) : bool :=
  match e with
  | EvApply _ g _ => gate_limits L g
  | EvRelease _ => true
  end.

Definition in_limits (L : nat -> Z) (st : GateState QS) : Prop := forall id, in_flight st id <= Z.max 0 (L id).

Lemma occurrences_nonneg x l : 0 <= occurrences x l.
Proof. unfold occurrences. lia. Qed.

Lemma releases_in_limits L l st : in_limits L st -> in_limits L (ReleaseGateReleases l st).
Proof.
  intros H id. specialize (H id). pose proof (held_releases l st (RelLocal id)) as E. simpl in E.
  pose proof (occurrences_nonneg (RelLocal id) l). lia.
Qed.

Lemma rollback_in_limits L n (r : GateRun QS Slot) : in_limits L (gr_state r) -> in_limits L (gr_state (rollback n r)).
Proof. unfold rollback. destruct (gr_releases r); simpl; auto using releases_in_limits. Qed.

Lemma chain_in_limits L apply n gates :
  Forall (fun g => forall r, in_limits L (gr_state r) -> in_limits L (gr_state (apply g r).1)) gates ->
  forall r : GateRun QS Slot, in_limits L (gr_state r) -> in_limits L (gr_state (ApplyChain_from apply n gates r).1).
Proof.
  induction 1 as [|g gates Hg _ IH]; intros r Hr; cbn [ApplyChain_from]; [done|].
  specialize (Hg r Hr). destruct (apply g r) as [r1 [v|e]]; [case_bool_decide|];
    simpl in *; auto using rollback_in_limits.
Qed.

Lemma local_in_limits L env id mode (r : GateRun QS Slot) :
  in_limits L (gr_state r) -> in_limits L (gr_state (apply_local env id (L id) mode r).1).
Proof.
  intros Hr. unfold apply_local.
  assert (in_flight (gr_state r) id < L id -> in_limits L (add_in_flight id 1 (gr_state r))) as Hadd.
  { intros Hlt id'. rewrite in_flight_add. specialize (Hr id'). case_decide; subst; lia. }
  destruct (Z.leb_spec (L id) 0); [done|].
  destruct mode; destruct (Z.leb_spec (L id) (in_flight (gr_state r) id)); try destruct (env_done env); simpl; auto.
Qed.

Lemma quota_in_flight attribute mode gating limit window prefix (r : GateRun QS Slot) :
  inFlight (gr_state (apply_quota attribute mode gating limit window prefix r).1) = inFlight (gr_state r).
Proof.
  unfold apply_quota. by repeat (case_match; try done).
Qed.

Lemma Apply_in_limits L env g :
  gate_limits L g = true ->
  forall r : GateRun QS Slot, in_limits L (gr_state r) -> in_limits L (gr_state (Apply env g r).1).
Proof.
  induction g as [| | | | |i l m|a m gm l w p|g IH|g l IH|gs IH] using gate_induction; intros Hg r Hr; try exact Hr.
  - apply Z.eqb_eq in Hg as ->. by apply local_in_limits.
  - intros id. specialize (Hr id). unfold in_flight in *. cbn [Apply]. by rewrite quota_in_flight.
  - specialize (IH Hg r Hr). cbn [Apply]. by destruct (Apply env g r) as [r' v].
  - specialize (IH Hg r Hr). cbn [Apply]. destruct (Apply env g r) as [r' [v|e]]; repeat case_match; done.
  - apply chain_in_limits; [|done]. cbn in Hg. rewrite forallb_forall in Hg.
    rewrite Forall_forall in IH |- *. intros g Hin. apply IH; [done|]. by apply Hg, list_elem_of_In.
Qed.

#[local] Instance occurrences_proper x : Proper ((≡ₚ) ==> (=)) (occurrences x).
Proof. intros l l' E. unfold occurrences. by rewrite E. Qed.

Lemma occurrences_delete x i y l :
  l !! i = Some y -> occurrences x l = (if decide (y = x) then 1 else 0) + occurrences x (delete i l).
Proof.
  intros Hi. rewrite (delete_Permutation l i y Hi) at 1. apply occurrences_cons.
Qed.

Lemma gate_event_held s e x :
  held (gate_event_step s e).1 x - occurrences x (gate_event_step s e).2 = held s.1 x - occurrences x s.2.
Proof.
  destruct s as [st pending], e as [env g msg|i]; cbn [gate_event_step].
  - destruct (Apply_balanced env g (mkGateRun st msg (Some [])) [] eq_refl) as (new & (_ & E & H) & _).
    rewrite E. cbn [fst snd from_option id]. rewrite occurrences_app, (H x). simpl. lia.
  - destruct (pending !! i) as [y|] eqn:Hi; [|done]. cbn [fst snd].
    rewrite held_run_release, (occurrences_delete _ _ _ _ Hi). lia.
Qed.

Lemma gate_event_limits L s e :
  event_limits L e = true -> in_limits L s.1 -> in_limits L (gate_event_step s e).1.
Proof.
  destruct s as [st pending], e as [env g msg|i]; cbn [gate_event_step]; intros He Hs.
  - by apply (Apply_in_limits L env g He (mkGateRun st msg (Some []))).
  - destruct (pending !! i) as [y|] eqn:Hi; [|done]. by apply (releases_in_limits L [y]).
Qed.

Lemma gate_events_held es s x :
  held (foldl gate_event_step s es).1 x - occurrences x (foldl gate_event_step s es).2
  = held s.1 x - occurrences x s.2.
Proof.
  revert s. induction es as [|e es IH]; intros s; [done|]. cbn [foldl]. by rewrite IH, gate_event_held.
Qed.

Lemma gate_events_limits L es s :
  forallb (event_limits L) es = true -> in_limits L s.1 -> in_limits L (foldl gate_event_step s es).1.
Proof.
  revert s. induction es as [|e es IH]; intros s; [done|]. cbn [forallb]. intros [? ?]%andb_prop ?.
  cbn [foldl]. by apply IH, gate_event_limits.
Qed.

(** C30. Gates leak nothing and give nothing back twice: whatever requests a
    process passes through whatever gates, and however it interleaves the
    releases they left, a local counter or a quota slot is held exactly as
    often as there are releases of it left to run. *)
Theorem gates_account_exactly (st : GateState QS) (es : list gate_event) (x : release Slot) :
  held (gate_events es st).1 x = held st x + occurrences x (gate_events es st).2.
Proof.
  pose proof (gate_events_held es (st, []) x) as H. unfold gate_events.
  cbn [fst snd] in H. rewrite occurrences_nil in H. lia.
Qed.

(** A local concurrency gate never has more requests in flight than its
    limit, whatever other gates it is composed with. *)
Theorem local_gate_limit (L : nat -> Z) (st : GateState QS) (es : list gate_event) (id : nat) :
  (forall i, in_flight st i = 0) -> forallb (event_limits L) es = true ->
  0 <= in_flight (gate_events es st).1 id <= Z.max 0 (L id).
Proof.
  intros H0 Hes. split.
  - pose proof (gate_events_held es (st, []) (RelLocal id)) as H. cbn [held fst snd] in H.
    rewrite occurrences_nil, H0 in H. unfold gate_events.
    pose proof (occurrences_nonneg (RelLocal id) (foldl gate_event_step (st, []) es).2). lia.
  - apply (gate_events_limits L es (st, []) Hes). intros i. simpl. rewrite H0. lia.
Qed.

(** A gate that does not admit a request (a drop, a refusal, a wait or an
    error) leaves the request's releases as they were and holds nothing of its
    own, a composite gate included: what its first gates took is rolled back. *)
Theorem refusal_holds_nothing (env : GateEnv) (g : gate) (r : GateRun QS Slot) (rels : list (release Slot)) :
  gr_releases r = Some rels -> admits (Apply env g r).2 = false ->
  gr_releases (Apply env g r).1 = Some rels
  /\ forall x, held (gr_state (Apply env g r).1) x = held (gr_state r) x.
Proof.
  intros E Ha. destruct (Apply_balanced env g r rels E) as (new & (_ & H1 & H2) & Hn).
  rewrite (Hn Ha) in *. split; [by rewrite H1, app_nil_r|]. intros x. rewrite H2, occurrences_nil. lia.
Qed.
End accounting.

(** ** Budgets stay in the unit interval *)

(** NaN, or between 0 and 1. *)
Definition in_unit (f : float64) : bool := isNaN f || (fle (Fin 0) f && fle f (Fin 1)).

(** What the leaves of a gate tree were built with: a dispatch function that
    keeps to the interval and a clamped fallback ([NewMetricDispatchGate]). *)
Fixpoint unit_leaves (env : GateEnv) (g : gate) : bool :=
  match g with
  | GFunc f => in_unit (env_func env f)
  | GMetric _ _ fb => in_unit fb
  | GWaitOnRefuse g | GTierPriority g _ => unit_leaves env g
  | GComposite gs => forallb (unit_leaves env) gs
  | _ => true
  end.

(** Case analysis on the rational comparisons of the goal. *)
Ltac q_cases :=
  repeat match goal with
  | |- context [Qle_bool ?x ?y] =>
      let E := fresh "E" in
      destruct (Qle_bool x y) eqn:E; [apply Qle_bool_iff in E|apply Qle_bool_false in E]; cbn -[Qle_bool]
  end; try done; exfalso; lra.

Lemma clamp_in_unit f : in_unit (fmax (Fin 0) (fmin (Fin 1) f)) = true /\ in_unit (fmin (Fin 1) (fmax (Fin 0) f)) = true.
Proof.
  destruct f as [| | |q]; try done. split; cbn -[Qle_bool]; q_cases.
Qed.

Lemma metric_in_unit env src t fb : in_unit fb = true -> in_unit (metric_budget env src t fb) = true.
Proof.
  intros Hfb. unfold metric_budget. destruct (env_query env src) as [[|v ?]|]; try done.
  destruct (isNaN v || isInf v); [done|]. destruct (fle v t); [done|]. apply clamp_in_unit.
Qed.

Lemma redis_in_unit b : in_unit (redis_budget b) = true.
Proof. destruct b as [| | |[| | |q]]; try done. cbn -[Qle_bool]. q_cases. Qed.

Lemma local_in_unit limit n : 0 <= n -> in_unit (local_budget limit n) = true.
Proof.
  intros Hn. unfold local_budget. destruct (Z.leb_spec limit 0); [done|]. destruct (Z.leb_spec limit n); [done|].
  assert (0 < inject_Z limit)%Q as Hl by (change 0%Q with (inject_Z 0); rewrite <- Zlt_Qlt; lia).
  assert (0 <= inject_Z (limit - n) / inject_Z limit)%Q as Hq0.
  { apply Qle_shift_div_l; [done|]. rewrite Qmult_0_l. change 0%Q with (inject_Z 0). rewrite <- Zle_Qle. lia. }
  assert (inject_Z (limit - n) / inject_Z limit <= 1 # 1)%Q as Hq1.
  { apply Qle_shift_div_r; [done|]. rewrite Qmult_1_l, <- Zle_Qle. lia. }
  unfold in_unit, fle. cbn [isNaN orb]. apply andb_true_intro. split; apply Qle_bool_iff.
  - by apply frnd_nonneg.
  - apply (frnd_le _ 1 0); [done|lia| |done]. apply Qle_lt_trans with 1%Q; [done|]. done.
Qed.

Lemma flt_in_unit a b : in_unit a = true -> in_unit b = true -> in_unit (if flt a b then a else b) = true.
Proof. by destruct (flt a b). Qed.

(** The budget of any gate is NaN or between 0 and 1: a metric is clamped,
    a local gate reports its free share, a composite the least of its gates. *)
Theorem Budget_in_unit {QS : Type} (env : GateEnv) (st : GateState QS) (g : gate) :
  (forall id, 0 <= in_flight st id) -> unit_leaves env g = true -> in_unit (Budget env st g) = true.
Proof.
  intros Hst. induction g as [| |s t f| | |i l m|a m gm l w p|g IH|g l IH|gs IH] using gate_induction;
    intros Hg; try done; cbn [Budget].
  - by apply metric_in_unit.
  - unfold binary_budget. by repeat case_match.
  - apply redis_in_unit.
  - by apply local_in_unit.
  - by apply IH.
  - by apply IH.
  - destruct gs as [|g0 gs']; [done|]. cbn in Hg. change (forallb (unit_leaves env) (g0 :: gs') = true) in Hg.
    revert Hg IH. generalize (g0 :: gs') (Fin 1) (eq_refl : in_unit (Fin 1) = true). clear g0 gs'.
    induction l as [|g gs IHgs]; intros b Hb Hg IH; [done|]. cbn [foldl forallb] in *.
    apply andb_prop in Hg as [Hg1 Hg2]. apply Forall_cons in IH as [IH1 IH2].
    apply IHgs; [|done|done]. apply flt_in_unit; auto.
Qed.

(** ** An in-memory quota store, for the witnesses

    A slot is a key and a serial number; [mem_next] numbers the next slot. *)
Record MemQuota : Type := mkMemQuota { mem_slots : gmap (string * nat) Z; mem_next : nat }.

Definition mem_add (s : string * nat) (d : Z) (q : MemQuota) : MemQuota :=
  mkMemQuota (<[s := default 0 (mem_slots q !! s) + d]> (mem_slots q)) (mem_next q).

Definition mem_used (key : string) (q : MemQuota) : Z :=
  Z.of_nat (count_where (fun s n => bool_decide (s.1 = key) && (0 <? n)) (mem_slots q)).

#[export] Instance mem_quota : QuotaStore MemQuota (string * nat) := {
  AcquireSlot key limit q :=
    if mem_used key q <? limit
    then let s := (key, mem_next q) in
         let q' := mem_add s 1 q in
         (mkMemQuota (mem_slots q') (S (mem_next q)), Ok (Some s))
    else (q, Ok None);
  ReleaseSlot s q := mem_add s (-1) q;
  Admit key limit window q := (q, Ok (0 <? limit))
}.

Lemma mem_add_held s d q x :
  default 0 (mem_slots (mem_add s d q) !! x) = default 0 (mem_slots q !! x) + if decide (s = x) then d else 0.
Proof.
  simpl. case_decide; [subst; by rewrite lookup_insert_eq|]. rewrite lookup_insert_ne by done. lia.
Qed.

#[export] Instance mem_quota_laws : QuotaStoreLaws MemQuota (string * nat).
Proof.
  refine {| slots_held q s := default 0 (mem_slots q !! s) |}.
  - intros key limit q x. cbn [AcquireSlot mem_quota]. destruct (mem_used key q <? limit); [|simpl; lia].
    cbn [fst snd mem_slots]. apply (mem_add_held (key, mem_next q) 1 q x).
  - intros s q x. cbn [ReleaseSlot mem_quota]. rewrite mem_add_held. case_decide; lia.
  - done.
Defined.

Definition w_quota_request : InternalRequest :=
  NewInternalRequest zeroRouting
    (PlainRequest (Some (mkRequestMessage "r1" 0 0 RawNil {["user" := "u1"]} ∅ "" ""))).
Definition w_gate_env : GateEnv :=
  mkGateEnv (fun _ => Fin 1) (fun _ => Ok [Fin (1 # 2)]) (fun _ => ReadNil) false.
Definition w_gate_state : GateState MemQuota := mkGateState ∅ (mkMemQuota ∅ 0).

(** A quota of two slots per user, then a local gate of one. *)
Definition w_composite : gate :=
  GComposite [GQuota "user" QuotaModeConcurrency GatingModeBlocking 2 0 "quota:"; GLocal 0 1 GatingModeClassifying].
Definition w_gate_events : list gate_event :=
  [EvApply w_gate_env w_composite w_quota_request; EvApply w_gate_env w_composite w_quota_request; EvRelease 0].

Lemma gates_account_exactly_witness :
  (gate_events w_gate_events w_gate_state).2 = [RelLocal 0%nat]
  /\ held (gate_events w_gate_events w_gate_state).1 (RelLocal 0%nat) = 1.
Proof. split; [by_vm|]. rewrite (gates_account_exactly w_gate_state w_gate_events (RelLocal 0%nat)). by_vm. Defined.

Lemma local_gate_limit_witness :
  0 <= in_flight (gate_events w_gate_events w_gate_state).1 0%nat <= 1.
Proof.
  apply (local_gate_limit (fun _ => 1) w_gate_state w_gate_events 0%nat); [|by_vm].
  intros i. unfold in_flight. simpl. by rewrite lookup_empty.
Defined.

Definition w_full_run : GateRun MemQuota (string * nat) :=
  mkGateRun (gate_events [EvApply w_gate_env w_composite w_quota_request] w_gate_state).1 w_quota_request (Some []).

Lemma refusal_holds_nothing_witness :
  admits (Apply w_gate_env w_composite w_full_run).2 = false
  /\ gr_releases (Apply w_gate_env w_composite w_full_run).1 = Some [].
Proof.
  split; [by_vm|]. apply (refusal_holds_nothing w_gate_env w_composite w_full_run []); by_vm.
Defined.

Lemma Budget_in_unit_witness :
  in_unit (Budget w_gate_env w_gate_state (GComposite [NewSaturationDispatchGate 0 (Fin (3 # 4)) NaN; w_composite])) = true.
Proof.
  apply Budget_in_unit; [|by_vm]. intros i. unfold in_flight. simpl. rewrite lookup_empty. simpl. lia.
Defined.
