(* ===== verification/SqlFlow.v ===== *)
(** * The SQL transport flow

    [pkg/sqlflow/flow.go]: a poll of one queue ([processQueue],
    [dispatchPolled]), the routing it stamps, the gate releases it tracks, and
    the workers that settle retries and results ([retryWorker],
    [resultWorker]) with their bounded retries.  Decoding an envelope
    ([json.Unmarshal]), the outcome of each gate and the way each channel
    [select] goes are arguments; the store is the one of SqlStore.v behind the
    consumer of SqlConsumer.v, with its faults and interference. *)
From stdpp Require Import prelude gmap strings list sorting.
From Stdlib Require Import ZArith QArith Qround Lia.
From S2P Require Import Prelude Rounding Api QueueSpec SqlStore SqlSafety SqlMethods SqlConsumer Gates.

#[local] Open Scope Z_scope.
#[local] Open Scope cm_scope.

Record QueueConfig : Type := mkQueueConfig {
  qc_ID : string;
  qc_QueueName : string;
  qc_ResultQueueName : string;
  qc_ResultTTLSeconds : Z;
  qc_WorkerPoolID : string;
  qc_InferenceObjective : string;
  qc_RequestPathURL : string;
  qc_IGWBaseURL : string;
  qc_GateType : string;
  qc_Labels : gmap string string
}.

(** ** Routing *)
Definition or_else (s t : string) : string := if decide (s = "") then t else s.

Definition stampRouting (cfg : QueueConfig) (rt : InternalRouting) : InternalRouting :=
  let res := rt_ResultRoutingResolved rt in
  mkInternalRouting (rt_RetryCount rt) (or_else (rt_QueueID rt) (qc_ID cfg)) (rt_RequestToken rt)
    (rt_DispatchAttempt rt) (or_else (rt_RequestQueueName rt) (qc_QueueName cfg))
    (if res then rt_ResultQueueName rt else or_else (qc_ResultQueueName cfg) (rt_ResultQueueName rt))
    (if res then rt_ResultTTLSeconds rt else qc_ResultTTLSeconds cfg)
    true (rt_TransportCorrelationID rt) (rt_EnqueueSeq rt) (rt_PayloadRef rt)
    (merge_over (rt_Labels rt) (qc_Labels cfg)).

Definition set_token (rt : InternalRouting) (token : string) : InternalRouting :=
  mkInternalRouting (rt_RetryCount rt) (rt_QueueID rt) token (rt_DispatchAttempt rt)
    (rt_RequestQueueName rt) (rt_ResultQueueName rt) (rt_ResultTTLSeconds rt)
    (rt_ResultRoutingResolved rt) (rt_TransportCorrelationID rt) (rt_EnqueueSeq rt)
    (rt_PayloadRef rt) (rt_Labels rt).

Definition set_attempt (rt : InternalRouting) (a : Z) : InternalRouting :=
  mkInternalRouting (rt_RetryCount rt) (rt_QueueID rt) (rt_RequestToken rt) a
    (rt_RequestQueueName rt) (rt_ResultQueueName rt) (rt_ResultTTLSeconds rt)
    (rt_ResultRoutingResolved rt) (rt_TransportCorrelationID rt) (rt_EnqueueSeq rt)
    (rt_PayloadRef rt) (rt_Labels rt).

Definition map_routing (f : InternalRouting -> InternalRouting) (ir : InternalRequest) : InternalRequest :=
  mkInternalRequest (f (ir_Routing ir)) (ir_Public ir) (ir_Ingestion ir).

Definition set_ingestion (t : Z) (ir : InternalRequest) : InternalRequest :=
  mkInternalRequest (ir_Routing ir) (ir_Public ir) t.

Definition zeroMessage : RequestMessage := mkRequestMessage "" 0 0 RawNil ∅ ∅ "" "".

(** The accessors of a request that parsed: its pointer is not nil. *)
Definition view (ir : InternalRequest) : RequestMessage := default zeroMessage (ir_view ir).

Definition ir_stamp (ir : InternalRequest) : Stamp :=
  mkStamp (mkKey (rm_ID (view ir)) (rt_RequestToken (ir_Routing ir))) (rt_DispatchAttempt (ir_Routing ir)).

(** ** A poll *)
Record gateOutcome : Type := mkOutcome {
  go_verdict : Verdict;
  go_releases : list nat;      (* the release functions the gates handed out *)
  go_err : bool;
  go_ir : InternalRequest      (* the request, as the gates left it *)
}.

Record polled : Type := mkPolled {
  pl_row : SqlStore.Request;
  pl_ir : option InternalRequest;
  pl_expired : bool;
  pl_gated : option gateOutcome
}.

(** What the flow holds while it polls: [activeReleases], the release
    functions that have run, what it has sent on the result channel and on the
    queue's channel, and what the poll gives back.  [f_selects] says of each
    select whether the send won ([true]) or the context had ended. *)
Record FlowSt : Type := mkFlowSt {
  f_active : gmap Stamp (list nat);
  f_released : list nat;
  f_results : list ResultMessage;
  f_sent : list InternalRequest;
  f_now : list Stamp;
  f_later : list Stamp;
  f_selects : list bool
}.

Definition set_active (st : FlowSt) (a : gmap Stamp (list nat)) (r : list nat) : FlowSt :=
  mkFlowSt a r (f_results st) (f_sent st) (f_now st) (f_later st) (f_selects st).
Definition set_back (st : FlowSt) (now later : list Stamp) : FlowSt :=
  mkFlowSt (f_active st) (f_released st) (f_results st) (f_sent st) now later (f_selects st).
Definition set_out (st : FlowSt) (res : list ResultMessage) (sent : list InternalRequest) : FlowSt :=
  mkFlowSt (f_active st) (f_released st) res sent (f_now st) (f_later st) (f_selects st).

Definition select_send (st : FlowSt) : bool * FlowSt :=
  (default true (head (f_selects st)),
   mkFlowSt (f_active st) (f_released st) (f_results st) (f_sent st) (f_now st) (f_later st) (tail (f_selects st))).

Definition ReleaseGateReleases (rels : list nat) (st : FlowSt) : FlowSt :=
  set_active st (f_active st) (f_released st ++ rels).

Definition trackGateReleases (stamp : Stamp) (rels : list nat) (st : FlowSt) : FlowSt :=
  set_active st (<[stamp := rels]> (f_active st)) (f_released st ++ default [] (f_active st !! stamp)).

Definition releaseGateReleases (stamp : Stamp) (st : FlowSt) : FlowSt :=
  set_active st (delete stamp (f_active st)) (f_released st ++ default [] (f_active st !! stamp)).

Definition back_now (s : Stamp) (st : FlowSt) : FlowSt := set_back st (f_now st ++ [s]) (f_later st).
Definition back_later (s : Stamp) (st : FlowSt) : FlowSt := set_back st (f_now st) (f_later st ++ [s]).

Section flow.
Context (unmarshal : string -> option InternalRequest).

Definition parseRequest (row : SqlStore.Request) : option InternalRequest :=
  match unmarshal (req_Envelope row) with
  | None => None
  | Some ir =>
      match ir_Public ir with
      | None => None
      | Some _ =>
          match AttachPayload (Some ir) (RawBytes (req_Payload row)) with
          | Err _ => None
          | Ok ir' => Some (map_routing (fun rt => set_token rt (or_else (rt_RequestToken rt) (req_Token row))) ir')
          end
      end
  end.

(** The first loop of processQueue: parse, stamp, and gate what neither
    expired nor was cancelled. *)
Definition poll_entry (cfg : QueueConfig) (gate : InternalRequest -> gateOutcome) (now : Z)
    (row : SqlStore.Request) : polled :=
  match parseRequest row with
  | None => mkPolled row None false None
  | Some ir0 =>
      let ir := map_routing (fun rt => stampRouting cfg (set_attempt rt (req_Attempt row))) ir0 in
      if req_Deadline row <? now then mkPolled row (Some ir) true None
      else if req_Cancelled row then mkPolled row (Some ir) false None
      else mkPolled row (Some ir) false (Some (gate ir))
  end.

(** emit, giving the request back when the context ended first. *)
Definition emit (row : SqlStore.Request) (r : ResultMessage) (st : FlowSt) : bool * FlowSt :=
  let '(sent, st1) := select_send st in
  if sent then (true, set_out st1 (f_results st1 ++ [r]) (f_sent st1))
  else (false, back_now (request_Stamp row) st1).

Definition unparsable (cfg : QueueConfig) (row : SqlStore.Request) : ResultMessage :=
  let rt := stampRouting cfg (set_attempt (set_token zeroRouting (req_Token row)) (req_Attempt row)) in
  NewErrorResult (mkRequestMessage (req_ID row) 0 0 RawNil ∅ ∅ "" "") rt ErrCodeInvalidRequest
    "unparsable queued request".

Definition drop_result (out : gateOutcome) (ir : InternalRequest) : ResultMessage :=
  match v_Result (go_verdict out) with
  | Some r => mkResultMessage (res_ID r) (res_StatusCode r) (res_Payload r) (res_ErrorCode r)
                (res_ErrorMessage r) (ir_Routing ir) (res_Metadata r)
  | None => NewGateDroppedResult (view ir) (ir_Routing ir)
  end.

Definition dispatchPolled (cfg : QueueConfig) (ingestion : Z) (e : polled) (st : FlowSt) : bool * FlowSt :=
  let row := pl_row e in
  match pl_ir e with
  | None => emit row (unparsable cfg row) st
  | Some ir =>
      if pl_expired e then emit row (NewDeadlineExceededResult (view ir) (ir_Routing ir)) st
      else
        match pl_gated e with
        | None => emit row (NewCancelledResult (view ir) (ir_Routing ir)) st
        | Some out =>
            let ir := go_ir out in
            if go_err out then (true, back_later (request_Stamp row) (ReleaseGateReleases (go_releases out) st))
            else
              match v_Action (go_verdict out) with
              | ActionRefuse => (true, back_later (request_Stamp row) (ReleaseGateReleases (go_releases out) st))
              | ActionDrop => emit row (drop_result out ir) (ReleaseGateReleases (go_releases out) st)
              | _ =>
                  let st1 := match go_releases out with
                             | [] => st
                             | rels => trackGateReleases (ir_stamp ir) rels st
                             end in
                  let '(sent, st2) := select_send st1 in
                  if sent then (true, set_out st2 (f_results st2) (f_sent st2 ++ [set_ingestion ingestion ir]))
                  else (false, back_now (request_Stamp row) (releaseGateReleases (ir_stamp ir) st2))
              end
        end
  end.

(** The requests behind the one the context ended on. *)
Definition give_back (st : FlowSt) (e : polled) : FlowSt :=
  back_now (request_Stamp (pl_row e))
    (ReleaseGateReleases (match pl_gated e with Some out => go_releases out | None => [] end) st).

Fixpoint dispatch_loop (cfg : QueueConfig) (ingestion : Z) (es : list polled) (st : FlowSt) : FlowSt :=
  match es with
  | [] => st
  | e :: rest =>
      let '(ok, st1) := dispatchPolled cfg ingestion e st in
      if ok then dispatch_loop cfg ingestion rest st1 else foldl give_back st1 rest
  end.

(** int(math.Floor(float64(batchSize) * budget)); a conversion out of range
    gives the least integer, as on amd64. *)
Definition pollBatch (batchSize : Z) (budget : float64) : Z :=
  match budget with
  | Fin q => Qfloor (fmul64 (inject_Z batchSize) q)
  | _ => - 2 ^ 63
  end.

(** processQueue: [now] is the clock of the poll, [then_] of the gating,
    [after] of the return.  A closed gate only counts the queue for a metric. *)
Definition processQueue (cfg : QueueConfig) (gate : InternalRequest -> gateOutcome)
    (budget : float64) (batchSize pollInterval now then_ ingestion after : Z) (locked : Key -> bool) (st : FlowSt) : CM FlowSt :=
  let limit := pollBatch batchSize budget in
  if limit <=? 0 then
    cm> cm_call (HasRequests (qc_QueueName cfg)); cm_ret st
  else
    cm! r <- Poll now limit locked;
    match r with
    | Err _ => cm_ret st
    | Ok rows =>
        let st1 := dispatch_loop cfg ingestion (poll_entry cfg gate (Unix then_) <$> rows) (set_back st [] []) in
        cm> match f_now st1 with
            | [] => cm_ret []
            | ss => SqlConsumer.Undispatch ss
            end;
        cm> match f_later st1 with
            | [] => cm_ret []
            | ss => SqlConsumer.Defer ss (Unix (after + pollInterval) + 1)
            end;
        cm_ret st1
    end.
End flow.

(** ** Every polled request has one fate *)
Inductive fate : Type :=
| Delivered (ir : InternalRequest)
| Answered (r : ResultMessage)
| Returned
| Deferred.

(** The fate of a request, unless the context ends first. *)
Definition due (cfg : QueueConfig) (ingestion : Z) (e : polled) : fate :=
  match pl_ir e, pl_gated e with
  | None, _ => Answered (unparsable cfg (pl_row e))
  | Some ir, gated =>
      if pl_expired e then Answered (NewDeadlineExceededResult (view ir) (ir_Routing ir))
      else
        match gated with
        | None => Answered (NewCancelledResult (view ir) (ir_Routing ir))
        | Some out =>
            if go_err out then Deferred
            else
              match v_Action (go_verdict out) with
              | ActionRefuse => Deferred
              | ActionDrop => Answered (drop_result out (go_ir out))
              | _ => Delivered (set_ingestion ingestion (go_ir out))
              end
        end
  end.

Definition delivered_of (f : fate) : option InternalRequest :=
  match f with Delivered ir => Some ir | _ => None end.
Definition answered_of (f : fate) : option ResultMessage :=
  match f with Answered r => Some r | _ => None end.
Definition returned_of (ef : polled * fate) : option Stamp :=
  match ef.2 with Returned => Some (request_Stamp (pl_row ef.1)) | _ => None end.
Definition deferred_of (ef : polled * fate) : option Stamp :=
  match ef.2 with Deferred => Some (request_Stamp (pl_row ef.1)) | _ => None end.

(** What a run of the loop over [efs] has done to the flow. *)
Definition disposed (efs : list (polled * fate)) (st st' : FlowSt) : Prop :=
  f_sent st' = f_sent st ++ omap delivered_of efs.*2 /\
  f_results st' = f_results st ++ omap answered_of efs.*2 /\
  f_now st' = f_now st ++ omap returned_of efs /\
  f_later st' = f_later st ++ omap deferred_of efs.

Lemma disposed_cons ef efs st st1 st2 :
  disposed [ef] st st1 -> disposed efs st1 st2 -> disposed (ef :: efs) st st2.
Proof.
  intros (H1 & H2 & H3 & H4) (G1 & G2 & G3 & G4). change (ef :: efs) with ([ef] ++ efs).
  unfold disposed. rewrite fmap_app, !omap_app, !app_assoc. by rewrite <- H1, <- H2, <- H3, <- H4.
Qed.

(** ** Release functions *)
Definition held (st : FlowSt) : list nat := active_ids (f_active st) ++ f_released st.

Lemma track_held s rels st : held (trackGateReleases s rels st) ≡ₚ held st ++ rels.
Proof.
  unfold held, trackGateReleases; simpl. rewrite (Permutation_app_comm (f_released st)), app_assoc, active_ids_overwrite.
  solve_Permutation.
Qed.

Lemma release_held s st : held (releaseGateReleases s st) ≡ₚ held st.
Proof.
  unfold held, releaseGateReleases; simpl. rewrite <- (active_ids_delete (f_active st) s). solve_Permutation.
Qed.

Lemma release_rels_held rels st : held (ReleaseGateReleases rels st) ≡ₚ held st ++ rels.
Proof. unfold held; simpl. by rewrite app_assoc. Qed.

Definition rels_of (e : polled) : list nat :=
  match pl_gated e with Some out => go_releases out | None => [] end.

(** ** The loop *)
Section loop.
Context (cfg : QueueConfig) (ingestion : Z).

Lemma emit_spec row r st ok st' :
  emit row r st = (ok, st') ->
  held st' ≡ₚ held st /\
  (if ok then f_results st' = f_results st ++ [r] /\ f_now st' = f_now st
   else f_results st' = f_results st /\ f_now st' = f_now st ++ [request_Stamp row]
        /\ head (f_selects st) = Some false) /\
  f_sent st' = f_sent st /\ f_later st' = f_later st /\ f_selects st' = tail (f_selects st).
Proof.
  unfold emit, select_send. destruct (f_selects st) as [|[] sel]; simpl; intros [= <- <-]; simpl; split_and!; done.
Qed.

Lemma elem_of_tail {A : Type} (x : A) l : x ∈ tail l -> x ∈ l.
Proof. destruct l; [done|]. by right. Qed.

(** Only a request that parsed and did not expire went to the gate. *)
Definition well_polled (e : polled) : Prop :=
  is_Some (pl_gated e) -> is_Some (pl_ir e) /\ pl_expired e = false.

Lemma poll_entry_well unmarshal gate now row : well_polled (poll_entry unmarshal cfg gate now row).
Proof. unfold poll_entry, well_polled. repeat case_match; simpl; intros [? ?]; done. Qed.

(** One request: its due fate, or back to the queue because the context ended;
    the release functions its gates handed out are tracked or have run. *)
Definition step_spec (e : polled) (st : FlowSt) (ok : bool) (st' : FlowSt) : Prop :=
  disposed [(e, if ok then due cfg ingestion e else Returned)] st st' /\
  held st' ≡ₚ held st ++ rels_of e /\
  (ok = false \/ false ∈ f_selects st' -> false ∈ f_selects st).

Lemma emit_step e r st st1 ok st' :
  due cfg ingestion e = Answered r ->
  held st1 ≡ₚ held st ++ rels_of e ->
  f_results st1 = f_results st -> f_sent st1 = f_sent st -> f_now st1 = f_now st -> f_later st1 = f_later st ->
  f_selects st1 = f_selects st ->
  emit (pl_row e) r st1 = (ok, st') -> step_spec e st ok st'.
Proof.
  intros Hd Hh Hr Hse Hn Hl Hs He. apply emit_spec in He as (Hh' & Hok & Hse' & Hl' & Hsel).
  unfold step_spec, disposed. rewrite Hd, Hse', Hl', Hse, Hl, Hh', Hh.
  rewrite Hr, Hn, Hs in Hok. rewrite Hsel, Hs. destruct ok; simpl; rewrite ?app_nil_r.
  - destruct Hok as [-> ->]. split_and!; try done. intros [?|?]; [done|]. by apply elem_of_tail.
  - destruct Hok as (-> & -> & Hhd). split_and!; try done. intros _.
    destruct (f_selects st); [done|]. injection Hhd as ->. by left.
Qed.

Lemma defer_step e st :
  due cfg ingestion e = Deferred ->
  step_spec e st true (back_later (request_Stamp (pl_row e)) (ReleaseGateReleases (rels_of e) st)).
Proof.
  intros Hd. unfold step_spec, disposed. rewrite Hd; simpl. rewrite !app_nil_r. split_and!; try done; [apply release_rels_held|by intros [?|?]].
Qed.

Lemma deliver_step e ir st ok st' :
  due cfg ingestion e = Delivered (set_ingestion ingestion ir) ->
  (let st1 := match rels_of e with [] => st | rels => trackGateReleases (ir_stamp ir) rels st end in
   let '(sent, st2) := select_send st1 in
   if sent then (true, set_out st2 (f_results st2) (f_sent st2 ++ [set_ingestion ingestion ir]))
   else (false, back_now (request_Stamp (pl_row e)) (releaseGateReleases (ir_stamp ir) st2))) = (ok, st') ->
  step_spec e st ok st'.
Proof.
  intros Hd He. unfold step_spec, disposed. rewrite Hd.
  set (st1 := match rels_of e with [] => st | rels => trackGateReleases (ir_stamp ir) rels st end) in He.
  assert (held st1 ≡ₚ held st ++ rels_of e /\ f_results st1 = f_results st /\ f_sent st1 = f_sent st /\
    f_now st1 = f_now st /\ f_later st1 = f_later st /\ f_selects st1 = f_selects st) as (Hh & Hr & Hs & Hn & Hl & Hsel).
  { subst st1. destruct (rels_of e); [by rewrite app_nil_r|]. split_and!; try done. apply track_held. }
  clearbody st1. unfold select_send in He. rewrite <- Hh, <- Hr, <- Hs, <- Hn, <- Hl, <- Hsel.
  destruct (f_selects st1) as [|[] sel]; simpl in He; injection He as <- <-; simpl; rewrite ?app_nil_r; split_and!; try done.
  - by intros [?|?].
  - intros [?|?]; [done|by right].
  - etrans; [apply release_held|done].
  - intros _. by left.
Qed.

Lemma dispatchPolled_spec e st ok st' :
  well_polled e -> dispatchPolled cfg ingestion e st = (ok, st') -> step_spec e st ok st'.
Proof.
  intros Hw He. unfold dispatchPolled in He.
  assert (pl_gated e = None -> held st ≡ₚ held st ++ rels_of e) as Hnone.
  { intros Hg. unfold rels_of. by rewrite Hg, app_nil_r. }
  destruct (pl_ir e) as [ir|] eqn:Ei.
  2:{ assert (pl_gated e = None) as Hg.
      { destruct (pl_gated e) eqn:E; [|done]. destruct Hw as [[? ?] _]; [done|congruence]. }
      eapply emit_step; [|by apply Hnone|done|done|done|done|done|exact He]. unfold due. by rewrite Ei. }
  destruct (pl_expired e) eqn:Ex.
  { assert (pl_gated e = None) as Hg.
    { destruct (pl_gated e) eqn:E; [|done]. destruct Hw as [_ ?]; [done|congruence]. }
    eapply emit_step; [|by apply Hnone|done|done|done|done|done|exact He]. unfold due. by rewrite Ei, Ex. }
  destruct (pl_gated e) as [out|] eqn:Eg.
  2:{ eapply emit_step; [|by apply Hnone|done|done|done|done|done|exact He]. unfold due. by rewrite Ei, Ex, Eg. }
  assert (due cfg ingestion e = if go_err out then Deferred else
    match v_Action (go_verdict out) with
    | ActionRefuse => Deferred | ActionDrop => Answered (drop_result out (go_ir out))
    | _ => Delivered (set_ingestion ingestion (go_ir out)) end) as Hd.
  { unfold due. by rewrite Ei, Ex, Eg. }
  assert (rels_of e = go_releases out) as Hrel by (unfold rels_of; by rewrite Eg).
  destruct (go_err out); [injection He as <- <-; rewrite <- Hrel; by apply defer_step|].
  destruct (v_Action (go_verdict out)); rewrite <- ?Hrel in He.
  - by eapply deliver_step.
  - eapply emit_step; [exact Hd|apply release_rels_held|done|done|done|done|done|exact He].
  - injection He as <- <-. by apply defer_step.
  - by eapply deliver_step.
Qed.

Lemma give_back_all es : forall st,
  disposed ((fun e => (e, Returned)) <$> es) st (foldl give_back st es) /\
  held (foldl give_back st es) ≡ₚ held st ++ mjoin (rels_of <$> es).
Proof.
  induction es as [|e es IH]; intros st; simpl.
  { unfold disposed; simpl. rewrite !app_nil_r. done. }
  destruct (IH (give_back st e)) as [Hd Hh]. split.
  - eapply disposed_cons; [|exact Hd]. unfold disposed; simpl. by rewrite !app_nil_r.
  - rewrite Hh. unfold give_back at 1. change (held (back_now _ ?x)) with (held x).
    rewrite release_rels_held. by rewrite <- app_assoc.
Qed.

Lemma dispatch_loop_spec es : forall st,
  Forall well_polled es ->
  exists fates,
    length fates = length es /\
    disposed (zip es fates) st (dispatch_loop cfg ingestion es st) /\
    Forall (fun ef => ef.2 = due cfg ingestion ef.1 \/ (ef.2 = Returned /\ false ∈ f_selects st)) (zip es fates) /\
    held (dispatch_loop cfg ingestion es st) ≡ₚ held st ++ mjoin (rels_of <$> es).
Proof.
  induction es as [|e es IH]; intros st Hw; simpl.
  { exists []. split_and!; try done; unfold disposed; simpl; by rewrite ?app_nil_r. }
  inversion Hw as [|? ? He Hes]; subst.
  destruct (dispatchPolled cfg ingestion e st) as [ok st1] eqn:E.
  apply dispatchPolled_spec in E as (Hd & Hh & Hsel); [|done]. destruct ok.
  - destruct (IH st1 Hes) as (fates & Hlen & Hd' & Hf & Hh'). exists (due cfg ingestion e :: fates).
    split_and!; simpl; [by rewrite Hlen|by eapply disposed_cons| |].
    + constructor; [by left|]. eapply Forall_impl; [exact Hf|]. simpl. intros ef [?|[? ?]]; [by left|right; auto].
    + by rewrite Hh', Hh, <- app_assoc.
  - destruct (give_back_all es st1) as [Hd' Hh']. exists (Returned :: replicate (length es) Returned).
    assert (zip es (replicate (length es) Returned) = (fun e => (e, Returned)) <$> es) as Hz.
    { clear. induction es as [|e es IH]; simpl; [done|]. by rewrite IH. }
    split_and!; simpl; [by rewrite length_replicate| | |].
    + rewrite Hz. by eapply disposed_cons.
    + rewrite Hz. constructor; [right; auto|]. apply Forall_fmap, Forall_forall. intros e' _. right. simpl. auto.
    + by rewrite Hh', Hh, <- app_assoc.
Qed.
End loop.

(** ** A poll with a store that answers *)

(** [r] is in flight for [owner] under attempt [a]. *)
Definition stamped_row (st : Store) (owner : string) (k : Key) (a : Z) : Prop :=
  exists row p, requests st !! k = Some row /\ dispatch_attempt row = a /\ part_of st row = Some p /\
    p_owner p = owner /\ p_epoch p = dispatch_epoch row /\ 0 < dispatch_epoch row.

Lemma stamped_running st owner k a : owner <> "" -> stamped_row st owner k a -> sql_phase st k = Running (owner, a).
Proof.
  intros Ho (row & p & Hk & <- & Hp & <- & He & Hpos). unfold sql_phase.
  rewrite Hk, bool_decide_false, Hp, bool_decide_true, bool_decide_false by (done || lia). done.
Qed.

Lemma stamp_rows_stamped owner rows : forall st st' out,
  owner <> "" -> store_good st -> stampable st rows -> stamp_rows owner rows st = (st', out) ->
  partitions st' = partitions st /\
  (forall k, k ∉ rows.*1 -> requests st' !! k = requests st !! k) /\
  (forall r, r ∈ out -> request_Key r ∈ rows.*1 /\ stamped_row st' owner (request_Key r) (req_Attempt r)).
Proof.
  induction rows as [|[k r] rows IH]; intros st st' out Ho Hg Hs He.
  { injection He as <- <-. split_and!; [done|done|]. by intros ? ?%not_elem_of_nil. }
  rewrite stamp_rows_cons in He. pose proof Hs as [Hnd Hrows].
  rewrite fmap_cons in Hnd. apply NoDup_cons in Hnd as [Hni Hnd]. simpl in Hni.
  destruct (Hrows k r) as [Hk Hep]; [by left|].
  assert (forall st0 out0, stamp_rows owner rows st = (st0, out0) ->
    partitions st0 = partitions st /\ (forall k', k' ∉ k :: rows.*1 -> requests st0 !! k' = requests st !! k') /\
    (forall r0, r0 ∈ out0 -> request_Key r0 ∈ k :: rows.*1 /\ stamped_row st0 owner (request_Key r0) (req_Attempt r0))) as Hskip.
  { intros st0 out0 H0. destruct (IH _ _ _ Ho Hg (stampable_tail _ _ _ Hs) H0) as (Hp & Hk0 & Hr0).
    split_and!; [done| |]; [intros k' Hk'; apply Hk0; set_solver|].
    intros r0 [? ?]%Hr0. split; [by right|done]. }
  destruct (part_of st r) as [p|] eqn:Hp; [|by apply Hskip].
  destruct (bool_decide (p_owner p = owner) && negb (p_draining p)) eqn:Eo; [|by apply Hskip].
  apply andb_prop in Eo as [Eo%bool_decide_eq_true _]. subst owner.
  destruct (stamp_rows (p_owner p) rows (stamp_one st k r p)) as [st2 out2] eqn:E2. injection He as <- <-.
  destruct (IH _ _ _ Ho (stamp_one_good st k r p Hk Hp Ho Hg) (stampable_next _ _ _ _ _ Hs) E2) as (Hp2 & Hk2 & Hr2).
  simpl in Hp2. split_and!; [done| |].
  - intros k' Hk'. rewrite Hk2 by set_solver. simpl. rewrite lookup_insert_ne; [done|]. set_solver.
  - intros r0 [->|Hin]%elem_of_cons; [|destruct (Hr2 _ Hin); split; [by right|done]].
    destruct k as [id token]. split; [by left|]. simpl.
    exists (stamp_row r (p_epoch p) (attempts st + 1)), p.
    rewrite Hk2 by done. simpl. rewrite lookup_insert_eq. unfold part_of in *. rewrite Hp2. split_and!; try done.
    pose proof (good_parts _ Hg _ _ Hp) as [_ ?]. by auto.
Qed.

Lemma picked_stampable st owner q now limit locked : stampable st (picked_rows st owner q now limit locked).
Proof.
  split; [apply (NoDup_limit_where row_le)|]. intros k r Hin. apply picked_rows_ok in Hin as [Hk Hp]. simpl in *.
  split; [done|]. unfold pending_for in Hp. repeat (apply andb_prop in Hp as [Hp ?]). by eapply bool_decide_eq_true_1.
Qed.

Lemma Dispatch_stamped st q owner now limit locked :
  owner <> "" -> store_good st -> 0 <= limit ->
  exists st' rows, Dispatch q owner now limit locked (st, []) = (Ok rows, (st', [])) /\
    NoDup (request_Key <$> rows) /\
    forall r, r ∈ rows -> stamped_row st' owner (request_Key r) (req_Attempt r).
Proof.
  intros Ho Hg Hl. unfold Dispatch, db_bind, exec, f_call, async_dispatch. cbn [head tail].
  rewrite (proj2 (Z.ltb_ge limit 0)) by done.
  destruct (stamp_rows _ _ st) as [st' out] eqn:E. exists st', (merge_sort request_le out).
  split; [done|]. split.
  - rewrite merge_sort_Permutation. erewrite stamp_rows_out; [|  |exact E].
    + apply picked_stampable.
    + intros kr [_ Hp]%picked_rows_ok. by eapply pending_for_ok.
  - intros r. rewrite merge_sort_Permutation. intros Hr.
    eapply stamp_rows_stamped in E as (_ & _ & Hs); [|done|done|apply picked_stampable]. by apply Hs.
Qed.

(** A return of stamps: the listed requests its owner holds are pending, the
    others keep their rows. *)
Lemma undispatch_phase owner ss nb st :
  exists st', undispatch owner ss nb (st, []) = (Ok tt, (st', [])) /\
    (forall k a, stamped_row st owner k a ->
       if decide (mkStamp k a ∈ ss) then sql_phase st' k = Pending else stamped_row st' owner k a) /\
    (forall k, sql_phase st k = Pending -> sql_phase st' k = Pending).
Proof.
  destruct (undispatch_quiet owner ss nb st) as (m & He & Hm). exists (set_requests st m). split; [done|]. split.
  - intros k a (row & p & Hk & Ha & Hp & Ho & Hep & Hpos).
    assert (stamped_for st owner ss k row = bool_decide (mkStamp k a ∈ ss)) as Hs.
    { unfold stamped_for, owned_by. rewrite Hp, Ho, Ha, (bool_decide_true (0 < _)), (bool_decide_true (owner = owner)) by done.
      by rewrite andb_true_r. }
    specialize (Hm k). rewrite Hk in Hm. simpl in Hm. rewrite Hs in Hm.
    destruct (decide (mkStamp k a ∈ ss)) as [Hin|Hni].
    + rewrite bool_decide_true in Hm by done. unfold sql_phase; simpl. rewrite Hm. simpl. done.
    + rewrite bool_decide_false in Hm by done. exists row, p. done.
  - intros k. unfold sql_phase; simpl. rewrite Hm. destruct (requests st !! k) as [row|]; [|done]. simpl.
    destruct (stamped_for st owner ss k row); [done|]. done.
Qed.

Lemma track_keeps rows : forall c,
  let c' := foldl (fun c r => trackLocked r c) c rows in cs_queue c' = cs_queue c /\ cs_owner c' = cs_owner c.
Proof.
  induction rows as [|r rows IH]; intros c; [done|]. simpl. destruct (IH (trackLocked r c)) as [-> ->].
  unfold trackLocked, untrackLocked. repeat case_match; done.
Qed.

Lemma cm_undispatch_quiet ss c st st' :
  SqlStore.Undispatch (cs_owner c) ss (st, []) = (Ok tt, (st', [])) ->
  SqlConsumer.Undispatch ss (mkWorld c st []) = ([], mkWorld (doneStamps ss c) st' []).
Proof.
  intros He. unfold SqlConsumer.Undispatch, cm_bind, cm_self, cm_get, cm_set, cm_ret; simpl.
  rewrite cm_call_quiet, He. done.
Qed.

Lemma cm_defer_quiet ss nb c st st' :
  SqlStore.Defer (cs_owner c) ss nb (st, []) = (Ok tt, (st', [])) ->
  SqlConsumer.Defer ss nb (mkWorld c st []) = ([], mkWorld (doneStamps ss c) st' []).
Proof.
  intros He. unfold SqlConsumer.Defer, cm_bind, cm_self, cm_get, cm_set, cm_ret; simpl.
  rewrite cm_call_quiet, He. done.
Qed.

Lemma doneStamps_owner ss : forall c, cs_owner (doneStamps ss c) = cs_owner c.
Proof.
  induction ss as [|s ss IH]; intros c; [done|]. simpl. rewrite IH.
  unfold doneStamp, untrackLocked. repeat case_match; done.
Qed.

(** Where a request is after its poll. *)
Definition fate_phase (owner : string) (row : SqlStore.Request) (f : fate) : phase (string * Z) :=
  match f with
  | Delivered _ | Answered _ => Running (owner, req_Attempt row)
  | Returned | Deferred => Pending
  end.

Lemma poll_entry_row unmarshal cfg gate now row : pl_row (poll_entry unmarshal cfg gate now row) = row.
Proof. unfold poll_entry. by repeat case_match. Qed.

(** The stamps a list of fates gives back are those of their requests. *)
Lemma given_stamp (sel : fate -> bool) (es : list polled) (fates : list fate) i e f :
  NoDup ((fun e => request_Key (pl_row e)) <$> es) ->
  es !! i = Some e -> fates !! i = Some f ->
  (request_Stamp (pl_row e) ∈ omap (fun ef => if sel ef.2 then Some (request_Stamp (pl_row ef.1)) else None) (zip es fates)
   <-> sel f = true).
Proof.
  intros Hnd He Hf. rewrite list_elem_of_omap. split.
  - intros ([e' f'] & Hin & Hs). simpl in Hs. destruct (sel f') eqn:Ef; [|done]. injection Hs as Hs1 Hs2 Hs3.
    apply list_elem_of_lookup in Hin as [j Hj]. apply lookup_zip_Some in Hj as [He' Hf'].
    assert (i = j) as <-; [|congruence]. eapply NoDup_lookup; [exact Hnd| |].
    + rewrite list_lookup_fmap, He. done.
    + rewrite list_lookup_fmap, He'. simpl. unfold request_Key. by rewrite Hs1, Hs2.
  - intros Hsel. exists (e, f). simpl. rewrite Hsel. split; [|done].
    apply list_elem_of_lookup. exists i. by apply lookup_zip_Some.
Qed.

Definition is_returned (f : fate) : bool := match f with Returned => true | _ => false end.
Definition is_deferred (f : fate) : bool := match f with Deferred => true | _ => false end.

Lemma returned_sel (efs : list (polled * fate)) : omap returned_of efs = omap (fun ef => if is_returned ef.2 then Some (request_Stamp (pl_row ef.1)) else None) efs.
Proof. induction efs as [|[e []] efs IH]; csimpl; [done|..]; by rewrite ?IH. Qed.
Lemma deferred_sel (efs : list (polled * fate)) : omap deferred_of efs = omap (fun ef => if is_deferred ef.2 then Some (request_Stamp (pl_row ef.1)) else None) efs.
Proof. induction efs as [|[e []] efs IH]; csimpl; [done|..]; by rewrite ?IH. Qed.

(** Undispatch of [ss], or nothing when there is nothing to return. *)
Lemma undispatch_or_skip ss (later : bool) nb c st :
  exists c' st',
    (match ss with [] => cm_ret [] | s :: l => if later then SqlConsumer.Defer (s :: l) nb else SqlConsumer.Undispatch (s :: l) end)
      (mkWorld c st []) = ([], mkWorld c' st' []) /\ cs_owner c' = cs_owner c /\
    (forall k a, stamped_row st (cs_owner c) k a ->
       if decide (mkStamp k a ∈ ss) then sql_phase st' k = Pending else stamped_row st' (cs_owner c) k a) /\
    (forall k, sql_phase st k = Pending -> sql_phase st' k = Pending).
Proof.
  destruct (undispatch_phase (cs_owner c) ss (if later then nb else 0) st) as (st' & He & H1 & H2).
  destruct ss as [|s ss].
  { exists c, st. split_and!; try done. }
  exists (doneStamps (s :: ss) c), st'. split_and!; [|apply doneStamps_owner|done|done].
  destruct later; [by apply cm_defer_quiet|by apply cm_undispatch_quiet].
Qed.

(** Returning [now] and then [later] settles every request where its fate says. *)
Lemma settled_phase owner (es : list polled) fates i e f st1 st2 st3 now later :
  owner <> "" ->
  NoDup ((fun e => request_Key (pl_row e)) <$> es) -> es !! i = Some e -> fates !! i = Some f ->
  now = omap (fun ef => if is_returned ef.2 then Some (request_Stamp (pl_row ef.1)) else None) (zip es fates) ->
  later = omap (fun ef => if is_deferred ef.2 then Some (request_Stamp (pl_row ef.1)) else None) (zip es fates) ->
  stamped_row st1 owner (request_Key (pl_row e)) (req_Attempt (pl_row e)) ->
  (forall k a, stamped_row st1 owner k a ->
     if decide (mkStamp k a ∈ now) then sql_phase st2 k = Pending else stamped_row st2 owner k a) ->
  (forall k a, stamped_row st2 owner k a ->
     if decide (mkStamp k a ∈ later) then sql_phase st3 k = Pending else stamped_row st3 owner k a) ->
  (forall k, sql_phase st2 k = Pending -> sql_phase st3 k = Pending) ->
  sql_phase st3 (request_Key (pl_row e)) = fate_phase owner (pl_row e) f.
Proof.
  intros Ho Hnd He Hf -> -> Hst Hu2 Hu3 Hp3.
  pose proof (given_stamp is_returned es fates i e f Hnd He Hf) as Hr.
  pose proof (given_stamp is_deferred es fates i e f Hnd He Hf) as Hd.
  apply Hu2 in Hst. fold (request_Stamp (pl_row e)) in Hst.
  destruct (decide _) as [Hin|Hni] in Hst.
  { apply Hr in Hin. destruct f; try done. by apply Hp3. }
  apply Hu3 in Hst. fold (request_Stamp (pl_row e)) in Hst.
  destruct (decide _) as [Hin'|Hni'] in Hst.
  { apply Hd in Hin'. by destruct f. }
  apply stamped_running in Hst; [|done].
  destruct f; try done; [by destruct Hni; apply Hr|by destruct Hni'; apply Hd].
Qed.

(** A poll accounts for every request it takes from the queue.  Each one is
    sent to the workers, answered on the result channel, or given back, as its
    envelope, deadline, cancellation and gate say, with the context's end alone
    giving back what was due another fate; and in the store, a request sent or
    answered is in flight under the attempt it was polled with, while one given
    back is pending again. *)
Theorem poll_accounts unmarshal cfg gate budget batchSize pollInterval now then_ ingestion after locked fs c st :
  store_good st -> cs_owner c <> "" ->
  exists rows fates fs' c' st',
    processQueue unmarshal cfg gate budget batchSize pollInterval now then_ ingestion after locked fs (mkWorld c st [])
    = (fs', mkWorld c' st' []) /\
    (rows = [] /\ fs' = fs \/
     disposed (zip (poll_entry unmarshal cfg gate (Unix then_) <$> rows) fates) (set_back fs [] []) fs') /\
    length fates = length rows /\
    forall i row f, rows !! i = Some row -> fates !! i = Some f ->
      (f = due cfg ingestion (poll_entry unmarshal cfg gate (Unix then_) row) \/
       f = Returned /\ false ∈ f_selects fs) /\
      sql_phase st' (request_Key row) = fate_phase (cs_owner c) row f.
Proof.
  intros Hg Ho. unfold processQueue.
  destruct (pollBatch batchSize budget <=? 0) eqn:Eb.
  { unfold cm_bind. rewrite cm_call_quiet. unfold HasRequests, exec, f_call; cbn [head tail].
    exists [], [], fs, c, st. split_and!; try done. by left. }
  apply Z.leb_gt in Eb.
  destruct (Dispatch_stamped st (cs_queue c) (cs_owner c) now (pollBatch batchSize budget) locked Ho Hg ltac:(lia))
    as (st1 & rows & Ed & Hnd & Hst).
  set (es := poll_entry unmarshal cfg gate (Unix then_) <$> rows).
  destruct (dispatch_loop_spec cfg ingestion es (set_back fs [] [])) as (fates & Hlen & Hd & Hf & _).
  { apply Forall_fmap, Forall_forall. intros r _. apply poll_entry_well. }
  set (fs' := dispatch_loop cfg ingestion es (set_back fs [] [])) in *.
  set (c1 := foldl (fun c r => trackLocked r c) c rows).
  assert (cs_owner c1 = cs_owner c) as Ho1 by apply track_keeps.
  destruct (undispatch_or_skip (f_now fs') false 0 c1 st1) as (c2 & st2 & E2 & Ho2 & Hu2 & Hp2).
  destruct (undispatch_or_skip (f_later fs') true (Unix (after + pollInterval) + 1) c2 st2) as (c3 & st3 & E3 & Ho3 & Hu3 & Hp3).
  exists rows, fates, fs', c3, st3. split_and!.
  - unfold Poll, cm_bind, cm_self, cm_get, cm_set, cm_ret in *. simpl. rewrite cm_call_quiet, Ed. simpl.
    fold es. fold fs'. fold c1. rewrite E2, E3. done.
  - by right.
  - unfold es in Hlen. by rewrite length_fmap in Hlen.
  - intros i row f Hi Hfi.
    assert (es !! i = Some (poll_entry unmarshal cfg gate (Unix then_) row)) as Hei.
    { unfold es. by rewrite list_lookup_fmap, Hi. }
    assert (zip es fates !! i = Some (poll_entry unmarshal cfg gate (Unix then_) row, f)) as Hz.
    { by apply lookup_zip_Some. }
    split; [exact (Forall_lookup_1 _ _ _ _ Hf Hz)|].
    rewrite <- (poll_entry_row unmarshal cfg gate (Unix then_) row).
    apply (settled_phase (cs_owner c) es fates i _ f st1 st2 st3 (f_now fs') (f_later fs')); try done.
    + unfold es. rewrite <- list_fmap_compose. erewrite list_fmap_ext; [exact Hnd|].
      intros j x _. simpl. by rewrite poll_entry_row.
    + destruct Hd as (_ & _ & -> & _). by rewrite returned_sel.
    + destruct Hd as (_ & _ & _ & ->). by rewrite deferred_sel.
    + rewrite poll_entry_row. apply Hst. by eapply list_elem_of_lookup_2.
    + by rewrite Ho1 in Hu2.
    + by rewrite Ho2, Ho1 in Hu3.
Qed.

(** ** Settling retries and results *)

(** withRetries: [ended] says, for each pause, whether the context ended
    during it. *)
Definition storeAttempts : nat := 3.

Fixpoint retries {A : Type} (more : nat) (ended : list bool) (op : CM (Res StoreErr A)) : CM (Res StoreErr A) :=
  match more with
  | O => op
  | S n =>
      cm! r <- op;
      match r with
      | Ok a => cm_ret (Ok a)
      | Err e => if default false (head ended) then cm_ret (Err e) else retries n (tail ended) op
      end
  end.

Definition withRetries {A : Type} (ended : list bool) (op : CM (Res StoreErr A)) : CM (Res StoreErr A) :=
  retries (storeAttempts - 1) ended op.

(** The flow's queues: their configuration by id, and their ids by name. *)
Record Queues : Type := mkQueues {
  queuesByID : gmap string QueueConfig;
  queuesByName : gmap string string;
  defaultResultQueueName : string
}.

Definition originQueue (qs : Queues) (rt : InternalRouting) : option string :=
  match queuesByID qs !! rt_QueueID rt with
  | Some _ => Some (rt_QueueID rt)
  | None => queuesByName qs !! rt_RequestQueueName rt
  end.

Definition ceil_seconds (f : float64) : Z :=
  match f with
  | Fin q => Qceiling q
  | _ => - 2 ^ 63
  end.

(** The retry worker: release the gates, then park the request in the store or
    hand it to the next rebalance.  The queue the action is for and the action
    on its consumer. *)
Definition park (stamp : Stamp) (notBefore : Z) (env : string) (ended : list bool) : CM unit :=
  cm! r <- withRetries ended (SqlConsumer.Retry stamp notBefore env);
  match r with
  | Err _ => cm_set (Abandon [stamp])
  | Ok _ => cm_ret tt
  end.

Definition retryStep (marshal : InternalRequest -> option string) (qs : Queues) (now : Z) (ended : list bool)
    (msg : option InternalRequest) (backoff : float64) (st : FlowSt) : FlowSt * option (string * CM unit) :=
  match msg with
  | None => (st, None)
  | Some ir =>
      match ir_view ir with
      | None => (st, None)
      | Some _ =>
          let stamp := ir_stamp ir in
          let st1 := releaseGateReleases stamp st in
          match originQueue qs (ir_Routing ir) with
          | None => (st1, None)
          | Some q =>
              match (SplitPayload marshal (Some ir)).1 with
              | Err _ => (st1, Some (q, cm_set (Abandon [stamp])))
              | Ok (env, _) =>
                  (st1, Some (q, park stamp (wrap64 (Unix now + ceil_seconds backoff)) env ended))
              end
          end
      end
  end.

(** The result worker: [first] and what the channel holds, up to the batch. *)
Definition drainBatch {A : Type} (first : A) (channel : list A) (limit : nat) : list A :=
  first :: take (limit - 1) channel.

Definition result_stamp (r : ResultMessage) : Stamp :=
  mkStamp (mkKey (res_ID r) (rt_RequestToken (res_Routing r))) (rt_DispatchAttempt (res_Routing r)).

Definition completion_of (marshalResult : ResultMessage -> string) (qs : Queues) (now : Z) (r : ResultMessage) : Completion :=
  let rt := res_Routing r in
  mkCompletion (st_Key (result_stamp r)) (st_Attempt (result_stamp r))
    (or_else (rt_ResultQueueName rt) (defaultResultQueueName qs))
    (marshalResult r)
    (if 0 <? rt_ResultTTLSeconds rt then wrap64 (Unix now + rt_ResultTTLSeconds rt) else 0).

(** The batch by origin queue, each queue's completions in order. *)
Definition byQueue (marshalResult : ResultMessage -> string) (qs : Queues) (now : Z) (q : string)
    (batch : list ResultMessage) : list Completion :=
  completion_of marshalResult qs now <$> filter (fun r => originQueue qs (res_Routing r) = Some q) batch.

Definition settle_results (createdAt : Z) (ended : list bool) (cs : list Completion) : CM unit :=
  cm! r <- withRetries ended (SqlConsumer.Ack createdAt cs);
  match r with
  | Err _ => cm_set (Abandon (completion_Stamp <$> cs))
  | Ok _ => cm_ret tt
  end.

(** One batch: the gate releases, and for each queue what it does. *)
Definition resultStep (marshalResult : ResultMessage -> string) (qs : Queues) (now createdAt : Z) (ended : list bool)
    (batch : list ResultMessage) (st : FlowSt) : FlowSt * (string -> CM unit) :=
  (foldl (fun st r => releaseGateReleases (result_stamp r) st) st batch,
   fun q => match byQueue marshalResult qs now q batch with
            | [] => cm_ret tt
            | cs => settle_results createdAt ended cs
            end).

(** *** A settled stamp is no longer tracked *)
Definition settled (c : Consumer) (s : Stamp) : Prop :=
  t_attempt <$> inflight c !! st_Key s <> Some (st_Attempt s).

Lemma settled_untrack k t c s : settled c s -> settled (untrackLocked k t c) s.
Proof.
  intros Hs. unfold settled in *. assert (inflight (untrackLocked k t c) = delete k (inflight c)) as ->.
  { unfold untrackLocked. repeat case_match; done. }
  destruct (decide (k = st_Key s)) as [->|]; [by rewrite lookup_delete_eq|by rewrite lookup_delete_ne].
Qed.

Lemma settled_doneStamp s' c s : settled c s \/ s = s' -> settled (doneStamp s' c) s.
Proof.
  unfold doneStamp. destruct (inflight c !! st_Key s') as [t|] eqn:E.
  - case_bool_decide as Ea.
    + intros [Hs| ->]; [by apply settled_untrack|]. unfold settled. by rewrite untrack_not_tracked.
    + intros [Hs| ->]; [done|]. unfold settled. rewrite E. simpl. congruence.
  - intros [Hs| ->]; [done|]. unfold settled. by rewrite E.
Qed.

Lemma settled_abandonStamp s' c s : settled c s \/ s = s' -> settled (abandonStamp s' c) s.
Proof.
  unfold abandonStamp. destruct (inflight c !! st_Key s') as [t|] eqn:E.
  - case_bool_decide as Ea.
    + intros [Hs| ->]; [by apply settled_untrack|]. unfold settled. by rewrite untrack_not_tracked.
    + intros [Hs| ->]; [done|]. unfold settled. rewrite E. simpl. congruence.
  - intros [Hs| ->]; [done|]. unfold settled. by rewrite E.
Qed.

Lemma settled_fold (f : Stamp -> Consumer -> Consumer) ss :
  (forall s' c s, settled c s \/ s = s' -> settled (f s' c) s) ->
  forall c s, settled c s \/ s ∈ ss -> settled (foldl (fun c s => f s c) c ss) s.
Proof.
  intros Hf. induction ss as [|s' ss IH]; intros c s Hs; simpl.
  { destruct Hs as [?|?%not_elem_of_nil]; done. }
  apply IH. rewrite elem_of_cons in Hs. destruct Hs as [?|[?|?]]; [left; auto..|by right].
Qed.

Lemma settled_done ss c s : settled c s \/ s ∈ ss -> settled (doneStamps ss c) s.
Proof. apply (settled_fold doneStamp), settled_doneStamp. Qed.

Lemma settled_abandon ss c s : settled c s \/ s ∈ ss -> settled (Abandon ss c) s.
Proof. apply (settled_fold abandonStamp), settled_abandonStamp. Qed.

(** [op] settles [ss] when it succeeds; giving up abandons them: either way
    none is tracked at the end. *)
Definition settles_on_ok {A : Type} (op : CM (Res StoreErr A)) (ss : list Stamp) : Prop :=
  forall w a w' s, op w = (Ok a, w') -> s ∈ ss -> settled (w_c w') s.

Lemma retries_settle {A : Type} (op : CM (Res StoreErr A)) ss :
  settles_on_ok op ss -> forall more ended, settles_on_ok (retries more ended op) ss.
Proof.
  intros Hop. induction more as [|n IH]; intros ended w a w' s He Hs; simpl in He; [by eapply Hop|].
  unfold cm_bind in He. destruct (op w) as [[a1|e1] w1] eqn:E1.
  - unfold cm_ret in He. injection He as <- <-. by eapply Hop.
  - destruct (default false (head ended)); [done|]. by eapply IH.
Qed.

Lemma Ack_settles createdAt cs : settles_on_ok (SqlConsumer.Ack createdAt cs) (completion_Stamp <$> cs).
Proof.
  intros w a w' s He Hs. unfold SqlConsumer.Ack, cm_bind, cm_self, cm_get, cm_set, cm_ret in He. simpl in He.
  destruct (cm_call _ w) as [[acked|e] w1]; [|done]. injection He as <- <-. simpl. apply settled_done. by right.
Qed.

Lemma Retry_settles stamp nb env : settles_on_ok (SqlConsumer.Retry stamp nb env) [stamp].
Proof.
  intros w a w' s He Hs. unfold SqlConsumer.Retry, cm_bind, cm_self, cm_get, cm_set, cm_ret in He. simpl in He.
  destruct (cm_call _ w) as [[ok|e] w1]; [|done]. injection He as <- <-. simpl.
  apply (settled_done [stamp]). by right.
Qed.

(** [op] was executed [n] times: all but the last failed, the last gave [r]. *)
Inductive tried {A : Type} (op : CM (Res StoreErr A)) : nat -> World -> Res StoreErr A -> World -> Prop :=
| tried_last w r w' : op w = (r, w') -> tried op 1 w r w'
| tried_again n w e w1 r w' : op w = (Err e, w1) -> tried op n w1 r w' -> tried op (S n) w r w'.

Lemma retries_tried {A : Type} (op : CM (Res StoreErr A)) more : forall ended w r w',
  retries more ended op w = (r, w') ->
  exists n, tried op n w r w' /\ (1 <= n <= S more)%nat /\
    match r with Ok _ => True | Err _ => n = S more \/ ended !! (n - 1)%nat = Some true end.
Proof.
  induction more as [|m IH]; intros ended w r w' He; simpl in He.
  - exists 1%nat. split; [by constructor|]. split; [lia|]. destruct r; [done|by left].
  - unfold cm_bind in He. destruct (op w) as [[a1|e1] w1] eqn:E1; [injection He as <- <-; exists 1%nat; split; [by constructor|]; split; [lia|done]|].
    destruct (default false (head ended)) eqn:Ed.
    + injection He as <- <-. exists 1%nat. split; [by constructor|]. split; [lia|]. right. by destruct ended as [|[] ended].
    + destruct (IH _ _ _ _ He) as (n & Ht & Hn & Hr). exists (S n). split; [by eapply tried_again|]. split; [lia|].
      destruct r; [done|]. destruct Hr as [->|Hr]; [by left|right]. destruct n; [lia|]. simpl in *. rewrite Nat.sub_0_r in *. by destruct ended.
Qed.

(** An attempt that [c] tracked is left to the next rebalance. *)
Definition handed_over (c c' : Consumer) (s : Stamp) : Prop :=
  t_attempt <$> inflight c !! st_Key s = Some (st_Attempt s) -> orphans c' !! st_Key s = Some (st_Attempt s).

Lemma untrack_orphans k t c : orphans (untrackLocked k t c) = orphans c.
Proof. unfold untrackLocked. by repeat case_match. Qed.

Lemma untrack_inflight k t c : inflight (untrackLocked k t c) = delete k (inflight c).
Proof. unfold untrackLocked. by repeat case_match. Qed.

Lemma abandon_keeps ss s : forall c, orphans c !! st_Key s = Some (st_Attempt s) -> inflight c !! st_Key s = None ->
  orphans (Abandon ss c) !! st_Key s = Some (st_Attempt s).
Proof.
  induction ss as [|s' ss IH]; intros c Ho Hi; [done|]. apply IH; unfold abandonStamp; (destruct (inflight c !! st_Key s') as [t|] eqn:E; [|done]); case_bool_decide; try done.
  - rewrite untrack_orphans. simpl. rewrite lookup_insert_ne by congruence. done.
  - rewrite untrack_inflight. simpl. rewrite lookup_delete_ne by congruence. done.
Qed.

Lemma abandon_hands_over ss c s : s ∈ ss -> handed_over c (Abandon ss c) s.
Proof.
  unfold handed_over. revert c. induction ss as [|s' ss IH]; intros c Hin Ht; [by apply not_elem_of_nil in Hin|].
  change (Abandon (s' :: ss) c) with (Abandon ss (abandonStamp s' c)).
  destruct (decide (st_Key s' = st_Key s)) as [Ek|Ek]; unfold abandonStamp; [rewrite Ek|].
  - destruct (inflight c !! st_Key s) as [t|] eqn:E; [|done]. injection Ht as Ht. rewrite Ht. case_bool_decide as Ea.
    + apply abandon_keeps; [rewrite untrack_orphans; simpl; by rewrite lookup_insert_eq|rewrite untrack_inflight; simpl; by rewrite lookup_delete_eq].
    + apply IH; [|by rewrite E; simpl; f_equal]. apply elem_of_cons in Hin as [->|]; done.
  - assert (s ∈ ss) as Hs by (apply elem_of_cons in Hin as [->|]; done).
    destruct (inflight c !! st_Key s') as [t|] eqn:E; [|by apply IH]. case_bool_decide; [|by apply IH].
    apply IH; [done|]. rewrite untrack_inflight. simpl. by rewrite lookup_delete_ne.
Qed.

(** What a worker does with the attempt [s]: it tries [op] until the store
    answers, three times at most, or fewer where the context ends in a pause; when
    the store never answered, the attempt is left to the next rebalance.  Either
    way the consumer does not track it any more. *)
Definition worked {A : Type} (op : CM (Res StoreErr A)) (ended : list bool) (s : Stamp) (w w' : World) : Prop :=
  exists n r w1, tried op n w r w1 /\ (1 <= n <= storeAttempts)%nat /\ settled (w_c w') s /\
    match r with
    | Ok _ => w' = w1
    | Err _ => (n = storeAttempts \/ ended !! (n - 1)%nat = Some true) /\ w_store w' = w_store w1 /\ handed_over (w_c w1) (w_c w') s
    end.

Lemma retries_worked {A : Type} (op : CM (Res StoreErr A)) ended ss s w :
  settles_on_ok op ss -> s ∈ ss ->
  worked op ended s w (cm_bind (withRetries ended op) (fun r => match r with Err _ => cm_set (Abandon ss) | Ok _ => cm_ret tt end) w).2.
Proof.
  intros Hop Hs. unfold cm_bind, worked. destruct (withRetries ended op w) as [r w1] eqn:E.
  destruct (retries_tried _ _ _ _ _ _ E) as (n & Ht & Hn & Hr). exists n, r, w1. split; [done|]. split; [done|]. destruct r as [a|e]; simpl.
  - split; [|done]. by apply (retries_settle op ss Hop _ _ _ _ _ _ E).
  - split; [apply settled_abandon; by right|]. split; [done|]. split; [done|]. by apply abandon_hands_over.
Qed.


(** ** The flow's life: polls, and requests settled by a retry or a result *)
Inductive flow_event : Type :=
| FPoll (cfg : QueueConfig) (ingestion : Z) (es : list polled)
| FSettle (stamp : Stamp).

Definition flow_step (st : FlowSt) (e : flow_event) : FlowSt :=
  match e with
  | FPoll cfg ingestion es => dispatch_loop cfg ingestion es st
  | FSettle stamp => releaseGateReleases stamp st
  end.

Definition handed_out (e : flow_event) : list nat :=
  match e with
  | FPoll _ _ es => mjoin (rels_of <$> es)
  | FSettle _ => []
  end.

Definition polls_well (e : flow_event) : Prop :=
  match e with
  | FPoll _ _ es => Forall well_polled es
  | FSettle _ => True
  end.

Lemma flow_held evs : forall st, Forall polls_well evs ->
  held (foldl flow_step st evs) ≡ₚ held st ++ mjoin (handed_out <$> evs).
Proof.
  induction evs as [|e evs IH]; intros st Hw; simpl; [by rewrite app_nil_r|].
  inversion Hw; subst. rewrite IH by done. rewrite app_assoc. f_equiv. destruct e as [cfg ing es|s]; simpl.
  - by destruct (dispatch_loop_spec cfg ing es st) as (_ & _ & _ & _ & Hh).
  - rewrite app_nil_r. apply release_held.
Qed.

Definition startFlow (selects : list bool) : FlowSt := mkFlowSt ∅ [] [] [] [] [] selects.

(** Over any sequence of polls and settled requests, each release function
    the gates hand out runs at most once and is never lost: it has run, or it
    waits in activeReleases for its request to settle. *)
Theorem flow_releases_once evs selects :
  Forall polls_well evs -> NoDup (mjoin (handed_out <$> evs)) ->
  let st := foldl flow_step (startFlow selects) evs in
  NoDup (f_released st) /\
  forall x, x ∈ mjoin (handed_out <$> evs) <-> x ∈ f_released st \/ x ∈ active_ids (f_active st).
Proof.
  intros Hw Hnd st. pose proof (flow_held evs (startFlow selects) Hw) as Hh.
  change (held (startFlow selects)) with ([] : list nat) in Hh. simpl in Hh. fold st in Hh.
  rewrite <- Hh in Hnd. unfold held in *. split.
  - by apply NoDup_app in Hnd as (_ & _ & ?).
  - intros x. rewrite <- Hh, elem_of_app. tauto.
Qed.

(** ** Batched cancellation checks (cancelbatch.go) *)
Fixpoint dedupe (seen : gset Key) (batch : list Key) : list Key :=
  match batch with
  | [] => []
  | k :: rest => if decide (k ∈ seen) then dedupe seen rest else k :: dedupe ({[k]} ∪ seen) rest
  end.

(** flush: one statement for the batch, and each query's reply: what the result
    map holds for its key, and the statement's error. *)
Definition cancelFlush (batch : list Key) (s : Store * list fault) : list (bool * bool) * (Store * list fault) :=
  let '(r, s') := CancelledKeys (dedupe ∅ batch) s in
  ((fun k => match r with
             | Ok cancelled => (bool_decide (k ∈ cancelled), false)
             | Err _ => (false, true)
             end) <$> batch, s').

(** IsCancelled: a check without an id or a token asks nothing. *)
Definition isCancelled (requestID requestToken : string) (s : Store * list fault) : Res StoreErr bool * (Store * list fault) :=
  if decide (requestID = "" \/ requestToken = "") then (Ok false, s)
  else
    match cancelFlush [mkKey requestID requestToken] s with
    | ([(b, false)], s') => (Ok b, s')
    | (_, s') => (Err ErrStatement, s')
    end.

Lemma elem_of_dedupe batch : forall seen k, k ∈ dedupe seen batch <-> k ∈ batch /\ k ∉ seen.
Proof.
  induction batch as [|k0 batch IH]; intros seen k; simpl.
  - split; [by intros ?%not_elem_of_nil|by intros [?%not_elem_of_nil _]].
  - case_decide as Hs; rewrite ?elem_of_cons, IH; [set_solver|]. destruct (decide (k = k0)); set_solver.
Qed.

Lemma NoDup_dedupe batch : forall seen, NoDup (dedupe seen batch).
Proof.
  induction batch as [|k batch IH]; intros seen; simpl; [constructor|]. case_decide; [done|].
  constructor; [|done]. rewrite elem_of_dedupe. set_solver.
Qed.

Definition row_cancelled (st : Store) (k : Key) : bool :=
  match requests st !! k with Some r => cancelled r | None => false end.

Lemma CancelledKeys_spec keys st :
  exists s, CancelledKeys keys (st, []) = (Ok s, (st, [])) /\ forall k, k ∈ s <-> k ∈ keys /\ row_cancelled st k = true.
Proof.
  unfold CancelledKeys. destruct keys as [|k0 keys].
  { exists ∅. split; [done|]. set_solver. }
  eexists. split; [reflexivity|]. intros k. rewrite elem_of_list_to_set, list_elem_of_fmap.
  unfold row_cancelled. split.
  - intros ([k' r] & -> & Hin). apply elem_of_select_where in Hin as [Hk Hp].
    apply andb_prop in Hp as [Hp%bool_decide_eq_true Hc]. simpl. by rewrite Hk.
  - intros [Hin Hc]. destruct (requests st !! k) as [r|] eqn:Hk; [|done]. exists (k, r). split; [done|].
    apply elem_of_select_where. split; [done|]. by rewrite bool_decide_true.
Qed.

(** Coalescing cancellation checks changes no answer: whatever queries share
    a batch, repeated ones included, each is told whether its own request is
    cancelled, exactly as if it had asked alone; and once Cancel has returned,
    every check for a queued request it named answers yes. *)
Theorem cancel_checks_exact batch st ids id token :
  (cancelFlush batch (st, [])).1 = (fun k => (row_cancelled st k, false)) <$> batch /\
  (id <> "" -> token <> "" -> (isCancelled id token (st, [])).1 = Ok (row_cancelled st (mkKey id token))) /\
  (id <> "" -> id ∈ ids -> is_Some (requests st !! mkKey id token) ->
   row_cancelled (Cancel ids (st, [])).2.1 (mkKey id token) = true).
Proof.
  assert (forall b, (cancelFlush b (st, [])).1 = (fun k => (row_cancelled st k, false)) <$> b) as Hb.
  { intros b. unfold cancelFlush. destruct (CancelledKeys_spec (dedupe ∅ b) st) as (s & -> & Hs). simpl.
    apply list_fmap_ext. intros i k Hk. f_equal. apply eq_true_iff_eq.
    rewrite bool_decide_eq_true, Hs, elem_of_dedupe. apply list_elem_of_lookup_2 in Hk. set_solver. }
  split_and!; [apply Hb| |].
  - intros Hid Ht. unfold isCancelled. destruct (decide _) as [[?|?]|]; [done..|].
    specialize (Hb [mkKey id token]). destruct (cancelFlush _ _) as [l s']. simpl in Hb. by subst.
  - intros Hid Hin [r Hr]. unfold Cancel.
    assert (id ∈ filter (fun id => id <> "") ids) as Hf by by apply list_elem_of_filter.
    destruct (filter _ ids) as [|i0 live]; [by apply not_elem_of_nil in Hf|].
    unfold exec, f_call, stmt_cancel; cbn [head tail fst snd]. unfold row_cancelled; simpl.
    rewrite lookup_update_where, Hr. simpl. by rewrite bool_decide_true.
Qed.

(** ** Witnesses *)
Definition w_cfg : QueueConfig := mkQueueConfig "q" "q" "" 0 "default" "" "/v1/completions" "http://igw" "" ∅.
Definition w_row : SqlStore.Request := SqlStore.mkRequest "a" "t" "q" 0 1 1 100 "{}" "p" false 0.
Definition w_ir (env : string) : option InternalRequest :=
  Some (NewInternalRequest zeroRouting (PlainRequest (Some (mkRequestMessage "a" 0 100 RawNil ∅ ∅ "" "")))).
Definition w_gate (ir : InternalRequest) : gateOutcome := mkOutcome Continue [7%nat] false ir.

Lemma poll_accounts_witness :
  exists rows fates fs' c' st',
    processQueue w_ir w_cfg w_gate (Fin 1) 10 Second 0 0 0 0 w_nolock (startFlow [])
      (mkWorld (NewConsumer "q" "d1" 0 0) w_leased []) = (fs', mkWorld c' st' []) /\
    (rows = [] /\ fs' = startFlow [] \/
     disposed (zip (poll_entry w_ir w_cfg w_gate (Unix 0) <$> rows) fates) (set_back (startFlow []) [] []) fs') /\
    length fates = length rows /\
    forall i row f, rows !! i = Some row -> fates !! i = Some f ->
      (f = due w_cfg 0 (poll_entry w_ir w_cfg w_gate (Unix 0) row) \/
       f = Returned /\ false ∈ f_selects (startFlow [])) /\
      sql_phase st' (request_Key row) = fate_phase (cs_owner (NewConsumer "q" "d1" 0 0)) row f.
Proof.
  apply (poll_accounts w_ir w_cfg w_gate (Fin 1) 10 Second 0 0 0 0 w_nolock (startFlow [])
    (NewConsumer "q" "d1" 0 0) w_leased); [apply w_leased_good|done].
Defined.

Lemma flow_releases_once_witness :
  let evs := [FPoll w_cfg 0 [poll_entry w_ir w_cfg w_gate 0 w_row]; FSettle (request_Stamp w_row)] in
  NoDup (f_released (foldl flow_step (startFlow []) evs)).
Proof.
  apply (flow_releases_once [FPoll w_cfg 0 [poll_entry w_ir w_cfg w_gate 0 w_row]; FSettle (request_Stamp w_row)] []).
  - constructor; [|by constructor]. constructor; [|done]. apply poll_entry_well.
  - apply NoDup_singleton.
Defined.

(** A result whose three writes are lost; its attempt was tracked. *)
Definition w_queues : Queues := mkQueues {["q" := w_cfg]} ∅ "res".
Definition w_result : ResultMessage :=
  mkResultMessage "a" 200 "{}" "" "" (mkInternalRouting 0 "q" "t" 1 "q" "" 0 false "" 0 "" ∅) ∅.
Definition w_unreachable : World :=
  mkWorld (mkConsumer "q" "d1" 0 0 true false false 0 ∅ {[mkKey "a" "t" := mkTracked 0 1 1]} ∅) emptyStore
    [([], [FLost], []); ([], [FLost], []); ([], [FLost], [])].

