(* ===== verification/SortedSetFlow.v ===== *)
(** * The Redis sorted-set flow

    [pkg/redis/sortedset_impl.go]: a poll of one queue
    ([processMessagesWithConfig], [dispatch], [releaseClaimed],
    [fetchPayloads]), the retry worker ([flushRetryBatch]), the retry mover and
    the result worker ([flushResultBatch]), over the claims of RedisClaim.v.
    Any call to Redis may be lost, before or after it takes effect, and other
    flows may change Redis before each call; the gates' outcomes, the way each
    channel [select] goes, the clock and the random tokens are given.
    [unmarshal] is [json.Unmarshal] into an InternalRequest and [marshal] its
    inverse call. *)
From stdpp Require Import prelude gmap strings list sorting.
From Stdlib Require Import ZArith QArith Qround Lia.
From S2P Require Import Prelude Rounding Api KeySlot RedisClaim Gates.

#[local] Open Scope Z_scope.

Record SortedSetQueueConfig : Type := mkQueueCfg {
  sc_ID : string;
  sc_QueueName : string;
  sc_ResultQueueName : string;
  sc_ResultTTLSeconds : Z;
  sc_WorkerPoolID : string;
  sc_InferenceObjective : string;
  sc_RequestPathURL : string;
  sc_IGWBaseURL : string;
  sc_GateType : string;
  sc_Labels : gmap string string
}.

Definition maxRetries : nat := 3.
Definition maxBatchSize : nat := 32.

(** ** The flow's state *)

(** What a gate did with a request. *)
Record gated : Type := mkGated {
  gd_verdict : Res GateErr Verdict;
  gd_releases : list nat;
  gd_ir : InternalRequest     (* the request, as the gates left it *)
}.

Record SS : Type := mkSS {
  ss_h : Claims;                       (* claimTokens *)
  ss_r : Redis;
  ss_fs : list fault;                  (* of the calls to come *)
  ss_others : list (Redis -> Redis);   (* what others do before each call *)
  ss_env : list (Z * option string);   (* clock and token of each claim *)
  ss_active : gmap string (list nat);  (* activeReleases *)
  ss_released : list nat;              (* the release functions run *)
  ss_handed : list nat;                (* those the gates handed out *)
  ss_results : list ResultMessage;     (* sent on the result channel *)
  ss_sent : list InternalRequest;      (* sent on the queue's channel *)
  ss_selects : list bool               (* true: the send wins the select *)
}.

Definition SM (A : Type) : Type := SS -> A * SS.
Definition s_ret {A : Type} (a : A) : SM A := fun s => (a, s).
Definition s_bind {A B : Type} (m : SM A) (k : A -> SM B) : SM B :=
  fun s => let '(a, s') := m s in k a s'.

Declare Scope ss_scope.
Delimit Scope ss_scope with ss.
Notation "'s!' x <- m ; k" := (s_bind m (fun x => k))
  (at level 10, x name, m at level 100, k at level 200) : ss_scope.
Notation "'s>' m ; k" := (s_bind m (fun _ => k))
  (at level 10, m at level 100, k at level 200) : ss_scope.
#[local] Open Scope ss_scope.

Definition s_upd (f : SS -> SS) : SM unit := fun s => (tt, f s).

Definition with_redis (h : Claims) (r : Redis) (fs : list fault) (o : list (Redis -> Redis)) (s : SS) : SS :=
  mkSS h r fs o (ss_env s) (ss_active s) (ss_released s) (ss_handed s) (ss_results s) (ss_sent s) (ss_selects s).
Definition with_env (e : list (Z * option string)) (s : SS) : SS :=
  mkSS (ss_h s) (ss_r s) (ss_fs s) (ss_others s) e (ss_active s) (ss_released s) (ss_handed s) (ss_results s) (ss_sent s) (ss_selects s).
Definition with_active (a : gmap string (list nat)) (rel : list nat) (s : SS) : SS :=
  mkSS (ss_h s) (ss_r s) (ss_fs s) (ss_others s) (ss_env s) a rel (ss_handed s) (ss_results s) (ss_sent s) (ss_selects s).
Definition with_out (res : list ResultMessage) (sent : list InternalRequest) (sel : list bool) (s : SS) : SS :=
  mkSS (ss_h s) (ss_r s) (ss_fs s) (ss_others s) (ss_env s) (ss_active s) (ss_released s) (ss_handed s) res sent sel.
Definition with_handed (l : list nat) (s : SS) : SS :=
  mkSS (ss_h s) (ss_r s) (ss_fs s) (ss_others s) (ss_env s) (ss_active s) (ss_released s) l (ss_results s) (ss_sent s)
    (ss_selects s).

(** A call of claim.go: what others did, then the method. *)
Definition s_call {A : Type} (m : FlowM A) : SM (Res RedisErr A) := fun s =>
  let r := default id (head (ss_others s)) (ss_r s) in
  let '(a, ((h', r'), fs')) := m ((ss_h s, r), ss_fs s) in
  (a, with_redis h' r' fs' (tail (ss_others s)) s).

(** retryRedisOp *)
Fixpoint retryRedisOp {A : Type} (attempts : nat) (op : SM (Res RedisErr A)) : SM (Res RedisErr A) :=
  s! r <- op;
  match r, attempts with
  | Err _, S n => match n with O => s_ret r | _ => retryRedisOp n op end
  | _, _ => s_ret r
  end.

Definition next_claim : SM (Z * option string) := fun s =>
  (default (0, None) (head (ss_env s)), with_env (tail (ss_env s)) s).

Definition send_result (r : ResultMessage) : SM bool := fun s =>
  if default true (head (ss_selects s))
  then (true, with_out (ss_results s ++ [r]) (ss_sent s) (tail (ss_selects s)) s)
  else (false, with_out (ss_results s) (ss_sent s) (tail (ss_selects s)) s).

Definition run_releases (rels : list nat) : SM unit :=
  s_upd (fun s => with_active (ss_active s) (ss_released s ++ rels) s).

(** A call of the gate hands out its releases. *)
Definition handed_out (rels : list nat) : SM unit := s_upd (fun s => with_handed (ss_handed s ++ rels) s).

(** LoadAndDelete of activeReleases, and the releases it held. *)
Definition release_active (reqID : string) : SM unit :=
  s_upd (fun s => with_active (delete reqID (ss_active s))
                    (ss_released s ++ default [] (ss_active s !! reqID)) s).

(** ** Routing *)
Definition or_else (s t : string) : string := if decide (s = "") then t else s.

Definition stampRoute (queueName queueID : string) (cfg : SortedSetQueueConfig) (rt : InternalRouting) : InternalRouting :=
  let res := rt_ResultRoutingResolved rt in
  mkInternalRouting (rt_RetryCount rt) (or_else (rt_QueueID rt) queueID) (rt_RequestToken rt)
    (rt_DispatchAttempt rt) (or_else (rt_RequestQueueName rt) queueName)
    (if res then rt_ResultQueueName rt else or_else (sc_ResultQueueName cfg) (rt_ResultQueueName rt))
    (if res then rt_ResultTTLSeconds rt else sc_ResultTTLSeconds cfg)
    true (rt_TransportCorrelationID rt) (rt_EnqueueSeq rt) (rt_PayloadRef rt)
    (merge_over (rt_Labels rt) (sc_Labels cfg)).

Definition on_routing (f : InternalRouting -> InternalRouting) (ir : InternalRequest) : InternalRequest :=
  mkInternalRequest (f (ir_Routing ir)) (ir_Public ir) (ir_Ingestion ir).

Definition stamp_ingestion (t : Z) (ir : InternalRequest) : InternalRequest :=
  mkInternalRequest (ir_Routing ir) (ir_Public ir) t.

Definition zeroMessage : RequestMessage := mkRequestMessage "" 0 0 RawNil ∅ ∅ "" "".
Definition view (ir : InternalRequest) : RequestMessage := default zeroMessage (ir_view ir).
Definition score_of (ir : InternalRequest) : Q := default 0%Q (QueueScore ir).

Definition dropped_result (v : Verdict) (ir : InternalRequest) : ResultMessage :=
  match v_Result v with
  | Some r => mkResultMessage (res_ID r) (res_StatusCode r) (res_Payload r) (res_ErrorCode r)
                (res_ErrorMessage r) (ir_Routing ir) (res_Metadata r)
  | None => NewGateDroppedResult (view ir) (ir_Routing ir)
  end.

(** ** Redis calls of the flow itself *)
Section calls.
#[local] Open Scope faulty_scope.

(** The order of a sorted set: by score, then by member. *)
Definition zset_le (a b : string * Q) : Prop :=
  negb (Qle_bool b.2 a.2) || (Qeq_bool a.2 b.2 && String.leb a.1 b.1) = true.
#[export] Instance zset_le_dec : RelDecision zset_le.
Proof. intros a b. unfold zset_le. apply _. Defined.

Definition peek (q : string) (count : Z) : FlowM (list (string * Q)) :=
  redis_do (fun r => (r, take (Z.to_nat count) (merge_sort zset_le (map_to_list (pending (queue_at r q)))))).

Definition zrem (q member : string) : FlowM unit :=
  redis_do (fun r => (set_queue q (let k := queue_at r q in
    mkQueueKeys (delete member (pending k)) (claimed k) (owners k) (idx k)) r, tt)).

Definition zadd (q member : string) (score : Q) : FlowM unit :=
  redis_do (fun r => (set_queue q (zadd_pending member score (queue_at r q)) r, tt)).

(** redisCancellationChecker.IsCancelled *)
Definition IsCancelled (requestID requestToken : string) : FlowM bool :=
  if decide (requestID = "" \/ requestToken = "") then f_ret false
  else do! v <- redis_do (fun r => (r, strs r !! RequestCancellationKey requestID));
       f_ret (bool_decide (v = Some requestToken)).

Definition deleteIfToken (key token : string) : FlowM unit :=
  redis_do (fun r => (if decide (strs r !! key = Some token) then set_strs (delete key (strs r)) r else r, tt)).

Definition cleanupRequestStateByIDAndToken (requestID requestToken : string) : FlowM unit :=
  if decide (requestID = "" \/ requestToken = "") then f_ret tt
  else do> deleteIfToken (RequestActiveTokenKey requestID) requestToken;
       deleteIfToken (RequestCancellationKey requestID) requestToken.

Definition readPayloads (refs : list string) : FlowM (list (option string)) :=
  redis_do (fun r => (r, (fun ref => strs r !! ref) <$> refs)).
End calls.

(** ** A poll *)
Record claimedRequest : Type := mkClaimed {
  cr_ir : InternalRequest;
  cr_member : string;
  cr_token : string;
  cr_releases : list nat
}.

Inductive ctl : Type := Go | Halt.

Section poll.
Context (claimLeaseTTL : Z) (unmarshal : string -> option InternalRequest).
Context (queueName queueID : string) (cfg : SortedSetQueueConfig).
Context (gate : InternalRequest -> gated) (now ingestion : Z).

(** Some: a request to work on; its deadline is positive. *)
Definition parseMessage (member : string) : option (InternalRequest * Z) :=
  match unmarshal member with
  | None => None
  | Some ir =>
      match ir_Public ir, ir_view ir with
      | Some _, Some m => if rm_Deadline m <=? 0 then None else Some (ir, rm_Deadline m)
      | _, _ => None
      end
  end.

Definition hand_back (ir : InternalRequest) (member token : string) : SM unit :=
  s> retryRedisOp maxRetries
       (s_call (releaseClaim queueName (rm_ID (view ir)) (rt_RequestToken (ir_Routing ir)) member (score_of ir) token));
  s_ret tt.

Definition claim (ir : InternalRequest) (member : string) (deadline : Z) : SM (option string) :=
  s! e <- next_claim;
  s! r <- s_call (claimRequest claimLeaseTTL e.1 e.2 queueName ir member (inject_Z deadline));
  s_ret (match r with Ok (Some token) => Some token | _ => None end).

(** Claim the request, send its terminal result, and hand it back when the
    context ends first. *)
Definition answer (ir : InternalRequest) (member : string) (deadline : Z) (cleanup : bool) (res : ResultMessage) : SM ctl :=
  s! t <- claim ir member deadline;
  match t with
  | None => s_ret Go
  | Some token =>
      s> (if cleanup
          then s> s_call (cleanupRequestStateByIDAndToken (rm_ID (view ir)) (rt_RequestToken (ir_Routing ir))); s_ret tt
          else s_ret tt);
      s! sent <- send_result res;
      if sent then s_ret Go else s> hand_back ir member token; s_ret Halt
  end.

Definition dispatch (ir : InternalRequest) (rels : list nat) : SM bool := fun s =>
  let reqID := rm_ID (view ir) in
  let s1 := match rels with
            | [] => s
            | _ => with_active (<[reqID := rels]> (ss_active s))
                     (ss_released s ++ default [] (ss_active s !! reqID)) s
            end in
  if default true (head (ss_selects s1))
  then (true, with_out (ss_results s1) (ss_sent s1 ++ [stamp_ingestion ingestion ir]) (tail (ss_selects s1)) s1)
  else (false, with_active (delete reqID (ss_active s1)) (ss_released s1)
                 (with_out (ss_results s1) (ss_sent s1) (tail (ss_selects s1)) s1)).

(** The branches after the gate. *)
Definition after_gate (ir0 : InternalRequest) (member : string) (deadline : Z) (ready : list claimedRequest) :
    SM (ctl * list claimedRequest) :=
  let g := gate ir0 in
  let ir := gd_ir g in
  let rels := gd_releases g in
  s> handed_out rels;
  match gd_verdict g with
  | Err _ => s> run_releases rels; s_ret (Go, ready)
  | Ok v =>
      match v_Action v with
      | ActionRefuse => s> run_releases rels; s_ret (Go, ready)
      | ActionDrop => s! c <- answer ir member deadline false (dropped_result v ir); s_ret (c, ready)
      | _ =>
          s! t <- claim ir member deadline;
          match t with
          | None => s> run_releases rels; s_ret (Go, ready)
          | Some token =>
              if decide (rt_PayloadRef (ir_Routing ir) <> "")
              then s_ret (Go, ready ++ [mkClaimed ir member token rels])
              else s! sent <- dispatch ir rels;
                   if sent then s_ret (Go, ready)
                   else s> hand_back ir member token; s> run_releases rels; s_ret (Halt, ready)
          end
      end
  end.

Definition poll_one (member : string) (ready : list claimedRequest) : SM (ctl * list claimedRequest) :=
  match parseMessage member with
  | None => s> s_call (zrem queueName member); s_ret (Go, ready)
  | Some (ir0, deadline) =>
      let ir := on_routing (stampRoute queueName queueID cfg) ir0 in
      if deadline <? Unix now then
        s! c <- answer ir member deadline true (NewDeadlineExceededResult (view ir) (ir_Routing ir));
        s_ret (c, ready)
      else
        s! x <- s_call (IsCancelled (rm_ID (view ir)) (rt_RequestToken (ir_Routing ir)));
        match x with
        | Ok true =>
            s! c <- answer ir member deadline false (NewCancelledResult (view ir) (ir_Routing ir));
            s_ret (c, ready)
        | _ => after_gate ir member deadline ready
        end
  end.

Fixpoint poll_loop (members : list string) (ready : list claimedRequest) : SM (ctl * list claimedRequest) :=
  match members with
  | [] => s_ret (Go, ready)
  | m :: rest =>
      s! cr <- poll_one m ready;
      match cr.1 with
      | Halt => s_ret (Halt, cr.2)
      | Go => poll_loop rest cr.2
      end
  end.

Fixpoint releaseClaimed (cs : list claimedRequest) : SM unit :=
  match cs with
  | [] => s_ret tt
  | c :: rest =>
      s> hand_back (cr_ir c) (cr_member c) (cr_token c);
      s> run_releases (cr_releases c);
      releaseClaimed rest
  end.

(** Per request: its payload attached, or why it has none. *)
Definition attach (c : claimedRequest) (v : option string) : claimedRequest * string :=
  match v with
  | None => (c, "request payload is missing")
  | Some p =>
      match AttachPayload (Some (cr_ir c)) (RawBytes p) with
      | Ok ir => (mkClaimed ir (cr_member c) (cr_token c) (cr_releases c), "")
      | Err _ => (c, "request payload could not be attached")
      end
  end.

Definition fetchPayloads (cs : list claimedRequest) : SM (option (list (claimedRequest * string))) :=
  s! r <- s_call (readPayloads ((fun c => rt_PayloadRef (ir_Routing (cr_ir c))) <$> cs));
  s_ret (match r with
         | Ok vs => Some (zip_with attach cs vs)
         | Err _ => None
         end).

Fixpoint send_ready (cs : list (claimedRequest * string)) : SM unit :=
  match cs with
  | [] => s_ret tt
  | (c, err) :: rest =>
      let ir := cr_ir c in
      if decide (err <> "") then
        s! sent <- send_result (NewErrorResult (view ir) (ir_Routing ir) ErrCodePayloadUnavailable err);
        if sent then s> run_releases (cr_releases c); send_ready rest
        else releaseClaimed (c :: rest.*1)
      else
        s! sent <- dispatch ir (cr_releases c);
        if sent then send_ready rest else releaseClaimed (c :: rest.*1)
  end.

Definition batch_of (batchSize : Z) (budget : float64) : Z :=
  match budget with
  | Fin q => Qfloor (fmul64 (inject_Z batchSize) q)
  | _ => - 2 ^ 63
  end.

Definition processMessagesWithConfig (batchSize : Z) (budget : float64) : SM unit :=
  let count := batch_of batchSize budget in
  if count <=? 0 then s> s_call (redis_do (fun r => (r, size (pending (queue_at r queueName))))); s_ret tt
  else
    s! zs <- s_call (peek queueName count);
    match zs with
    | Err _ => s_ret tt
    | Ok zs =>
        s! cr <- poll_loop zs.*1 [];
        match cr with
        | (Halt, ready) => releaseClaimed ready
        | (Go, []) => s_ret tt
        | (Go, ready) =>
            s! p <- fetchPayloads ready;
            match p with
            | None => releaseClaimed ready
            | Some cs => send_ready cs
            end
        end
    end.
End poll.

(** ** The retry worker, the retry mover and the result worker *)
Definition drainBatch {A : Type} (first : A) (channel : list A) : list A := first :: take (maxBatchSize - 1) channel.

Definition drop_handle (id : string) : SM unit :=
  s_upd (fun s => with_redis (delete id (ss_h s)) (ss_r s) (ss_fs s) (ss_others s) s).

(** A pipeline runs every command and reports the first error; each command may
    be lost on its own. *)
Fixpoint pipe_exec (cmds : list (SM (Res RedisErr unit))) : SM (Res RedisErr unit) :=
  match cmds with
  | [] => s_ret (Ok tt)
  | cmd :: rest =>
      s! r <- cmd;
      s! r' <- pipe_exec rest;
      s_ret (match r with Err e => Err e | Ok _ => r' end)
  end.

Definition zadd_retry (member : string) (score : Q) : FlowM unit :=
  redis_do (fun r => (set_retryset (<[member := score]> (retryset r)) r, tt)).

(** The number of members removed. *)
Definition zrem_retry (member : string) : FlowM Z :=
  redis_do (fun r => (set_retryset (delete member (retryset r)) r, if retryset r !! member then 1 else 0)).

(** ZRANGE BYSCORE -inf now LIMIT 0 count; no limit when count is not positive. *)
Definition due_members (now : Q) (count : Z) (r : Redis) : list string :=
  let due := filter (fun ms => Qle_bool ms.2 now = true) (merge_sort zset_le (map_to_list (retryset r))) in
  (if count <=? 0 then due else take (Z.to_nat count) due).*1.

Section workers.
Context (clusterKeys : bool) (claimLeaseTTL : Z) (marshal : InternalRequest -> option string).
Context (unmarshal : string -> option InternalRequest) (marshalResult : ResultMessage -> string).
Context (defaultRequestQueue defaultResultQueue : string) (configMap : gmap string SortedSetQueueConfig).

Definition encodeRequest (ir : InternalRequest) : option string :=
  if decide (rt_PayloadRef (ir_Routing ir) = "") then marshal ir
  else match (SplitPayload marshal (Some ir)).1 with
       | Ok (envelope, _) => Some envelope
       | Err _ => None
       end.

Record retryEntry : Type := mkRetryEntry {
  re_member : string;
  re_score : Q;
  re_originQueue : string;
  re_requestID : string;
  re_requestToken : string;
  re_deadline : Q
}.

Definition set_requestQueue (q : string) (rt : InternalRouting) : InternalRouting :=
  mkInternalRouting (rt_RetryCount rt) (rt_QueueID rt) (rt_RequestToken rt) (rt_DispatchAttempt rt) q
    (rt_ResultQueueName rt) (rt_ResultTTLSeconds rt) (rt_ResultRoutingResolved rt)
    (rt_TransportCorrelationID rt) (rt_EnqueueSeq rt) (rt_PayloadRef rt) (rt_Labels rt).

(** A retry: the request and its backoff in seconds. *)
Definition retry_entry (now : Z) (msg : option InternalRequest * Q) : option retryEntry :=
  match msg.1 with
  | None => None
  | Some ir =>
      let queueName := or_else (rt_RequestQueueName (ir_Routing ir)) defaultRequestQueue in
      match encodeRequest (on_routing (set_requestQueue queueName) ir) with
      | None => None
      | Some bytes =>
          let score := fadd64 (inject_Z (Unix now)) msg.2 in
          Some (match ir_Public ir with
                | None => mkRetryEntry bytes score queueName "" "" 0
                | Some _ => mkRetryEntry bytes score queueName (rm_ID (view ir))
                              (rt_RequestToken (ir_Routing ir)) (inject_Z (rm_Deadline (view ir)))
                end)
      end
  end.

Fixpoint drop_retried (es : list retryEntry) : SM unit :=
  match es with
  | [] => s_ret tt
  | e :: rest =>
      s> (if decide (re_requestID e <> "") then drop_handle (claimKey (re_requestID e) (re_requestToken e)) else s_ret tt);
      drop_retried rest
  end.

Definition renew_retried_one (now : Z) (e : retryEntry) : SM unit := fun s =>
  let id := claimKey (re_requestID e) (re_requestToken e) in
  let token := match ss_h s !! id with Some h => h_token h | None => "" end in
  (if decide (re_requestID e = "" \/ token = "") then s_ret tt
   else s! r <- s_call (renewClaim claimLeaseTTL now (re_originQueue e) (re_requestID e) (re_requestToken e)
                          (re_deadline e) token);
        match r with
        | Err _ => s_ret tt
        | Ok res => if negb (res =? 1) then drop_handle id else s_ret tt
        end) s.

Fixpoint renew_retried (now : Z) (es : list retryEntry) : SM unit :=
  match es with
  | [] => s_ret tt
  | e :: rest => s> renew_retried_one now e; renew_retried now rest
  end.

Definition flushRetryBatch (now : Z) (batch : list (option InternalRequest * Q)) : SM unit :=
  let entries := omap (retry_entry now) batch in
  s! r <- retryRedisOp maxRetries (pipe_exec ((fun e => s_call (zadd_retry (re_member e) (re_score e))) <$> entries));
  match r with
  | Err _ => drop_retried entries
  | Ok _ => renew_retried now entries
  end.

Fixpoint release_each (ids : list string) : SM unit :=
  match ids with
  | [] => s_ret tt
  | id :: rest => s> release_active id; release_each rest
  end.

Definition retried_id (msg : option InternalRequest * Q) : option string :=
  match msg.1 with
  | Some ir => (fun _ => rm_ID (view ir)) <$> ir_Public ir
  | None => None
  end.

Definition retryWorker (now : Z) (msg : option InternalRequest * Q) (channel : list (option InternalRequest * Q)) : SM unit :=
  let batch := drainBatch msg channel in
  s> release_each (omap retried_id batch);
  flushRetryBatch now batch.

(** One due member of the retry queue. *)
Definition move_one (now : Q) (member : string) : SM unit :=
  s! removed <- s_call (zrem_retry member);
  match removed with
  | Err _ => s_ret tt
  | Ok n =>
      if n =? 0 then s_ret tt
      else match unmarshal member with
           | None => s_ret tt
           | Some ir =>
               match ir_Public ir with
               | None => s_ret tt
               | Some _ =>
                   let queueName := or_else (rt_RequestQueueName (ir_Routing ir)) defaultRequestQueue in
                   s! r <- s_call (zadd queueName member (score_of ir));
                   match r with
                   | Ok _ => s_ret tt
                   | Err _ => s> s_call (zadd_retry member now); s_ret tt
                   end
               end
           end
  end.

Fixpoint move_each (now : Q) (members : list string) : SM unit :=
  match members with
  | [] => s_ret tt
  | m :: rest => s> move_one now m; move_each now rest
  end.

(** One tick of the mover. *)
Definition retryMover (now batchSize : Z) : SM unit :=
  let now := inject_Z (Unix now) in
  s! ms <- s_call (redis_do (fun r => (r, due_members now batchSize r)));
  match ms with
  | Err _ => s_ret tt
  | Ok members => move_each now members
  end.

(** Where a result goes: its list, the list's TTL in seconds, and the queue of
    its claim. *)
Definition result_route (rt : InternalRouting) : string * Z * string :=
  let cfg := configMap !! rt_QueueID rt in
  let '(resultQueue, ttl) :=
    if rt_ResultRoutingResolved rt
    then (or_else (rt_ResultQueueName rt) defaultResultQueue, rt_ResultTTLSeconds rt)
    else match cfg with
         | Some c => (or_else (sc_ResultQueueName c) (or_else (rt_ResultQueueName rt) defaultResultQueue),
                      sc_ResultTTLSeconds c)
         | None => (or_else (rt_ResultQueueName rt) defaultResultQueue, 0)
         end in
  (resultQueue, ttl,
   or_else (or_else (rt_RequestQueueName rt) (match cfg with Some c => sc_QueueName c | None => "" end)) resultQueue).

Definition flush_result (now : Z) (result : ResultMessage) : SM unit :=
  let rt := res_Routing result in
  let '(resultQueue, resultTTL, claimQueue) := result_route rt in
  let listTTL := if 0 <? resultTTL then wrap64 (resultTTL * Second) else 0 in
  s! r <- retryRedisOp maxRetries
    (s_call (ackResult clusterKeys claimLeaseTTL now claimQueue resultQueue (res_ID result) (rt_RequestToken rt)
               (rt_PayloadRef rt) (marshalResult result) listTTL));
  match r with
  | Err _ => drop_handle (claimKey (res_ID result) (rt_RequestToken rt))
  | Ok false => s_ret tt
  | Ok true => s> s_call (cleanupRequestStateByIDAndToken (res_ID result) (rt_RequestToken rt)); s_ret tt
  end.

Fixpoint flushResultBatch (now : Z) (batch : list ResultMessage) : SM unit :=
  match batch with
  | [] => s_ret tt
  | r :: rest => s> flush_result now r; flushResultBatch now rest
  end.

Definition resultWorker (now : Z) (msg : ResultMessage) (channel : list ResultMessage) : SM unit :=
  let batch := drainBatch msg channel in
  s> release_each (res_ID <$> batch);
  flushResultBatch now batch.
End workers.

(** ** Relations every step of a program keeps

    [keeps_rel R P m]: whatever the state, [m] moves it along [R] and returns a
    value with [P]. *)
Definition keeps_rel {A : Type} (R : SS -> SS -> Prop) (P : A -> Prop) (m : SM A) : Prop :=
  forall s, R s (m s).2 /\ P (m s).1.

Abbreviation any := (fun _ => True).

Section keeping.
Context (R : SS -> SS -> Prop) `{!Reflexive R} `{!Transitive R}.

Lemma kr_ret {A : Type} (P : A -> Prop) (a : A) : P a -> keeps_rel R P (s_ret a).
Proof. intros Ha s. simpl. by split. Qed.

Lemma kr_bind {A B : Type} (P : A -> Prop) (Q : B -> Prop) (m : SM A) (k : A -> SM B) :
  keeps_rel R P m -> (forall a, P a -> keeps_rel R Q (k a)) -> keeps_rel R Q (s_bind m k).
Proof.
  intros Hm Hk s. unfold s_bind. destruct (Hm s) as [H1 HP]. destruct (m s) as [a s1].
  destruct (Hk a HP s1) as [H2 HQ]. split; [|done]. etrans; [exact H1|exact H2].
Qed.

Lemma kr_retry {A : Type} (op : SM (Res RedisErr A)) n : keeps_rel R any op -> keeps_rel R any (retryRedisOp n op).
Proof.
  intros Hop. induction n as [|n IH]; simpl; (apply (kr_bind any); [done|]); intros [a|e] _; try by apply kr_ret.
  destruct n; [by apply kr_ret|apply IH].
Qed.
End keeping.

(** *** No poll loses a request *)
Definition keeps_in (claim_of : string -> option string) (cid : string) (r r' : Redis) : Prop :=
  forall q, keys_good claim_of (queue_at r q) ->
    keys_good claim_of (queue_at r' q) /\ (in_queue claim_of cid (queue_at r q) -> in_queue claim_of cid (queue_at r' q)).

Definition queue_kept (claim_of : string -> option string) (cid : string) (s s' : SS) : Prop :=
  Forall (fun f => forall r, keeps_in claim_of cid r (f r)) (ss_others s) ->
  Forall (fun f => forall r, keeps_in claim_of cid r (f r)) (ss_others s') /\
  keeps_in claim_of cid (ss_r s) (ss_r s').

#[local] Instance keeps_in_trans claim_of cid : Transitive (keeps_in claim_of cid).
Proof. intros r1 r2 r3 H1 H2 q Hg. destruct (H1 q Hg) as [Hg2 ?]. destruct (H2 q Hg2). split; auto. Qed.
#[local] Instance keeps_in_refl claim_of cid : Reflexive (keeps_in claim_of cid).
Proof. intros r q Hg. by split. Qed.
#[local] Instance queue_kept_refl claim_of cid : Reflexive (queue_kept claim_of cid).
Proof. intros s Ho. by split. Qed.
#[local] Instance queue_kept_trans claim_of cid : Transitive (queue_kept claim_of cid).
Proof.
  intros s1 s2 s3 H1 H2 Ho. destruct (H1 Ho) as [Ho2 K1]. destruct (H2 Ho2) as [Ho3 K2]. split; [done|].
  by transitivity (ss_r s2).
Qed.

(** A method of the claims whose scripts never ack. *)
Definition method_keeps {A : Type} (claim_of : string -> option string) (cid : string) (m : FlowM A) : Prop :=
  forall h r fs a h' r' fs', m ((h, r), fs) = (a, ((h', r'), fs')) -> keeps_in claim_of cid r r'.

Lemma call_keeps {A : Type} claim_of cid (m : FlowM A) :
  method_keeps claim_of cid m -> keeps_rel (queue_kept claim_of cid) any (s_call m).
Proof.
  intros Hm s. split; [|done]. intros Ho. unfold s_call.
  destruct (m ((ss_h s, default id (head (ss_others s)) (ss_r s)), ss_fs s)) as [a [[h' r'] fs']] eqn:E. simpl.
  split; [by destruct (ss_others s); inversion Ho|]. apply Hm in E. etrans; [|exact E].
  destruct (ss_others s) as [|f l]; simpl; [done|]. by inversion Ho.
Qed.

Section method_keeps.
Context (claim_of : string -> option string) (cid : string).

Lemma mk_ret {A : Type} (a : A) : method_keeps claim_of cid (f_ret a).
Proof. intros h r fs a' h' r' fs' [= _ _ <- _]. done. Qed.
Lemma mk_fail {A : Type} (e : RedisErr) : method_keeps claim_of cid (f_fail e : FlowM A).
Proof. intros h r fs a' h' r' fs' [= _ _ <- _]. done. Qed.
Lemma mk_handles f : method_keeps claim_of cid (handles f).
Proof. intros h r fs a' h' r' fs' [= _ _ <- _]. done. Qed.
Lemma mk_bind {A B : Type} (m : FlowM A) (k : A -> FlowM B) :
  method_keeps claim_of cid m -> (forall a, method_keeps claim_of cid (k a)) -> method_keeps claim_of cid (f_bind m k).
Proof.
  intros Hm Hk h r fs b h' r' fs'. unfold f_bind. destruct (m (h, r, fs)) as [[a|e] [[h1 r1] fs1]] eqn:E; intros H.
  - etrans; [eapply Hm, E|eapply Hk, H].
  - injection H as <- <- <- <-. eapply Hm, E.
Qed.
Lemma mk_do {A : Type} (f : Redis -> Redis * A) :
  (forall r, keeps_in claim_of cid r (f r).1) -> method_keeps claim_of cid (redis_do f).
Proof.
  intros Hf h r fs a h' r' fs'. unfold redis_do, f_call. specialize (Hf r). destruct (f r) as [r1 x]. simpl in Hf.
  destruct (head fs) as [[]|]; intros [= _ _ <- _]; done.
Qed.

(** A script on one queue that is a step without an ack. *)
Lemma on_queue_keeps q f :
  (forall k, (f k).1 = k \/ exists evs, claim_step claim_of k evs (f k).1 /\ forall i t, EvAcked i t ∉ evs) ->
  forall r, keeps_in claim_of cid r (on_queue q f r).1.
Proof.
  intros Hf r q' Hg. unfold on_queue. specialize (Hf (queue_at r q)).
  destruct (f (queue_at r q)) as [k n]. simpl in *. rewrite queue_at_set. case_decide; [subst q'|done].
  destruct Hf as [->|(evs & Hs & Hna)]; [done|].
  split; [by eapply claim_step_good|]. by eapply claim_step_in_queue.
Qed.

Lemma no_queue_keeps {A : Type} (f : Redis -> Redis * A) :
  (forall r, queues (f r).1 = queues r) -> forall r, keeps_in claim_of cid r (f r).1.
Proof. intros Hf r q Hg. unfold queue_at in *. by rewrite Hf. Qed.
End method_keeps.

(** What a queue's gate does to the request it is given: it labels it. *)
Definition gate_keeps (gate : InternalRequest -> gated) : Prop :=
  forall ir, ir_view (gd_ir (gate ir)) = ir_view ir /\
    rt_RequestToken (ir_Routing (gd_ir (gate ir))) = rt_RequestToken (ir_Routing ir).

Section poll_keeps.
Context (claimLeaseTTL : Z) (unmarshal : string -> option InternalRequest).
Context (queueName queueID : string) (cfg : SortedSetQueueConfig).
Context (gate : InternalRequest -> gated) (now ingestion : Z) (cid : string).
Hypothesis Hgate : gate_keeps gate.

Abbreviation claim_of := (member_claim unmarshal).
Abbreviation Kept := (queue_kept claim_of cid).

(** The request is the one its member parses to. *)
Definition reads_as (member : string) (ir : InternalRequest) : Prop :=
  is_Some (ir_view ir) /\
  claim_of member = Some (claimKey (rm_ID (view ir)) (rt_RequestToken (ir_Routing ir))).

Lemma reads_as_gate member ir : reads_as member ir -> reads_as member (gd_ir (gate ir)).
Proof. unfold reads_as, view. destruct (Hgate ir) as [-> ->]. done. Qed.

Lemma parse_reads_as member ir d :
  parseMessage unmarshal member = Some (ir, d) ->
  reads_as member (on_routing (stampRoute queueName queueID cfg) ir).
Proof.
  unfold parseMessage, reads_as, member_claim, parse_ok, view. destruct (unmarshal member) as [ir1|]; [|done].
  destruct (ir_Public ir1) eqn:Ep; [|done]. destruct (ir_view ir1) as [m|] eqn:Ev; [|done].
  destruct (rm_Deadline m <=? 0) eqn:Ed; [done|]. intros [= <- _].
  change (ir_view (on_routing _ ir1)) with (ir_view ir1). rewrite Ev. split; [done|].
  assert (0 <? rm_Deadline m = true) as -> by lia. done.
Qed.

Lemma claim_kept ir member d : reads_as member ir -> keeps_rel Kept any (claim claimLeaseTTL queueName ir member d).
Proof.
  intros [[m Hv] Hm]. unfold view in Hm. rewrite Hv in Hm. simpl in Hm.
  unfold claim. apply (kr_bind _ any); [by intros s|]. intros e _.
  apply (kr_bind _ any); [|intros; by apply kr_ret]. apply call_keeps.
  unfold claimRequest. rewrite Hv. destruct e as [t [tok|]]; [|apply mk_fail].
  apply mk_bind; [|intros res; case_match; [apply mk_ret|apply mk_bind; [apply mk_handles|intros; apply mk_ret]]].
  apply mk_do, on_queue_keeps. intros k. unfold claimScript.
  destruct (pending k !! member) eqn:Ep; [right|by left].
  eexists. split; [eapply K_claim; [exact Hm|unfold claimScript; by rewrite Ep]|].
  intros i x [? | ?%not_elem_of_nil]%elem_of_cons; done.
Qed.

Lemma hand_back_kept ir member token : reads_as member ir -> keeps_rel Kept any (hand_back queueName ir member token).
Proof.
  intros [_ Hm]. unfold hand_back. apply (kr_bind _ any); [|intros; by apply kr_ret].
  apply kr_retry; [apply _..|]. apply call_keeps. unfold releaseClaim.
  apply mk_bind; [|intros; apply mk_handles]. apply mk_do, on_queue_keeps. intros k. right.
  eexists. split; [eapply K_release; [exact Hm|apply surjective_pairing]|]. intros i x ?%not_elem_of_nil. done.
Qed.

(** Steps on the flow's own memory and its channels. *)
Lemma local_kept {A : Type} (m : SM A) :
  (forall s, ss_others (m s).2 = ss_others s /\ ss_r (m s).2 = ss_r s) -> keeps_rel Kept any m.
Proof. intros Hm s. split; [|done]. intros Ho. destruct (Hm s) as [-> ->]. done. Qed.

Lemma quiet_call_kept {A : Type} (f : Redis -> Redis * A) :
  (forall r, queues (f r).1 = queues r) -> keeps_rel Kept any (s_call (redis_do f)).
Proof. intros Hf. by apply call_keeps, mk_do, no_queue_keeps. Qed.

Lemma send_result_kept r : keeps_rel Kept any (send_result r).
Proof. apply local_kept. intros s. unfold send_result. by case_match. Qed.

Lemma dispatch_kept ir rels : keeps_rel Kept any (dispatch ingestion ir rels).
Proof. apply local_kept. intros s. unfold dispatch. destruct rels; by case_match. Qed.

Lemma cleanup_kept i t : keeps_rel Kept any (s_call (cleanupRequestStateByIDAndToken i t)).
Proof.
  apply call_keeps. unfold cleanupRequestStateByIDAndToken. case_decide; [apply mk_ret|].
  apply mk_bind; [|intros]; apply mk_do, no_queue_keeps; intros r; simpl; by case_decide.
Qed.

Lemma cancelled_kept i t : keeps_rel Kept any (s_call (IsCancelled i t)).
Proof.
  apply call_keeps. unfold IsCancelled. case_decide; [apply mk_ret|].
  apply mk_bind; [by apply mk_do, no_queue_keeps|intros; apply mk_ret].
Qed.

Lemma answer_kept ir member d cl res :
  reads_as member ir -> keeps_rel Kept any (answer claimLeaseTTL queueName ir member d cl res).
Proof.
  intros Hr. unfold answer. apply (kr_bind _ any); [by apply claim_kept|]. intros [token|] _; [|by apply kr_ret].
  apply (kr_bind _ any).
  { destruct cl; [|by apply kr_ret]. apply (kr_bind _ any); [apply cleanup_kept|intros; by apply kr_ret]. }
  intros _ _. apply (kr_bind _ any); [apply send_result_kept|]. intros [] _; [by apply kr_ret|].
  apply (kr_bind _ any); [by apply hand_back_kept|intros; by apply kr_ret].
Qed.

Definition ready_ok (cs : list claimedRequest) : Prop := Forall (fun c => reads_as (cr_member c) (cr_ir c)) cs.
Definition ready_post (cr : ctl * list claimedRequest) : Prop := ready_ok cr.2.

Lemma after_gate_kept ir member d ready :
  reads_as member ir -> ready_ok ready ->
  keeps_rel Kept ready_post (after_gate claimLeaseTTL queueName gate ingestion ir member d ready).
Proof.
  intros Hr Hok. apply reads_as_gate in Hr. unfold after_gate.
  assert (forall rels c, keeps_rel Kept ready_post (s_bind (run_releases rels) (fun _ => s_ret (c, ready)))) as Hrel.
  { intros rels c. apply (kr_bind _ any); [by apply local_kept|intros; by apply kr_ret]. }
  apply (kr_bind _ any); [by apply local_kept|]. intros _ _.
  destruct (gd_verdict (gate ir)) as [v|e]; [|apply Hrel].
  assert (keeps_rel Kept ready_post (s_bind (claim claimLeaseTTL queueName (gd_ir (gate ir)) member d) (fun t =>
    match t with
    | None => s_bind (run_releases (gd_releases (gate ir))) (fun _ => s_ret (Go, ready))
    | Some token =>
        if decide (rt_PayloadRef (ir_Routing (gd_ir (gate ir))) <> "")
        then s_ret (Go, ready ++ [mkClaimed (gd_ir (gate ir)) member token (gd_releases (gate ir))])
        else s_bind (dispatch ingestion (gd_ir (gate ir)) (gd_releases (gate ir))) (fun sent =>
          if sent : bool then s_ret (Go, ready)
          else s_bind (hand_back queueName (gd_ir (gate ir)) member token) (fun _ =>
               s_bind (run_releases (gd_releases (gate ir))) (fun _ => s_ret (Halt, ready))))
    end))) as Hclaim.
  { apply (kr_bind _ any); [by apply claim_kept|]. intros [token|] _; [|apply Hrel].
    case_decide; [apply kr_ret; [apply _|]; apply Forall_app; split; [done|by apply Forall_singleton]|].
    apply (kr_bind _ any); [apply dispatch_kept|]. intros [] _; [by apply kr_ret|].
    apply (kr_bind _ any); [by apply hand_back_kept|intros; apply Hrel]. }
  destruct (v_Action v); [exact Hclaim| |apply Hrel|exact Hclaim].
  apply (kr_bind _ any); [by apply answer_kept|intros; by apply kr_ret].
Qed.

Lemma poll_one_kept member ready :
  ready_ok ready ->
  keeps_rel Kept ready_post (poll_one claimLeaseTTL unmarshal queueName queueID cfg gate now ingestion member ready).
Proof.
  intros Hok. unfold poll_one. destruct (parseMessage unmarshal member) as [[ir0 d]|] eqn:Ep.
  - apply parse_reads_as in Ep as Hr. case_match.
    + apply (kr_bind _ any); [by apply answer_kept|intros; by apply kr_ret].
    + apply (kr_bind _ any); [apply cancelled_kept|]. intros [[]|e] _; try by apply after_gate_kept.
      apply (kr_bind _ any); [by apply answer_kept|intros; by apply kr_ret].
  - apply (kr_bind _ any); [|intros; by apply kr_ret]. apply call_keeps, mk_do.
    assert (claim_of member = None) as Hm.
    { unfold member_claim, parse_ok. unfold parseMessage in Ep. destruct (unmarshal member) as [ir|]; [|done].
      unfold ir_view in *. destruct (ir_Public ir) as [p|]; simpl in *; [|done].
      destruct (request_view p) as [m|]; [|done]. destruct (rm_Deadline m <=? 0) eqn:E; [|done].
      assert (0 <? rm_Deadline m = false) as -> by lia. done. }
    intros r q Hg. simpl. rewrite queue_at_set. case_decide as Hq; [subst q|done].
    pose proof (K_remove claim_of member (queue_at r queueName) Hm) as Hs.
    split; [by eapply claim_step_good|]. eapply claim_step_in_queue; [exact Hs|done|].
    intros t ?%not_elem_of_nil. done.
Qed.

Lemma poll_loop_kept members : forall ready, ready_ok ready ->
  keeps_rel Kept ready_post (poll_loop claimLeaseTTL unmarshal queueName queueID cfg gate now ingestion members ready).
Proof.
  induction members as [|m members IH]; intros ready Hok; simpl; [by apply kr_ret|].
  eapply kr_bind; [apply _|by apply poll_one_kept|]. intros [[] ready'] Hok'; simpl; [by apply IH|by apply kr_ret].
Qed.

Lemma releaseClaimed_kept cs : ready_ok cs -> keeps_rel Kept any (releaseClaimed queueName cs).
Proof.
  induction 1 as [|c cs Hc Hcs IH]; simpl; [by apply kr_ret|].
  apply (kr_bind _ any); [by apply hand_back_kept|]. intros _ _.
  apply (kr_bind _ any); [by apply local_kept|by intros].
Qed.

Lemma attach_ok c v : reads_as (cr_member c) (cr_ir c) -> reads_as (cr_member (attach c v).1) (cr_ir (attach c v).1).
Proof.
  intros Hr. unfold attach. destruct v as [p|]; [|done]. destruct (AttachPayload _ _) as [ir|] eqn:E; [|done]. simpl.
  unfold reads_as, view in *. destruct c as [[rt pub ing] member token rels]. simpl in *.
  destruct pub as [[[m|]|[x|]|[x|]|w]|]; simplify_eq/=; (split; [done|]); apply Hr.
Qed.

Lemma fetchPayloads_kept cs : ready_ok cs ->
  keeps_rel Kept (fun o => match o with Some l => ready_ok l.*1 | None => True end) (fetchPayloads cs).
Proof.
  intros Hok. unfold fetchPayloads. apply (kr_bind _ any).
  { by apply (quiet_call_kept (fun r => (r, _))). }
  intros [vs|e] _; apply kr_ret; try apply _; [|done].
  revert vs. induction Hok as [|c cs Hc Hcs IH]; intros [|v vs]; simpl; try by constructor.
  constructor; [by apply attach_ok|apply IH].
Qed.

Lemma send_ready_kept cs : ready_ok cs.*1 -> keeps_rel Kept any (send_ready queueName ingestion cs).
Proof.
  induction cs as [|[c err] cs IH]; intros Hok; [by apply kr_ret|]. apply Forall_cons_1 in Hok as Hrest.
  destruct Hrest as [_ Hrest]. apply releaseClaimed_kept in Hok as Hback. cbn [send_ready]. case_decide.
  - apply (kr_bind _ any); [apply send_result_kept|]. intros [] _; [|exact Hback].
    apply (kr_bind _ any); [by apply local_kept|]. intros _ _. by apply IH.
  - apply (kr_bind _ any); [apply dispatch_kept|]. intros [] _; [by apply IH|exact Hback].
Qed.

Lemma processMessages_kept batchSize budget :
  keeps_rel Kept any (processMessagesWithConfig claimLeaseTTL unmarshal queueName queueID cfg gate now ingestion
                        batchSize budget).
Proof.
  unfold processMessagesWithConfig. case_match.
  { apply (kr_bind _ any); [by apply (quiet_call_kept (fun r => (r, _)))|intros; by apply kr_ret]. }
  apply (kr_bind _ any); [by apply (quiet_call_kept (fun r => (r, _)))|]. intros [zs|e] _; [|by apply kr_ret].
  eapply kr_bind; [apply _|apply poll_loop_kept; constructor|]. intros [[] ready] Hok; [|by apply releaseClaimed_kept].
  destruct ready as [|c ready]; [by apply kr_ret|].
  eapply kr_bind; [apply _|by apply fetchPayloads_kept|].
  intros [cs|] Hcs; [by apply send_ready_kept|by apply releaseClaimed_kept].
Qed.
End poll_keeps.

Section workers_keep.
Context (claimLeaseTTL : Z) (marshal : InternalRequest -> option string).
Context (unmarshal : string -> option InternalRequest) (defaultRequestQueue : string) (cid : string).

Abbreviation Kept := (queue_kept (member_claim unmarshal) cid).

Lemma zadd_retry_kept m score : keeps_rel Kept any (s_call (zadd_retry m score)).
Proof. by apply (quiet_call_kept unmarshal cid (fun r => (_, tt))). Qed.

Lemma pipe_kept cmds : Forall (keeps_rel Kept any) cmds -> keeps_rel Kept any (pipe_exec cmds).
Proof.
  induction 1 as [|cmd cmds Hc Hcs IH]; simpl; [by apply kr_ret|].
  apply (kr_bind _ any); [done|]. intros r _. apply (kr_bind _ any); [done|]. intros r' _. by apply kr_ret.
Qed.

Lemma release_each_kept ids : keeps_rel Kept any (release_each ids).
Proof.
  induction ids as [|id ids IH]; simpl; [by apply kr_ret|]. apply (kr_bind _ any); [by apply local_kept|done].
Qed.

Lemma drop_retried_kept es : keeps_rel Kept any (drop_retried es).
Proof.
  induction es as [|e es IH]; simpl; [by apply kr_ret|].
  apply (kr_bind _ any); [|done]. case_decide; [by apply local_kept|by apply kr_ret].
Qed.

Lemma renew_one_kept now e : keeps_rel Kept any (renew_retried_one claimLeaseTTL now e).
Proof.
  intros s. unfold renew_retried_one. set (token := match _ with Some h => h_token h | None => "" end).
  clearbody token. refine ((_ : keeps_rel Kept any _) s). case_decide as Hd; [by apply kr_ret|].
  apply (kr_bind _ any); [|intros [res|er] _; [case_match; [by apply local_kept|by apply kr_ret]|by apply kr_ret]].
  apply call_keeps. unfold renewClaim. apply mk_do, on_queue_keeps. intros k. right.
  eexists. split; [eapply K_renew, surjective_pairing|]. intros i x ?%not_elem_of_nil. done.
Qed.

Lemma retryWorker_kept now msg channel :
  keeps_rel Kept any (retryWorker claimLeaseTTL marshal defaultRequestQueue now msg channel).
Proof.
  unfold retryWorker, flushRetryBatch. apply (kr_bind _ any); [apply release_each_kept|]. intros _ _.
  apply (kr_bind _ any).
  { apply kr_retry; [apply _..|]. apply pipe_kept, Forall_fmap, Forall_true. intros e. apply zadd_retry_kept. }
  intros [_|e] _; [|apply drop_retried_kept].
  induction (omap _ _) as [|e es IH]; simpl; [by apply kr_ret|]. apply (kr_bind _ any); [apply renew_one_kept|done].
Qed.

Lemma move_one_kept now member : keeps_rel Kept any (move_one unmarshal defaultRequestQueue now member).
Proof.
  unfold move_one. apply (kr_bind _ any); [by apply (quiet_call_kept unmarshal cid (fun r => (_, _)))|].
  intros [n|e] _; [|by apply kr_ret]. case_match; [by apply kr_ret|]. case_match; [|by apply kr_ret].
  case_match; [|by apply kr_ret]. apply (kr_bind _ any).
  - apply call_keeps, mk_do. intros rd q Hg. simpl. rewrite queue_at_set. case_decide as Hq; [subst q|done].
    split; [by apply zadd_good|by apply in_queue_zadd].
  - intros [u|e] _; [by apply kr_ret|]. apply (kr_bind _ any); [apply zadd_retry_kept|intros; by apply kr_ret].
Qed.

Lemma retryMover_kept now batchSize : keeps_rel Kept any (retryMover unmarshal defaultRequestQueue now batchSize).
Proof.
  unfold retryMover. apply (kr_bind _ any); [by apply (quiet_call_kept unmarshal cid (fun r => (r, _)))|].
  intros [ms|e] _; [|by apply kr_ret].
  induction ms as [|m ms IH]; simpl; [by apply kr_ret|]. apply (kr_bind _ any); [apply move_one_kept|done].
Qed.
End workers_keep.

(** The loops of the flow that move requests, in any order. *)
Inductive ss_action : Type :=
| APoll (queueName queueID : string) (cfg : SortedSetQueueConfig) (gate : InternalRequest -> gated)
    (now ingestion batchSize : Z) (budget : float64)
| ARetry (now : Z) (msg : option InternalRequest * Q) (channel : list (option InternalRequest * Q))
| AMove (now batchSize : Z).

Section lives.
Context (claimLeaseTTL : Z) (marshal : InternalRequest -> option string).
Context (unmarshal : string -> option InternalRequest) (defaultRequestQueue : string).

Definition ss_run (a : ss_action) : SM unit :=
  match a with
  | APoll q i cfg gate now ing n b => processMessagesWithConfig claimLeaseTTL unmarshal q i cfg gate now ing n b
  | ARetry now msg ch => retryWorker claimLeaseTTL marshal defaultRequestQueue now msg ch
  | AMove now n => retryMover unmarshal defaultRequestQueue now n
  end.

Fixpoint ss_runs (acts : list ss_action) : SM unit :=
  match acts with
  | [] => s_ret tt
  | a :: rest => s> ss_run a; ss_runs rest
  end.

Definition gates_label (a : ss_action) : Prop :=
  match a with APoll _ _ _ gate _ _ _ _ => gate_keeps gate | _ => True end.

Lemma ss_runs_kept cid acts :
  Forall gates_label acts -> keeps_rel (queue_kept (member_claim unmarshal) cid) any (ss_runs acts).
Proof.
  induction 1 as [|a acts Ha Hacts IH]; simpl; [by apply kr_ret|].
  apply (kr_bind _ any); [|done]. destruct a; simpl;
    auto using processMessages_kept, retryWorker_kept, retryMover_kept.
Qed.
End lives.

(** C3. Polling, retrying and moving due retries never lose a request: whatever
    calls to Redis fail (before or after taking effect), however the channel
    sends and the gates turn out, and whatever other flows do in between, as
    long as they too keep it, a request that is pending or claimed in a queue
    stays pending or claimed there, and its claim bookkeeping stays complete. *)
Theorem flow_keeps_requests claimLeaseTTL marshal unmarshal defaultRequestQueue cid acts s q :
  Forall gates_label acts ->
  Forall (fun f => forall r, keeps_in (member_claim unmarshal) cid r (f r)) (ss_others s) ->
  keys_good (member_claim unmarshal) (queue_at (ss_r s) q) ->
  in_queue (member_claim unmarshal) cid (queue_at (ss_r s) q) ->
  let s' := (ss_runs claimLeaseTTL marshal unmarshal defaultRequestQueue acts s).2 in
  keys_good (member_claim unmarshal) (queue_at (ss_r s') q) /\
  in_queue (member_claim unmarshal) cid (queue_at (ss_r s') q).
Proof.
  intros Hg Ho Hk Hin. destruct (ss_runs_kept claimLeaseTTL marshal unmarshal defaultRequestQueue cid acts Hg s) as [H _].
  destruct (H Ho) as [_ Hq]. destruct (Hq q Hk). auto.
Qed.

(** ** Claim handles *)
Section handles_of.
Context (cid : string).

(** The method, when it succeeds, leaves no handle for [cid]. *)
Definition drops {A : Type} (m : FlowM A) : Prop :=
  forall st a st', m st = (Ok a, st') -> st'.1.1 !! cid = None.

(** The method adds no handle. *)
Definition adds_none {A : Type} (m : FlowM A) : Prop :=
  forall st a st', m st = (a, st') -> st.1.1 !! cid = None -> st'.1.1 !! cid = None.

Lemma adds_ret {A : Type} (a : A) : adds_none (f_ret a).
Proof. by intros st a' st' [= _ <-]. Qed.
Lemma adds_do {A : Type} (f : Redis -> Redis * A) : adds_none (redis_do f).
Proof.
  intros [[h r] fs] a st'. unfold redis_do, f_call. destruct (f r). destruct (head fs) as [[]|]; by intros [= _ <-].
Qed.
Lemma adds_delete id : adds_none (handles (delete id)).
Proof. intros [[h r] fs] a st' [= _ <-] H. simpl in *. rewrite lookup_delete_None. by right. Qed.
Lemma adds_bind {A B : Type} (m : FlowM A) (k : A -> FlowM B) :
  adds_none m -> (forall a, adds_none (k a)) -> adds_none (f_bind m k).
Proof.
  intros Hm Hk st b st'. unfold f_bind. destruct (m st) as [[a|e] st1] eqn:E; intros H Hn.
  - eapply Hk; [exact H|]. eapply Hm; [exact E|done].
  - injection H as _ <-. eapply Hm; [exact E|done].
Qed.
Lemma adds_try {A : Type} (m : FlowM A) : adds_none m -> adds_none (f_try m).
Proof. intros Hm st a st'. unfold f_try. destruct (m st) as [r st1] eqn:E. intros [= _ <-]. by eapply Hm. Qed.

Lemma drops_handles : drops (handles (delete cid)).
Proof. intros [[h r] fs] a st' [= _ <-]. apply lookup_delete_eq. Qed.
Lemma drops_then {A B : Type} (m : FlowM A) (k : A -> FlowM B) : (forall a, drops (k a)) -> drops (f_bind m k).
Proof. intros Hk st b st'. unfold f_bind. destruct (m st) as [[a|e] st1]; [apply Hk|done]. Qed.
Lemma drops_first {A B : Type} (m : FlowM A) (k : A -> FlowM B) :
  drops m -> (forall a, adds_none (k a)) -> drops (f_bind m k).
Proof.
  intros Hm Hk st b st'. unfold f_bind. destruct (m st) as [[a|e] st1] eqn:E; [|done]. intros H.
  eapply Hk; [exact H|]. by eapply Hm.
Qed.
End handles_of.

Ltac adds := repeat (intros; cbv beta;
  first [apply adds_ret|apply adds_do|apply adds_delete|apply adds_try|apply adds_bind|assumption|case_match]).

Lemma ackResult_drops cl ttl now q l id tk p res listTTL : drops (claimKey id tk) (ackResult cl ttl now q l id tk p res listTTL).
Proof.
  unfold ackResult. apply drops_then. intros h. destruct cl.
  - apply drops_first; [|adds]. unfold ackResultCluster. case_match.
    + apply drops_then. intros r. apply drops_first; [apply drops_handles|adds].
    + unfold ackCrossSlot. apply drops_then. intros r. case_match; [apply drops_first; [apply drops_handles|adds]|].
      apply drops_then. intros u. apply drops_first; [apply drops_handles|adds].
  - apply drops_then. intros r. apply drops_first; [apply drops_handles|adds].
Qed.

Lemma ackResult_adds cid cl ttl now q l id tk p res listTTL : adds_none cid (ackResult cl ttl now q l id tk p res listTTL).
Proof.
  assert (forall i, adds_none cid (handle_of i)) as Hh by (intros i [[h r] fs] a st' [= _ <-]; done).
  unfold ackResult, ackResultCluster, ackCrossSlot. apply adds_bind; [done|adds].
Qed.

Lemma cleanup_adds cid id tk : adds_none cid (cleanupRequestStateByIDAndToken id tk).
Proof. unfold cleanupRequestStateByIDAndToken, deleteIfToken. adds. Qed.

Lemma renewClaim_adds cid ttl now q id tk dl token : adds_none cid (renewClaim ttl now q id tk dl token).
Proof. unfold renewClaim. adds. Qed.

(** [s] has a handle for [cid] only if it had one before. *)
Definition no_new (cid : string) (s s' : SS) : Prop := ss_h s !! cid = None -> ss_h s' !! cid = None.
#[local] Instance no_new_refl cid : Reflexive (no_new cid).
Proof. by intros s H. Qed.
#[local] Instance no_new_trans cid : Transitive (no_new cid).
Proof. intros s1 s2 s3 H1 H2 H. auto. Qed.

Lemma call_no_new {A : Type} cid (m : FlowM A) : adds_none cid m -> keeps_rel (no_new cid) any (s_call m).
Proof.
  intros Hm s. split; [|done]. unfold no_new, s_call. destruct (m _) as [a [[h' r'] fs']] eqn:E. simpl.
  intros H. eapply (Hm _ _ _ E). done.
Qed.

Lemma drop_handle_no_new cid id : keeps_rel (no_new cid) any (drop_handle id).
Proof. intros s. split; [|done]. intros H. simpl. rewrite lookup_delete_None. by right. Qed.

Lemma retry_last {A : Type} (R : SS -> SS -> Prop) `{!Reflexive R} `{!Transitive R} n (op : SM (Res RedisErr A)) s a s' :
  keeps_rel R any op -> retryRedisOp n op s = (Ok a, s') -> exists s0, R s s0 /\ op s0 = (Ok a, s').
Proof.
  intros Hop. revert s. induction n as [|n IH]; intros s; simpl; unfold s_bind;
    destruct (Hop s) as [Hs _]; destruct (op s) as [[x|e] s1] eqn:E;
    intros H; try (injection H as <- <-; by exists s); try discriminate H.
  destruct n; [discriminate H|]. destruct (IH s1 H) as (s0 & H0 & E0). exists s0. split; [|done]. by etrans.
Qed.

Definition result_claim (r : ResultMessage) : string := claimKey (res_ID r) (rt_RequestToken (res_Routing r)).

Ltac ret := apply kr_ret; [apply _|done].

Section results.
Context (cl : bool) (ttl : Z) (marshalResult : ResultMessage -> string) (dflt : string).
Context (configMap : gmap string SortedSetQueueConfig).

Lemma flush_result_no_new cid now r :
  keeps_rel (no_new cid) any (flush_result cl ttl marshalResult dflt configMap now r).
Proof.
  unfold flush_result. destruct (result_route _ _ _) as [[rq t] cq]. apply (kr_bind _ any).
  - apply kr_retry; [apply _..|]. apply call_no_new, ackResult_adds.
  - intros [[]|e] _; [|ret|apply drop_handle_no_new].
    apply (kr_bind _ any); [apply call_no_new, cleanup_adds|intros; ret].
Qed.

Lemma flush_result_drops now r s :
  ss_h (flush_result cl ttl marshalResult dflt configMap now r s).2 !! result_claim r = None.
Proof.
  unfold flush_result. destruct (result_route _ _ _) as [[rq t] cq]. unfold s_bind at 1.
  destruct (retryRedisOp _ _ s) as [[ok|e] s1] eqn:E; [|apply lookup_delete_eq].
  assert (ss_h s1 !! result_claim r = None) as Hn.
  { apply (retry_last (no_new (result_claim r))) in E as (s0 & _ & E); [|apply call_no_new, ackResult_adds]. unfold s_call in E.
    destruct (ackResult _ _ _ _ _ _ _ _ _ _ _) as [x [[h' r'] fs']] eqn:Ea. injection E as -> <-.
    by eapply (ackResult_drops _ _ _ _ _ _ _ _ _ _ _ _ _ Ea). }
  destruct ok; [|done]. unfold s_bind.
  destruct (call_no_new (result_claim r) _ (cleanup_adds _ (res_ID r) (rt_RequestToken (res_Routing r))) s1) as [H _].
  destruct (s_call _ s1) as [x s2]. by apply H.
Qed.

Lemma flushResultBatch_no_new cid now batch :
  keeps_rel (no_new cid) any (flushResultBatch cl ttl marshalResult dflt configMap now batch).
Proof.
  induction batch as [|r batch IH]; simpl; [ret|]. apply (kr_bind _ any); [apply flush_result_no_new|done].
Qed.

(** Whatever the Redis calls do, once the result worker has dealt with a
    batch it keeps no claim of it: each result was acked, was fenced as another
    flow's, or was given up after three tries, and the claim's handle is gone,
    so that no heartbeat extends its lease and the request is redelivered. *)
Theorem result_worker_lets_go now msg channel r s :
  r ∈ drainBatch msg channel ->
  ss_h (resultWorker cl ttl marshalResult dflt configMap now msg channel s).2 !! result_claim r = None.
Proof.
  unfold resultWorker. unfold s_bind. destruct (release_each _ s) as [[] s1]. clear s. revert s1.
  induction (drainBatch msg channel) as [|r' batch IH]; [by intros s ?%not_elem_of_nil|].
  intros s [<-|Hr]%elem_of_cons; simpl; unfold s_bind.
  - pose proof (flush_result_drops now r s) as Hd. destruct (flush_result _ _ _ _ _ _ _ s) as [[] s1].
    destruct (flushResultBatch_no_new (result_claim r) now batch s1) as [H _]. by apply H.
  - destruct (flush_result _ _ _ _ _ _ _ s) as [[] s1]. by apply IH.
Qed.
End results.

(** ** Retries wait for their due time *)
Definition pending_at (r : Redis) (q : string) : gmap string Q := pending (queue_at r q).

Section moves.
Context (unmarshal : string -> option InternalRequest) (defaultRequestQueue : string) (ms : list string).

Definition origin_of (ir : InternalRequest) : string := or_else (rt_RequestQueueName (ir_Routing ir)) defaultRequestQueue.

(** Only the members of [ms] move, each to its origin queue at its own score. *)
Definition moves (r r' : Redis) : Prop :=
  (forall m, m ∉ ms -> retryset r' !! m = retryset r !! m) /\
  (forall q m sc, pending_at r' q !! m = Some sc ->
     pending_at r q !! m = Some sc \/
     m ∈ ms /\ exists ir, unmarshal m = Some ir /\ q = origin_of ir /\ sc = score_of ir).

Definition moves_rel (s s' : SS) : Prop := ss_others s = [] -> ss_others s' = [] /\ moves (ss_r s) (ss_r s').

#[local] Instance moves_rel_refl : Reflexive moves_rel.
Proof. intros s Ho. split; [done|]. split; [done|]. auto. Qed.
#[local] Instance moves_rel_trans : Transitive moves_rel.
Proof.
  intros s1 s2 s3 H1 H2 Ho. destruct (H1 Ho) as [Ho2 [R1 P1]]. destruct (H2 Ho2) as [Ho3 [R2 P2]].
  split; [done|]. split; [intros m Hm; by rewrite R2, R1|]. intros q m sc [?|?]%P2; auto.
Qed.

Lemma call_moves {A : Type} (f : Redis -> Redis * A) :
  (forall r, moves r (f r).1) -> keeps_rel moves_rel any (s_call (redis_do f)).
Proof.
  intros Hf s. split; [|done]. intros Ho. unfold s_call, redis_do, f_call. rewrite Ho. simpl.
  specialize (Hf (ss_r s)). destruct (f (ss_r s)) as [r' a].
  destruct (head (ss_fs s)) as [[]|]; simpl in *; (split; [done|]); try exact Hf; split; auto.
Qed.

Lemma moves_retryset m f r : m ∈ ms -> (forall m', m' <> m -> f !! m' = retryset r !! m') -> moves r (set_retryset f r).
Proof. intros Hm Hf. split; [|by left]. intros m' Hm'. simpl. apply Hf. by intros ->. Qed.

Lemma move_one_moves now m : m ∈ ms -> keeps_rel moves_rel any (move_one unmarshal defaultRequestQueue now m).
Proof.
  intros Hm. unfold move_one. apply (kr_bind _ any).
  { apply call_moves. intros r. apply (moves_retryset m); [done|]. intros m' ?. by apply lookup_delete_ne. }
  intros [n|e] _; [|ret]. case_match; [ret|]. destruct (unmarshal m) as [ir|] eqn:Eu; [|ret]. case_match; [|ret].
  apply (kr_bind _ any).
  - apply call_moves. intros rd. split; [done|]. intros q m' sc. unfold pending_at. simpl. rewrite queue_at_set.
    case_decide as Hq; [|by left]. simpl. rewrite lookup_insert_Some. intros [[<- <-]|[_ ?]]; [|by subst; left].
    right. split; [done|]. by exists ir.
  - intros [u|e] _; [ret|]. apply (kr_bind _ any); [|intros; ret]. apply call_moves. intros rd.
    apply (moves_retryset m); [done|]. intros m' ?. by apply lookup_insert_ne.
Qed.

Lemma move_each_moves now l : l ⊆ ms -> keeps_rel moves_rel any (move_each unmarshal defaultRequestQueue now l).
Proof.
  induction l as [|m l IH]; simpl; intros Hl; [ret|].
  apply (kr_bind _ any); [apply move_one_moves; set_solver|intros; apply IH; set_solver].
Qed.
End moves.

Lemma due_members_due now count r m : m ∈ due_members now count r -> exists sc, retryset r !! m = Some sc /\ Qle_bool sc now = true.
Proof.
  unfold due_members. intros [[m' sc] [-> Hin]]%list_elem_of_fmap. exists sc.
  assert ((m', sc) ∈ filter (fun ms => Qle_bool ms.2 now = true) (merge_sort zset_le (map_to_list (retryset r)))) as Hf.
  { case_match; [done|]. eapply elem_of_sublist; [done|apply sublist_take]. }
  apply list_elem_of_filter in Hf as [Hle Hf]. split; [|done].
  rewrite (merge_sort_Permutation zset_le) in Hf. by apply elem_of_map_to_list in Hf.
Qed.

(** A tick moves only what is due. *)
Lemma mover_tick unmarshal dq now count s :
  ss_others s = [] ->
  exists ms, (forall m, m ∈ ms -> exists sc, retryset (ss_r s) !! m = Some sc /\ Qle_bool sc (inject_Z (Unix now)) = true) /\
    moves_rel unmarshal dq ms s (retryMover unmarshal dq now count s).2.
Proof.
  intros Ho. unfold retryMover, s_bind. destruct (s_call _ s) as [[l|e] s1] eqn:E.
  all: unfold s_call, redis_do, f_call in E; rewrite Ho in E; simpl in E.
  - assert (l = due_members (inject_Z (Unix now)) count (ss_r s) /\ ss_r s1 = ss_r s /\ ss_others s1 = []) as (-> & Hr & Ho1).
    { destruct (head (ss_fs s)) as [[]|]; simplify_eq/=; auto. }
    exists (due_members (inject_Z (Unix now)) count (ss_r s)). split; [apply due_members_due|].
    intros _. rewrite <- Hr.
    destruct (move_each_moves unmarshal dq (due_members (inject_Z (Unix now)) count (ss_r s1)) (inject_Z (Unix now))
      (due_members (inject_Z (Unix now)) count (ss_r s1)) ltac:(done) s1) as [H _]. by apply H.
  - exists []. split; [by intros m ?%not_elem_of_nil|]. intros _.
    destruct (head (ss_fs s)) as [[]|]; simplify_eq/=; by repeat split; auto.
Qed.

(** Ticks of the mover at times [ts]. *)
Fixpoint mover_ticks (unmarshal : string -> option InternalRequest) (dq : string) (ts : list (Z * Z)) : SM unit :=
  match ts with
  | [] => s_ret tt
  | (now, count) :: rest => s> retryMover unmarshal dq now count; mover_ticks unmarshal dq rest
  end.

Lemma mover_waits unmarshal dq ts m sc : forall s,
  ss_others s = [] -> retryset (ss_r s) !! m = Some sc ->
  Forall (fun t => (inject_Z (Unix t.1) < sc)%Q) ts ->
  retryset (ss_r (mover_ticks unmarshal dq ts s).2) !! m = Some sc.
Proof.
  induction ts as [|[now count] ts IH]; intros s Ho Hm Hts; simpl; [done|].
  apply Forall_cons in Hts as [Ht Hts]. simpl in Ht. unfold s_bind.
  destruct (mover_tick unmarshal dq now count s Ho) as (ms & Hdue & Hmv).
  destruct (retryMover _ _ _ _ s) as [[] s1]. simpl in Hmv. destruct (Hmv Ho) as [Ho1 [Hset _]].
  apply IH; [done| |done]. rewrite Hset; [done|]. intros (sc' & Hsc' & Hle)%Hdue. rewrite Hm in Hsc'. injection Hsc' as <-.
  apply Qle_bool_iff in Hle. by apply Qlt_not_le in Ht.
Qed.

(** The retry set only gains members. *)
Section persisted.
Context (es : list retryEntry).

Definition parked (r : Redis) (m : string) : Prop :=
  exists e, e ∈ es /\ re_member e = m /\ retryset r !! m = Some (re_score e).

Definition parks (s s' : SS) : Prop :=
  ss_others s = [] -> ss_others s' = [] /\ forall m, parked (ss_r s) m -> parked (ss_r s') m.

#[export] Instance parks_refl : Reflexive parks.
Proof. by intros s. Qed.
#[export] Instance parks_trans : Transitive parks.
Proof. intros s1 s2 s3 H1 H2 Ho. destruct (H1 Ho) as [Ho2 K1]. destruct (H2 Ho2) as [Ho3 K2]. split; auto. Qed.

Lemma call_parks {A : Type} (f : Redis -> Redis * A) :
  (forall r m, parked r m -> parked (f r).1 m) -> keeps_rel parks any (s_call (redis_do f)).
Proof.
  intros Hf s. split; [|done]. intros Ho. unfold s_call, redis_do, f_call. rewrite Ho. simpl.
  specialize (Hf (ss_r s)). destruct (f (ss_r s)) as [r' a]. destruct (head (ss_fs s)) as [[]|]; by split.
Qed.

Abbreviation park_cmd e := (s_call (zadd_retry (re_member e) (re_score e))).

Lemma park_parks e : e ∈ es -> keeps_rel parks any (park_cmd e).
Proof.
  intros He. apply call_parks. intros r m (e' & He' & Hm & Hr). simpl.
  destruct (decide (re_member e = m)) as [<-|].
  - exists e. split_and!; [done..|]. apply lookup_insert_eq.
  - exists e'. split_and!; [done..|]. simpl. by rewrite lookup_insert_ne.
Qed.

Lemma park_ok e s s' : e ∈ es -> ss_others s = [] -> park_cmd e s = (Ok tt, s') -> parked (ss_r s') (re_member e).
Proof.
  intros He Ho. unfold s_call, zadd_retry, redis_do, f_call. rewrite Ho. simpl. intros E.
  exists e. split_and!; [done..|]. destruct (head (ss_fs s)) as [[]|]; simplify_eq/=; apply lookup_insert_eq.
Qed.

Lemma pipe_parks l : l ⊆ es -> keeps_rel parks any (pipe_exec ((fun e => park_cmd e) <$> l)).
Proof.
  induction l as [|e l IH]; intros Hl; simpl; [ret|]. apply (kr_bind _ any); [apply park_parks; set_solver|].
  intros r _. apply (kr_bind _ any); [apply IH; set_solver|]. intros r' _. ret.
Qed.

Lemma pipe_ok l : l ⊆ es -> forall s s', ss_others s = [] ->
  pipe_exec ((fun e => park_cmd e) <$> l) s = (Ok tt, s') -> forall e, e ∈ l -> parked (ss_r s') (re_member e).
Proof.
  induction l as [|e l IH]; intros Hl s s' Ho; [by intros _ e ?%not_elem_of_nil|]. rewrite fmap_cons. cbn [pipe_exec]. unfold s_bind, s_ret.
  destruct (park_cmd e s) as [r1 s1] eqn:E1. destruct (pipe_exec _ s1) as [r2 s2] eqn:E2.
  assert (ss_others s1 = []) as Ho1.
  { destruct (park_parks e ltac:(set_solver) s) as [H _]. rewrite E1 in H. by apply H. }
  intros [= H <-]. destruct r1 as [[]|e1]; [|done]. subst r2. intros e0 [->|He]%elem_of_cons; [|eapply IH; eauto; set_solver].
  destruct (pipe_parks l ltac:(set_solver) s1) as [H _]. rewrite E2 in H. apply H; [done|].
  eapply park_ok; [set_solver|exact Ho|exact E1].
Qed.

Lemma renew_parks ttl now l : keeps_rel parks any (renew_retried ttl now l).
Proof.
  induction l as [|e l IH]; simpl; [ret|]. apply (kr_bind _ any); [|done].
  intros s. unfold renew_retried_one. set (token := match _ with Some h => h_token h | None => "" end).
  clearbody token. refine ((_ : keeps_rel parks any _) s). case_decide; [ret|].
  apply (kr_bind _ any); [apply call_parks|].
  - intros r m (e' & He & Hm & Hr). exists e'. split_and!; [done..|]. by rewrite <- Hr; unfold on_queue; case_match.
  - intros [res|er] _; [case_match|]; try ret. intros s0. split; [|done]. by intros Ho.
Qed.

Lemma drop_retried_drops l e s : e ∈ l -> re_requestID e <> "" ->
  ss_h (drop_retried l s).2 !! claimKey (re_requestID e) (re_requestToken e) = None.
Proof.
  revert s. induction l as [|e' l IH]; intros s; [by intros ?%not_elem_of_nil|].
  assert (forall l s cid, ss_h s !! cid = None -> ss_h (drop_retried l s).2 !! cid = None) as Hkeep.
  { clear. induction l as [|e l IH]; intros s cid Hn; simpl; [done|]. unfold s_bind.
    case_decide; simpl; apply IH; [|done]. simpl. rewrite lookup_delete_None. by right. }
  intros [->|He]%elem_of_cons Hid; simpl; unfold s_bind.
  - rewrite decide_True by done. simpl. apply Hkeep, lookup_delete_eq.
  - case_match eqn:E. by apply IH.
Qed.
End persisted.

Lemma release_each_others ids : forall s, ss_others (release_each ids s).2 = ss_others s.
Proof. induction ids as [|id ids IH]; intros s; simpl; [done|]. unfold s_bind. simpl. by rewrite IH. Qed.

(** A retry waits for its backoff.  Whatever the Redis calls do, after the
    retry worker has dealt with a batch, either every request of it is in the
    retry queue, due at the time of the flush plus its backoff (in floating
    point), and no tick of the mover takes it out before that time; or the
    batch could not be written and no claim of it is kept alive, so that the
    reclaim loop redelivers it. *)
Theorem retry_backoff_enforced ttl marshal unmarshal dq now msg channel s :
  ss_others s = [] ->
  let es := omap (retry_entry marshal dq now) (drainBatch msg channel) in
  let s1 := (retryWorker ttl marshal dq now msg channel s).2 in
  (forall e, e ∈ es -> re_requestID e <> "" -> ss_h s1 !! claimKey (re_requestID e) (re_requestToken e) = None) \/
  (forall e, e ∈ es -> exists e', e' ∈ es /\ re_member e' = re_member e /\
     forall ts, Forall (fun t => (inject_Z (Unix t.1) < re_score e')%Q) ts ->
       retryset (ss_r (mover_ticks unmarshal dq ts s1).2) !! re_member e = Some (re_score e')).
Proof.
  intros Ho es s1. subst s1. unfold retryWorker, flushRetryBatch. fold es.
  pose proof (release_each_others (omap retried_id (drainBatch msg channel)) s) as Ho1. rewrite Ho in Ho1.
  unfold s_bind. destruct (release_each _ s) as [[] s1]. simpl in Ho1.
  pose proof (kr_retry (parks es) (pipe_exec ((fun e => s_call (zadd_retry (re_member e) (re_score e))) <$> es)) maxRetries
    (pipe_parks es es (fun _ H => H)) s1) as [Hp _].
  destruct (retryRedisOp _ _ s1) as [[[]|er] s2] eqn:E; simpl in Hp.
  - right. intros e He. apply (retry_last (parks es)) in E as (s0 & H0 & E); [|exact (pipe_parks es es (fun _ H => H))].
    destruct (Hp Ho1) as [Ho2 _]. destruct (H0 Ho1) as [Ho0 _].
    destruct (renew_parks es ttl now es s2) as [Hr _]. destruct (Hr Ho2) as [Ho3 Hr3].
    destruct (Hr3 (re_member e)) as (e' & He' & Hm & Hs); [exact (pipe_ok es es (fun _ H => H) s0 s2 Ho0 E e He)|].
    exists e'. split_and!; [done..|]. intros ts Hts. by apply mover_waits.
  - left. intros e He Hid. by apply drop_retried_drops.
Qed.

(** ** The gates' releases *)
Definition ss_held (s : SS) : list nat := active_ids (ss_active s) ++ ss_released s.
Definition sends (s : SS) : Prop := Forall (eq true) (ss_selects s).

(** Run with the releases [i] in hand, [m] ends with [o] in hand and accounts
    for the rest: each is tracked or has run, or was lost in a send that lost
    its select. *)
Definition accounts {A : Type} (i : list nat) (m : SM A) (o : A -> list nat) : Prop :=
  forall s, exists lost,
    ss_held (m s).2 ++ o (m s).1 ++ lost ++ ss_handed s ≡ₚ ss_held s ++ i ++ ss_handed (m s).2 /\
    (sends s -> sends (m s).2 /\ lost = []).

Lemma acc_ret {A : Type} i (a : A) (o : A -> list nat) : o a ≡ₚ i -> accounts i (s_ret a) o.
Proof. intros Ho s. exists []. simpl. rewrite Ho. by split. Qed.

Lemma acc_bind {A B : Type} i (m : SM A) (o : A -> list nat) (k : A -> SM B) o' :
  accounts i m o -> (forall a, accounts (o a) (k a) o') -> accounts i (s_bind m k) o'.
Proof.
  intros Hm Hk s. unfold s_bind. destruct (Hm s) as (l1 & H1 & S1). destruct (m s) as [a s1]. simpl in *.
  destruct (Hk a s1) as (l2 & H2 & S2). exists (l1 ++ l2). split.
  - apply (Permutation_app_inv_r (ss_handed s1)).
    transitivity ((ss_held (k a s1).2 ++ o' (k a s1).1 ++ l2 ++ ss_handed s1) ++ l1 ++ ss_handed s); [solve_Permutation|].
    rewrite H2. transitivity ((ss_held s1 ++ o a ++ l1 ++ ss_handed s) ++ ss_handed (k a s1).2); [solve_Permutation|].
    rewrite H1. solve_Permutation.
  - intros Hs. destruct (S1 Hs) as [Hs1 ->]. destruct (S2 Hs1) as [Hs2 ->]. by split.
Qed.

(** Programs that touch no release. *)
Definition neutral {A : Type} (m : SM A) : Prop :=
  forall s, ss_active (m s).2 = ss_active s /\ ss_released (m s).2 = ss_released s /\
    ss_handed (m s).2 = ss_handed s /\ (sends s -> sends (m s).2).

Lemma acc_neutral {A : Type} i (m : SM A) : neutral m -> accounts i m (fun _ => i).
Proof.
  intros Hm s. exists []. unfold ss_held. destruct (Hm s) as (-> & -> & -> & Hs). split; [done|]. by split; [apply Hs|].
Qed.

Lemma neutral_ret {A : Type} (a : A) : neutral (s_ret a).
Proof. by intros s. Qed.

Lemma neutral_bind {A B : Type} (m : SM A) (k : A -> SM B) :
  neutral m -> (forall a, neutral (k a)) -> neutral (s_bind m k).
Proof.
  intros Hm Hk s. unfold s_bind. destruct (Hm s) as (E1 & E2 & E3 & Hs). destruct (m s) as [a s1]. simpl in *.
  destruct (Hk a s1) as (-> & -> & -> & Hs'). by split_and!; auto.
Qed.

Lemma neutral_call {A : Type} (m : FlowM A) : neutral (s_call m).
Proof. intros s. unfold s_call. destruct (m _) as [a [[h r] fs]]. by split_and!. Qed.

Lemma neutral_retry {A : Type} n (op : SM (Res RedisErr A)) : neutral op -> neutral (retryRedisOp n op).
Proof.
  intros Hop. induction n as [|n IH]; simpl; apply neutral_bind; try done; intros [a|e]; try apply neutral_ret.
  destruct n; [apply neutral_ret|apply IH].
Qed.

Lemma sends_tail s l : sends s -> l = tail (ss_selects s) -> Forall (eq true) l.
Proof. unfold sends. intros H ->. by inversion H. Qed.

Lemma neutral_send_result r : neutral (send_result r).
Proof. intros s. unfold send_result. case_match; split_and!; try done; intros Hs; by eapply sends_tail. Qed.

Lemma neutral_next : neutral next_claim.
Proof. by intros s. Qed.

Lemma neutral_drop_handle id : neutral (drop_handle id).
Proof. by intros s. Qed.

Ltac neutral := repeat (intros; cbv beta; first [apply neutral_ret|apply neutral_call|apply neutral_retry
  |apply neutral_send_result|apply neutral_next|apply neutral_drop_handle|apply neutral_bind|assumption|case_match]).

Lemma neutral_hand_back q ir member token : neutral (hand_back q ir member token).
Proof. unfold hand_back. neutral. Qed.

Lemma neutral_claim ttl q ir member d : neutral (claim ttl q ir member d).
Proof. unfold claim. neutral. Qed.

Lemma neutral_answer ttl q ir member d cl res : neutral (answer ttl q ir member d cl res).
Proof.
  unfold answer. apply neutral_bind; [apply neutral_claim|]. intros [token|]; [|apply neutral_ret].
  apply neutral_bind; [neutral|]. intros _. apply neutral_bind; [neutral|]. intros [|]; [neutral|].
  apply neutral_bind; [apply neutral_hand_back|neutral].
Qed.

Lemma acc_run rels : accounts rels (run_releases rels) (fun _ => []).
Proof. intros s. exists []. unfold ss_held. simpl. split; [solve_Permutation|]. by intros. Qed.

Lemma acc_handed rels i : accounts i (handed_out rels) (fun _ => i ++ rels).
Proof. intros s. exists []. unfold ss_held. simpl. split; [solve_Permutation|]. by intros. Qed.

Lemma acc_release_active id : accounts [] (release_active id) (fun _ => []).
Proof.
  intros s. exists []. unfold ss_held. simpl. split; [|by intros].
  rewrite <- (active_ids_delete (ss_active s) id). solve_Permutation.
Qed.

Lemma acc_dispatch ing ir rels : accounts rels (dispatch ing ir rels) (fun sent => if sent then [] else rels).
Proof.
  intros s. unfold dispatch. set (id := rm_ID (view ir)).
  destruct rels as [|x rels]; unfold ss_held; simpl.
  - destruct (default true (head (ss_selects s))) eqn:E; simpl.
    + exists []. split; [done|]. intros Hs. split; [by eapply sends_tail|done].
    + exists (default [] (ss_active s !! id)). split.
      * rewrite <- (active_ids_delete (ss_active s) id). solve_Permutation.
      * intros Hs. unfold sends in Hs. destruct (ss_selects s); inversion Hs; by subst.
  - exists []. destruct (default true (head (ss_selects s))) eqn:E; simpl.
    + split; [|intros Hs; split; [by eapply sends_tail|done]].
      rewrite (Permutation_app_comm (ss_released s)), (app_assoc (active_ids _)), active_ids_overwrite. solve_Permutation.
    + split; [|intros Hs; unfold sends in Hs; destruct (ss_selects s); inversion Hs; by subst].
      rewrite delete_insert_eq, <- (active_ids_delete (ss_active s) id). solve_Permutation.
Qed.

Lemma acc_frame {A : Type} f i (m : SM A) o : accounts i m o -> accounts (f ++ i) m (fun a => f ++ o a).
Proof.
  intros Hm s. destruct (Hm s) as (lost & H & Hs). exists lost. split; [|done].
  transitivity (f ++ (ss_held (m s).2 ++ o (m s).1 ++ lost ++ ss_handed s)); [solve_Permutation|].
  rewrite H. solve_Permutation.
Qed.

Lemma acc_perm {A : Type} i i' (m : SM A) o o' :
  i ≡ₚ i' -> (forall a, o a ≡ₚ o' a) -> accounts i m o -> accounts i' m o'.
Proof. intros Hi Ho Hm s. destruct (Hm s) as (lost & H & Hs). exists lost. rewrite <- Ho, <- Hi. by split. Qed.

Definition carried (cs : list claimedRequest) : list nat := mjoin (cr_releases <$> cs).

Lemma carried_snoc cs c : carried (cs ++ [c]) ≡ₚ carried cs ++ cr_releases c.
Proof. unfold carried. rewrite fmap_app, join_app. simpl. by rewrite app_nil_r. Qed.

(** A gate that drops a request holds nothing for it. *)
Definition drop_holds_nothing (gate : InternalRequest -> gated) : Prop :=
  forall ir v, gd_verdict (gate ir) = Ok v -> v_Action v = ActionDrop -> gd_releases (gate ir) = [].

Section poll_accounts.
Context (claimLeaseTTL : Z) (unmarshal : string -> option InternalRequest).
Context (queueName queueID : string) (cfg : SortedSetQueueConfig).
Context (gate : InternalRequest -> gated) (now ingestion : Z).
Hypothesis Hdrop : drop_holds_nothing gate.

Lemma run_then {A : Type} rels f (a : A) (o : A -> list nat) :
  o a ≡ₚ f -> accounts (f ++ rels) (s_bind (run_releases rels) (fun _ => s_ret a)) o.
Proof.
  intros Ho. eapply acc_bind; [apply acc_frame, acc_run|]. intros u. apply acc_ret. by rewrite Ho, app_nil_r.
Qed.

Lemma acc_after_gate ir member d ready :
  accounts (carried ready) (after_gate claimLeaseTTL queueName gate ingestion ir member d ready) (fun cr => carried cr.2).
Proof.
  unfold after_gate. set (g := gate ir). eapply acc_bind; [apply acc_handed|]. intros ?; cbv beta.
  assert (accounts (carried ready ++ gd_releases g) (s_bind (claim claimLeaseTTL queueName (gd_ir g) member d) (fun t =>
    match t with
    | None => s_bind (run_releases (gd_releases g)) (fun _ => s_ret (Go, ready))
    | Some token =>
        if decide (rt_PayloadRef (ir_Routing (gd_ir g)) <> "")
        then s_ret (Go, ready ++ [mkClaimed (gd_ir g) member token (gd_releases g)])
        else s_bind (dispatch ingestion (gd_ir g) (gd_releases g)) (fun sent =>
          if sent : bool then s_ret (Go, ready)
          else s_bind (hand_back queueName (gd_ir g) member token) (fun _ =>
               s_bind (run_releases (gd_releases g)) (fun _ => s_ret (Halt, ready))))
    end)) (fun cr => carried cr.2)) as Hclaim.
  { eapply acc_bind; [apply acc_neutral, neutral_claim|]. intros [token|]; [|by apply run_then].
    case_decide; [apply acc_ret, carried_snoc|].
    eapply acc_bind; [apply acc_frame, acc_dispatch|]. intros []; [apply acc_ret; by rewrite app_nil_r|].
    eapply acc_bind; [apply acc_neutral, neutral_hand_back|]. intros ?; cbv beta. by apply run_then. }
  destruct (gd_verdict g) as [v|e] eqn:Ev; [|by apply run_then].
  destruct (v_Action v) eqn:Ea; [exact Hclaim| |by apply run_then|exact Hclaim].
  pose proof (Hdrop ir v Ev Ea) as Hnone. fold g in Hnone. rewrite Hnone, app_nil_r. eapply acc_bind; [apply acc_neutral, neutral_answer|]. intros c. by apply acc_ret.
Qed.

Lemma acc_poll_one member ready :
  accounts (carried ready) (poll_one claimLeaseTTL unmarshal queueName queueID cfg gate now ingestion member ready)
    (fun cr => carried cr.2).
Proof.
  unfold poll_one. destruct (parseMessage unmarshal member) as [[ir0 d]|].
  - case_match; (eapply acc_bind; [apply acc_neutral; first [apply neutral_answer|apply neutral_call]|]).
    + intros c. by apply acc_ret.
    + intros [[]|e]; try apply acc_after_gate.
      eapply acc_bind; [apply acc_neutral, neutral_answer|]. intros c. by apply acc_ret.
  - eapply acc_bind; [apply acc_neutral, neutral_call|]. intros c. by apply acc_ret.
Qed.

Lemma acc_poll_loop members : forall ready,
  accounts (carried ready) (poll_loop claimLeaseTTL unmarshal queueName queueID cfg gate now ingestion members ready)
    (fun cr => carried cr.2).
Proof.
  induction members as [|m members IH]; intros ready; simpl; [by apply acc_ret|].
  eapply acc_bind; [apply acc_poll_one|]. intros [[] ready']; simpl; [apply IH|by apply acc_ret].
Qed.

Lemma acc_releaseClaimed cs : accounts (carried cs) (releaseClaimed queueName cs) (fun _ => []).
Proof.
  induction cs as [|c cs IH]; simpl; [by apply acc_ret|].
  eapply acc_bind; [apply acc_neutral, neutral_hand_back|]. intros ?; cbv beta.
  apply (acc_perm (carried cs ++ cr_releases c) _ _ (fun _ => []) _); [apply Permutation_app_comm|done|].
  eapply acc_bind; [apply acc_frame, acc_run|]. intros ?; cbv beta. by rewrite app_nil_r.
Qed.

Lemma attach_releases cs vs : length vs = length cs -> carried (zip_with attach cs vs).*1 = carried cs.
Proof.
  revert vs. induction cs as [|c cs IH]; intros [|v vs] Hl; try done. unfold carried in *. simpl in *.
  rewrite IH by lia. f_equal. unfold attach. destruct v; [|done]. by destruct (AttachPayload _ _).
Qed.

Lemma acc_fetchPayloads cs :
  accounts (carried cs) (fetchPayloads cs) (fun p => match p with Some l => carried l.*1 | None => carried cs end).
Proof.
  intros s. pose proof (neutral_call (readPayloads ((fun c => rt_PayloadRef (ir_Routing (cr_ir c))) <$> cs)) s) as Hn.
  exists []. unfold fetchPayloads, s_bind, s_ret. destruct (s_call _ s) as [[vs|e] s1] eqn:E; simpl in *.
  all: unfold ss_held; destruct Hn as (-> & -> & -> & Hs); (split; [|by split; [apply Hs|]]).
  - rewrite attach_releases; [done|]. unfold s_call, readPayloads, redis_do, f_call in E. simpl in E.
    destruct (head (ss_fs s)) as [[]|]; simplify_eq/=; by rewrite !length_fmap.
  - done.
Qed.

Lemma acc_send_ready cs : accounts (carried cs.*1) (send_ready queueName ingestion cs) (fun _ => []).
Proof.
  induction cs as [|[c err] cs IH]; [by apply acc_ret|]. cbn [send_ready].
  apply (acc_perm (carried cs.*1 ++ cr_releases c) _ _ (fun _ => []) _); [apply Permutation_app_comm|done|].
  assert (accounts (carried cs.*1 ++ cr_releases c) (releaseClaimed queueName (c :: cs.*1)) (fun _ => [])) as Hback.
  { apply (acc_perm (carried (c :: cs.*1)) _ _ (fun _ => []) _); [apply Permutation_app_comm|done|apply acc_releaseClaimed]. }
  case_decide.
  - eapply acc_bind; [apply acc_neutral, neutral_send_result|]. intros []; [|exact Hback].
    eapply acc_bind; [apply acc_frame, acc_run|]. intros ?; cbv beta. by rewrite app_nil_r.
  - eapply acc_bind; [apply acc_frame, acc_dispatch|]. intros []; [by rewrite app_nil_r|exact Hback].
Qed.

Lemma acc_processMessages batchSize budget :
  accounts [] (processMessagesWithConfig claimLeaseTTL unmarshal queueName queueID cfg gate now ingestion batchSize budget)
    (fun _ => []).
Proof.
  unfold processMessagesWithConfig. case_match.
  { eapply acc_bind; [apply acc_neutral, neutral_call|]. intros r. by apply acc_ret. }
  eapply acc_bind; [apply acc_neutral, neutral_call|]. intros [zs|e]; [|by apply acc_ret].
  eapply acc_bind; [apply (acc_poll_loop _ [])|]. intros [[] ready]; [|apply acc_releaseClaimed].
  destruct ready as [|c ready]; [by apply acc_ret|].
  eapply acc_bind; [apply acc_fetchPayloads|]. intros [cs|]; [apply acc_send_ready|apply acc_releaseClaimed].
Qed.
End poll_accounts.

(** *** Over the flow's life *)
Inductive life_action : Type :=
| LMove (a : ss_action)
| LResult (now : Z) (msg : ResultMessage) (channel : list ResultMessage).

Section life.
Context (clusterKeys : bool) (claimLeaseTTL : Z) (marshal : InternalRequest -> option string).
Context (unmarshal : string -> option InternalRequest) (marshalResult : ResultMessage -> string).
Context (defaultRequestQueue defaultResultQueue : string) (configMap : gmap string SortedSetQueueConfig).

Definition life_run (a : life_action) : SM unit :=
  match a with
  | LMove a => ss_run claimLeaseTTL marshal unmarshal defaultRequestQueue a
  | LResult now msg ch => resultWorker clusterKeys claimLeaseTTL marshalResult defaultResultQueue configMap now msg ch
  end.

Fixpoint life (acts : list life_action) : SM unit :=
  match acts with
  | [] => s_ret tt
  | a :: rest => s> life_run a; life rest
  end.

Definition drops_free (a : life_action) : Prop :=
  match a with LMove (APoll _ _ _ gate _ _ _ _) => drop_holds_nothing gate | _ => True end.

Lemma acc_release_each ids : accounts [] (release_each ids) (fun _ => []).
Proof.
  induction ids as [|id ids IH]; simpl; [by apply acc_ret|]. eapply acc_bind; [apply acc_release_active|done].
Qed.

Lemma neutral_retryFlush now batch : neutral (flushRetryBatch claimLeaseTTL marshal defaultRequestQueue now batch).
Proof.
  unfold flushRetryBatch. set (es := omap _ _). apply neutral_bind.
  - apply neutral_retry. induction es as [|e es IH]; simpl; neutral.
  - intros [u|er]; [|induction es as [|e es IH]; simpl; neutral].
    induction es as [|e es IH]; simpl; [neutral|]. apply neutral_bind; [|done]. intros s. unfold renew_retried_one.
    set (token := match _ with Some h => h_token h | None => "" end). clearbody token.
    refine ((_ : neutral _) s). neutral.
Qed.

Lemma neutral_mover now count : neutral (retryMover unmarshal defaultRequestQueue now count).
Proof.
  unfold retryMover. apply neutral_bind; [neutral|]. intros [ms|e]; [|neutral].
  induction ms as [|m ms IH]; simpl; [neutral|]. apply neutral_bind; [|done]. unfold move_one. neutral.
Qed.

Lemma neutral_resultFlush now batch :
  neutral (flushResultBatch clusterKeys claimLeaseTTL marshalResult defaultResultQueue configMap now batch).
Proof.
  induction batch as [|r batch IH]; simpl; [neutral|]. apply neutral_bind; [|done]. unfold flush_result.
  destruct (result_route _ _ _) as [[rq t] cq]. neutral.
Qed.

Lemma acc_life acts : Forall drops_free acts -> accounts [] (life acts) (fun _ => []).
Proof.
  induction 1 as [|a acts Ha Hacts IH]; simpl; [by apply acc_ret|]. apply (acc_bind _ _ (fun _ => [])); [|done].
  destruct a as [[q i cfg gate now ing n b|now msg ch|now n]|now msg ch]; simpl in *.
  - by apply acc_processMessages.
  - eapply acc_bind; [apply acc_release_each|]. intros u. apply acc_neutral, neutral_retryFlush.
  - apply acc_neutral, neutral_mover.
  - eapply acc_bind; [apply acc_release_each|]. intros u. apply acc_neutral, neutral_resultFlush.
Qed.

(** Over any run of the flow's loops, with any Redis failures, no release
    function a gate hands out runs twice; and as long as every channel send
    goes through, each one has run or waits in activeReleases for its request
    to settle: none is lost. *)
Theorem ss_releases_once acts s :
  Forall drops_free acts -> ss_active s = ∅ -> ss_released s = [] -> ss_handed s = [] ->
  let s' := (life acts s).2 in
  NoDup (ss_handed s') ->
  NoDup (ss_released s') /\
  (forall x, x ∈ ss_released s' \/ x ∈ active_ids (ss_active s') -> x ∈ ss_handed s') /\
  (sends s -> forall x, x ∈ ss_handed s' -> x ∈ ss_released s' \/ x ∈ active_ids (ss_active s')).
Proof.
  intros Hd Ha Hr Hh s' Hnd. destruct (acc_life acts Hd s) as (lost & H & Hs). fold s' in H.
  assert (ss_held s = []) as H0 by (unfold ss_held; by rewrite Ha, Hr).
  rewrite H0, Hh in H. simpl in H. rewrite app_nil_r in H. rewrite <- H in Hnd. unfold ss_held in *. split_and!.
  - apply NoDup_app in Hnd as (Hnd & _ & _). by apply NoDup_app in Hnd as (_ & _ & ?).
  - intros x Hx. rewrite <- H. set_solver.
  - intros Hse x Hx. destruct (Hs Hse) as [_ ->]. rewrite <- H in Hx. set_solver.
Qed.
End life.

(** ** A failed release strands the request *)
Definition w_rt : InternalRouting := mkInternalRouting 0 "" "t1" 0 "q" "" 0 false "" 0 "p1" ∅.
Definition w_req : InternalRequest :=
  mkInternalRequest w_rt (Some (PlainRequest (Some (mkRequestMessage "r1" 0 100 RawNil ∅ ∅ "" "")))) 0.
Definition w_unm (m : string) : option InternalRequest := if decide (m = "m1") then Some w_req else None.
Definition w_mar (ir : InternalRequest) : option string := Some "m1".
Definition w_qcfg : SortedSetQueueConfig := mkQueueCfg "q" "q" "results" 0 "default" "" "" "" "" ∅.
Definition w_gate (ir : InternalRequest) : gated := mkGated (Ok Continue) [7%nat] ir.
Definition w_redis : Redis := set_queue "q" (zadd_pending "m1" 100 noKeys) emptyRedis.
Definition w_start (fs : list fault) : SS :=
  mkSS ∅ w_redis fs [] [(0, Some "tokA"); (0, Some "tokB")] ∅ [] [] [] [] [].
(** A poll whose payload read fails, and whose three tries to hand the claim
    back fail too. *)
Definition w_stranded : SS :=
  (processMessagesWithConfig (30 * Second) w_unm "q" "q" w_qcfg w_gate 0 0 10 (Fin 1)
     (w_start [FNone; FNone; FNone; FLost; FLost; FLost; FLost])).2.

(** What the reclaim loop at [t] leaves pending, the flow's heartbeats having
    run at the times [beats]. *)
Definition beat (st : (Claims * Redis) * list fault) (t : Z) : (Claims * Redis) * list fault :=
  (heartbeatClaims (30 * Second) t st).2.
Definition pending_after (beats : list Z) (t : Z) : option Q :=
  let st := foldl beat ((ss_h w_stranded, ss_r w_stranded), []) beats in
  pending_at (reclaimExpiredClaims w_unm t ["q"] 0 st).2.1.2 "q" !! "m1".

(** A claim that cannot be handed back keeps its handle, so the flow's own
    heartbeats extend the lease of a request nobody works on: the request was
    neither dispatched nor answered, and it stays unavailable as long as the
    process lives (here over 80 s of a 100 s deadline), although the lease is
    30 s.  Were the handle dropped, as the result worker drops it, the reclaim
    loop would give the request back when the lease ends. *)
Theorem failed_release_strands :
  ss_sent w_stranded = [] /\ ss_results w_stranded = [] /\ ss_released w_stranded = [7%nat] /\
  pending_at (ss_r w_stranded) "q" !! "m1" = None /\
  pending_after [] (35 * Second) = Some (default 0%Q (QueueScore w_req)) /\
  pending_after [10 * Second; 20 * Second; 30 * Second] (35 * Second) = None /\
  pending_after [10 * Second; 20 * Second; 30 * Second; 40 * Second; 50 * Second; 60 * Second; 70 * Second]
    (80 * Second) = None.
Proof. split_and!; by_vm. Qed.

(** ** Witnesses *)
Definition w_acts : list ss_action :=
  [APoll "q" "q" w_qcfg w_gate 0 0 10 (Fin 1); ARetry 0 (Some w_req, 2%Q) []; AMove (3 * Second) 10].
Definition w_faults : list fault := [FNone; FNone; FReply; FLost; FNone; FLost].

Lemma w_redis_good : keys_good (member_claim w_unm) (queue_at w_redis "q").
Proof.
  unfold w_redis. rewrite queue_at_set. rewrite decide_True by done. apply zadd_good, keys_good_empty.
Qed.

Lemma flow_keeps_requests_witness :
  in_queue (member_claim w_unm) (claimKey "r1" "t1")
    (queue_at (ss_r (ss_runs (30 * Second) w_mar w_unm "q" w_acts (w_start w_faults)).2) "q").
Proof.
  apply (flow_keeps_requests (30 * Second) w_mar w_unm "q" (claimKey "r1" "t1") w_acts (w_start w_faults) "q").
  - repeat constructor.
  - constructor.
  - apply w_redis_good.
  - right. exists "m1". split; [|reflexivity]. exists 100%Q. reflexivity.
Defined.

Definition w_result : ResultMessage := mkResultMessage "r1" 200 "ok" "" "" w_rt ∅.

Lemma result_worker_lets_go_witness :
  ss_h (resultWorker false (30 * Second) (fun _ => "json") "results" ∅ 0 w_result [] (w_start [FLost; FReply; FLost])).2
    !! result_claim w_result = None.
Proof. apply result_worker_lets_go. by left. Defined.

Definition w_backoff : retryEntry := mkRetryEntry "m1" (fadd64 0 (5 # 2)) "q" "r1" "t1" 100.

Lemma retry_backoff_enforced_witness :
  ss_others (w_start [FLost]) = [] /\
  retryset (ss_r (mover_ticks w_unm "q" [(1 * Second, 10); (2 * Second, 10)]
    (retryWorker (30 * Second) w_mar "q" 0 (Some w_req, 5 # 2) [] (w_start [FLost])).2).2) !! "m1" = Some (fadd64 0 (5 # 2)).
Proof.
  split; [reflexivity|].
  destruct (retry_backoff_enforced (30 * Second) w_mar w_unm "q" 0 (Some w_req, 5 # 2)%Q [] (w_start [FLost]) eq_refl) as [H|H].
  - by_vm.
  - destruct (H w_backoff) as (e' & He & Hm & Hw); [by left|].
    apply list_elem_of_singleton in He. subst e'. apply Hw. repeat constructor.
Defined.

Lemma ss_releases_once_witness :
  sends (w_start w_faults) /\ NoDup (ss_released (life false (30 * Second) w_mar w_unm (fun _ => "json") "q" "results" ∅
    [LMove (APoll "q" "q" w_qcfg w_gate 0 0 10 (Fin 1)); LResult 0 w_result []] (w_start [])).2).
Proof.
  split; [constructor|]. apply (ss_releases_once false (30 * Second) w_mar w_unm (fun _ => "json") "q" "results" ∅
    [LMove (APoll "q" "q" w_qcfg w_gate 0 0 10 (Fin 1)); LResult 0 w_result []] (w_start [])); try reflexivity.
  - repeat constructor. by intros ir v [= <-] ?.
  - apply (bool_decide_eq_true_1 _). by_vm.
Defined.
