(* ===== verification/Worker.v ===== *)
(** * The worker (src/pkg/asyncworker/worker.go, transform/chain.go)

    A worker takes one request at a time through the cancellation check, the
    validation, the pool gate and the inference backend, and ends it with one
    result or one retry.  Everything the worker observes (the clock, the
    contexts, the cancellation marker, the backend, the random jitter) is read
    from [obs], one observation per read; the channels it writes, the metrics
    it counts, the pool gates and the request itself (which gates and retries
    change through its pointer) are its state. *)
From stdpp Require Import prelude gmap strings list.
From Stdlib Require Import ZArith QArith Qminmax Qpower Lqa Lia.
From S2P Require Import Prelude Rounding Api Gates.

#[local] Open Scope Z_scope.

(** ** Messages *)
Record EmbelishedRequestMessage : Type := mkEmb {
  em_InternalRequest : InternalRequest;
  em_HttpHeaders : gmap string string;
  em_RequestURL : string;
  em_WorkerPoolID : string
}.

Record RetryMessage : Type := mkRetryMessage {
  rm_Embelished : EmbelishedRequestMessage;
  rm_BackoffDurationSeconds : Q
}.

Record InferenceResponse : Type := mkInferenceResponse { ir_StatusCode : Z; ir_Body : string }.

(** An error of the inference client: what [errors.Is] and [errors.As] find in
    it, and its text. *)
Record SendErr : Type := mkSendErr {
  se_Canceled : bool;                   (* errors.Is(err, context.Canceled) *)
  se_DeadlineExceeded : bool;           (* errors.Is(err, context.DeadlineExceeded) *)
  se_Category : option ErrorCategory;   (* errors.As(err, &inferenceErr) *)
  se_RetryAfter : option Z;             (* errors.As(err, &clientErr) *)
  se_text : string
}.

(** The counters and gauges the worker moves; the histograms are left out. *)
Inductive metric : Type :=
| DecQueueDepth
| RecordAsyncReq
| RecordFailedReq
| RecordExceededDeadlineReq
| RecordGateDecision (reason : string)
| RecordGateWaitRequeue
| IncGateWaiting
| DecGateWaiting
| IncInflight
| DecInflight
| RecordDispatchedReq
| RecordSuccessfulReq
| RecordSheddedReq
| RecordRetry.

#[export] Instance metric_eq_dec : EqDecision metric.
Proof. solve_decision. Defined.

(** ** Body transforms (transform/chain.go)

    A plugin as the two functions of its interface. *)
Record RequestTransform : Type := mkRequestTransform {
  tr_TypedName : string;
  tr_Validate : string -> gmap string string -> Z -> option string;   (* [Some text]: an error *)
  tr_Transform : string -> gmap string string -> Res string (option (string * string))
}.

Fixpoint chain_Validate (ts : list RequestTransform) (payload : string) (md : gmap string string) (deadline : Z) :
    option string :=
  match ts with
  | [] => None
  | t :: ts' =>
      match tr_Validate t payload md deadline with
      | Some e => Some ("transform " +:+ tr_TypedName t +:+ ": " +:+ e)
      | None => chain_Validate ts' payload md deadline
      end
  end.

(** [Ok None]: no transform handles the message. *)
Fixpoint chain_Apply (ts : list RequestTransform) (payload : string) (md : gmap string string) :
    Res string (option (string * string)) :=
  match ts with
  | [] => Ok None
  | t :: ts' =>
      match tr_Transform t payload md with
      | Err e => Err ("transform " +:+ tr_TypedName t +:+ ": " +:+ e)
      | Ok (Some bc) => Ok (Some bc)
      | Ok None => chain_Apply ts' payload md
      end
  end.

(** ** Backoff *)
Definition baseDelaySeconds : Z := 2.
Definition maxDelaySeconds : Z := 60.

(** [rand] is what [rand.Float64] returns, in [0, 1). *)
Definition expBackoffDuration (rand : Q) (retryCount secondsToDeadline : Z) : Q :=
  if secondsToDeadline <=? 0 then 0
  else
    let capLevel := Qmin (inject_Z maxDelaySeconds) (inject_Z secondsToDeadline) in
    let backoff := (inject_Z baseDelaySeconds * Qpower 2 retryCount)%Q in
    let temp := Qmin capLevel backoff in
    if Qle_bool temp 0 then 0
    else
      let half := fdiv64 temp 2 in
      fadd64 half (fmul64 rand half).

(** [Duration.Seconds]. *)
Definition duration_Seconds (d : Z) : Q :=
  fadd64 (inject_Z (Z.quot d Second)) (fdiv64 (inject_Z (Z.rem d Second)) (inject_Z Second)).

(** The backoff of [retryMessage]: [rand1] and [rand2] are its two draws. *)
Definition retry_backoff (rand1 rand2 : Q) (retryCount secondsToDeadline retryAfter : Z) : Q :=
  let finalDuration := expBackoffDuration rand1 (wrap64 (retryCount + 1)) secondsToDeadline in
  let retryAfterSec := duration_Seconds retryAfter in
  if Qle_bool retryAfterSec finalDuration then finalDuration
  else
    let clamped := Qmin retryAfterSec (fdiv64 (inject_Z secondsToDeadline) 2) in
    Qmax finalDuration (fmul64 clamped (fadd64 1 (fdiv64 rand2 4))).

Definition gateWaitInitialBackoff : Z := 100 * Millisecond.
Definition gateWaitMaxBackoff : Z := Second.

Definition nextGateWaitBackoff (current : Z) : Z :=
  if Z.quot gateWaitMaxBackoff 2 <=? current then gateWaitMaxBackoff else current * 2.

(** [time.Duration(f)] truncates. *)
Definition Qtrunc (q : Q) : Z := Z.quot (Qnum q) (Zpos (Qden q)).

Definition jitteredGateWait (rand : Q) (backoff : Z) : Z :=
  let half := Z.quot backoff 2 in
  half + Qtrunc (fmul64 rand (inject_Z (backoff - half))).

Definition cancellationCheckPollInterval : Z := Second.
Definition cancellationCheckRetryAfterSecond : Q := 1.

(** ** Headers *)
Definition lower_byte (c : Ascii.ascii) : Ascii.ascii :=
  let n := Ascii.nat_of_ascii c in
  if (Nat.leb 65 n && Nat.leb n 90)%bool then Ascii.ascii_of_nat (n + 32) else c.

Fixpoint lower (s : string) : string :=
  match s with
  | EmptyString => EmptyString
  | String c s' => String (lower_byte c) (lower s')
  end.

(** [strings.EqualFold] against a name none of whose letters folds to a
    character outside ASCII. *)
Definition EqualFold (a b : string) : bool := bool_decide (lower a = lower b).

Definition headersWithContentType (headers : gmap string string) (contentType : string) : gmap string string :=
  <["Content-Type" := contentType]> (filter (fun kv => EqualFold kv.1 "Content-Type" = false) headers).

(** ** The worker's observations and state *)
Record Obs : Type := mkObs {
  o_now : Z;                     (* time.Now() *)
  o_done : bool;                 (* requestCtx has ended *)
  o_skip : bool;                 (* a select with several ready cases takes the context's *)
  o_deadline_first : bool;       (* the deadline of a derived context came before requestCtx ended *)
  o_check : Res string bool;     (* IsCancelled *)
  o_polls : list (bool * Res string bool * bool); (* the in-flight watcher's polls *)
  o_gate_env : GateEnv;
  o_gate_deadline : bool;        (* errors.Is(err, context.DeadlineExceeded) for a gate's error *)
  o_text : string;               (* err.Error() *)
  o_rand : Q;
  o_send : string -> gmap string string -> string -> option InferenceResponse * option SendErr
}.

Inductive WorkerErr : Type :=
| Panicked
| OutOfFuel.

Section worker.
Context {QS Slot : Type} `{EqDecision Slot} `{!QuotaStore QS Slot}.
Context (obs : nat -> Obs).

(** What the worker was started with. *)
Context (hasChecker : bool) (transforms : list RequestTransform) (poolGate : option gate)
  (requestTimeout gateWaitTimeout : Z).

Record WState : Type := mkWState {
  ws_tick : nat;
  ws_msg : EmbelishedRequestMessage;
  ws_results : list ResultMessage;
  ws_retries : list RetryMessage;
  ws_metrics : list metric;
  ws_gates : GateState QS;
  ws_releases : list (release Slot);
  ws_nextCheck : option Z;       (* [None]: the zero time *)
  ws_gateWaiting : bool
}.

Definition WM (A : Type) : Type := WState -> Res WorkerErr A * WState.

Definition w_ret {A : Type} (a : A) : WM A := fun s => (Ok a, s).
Definition w_fail {A : Type} (e : WorkerErr) : WM A := fun s => (Err e, s).
Definition w_bind {A B : Type} (m : WM A) (k : A -> WM B) : WM B :=
  fun s => match m s with
           | (Ok a, s') => k a s'
           | (Err e, s') => (Err e, s')
           end.
Definition w_upd (f : WState -> WState) : WM unit := fun s => (Ok tt, f s).
Definition w_get {A : Type} (f : WState -> A) : WM A := fun s => (Ok (f s), s).

Definition with_tick (n : nat) (s : WState) : WState :=
  mkWState n (ws_msg s) (ws_results s) (ws_retries s) (ws_metrics s) (ws_gates s) (ws_releases s) (ws_nextCheck s) (ws_gateWaiting s).
Definition with_msg (m : EmbelishedRequestMessage) (s : WState) : WState :=
  mkWState (ws_tick s) m (ws_results s) (ws_retries s) (ws_metrics s) (ws_gates s) (ws_releases s) (ws_nextCheck s) (ws_gateWaiting s).
Definition add_result (r : ResultMessage) (s : WState) : WState :=
  mkWState (ws_tick s) (ws_msg s) (ws_results s ++ [r]) (ws_retries s) (ws_metrics s) (ws_gates s) (ws_releases s) (ws_nextCheck s) (ws_gateWaiting s).
Definition add_retry (r : RetryMessage) (s : WState) : WState :=
  mkWState (ws_tick s) (ws_msg s) (ws_results s) (ws_retries s ++ [r]) (ws_metrics s) (ws_gates s) (ws_releases s) (ws_nextCheck s) (ws_gateWaiting s).
Definition add_metric (x : metric) (s : WState) : WState :=
  mkWState (ws_tick s) (ws_msg s) (ws_results s) (ws_retries s) (ws_metrics s ++ [x]) (ws_gates s) (ws_releases s) (ws_nextCheck s) (ws_gateWaiting s).
Definition with_gates (g : GateState QS) (rels : list (release Slot)) (s : WState) : WState :=
  mkWState (ws_tick s) (ws_msg s) (ws_results s) (ws_retries s) (ws_metrics s) g rels (ws_nextCheck s) (ws_gateWaiting s).
Definition with_nextCheck (t : option Z) (s : WState) : WState :=
  mkWState (ws_tick s) (ws_msg s) (ws_results s) (ws_retries s) (ws_metrics s) (ws_gates s) (ws_releases s) t (ws_gateWaiting s).
Definition with_gateWaiting (b : bool) (s : WState) : WState :=
  mkWState (ws_tick s) (ws_msg s) (ws_results s) (ws_retries s) (ws_metrics s) (ws_gates s) (ws_releases s) (ws_nextCheck s) b.

Declare Scope worker_scope.
Notation "'w!' x <- m ; k" := (w_bind m (fun x => k))
  (at level 10, x name, m at level 100, k at level 200) : worker_scope.
Notation "'w>' m ; k" := (w_bind m (fun _ => k))
  (at level 10, m at level 100, k at level 200) : worker_scope.
#[local] Open Scope worker_scope.

Definition observe : WM Obs := fun s => (Ok (obs (ws_tick s)), with_tick (S (ws_tick s)) s).
Definition count (x : metric) : WM unit := w_upd (add_metric x).
Definition routing : WM InternalRouting := w_get (fun s => ir_Routing (em_InternalRequest (ws_msg s))).

(** [select { case resultChannel <- r: case <-requestCtx.Done(): }] *)
Definition emit_result (r : ResultMessage) : WM unit :=
  w! o <- observe;
  if o_done o && o_skip o then w_ret tt else w_upd (add_result r).

Definition force_retry (backoff : Q) : WM unit :=
  w_upd (fun s => add_retry (mkRetryMessage (ws_msg s) backoff) s).

Definition emit_retry (backoff : Q) : WM unit :=
  w! o <- observe;
  if o_done o && o_skip o then w_ret tt else force_retry backoff.

(** ** Cancellation *)

(** [v] is what the accessors of the public request read; gates do not change
    it. *)
Definition emitCancelledResultIfNeeded (v : RequestMessage) : WM bool :=
  w! o <- observe;
  w! next <- w_get ws_nextCheck;
  if match next with Some t => o_now o <? t | None => false end then w_ret false
  else if negb hasChecker then w_ret false
  else
    w> w_upd (with_nextCheck (Some (o_now o + cancellationCheckPollInterval)));
    match o_check o with
    | Err _ => w> emit_retry cancellationCheckRetryAfterSecond; w_ret true
    | Ok false => w_ret false
    | Ok true =>
        w! rt <- routing;
        w> emit_result (NewCancelledResult v rt); w_ret true
    end.

(** The watcher of [watchInflightCancellation]: a poll finds the send over
    before the lookup, gets an answer, and may find the send over after it. *)
Fixpoint watchInflightCancellation (polls : list (bool * Res string bool * bool)) : bool :=
  match polls with
  | [] => false
  | (over, answer, over') :: polls' =>
      if (over || over') : bool then false
      else match answer with
           | Err _ => watchInflightCancellation polls'
           | Ok true => true
           | Ok false => watchInflightCancellation polls'
           end
  end.

(** ** Validation *)
Definition validateAndMarshal (v : RequestMessage) : WM (option string) :=
  let deadline := rm_Deadline v in
  w! rt <- routing;
  if deadline <=? 0 then
    w> count RecordFailedReq;
    w> emit_result (NewErrorResult v rt ErrCodeInvalidRequest "Failed: deadline is missing or invalid (Unix seconds).");
    w_ret None
  else
    w! o <- observe;
    if deadline <? Unix (o_now o) then
      w> count RecordExceededDeadlineReq;
      w> emit_result (NewDeadlineExceededResult v rt);
      w_ret None
    else
      let payload := if bool_decide (raw_bytes (rm_Payload v) = "") then "null" else raw_bytes (rm_Payload v) in
      match chain_Validate transforms payload (rm_Metadata v) deadline with
      | Some e =>
          w> count RecordFailedReq;
          w> emit_result (NewErrorResult v rt ErrCodeInvalidRequest ("Failed to validate request for transform: " +:+ e));
          w_ret None
      | None => w_ret (Some payload)
      end.

(** ** The pool gate *)
Definition requestDeadlineReached (v : RequestMessage) (now : Z) : bool :=
  (0 <? rm_Deadline v) && (rm_Deadline v * Second <=? now).

(** [None]: no deadline. *)
Definition gate_deadline (v : RequestMessage) (now : Z) : option Z :=
  let gd := if 0 <? gateWaitTimeout then Some (now + gateWaitTimeout) else None in
  if 0 <? rm_Deadline v then
    let d := rm_Deadline v * Second in
    match gd with
    | None => Some d
    | Some t => Some (if d <? t then d else t)
    end
  else gd.

Definition deadline_passed (gd : option Z) (o : Obs) : bool :=
  match gd with Some t => t <=? o_now o | None => false end.

(** [gateCtx.Err() != nil] *)
Definition gate_ended (gd : option Z) (o : Obs) : bool := o_done o || deadline_passed gd o.

Definition finishGateContext (v : RequestMessage) (gd : option Z) : WM unit :=
  w! o <- observe;
  if negb (o_done o) && requestDeadlineReached v (o_now o) then
    w> count RecordExceededDeadlineReq;
    w! rt <- routing;
    emit_result (NewDeadlineExceededResult v rt)
  else
    w! o <- observe;
    w> (if negb (o_done o) && deadline_passed gd o then count RecordGateWaitRequeue else w_ret tt);
    force_retry 0.

Definition gateDecisionReason (verdict : Verdict) : string :=
  if bool_decide (v_Reason verdict = "") then ReasonGateClosed else v_Reason verdict.

Definition gate_Apply (env : GateEnv) (g : gate) : WM (Res GateErr Verdict) :=
  fun s =>
    let m := ws_msg s in
    let '(r, v) := Apply env g (mkGateRun (ws_gates s) (em_InternalRequest m) (Some (ws_releases s))) in
    (Ok v, with_gates (gr_state r) (default [] (gr_releases r))
             (with_msg (mkEmb (gr_msg r) (em_HttpHeaders m) (em_RequestURL m) (em_WorkerPoolID m)) s)).

Definition stop_waiting : WM unit :=
  w! waiting <- w_get ws_gateWaiting;
  if (waiting : bool) then w> count DecGateWaiting; w_upd (with_gateWaiting false) else w_ret tt.

Definition start_waiting : WM unit :=
  w! waiting <- w_get ws_gateWaiting;
  if (waiting : bool) then w_ret tt else w> count IncGateWaiting; w_upd (with_gateWaiting true).

(** The wait of an [ActionWait]: whether the timer fired. *)
Definition gate_wait (v : RequestMessage) (gd : option Z) : WM bool :=
  w! o <- observe;
  if gate_ended gd o then w> finishGateContext v gd; w_ret false
  else
    w! o <- observe;
    if gate_ended gd o && o_skip o then w> finishGateContext v gd; w_ret false
    else w_ret true.

(** An error of [poolGate.Apply]; [ErrContext] wraps the error of [gateCtx]. *)
Definition gate_failed (v : RequestMessage) (gd : option Z) (e : GateErr) : WM unit :=
  if bool_decide (e = ErrNilMessage) then w_fail Panicked
  else
    w! o <- observe;
    if bool_decide (e = ErrContext) || o_gate_deadline o || gate_ended gd o then finishGateContext v gd
    else
      w> count (RecordGateDecision "error");
      w! rt <- routing;
      emit_result (NewErrorResult v rt ErrCodeGateError ("Pool gating error: " +:+ o_text o)).

(** The loop around [poolGate.Apply]: [true] when the gate admits. *)
Fixpoint gate_loop (fuel : nat) (v : RequestMessage) (g : gate) (gd : option Z) (waitRecorded : bool) : WM bool :=
  match fuel with
  | O => w_fail OutOfFuel
  | S fuel =>
      w! cancelled <- emitCancelledResultIfNeeded v;
      if (cancelled : bool) then w_ret false
      else
        w! o <- observe;
        w! applied <- gate_Apply (o_gate_env o) g;
        match applied with
        | Err e => w> gate_failed v gd e; w_ret false
        | Ok verdict =>
            match v_Action verdict with
            | ActionContinue => w> stop_waiting; w_ret true
            | ActionDrop =>
                w> count (RecordGateDecision "dropped");
                w! rt <- routing;
                w> emit_result (default (NewGateDroppedResult v rt) (v_Result verdict));
                w_ret false
            | ActionRefuse =>
                w> count (RecordGateDecision (gateDecisionReason verdict));
                w> emit_retry 0; w_ret false
            | ActionWait =>
                w> (if waitRecorded : bool then w_ret tt else count (RecordGateDecision (gateDecisionReason verdict)));
                w> start_waiting;
                w! fired <- gate_wait v gd;
                if (fired : bool) then gate_loop fuel v g gd true else w_ret false
            end
        end
  end.

Definition pool_gate (fuel : nat) (v : RequestMessage) : WM bool :=
  match poolGate with
  | None => w_ret true
  | Some g =>
      w! o <- observe;
      gate_loop fuel v g (gate_deadline v (o_now o)) false
  end.

(** ** The inference request *)
Definition deadlineExhaustedResult (v : RequestMessage) (rt : InternalRouting) (lastResp : option InferenceResponse) :
    ResultMessage :=
  match lastResp with
  | Some r => if 0 <? ir_StatusCode r then NewHTTPResult v rt (ir_StatusCode r) (ir_Body r) else NewDeadlineExceededResult v rt
  | None => NewDeadlineExceededResult v rt
  end.

Definition bump_retry_count (s : WState) : WState :=
  let m := ws_msg s in
  let ir := em_InternalRequest m in
  let rt := ir_Routing ir in
  with_msg (mkEmb (mkInternalRequest (set_retry_count rt (wrap64 (rt_RetryCount rt + 1))) (ir_Public ir) (ir_Ingestion ir))
              (em_HttpHeaders m) (em_RequestURL m) (em_WorkerPoolID m)) s.

Definition retryMessage (v : RequestMessage) (retryAfter : Z) (lastResp : option InferenceResponse) : WM unit :=
  w! o <- observe;
  w! rt <- routing;
  let secondsToDeadline := rm_Deadline v - Unix (o_now o) in
  if secondsToDeadline <=? 0 then
    w> count RecordExceededDeadlineReq;
    emit_result (deadlineExhaustedResult v rt lastResp)
  else
    w! o2 <- observe;
    let finalDuration := retry_backoff (o_rand o) (o_rand o2) (rt_RetryCount rt) secondsToDeadline retryAfter in
    w> w_upd bump_retry_count;
    w> count RecordRetry;
    emit_retry finalDuration.

Definition fatal_result (v : RequestMessage) (rt : InternalRouting) (resp : option InferenceResponse) (e : SendErr) :
    ResultMessage :=
  let failed := NewErrorResult v rt ErrCodeInferenceError ("Failed to send request to inference: " +:+ se_text e) in
  match resp with
  | Some r => if 0 <? ir_StatusCode r then NewHTTPResult v rt (ir_StatusCode r) (ir_Body r) else failed
  | None => failed
  end.

(** What follows an error of [SendRequest]. *)
Definition send_failed (v : RequestMessage) (reqDeadline : Z) (cancelledInFlight : bool)
    (resp : option InferenceResponse) (e : SendErr) : WM unit :=
  w! o <- observe;
  if o_done o && (se_Canceled e || se_DeadlineExceeded e) then force_retry 0
  else
    w! rt <- routing;
    if cancelledInFlight then emit_result (NewCancelledResult v rt)
    else
      w! o <- observe;
      if (reqDeadline <=? o_now o) && (negb (o_done o) || o_deadline_first o) then
        w> count RecordExceededDeadlineReq;
        emit_result (NewDeadlineExceededResult v rt)
      else if match se_Category e with Some c => Fatal c | None => true end then
        w> count RecordFailedReq;
        emit_result (fatal_result v rt resp e)
      else
        w> (if match se_Category e with Some c => Sheddable c | None => false end then count RecordSheddedReq else w_ret tt);
        retryMessage v (default 0 (se_RetryAfter e)) resp.

Definition sendInferenceRequest (v : RequestMessage) (payload : string) : WM unit :=
  w! o <- observe;
  w! m <- w_get ws_msg;
  w! rt <- routing;
  let timeout := o_now o + requestTimeout in
  let reqDeadline := if (0 <? rm_Deadline v) && (rm_Deadline v * Second <? timeout) then rm_Deadline v * Second else timeout in
  match chain_Apply transforms payload (rm_Metadata v) with
  | Err e =>
      w> count RecordFailedReq;
      emit_result (NewErrorResult v rt ErrCodeInvalidRequest ("Failed to transform request body: " +:+ e))
  | Ok handled =>
      let '(sendPayload, sendHeaders) :=
        match handled with
        | Some (body, contentType) => (body, headersWithContentType (em_HttpHeaders m) contentType)
        | None => (payload, em_HttpHeaders m)
        end in
      w! cancelled <- emitCancelledResultIfNeeded v;
      if (cancelled : bool) then w_ret tt
      else
        w> count RecordDispatchedReq;
        w! o <- observe;
        let '(resp, err) := o_send o (em_RequestURL m) sendHeaders sendPayload in
        let cancelledInFlight := hasChecker && watchInflightCancellation (o_polls o) in
        match err with
        | Some e => send_failed v reqDeadline cancelledInFlight resp e
        | None =>
            match resp with
            | None => w_fail Panicked
            | Some r =>
                w> count RecordSuccessfulReq;
                emit_result (NewHTTPResult v rt (ir_StatusCode r) (ir_Body r))
            end
        end
  end.

(** ** One message *)
Definition process_body (fuel : nat) (v : RequestMessage) : WM unit :=
  w! rt <- routing;
  w> (if bool_decide (rt_RetryCount rt = 0) then count RecordAsyncReq else w_ret tt);
  w! cancelled <- emitCancelledResultIfNeeded v;
  if (cancelled : bool) then w_ret tt
  else
    w! payload <- validateAndMarshal v;
    match payload with
    | None => w_ret tt
    | Some payload =>
        w! passed <- pool_gate fuel v;
        if negb passed then w_ret tt
        else
          w! cancelled <- emitCancelledResultIfNeeded v;
          if (cancelled : bool) then w_ret tt
          else
            w> count IncInflight;
            w> sendInferenceRequest v payload;
            count DecInflight
    end.

(** The deferred calls: [stop_waiting], then the release of the pool gates. *)
Definition release_pool : WM unit :=
  w_upd (fun s => with_gates (ReleaseGateReleases (ws_releases s) (ws_gates s)) [] s).

(** A message from the request channel; [None] is a nil pointer. *)
Definition processMessage (fuel : nat) (m : option EmbelishedRequestMessage) : WM unit :=
  match m with
  | None => w_ret tt
  | Some m =>
      match ir_Public (em_InternalRequest m) with
      | None => w_ret tt
      | Some r =>
          match request_view r with
          | None => w_fail Panicked
          | Some v =>
              w> w_upd (fun s => with_gateWaiting false (with_nextCheck None (with_msg m s)));
              w> count DecQueueDepth;
              w> process_body fuel v;
              w> stop_waiting;
              release_pool
          end
      end
  end.

(** A message taken from the channel after [consumeCtx] ended goes back to the
    broker. *)
Definition drainMessage (m : option EmbelishedRequestMessage) : WM unit :=
  match m with
  | None => w_ret tt
  | Some m =>
      match ir_Public (em_InternalRequest m) with
      | None => w_ret tt
      | Some _ =>
          w> w_upd (with_msg m);
          w> count DecQueueDepth;
          force_retry 0
      end
  end.

Fixpoint w_iter {A : Type} (f : A -> WM unit) (l : list A) : WM unit :=
  match l with
  | [] => w_ret tt
  | a :: l' => w> f a; w_iter f l'
  end.

(** The messages a worker takes before and after [consumeCtx] ends. *)
Definition WorkerWithGateTimeout (fuel : nat) (consumed drained : list (option EmbelishedRequestMessage)) : WM unit :=
  w> w_iter (processMessage fuel) consumed; w_iter drainMessage drained.
End worker.

Arguments WState QS Slot : clear implicits.
Arguments WM QS Slot A : clear implicits.

(** ** Gates keep the request and drop it under its own name *)
Section gate_results.
Context {QS Slot : Type} `{EqDecision Slot} `{!QuotaStore QS Slot}.

(** [f] changes only the routing of the request, and a result it gives has the
    request's ID. *)
Definition names_request (f : GateRun QS Slot -> GateRun QS Slot * Res GateErr Verdict) : Prop :=
  forall r, ir_Public (gr_msg (f r).1) = ir_Public (gr_msg r)
  /\ match (f r).2 with
     | Ok v => forall res, v_Result v = Some res -> exists m, ir_view (gr_msg r) = Some m /\ res_ID res = rm_ID m
     | Err e => is_Some (ir_view (gr_msg r)) -> e <> ErrNilMessage
     end.

Lemma rollback_msg n (r : GateRun QS Slot) : gr_msg (rollback n r) = gr_msg r.
Proof. unfold rollback. by destruct (gr_releases r). Qed.

Lemma chain_names apply n gates :
  Forall (fun g => names_request (apply g)) gates -> names_request (ApplyChain_from apply n gates).
Proof.
  induction 1 as [|g gates Hg _ IH]; intros r; cbn [ApplyChain_from]; [done|].
  destruct (Hg r) as [H1 H2]. destruct (apply g r) as [r1 [v|e]]; simpl in H1, H2.
  - case_bool_decide; [|simpl; by rewrite rollback_msg].
    destruct (IH r1) as [H3 H4]. split; [congruence|]. unfold ir_view in *. by rewrite H1 in H4.
  - simpl. by rewrite rollback_msg.
Qed.

Lemma quota_ask_error mode key limit window (qs : QS) e :
  (quota_ask (Slot := Slot) mode key limit window qs).2 = Err e -> e <> ErrNilMessage.
Proof.
  unfold quota_ask. destruct mode; [destruct (Admit _ _ _ _) as [? []]|destruct (AcquireSlot _ _ _) as [? [[]|]]|];
    by intros [= <-].
Qed.

Lemma quota_names attribute mode gating limit window prefix :
  names_request (apply_quota attribute mode gating limit window prefix).
Proof.
  intros r. unfold apply_quota. destruct (ir_view (gr_msg r)) as [m|]; [|by split; [|intros []]].
  destruct (rm_Metadata m !! attribute); [|done].
  pose proof (quota_ask_error mode (quota_key prefix attribute s) limit window (quotas (gr_state r))) as He.
  destruct (quota_ask _ _ _ _ _) as [qs' [[[] [sl|]]|e]]; simpl in *; [done|done| | |by split; [|intros _; apply He]];
    by case_bool_decide.
Qed.

Lemma Apply_names env g : names_request (Apply env g).
Proof.
  induction g as [| | | | |i l m|a m gm l w p|g IH|g l IH|gs IH] using gate_induction;
    try (intros r; cbn [Apply]; unfold apply_budget; cbn [fst snd]; split; [done|]; by destruct (fle _ _)).
  - intros r. cbn [Apply]. unfold apply_local. destruct (l <=? 0); [done|].
    destruct m; [destruct (env_done env || _)|destruct (l <=? _)]; done.
  - apply quota_names.
  - intros r. specialize (IH r). cbn [Apply]. destruct (Apply env g r) as [r1 [[[] ? ?]|e]]; exact IH.
  - intros r. specialize (IH r) as [H1 H2]. cbn [Apply]. destruct (Apply env g r) as [r1 [v|e]]; [|done].
    simpl in H1. case_bool_decide; [|done]. split; [done|]. cbn [snd]. unfold tier_verdict, ir_view. rewrite H1.
    destruct (ir_Public (gr_msg r) ≫= request_view) as [m|]; repeat (case_match; try done); simplify_eq/=;
      first [by intros []|intros res Hres; simplify_eq/=; eauto].
  - intros r. cbn [Apply]. unfold ApplyChain. by apply chain_names.
Qed.
End gate_results.

(** ** What one message leaves behind *)
Section outcomes.
Context {QS Slot : Type} `{EqDecision Slot} `{!QuotaStore QS Slot} `{!QuotaStoreLaws QS Slot}.
Context (obs : nat -> Obs) (hasChecker : bool) (transforms : list RequestTransform) (poolGate : option gate)
  (requestTimeout gateWaitTimeout : Z).
Context (pub : Request) (v : RequestMessage) (Hv : request_view pub = Some v).

Definition alive : Prop := forall n, o_done (obs n) = false.

(** At most one outcome, and one while the request context lasts. *)
Definition one (k : nat) : Prop := (k <= 1)%nat /\ (alive -> k = 1%nat).

Definition gauge (inc dec : metric) (l : list metric) : Z :=
  Z.of_nat (length (filter (fun x => x = inc) l)) - Z.of_nat (length (filter (fun x => x = dec) l)).

Definition waiting (s : WState QS Slot) : Z := if ws_gateWaiting s then 1 else 0.

(** From [s] to [s'] the worker emitted [k] outcomes for the request, moved the
    in-flight gauge by [d], and left the waiting gauge and the gates
    accounted for. *)
Record evolves (k : nat) (d : Z) (s s' : WState QS Slot) : Prop := mkEvolves {
  ev_public : ir_Public (em_InternalRequest (ws_msg s')) = ir_Public (em_InternalRequest (ws_msg s));
  ev_results : exists rs ts, ws_results s' = ws_results s ++ rs /\ ws_retries s' = ws_retries s ++ ts
    /\ (length rs + length ts)%nat = k
    /\ Forall (fun r => res_ID r = rm_ID v) rs
    /\ Forall (fun t => ir_Public (em_InternalRequest (rm_Embelished t)) = Some pub) ts;
  ev_gates : exists new, ws_releases s' = ws_releases s ++ new
    /\ forall x, held (ws_gates s') x = held (ws_gates s) x + occurrences x new;
  ev_waiting : gauge IncGateWaiting DecGateWaiting (ws_metrics s') - waiting s'
    = gauge IncGateWaiting DecGateWaiting (ws_metrics s) - waiting s;
  ev_inflight : gauge IncInflight DecInflight (ws_metrics s') = gauge IncInflight DecInflight (ws_metrics s) + d
}.

Lemma evolves_trans k d k' d' s s1 s2 :
  evolves k d s s1 -> evolves k' d' s1 s2 -> evolves (k + k') (d + d') s s2.
Proof.
  intros [H1 (rs & ts & H2 & H3 & H4 & H5 & H5') (new & H6 & H7) H8 H9]
         [H1' (rs' & ts' & H2' & H3' & H4' & I5 & I5') (new' & H6' & H7') H8' H9'].
  split; [congruence| | |lia|lia].
  - exists (rs ++ rs'), (ts ++ ts'). rewrite H2', H2, H3', H3, !app_assoc, !length_app.
    split_and!; [done|done|lia|by apply Forall_app|by apply Forall_app].
  - exists (new ++ new'). rewrite H6', H6, app_assoc. split; [done|].
    intros x. rewrite H7', H7, occurrences_app. lia.
Qed.

(** A step that touches nothing the relation reads. *)
Definition same (s s' : WState QS Slot) : Prop :=
  em_InternalRequest (ws_msg s') = em_InternalRequest (ws_msg s) /\ ws_results s' = ws_results s
  /\ ws_retries s' = ws_retries s /\ ws_releases s' = ws_releases s /\ ws_gates s' = ws_gates s
  /\ ws_metrics s' = ws_metrics s /\ ws_gateWaiting s' = ws_gateWaiting s.

Lemma evolves_same s s' : same s s' -> evolves 0 0 s s'.
Proof.
  intros (H1 & H2 & H3 & H4 & H5 & H6 & H7). split; unfold waiting; rewrite ?H1, ?H5, ?H6, ?H7; [done| | |done|lia].
  - exists [], []. rewrite H2, H3, !app_nil_r. split_and!; done || constructor.
  - exists []. rewrite H4, app_nil_r. split; [done|]. intros x. rewrite occurrences_nil. lia.
Qed.

Definition runs {A : Type} (m : WM QS Slot A) (Q : A -> nat -> Z -> Prop) : Prop :=
  forall s a s', ir_Public (em_InternalRequest (ws_msg s)) = Some pub -> m s = (Ok a, s') ->
  exists k d, evolves k d s s' /\ Q a k d.

Definition silent {A : Type} (m : WM QS Slot A) : Prop := runs m (fun _ k d => k = 0%nat /\ d = 0).
Definition ends {A : Type} (m : WM QS Slot A) : Prop := runs m (fun _ k d => one k /\ d = 0).
(** Ends the message when it returns [b]. *)
Definition ends_if (b : bool) (m : WM QS Slot bool) : Prop :=
  runs m (fun b' k d => (if Bool.eqb b' b then one k else k = 0%nat) /\ d = 0).

Lemma runs_conseq {A : Type} (m : WM QS Slot A) (R Q : A -> nat -> Z -> Prop) :
  runs m R -> (forall a k d, R a k d -> Q a k d) -> runs m Q.
Proof. intros H HQ s a s' Hs E. destruct (H s a s' Hs E) as (k & d & ? & ?). eauto. Qed.

Lemma runs_ret {A : Type} (a : A) Q : Q a 0%nat 0 -> runs (w_ret a) Q.
Proof. intros HQ s a' s' Hs [= <- <-]. exists 0%nat, 0. split; [by apply evolves_same|done]. Qed.

Lemma runs_fail {A : Type} e (Q : A -> nat -> Z -> Prop) : runs (w_fail e) Q.
Proof. by intros s a s' Hs E. Qed.

Lemma runs_bind {A B : Type} (m : WM QS Slot A) (f : A -> WM QS Slot B) R Q :
  runs m R -> (forall a k d, R a k d -> runs (f a) (fun b k' d' => Q b (k + k')%nat (d + d'))) ->
  runs (w_bind m f) Q.
Proof.
  intros Hm Hf s b s' Hs E. unfold w_bind in E. destruct (m s) as [[a|e] s1] eqn:E1; [|done].
  destruct (Hm s a s1 Hs E1) as (k & d & H1 & HR).
  destruct (Hf a k d HR s1 b s') as (k' & d' & H2 & HQ); [by rewrite (ev_public _ _ _ _ H1)|done|].
  exists (k + k')%nat, (d + d'). split; [by eapply evolves_trans|done].
Qed.

Lemma runs_silent_bind {A B : Type} (m : WM QS Slot A) (f : A -> WM QS Slot B) Q :
  silent m -> (forall a, runs (f a) Q) -> runs (w_bind m f) Q.
Proof.
  intros Hm Hf. eapply runs_bind; [exact Hm|]. intros a k d [-> ->]. eapply runs_conseq; [apply Hf|].
  intros b k' d'. by rewrite Nat.add_0_l, Z.add_0_l.
Qed.

Lemma ends_bind {A B : Type} (m : WM QS Slot A) (b : B) Q :
  ends m -> (forall k, one k -> Q b k 0) -> runs (w_bind m (fun _ => w_ret b)) Q.
Proof.
  intros Hm HQ. eapply runs_bind; [exact Hm|]. intros a k d [H ->]. apply runs_ret.
  rewrite Nat.add_0_r. by apply HQ.
Qed.

Lemma ends_if_bind {B : Type} (x : bool) (m : WM QS Slot bool) (f : bool -> WM QS Slot B) Q :
  ends_if x m -> runs (f (negb x)) Q ->
  (forall k, one k -> runs (f x) (fun b k' d' => Q b (k + k')%nat d')) ->
  runs (w_bind m f) Q.
Proof.
  intros Hm Hf Hx. eapply runs_bind; [exact Hm|]. intros b k d [H ->].
  destruct (Bool.eqb b x) eqn:Eb.
  - apply eqb_prop in Eb as ->. eapply runs_conseq; [by apply (Hx k)|]. intros. by rewrite Z.add_0_l.
  - subst k. assert (b = negb x) as -> by (destruct b, x; done).
    eapply runs_conseq; [exact Hf|]. intros. by rewrite Nat.add_0_l, Z.add_0_l.
Qed.

(** ** The steps *)
Create HintDb worker.

Lemma silent_observe : silent (observe obs).
Proof. intros s a s' Hs [= <- <-]. exists 0%nat, 0. split; [by apply evolves_same|done]. Qed.

Lemma silent_get {A : Type} (f : WState QS Slot -> A) : silent (w_get f).
Proof. intros s a s' Hs [= <- <-]. exists 0%nat, 0. split; [by apply evolves_same|done]. Qed.

Lemma silent_nextCheck t : silent (w_upd (with_nextCheck t)).
Proof. intros s a s' Hs [= <- <-]. exists 0%nat, 0. split; [by apply evolves_same|done]. Qed.

Lemma gauge_app inc dec l x :
  gauge inc dec (l ++ [x]) = gauge inc dec l + (if decide (x = inc) then 1 else 0) - (if decide (x = dec) then 1 else 0).
Proof.
  unfold gauge. rewrite !filter_app, !length_app. unfold filter, list_filter. simpl.
  repeat case_decide; simpl; lia.
Qed.

Definition moves (x : metric) : Z := if decide (x = IncInflight) then 1 else if decide (x = DecInflight) then -1 else 0.

(** Counting anything but the waiting gauge. *)
Lemma runs_count x (Q : unit -> nat -> Z -> Prop) :
  x <> IncGateWaiting -> x <> DecGateWaiting -> Q tt 0%nat (moves x) -> runs (count x) Q.
Proof.
  intros H1 H2 HQ s a s' Hs [= <- <-]. exists 0%nat, (moves x). split; [|done]. split; [done| | | |].
  - exists [], []. simpl. rewrite !app_nil_r. split_and!; done || constructor.
  - exists []. simpl. rewrite app_nil_r. split; [done|]. intros y. rewrite occurrences_nil. lia.
  - simpl. rewrite gauge_app, !decide_False by done. unfold waiting. simpl. lia.
  - simpl. rewrite gauge_app. unfold moves. repeat case_decide; subst; done || lia.
Qed.

Lemma silent_count x :
  x <> IncGateWaiting -> x <> DecGateWaiting -> x <> IncInflight -> x <> DecInflight -> silent (count x).
Proof. intros. apply runs_count; [done|done|]. unfold moves. by rewrite !decide_False by done. Qed.

Lemma evolves_result r s : res_ID r = rm_ID v -> evolves 1 0 s (add_result r s).
Proof.
  intros Hr. split; [done| | |unfold waiting; simpl; lia|simpl; lia].
  - exists [r], []. simpl. rewrite app_nil_r. split_and!; try done. by constructor.
  - exists []. simpl. rewrite app_nil_r. split; [done|]. intros x. rewrite occurrences_nil. lia.
Qed.

Lemma ends_force_retry b : ends (force_retry b).
Proof.
  intros s a s' Hs [= <- <-]. exists 1%nat, 0. split; [|done]. split; [done| | |unfold waiting; simpl; lia|simpl; lia].
  - exists [], [mkRetryMessage (ws_msg s) b]. simpl. rewrite app_nil_r. split_and!; try done. by constructor.
  - exists []. simpl. rewrite app_nil_r. split; [done|]. intros x. rewrite occurrences_nil. lia.
Qed.

(** A select that sends or finds the request context ended. *)
Lemma ends_select (m : WM QS Slot unit) :
  ends m -> ends (w_bind (observe obs) (fun o => if o_done o && o_skip o then w_ret tt else m)).
Proof.
  intros Hm s a s' Hs E. unfold w_bind, observe in E.
  destruct (o_done (obs (ws_tick s)) && o_skip (obs (ws_tick s))) eqn:Eo.
  - injection E as <- <-. exists 0%nat, 0. split; [by apply evolves_same|]. split; [|done]. split; [lia|].
    intros Ha. by rewrite Ha in Eo.
  - destruct (Hm (with_tick (S (ws_tick s)) s) a s' Hs E) as (k & d & Hk & HQ). exists k, d. split; [|done].
    apply (evolves_trans 0 0 k d s (with_tick (S (ws_tick s)) s)); [by apply evolves_same|done].
Qed.

Lemma ends_emit_retry b : ends (emit_retry obs b).
Proof. apply ends_select, ends_force_retry. Qed.

Lemma ends_emit_result r : res_ID r = rm_ID v -> ends (emit_result obs r).
Proof.
  intros Hr. apply ends_select. intros s a s' Hs [= <- <-]. exists 1%nat, 0.
  split; [by apply evolves_result|done].
Qed.
#[local] Hint Resolve silent_observe silent_get silent_nextCheck ends_force_retry ends_emit_retry : worker.
#[local] Hint Extern 1 (silent (count _)) => apply silent_count; discriminate : worker.
#[local] Hint Extern 1 (silent (w_ret _)) => by apply runs_ret : worker.
#[local] Hint Extern 1 (silent (routing)) => apply silent_get : worker.
#[local] Hint Extern 1 (ends (emit_result _ _)) => by apply ends_emit_result : worker.

(** One step over a silent prefix; a tail that ends the message and returns. *)
Ltac wsilent :=
  repeat (lazymatch goal with |- runs (w_bind _ _) _ => idtac end;
          apply runs_silent_bind; [solve [auto with worker]|intros ?]).
Ltac wends := apply ends_bind; [solve [auto with worker]|intros ? ?; done].

Lemma cancelled_ends : ends_if true (emitCancelledResultIfNeeded obs hasChecker v).
Proof.
  unfold emitCancelledResultIfNeeded, ends_if. wsilent. case_match; [by apply runs_ret|].
  destruct hasChecker; [|by apply runs_ret]. simpl. wsilent.
  destruct (o_check a) as [[]|]; [wsilent; wends|by apply runs_ret|wends].
Qed.

Lemma validate_ends :
  runs (validateAndMarshal obs transforms v)
    (fun p k d => (match p with None => one k | Some _ => k = 0%nat end) /\ d = 0).
Proof.
  unfold validateAndMarshal. wsilent. case_match; [wsilent; wends|]. wsilent. case_match; [wsilent; wends|].
  case_match; [wsilent; wends|by apply runs_ret].
Qed.

Lemma finish_ends gd : ends (finishGateContext obs v gd).
Proof.
  unfold finishGateContext, ends. wsilent. case_match; [wsilent; by apply ends_emit_result|].
  wsilent. apply runs_silent_bind; [case_match; auto with worker|]. intros _. apply ends_force_retry.
Qed.

Lemma gate_failed_ends gd e : ends (gate_failed obs v gd e).
Proof.
  unfold gate_failed, ends. case_bool_decide; [apply runs_fail|]. wsilent.
  case_match; [apply finish_ends|]. wsilent. by apply ends_emit_result.
Qed.

Lemma silent_stop_waiting : silent stop_waiting.
Proof.
  intros s a s' Hs. unfold stop_waiting, w_bind, w_get, count, w_upd. destruct (ws_gateWaiting s) eqn:Ew; intros [= <- <-];
    exists 0%nat, 0; (split; [|done]); [|by apply evolves_same].
  split; [done| | | |].
  - exists [], []. simpl. rewrite !app_nil_r. split_and!; done || constructor.
  - exists []. simpl. rewrite app_nil_r. split; [done|]. intros y. rewrite occurrences_nil. lia.
  - simpl. rewrite gauge_app. unfold waiting. simpl. rewrite Ew. lia.
  - simpl. rewrite gauge_app. simpl. lia.
Qed.

Lemma silent_start_waiting : silent start_waiting.
Proof.
  intros s a s' Hs. unfold start_waiting, w_bind, w_get, count, w_upd. destruct (ws_gateWaiting s) eqn:Ew; intros [= <- <-];
    exists 0%nat, 0; (split; [|done]); [by apply evolves_same|].
  split; [done| | | |].
  - exists [], []. simpl. rewrite !app_nil_r. split_and!; done || constructor.
  - exists []. simpl. rewrite app_nil_r. split; [done|]. intros y. rewrite occurrences_nil. lia.
  - simpl. rewrite gauge_app. unfold waiting. simpl. rewrite Ew. lia.
  - simpl. rewrite gauge_app. simpl. lia.
Qed.

(** Applying the gate acquires what its releases give back and drops the
    request under its own name. *)
Lemma gate_Apply_runs env g :
  runs (gate_Apply env g)
    (fun res k d => (k = 0%nat /\ d = 0)
       /\ match res with Ok vd => forall r, v_Result vd = Some r -> res_ID r = rm_ID v | Err _ => True end).
Proof.
  intros s a s' Hs E. unfold gate_Apply in E. set (r0 := mkGateRun _ _ _) in E.
  destruct (Apply_balanced env g r0 (ws_releases s) eq_refl) as (new & (_ & H1 & H2) & _).
  destruct (Apply_names env g r0) as [H3 H4]. destruct (Apply env g r0) as [r1 vd]. injection E as <- <-.
  exists 0%nat, 0. split.
  - split; [done| | |unfold waiting; simpl; lia|simpl; lia].
    + exists [], []. simpl. rewrite !app_nil_r. split_and!; done || constructor.
    + exists new. simpl in *. by rewrite H1.
  - split; [done|]. simpl in H4. destruct vd as [vd|e]; [|done]. intros r Hr.
    destruct (H4 r Hr) as (m & Hm & ->). unfold ir_view in Hm. simpl in Hm. rewrite Hs in Hm. simpl in Hm. congruence.
Qed.

Lemma gate_wait_ends gd : ends_if false (gate_wait obs v gd).
Proof.
  pose proof (finish_ends gd). unfold gate_wait, ends_if. wsilent. case_match; [wends|]. wsilent.
  case_match; [wends|by apply runs_ret].
Qed.
#[local] Hint Resolve finish_ends gate_failed_ends silent_stop_waiting silent_start_waiting : worker.

Lemma gate_loop_ends g gd fuel rec : ends_if false (gate_loop obs hasChecker fuel v g gd rec).
Proof.
  revert rec. induction fuel as [|fuel IH]; intros rec; cbn [gate_loop]; [apply runs_fail|].
  eapply ends_if_bind; [apply cancelled_ends| |intros k Hk; apply runs_ret; by rewrite Nat.add_0_r]. simpl. wsilent.
  eapply runs_bind; [apply gate_Apply_runs|]. intros [vd|e] k d [[-> ->] Hr]; [|wends].
  eapply runs_conseq with (R := fun b k d => (if Bool.eqb b false then one k else k = 0%nat) /\ d = 0);
    [|by intros; rewrite Nat.add_0_l, Z.add_0_l].
  destruct (v_Action vd).
  - wsilent. by apply runs_ret.
  - wsilent. apply ends_bind; [|by intros]. apply ends_emit_result. destruct (v_Result vd) eqn:E; simpl; auto.
  - wsilent. wends.
  - apply runs_silent_bind; [destruct rec; auto with worker|intros _]. wsilent.
    eapply ends_if_bind; [apply gate_wait_ends|apply IH|]. intros k Hk. apply runs_ret. by rewrite Nat.add_0_r.
Qed.

Lemma pool_gate_ends fuel : ends_if false (pool_gate obs hasChecker poolGate gateWaitTimeout fuel v).
Proof.
  unfold pool_gate, ends_if. destruct poolGate as [g|]; [|by apply runs_ret]. wsilent.
  apply gate_loop_ends.
Qed.

Lemma silent_bump : silent (w_upd bump_retry_count).
Proof.
  intros s a s' Hs [= <- <-]. exists 0%nat, 0. split; [|done]. split; [done| | |unfold waiting; simpl; lia|simpl; lia].
  - exists [], []. simpl. rewrite !app_nil_r. split_and!; done || constructor.
  - exists []. simpl. rewrite app_nil_r. split; [done|]. intros y. rewrite occurrences_nil. lia.
Qed.
#[local] Hint Resolve silent_bump : worker.

Lemma retryMessage_ends ra resp : ends (retryMessage obs v ra resp).
Proof.
  unfold retryMessage, ends. wsilent. case_match; wsilent; [|apply ends_emit_retry].
  apply ends_emit_result. unfold deadlineExhaustedResult. by repeat case_match.
Qed.

Lemma send_failed_ends rd c resp e : ends (send_failed obs v rd c resp e).
Proof.
  unfold send_failed, ends. wsilent. case_match; [apply ends_force_retry|]. wsilent.
  case_match; [by apply ends_emit_result|]. wsilent. destruct ((rd <=? _) && _); [wsilent; by apply ends_emit_result|].
  destruct (match se_Category e with Some _ => _ | None => _ end).
  - wsilent. apply ends_emit_result. unfold fatal_result. by repeat case_match.
  - apply runs_silent_bind; [case_match; auto with worker|intros _]. apply retryMessage_ends.
Qed.

Lemma send_ends payload : ends (sendInferenceRequest obs hasChecker transforms requestTimeout v payload).
Proof.
  unfold sendInferenceRequest, ends. wsilent. destruct (chain_Apply _ _ _) as [handled|e]; [|wsilent; by apply ends_emit_result].
  destruct (match handled with Some _ => _ | None => _ end) as [p h].
  eapply ends_if_bind; [apply cancelled_ends| |intros k Hk; apply runs_ret; by rewrite Nat.add_0_r].
  simpl. wsilent. destruct (o_send _ _ _ _) as [resp [e|]]; [apply send_failed_ends|].
  destruct resp; [wsilent; by apply ends_emit_result|apply runs_fail].
Qed.

Lemma process_body_ends fuel :
  ends (process_body obs hasChecker transforms poolGate requestTimeout gateWaitTimeout fuel v).
Proof.
  unfold process_body, ends. wsilent. apply runs_silent_bind; [case_match; auto with worker|intros _].
  eapply ends_if_bind; [apply cancelled_ends| |intros k Hk; apply runs_ret; by rewrite Nat.add_0_r]. simpl.
  eapply runs_bind; [apply validate_ends|]. intros p k d [Hk ->].
  destruct p as [payload|]; [subst k|apply runs_ret; by rewrite Nat.add_0_r].
  eapply ends_if_bind; [apply pool_gate_ends| |intros k Hk; apply runs_ret; simpl; by rewrite Nat.add_0_r]. simpl.
  eapply ends_if_bind; [apply cancelled_ends| |intros k Hk; apply runs_ret; by rewrite Nat.add_0_r]. simpl.
  eapply runs_bind; [by apply runs_count with (Q := fun _ k d => k = 0%nat /\ d = 1)|]. intros _ k d [-> ->].
  eapply runs_bind; [apply send_ends|]. intros _ k d [Hk ->].
  apply runs_count; [done|done|]. change (moves DecInflight) with (-1). by rewrite Nat.add_0_r.
Qed.
End outcomes.

(** ** The worker's theorems *)
Section worker_theorems.
Context {QS Slot : Type} `{EqDecision Slot} `{!QuotaStore QS Slot} `{!QuotaStoreLaws QS Slot}.
Context (obs : nat -> Obs) (hasChecker : bool) (transforms : list RequestTransform) (poolGate : option gate)
  (requestTimeout gateWaitTimeout : Z).

Abbreviation process := (processMessage obs hasChecker transforms poolGate requestTimeout gateWaitTimeout).
Abbreviation worker := (WorkerWithGateTimeout obs hasChecker transforms poolGate requestTimeout gateWaitTimeout).

(** The request a message carries, if any. *)
Definition carried (m : option EmbelishedRequestMessage) : option Request :=
  match m with Some m => ir_Public (em_InternalRequest m) | None => None end.

Definition outcomes (s : WState QS Slot) : nat := (length (ws_results s) + length (ws_retries s))%nat.

(** A message that carries no request is dropped; any other ends in [one]
    outcome, with the gauges and the gates as they were. *)
Lemma process_ends fuel m s s' :
  process fuel m s = (Ok tt, s') -> ws_releases s = [] ->
  ws_releases s' = [] /\ (forall x, held (ws_gates s') x = held (ws_gates s) x)
  /\ gauge IncInflight DecInflight (ws_metrics s') = gauge IncInflight DecInflight (ws_metrics s)
  /\ gauge IncGateWaiting DecGateWaiting (ws_metrics s') = gauge IncGateWaiting DecGateWaiting (ws_metrics s)
  /\ match carried m with
     | None => s' = s
     | Some pub =>
         exists v k, request_view pub = Some v /\ one obs k
         /\ exists rs ts, ws_results s' = ws_results s ++ rs /\ ws_retries s' = ws_retries s ++ ts
            /\ (length rs + length ts)%nat = k
            /\ Forall (fun r => res_ID r = rm_ID v) rs
            /\ Forall (fun t => ir_Public (em_InternalRequest (rm_Embelished t)) = Some pub) ts
     end.
Proof.
  intros E Hrel. destruct m as [m|]; [|by injection E as <-]. simpl in E |- *.
  destruct (ir_Public (em_InternalRequest m)) as [pub|] eqn:Ep; [|by injection E as <-].
  destruct (request_view pub) as [v|] eqn:Ev; [|done]. unfold w_bind at 1 2 3, w_upd, count, w_upd in E.
  match type of E with context [process_body _ _ _ _ _ _ _ _ ?s1] => set (s1' := s1) in E end.
  destruct (process_body _ _ _ _ _ _ _ _ _) as [[[]|e] s2] eqn:Eb; [|done].
  destruct (process_body_ends obs hasChecker transforms poolGate requestTimeout gateWaitTimeout pub v Ev fuel s1' tt s2 Ep Eb)
    as (k & d & H1 & Hk & ->).
  unfold w_bind in E. destruct (stop_waiting s2) as [[[]|e] s3] eqn:Es; [|done].
  destruct (silent_stop_waiting pub v s2 tt s3) as (k' & d' & H2 & -> & ->);
    [by rewrite (ev_public _ _ _ _ _ _ H1)|done|].
  assert (waiting s3 = 0) as Hw.
  { unfold stop_waiting, w_bind, w_get, count, w_upd in Es. unfold waiting.
    destruct (ws_gateWaiting s2) eqn:Ew; injection Es as <-; [done|by rewrite Ew]. }
  destruct (evolves_trans _ _ _ _ _ _ _ _ _ H1 H2) as [_ (rs & ts & G1 & G2 & G3 & G4 & G5) (new & G6 & G7) G8 G9].
  injection E as <-. simpl in G1, G2, G6, G7, G9 |- *. rewrite Hrel in G6. simpl in G6. rewrite Hw in G8. unfold waiting in G8. simpl in G8.
  rewrite gauge_app in G8, G9. simpl in G8, G9. split_and!; [done| |lia|lia|].
  - intros x. rewrite G6, held_releases, G7. lia.
  - exists v, k. do 2 (split; [done|]). exists rs, ts. split_and!; [done|done|lia|done|done].
Qed.

Definition carrying (ms : list (option EmbelishedRequestMessage)) : nat :=
  length (filter (fun m => is_Some (carried m)) ms).

Lemma carrying_cons m ms : carrying (m :: ms) = ((if carried m then 1 else 0) + carrying ms)%nat.
Proof.
  unfold carrying. rewrite filter_cons.
  destruct (carried m); [by rewrite decide_True by eauto|by rewrite decide_False by (by intros [? ?])].
Qed.

Lemma consume_ends fuel ms s s' :
  w_iter (process fuel) ms s = (Ok tt, s') -> ws_releases s = [] ->
  (outcomes s' <= outcomes s + carrying ms)%nat /\ (alive obs -> outcomes s' = outcomes s + carrying ms)%nat
  /\ (forall x, held (ws_gates s') x = held (ws_gates s) x)
  /\ gauge IncInflight DecInflight (ws_metrics s') = gauge IncInflight DecInflight (ws_metrics s)
  /\ gauge IncGateWaiting DecGateWaiting (ws_metrics s') = gauge IncGateWaiting DecGateWaiting (ws_metrics s).
Proof.
  revert s. induction ms as [|m ms IH]; intros s E Hrel; cbn [w_iter] in E.
  - injection E as <-. unfold carrying. simpl. split_and!; lia || done.
  - unfold w_bind in E. destruct (process fuel m s) as [[[]|e] s1] eqn:E1; [|done].
    destruct (process_ends _ _ _ _ E1 Hrel) as (H1 & H2 & H3 & H4 & H5).
    destruct (IH s1 E H1) as (G1 & G2 & G3 & G4 & G5). rewrite carrying_cons.
    assert (exists k, outcomes s1 = (outcomes s + k)%nat /\ if carried m then one obs k else k = 0%nat) as (k & Hk & Hone).
    { destruct (carried m) as [pub|]; [|exists 0%nat; subst; split; [lia|done]].
      destruct H5 as (v & k & _ & Hk & rs & ts & R1 & R2 & R3 & _). exists k. split; [|done].
      unfold outcomes. rewrite R1, R2, !length_app. lia. }
    split_and!; [| |intros x; by rewrite G3|congruence|congruence].
    + destruct (carried m); [destruct Hone|]; lia.
    + intros Ha. rewrite (G2 Ha), Hk. destruct (carried m); [rewrite (proj2 Hone Ha)|rewrite Hone]; lia.
Qed.

Lemma drain_ends ms (s s' : WState QS Slot) :
  w_iter drainMessage ms s = (Ok tt, s') ->
  outcomes s' = (outcomes s + carrying ms)%nat /\ ws_gates s' = ws_gates s
  /\ gauge IncInflight DecInflight (ws_metrics s') = gauge IncInflight DecInflight (ws_metrics s)
  /\ gauge IncGateWaiting DecGateWaiting (ws_metrics s') = gauge IncGateWaiting DecGateWaiting (ws_metrics s).
Proof.
  revert s. induction ms as [|m ms IH]; intros s E; cbn [w_iter] in E.
  - injection E as <-. unfold carrying. simpl. split_and!; lia || done.
  - rewrite carrying_cons. unfold w_bind in E. unfold carried. destruct m as [m|]; simpl in E; [|by apply IH].
    destruct (ir_Public (em_InternalRequest m)); simpl in E; [|by apply IH].
    destruct (IH _ E) as (-> & -> & -> & ->). simpl. rewrite !gauge_app. simpl.
    unfold outcomes. simpl. rewrite length_app. simpl. split_and!; lia || done.
Qed.

(** C4. A worker ends every message that carries a request exactly once: with
    one result or one retry, over any gates, cancellations, failures and
    deadlines, as long as its request context lasts; and never more than once
    when that context ends in between. *)
Theorem worker_exactly_once (fuel : nat) (consumed drained : list (option EmbelishedRequestMessage))
    (s s' : WState QS Slot) :
  worker fuel consumed drained s = (Ok tt, s') -> ws_releases s = [] ->
  (outcomes s' <= outcomes s + carrying (consumed ++ drained))%nat
  /\ (alive obs -> outcomes s' = outcomes s + carrying (consumed ++ drained))%nat.
Proof.
  intros E Hrel. unfold WorkerWithGateTimeout, w_bind in E.
  destruct (w_iter _ consumed s) as [[[]|e] s1] eqn:E1; [|done].
  destruct (consume_ends _ _ _ _ E1 Hrel) as (H1 & H2 & _). destruct (drain_ends _ _ _ E) as (H3 & _).
  unfold carrying in *. rewrite filter_app, length_app. split; [lia|]. intros Ha. rewrite H3, (H2 Ha). lia.
Qed.

(** However its messages end, a worker gives back everything its pool gates
    took for them, and leaves the in-flight and gate-waiting gauges where they
    were. *)
Theorem worker_gives_back (fuel : nat) (consumed drained : list (option EmbelishedRequestMessage))
    (s s' : WState QS Slot) :
  worker fuel consumed drained s = (Ok tt, s') -> ws_releases s = [] ->
  (forall x, held (ws_gates s') x = held (ws_gates s) x)
  /\ gauge IncInflight DecInflight (ws_metrics s') = gauge IncInflight DecInflight (ws_metrics s)
  /\ gauge IncGateWaiting DecGateWaiting (ws_metrics s') = gauge IncGateWaiting DecGateWaiting (ws_metrics s).
Proof.
  intros E Hrel. unfold WorkerWithGateTimeout, w_bind in E.
  destruct (w_iter _ consumed s) as [[[]|e] s1] eqn:E1; [|done].
  destruct (consume_ends _ _ _ _ E1 Hrel) as (_ & _ & H1 & H2 & H3). destruct (drain_ends _ _ _ E) as (_ & -> & -> & ->).
  done.
Qed.
End worker_theorems.
(** ** Retries come before the deadline *)
Lemma inject_Z_half k : (inject_Z k / 2 == k # 2)%Q.
Proof. unfold Qeq, Qdiv. simpl. lia. Qed.

Lemma frnd_half q k : (q == k # 2)%Q -> 0 < k < 2 ^ 51 -> (frnd q == k # 2)%Q.
Proof.
  intros E Hk. assert (0 < q)%Q by (rewrite E; unfold Qlt; simpl; lia).
  assert (q < inject_Z (2 ^ (52 - 1)))%Q by (rewrite E; unfold Qlt; simpl; lia).
  apply Qle_antisym.
  - apply (frnd_le q k 1); [by apply Qlt_le_weak|lia|done|by rewrite E; apply Qle_refl].
  - apply (frnd_ge q k 1); [done|lia|done|by rewrite E; apply Qle_refl].
Qed.

(** The un-jittered backoff, in seconds. *)
Definition backoff_ceiling (retryCount secondsToDeadline : Z) : Z :=
  Z.min (Z.min maxDelaySeconds secondsToDeadline) (2 ^ (retryCount + 1)).

Lemma backoff_temp rc sd :
  0 <= rc -> (Qmin (Qmin (inject_Z maxDelaySeconds) (inject_Z sd)) (inject_Z baseDelaySeconds * Qpower 2 rc)
              == inject_Z (backoff_ceiling rc sd))%Q.
Proof.
  intros Hrc. unfold backoff_ceiling.
  assert (inject_Z baseDelaySeconds * Qpower 2 rc == inject_Z (2 ^ (rc + 1)))%Q as E.
  { change 2%Q with (inject_Z 2). rewrite <- Zpower_Qpower by done. rewrite <- inject_Z_mult.
    rewrite Z.pow_add_r by lia. change baseDelaySeconds with 2. f_equiv. lia. }
  rewrite E. clear E.
  destruct (Z.min_spec maxDelaySeconds sd) as [[H1 ->]|[H1 ->]];
    [rewrite (Q.min_l (inject_Z maxDelaySeconds)) by (rewrite <- Zle_Qle; lia)
    |rewrite (Q.min_r (inject_Z maxDelaySeconds)) by (rewrite <- Zle_Qle; lia)];
  match goal with |- (Qmin (inject_Z ?a) (inject_Z ?b) == _)%Q =>
    destruct (Z.min_spec a b) as [[H2 ->]|[H2 ->]];
      [apply Q.min_l|apply Q.min_r]; rewrite <- Zle_Qle; lia end.
Qed.

(** The exponential backoff jitters between half its ceiling and its ceiling. *)
Lemma expBackoff_bounds rand rc sd :
  (0 <= rand <= 1)%Q -> 0 <= rc -> 0 < sd ->
  (backoff_ceiling rc sd # 2 <= expBackoffDuration rand rc sd <= inject_Z (backoff_ceiling rc sd))%Q.
Proof.
  intros [Hr0 Hr1] Hrc Hsd. pose proof (backoff_temp rc sd Hrc) as Et. unfold expBackoffDuration.
  destruct (Z.leb_spec sd 0); [lia|]. set (temp := Qmin (Qmin _ _) _) in *. set (t := backoff_ceiling rc sd) in *.
  assert (0 < t <= 60) as Ht.
  { unfold t, backoff_ceiling. change maxDelaySeconds with 60. assert (0 < 2 ^ (rc + 1)) by (apply Z.pow_pos_nonneg; lia). lia. }
  assert (0 < temp)%Q as Htemp by (rewrite Et; change 0%Q with (inject_Z 0); rewrite <- Zlt_Qlt; lia).
  rewrite (Qle_bool_gt temp 0) by done.
  assert (fdiv64 temp 2 == t # 2)%Q as Eh by (apply frnd_half; [rewrite Et; apply inject_Z_half|lia]).
  set (half := fdiv64 temp 2) in *. clearbody half.
  assert (0 <= rand * half)%Q as H0 by (rewrite Eh; apply Qmult_le_0_compat; [done|unfold Qle; simpl; lia]).
  assert (rand * half <= t # 2)%Q as H1 by (rewrite Eh; rewrite <- (Qmult_1_l (t # 2)) at 2; apply Qmult_le_compat_r; [done|unfold Qle; simpl; lia]).
  assert (fmul64 rand half <= t # 2)%Q as H2.
  { apply (frnd_le _ t 1); [done|lia| |done]. eapply Qle_lt_trans; [exact H1|]. unfold Qlt. simpl. lia. }
  assert (0 <= fmul64 rand half)%Q as H3 by by apply frnd_nonneg.
  assert (half + fmul64 rand half <= inject_Z t)%Q as H4.
  { apply Qle_trans with ((t # 2) + (t # 2))%Q; [apply Qplus_le_compat; [rewrite Eh; apply Qle_refl|done]|unfold Qle; simpl; lia]. }
  assert (t # 2 <= half + fmul64 rand half)%Q as H5.
  { rewrite <- (Qplus_0_r (t # 2)). apply Qplus_le_compat; [rewrite Eh; apply Qle_refl|done]. }
  assert (0 < half + fmul64 rand half)%Q as H6 by (eapply Qlt_le_trans; [|exact H5]; unfold Qlt; simpl; lia).
  split.
  - apply (frnd_ge _ t 1); [done|lia| |done]. eapply Qle_lt_trans; [exact H4|]. rewrite <- Zlt_Qlt. lia.
  - apply (frnd_le _ t 0); [by apply Qlt_le_weak|lia| |done]. eapply Qle_lt_trans; [exact H4|]. rewrite <- Zlt_Qlt. lia.
Qed.

(** The Retry-After arm stays within five eighths of the time left. *)
Lemma retry_after_bounds rand ras sd :
  (0 <= rand <= 1)%Q -> (0 <= ras)%Q -> 0 < sd < 2 ^ 40 ->
  (fmul64 (Qmin ras (fdiv64 (inject_Z sd) 2)) (fadd64 1 (fdiv64 rand 4)) <= 5 * sd # 8)%Q.
Proof.
  intros [Hr0 Hr1] Hras Hsd.
  assert (fdiv64 (inject_Z sd) 2 == sd # 2)%Q as Eh by (apply frnd_half; [apply inject_Z_half|lia]).
  set (c := Qmin _ _). assert (0 <= c <= sd # 2)%Q as [Hc0 Hc1].
  { split; [apply Q.min_glb; [done|rewrite Eh; unfold Qle; simpl; lia]|].
    eapply Qle_trans; [apply Q.le_min_r|rewrite Eh; apply Qle_refl]. }
  assert (0 <= rand / 4 <= 1 # 4)%Q as [Hq0 Hq1] by (change (rand / 4)%Q with (rand * (1 # 4))%Q; split; lra).
  assert (fdiv64 rand 4 <= 1 # 4)%Q as H1 by (apply (frnd_le _ 1 2); [done|lia|by eapply Qle_lt_trans; [exact Hq1|]|done]).
  assert (0 <= fdiv64 rand 4)%Q as H0 by by apply frnd_nonneg.
  assert (0 <= fadd64 1 (fdiv64 rand 4) <= 5 # 4)%Q as [Hf0 Hf1].
  { split; [apply frnd_nonneg; lra|]. apply (frnd_le _ 5 2); [lra|lia| |change (5 # Z.to_pos (2 ^ 2))%Q with (5 # 4)%Q; lra].
    apply Qle_lt_trans with (5 # 4)%Q; [lra|done]. }
  set (f := fadd64 _ _) in *. clearbody f c.
  assert (c * f <= 5 * sd # 8)%Q as Hcf.
  { apply Qle_trans with ((sd # 2) * (5 # 4))%Q; [|unfold Qle; simpl; lia].
    apply Qle_trans with (c * (5 # 4))%Q; [by rewrite !(Qmult_comm c); apply Qmult_le_compat_r|by apply Qmult_le_compat_r]. }
  apply (frnd_le _ (5 * sd) 3); [by apply Qmult_le_0_compat|lia| |done].
  eapply Qle_lt_trans; [exact Hcf|]. unfold Qlt. simpl. lia.
Qed.

(** A retry is always due by the deadline, however long the backend asks to
    wait, and no sooner than half the exponential backoff. *)
Theorem retry_by_deadline (rand1 rand2 : Q) (retryCount secondsToDeadline retryAfter : Z) :
  (0 <= rand1 <= 1)%Q -> (0 <= rand2 <= 1)%Q -> 0 <= retryCount < 2 ^ 62 -> 0 < secondsToDeadline < 2 ^ 40 ->
  (backoff_ceiling (retryCount + 1) secondsToDeadline # 2
   <= retry_backoff rand1 rand2 retryCount secondsToDeadline retryAfter <= inject_Z secondsToDeadline)%Q.
Proof.
  intros H1 H2 Hrc Hsd. unfold retry_backoff.
  assert (wrap64 (retryCount + 1) = retryCount + 1) as -> by (unfold wrap64; rewrite Z.mod_small; lia).
  destruct (expBackoff_bounds rand1 (retryCount + 1) secondsToDeadline) as [Hl Hu]; [done|lia|lia|].
  set (b := expBackoffDuration _ _ _) in *.
  assert (b <= inject_Z secondsToDeadline)%Q as Hb.
  { eapply Qle_trans; [exact Hu|]. rewrite <- Zle_Qle. unfold backoff_ceiling. lia. }
  destruct (Qle_bool (duration_Seconds retryAfter) b) eqn:Ec; [done|]. apply Qle_bool_false in Ec.
  split; [eapply Qle_trans; [exact Hl|apply Q.le_max_l]|]. apply Q.max_lub; [done|].
  assert (0 <= b)%Q.
  { eapply Qle_trans; [|exact Hl]. unfold Qle. simpl.
    assert (0 < 2 ^ (retryCount + 1 + 1)) by (apply Z.pow_pos_nonneg; lia).
    unfold backoff_ceiling. change maxDelaySeconds with 60. lia. }
  eapply Qle_trans; [apply retry_after_bounds; [done|by apply Qlt_le_weak, Qle_lt_trans with b|lia]|].
  unfold Qle. simpl. lia.
Qed.

(** The jitter draws from a half-open interval, but float64 rounding closes
    it: with three seconds left and the largest draw of [rand.Float64], the
    retry falls on the deadline itself, not strictly before it. *)
Theorem backoff_reaches_deadline :
  let rand := 9007199254740991 # 9007199254740992 in
  (rand < 1)%Q /\ (expBackoffDuration rand 1 3 == 3)%Q.
Proof. split; vm_compute; reflexivity. Qed.

(** ** Every message ends *)
Section termination.
Context {QS Slot : Type} `{EqDecision Slot} `{!QuotaStore QS Slot}.
Context (obs : nat -> Obs) (hasChecker : bool) (transforms : list RequestTransform) (poolGate : option gate)
  (requestTimeout gateWaitTimeout : Z).
Context (pub : Request) (v : RequestMessage) (Hv : request_view pub = Some v).

(** The clock passes the request's deadline by the [N]-th observation, and the
    client returns a response or an error. *)
Context (N : nat) (HN : forall n, (N <= n)%nat -> rm_Deadline v * Second <= o_now (obs n)).
Context (Hsend : forall n url h p, o_send (obs n) url h p <> (None, None)).

Definition total {A : Type} (m : WM QS Slot A) (P : A -> Prop) : Prop :=
  forall s, ir_Public (em_InternalRequest (ws_msg s)) = Some pub ->
  exists a s', m s = (Ok a, s') /\ ir_Public (em_InternalRequest (ws_msg s')) = Some pub
    /\ (ws_tick s <= ws_tick s')%nat /\ P a.

Lemma total_conseq {A : Type} (m : WM QS Slot A) (P Q : A -> Prop) : total m P -> (forall a, P a -> Q a) -> total m Q.
Proof. intros Hm HPQ s Hs. destruct (Hm s Hs) as (a & s' & ? & ? & ? & ?). exists a, s'. auto. Qed.

Lemma total_ret {A : Type} (a : A) (P : A -> Prop) : P a -> total (w_ret a) P.
Proof. intros Ha s Hs. by exists a, s. Qed.

Lemma total_upd (f : WState QS Slot -> WState QS Slot) (P : unit -> Prop) :
  (forall s, ir_Public (em_InternalRequest (ws_msg (f s))) = ir_Public (em_InternalRequest (ws_msg s))
     /\ ws_tick (f s) = ws_tick s) -> P tt -> total (w_upd f) P.
Proof. intros Hf HP s Hs. exists tt, (f s). destruct (Hf s) as [-> ->]. done. Qed.

Lemma total_get {A : Type} (f : WState QS Slot -> A) (P : A -> Prop) : (forall a, P a) -> total (w_get f) P.
Proof. intros HP s Hs. exists (f s), s. auto. Qed.

Lemma total_observe (P : Obs -> Prop) : (forall n, P (obs n)) -> total (observe obs) P.
Proof. intros HP s Hs. exists (obs (ws_tick s)), (with_tick (S (ws_tick s)) s). simpl. auto with lia. Qed.

Lemma total_bind {A B : Type} (m : WM QS Slot A) (f : A -> WM QS Slot B) R P :
  total m R -> (forall a, R a -> total (f a) P) -> total (w_bind m f) P.
Proof.
  intros Hm Hf s Hs. destruct (Hm s Hs) as (a & s1 & E1 & H1 & L1 & HR).
  destruct (Hf a HR s1 H1) as (b & s2 & E2 & H2 & L2 & HP). exists b, s2. unfold w_bind. rewrite E1. auto with lia.
Qed.

Lemma total_gate_Apply env g : total (gate_Apply env g) (fun res => res <> Err ErrNilMessage).
Proof.
  intros s Hs. unfold gate_Apply. set (r0 := mkGateRun _ _ _). destruct (Apply_names env g r0) as [H1 H2].
  destruct (Apply env g r0) as [r1 vd]. eexists _, _. split; [reflexivity|]. simpl in *. split_and!; [congruence|lia|].
  intros ->. apply H2; [|done]. unfold ir_view. simpl. rewrite Hs. simpl. rewrite Hv. eauto.
Qed.

(** Straight-line steps. *)
Ltac wtotal :=
  repeat first
    [ apply total_ret; first [exact I|done]
    | apply total_bind with (fun _ => True); [|intros ? _]
    | apply total_observe; by intros
    | apply total_get; by intros
    | apply total_upd; [by intros|exact I]
    | apply total_upd; [by intros|done] ].

Lemma total_count x : total (count x) (fun _ => True).
Proof. wtotal. Qed.
Lemma total_routing : total routing (fun _ => True).
Proof. wtotal. Qed.
Lemma total_force_retry b : total (force_retry b) (fun _ => True).
Proof. wtotal. Qed.
Lemma total_emit_retry b : total (emit_retry obs b) (fun _ => True).
Proof. unfold emit_retry. wtotal. case_match; wtotal. Qed.
Lemma total_emit_result r : total (emit_result obs r) (fun _ => True).
Proof. unfold emit_result. wtotal. case_match; wtotal. Qed.
#[local] Hint Resolve total_count total_routing total_force_retry total_emit_retry total_emit_result : worker.

Ltac wtot :=
  repeat (case_match || first
    [ solve [auto with worker]
    | apply total_ret; first [exact I|done]
    | apply total_bind with (fun _ => True); [|intros ? _]
    | apply total_observe; by intros
    | apply total_get; by intros
    | apply total_upd; [by intros|exact I] ]).

Lemma total_cancelled : total (emitCancelledResultIfNeeded obs hasChecker v) (fun _ => True).
Proof. unfold emitCancelledResultIfNeeded. wtot. Qed.
#[local] Hint Resolve total_cancelled : worker.

Lemma total_validate : total (validateAndMarshal obs transforms v) (fun p => is_Some p -> 0 < rm_Deadline v).
Proof.
  unfold validateAndMarshal. apply total_bind with (fun _ => True); [auto with worker|intros rt _].
  destruct (Z.leb_spec (rm_Deadline v) 0) as [|Hd].
  - wtot.
  - eapply total_conseq with (fun _ => True); [wtot|]. done.
Qed.

Lemma total_finish gd : total (finishGateContext obs v gd) (fun _ => True).
Proof. unfold finishGateContext. wtot. Qed.
#[local] Hint Resolve total_finish : worker.

Lemma total_gate_failed gd e : e <> ErrNilMessage -> total (gate_failed obs v gd e) (fun _ => True).
Proof. intros He. unfold gate_failed. case_bool_decide; [done|]. wtot. Qed.

(** Past the deadline, a wait ends the loop. *)
Lemma gate_wait_total t (s : WState QS Slot) :
  t <= rm_Deadline v * Second -> ir_Public (em_InternalRequest (ws_msg s)) = Some pub ->
  exists fired s', gate_wait obs v (Some t) s = (Ok fired, s') /\ ir_Public (em_InternalRequest (ws_msg s')) = Some pub
    /\ (ws_tick s < ws_tick s')%nat /\ ((N <= ws_tick s)%nat -> fired = false).
Proof.
  intros Ht Hs. unfold gate_wait, w_bind at 1, observe at 1. set (s1 := with_tick (S (ws_tick s)) s).
  assert (ir_Public (em_InternalRequest (ws_msg s1)) = Some pub) as Hs1 by done.
  destruct (gate_ended (Some t) (obs (ws_tick s))) eqn:Ee.
  - assert (total (w_bind (finishGateContext obs v (Some t)) (fun _ => w_ret false)) (fun b => b = false)) as Hf
      by (apply total_bind with (fun _ => True); [auto with worker|by intros; apply total_ret]).
    destruct (Hf s1 Hs1) as (b & s2 & E2 & H2 & L2 & ->). exists false, s2. simpl in L2. split_and!; [done|done|lia|done].
  - assert (~ (N <= ws_tick s)%nat) as Hn.
    { intros HNs. specialize (HN _ HNs). unfold gate_ended, deadline_passed in Ee. apply orb_false_iff in Ee as [_ Ee].
      apply Z.leb_gt in Ee. lia. }
    assert (total (w_bind (observe obs) (fun o => if gate_ended (Some t) o && o_skip o
      then w_bind (finishGateContext obs v (Some t)) (fun _ => w_ret false) else w_ret true)) (fun _ => True)) as Hf by wtot.
    destruct (Hf s1 Hs1) as (b & s2 & E2 & H2 & L2 & _). exists b, s2. simpl in L2. split_and!; [done|done|lia|done].
Qed.

Lemma total_start_waiting : total start_waiting (fun _ => True).
Proof. unfold start_waiting. wtot. Qed.
Lemma total_stop_waiting : total stop_waiting (fun _ => True).
Proof. unfold stop_waiting. wtot. Qed.
#[local] Hint Resolve total_start_waiting total_stop_waiting : worker.

(** The rest of an iteration whose verdict is not to wait. *)
Lemma total_verdict (vd : Verdict) (wait : WM QS Slot bool) :
  (v_Action vd = ActionWait -> total wait (fun _ => True)) ->
  total match v_Action vd with
        | ActionContinue => w_bind stop_waiting (fun _ => w_ret true)
        | ActionDrop =>
            w_bind (count (RecordGateDecision "dropped")) (fun _ => w_bind routing (fun rt =>
              w_bind (emit_result obs (default (NewGateDroppedResult v rt) (v_Result vd))) (fun _ => w_ret false)))
        | ActionRefuse =>
            w_bind (count (RecordGateDecision (gateDecisionReason vd))) (fun _ =>
              w_bind (emit_retry obs 0) (fun _ => w_ret false))
        | ActionWait => wait
        end (fun _ => True).
Proof. intros Hw. destruct (v_Action vd); [wtot|wtot|wtot|by apply Hw]. Qed.

(** An iteration that waits once more has consumed an observation, and past the
    deadline none does. *)
Lemma gate_loop_total g t fuel rec (s : WState QS Slot) :
  t <= rm_Deadline v * Second -> ir_Public (em_InternalRequest (ws_msg s)) = Some pub -> (N - ws_tick s < fuel)%nat ->
  exists passed s', gate_loop obs hasChecker fuel v g (Some t) rec s = (Ok passed, s')
    /\ ir_Public (em_InternalRequest (ws_msg s')) = Some pub /\ (ws_tick s <= ws_tick s')%nat.
Proof.
  intros Ht. revert rec s. induction fuel as [|fuel IH]; intros rec s Hs Hfuel; [lia|]. cbn [gate_loop].
  destruct (total_cancelled s Hs) as (c & s1 & E1 & H1 & L1 & _). unfold w_bind at 1. rewrite E1.
  destruct c; [by exists false, s1|]. unfold w_bind at 1, observe at 1.
  destruct (total_gate_Apply (o_gate_env (obs (ws_tick s1))) g (with_tick (S (ws_tick s1)) s1) H1)
    as (res & s2 & E2 & H2 & L2 & Hres). unfold w_bind at 1. rewrite E2. simpl in L2.
  destruct res as [vd|e].
  2: { destruct (total_gate_failed (Some t) e) with (s := s2) as ([] & s3 & E3 & H3 & L3 & _); [congruence|done|].
       exists false, s3. unfold w_bind. rewrite E3. split_and!; [done|done|lia]. }
  destruct (decide (v_Action vd = ActionWait)) as [Ew|Ew].
  - rewrite Ew. assert (total (if rec then w_ret tt else count (RecordGateDecision (gateDecisionReason vd))) (fun _ => True))
      as Hrec by wtot.
    destruct (Hrec s2 H2) as ([] & s3 & E3 & H3 & L3 & _). unfold w_bind at 1. rewrite E3.
    destruct (total_start_waiting s3 H3) as ([] & s4 & E4 & H4 & L4 & _). unfold w_bind at 1. rewrite E4.
    destruct (gate_wait_total t s4 Ht H4) as (fired & s5 & E5 & H5 & L5 & Hfired). unfold w_bind at 1. rewrite E5.
    destruct fired; [|exists false, s5; split_and!; [done|done|lia]].
    assert (~ (N <= ws_tick s4)%nat) by (intros Hn; by specialize (Hfired Hn)).
    destruct (IH true s5 H5) as (passed & s6 & E6 & H6 & L6); [lia|]. exists passed, s6. split_and!; [done|done|lia].
  - edestruct (total_verdict vd) with (s := s2) as (b & s3 & E3 & H3 & L3 & _); [done|done|].
    exists b, s3. rewrite E3. split_and!; [done|done|lia].
Qed.

(** Validated requests have a deadline, so the gate's context has one. *)
Lemma gate_deadline_le now : 0 < rm_Deadline v -> exists t, gate_deadline gateWaitTimeout v now = Some t /\ t <= rm_Deadline v * Second.
Proof.
  intros Hd. unfold gate_deadline. destruct (Z.ltb_spec 0 (rm_Deadline v)); [|lia].
  destruct (0 <? gateWaitTimeout); [|by eexists].
  destruct (Z.ltb_spec (rm_Deadline v * Second) (now + gateWaitTimeout)); eexists; (split; [reflexivity|]); lia.
Qed.

Lemma total_pool_gate fuel :
  0 < rm_Deadline v -> (N < fuel)%nat ->
  total (pool_gate obs hasChecker poolGate gateWaitTimeout fuel v) (fun _ => True).
Proof.
  intros Hd Hfuel. unfold pool_gate. destruct poolGate as [g|]; [|wtot]. intros s Hs.
  unfold w_bind, observe. destruct (gate_deadline_le (o_now (obs (ws_tick s))) Hd) as (t & -> & Ht).
  destruct (gate_loop_total g t fuel false (with_tick (S (ws_tick s)) s) Ht Hs) as (b & s' & E & H1 & L1); [simpl; lia|].
  exists b, s'. simpl in L1. split_and!; [done|done|lia|done].
Qed.

Lemma total_retryMessage ra resp : total (retryMessage obs v ra resp) (fun _ => True).
Proof. unfold retryMessage. wtot. Qed.
#[local] Hint Resolve total_retryMessage : worker.

Lemma total_send_failed rd c resp e : total (send_failed obs v rd c resp e) (fun _ => True).
Proof. unfold send_failed. wtot. Qed.
#[local] Hint Resolve total_send_failed : worker.

Lemma total_send payload : total (sendInferenceRequest obs hasChecker transforms requestTimeout v payload) (fun _ => True).
Proof.
  unfold sendInferenceRequest. do 3 (apply total_bind with (fun _ => True); [wtot|intros ? _]).
  destruct (chain_Apply _ _ _) as [handled|e]; [|wtot].
  destruct (match handled with Some _ => _ | None => _ end) as [p h].
  apply total_bind with (fun _ => True); [auto with worker|intros cancelled _]. destruct cancelled; [wtot|].
  apply total_bind with (fun _ => True); [auto with worker|intros _ _].
  apply total_bind with (fun o => forall url h p, o_send o url h p <> (None, None)); [by apply total_observe|intros o Ho].
  specialize (Ho (em_RequestURL a0) h p). destruct (o_send _ _ _ _) as [resp [e|]]; [auto with worker|].
  destruct resp; [wtot|done].
Qed.

Lemma total_process_body fuel :
  (N < fuel)%nat ->
  total (process_body obs hasChecker transforms poolGate requestTimeout gateWaitTimeout fuel v) (fun _ => True).
Proof.
  intros Hfuel. unfold process_body. do 2 (apply total_bind with (fun _ => True); [solve [wtot]|intros ? _]).
  apply total_bind with (fun _ => True); [auto with worker|intros cancelled _]. destruct cancelled; [wtot|].
  eapply total_bind; [apply total_validate|]. intros [payload|] Hd; [|wtot].
  apply total_bind with (fun _ => True); [by apply total_pool_gate; [apply Hd; eauto|]|intros passed _].
  destruct passed; simpl; [|wtot].
  apply total_bind with (fun _ => True); [auto with worker|intros cancelled _]. destruct cancelled; [wtot|].
  apply total_bind with (fun _ => True); [auto with worker|intros _ _].
  apply total_bind with (fun _ => True); [apply total_send|intros _ _]. auto with worker.
Qed.

(** C23. Every message ends: once the clock passes the request's deadline the
    gate loop stops waiting, so a fuel above the number of observations made
    by then is enough, whatever the gate answers. *)
Theorem message_ends (fuel : nat) (m : EmbelishedRequestMessage) (s : WState QS Slot) :
  (N < fuel)%nat -> ir_Public (em_InternalRequest m) = Some pub ->
  exists s', processMessage obs hasChecker transforms poolGate requestTimeout gateWaitTimeout fuel (Some m) s = (Ok tt, s').
Proof.
  intros Hfuel Hm. unfold processMessage. rewrite Hm, Hv. unfold w_bind at 1, w_upd at 1, w_bind at 1, count, w_upd at 1.
  match goal with |- exists _, w_bind _ _ ?s1 = _ => set (s1' := s1) end.
  destruct (total_process_body fuel Hfuel s1' Hm) as ([] & s2 & E2 & H2 & _). unfold w_bind at 1. rewrite E2.
  destruct (total_stop_waiting s2 H2) as ([] & s3 & E3 & _). unfold w_bind. rewrite E3. eexists. reflexivity.
Qed.
End termination.

(** ** Witnesses *)
Definition w_request : Request :=
  PlainRequest (Some (mkRequestMessage "r1" 0 100 RawNil {["user" := "u1"]} ∅ "" "")).
Definition w_emb : EmbelishedRequestMessage :=
  mkEmb (NewInternalRequest zeroRouting w_request) ∅ "http://igw/v1/completions" "pool".

(** The second passes between observations; the backend answers 503 once, with
    a Retry-After of ten seconds. *)
Definition w_obs (n : nat) : Obs :=
  mkObs (Z.of_nat n * Second) false false false (Ok false) [] w_gate_env false "" (1 # 2)
    (fun _ _ _ => (Some (mkInferenceResponse 503 "busy"),
                   Some (mkSendErr false false (Some ErrCategoryServer) (Some (10 * Second)) "server error"))).

Definition w_worker_state : WState MemQuota (string * nat) :=
  mkWState 0 w_emb [] [] [] w_gate_state [] None false.

(** A local gate with no room: the worker waits in front of it. *)
Definition w_full_gate : gate := GWaitOnRefuse (GLocal 0 0 GatingModeClassifying).

(** A message behind a gate with one slot, a nil message, and a message left in
    the channel at shutdown. *)
Abbreviation w_run :=
  (WorkerWithGateTimeout w_obs false [] (Some (GLocal 0 1 GatingModeClassifying)) (60 * Second) (5 * Minute) 2
     [Some w_emb; None] [Some w_emb] w_worker_state).

Lemma worker_exactly_once_witness : w_run.1 = Ok tt /\ outcomes w_run.2 = 2%nat.
Proof.
  assert (w_run.1 = Ok tt) as E by by_vm. split; [exact E|].
  destruct (worker_exactly_once w_obs false [] (Some (GLocal 0 1 GatingModeClassifying)) (60 * Second) (5 * Minute) 2
    [Some w_emb; None] [Some w_emb] w_worker_state w_run.2) as [_ H]; [exact (surjective_pairing_eq w_run (Ok tt) E)|exact eq_refl|].
  rewrite H; [reflexivity|]. intros n. reflexivity.
Defined.

Lemma worker_gives_back_witness :
  held (ws_gates w_run.2) (RelLocal 0%nat) = 0
  /\ gauge IncInflight DecInflight (ws_metrics w_run.2) = 0.
Proof.
  assert (w_run.1 = Ok tt) as E by by_vm.
  destruct (worker_gives_back w_obs false [] (Some (GLocal 0 1 GatingModeClassifying)) (60 * Second) (5 * Minute) 2
    [Some w_emb; None] [Some w_emb] w_worker_state w_run.2) as (H1 & H2 & _); [exact (surjective_pairing_eq w_run (Ok tt) E)|exact eq_refl|].
  rewrite H1, H2. split; reflexivity.
Defined.

Lemma retry_by_deadline_witness :
  (backoff_ceiling 1 30 # 2 <= retry_backoff (1 # 2) (1 # 2) 0 30 (60 * Second) <= inject_Z 30)%Q.
Proof. apply (retry_by_deadline (1 # 2) (1 # 2) 0 30 (60 * Second)); try lia; split; by apply Qle_bool_iff. Defined.

Lemma message_ends_witness :
  exists s', processMessage w_obs true [] (Some w_full_gate) (60 * Second) (5 * Minute) 101 (Some w_emb) w_worker_state = (Ok tt, s').
Proof.
  apply (message_ends w_obs true [] (Some w_full_gate) (60 * Second) (5 * Minute) w_request _ eq_refl 100); [|done|lia|done].
  intros n Hn. simpl. unfold Second. lia.
Defined.
