(* ===== verification/HttpClient.v ===== *)
(** * The HTTP inference client (src/pkg/asyncworker/http_client.go)

    [SendRequest] over what the HTTP library did with the request, and the
    parsing of [Retry-After].  The clock and [http.ParseTime] are arguments. *)
From stdpp Require Import prelude gmap strings list.
From Stdlib Require Import Ascii ZArith Lia.
From S2P Require Import Prelude Rounding Api Gates Worker.

#[local] Open Scope Z_scope.

(** ** ClientError *)
Record ClientError : Type := mkClientError {
  ce_ErrorCategory : ErrorCategory;
  ce_Message : string;
  ce_RawError : option string;
  ce_RetryAfter : Z;
  ce_StatusCode : Z;
  ce_DroppedReason : string
}.

Definition category_string (c : ErrorCategory) : string :=
  match c with
  | ErrCategoryRateLimit => "RATE_LIMIT"
  | ErrCategoryServer => "SERVER_ERROR"
  | ErrCategoryInvalidReq => "INVALID_REQ"
  | ErrCategoryAuth => "AUTH_ERROR"
  | ErrCategoryParse => "PARSE_ERROR"
  | ErrCategoryUnknown => "UNKNOWN"
  end.

Definition ClientError_Error (e : ClientError) : string :=
  let msg := if bool_decide (ce_DroppedReason e = "") then ce_Message e
             else ce_Message e +:+ " (dropped: " +:+ ce_DroppedReason e +:+ ")" in
  match ce_RawError e with
  | Some raw => category_string (ce_ErrorCategory e) +:+ ": " +:+ msg +:+ " (caused by: " +:+ raw +:+ ")"
  | None => category_string (ce_ErrorCategory e) +:+ ": " +:+ msg
  end.

(** ** strconv.Atoi *)
Definition digit (c : ascii) : option Z :=
  let n := Z.of_nat (nat_of_ascii c) in
  if (48 <=? n) && (n <=? 57) then Some (n - 48) else None.

Fixpoint digits (acc : Z) (s : string) : option Z :=
  match s with
  | EmptyString => Some acc
  | String c s' => match digit c with Some d => digits (10 * acc + d) s' | None => None end
  end.

(** [None]: a syntax error, or out of the range of an int64. *)
Definition Atoi (s : string) : option Z :=
  let '(neg, body) := match s with
                      | String c s' => if (ascii_dec c "-")%char then (true, s')
                                       else if (ascii_dec c "+")%char then (false, s') else (false, s)
                      | EmptyString => (false, s)
                      end in
  match body with
  | EmptyString => None
  | _ =>
      match digits 0 body with
      | None => None
      | Some n =>
          let n := if (neg : bool) then - n else n in
          if (- 2 ^ 63 <=? n) && (n <? 2 ^ 63) then Some n else None
      end
  end.

Definition parseRetryAfter (parseTime : string -> option Z) (now : Z) (value : string) : Z * bool :=
  if bool_decide (value = "") then (0, false)
  else
    match match Atoi value with Some n => if 0 <=? n then Some n else None | None => None end with
    | Some seconds => (wrap64 (seconds * Second), true)
    | None =>
        match parseTime value with
        | Some t => (Z.max 0 (t - now), true)
        | None => (0, false)
        end
    end.

(** ** SendRequest

    What the library reports: it could not build the request, the exchange
    failed, or there is a response, with the headers the client reads and
    either the whole body or what was read before an error. *)
Record HttpResponse : Type := mkHttpResponse {
  hr_StatusCode : Z;
  hr_DroppedReason : string;
  hr_RetryAfter : string;
  hr_Body : string;
  hr_ReadErr : option string
}.

Inductive exchange : Type :=
| NoRequest (err : string)
| NoResponse (err : string)
| Response (r : HttpResponse).

Section client.
Context (parseTime : string -> option Z) (now : Z) (Itoa : Z -> string).

Definition SendRequest (x : exchange) : option InferenceResponse * option ClientError :=
  match x with
  | NoRequest err => (None, Some (mkClientError ErrCategoryInvalidReq "failed to create request" (Some err) 0 0 ""))
  | NoResponse err => (None, Some (mkClientError ErrCategoryUnknown "failed to send request" (Some err) 0 0 ""))
  | Response r =>
      let status := hr_StatusCode r in
      let dropped := hr_DroppedReason r in
      let retryAfter := (parseRetryAfter parseTime now (hr_RetryAfter r)).1 in
      let resp := mkInferenceResponse status (hr_Body r) in
      match hr_ReadErr r with
      | Some err =>
          (Some resp, Some (mkClientError ErrCategoryServer "failed to read response" (Some err) retryAfter status dropped))
      | None =>
          if status =? 429 then
            (Some resp, Some (mkClientError ErrCategoryRateLimit ("rate limited: status code " +:+ Itoa status) None retryAfter status dropped))
          else if (400 <=? status) && (status <? 500) then
            (Some resp, Some (mkClientError ErrCategoryInvalidReq ("client error: status code " +:+ Itoa status) None 0 status dropped))
          else if (500 <=? status) && (status <? 600) then
            (Some resp, Some (mkClientError ErrCategoryServer ("server error: status code " +:+ Itoa status) None retryAfter status dropped))
          else (Some resp, None)
      end
  end.

(** The client's errors are retryable exactly for a 429, a 5xx or a body
    that broke off; every response reaches the caller with its status and
    body, also beside an error, and there is always a response or an error. *)
Theorem SendRequest_classifies (x : exchange) :
  match x with
  | NoRequest _ | NoResponse _ => exists e, SendRequest x = (None, Some e) /\ Fatal (ce_ErrorCategory e) = true
  | Response r =>
      exists err, SendRequest x = (Some (mkInferenceResponse (hr_StatusCode r) (hr_Body r)), err)
      /\ (match err with Some e => negb (Fatal (ce_ErrorCategory e)) | None => false end
          = bool_decide (is_Some (hr_ReadErr r)) || (hr_StatusCode r =? 429)
            || ((500 <=? hr_StatusCode r) && (hr_StatusCode r <? 600)))
      /\ (match err with Some e => Sheddable (ce_ErrorCategory e) | None => false end
          = negb (bool_decide (is_Some (hr_ReadErr r))) && (hr_StatusCode r =? 429))
  end.
Proof.
  destruct x as [e|e|r]; [eexists; split; reflexivity|eexists; split; reflexivity|]. cbn [SendRequest].
  destruct (hr_ReadErr r) as [e|]; [eexists; split_and!; reflexivity|].
  destruct (Z.eqb_spec (hr_StatusCode r) 429) as [|Hn]; [eexists; split_and!; reflexivity|].
  destruct ((400 <=? hr_StatusCode r) && (hr_StatusCode r <? 500)) eqn:E4.
  - eexists. split; [reflexivity|]. apply andb_prop in E4 as [E4 E4'].
    destruct (Z.leb_spec 500 (hr_StatusCode r)); [lia|]. done.
  - destruct ((500 <=? hr_StatusCode r) && (hr_StatusCode r <? 600)); eexists; split_and!; reflexivity.
Qed.
End client.

(** A number of seconds whose nanoseconds overflow an int64 wraps: the
    client reports a negative delay for a Retry-After of three hundred years
    that parses as valid. *)
Theorem parseRetryAfter_wraps (parseTime : string -> option Z) (now : Z) :
  parseRetryAfter parseTime now "9300000000" = (-9146744073709551616, true).
Proof. vm_compute. reflexivity. Qed.

(** Below the overflow a Retry-After in seconds is that many seconds. *)
Lemma parseRetryAfter_seconds (parseTime : string -> option Z) (now : Z) (value : string) (n : Z) :
  Atoi value = Some n -> 0 <= n <= 9223372036 ->
  parseRetryAfter parseTime now value = (n * Second, true).
Proof.
  intros Ha Hn. unfold parseRetryAfter. rewrite Ha. case_bool_decide as E; [by subst|].
  destruct (Z.leb_spec 0 n); [|lia]. f_equal. unfold wrap64. rewrite Z.mod_small; unfold Second; lia.
Qed.
