(* ===== verification/MergePolicy.v ===== *)
(** * Request headers and the random-robin merge policy
    (src/pkg/async/mergepolicy/internal, .../randomrobin, src/pkg/util)

    A merge policy reads the source channels of a pool's queues and hands the
    pool's workers one merged channel of embellished requests.  A channel is
    known by an identity; [url.JoinPath] and the validity of header values
    (package httpguts) are arguments. *)
From stdpp Require Import prelude gmap strings list.
From Stdlib Require Import Ascii ZArith Lia.
From S2P Require Import Prelude Rounding Api Gates Worker.

#[local] Open Scope Z_scope.

(** ** header.Set *)
Definition header_Set (headers : gmap string string) (name value : string) : gmap string string :=
  <[name := value]> (filter (fun kv => ~ (kv.1 <> name /\ EqualFold kv.1 name = true)) headers).

(** The caller's headers, in the order the map iteration visits them. *)
Definition header_SetAll (headers : gmap string string) (kvs : list (string * string)) : gmap string string :=
  foldl (fun h kv => header_Set h kv.1 kv.2) headers kvs.

(** ** Fairness stamping *)
Definition DefaultAttribute : string := "userid".
Definition maxIdentityLen : nat := 256.

Record Stamper : Type := mkStamper { st_header : string; st_attribute : string }.

Definition Stamper_New (header attribute : string) : Stamper :=
  mkStamper header (if bool_decide (attribute = "") then DefaultAttribute else attribute).

Inductive ParamErr : Type := ErrIllegalHeaderName.

(** [None]: the parameter is absent. *)
Definition ResolveHeader (validName : string -> bool) (header : option string) : Res ParamErr string :=
  match header with
  | None => Ok FairnessIDHeader
  | Some h => if negb (bool_decide (h = "")) && negb (validName h) then Err ErrIllegalHeaderName else Ok h
  end.

Section stamping.
Context (validValue : string -> bool).

(** The identity a stamper asserts for a request, if any. *)
Definition stamped_identity (s : Stamper) (req : RequestMessage) : option string :=
  if bool_decide (st_header s = "") then None
  else
    let id := default "" (rm_Metadata req !! st_attribute s) in
    if bool_decide (id = "") || bool_decide (maxIdentityLen < String.length id)%nat || negb (validValue id) then None
    else Some id.

Definition Stamp (s : Stamper) (headers : gmap string string) (req : RequestMessage) : gmap string string :=
  match stamped_identity s req with
  | Some id => header_Set headers (st_header s) id
  | None => headers
  end.

(** ** Source channels *)
Record RequestChannel : Type := mkRequestChannel {
  rc_Channel : nat;
  rc_IGWBaseURL : string;
  rc_InferenceObjective : string;
  rc_RequestPathURL : string;
  rc_WorkerPoolID : string
}.

Definition pool_of (ch : RequestChannel) : string :=
  if bool_decide (rc_WorkerPoolID ch = "") then "default" else rc_WorkerPoolID ch.

(** [url.JoinPath], its error dropped. *)
Context (joinPath : string -> string -> string).

Definition requestURL (ch : RequestChannel) (req : RequestMessage) : string :=
  joinPath (rc_IGWBaseURL ch)
    (if bool_decide (rm_Endpoint req = "") then rc_RequestPathURL ch else rm_Endpoint req).

(** [callers] is the caller's header map in iteration order. *)
Definition stampHeaders (s : Stamper) (ch : RequestChannel) (req : RequestMessage) (callers : list (string * string)) :
    gmap string string :=
  let h := header_Set ∅ "Content-Type" "application/json" in
  let h := if bool_decide (rc_InferenceObjective ch = "") then h
           else header_Set h "x-gateway-inference-objective" (rc_InferenceObjective ch) in
  let h := header_SetAll h callers in
  Stamp s h req.

(** ** The fan-in of a pool

    [fi_cases] is the last snapshot, [fi_selecting] whether the goroutine is in
    its select (or in the receive it makes when it has no source). *)
Record poolFanIn : Type := mkPoolFanIn {
  fi_merged : list EmbelishedRequestMessage;
  fi_sources : gmap nat RequestChannel;
  fi_changed : bool;
  fi_cases : list RequestChannel;
  fi_selecting : bool
}.

Definition newPoolFanIn : poolFanIn := mkPoolFanIn [] ∅ false [] false.

Definition addSource (ch : RequestChannel) (f : poolFanIn) : poolFanIn :=
  match fi_sources f !! rc_Channel ch with
  | Some _ => f
  | None => mkPoolFanIn (fi_merged f) (<[rc_Channel ch := ch]> (fi_sources f)) true (fi_cases f) (fi_selecting f)
  end.

Definition removeSource (c : nat) (f : poolFanIn) : poolFanIn :=
  match fi_sources f !! c with
  | Some _ => mkPoolFanIn (fi_merged f) (delete c (fi_sources f)) true (fi_cases f) (fi_selecting f)
  | None => f
  end.

(** The map iteration of [snapshot] visits the sources in any order. *)
Definition snapshot (metas : list RequestChannel) (f : poolFanIn) : poolFanIn :=
  mkPoolFanIn (fi_merged f) (fi_sources f) (fi_changed f) metas true.

Definition rebuild (f : poolFanIn) : poolFanIn :=
  mkPoolFanIn (fi_merged f) (fi_sources f) (fi_changed f) (fi_cases f) false.
Definition take_changed (f : poolFanIn) : poolFanIn :=
  mkPoolFanIn (fi_merged f) (fi_sources f) false (fi_cases f) false.

Definition embellish (s : Stamper) (pool : string) (ch : RequestChannel) (ir : InternalRequest) (req : RequestMessage)
    (callers : list (string * string)) : EmbelishedRequestMessage :=
  mkEmb ir (stampHeaders s ch req callers) (requestURL ch req) pool.

Definition deliver (e : EmbelishedRequestMessage) (f : poolFanIn) : poolFanIn :=
  mkPoolFanIn (fi_merged f ++ [e]) (fi_sources f) (fi_changed f) (fi_cases f) (fi_selecting f).

(** One step of the fan-in goroutine, or of a caller adding a source; the last
    argument is the embellished request of a message it received. *)
Inductive fan_step (s : Stamper) (pool : string) : poolFanIn -> option EmbelishedRequestMessage -> poolFanIn -> Prop :=
| FanAdd ch f : fan_step s pool f None (addSource ch f)
| FanSnapshot f metas :
    fi_selecting f = false -> metas ≡ₚ (map_to_list (fi_sources f)).*2 ->
    fan_step s pool f None (snapshot metas f)
| FanChanged f :
    fi_selecting f = true -> fi_changed f = true -> fan_step s pool f None (take_changed f)
| FanClosed f ch :
    fi_selecting f = true -> ch ∈ fi_cases f -> fan_step s pool f None (rebuild (removeSource (rc_Channel ch) f))
| FanNil f ch :
    fi_selecting f = true -> ch ∈ fi_cases f -> fan_step s pool f None (rebuild f)
| FanMessage f ch ir req callers :
    fi_selecting f = true -> ch ∈ fi_cases f -> ir_view ir = Some req -> callers ≡ₚ map_to_list (rm_Headers req) ->
    fan_step s pool f (Some (embellish s pool ch ir req callers))
      (rebuild (deliver (embellish s pool ch ir req callers) f)).

Inductive fan_steps (s : Stamper) (pool : string) : poolFanIn -> list EmbelishedRequestMessage -> poolFanIn -> Prop :=
| FanNone f : fan_steps s pool f [] f
| FanMore f o f1 out f2 :
    fan_step s pool f o f1 -> fan_steps s pool f1 out f2 -> fan_steps s pool f (option_list o ++ out) f2.
End stamping.

(** ** The policy's pools *)
Inductive PolicyErr : Type := ErrPoolNotFound (pool : string).

(** [merge]: stops at the first channel of an unknown pool. *)
Fixpoint rr_merge (channels : list RequestChannel) (pools : gmap string poolFanIn) :
    Res PolicyErr unit * gmap string poolFanIn :=
  match channels with
  | [] => (Ok tt, pools)
  | ch :: channels' =>
      match pools !! pool_of ch with
      | None => (Err (ErrPoolNotFound (pool_of ch)), pools)
      | Some f => rr_merge channels' (<[pool_of ch := addSource ch f]> pools)
      end
  end.

(** The first channel of a pool that is not configured. *)
Fixpoint unknown_pool {A : Type} (channels : list RequestChannel) (pools : gmap string A) : option string :=
  match channels with
  | [] => None
  | ch :: channels' =>
      match pools !! pool_of ch with
      | None => Some (pool_of ch)
      | Some _ => unknown_pool channels' pools
      end
  end.

Definition rr_AddRequestChannels (channels : list RequestChannel) (pools : gmap string poolFanIn) :
    Res PolicyErr unit * gmap string poolFanIn :=
  match unknown_pool channels pools with
  | Some p => (Err (ErrPoolNotFound p), pools)
  | None => rr_merge channels pools
  end.

(** [None]: the panic on an unknown pool. *)
Definition rr_MergeRequestChannels {C : Type} (channels : list RequestChannel) (configs : gmap string C)
    (pools : gmap string poolFanIn) : option (gmap string poolFanIn) :=
  match unknown_pool channels configs with
  | Some _ => None
  | None =>
      match rr_merge channels (((fun _ => newPoolFanIn) <$> configs) ∪ pools) with
      | (Ok _, pools') => Some pools'
      | (Err _, _) => None
      end
  end.

(** ** util.go *)
Definition NormalizeURLPath (path : string) : string :=
  match path with
  | EmptyString => "/"
  | String c _ => if ascii_dec c "/"%char then path else "/" +:+ path
  end.

(** The loop drops trailing slashes; [None]: it indexes the empty string. *)
Fixpoint drop_slashes (rev : list ascii) : option (list ascii) :=
  match rev with
  | [] => None
  | c :: rev' => if ascii_dec c "/"%char then drop_slashes rev' else Some rev
  end.

Definition NormalizeBaseURL (baseURL : string) : option string :=
  if bool_decide (baseURL = "") then Some ""
  else (fun r => String.string_of_list_ascii (reverse r)) <$> drop_slashes (reverse (String.list_ascii_of_string baseURL)).

(** ** Headers *)
Lemma lookup_header_Set h n x k :
  header_Set h n x !! k = if decide (k = n) then Some x else if EqualFold k n then None else h !! k.
Proof.
  unfold header_Set. case_decide as E; [subst; by rewrite lookup_insert_eq|]. rewrite lookup_insert_ne by done.
  rewrite map_lookup_filter. destruct (h !! k) as [y|]; simpl; [|by destruct (EqualFold k n)].
  destruct (EqualFold k n) eqn:Ef; case_guard as Hg; simpl; try done; exfalso; apply Hg || naive_solver; naive_solver.
Qed.

(** No two keys of a header map name one header. *)
Definition one_spelling (h : gmap string string) : Prop :=
  forall k1 k2, is_Some (h !! k1) -> is_Some (h !! k2) -> EqualFold k1 k2 = true -> k1 = k2.

Lemma EqualFold_sym a b : EqualFold a b = EqualFold b a.
Proof. unfold EqualFold. apply bool_decide_ext. naive_solver. Qed.

Lemma EqualFold_trans a b c : EqualFold a b = true -> EqualFold b c = true -> EqualFold a c = true.
Proof. unfold EqualFold. rewrite !bool_decide_eq_true. congruence. Qed.

Lemma header_Set_one_spelling h n x : one_spelling h -> one_spelling (header_Set h n x).
Proof.
  intros Hh k1 k2. rewrite !lookup_header_Set. intros H1 H2 Hf.
  destruct (decide (k1 = n)) as [E1|E1], (decide (k2 = n)) as [E2|E2]; [congruence| | |].
  - rewrite E1, EqualFold_sym in Hf. rewrite Hf in H2. by destruct H2.
  - rewrite E2 in Hf. rewrite Hf in H1. by destruct H1.
  - destruct (EqualFold k1 n); [by destruct H1|]. destruct (EqualFold k2 n); [by destruct H2|]. by apply Hh.
Qed.

Lemma header_SetAll_one_spelling kvs h : one_spelling h -> one_spelling (header_SetAll h kvs).
Proof. revert h. induction kvs as [|kv kvs IH]; intros h Hh; [done|]. by apply IH, header_Set_one_spelling. Qed.

(** A header none of the later writes names keeps its value. *)
Lemma lookup_header_SetAll_other kvs h k :
  Forall (fun kv => EqualFold k kv.1 = false) kvs -> header_SetAll h kvs !! k = h !! k.
Proof.
  revert h. induction kvs as [|[n x] kvs IH]; intros h Hk; [done|]. apply Forall_cons in Hk as [Hn Hk].
  cbn [header_SetAll foldl]. unfold header_SetAll in IH. rewrite IH by done. rewrite lookup_header_Set.
  simpl in *. case_decide as E; [subst; unfold EqualFold in Hn; by rewrite bool_decide_true in Hn|]. by rewrite Hn.
Qed.

Lemma one_spelling_single n x : one_spelling {[n := x]}.
Proof.
  intros k1 k2 [? [<- _]%lookup_singleton_Some] [? [<- _]%lookup_singleton_Some] _. done.
Qed.

Section stamping_theorems.
Context (validValue : string -> bool) (joinPath : string -> string -> string).

(** The headers before the fairness stamp. *)
Definition unstamped (ch : RequestChannel) (callers : list (string * string)) : gmap string string :=
  header_SetAll
    (if bool_decide (rc_InferenceObjective ch = "") then header_Set ∅ "Content-Type" "application/json"
     else header_Set (header_Set ∅ "Content-Type" "application/json") "x-gateway-inference-objective" (rc_InferenceObjective ch))
    callers.

Lemma unstamped_one_spelling ch callers : one_spelling (unstamped ch callers).
Proof.
  apply header_SetAll_one_spelling. case_bool_decide; repeat apply header_Set_one_spelling; intros ?? []; done.
Qed.

(** The headers a request is sent with name no header twice; the tenant
    identity, where there is one, is the value of the fairness header whatever
    the caller sent in any casing; and a caller's header overrides the
    policy's own and is itself overridden only by the fairness stamp. *)
Theorem stampHeaders_spec (s : Stamper) (ch : RequestChannel) (req : RequestMessage) (callers : list (string * string)) :
  let h := stampHeaders validValue s ch req callers in
  one_spelling h
  /\ (forall id, stamped_identity validValue s req = Some id -> h !! st_header s = Some id)
  /\ (forall l1 n x l2, callers = l1 ++ (n, x) :: l2 -> Forall (fun kv => EqualFold n kv.1 = false) l2 ->
       (stamped_identity validValue s req = None \/ EqualFold n (st_header s) = false) -> h !! n = Some x).
Proof.
  change (stampHeaders validValue s ch req callers) with (Stamp validValue s (unstamped ch callers) req). unfold Stamp.
  split_and!.
  - destruct (stamped_identity _ s req); [apply header_Set_one_spelling|]; apply unstamped_one_spelling.
  - intros id ->. rewrite lookup_header_Set. by rewrite decide_True.
  - intros l1 n x l2 -> Hl2 Hs.
    assert (unstamped ch (l1 ++ (n, x) :: l2) !! n = Some x) as E.
    { unfold unstamped, header_SetAll. rewrite foldl_app. cbn [foldl].
      rewrite (lookup_header_SetAll_other l2) by done. rewrite lookup_header_Set. by rewrite decide_True. }
    destruct (stamped_identity _ s req) as [id|]; [|done]. destruct Hs as [|Hs]; [done|].
    rewrite lookup_header_Set. case_decide as En; [|by rewrite Hs].
    rewrite En in Hs. unfold EqualFold in Hs. by rewrite bool_decide_true in Hs.
Qed.
End stamping_theorems.

(** ** The fan-in misses no source and delivers every message *)
Section fan_theorems.
Context (validValue : string -> bool) (joinPath : string -> string -> string) (s : Stamper) (pool : string).

(** Sources are keyed by their channel. *)
Definition keyed (f : poolFanIn) : Prop := forall c ch, fi_sources f !! c = Some ch -> rc_Channel ch = c.

(** While the goroutine selects, its cases are the current sources or a change
    notification is waiting for it. *)
Definition notified (f : poolFanIn) : Prop :=
  fi_selecting f = true -> fi_changed f = true \/ fi_cases f ≡ₚ (map_to_list (fi_sources f)).*2.

Lemma fan_step_notified f o f' : fan_step validValue joinPath s pool f o f' -> notified f -> notified f'.
Proof.
  destruct 1; intros Hn; unfold notified in *; simpl; try done.
  - unfold addSource. destruct (fi_sources f !! rc_Channel ch); [done|]. simpl. by left.
  - intros _. by right.
Qed.

Lemma fan_step_keyed f o f' : fan_step validValue joinPath s pool f o f' -> keyed f -> keyed f'.
Proof.
  destruct 1 as [ch f| | |f ch| |]; intros Hk; unfold keyed in *; try exact Hk.
  - unfold addSource. destruct (fi_sources f !! rc_Channel ch); [done|]. simpl. intros c ch'.
    rewrite lookup_insert_Some. intros [[<- <-]|[_ Hc]]; [done|by apply Hk].
  - unfold removeSource. destruct (fi_sources f !! rc_Channel ch); [|done]. simpl. intros c ch' Hc.
    apply lookup_delete_Some in Hc as [_ Hc]. by apply Hk.
Qed.

Lemma fan_step_merged f o f' :
  fan_step validValue joinPath s pool f o f' -> fi_merged f' = fi_merged f ++ option_list o.
Proof.
  destruct 1 as [ch f| | |f ch| |]; simpl; rewrite ?app_nil_r; try done.
  - unfold addSource. by destruct (fi_sources f !! rc_Channel ch).
  - unfold removeSource. by destruct (fi_sources f !! rc_Channel ch).
Qed.

Lemma fan_steps_invariant f out f' :
  fan_steps validValue joinPath s pool f out f' -> notified f -> keyed f ->
  notified f' /\ keyed f' /\ fi_merged f' = fi_merged f ++ out.
Proof.
  induction 1 as [|f o f1 out f2 H1 _ IH]; intros Hn Hk; [by rewrite app_nil_r|].
  destruct IH as (H2 & H3 & ->); [by eapply fan_step_notified|by eapply fan_step_keyed|].
  split_and!; [done|done|]. by rewrite (fan_step_merged _ _ _ H1), app_assoc.
Qed.

(** C39. The fan-in of a pool delivers every message it receives, once and in
    order, and it loses no notification: whatever sources come and go, while
    it selects its cases are exactly the current sources, or a change is
    waiting to make it rebuild them. *)
Theorem fan_in_complete (out : list EmbelishedRequestMessage) (f : poolFanIn) :
  fan_steps validValue joinPath s pool newPoolFanIn out f ->
  fi_merged f = out
  /\ (fi_selecting f = true -> fi_changed f = true \/ fi_cases f ≡ₚ (map_to_list (fi_sources f)).*2)
  /\ (forall c ch, fi_sources f !! c = Some ch -> rc_Channel ch = c).
Proof.
  intros H. destruct (fan_steps_invariant _ _ _ H) as (H1 & H2 & H3); [done| |done].
  intros c ch Hc. simpl in Hc. by rewrite lookup_empty in Hc.
Qed.
End fan_theorems.

Lemma unknown_pool_insert {A : Type} channels (pools : gmap string A) p a :
  is_Some (pools !! p) -> unknown_pool channels (<[p := a]> pools) = unknown_pool channels pools.
Proof.
  intros Hp. induction channels as [|ch channels IH]; simpl; [done|]. rewrite lookup_insert. case_decide as E.
  - subst. destruct Hp as [x ->]. exact IH.
  - destruct (pools !! pool_of ch); done.
Qed.

Lemma rr_merge_known channels pools :
  unknown_pool channels pools = None ->
  exists pools', rr_merge channels pools = (Ok tt, pools')
  /\ (forall p, is_Some (pools' !! p) <-> is_Some (pools !! p))
  /\ (forall p f, pools !! p = Some f ->
       pools' !! p = Some (foldl (fun f ch => addSource ch f) f (filter (fun ch => pool_of ch = p) channels))).
Proof.
  revert pools. induction channels as [|ch channels IH]; intros pools Hu; simpl in *; [by exists pools|].
  destruct (pools !! pool_of ch) as [f|] eqn:Ef; [|done].
  destruct (IH (<[pool_of ch := addSource ch f]> pools)) as (pools' & E & H1 & H2); [by rewrite unknown_pool_insert by eauto|].
  exists pools'. split_and!; [done| |].
  - intros p. rewrite H1, lookup_insert. case_decide; [subst; rewrite Ef; naive_solver eauto|done].
  - intros p g Hg. rewrite filter_cons. case_decide as Ep.
    + rewrite Ep in *. rewrite Hg in Ef. injection Ef as <-. by rewrite (H2 p _ (lookup_insert_eq _ _ _)).
    + apply H2. by rewrite lookup_insert_ne by done.
Qed.

(** Adding channels is all or nothing: with a channel of an unknown pool
    none is added; otherwise every channel joins its own pool, in order, and
    no pool appears or disappears. *)
Theorem rr_AddRequestChannels_spec (channels : list RequestChannel) (pools : gmap string poolFanIn) :
  match unknown_pool channels pools with
  | Some p => rr_AddRequestChannels channels pools = (Err (ErrPoolNotFound p), pools)
  | None =>
      exists pools', rr_AddRequestChannels channels pools = (Ok tt, pools')
      /\ (forall p, is_Some (pools' !! p) <-> is_Some (pools !! p))
      /\ (forall p f, pools !! p = Some f ->
           pools' !! p = Some (foldl (fun f ch => addSource ch f) f (filter (fun ch => pool_of ch = p) channels)))
  end.
Proof.
  unfold rr_AddRequestChannels. destruct (unknown_pool channels pools) eqn:Eu; [done|]. by apply rr_merge_known.
Qed.

(** ** A base URL of slashes *)
Lemma drop_slashes_all n : drop_slashes (replicate n "/"%char) = None.
Proof. induction n; [done|]. simpl. destruct (ascii_dec "/" "/"); [done|]. done. Qed.

(** A base URL made of nothing but slashes indexes the empty string: the
    normalisation panics instead of returning an empty base. *)
Lemma NormalizeBaseURL_slashes (n : nat) :
  NormalizeBaseURL (String.string_of_list_ascii (replicate (S n) "/"%char)) = None.
Proof.
  unfold NormalizeBaseURL. rewrite String.list_ascii_of_string_of_list_ascii.
  rewrite bool_decide_false by done. rewrite reverse_replicate, drop_slashes_all. done.
Qed.

(** ** Witnesses *)
Definition w_channel : RequestChannel := mkRequestChannel 1 "http://igw" "" "/v1/completions" "".
Definition w_stamper : Stamper := Stamper_New FairnessIDHeader "user".
Definition w_merged : EmbelishedRequestMessage :=
  embellish (fun _ => true) (fun a b => a +:+ b) w_stamper "default" w_channel (NewInternalRequest zeroRouting w_request)
    (mkRequestMessage "r1" 0 100 RawNil {["user" := "u1"]} ∅ "" "") [].

Lemma fan_in_complete_witness :
  exists f, fi_merged f = [w_merged] /\ em_HttpHeaders w_merged !! FairnessIDHeader = Some "u1".
Proof.
  pose (f1 := addSource w_channel newPoolFanIn). pose (f2 := snapshot [w_channel] f1).
  exists (rebuild (deliver w_merged f2)). split; [|by_vm].
  apply (fan_in_complete (fun _ => true) (fun a b => a +:+ b) w_stamper "default").
  apply (FanMore _ _ _ _ newPoolFanIn None f1 [w_merged]); [apply FanAdd|].
  apply (FanMore _ _ _ _ f1 None f2 [w_merged]); [apply FanSnapshot; [done|vm_compute; reflexivity]|].
  apply (FanMore _ _ _ _ f2 (Some w_merged) (rebuild (deliver w_merged f2)) []); [|apply FanNone].
  apply (FanMessage _ _ _ _ f2 w_channel); [done|by left|done|vm_compute; reflexivity].
Defined.
