(* ===== verification/TierPriority.v ===== *)
(** * The tier-priority merge policy
    (src/pkg/async/mergepolicy/tierpriority/tier_priority_policy.go)

    A pool's scheduler has six lanes, one per classification and tier; a lane
    keeps a queue per source channel and serves the sources in turn.  The
    methods run under the scheduler's lock; a method that waits on the
    condition variable is [Blocked] until another one changes the state.
    Indexing out of range is a panic: [None]. *)
From stdpp Require Import prelude gmap strings list.
From Stdlib Require Import ZArith Lia.
From S2P Require Import Prelude Json Rounding Api Gates Worker MergePolicy.

#[local] Open Scope Z_scope.

(** ** Lanes *)
Record msgAndMeta : Type := mkMsgAndMeta { mm_ir : InternalRequest; mm_chMeta : RequestChannel }.

(** The key of a source, ["%p"] of its channel, is the channel's identity. *)
Record bucket : Type := mkBucket {
  b_queues : gmap nat (list msgAndMeta);
  b_keys : list nat;
  b_nextIdx : nat;
  b_size : Z
}.

Definition newBucket : bucket := mkBucket ∅ [] 0 0.

Definition push (key : nat) (mm : msgAndMeta) (b : bucket) : bucket :=
  mkBucket (<[key := default [] (b_queues b !! key) ++ [mm]]> (b_queues b))
    (match b_queues b !! key with Some _ => b_keys b | None => b_keys b ++ [key] end)
    (b_nextIdx b) (b_size b + 1).

(** [Some (None, b)]: nothing to pop. *)
Definition pop (b : bucket) : option (option msgAndMeta * bucket) :=
  match b_keys b with
  | [] => Some (None, b)
  | _ =>
      match b_keys b !! b_nextIdx b with
      | None => None
      | Some key =>
          match default [] (b_queues b !! key) with
          | [] => None
          | mm :: q' =>
              Some (Some mm,
                match q' with
                | [] =>
                    let keys := take (b_nextIdx b) (b_keys b) ++ drop (S (b_nextIdx b)) (b_keys b) in
                    mkBucket (delete key (b_queues b)) keys
                      (if bool_decide (keys = []) then 0 else (b_nextIdx b mod length keys)%nat) (b_size b - 1)
                | _ =>
                    mkBucket (<[key := q']> (b_queues b)) (b_keys b)
                      ((b_nextIdx b + 1) mod length (b_keys b))%nat (b_size b - 1)
                end)
          end
      end
  end.

(** ** Priorities *)
Definition tier_of (ir : InternalRequest) (tierLabel : string) : string :=
  default "" (rt_Labels (ir_Routing ir) !! tierLabel).

Definition getPriorityIndex (ir : InternalRequest) (tierLabel : string) : nat :=
  let tierPri :=
    if bool_decide (tier_of ir tierLabel = TierInteractive) then 0%nat
    else if bool_decide (tier_of ir tierLabel = TierAsync) then 1%nat
    else 2%nat in
  let classPri := if bool_decide (GetClassification (ir_Routing ir) = ClassificationReserved) then 0%nat else 1%nat in
  (classPri * 3 + tierPri)%nat.

Definition laneKey (ir : InternalRequest) (tierLabel : string) : string :=
  let tier :=
    if bool_decide (tier_of ir tierLabel = TierInteractive) then TierInteractive
    else if bool_decide (tier_of ir tierLabel = TierAsync) then TierAsync
    else TierBatch in
  let class := if bool_decide (GetClassification (ir_Routing ir) = ClassificationReserved) then "reserved" else "overflow" in
  class +:+ "-" +:+ tier.

(** ** The scheduler *)
Record scheduler : Type := mkScheduler {
  s_totalBuffered : Z;
  s_maxBuffered : Z;
  s_tierLabel : string;
  s_closed : bool;
  s_activeReaders : Z;
  s_buckets : list bucket
}.

Definition newScheduler (maxBuffered activeReaders : Z) (tierLabel : string) : scheduler :=
  mkScheduler 0 maxBuffered tierLabel false activeReaders (replicate 6 newBucket).

Inductive outcome (A : Type) : Type :=
| Blocked
| Done (a : A) (s : scheduler).
Arguments Blocked {A}.
Arguments Done {A} a s.

Definition with_buckets (s : scheduler) (d : Z) (bs : list bucket) : scheduler :=
  mkScheduler (s_totalBuffered s + d) (s_maxBuffered s) (s_tierLabel s) (s_closed s) (s_activeReaders s) bs.

Definition Push (ir : InternalRequest) (ch : RequestChannel) (s : scheduler) : option (outcome bool) :=
  let pri := getPriorityIndex ir (s_tierLabel s) in
  match s_buckets s !! pri with
  | None => None
  | Some b =>
      if s_closed s then Some (Done false s)
      else if s_maxBuffered s <=? b_size b then Some Blocked
      else Some (Done true (with_buckets s 1 (<[pri := push (rc_Channel ch) (mkMsgAndMeta ir ch) b]> (s_buckets s))))
  end.

(** The loop over the lanes. *)
Fixpoint pop_lanes (bs : list bucket) : option (option msgAndMeta * list bucket) :=
  match bs with
  | [] => Some (None, [])
  | b :: bs' =>
      match pop b with
      | None => None
      | Some (Some mm, b') => Some (Some mm, b' :: bs')
      | Some (None, _) =>
          match pop_lanes bs' with
          | None => None
          | Some (mm, bs'') => Some (mm, b :: bs'')
          end
      end
  end.

Definition Pop (s : scheduler) : option (outcome (option msgAndMeta)) :=
  if s_totalBuffered s =? 0 then (if s_closed s then Some (Done None s) else Some Blocked)
  else
    match pop_lanes (s_buckets s) with
    | None => None
    | Some (None, _) => Some (Done None s)
    | Some (Some mm, bs) => Some (Done (Some mm) (with_buckets s (-1) bs))
    end.

Definition add_readers (d : Z) (s : scheduler) : scheduler :=
  mkScheduler (s_totalBuffered s) (s_maxBuffered s) (s_tierLabel s) (s_closed s) (s_activeReaders s + d) (s_buckets s).
Definition AddReader (s : scheduler) : scheduler := add_readers 1 s.
Definition DecrementReaders (s : scheduler) : scheduler := add_readers (-1) s.
Definition Close (s : scheduler) : scheduler :=
  mkScheduler (s_totalBuffered s) (s_maxBuffered s) (s_tierLabel s) true (s_activeReaders s) (s_buckets s).

(** ** The policy *)
Record Config : Type := mkConfig {
  cfg_PriorityHeader : string;
  cfg_TierLabel : string;
  cfg_FairnessHeader : string;
  cfg_FairnessAttribute : string;
  cfg_ObjectiveHeader : string;
  cfg_LaneObjectives : gmap string string
}.

Record TierPriorityPolicy : Type := mkTierPriorityPolicy {
  p_priorityHeader : string;
  p_tierLabel : string;
  p_objectiveHeader : string;
  p_laneObjectives : gmap string string;
  p_fairness : Stamper
}.

Definition NewTierPriorityPolicy (cfg : Config) : TierPriorityPolicy :=
  mkTierPriorityPolicy (cfg_PriorityHeader cfg)
    (if bool_decide (cfg_TierLabel cfg = "") then "tier" else cfg_TierLabel cfg)
    (if bool_decide (cfg_ObjectiveHeader cfg = "") then ObjectiveHeader else cfg_ObjectiveHeader cfg)
    (cfg_LaneObjectives cfg)
    (Stamper_New (cfg_FairnessHeader cfg) (cfg_FairnessAttribute cfg)).

(** The goroutine's body for one popped request: [callers] is the caller's
    header map in iteration order. *)
Definition tier_headers (validValue : string -> bool) (p : TierPriorityPolicy) (mm : msgAndMeta) (req : RequestMessage)
    (callers : list (string * string)) : gmap string string :=
  let h := stampHeaders validValue (p_fairness p) (mm_chMeta mm) req callers in
  let h := if bool_decide (p_priorityHeader p = "") then h
           else header_Set h (p_priorityHeader p) (itoa (Z.of_nat (getPriorityIndex (mm_ir mm) (p_tierLabel p)))) in
  match p_laneObjectives p !! laneKey (mm_ir mm) (p_tierLabel p) with
  | Some objective => if bool_decide (objective = "") then h else header_Set h (p_objectiveHeader p) objective
  | None => h
  end.

Definition tier_embellish (validValue : string -> bool) (joinPath : string -> string -> string) (p : TierPriorityPolicy)
    (pool : string) (mm : msgAndMeta) (req : RequestMessage) (callers : list (string * string)) : EmbelishedRequestMessage :=
  mkEmb (mm_ir mm) (tier_headers validValue p mm req callers) (requestURL joinPath (mm_chMeta mm) req) pool.

(** A pool: its scheduler and the channels with a reader. *)
Record poolMerge : Type := mkPoolMerge { pm_scheduler : scheduler; pm_sources : gset nat }.

Definition startReader (ch : RequestChannel) (pm : poolMerge) : poolMerge :=
  mkPoolMerge (AddReader (pm_scheduler pm)) ({[rc_Channel ch]} ∪ pm_sources pm).

(** The deferred calls of a reader whose channel closed. *)
Definition stopReader (ch : RequestChannel) (pm : poolMerge) : poolMerge :=
  mkPoolMerge (DecrementReaders (pm_scheduler pm)) (pm_sources pm ∖ {[rc_Channel ch]}).

Definition add_channel (pools : gmap string poolMerge) (ch : RequestChannel) : gmap string poolMerge :=
  match pools !! pool_of ch with
  | Some pm =>
      if bool_decide (rc_Channel ch ∈ pm_sources pm) then pools else <[pool_of ch := startReader ch pm]> pools
  | None => pools
  end.

Definition addChannels (channels : list RequestChannel) (pools : gmap string poolMerge) :
    Res PolicyErr unit * gmap string poolMerge :=
  match unknown_pool channels pools with
  | Some p => (Err (ErrPoolNotFound p), pools)
  | None => (Ok tt, foldl add_channel pools channels)
  end.

(** [None]: the panic on an unknown pool. *)
Definition MergeRequestChannels {C : Type} (p : TierPriorityPolicy) (channels : list RequestChannel) (configs : gmap string C)
    (pools : gmap string poolMerge) : option (gmap string poolMerge) :=
  match unknown_pool channels configs with
  | Some _ => None
  | None =>
      match addChannels channels (((fun _ => mkPoolMerge (newScheduler 1000 0 (p_tierLabel p)) ∅) <$> configs) ∪ pools) with
      | (Ok _, pools') => Some pools'
      | (Err _, _) => None
      end
  end.

Definition AddRequestChannels (channels : list RequestChannel) (pools : gmap string poolMerge) :
    Res PolicyErr unit * gmap string poolMerge := addChannels channels pools.

(** ** Lanes: invariant and round robin *)

(** The number of messages in a lane. *)
Definition buffered (qs : gmap nat (list msgAndMeta)) : Z :=
  Z.of_nat (sum_list_with (fun kq => length kq.2) (map_to_list qs)).

Lemma buffered_insert qs k q : qs !! k = None -> buffered (<[k := q]> qs) = Z.of_nat (length q) + buffered qs.
Proof. intros Hk. unfold buffered. rewrite map_to_list_insert by done. simpl. lia. Qed.

Lemma buffered_delete qs k q : qs !! k = Some q -> buffered qs = Z.of_nat (length q) + buffered (delete k qs).
Proof.
  intros Hk. rewrite <- (insert_id qs k q Hk) at 1. rewrite <- insert_delete_eq. by rewrite buffered_insert by apply lookup_delete_eq.
Qed.

Lemma buffered_update qs k q q' :
  qs !! k = Some q -> buffered (<[k := q']> qs) = buffered qs - Z.of_nat (length q) + Z.of_nat (length q').
Proof.
  intros Hk. rewrite <- insert_delete_eq, buffered_insert by apply lookup_delete_eq. rewrite (buffered_delete qs k q Hk). lia.
Qed.

Record bucket_good (b : bucket) : Prop := mkBucketGood {
  bg_nodup : NoDup (b_keys b);
  bg_keys : forall k, k ∈ b_keys b <-> is_Some (b_queues b !! k);
  bg_nonempty : forall k, b_queues b !! k <> Some [];
  bg_next : (b_nextIdx b < length (b_keys b))%nat \/ (b_keys b = [] /\ b_nextIdx b = 0%nat);
  bg_size : b_size b = buffered (b_queues b)
}.

(** The messages of one source, oldest first. *)
Definition lane_queue (b : bucket) (k : nat) : list msgAndMeta := default [] (b_queues b !! k).

(** The sources in the order they are served next. *)
Definition lane_order (b : bucket) : list nat := drop (b_nextIdx b) (b_keys b) ++ take (b_nextIdx b) (b_keys b).

Lemma bucket_good_new : bucket_good newBucket.
Proof.
  split; simpl; [constructor| |by intros k; rewrite lookup_empty|by right|done].
  intros k. rewrite lookup_empty. split; [by intros ?%not_elem_of_nil|by intros [? ?]].
Qed.

Lemma lane_queue_push key mm b k :
  lane_queue (push key mm b) k = lane_queue b k ++ if decide (k = key) then [mm] else [].
Proof.
  unfold lane_queue, push. cbn [b_queues]. rewrite lookup_insert.
  destruct (decide (key = k)) as [->|Hn]; [by rewrite decide_True|]. by rewrite decide_False, app_nil_r by done.
Qed.

Lemma push_good key mm b : bucket_good b -> bucket_good (push key mm b).
Proof.
  intros [H1 H2 H3 H4 H5]. unfold push. destruct (b_queues b !! key) as [q|] eqn:Ek; simpl; split; simpl.
  - done.
  - intros k. rewrite H2, lookup_insert_is_Some. destruct (decide (key = k)) as [<-|]; [rewrite Ek|]; naive_solver.
  - intros k. rewrite lookup_insert. case_decide; [by destruct q|done].
  - done.
  - rewrite H5, (buffered_update _ _ q), length_app by done. simpl. lia.
  - apply NoDup_app. split_and!; [done| |apply NoDup_singleton].
    intros k Hk ->%list_elem_of_singleton. apply H2 in Hk. rewrite Ek in Hk. by destruct Hk.
  - intros k. rewrite elem_of_app, list_elem_of_singleton, H2, lookup_insert_is_Some.
    destruct (decide (key = k)); naive_solver.
  - intros k. by rewrite lookup_insert; case_decide.
  - left. rewrite length_app. simpl. destruct H4 as [|[-> ->]]; simpl; lia.
  - rewrite H5, buffered_insert by done. simpl. lia.
Qed.

(** The keys around the next one. *)
Lemma keys_split b : bucket_good b -> b_keys b <> [] ->
  exists l1 k l2, b_keys b = l1 ++ k :: l2 /\ b_nextIdx b = length l1.
Proof.
  intros [_ _ _ [Hn|[]] _] Hk; [|done].
  destruct (lookup_lt_is_Some_2 _ _ Hn) as [k Hlk]. exists (take (b_nextIdx b) (b_keys b)), k, (drop (S (b_nextIdx b)) (b_keys b)).
  split; [by rewrite take_drop_middle|]. rewrite length_take. lia.
Qed.

Lemma lane_order_split b l1 k l2 :
  b_keys b = l1 ++ k :: l2 -> b_nextIdx b = length l1 -> lane_order b = k :: l2 ++ l1.
Proof. intros E En. unfold lane_order. by rewrite E, En, drop_app_length, take_app_length. Qed.

(** Serving the next source: it gives its oldest message, and goes to the back
    of the order unless it has no other. *)
Record served (b : bucket) (k : nat) (mm : msgAndMeta) (b' : bucket) : Prop := mkServed {
  sv_good : bucket_good b';
  sv_queue : forall k', lane_queue b k' = (if decide (k' = k) then [mm] else []) ++ lane_queue b' k';
  sv_order : exists rest, lane_order b = k :: rest
    /\ lane_order b' = rest ++ if bool_decide (lane_queue b' k = []) then [] else [k];
  sv_size : b_size b' = b_size b - 1
}.

(** What [pop] does at its next key. *)
Lemma pop_at b l1 k l2 :
  b_keys b = l1 ++ k :: l2 -> b_nextIdx b = length l1 ->
  pop b = match lane_queue b k with
    | [] => None
    | mm :: q' => Some (Some mm, match q' with
       | [] => mkBucket (delete k (b_queues b)) (l1 ++ l2)
                 (if bool_decide (l1 ++ l2 = []) then 0%nat else (length l1 mod length (l1 ++ l2))%nat) (b_size b - 1)
       | _ => mkBucket (<[k := q']> (b_queues b)) (b_keys b) ((length l1 + 1) mod length (b_keys b))%nat (b_size b - 1)
       end) end.
Proof.
  intros Ek En. unfold pop, lane_queue. rewrite Ek, En. destruct (l1 ++ k :: l2) eqn:E0; [by destruct l1|]. rewrite <- E0. clear E0.
  rewrite list_lookup_middle, take_app_length by done. rewrite drop_app, drop_ge, app_nil_l by lia.
  by replace (S (length l1) - length l1)%nat with 1%nat by lia.
Qed.

(** The source leaves with its last message. *)
Lemma served_last b l1 k l2 mm :
  bucket_good b -> b_keys b = l1 ++ k :: l2 -> b_nextIdx b = length l1 -> b_queues b !! k = Some [mm] ->
  served b k mm (mkBucket (delete k (b_queues b)) (l1 ++ l2)
    (if bool_decide (l1 ++ l2 = []) then 0%nat else (length l1 mod length (l1 ++ l2))%nat) (b_size b - 1)).
Proof.
  intros [H1 H2 H3 H4 H5] Ek En Hq.
  assert (NoDup (l1 ++ l2) /\ k ∉ l1 ++ l2) as [Hnd Hni].
  { rewrite Ek in H1. rewrite <- Permutation_middle in H1. apply NoDup_cons in H1. naive_solver. }
  split; [split; simpl; [done| | | |]| | |done].
  - intros k'. destruct (decide (k = k')) as [<-|Hne]; [rewrite lookup_delete_eq; split; [done|by intros [? ?]]|].
    rewrite lookup_delete_ne, <- H2, Ek by done. set_solver.
  - intros k'. rewrite lookup_delete. by case_decide.
  - case_bool_decide as E0; [by right|left]. apply Nat.mod_upper_bound. by destruct (l1 ++ l2).
  - rewrite H5, (buffered_delete _ _ _ Hq). simpl. lia.
  - intros k'. unfold lane_queue. simpl. rewrite lookup_delete. case_decide as E1; [subst k'|by rewrite decide_False by done].
    by rewrite decide_True, Hq by done.
  - exists (l2 ++ l1). split; [by apply lane_order_split|].
    unfold lane_queue. cbn [b_queues]. rewrite lookup_delete_eq. simpl. rewrite app_nil_r.
    unfold lane_order. simpl. case_bool_decide as E0; [by apply app_nil in E0 as [-> ->]|].
    rewrite length_app. destruct l2 as [|k2 l2].
    + rewrite !app_nil_r. simpl. rewrite Nat.add_0_r, Nat.Div0.mod_same. simpl. by rewrite app_nil_r.
    + rewrite Nat.mod_small by (simpl; lia). by rewrite drop_app_length, take_app_length.
Qed.

(** The source goes to the back of the order. *)
Lemma served_more b l1 k l2 mm m2 q :
  bucket_good b -> b_keys b = l1 ++ k :: l2 -> b_nextIdx b = length l1 -> b_queues b !! k = Some (mm :: m2 :: q) ->
  served b k mm (mkBucket (<[k := m2 :: q]> (b_queues b)) (b_keys b) ((length l1 + 1) mod length (b_keys b))%nat (b_size b - 1)).
Proof.
  intros [H1 H2 H3 H4 H5] Ek En Hq. split; [split; simpl; [done| | | |]| | |done].
  - intros k'. rewrite H2, lookup_insert_is_Some. destruct (decide (k = k')) as [<-|]; [rewrite Hq|]; naive_solver.
  - intros k'. rewrite lookup_insert. by case_decide.
  - left. apply Nat.mod_upper_bound. rewrite Ek, length_app. simpl. lia.
  - rewrite H5, (buffered_update _ _ _ _ Hq). simpl. lia.
  - intros k'. unfold lane_queue. simpl. rewrite lookup_insert. case_decide as E1; [subst k'|by rewrite decide_False by done].
    by rewrite decide_True, Hq by done.
  - exists (l2 ++ l1). split; [by apply lane_order_split|]. unfold lane_queue. cbn [b_queues]. rewrite lookup_insert_eq. simpl.
    unfold lane_order. simpl. rewrite Ek, length_app. simpl. destruct l2 as [|k2 l2].
    + simpl. rewrite Nat.Div0.mod_same. simpl. by rewrite app_nil_r.
    + rewrite Nat.mod_small by (simpl; lia). rewrite drop_app, drop_ge, app_nil_l by lia.
      rewrite take_app, take_ge by lia. replace (length l1 + 1 - length l1)%nat with 1%nat by lia. simpl. by rewrite app_assoc.
Qed.

Lemma pop_spec b :
  bucket_good b ->
  (b_keys b = [] /\ pop b = Some (None, b))
  \/ exists k mm b', pop b = Some (Some mm, b') /\ served b k mm b'.
Proof.
  intros Hb. destruct (decide (b_keys b = [])) as [E|E]; [left; unfold pop; by rewrite E|right].
  destruct (keys_split b Hb E) as (l1 & k & l2 & Ek & En). exists k.
  assert (is_Some (b_queues b !! k)) as [q Hq] by (apply (bg_keys b Hb); rewrite Ek; set_solver).
  rewrite (pop_at b l1 k l2 Ek En). unfold lane_queue. rewrite Hq. simpl.
  destruct q as [|mm [|m2 q]]; [by destruct (bg_nonempty b Hb k)| |]; eexists _, _; (split; [reflexivity|]).
  - by apply (served_last b l1 k l2).
  - by apply (served_more b l1 k l2).
Qed.

(** A lane serves its sources in turn: a pop gives the oldest message of
    the source at the head of the order, which goes to the back if it has more
    and leaves otherwise, and no other source's messages change. *)
Theorem lane_round_robin (b : bucket) (k : nat) (rest : list nat) :
  bucket_good b -> lane_order b = k :: rest ->
  exists mm b', pop b = Some (Some mm, b') /\ bucket_good b'
  /\ (forall k', lane_queue b k' = (if decide (k' = k) then [mm] else []) ++ lane_queue b' k')
  /\ lane_order b' = rest ++ if bool_decide (lane_queue b' k = []) then [] else [k].
Proof.
  intros Hb Ho. destruct (pop_spec b Hb) as [[E _]|(k' & mm & b' & E & [H1 H2 (rest' & H3 & H4) _])].
  - unfold lane_order in Ho. by rewrite E, drop_nil, take_nil in Ho.
  - rewrite Ho in H3. injection H3 as -> ->. exists mm, b'. done.
Qed.

(** ** The scheduler *)
Definition lane (s : scheduler) (i : nat) : bucket := default newBucket (s_buckets s !! i).

Definition sizes (bs : list bucket) : Z := foldr (fun b n => b_size b + n) 0 bs.

Record sched_good (s : scheduler) : Prop := mkSchedGood {
  sg_lanes : length (s_buckets s) = 6%nat;
  sg_good : Forall bucket_good (s_buckets s);
  sg_total : s_totalBuffered s = sizes (s_buckets s);
  sg_room : Forall (fun b => b_size b <= Z.max 0 (s_maxBuffered s)) (s_buckets s)
}.

Lemma sizes_insert bs i b b' : bs !! i = Some b -> sizes (<[i := b']> bs) = sizes bs - b_size b + b_size b'.
Proof.
  revert i. induction bs as [|c bs IH]; intros [|i] Hi; simplify_eq/=; [lia|]. rewrite (IH i Hi). lia.
Qed.

Lemma sizes_nonneg bs : Forall bucket_good bs -> 0 <= sizes bs /\ (sizes bs = 0 -> Forall (fun b => b_keys b = []) bs).
Proof.
  induction 1 as [|b bs Hb _ [IH1 IH2]]; [by split; [|constructor]|]. simpl.
  assert (0 <= b_size b) by (rewrite (bg_size b Hb); unfold buffered; lia).
  split; [lia|]. intros E. constructor; [|apply IH2; lia].
  destruct (pop_spec b Hb) as [[E0 _]|(k & mm & b' & _ & [Hb' _ _ Hs])]; [done|].
  assert (0 <= b_size b') by (rewrite (bg_size b' Hb'); unfold buffered; lia). lia.
Qed.

(** The lanes are searched from the first; the ones before the lane that gives
    the message are empty. *)
Lemma pop_lanes_spec bs :
  Forall bucket_good bs ->
  (Forall (fun b => b_keys b = []) bs /\ pop_lanes bs = Some (None, bs))
  \/ exists i b k mm b', bs !! i = Some b /\ pop_lanes bs = Some (Some mm, <[i := b']> bs) /\ served b k mm b'
      /\ forall j c, (j < i)%nat -> bs !! j = Some c -> b_keys c = [].
Proof.
  induction 1 as [|b bs Hb _ IH]; [by left|]. cbn [pop_lanes].
  destruct (pop_spec b Hb) as [[E ->]|(k & mm & b' & -> & Hs)].
  - destruct IH as [[H1 ->]|(i & c & k & mm & c' & Hi & -> & Hs & Hlt)].
    + left. by split; [constructor|].
    + right. exists (S i), c, k, mm, c'. split_and!; [done|done|done|].
      intros [|j] d Hj Hd; simplify_eq/=; [done|]. apply (Hlt j); [lia|done].
  - right. exists 0%nat, b, k, mm, b'. split_and!; [done|done|done|]. intros j c Hj. lia.
Qed.

Lemma sched_good_new max readers label : sched_good (newScheduler max readers label).
Proof.
  split; simpl; [done| |done|].
  - repeat constructor; apply bucket_good_new.
  - repeat constructor; simpl; lia.
Qed.

Lemma priority_lt ir label : (getPriorityIndex ir label < 6)%nat.
Proof. unfold getPriorityIndex. repeat case_bool_decide; simpl; lia. Qed.

(** The lanes [Push] touches. *)
Lemma Push_spec ir ch s :
  sched_good s ->
  exists o, Push ir ch s = Some o
  /\ match o with
     | Blocked => s_closed s = false /\ s_maxBuffered s <= b_size (lane s (getPriorityIndex ir (s_tierLabel s)))
     | Done false s' => s' = s /\ s_closed s = true
     | Done true s' =>
         sched_good s' /\ s_tierLabel s' = s_tierLabel s
         /\ forall i k, lane_queue (lane s' i) k = lane_queue (lane s i) k
              ++ if decide (i = getPriorityIndex ir (s_tierLabel s) /\ k = rc_Channel ch) then [mkMsgAndMeta ir ch] else []
     end.
Proof.
  intros [H1 H2 H3 H4]. unfold Push. set (pri := getPriorityIndex ir (s_tierLabel s)).
  assert (pri < length (s_buckets s))%nat as Hlt by (rewrite H1; apply priority_lt).
  destruct (lookup_lt_is_Some_2 _ _ Hlt) as [b Hb]. rewrite Hb.
  destruct (s_closed s) eqn:Ec; [by eexists|].
  destruct (Z.leb_spec (s_maxBuffered s) (b_size b)) as [Hf|Hf].
  { eexists. split; [reflexivity|]. unfold lane. by rewrite Hb. }
  eexists. split; [reflexivity|]. split_and!; [|done|].
  - split; simpl.
    + by rewrite length_insert.
    + apply Forall_insert; [done|]. apply push_good. by eapply Forall_lookup_1.
    + rewrite H3, (sizes_insert _ _ _ _ Hb). simpl. lia.
    + apply Forall_insert; [done|]. simpl. lia.
  - intros i k. unfold lane. simpl. destruct (decide (i = pri)) as [->|Hne].
    + rewrite list_lookup_insert_eq, Hb by done. simpl. rewrite lane_queue_push. f_equal.
      repeat case_decide; naive_solver.
    + rewrite list_lookup_insert_ne by done. rewrite decide_False by naive_solver. by rewrite app_nil_r.
Qed.

Lemma Pop_spec s :
  sched_good s ->
  (Forall (fun b => b_keys b = []) (s_buckets s)
   /\ Pop s = Some (if s_closed s then Done None s else Blocked))
  \/ exists i k mm s', Pop s = Some (Done (Some mm) s') /\ sched_good s' /\ s_tierLabel s' = s_tierLabel s
     /\ (i < 6)%nat /\ (forall j, (j < i)%nat -> b_keys (lane s j) = [])
     /\ forall i' k', lane_queue (lane s i') k'
          = (if decide (i' = i /\ k' = k) then [mm] else []) ++ lane_queue (lane s' i') k'.
Proof.
  intros [H1 H2 H3 H4]. unfold Pop. destruct (pop_lanes_spec _ H2) as [[He Ep]|(i & b & k & mm & b' & Hi & -> & Hs & Hlt)].
  - left. split; [done|]. assert (sizes (s_buckets s) = 0) as E0.
    { clear -He H2. induction H2 as [|b bs Hb _ IH]; [done|]. apply Forall_cons in He as [He1 He2]. simpl. rewrite (IH He2).
      rewrite (bg_size b Hb). replace (b_queues b) with (∅ : gmap nat (list msgAndMeta)); [done|].
      symmetry. apply map_empty. intros k. apply eq_None_not_Some. rewrite <- (bg_keys b Hb), He1. apply not_elem_of_nil. }
    rewrite H3, E0. simpl. by destruct (s_closed s).
  - right. assert (b_size b <> 0 /\ 0 < sizes (s_buckets s)) as [Hb0 Hpos].
    { destruct Hs as [Hb' _ _ Hsz]. assert (0 <= b_size b') by (rewrite (bg_size b' Hb'); unfold buffered; lia).
      split; [lia|]. destruct (sizes_nonneg _ H2) as [Hn0 Hn1]. destruct (Z.eq_dec (sizes (s_buckets s)) 0) as [E|]; [|lia].
      specialize (Hn1 E). pose proof (sizes_nonneg (<[i := b']> (s_buckets s)) (Forall_insert _ _ _ _ H2 Hb')) as [Hn2 _].
      rewrite (sizes_insert _ _ _ _ Hi) in Hn2. lia. }
    destruct (Z.eqb_spec (s_totalBuffered s) 0); [lia|].
    exists i, k, mm, (with_buckets s (-1) (<[i := b']> (s_buckets s))).
    pose proof (lookup_lt_Some _ _ _ Hi) as Hil. destruct Hs as [Hb' Hq _ Hsz]. split_and!; [done| |done|lia| |].
    + split; simpl; [by rewrite length_insert|by apply Forall_insert| |].
      * rewrite H3, (sizes_insert _ _ _ _ Hi). lia.
      * apply Forall_insert; [done|]. pose proof (Forall_lookup_1 _ _ _ _ H4 Hi). simpl in *. lia.
    + intros j Hj. unfold lane. destruct (s_buckets s !! j) as [c|] eqn:Ec; [by apply (Hlt j)|done].
    + intros i' k'. unfold lane. simpl. destruct (decide (i' = i)) as [->|Hne].
      * rewrite list_lookup_insert_eq, Hi by done. simpl. rewrite Hq. f_equal. repeat case_decide; naive_solver.
      * rewrite list_lookup_insert_ne by done. by rewrite decide_False by naive_solver.
Qed.

(** *** Histories *)
Inductive sched_event : Type :=
| EvPush (ir : InternalRequest) (ch : RequestChannel)
| EvPop
| EvReaders (d : Z)
| EvClose.

(** The state with the messages accepted and given out so far; a blocked call
    leaves everything as it is. *)
Record history : Type := mkHistory { h_sched : scheduler; h_pushed : list msgAndMeta; h_popped : list msgAndMeta }.

Definition sched_do (h : history) (e : sched_event) : option history :=
  let s := h_sched h in
  match e with
  | EvPush ir ch =>
      match Push ir ch s with
      | None => None
      | Some (Done true s') => Some (mkHistory s' (h_pushed h ++ [mkMsgAndMeta ir ch]) (h_popped h))
      | Some _ => Some h
      end
  | EvPop =>
      match Pop s with
      | None => None
      | Some (Done (Some mm) s') => Some (mkHistory s' (h_pushed h) (h_popped h ++ [mm]))
      | Some _ => Some h
      end
  | EvReaders d => Some (mkHistory (add_readers d s) (h_pushed h) (h_popped h))
  | EvClose => Some (mkHistory (Close s) (h_pushed h) (h_popped h))
  end.

Fixpoint sched_run (h : history) (es : list sched_event) : option history :=
  match es with
  | [] => Some h
  | e :: es' => match sched_do h e with None => None | Some h' => sched_run h' es' end
  end.

(** The messages of one lane and source. *)
Definition of_lane (label : string) (i k : nat) (l : list msgAndMeta) : list msgAndMeta :=
  filter (fun mm => getPriorityIndex (mm_ir mm) label = i /\ rc_Channel (mm_chMeta mm) = k) l.

Lemma of_lane_app label i k l l' : of_lane label i k (l ++ l') = of_lane label i k l ++ of_lane label i k l'.
Proof. apply filter_app. Qed.

Lemma of_lane_one label i k mm :
  of_lane label i k [mm] = if decide (getPriorityIndex (mm_ir mm) label = i /\ rc_Channel (mm_chMeta mm) = k) then [mm] else [].
Proof. unfold of_lane. by rewrite filter_cons. Qed.

Record history_good (label : string) (h : history) : Prop := mkHistoryGood {
  hg_sched : sched_good (h_sched h);
  hg_label : s_tierLabel (h_sched h) = label;
  hg_fifo : forall i k, of_lane label i k (h_popped h) ++ lane_queue (lane (h_sched h) i) k = of_lane label i k (h_pushed h)
}.

(** A message in a lane has the lane's priority and source. *)
Lemma lane_member label h i k mm q :
  history_good label h -> lane_queue (lane (h_sched h) i) k = mm :: q ->
  getPriorityIndex (mm_ir mm) label = i /\ rc_Channel (mm_chMeta mm) = k.
Proof.
  intros [_ _ Hf] Hq. assert (mm ∈ of_lane label i k (h_pushed h)) as H by (rewrite <- Hf, Hq; set_solver).
  by apply list_elem_of_filter in H as [? _].
Qed.

Lemma sched_do_good label h e :
  history_good label h -> exists h', sched_do h e = Some h' /\ history_good label h'.
Proof.
  intros Hh. pose proof Hh as [Hs Hl Hf]. destruct e as [ir ch| |d|]; cbn [sched_do].
  - destruct (Push_spec ir ch (h_sched h) Hs) as (o & -> & Ho). destruct o as [|[] s']; [by eexists| |by eexists].
    destruct Ho as (Hs' & Hl' & Hq). eexists. split; [reflexivity|]. split; [done|by simpl; rewrite Hl'|]. intros i k. simpl.
    rewrite Hq, app_assoc, Hf, of_lane_app, of_lane_one, Hl. f_equal. simpl. repeat case_decide; naive_solver.
  - destruct (Pop_spec (h_sched h) Hs) as [[_ ->]|(i & k & mm & s' & -> & Hs' & Hl' & _ & _ & Hq)].
    + destruct (s_closed (h_sched h)); by eexists.
    + eexists. split; [reflexivity|]. split; [done|by simpl; rewrite Hl'|]. intros i' k'. simpl.
      pose proof (Hq i k) as Hik. rewrite decide_True in Hik by done.
      destruct (lane_member label h i k mm _ Hh Hik) as [Hpi Hpk].
      rewrite <- Hf, Hq, of_lane_app, of_lane_one, <- app_assoc. f_equal. f_equal. repeat case_decide; naive_solver.
  - eexists. split; [reflexivity|]. destruct Hs. by split; [split|..].
  - eexists. split; [reflexivity|]. destruct Hs. by split; [split|..].
Qed.

Lemma sched_run_good label es h :
  history_good label h -> exists h', sched_run h es = Some h' /\ history_good label h'.
Proof.
  revert h. induction es as [|e es IH]; intros h Hh; [by exists h|]. simpl.
  destruct (sched_do_good label h e Hh) as (h' & -> & Hh'). by apply IH.
Qed.

Definition new_history (max : Z) (label : string) : history := mkHistory (newScheduler max 0 label) [] [].

Lemma new_history_good max label : history_good label (new_history max label).
Proof.
  split; [apply sched_good_new|done|]. intros i k. cbn [new_history h_sched h_pushed h_popped].
  assert (lane (newScheduler max 0 label) i = newBucket) as ->.
  { unfold lane. cbn [newScheduler s_buckets]. destruct (replicate 6 newBucket !! i) as [b|] eqn:E; [|done].
    by apply lookup_replicate in E as [-> _]. }
  unfold lane_queue. simpl. by rewrite lookup_empty.
Qed.

(** The scheduler neither loses, duplicates nor reorders requests: over any
    interleaving of pushes and pops it never panics, and in every lane the
    requests of a source come out in the order they were accepted, followed
    by the ones still queued. *)
Theorem tier_fifo (max : Z) (label : string) (es : list sched_event) :
  exists h, sched_run (new_history max label) es = Some h
  /\ forall i k, of_lane label i k (h_popped h) ++ lane_queue (lane (h_sched h) i) k = of_lane label i k (h_pushed h).
Proof.
  destruct (sched_run_good label es _ (new_history_good max label)) as (h & E & [_ _ H]). by exists h.
Qed.

(** C31. Priority is strict, work-conserving and bounded: whatever happened
    before, a pop gives a request whenever one is buffered, every lane above
    the lane of the request it gives is empty, and no lane holds more than
    its bound. *)
Theorem tier_strict_priority (max : Z) (label : string) (es : list sched_event) (h : history) :
  sched_run (new_history max label) es = Some h ->
  match Pop (h_sched h) with
  | None => False
  | Some (Done (Some mm) _) => forall j, (j < getPriorityIndex (mm_ir mm) label)%nat -> b_keys (lane (h_sched h) j) = []
  | Some _ => forall j, b_keys (lane (h_sched h) j) = []
  end
  /\ Forall (fun b => b_size b <= Z.max 0 (s_maxBuffered (h_sched h))) (s_buckets (h_sched h)).
Proof.
  intros E. destruct (sched_run_good label es _ (new_history_good max label)) as (h' & E' & Hh).
  rewrite E in E'. injection E' as <-. pose proof Hh as [Hs Hl Hf]. split; [|apply (sg_room _ Hs)].
  destruct (Pop_spec (h_sched h) Hs) as [[He ->]|(i & k & mm & s' & -> & _ & _ & _ & Hlt & Hq)].
  - assert (forall j, b_keys (lane (h_sched h) j) = []) as Hj.
    { intros j. unfold lane. destruct (s_buckets (h_sched h) !! j) as [b|] eqn:Eb; [|done]. by apply (Forall_lookup_1 _ _ _ _ He Eb). }
    by destruct (s_closed (h_sched h)).
  - pose proof (Hq i k) as Hik. rewrite decide_True in Hik by done.
    destruct (lane_member label h i k mm _ Hh Hik) as [-> _]. done.
Qed.

(** ** Starvation within a lane *)

(** Three queues of one lane; the first has two requests, then the lane has
    served the first of them. *)
Definition s_msg : InternalRequest := NewInternalRequest zeroRouting (PlainRequest None).
Definition s_mm (k : nat) : msgAndMeta := mkMsgAndMeta s_msg (mkRequestChannel k "" "" "" "").
Definition s_bucket : bucket := push 2 (s_mm 2) (push 1 (s_mm 1) (push 0 (s_mm 0) (push 0 (s_mm 0) newBucket))).

(** One turn: a request is popped and its queue, now empty, submits another. *)
Definition turn (b : bucket) : option (nat * bucket) :=
  match pop b with
  | Some (Some mm, b') => let k := rc_Channel (mm_chMeta mm) in Some (k, push k (s_mm k) b')
  | _ => None
  end.

Fixpoint turns (n : nat) (b : bucket) : option (list nat * bucket) :=
  match n with
  | O => Some ([], b)
  | S n => match turn b with
           | Some (k, b') => match turns n b' with Some (ks, b'') => Some (k :: ks, b'') | None => None end
           | None => None
           end
  end.

(** A lane does not serve its sources in turn when they keep submitting: a
    source that empties its queue and submits again re-enters in front of the
    ones waiting behind the wrap-around, so two such sources take every turn
    and a third with a request queued all along is never served. *)
Theorem lane_starvation :
  exists b0 b1, pop s_bucket = Some (Some (s_mm 0), b0) /\ lane_queue b0 0 = [s_mm 0]
  /\ turns 2 b0 = Some ([1; 2]%nat, b1) /\ b1 = b0
  /\ forall n, exists b, turns (2 * n) b0 = Some (mjoin (replicate n [1; 2]%nat), b) /\ lane_queue b 0 = [s_mm 0].
Proof.
  eexists _, _. split; [vm_compute; reflexivity|]. split; [vm_compute; reflexivity|].
  split; [vm_compute; reflexivity|]. split; [reflexivity|].
  match goal with |- forall n, exists b, turns _ ?b0 = _ /\ _ => set (b := b0); intros n; exists b end.
  split; [|reflexivity]. induction n as [|n IH]; [done|].
  replace (2 * S n)%nat with (S (S (2 * n))) by lia.
  assert (turns (S (S (2 * n))) b = match turns (2 * n) b with Some (ks, b'') => Some (1%nat :: 2%nat :: ks, b'') | None => None end) as ->.
  { cbn [turns]. destruct (turn b) as [[k b']|] eqn:E1; vm_compute in E1; [|done]. injection E1 as <- <-.
    match goal with |- context [turn ?x] => destruct (turn x) as [[k b'']|] eqn:E2; vm_compute in E2; [|done] end.
    injection E2 as <- <-. change (mkBucket _ _ _ _) with b. by destruct (turns (2 * n) b) as [[]|]. }
  by rewrite IH.
Qed.

(** ** Stamped priorities *)

(** A request is sent to the objective of its lane, and with its lane's
    index where the priority header is configured, whatever headers its
    caller sent. *)
Theorem tier_headers_spec (validValue : string -> bool) (p : TierPriorityPolicy) (mm : msgAndMeta) (req : RequestMessage)
    (callers : list (string * string)) :
  let h := tier_headers validValue p mm req callers in
  one_spelling h
  /\ (forall o, p_laneObjectives p !! laneKey (mm_ir mm) (p_tierLabel p) = Some o -> o <> "" -> h !! p_objectiveHeader p = Some o)
  /\ (p_priorityHeader p <> "" -> EqualFold (p_priorityHeader p) (p_objectiveHeader p) = false ->
       h !! p_priorityHeader p = Some (itoa (Z.of_nat (getPriorityIndex (mm_ir mm) (p_tierLabel p))))).
Proof.
  unfold tier_headers. set (h0 := stampHeaders _ _ _ _ _).
  assert (one_spelling h0) as H0.
  { unfold h0. change (one_spelling (Stamp validValue (p_fairness p) (unstamped (mm_chMeta mm) callers) req)). unfold Stamp.
    destruct (stamped_identity _ _ req); [apply header_Set_one_spelling|]; apply unstamped_one_spelling. }
  set (h1 := if bool_decide (p_priorityHeader p = "") then _ else _).
  assert (one_spelling h1) as H1 by (unfold h1; case_bool_decide; [done|by apply header_Set_one_spelling]).
  split_and!.
  - repeat case_match; try done. by apply header_Set_one_spelling.
  - intros o -> Ho. rewrite bool_decide_false by done. rewrite lookup_header_Set. by rewrite decide_True.
  - intros Hp Hne. assert (h1 !! p_priorityHeader p = Some (itoa (Z.of_nat (getPriorityIndex (mm_ir mm) (p_tierLabel p))))) as E1.
    { unfold h1. rewrite bool_decide_false by done. rewrite lookup_header_Set. by rewrite decide_True. }
    destruct (p_laneObjectives p !! _); [|done]. case_bool_decide; [done|]. rewrite lookup_header_Set.
    case_decide as E; [|by rewrite Hne]. rewrite E in Hne. unfold EqualFold in Hne. by rewrite bool_decide_true in Hne.
Qed.

Lemma lane_round_robin_witness :
  exists mm b', pop s_bucket = Some (Some mm, b') /\ lane_order b' = [1; 2; 0]%nat.
Proof.
  destruct (lane_round_robin s_bucket 0 [1; 2]%nat) as (mm & b' & E & _ & Hq & Ho);
    [repeat apply push_good; apply bucket_good_new|vm_compute; reflexivity|].
  exists mm, b'. split; [done|]. rewrite Ho. specialize (Hq 0%nat). rewrite decide_True in Hq by done.
  change (lane_queue s_bucket 0) with [s_mm 0; s_mm 0] in Hq. simpl in Hq. injection Hq as _ Hq. by rewrite <- Hq.
Defined.

Definition s_reserved : InternalRequest :=
  NewInternalRequest (SetClassification ClassificationReserved zeroRouting) (PlainRequest None).
Definition s_events : list sched_event :=
  [EvPush s_msg (mkRequestChannel 0 "" "" "" ""); EvPush s_reserved (mkRequestChannel 1 "" "" "" "")].

Definition s_history : history := default (new_history 0 "") (sched_run (new_history 1000 "tier") s_events).

Lemma tier_strict_priority_witness :
  (exists s', Pop (h_sched s_history) = Some (Done (Some (mkMsgAndMeta s_reserved (mkRequestChannel 1 "" "" "" ""))) s'))
  /\ b_keys (lane (h_sched s_history) 0) = [] /\ b_keys (lane (h_sched s_history) 1) = [].
Proof.
  assert (exists s', Pop (h_sched s_history) = Some (Done (Some (mkMsgAndMeta s_reserved (mkRequestChannel 1 "" "" "" ""))) s'))
    as [s' E] by (eexists; vm_compute; reflexivity).
  destruct (tier_strict_priority 1000 "tier" s_events s_history) as [H _]; [vm_compute; reflexivity|].
  rewrite E in H. split; [by exists s'|]. split; apply H; vm_compute; lia.
Defined.
