(* ===== verification/QueueRegistry.v ===== *)
(** * The sorted-set flow's queues and their hot reload

    pkg/redis/sortedset_impl.go: what a queue configuration has to be
    ([validateSortedSetQueues]), the registry of live queues, the consume
    workers' lives ([Start], [StopConsuming]) and [ReconfigureQueues], which
    replaces the queue set of a running flow; with pkg/server/queues_reload.go,
    which feeds it, and the merge policy it keeps in step.

    A runtime ([*queueRuntime]) is an entry of a heap, under the number of its
    channel, since one is made per runtime; the registry and the list of removed
    queues share it. [ReconfigureQueues] is three parts, with the locks it
    holds: [prepare] and [close_removed] under reconfigureMu alone, [commit]
    under queueMu too, so workers, [Start] and [StopConsuming] run between
    them. *)
From stdpp Require Import prelude gmap strings list.
From Stdlib Require Import ZArith Lia.
From S2P Require Import Prelude Api SortedSetFlow MergePolicy.

#[local] Open Scope string_scope.
#[local] Open Scope list_scope.

#[global] Instance sortedset_config_eq : EqDecision SortedSetQueueConfig.
Proof. solve_decision. Defined.

Inductive RegErr : Type :=
| ErrQueueName
| ErrDuplicateID (id : string)
| ErrDuplicateQueue (name : string)
| ErrBaseURL (name : string)
| ErrWorkerPool (pool : string)
| ErrGate (name : string)
| ErrFlowStopped
| ErrBeforeCommit.

Section registry.

(** [Gate] values come from a factory, an interface; [Params] are the fields
    of a configuration that only the factory and [reflect.DeepEqual] look at:
    the gate's parameters, and whether the label map is nil. *)
Context {Gate Params : Type} `{EqDecision Params}.
Context (constOpenGate : Gate) (CreateGate : option (SortedSetQueueConfig -> Params -> option Gate)).

Record QueueConfig : Type := mkQueueConfig {
  qc_cfg : SortedSetQueueConfig;
  qc_params : Params
}.
#[global] Instance queue_config_eq : EqDecision QueueConfig.
Proof. solve_decision. Defined.

Definition qc_ID (q : QueueConfig) : string := sc_ID (qc_cfg q).
Definition qc_Name (q : QueueConfig) : string := sc_QueueName (qc_cfg q).
Definition qc_Pool (q : QueueConfig) : string := sc_WorkerPoolID (qc_cfg q).

Definition normalizeSortedSetQueue (q : QueueConfig) : QueueConfig :=
  let c := qc_cfg q in
  mkQueueConfig
    (mkQueueCfg (if decide (sc_ID c = "") then sc_QueueName c else sc_ID c) (sc_QueueName c) (sc_ResultQueueName c)
       (sc_ResultTTLSeconds c) (if decide (sc_WorkerPoolID c = "") then "default" else sc_WorkerPoolID c)
       (sc_InferenceObjective c) (if decide (sc_RequestPathURL c = "") then "/v1/completions" else sc_RequestPathURL c)
       (sc_IGWBaseURL c) (sc_GateType c) (sc_Labels c))
    (qc_params q).

(** The loop over the entries, with the maps it fills. *)
Fixpoint validate_from (workerPools : list string) (seenID seenQueue : gset string) (queues : list QueueConfig) : Res RegErr unit :=
  match queues with
  | [] => Ok tt
  | q :: rest =>
      if decide (qc_Name q = "") then Err ErrQueueName
      else if decide (qc_ID q ∈ seenID) then Err (ErrDuplicateID (qc_ID q))
      else if decide (qc_Name q ∈ seenQueue) then Err (ErrDuplicateQueue (qc_Name q))
      else if decide (sc_IGWBaseURL (qc_cfg q) = "") then Err (ErrBaseURL (qc_Name q))
      else if decide (qc_Pool q ∈ workerPools)
      then validate_from workerPools ({[qc_ID q]} ∪ seenID) ({[qc_Name q]} ∪ seenQueue) rest
      else Err (ErrWorkerPool (qc_Pool q))
  end.
Definition validateSortedSetQueues (workerPools : list string) (queues : list QueueConfig) : Res RegErr unit :=
  validate_from workerPools ∅ ∅ queues.

Record queueRuntime : Type := mkRuntime {
  qr_channel : RequestChannel;
  qr_queueName : string;
  qr_queueID : string;
  qr_gate : Gate;
  qr_config : QueueConfig;
  qr_started : bool;
  qr_cancelled : bool;   (* cancel() was called *)
  qr_done : bool         (* the worker returned *)
}.

(** [r.gate] is nil until the constructor returns and always open after it. *)
Definition newRequestChannel (c : nat) (q : QueueConfig) : Res RegErr queueRuntime :=
  let cfg := qc_cfg q in
  let entry gate :=
    mkRuntime (mkRequestChannel c (sc_IGWBaseURL cfg) (sc_InferenceObjective cfg) (sc_RequestPathURL cfg) (sc_WorkerPoolID cfg))
      (sc_QueueName cfg) (sc_ID cfg) gate q false false false in
  match CreateGate with
  | Some create =>
      if decide (sc_GateType cfg = "") then Ok (entry constOpenGate)
      else match create cfg (qc_params q) with
           | Some gate => Ok (entry gate)
           | None => Err (ErrGate (sc_QueueName cfg))
           end
  | None => Ok (entry constOpenGate)
  end.

(** [rg_ctx]: no context before Start, then whether it was cancelled. *)
Record Registry : Type := mkRegistry {
  rg_heap : gmap nat queueRuntime;
  rg_next : nat;
  rg_closed : gset nat;
  rg_queues : gmap string nat;
  rg_order : list string;
  rg_configMap : gmap string QueueConfig;
  rg_default : string;
  rg_stopped : bool;
  rg_ctx : option bool
}.

Definition set_heap (h : gmap nat queueRuntime) (r : Registry) : Registry :=
  mkRegistry h (rg_next r) (rg_closed r) (rg_queues r) (rg_order r) (rg_configMap r) (rg_default r) (rg_stopped r) (rg_ctx r).
Definition set_ctx (c : option bool) (r : Registry) : Registry :=
  mkRegistry (rg_heap r) (rg_next r) (rg_closed r) (rg_queues r) (rg_order r) (rg_configMap r) (rg_default r) (rg_stopped r) c.
Definition set_stopped (r : Registry) : Registry :=
  mkRegistry (rg_heap r) (rg_next r) (rg_closed r) (rg_queues r) (rg_order r) (rg_configMap r) (rg_default r) true (rg_ctx r).
Definition close_chan (c : nat) (r : Registry) : Registry :=
  mkRegistry (rg_heap r) (rg_next r) ({[c]} ∪ rg_closed r) (rg_queues r) (rg_order r) (rg_configMap r) (rg_default r)
    (rg_stopped r) (rg_ctx r).

Definition alloc (q : queueRuntime) (r : Registry) : Registry :=
  mkRegistry (<[rg_next r := q]> (rg_heap r)) (S (rg_next r)) (rg_closed r) (rg_queues r) (rg_order r) (rg_configMap r)
    (rg_default r) (rg_stopped r) (rg_ctx r).

Definition cancel_worker (q : queueRuntime) : queueRuntime :=
  mkRuntime (qr_channel q) (qr_queueName q) (qr_queueID q) (qr_gate q) (qr_config q) (qr_started q)
    (if qr_started q then true else qr_cancelled q) (qr_done q).
Definition start_worker (q : queueRuntime) : queueRuntime :=
  if qr_started q then q
  else mkRuntime (qr_channel q) (qr_queueName q) (qr_queueID q) (qr_gate q) (qr_config q) true (qr_cancelled q) false.
Definition finish_worker (q : queueRuntime) : queueRuntime :=
  mkRuntime (qr_channel q) (qr_queueName q) (qr_queueID q) (qr_gate q) (qr_config q) (qr_started q) (qr_cancelled q) true.

(** ** Construction and the workers' lives *)
Fixpoint register_all (queues : list QueueConfig) (r : Registry) : Res RegErr Registry :=
  match queues with
  | [] => Ok r
  | q :: rest =>
      match newRequestChannel (rg_next r) q with
      | Err e => Err e
      | Ok entry =>
          let r' := alloc entry r in
          register_all rest
            (mkRegistry (rg_heap r') (rg_next r') (rg_closed r') (<[qc_ID q := rg_next r]> (rg_queues r'))
               (rg_order r' ++ [qc_ID q]) (<[qc_ID q := q]> (rg_configMap r')) (rg_default r') (rg_stopped r') (rg_ctx r'))
      end
  end.

Definition default_queue (queues : list QueueConfig) : string := from_option qc_Name "" (head queues).

Definition NewRedisSortedSetFlow (workerPools : list string) (queues : list QueueConfig) : Res RegErr Registry :=
  let normalized := normalizeSortedSetQueue <$> queues in
  match validateSortedSetQueues workerPools normalized with
  | Err e => Err e
  | Ok _ => register_all normalized (mkRegistry ∅ 0 ∅ ∅ [] ∅ (default_queue normalized) false None)
  end.

Definition channel_of (r : Registry) (id : string) : option RequestChannel :=
  c ← rg_queues r !! id; qr_channel <$> rg_heap r !! c.
Definition RequestChannels (r : Registry) : list RequestChannel := omap (channel_of r) (rg_order r).

Definition on_entries (f : queueRuntime -> queueRuntime) (cs : list nat) (h : gmap nat queueRuntime) : gmap nat queueRuntime :=
  foldl (fun h c => alter f c h) h cs.
Definition entries_of (r : Registry) (ids : list string) : list nat := omap (fun id => rg_queues r !! id) ids.

Definition Start (r : Registry) : Registry :=
  set_ctx (Some false) (set_heap (on_entries start_worker (entries_of r (rg_order r)) (rg_heap r)) r).
Definition StopConsuming_flag (r : Registry) : Registry := set_stopped r.
Definition StopConsuming_cancel (r : Registry) : Registry := set_ctx ((fun _ => true) <$> rg_ctx r) r.

(** A worker's loop ends when its context does. *)
Definition worker_stopping (r : Registry) (q : queueRuntime) : bool :=
  qr_cancelled q || bool_decide (rg_ctx r = Some true).
Definition worker_running (q : queueRuntime) : bool := qr_started q && negb (qr_done q).

(** ** ReconfigureQueues *)
Definition live_config (r : Registry) (id : string) : option QueueConfig :=
  c ← rg_queues r !! id; qr_config <$> rg_heap r !! c.

Fixpoint prepare_loop (current : gmap string nat * gmap nat queueRuntime) (queues : list QueueConfig)
    (prepared : gmap string nat) (r : Registry) : Res RegErr (gmap string nat) * Registry :=
  match queues with
  | [] => (Ok prepared, r)
  | q :: rest =>
      if decide ((c ← current.1 !! qc_ID q; qr_config <$> current.2 !! c) = Some q)
      then prepare_loop current rest prepared r
      else match newRequestChannel (rg_next r) q with
           | Err e => (Err e, r)
           | Ok entry => prepare_loop current rest (<[qc_ID q := rg_next r]> prepared) (alloc entry r)
           end
  end.

(** Up to the second lock of queueMu. *)
Definition prepare (workerPools : list string) (queues : list QueueConfig) (r : Registry) :
    Res RegErr (list QueueConfig * gmap string nat) * Registry :=
  let normalized := normalizeSortedSetQueue <$> queues in
  match validateSortedSetQueues workerPools normalized with
  | Err e => (Err e, r)
  | Ok _ =>
      if rg_stopped r then (Err ErrFlowStopped, r)
      else match prepare_loop (rg_queues r, rg_heap r) normalized ∅ r with
           | (Ok prepared, r') => (Ok (normalized, prepared), r')
           | (Err e, r') => (Err e, r')
           end
  end.

(** The change of the registry: the new entries, the entries removed and the
    entries added. [None]: a nil [prepared] entry is dereferenced. *)
Fixpoint classify (r : Registry) (prepared : gmap string nat) (queues : list QueueConfig) :
    option (list (string * nat) * list nat * list nat) :=
  match queues with
  | [] => Some ([], [], [])
  | q :: rest =>
      '(new, removed, added) ← classify r prepared rest;
      if decide (live_config r (qc_ID q) = Some q)
      then c ← rg_queues r !! qc_ID q; Some ((qc_ID q, c) :: new, removed, added)
      else
        c ← prepared !! qc_ID q;
        Some ((qc_ID q, c) :: new, option_list (rg_queues r !! qc_ID q) ++ removed, c :: added)
  end.

Record QueueReconfigureResult : Type := mkResult {
  qrr_Added : list RequestChannel;
  qrr_Removed : list RequestChannel
}.

Inductive outcome : Type :=
| Panic
| Failed (e : RegErr)
| Committed (removed : list nat) (result : QueueReconfigureResult).

Definition channels_at (r : Registry) (cs : list nat) : list RequestChannel := omap (fun c => qr_channel <$> rg_heap r !! c) cs.

(** Under queueMu; [beforeCommit] is [None] where the caller passes nil. *)
Definition commit (normalized : list QueueConfig) (prepared : gmap string nat)
    (beforeCommit : option (list RequestChannel -> bool)) (r : Registry) : outcome * Registry :=
  if rg_stopped r then (Failed ErrFlowStopped, r)
  else match classify r prepared normalized with
  | None => (Panic, r)
  | Some (new, changed, added) =>
      let newQueues := list_to_map new : gmap string nat in
      let gone := filter (fun id => newQueues !! id = None) (rg_order r) in
      let removed := changed ++ entries_of r gone in
      let result := mkResult (channels_at r added) (channels_at r removed) in
      let refused := match beforeCommit with
                     | Some f => negb (bool_decide (added = [])) && negb (f (qrr_Added result))
                     | None => false
                     end in
      if refused then (Failed ErrBeforeCommit, r)
      else
        let h := on_entries cancel_worker removed (rg_heap r) in
        let h := if rg_ctx r then on_entries start_worker added h else h in
        (Committed removed result,
         mkRegistry h (rg_next r) (rg_closed r) newQueues (qc_ID <$> normalized)
           (list_to_map ((fun q => (qc_ID q, q)) <$> normalized)) (default_queue normalized) (rg_stopped r) (rg_ctx r))
  end.

(** The wait for a removed worker, and the close of its channel. *)
Inductive closing : Type := Waits | Skips | Closes | ClosePanics.
Definition close_removed (c : nat) (r : Registry) : closing * Registry :=
  match rg_heap r !! c with
  | None => (ClosePanics, r)
  | Some q =>
      if negb (qr_started q) then (Skips, r)
      else if negb (qr_done q) then (Waits, r)
      else if decide (c ∈ rg_closed r) then (ClosePanics, r)
      else (Closes, close_chan c r)
  end.

(** ** A running flow

    A reconfiguration in progress holds reconfigureMu, so there is at most one. *)
Inductive phase : Type :=
| Idle
| Prepared (normalized : list QueueConfig) (prepared : gmap string nat)
| Closing (removed : list nat).

Inductive system : Type :=
| Running (r : Registry) (p : phase)
| Panicked.

Definition after_commit (o : outcome) (r : Registry) : system :=
  match o with
  | Panic => Panicked
  | Failed _ => Running r Idle
  | Committed removed _ => Running r (Closing removed)
  end.
Definition after_close (removed : list nat) (k : closing * Registry) : system :=
  match k with
  | (ClosePanics, _) => Panicked
  | (Waits, r) => Running r (Closing removed)
  | (_, r) => Running r (Closing (drop 1 removed))
  end.

Inductive sys_step (workerPools : list string) : system -> system -> Prop :=
| SPrepare queues r normalized prepared r' : prepare workerPools queues r = (Ok (normalized, prepared), r') ->
    sys_step workerPools (Running r Idle) (Running r' (Prepared normalized prepared))
| SRejected queues r e r' : prepare workerPools queues r = (Err e, r') -> sys_step workerPools (Running r Idle) (Running r' Idle)
| SCommit normalized prepared beforeCommit r o r' : commit normalized prepared beforeCommit r = (o, r') ->
    sys_step workerPools (Running r (Prepared normalized prepared)) (after_commit o r')
| SClose c removed r : sys_step workerPools (Running r (Closing (c :: removed))) (after_close (c :: removed) (close_removed c r))
| SReturn r : sys_step workerPools (Running r (Closing [])) (Running r Idle)
| SStart r p : rg_ctx r = None -> sys_step workerPools (Running r p) (Running (Start r) p)
| SStopFlag r p : sys_step workerPools (Running r p) (Running (StopConsuming_flag r) p)
| SStopCancel r p : rg_stopped r = true -> sys_step workerPools (Running r p) (Running (StopConsuming_cancel r) p)
| SWorkerReturns c q r p : rg_heap r !! c = Some q -> worker_running q = true -> worker_stopping r q = true ->
    sys_step workerPools (Running r p) (Running (set_heap (<[c := finish_worker q]> (rg_heap r)) r) p)
| SWorkerSends c q r p : rg_heap r !! c = Some q -> worker_running q = true ->
    sys_step workerPools (Running r p) (if decide (c ∈ rg_closed r) then Panicked else Running r p).

(** ** The invariant *)
Definition channel_for (c : nat) (q : QueueConfig) : RequestChannel :=
  mkRequestChannel c (sc_IGWBaseURL (qc_cfg q)) (sc_InferenceObjective (qc_cfg q)) (sc_RequestPathURL (qc_cfg q)) (qc_Pool q).

Definition registered (r : Registry) (c : nat) : Prop := exists id, rg_queues r !! id = Some c.
Definition configs (r : Registry) : list QueueConfig := omap (live_config r) (rg_order r).

(** A runtime is the one built for its configuration, at its address. *)
Record entry_ok (r : Registry) (c : nat) (q : queueRuntime) : Prop := {
  eo_next : (c < rg_next r)%nat;
  eo_channel : qr_channel q = channel_for c (qr_config q);
  eo_id : qr_queueID q = qc_ID (qr_config q);
  eo_name : qr_queueName q = qc_Name (qr_config q);
  eo_cancelled : qr_cancelled q = true -> qr_started q = true;
  eo_done : qr_done q = true -> qr_started q = true /\ worker_stopping r q = true
}.

Record live_ok (r : Registry) (id : string) (c : nat) : Prop := mkLive {
  lo_entry : exists q, rg_heap r !! c = Some q /\ qc_ID (qr_config q) = id /\ rg_configMap r !! id = Some (qr_config q) /\
    qr_cancelled q = false /\ qr_started q = bool_decide (is_Some (rg_ctx r));
  lo_open : c ∉ rg_closed r
}.

Record reg_ok (workerPools : list string) (closing : list nat) (r : Registry) : Prop := {
  ro_heap : map_Forall (entry_ok r) (rg_heap r);
  ro_order : NoDup (rg_order r);
  ro_dom id : id ∈ rg_order r <-> is_Some (rg_queues r !! id);
  ro_live : map_Forall (live_ok r) (rg_queues r);
  ro_configs : validateSortedSetQueues workerPools (configs r) = Ok tt;
  ro_configMap id : is_Some (rg_configMap r !! id) -> is_Some (rg_queues r !! id);
  ro_default : rg_default r = default_queue (configs r);
  ro_closed c : c ∈ rg_closed r -> exists q, rg_heap r !! c = Some q /\ qr_started q = true /\ qr_done q = true;
  ro_abandoned c q : rg_heap r !! c = Some q -> qr_started q = true -> ~ registered r c ->
    qr_cancelled q = true /\ (c ∈ rg_closed r \/ c ∈ closing);
  ro_stopped : rg_ctx r = Some true -> rg_stopped r = true
}.

(** What [prepare] leaves for a configuration. *)
Definition ready (r : Registry) (prepared : gmap string nat) (q : QueueConfig) : Prop :=
  live_config r (qc_ID q) = Some q \/
  exists c e, prepared !! qc_ID q = Some c /\ rg_heap r !! c = Some e /\ qr_config e = q /\ qr_started e = false /\ ~ registered r c.

Definition closing_of (p : phase) : list nat := match p with Closing removed => removed | _ => [] end.
Definition phase_ok (workerPools : list string) (r : Registry) (p : phase) : Prop :=
  match p with
  | Idle => True
  | Prepared normalized prepared => validateSortedSetQueues workerPools normalized = Ok tt /\ Forall (ready r prepared) normalized
  | Closing removed => NoDup removed /\
      Forall (fun c => is_Some (rg_heap r !! c) /\ ~ registered r c /\ c ∉ rg_closed r) removed
  end.
Definition sys_ok (workerPools : list string) (s : system) : Prop :=
  match s with
  | Running r p => reg_ok workerPools (closing_of p) r /\ phase_ok workerPools r p
  | Panicked => False
  end.

(** *** Entries touched by a list of addresses *)
Lemma lookup_on_entries f cs h c : (forall q, f (f q) = f q) ->
  on_entries f cs h !! c = if decide (c ∈ cs) then f <$> h !! c else h !! c.
Proof.
  intros Hf. revert h. induction cs as [|c0 cs IH]; intros h; [by case_decide as E; [apply not_elem_of_nil in E|]|].
  cbn [on_entries foldl]. fold (on_entries f cs (alter f c0 h)). rewrite IH.
  destruct (decide (c = c0)) as [->|Hne].
  - rewrite lookup_alter_eq. rewrite (decide_True (P := c0 ∈ c0 :: cs)) by (apply elem_of_cons; by left).
    case_decide; [|done]. destruct (h !! c0); simpl; [by rewrite Hf|done].
  - rewrite lookup_alter_ne by done. repeat case_decide; set_solver.
Qed.
Lemma start_idem q : start_worker (start_worker q) = start_worker q.
Proof. unfold start_worker. destruct (qr_started q) eqn:E; by rewrite ?E. Qed.
Lemma cancel_idem q : cancel_worker (cancel_worker q) = cancel_worker q.
Proof. unfold cancel_worker. simpl. by destruct (qr_started q). Qed.

(** *** Validated configurations *)
Lemma validate_from_spec pools seenID seenQueue queues : validate_from pools seenID seenQueue queues = Ok tt <->
  Forall (fun q => qc_Name q <> "" /\ sc_IGWBaseURL (qc_cfg q) <> "" /\ qc_Pool q ∈ pools /\ qc_ID q ∉ seenID /\ qc_Name q ∉ seenQueue) queues /\
  NoDup (qc_ID <$> queues) /\ NoDup (qc_Name <$> queues).
Proof.
  revert seenID seenQueue. induction queues as [|q rest IH]; intros seenID seenQueue; cbn [validate_from fmap list_fmap].
  { split; [|done]. intros _. split_and!; constructor. }
  rewrite Forall_cons, !NoDup_cons. repeat case_decide; try (split; [done|tauto]). rewrite IH.
  assert (forall (f : QueueConfig -> string) x (s : gset string),
    Forall (fun q => f q ∉ {[x]} ∪ s) rest <-> Forall (fun q => f q ∉ s) rest /\ x ∉ f <$> rest) as Hs.
  { intros f x s. rewrite list_elem_of_fmap, !Forall_forall. split.
    - intros Hf. split; [set_solver|]. intros (q' & -> & Hq). set_solver.
    - intros [Hf Hx] q' Hq. apply not_elem_of_union. split; [|by apply Hf]. intros E%elem_of_singleton. apply Hx. by exists q'. }
  rewrite !Forall_and. rewrite !Hs. tauto.
Qed.

Lemma validate_spec pools queues : validateSortedSetQueues pools queues = Ok tt <->
  Forall (fun q => qc_Name q <> "" /\ sc_IGWBaseURL (qc_cfg q) <> "" /\ qc_Pool q ∈ pools) queues /\
  NoDup (qc_ID <$> queues) /\ NoDup (qc_Name <$> queues).
Proof.
  unfold validateSortedSetQueues. rewrite validate_from_spec. apply and_iff_compat_r.
  rewrite !Forall_forall. split; intros Hq q Hin; specialize (Hq q Hin); set_solver.
Qed.

(** *** Steps that leave the queue set alone *)
Record evolves (r r' : Registry) : Prop := {
  ev_queues : rg_queues r' = rg_queues r;
  ev_heap c e : rg_heap r !! c = Some e -> exists e', rg_heap r' !! c = Some e' /\ qr_config e' = qr_config e /\
    (~ registered r c -> qr_started e' = qr_started e)
}.

Lemma evolves_refl r : evolves r r.
Proof. split; [done|]. eauto. Qed.

Lemma evolves_registered r r' c : evolves r r' -> registered r' c <-> registered r c.
Proof. intros [Hq _]. unfold registered. by rewrite Hq. Qed.

Lemma registry_evolves_trans r1 r2 r3 : evolves r1 r2 -> evolves r2 r3 -> evolves r1 r3.
Proof.
  intros H1 H2. split; [by rewrite (ev_queues _ _ H2), (ev_queues _ _ H1)|].
  intros c e He. destruct (ev_heap _ _ H1 c e He) as (e1 & E1 & C1 & S1). destruct (ev_heap _ _ H2 c e1 E1) as (e2 & E2 & C2 & S2).
  exists e2. split_and!; [done|congruence|]. intros Hn. rewrite S2, S1; [done..|]. by rewrite evolves_registered.
Qed.

Lemma live_config_evolves pools cl r r' id : reg_ok pools cl r -> evolves r r' -> live_config r' id = live_config r id.
Proof.
  intros Hr [Hq Hh]. unfold live_config. rewrite Hq. destruct (rg_queues r !! id) as [c|] eqn:E; [|done]. simpl.
  destruct (lo_entry _ _ _ (ro_live _ _ _ Hr id c E)) as (e & He & _). destruct (Hh c e He) as (e' & -> & Hc & _). rewrite He. simpl. by rewrite Hc.
Qed.

Lemma ready_evolves pools cl r r' prepared q : reg_ok pools cl r -> evolves r r' -> ready r prepared q -> ready r' prepared q.
Proof.
  intros Hr Hev [Hl|(c & e & Hp & He & Hc & Hs & Hn)]; [left; by rewrite (live_config_evolves _ _ _ _ _ Hr Hev)|right].
  destruct (ev_heap _ _ Hev c e He) as (e' & He' & Hc' & Hs'). exists c, e'. rewrite evolves_registered by done.
  split_and!; [done|done|congruence|rewrite Hs'; done|done].
Qed.

Lemma configs_evolves pools cl r r' : reg_ok pools cl r -> evolves r r' -> rg_order r' = rg_order r -> configs r' = configs r.
Proof.
  intros Hr Hev Ho. unfold configs. rewrite Ho. apply list_omap_ext, Forall_Forall2_diag, Forall_forall. intros id _.
  by apply (live_config_evolves pools cl).
Qed.

Lemma phase_evolves pools cl r r' p : reg_ok pools cl r -> evolves r r' -> rg_closed r' = rg_closed r ->
  phase_ok pools r p -> phase_ok pools r' p.
Proof.
  intros Hr Hev Hc. destruct p as [|normalized prepared|removed]; simpl; [done|intros [Hv Hf]|intros [Hnd Hf]]; split; try done.
  - eapply Forall_impl; [exact Hf|]. intros q. by apply (ready_evolves pools cl).
  - eapply Forall_impl; [exact Hf|]. intros c ([e He] & Hn & Hcl). rewrite evolves_registered, Hc by done.
    destruct (ev_heap _ _ Hev c e He) as (e' & -> & _). eauto.
Qed.

(** [registered] of the steps that change no queue. *)
Lemma live_at pools cl r id c : reg_ok pools cl r -> rg_queues r !! id = Some c ->
  exists q, rg_heap r !! c = Some q /\ qc_ID (qr_config q) = id /\ rg_configMap r !! id = Some (qr_config q) /\
    qr_cancelled q = false /\ qr_started q = bool_decide (is_Some (rg_ctx r)) /\ c ∉ rg_closed r.
Proof. intros Hr E. destruct (ro_live _ _ _ Hr id c E) as [(q & ? & ? & ? & ? & ?) ?]. exists q. by split_and!. Qed.

Lemma registered_inj pools cl r id id' c : reg_ok pools cl r -> rg_queues r !! id = Some c -> rg_queues r !! id' = Some c -> id = id'.
Proof.
  intros Hr E1 E2. destruct (live_at _ _ _ _ _ Hr E1) as (q & Hq & <- & _). destruct (live_at _ _ _ _ _ Hr E2) as (q' & Hq' & <- & _).
  congruence.
Qed.

Lemma live_config_id pools cl r id q : reg_ok pools cl r -> live_config r id = Some q -> qc_ID q = id.
Proof.
  intros Hr. unfold live_config. destruct (rg_queues r !! id) as [c|] eqn:E; [|done]. simpl.
  destruct (live_at _ _ _ _ _ Hr E) as (e & -> & <- & _). by intros [= <-].
Qed.

(** *** prepare *)
Lemma newRequestChannel_spec c q e : newRequestChannel c q = Ok e ->
  qr_channel e = channel_for c q /\ qr_queueName e = qc_Name q /\ qr_queueID e = qc_ID q /\ qr_config e = q /\
  qr_started e = false /\ qr_cancelled e = false /\ qr_done e = false.
Proof. unfold newRequestChannel. intros He. repeat case_match; simplify_eq; done. Qed.

Lemma alloc_ok pools cl r q e : reg_ok pools cl r -> newRequestChannel (rg_next r) q = Ok e ->
  rg_heap r !! rg_next r = None /\ evolves r (alloc e r) /\ reg_ok pools cl (alloc e r).
Proof.
  intros Hr He. destruct (newRequestChannel_spec _ _ _ He) as (N1 & N2 & N3 & N4 & N5 & N6 & N7).
  assert (rg_heap r !! rg_next r = None) as Hfresh.
  { destruct (rg_heap r !! rg_next r) as [x|] eqn:E; [|done]. pose proof (eo_next _ _ _ (ro_heap _ _ _ Hr _ _ E)). lia. }
  assert (evolves r (alloc e r)) as Hev.
  { split; [done|]. intros c x Hx. exists x. split; [|done]. simpl. rewrite lookup_insert_ne by congruence. done. }
  split_and!; [done..|]. pose proof (configs_evolves _ _ _ _ Hr Hev eq_refl) as Hcfg. destruct Hr as [R1 R2 R3 R4 R5 R6 R7 R8 R9 R10].
  split; rewrite ?Hcfg; try done; simpl.
  - apply map_Forall_insert_2.
    + split; simpl; rewrite ?N4, ?N5, ?N6, ?N7; try done. lia.
    + eapply map_Forall_impl; [exact R1|]. intros c x []. split; try done. simpl. lia.
  - intros id c E. destruct (R4 id c E) as [(x & X1 & X2) Ho]. split; [|done]. exists x. split; [|done].
    simpl. rewrite lookup_insert_ne by congruence. done.
  - intros c Hc. destruct (R8 c Hc) as (x & X1 & X2). exists x. rewrite lookup_insert_ne by congruence. done.
  - intros c x. rewrite lookup_insert_Some. intros [[<- <-]|[Hne Hx]]; [congruence|by apply R9].
Qed.

Lemma prepare_loop_ok pools cl current queues : forall prepared r res r',
  prepare_loop current queues prepared r = (res, r') -> reg_ok pools cl r -> NoDup (qc_ID <$> queues) ->
  (forall id, (c ← current.1 !! id; qr_config <$> current.2 !! c) = live_config r id) ->
  reg_ok pools cl r' /\ evolves r r' /\ rg_closed r' = rg_closed r /\
  (forall prepared', res = Ok prepared' -> Forall (ready r' prepared') queues /\
     forall id, id ∉ qc_ID <$> queues -> prepared' !! id = prepared !! id).
Proof.
  induction queues as [|q rest IH]; intros prepared r res r' Hrun Hr Hnd Hcur; cbn [prepare_loop fmap list_fmap] in *.
  { injection Hrun as <- <-. split_and!; [done|apply evolves_refl|done|]. intros ? [= <-]. by split; [constructor|]. }
  apply NoDup_cons in Hnd as [Hq Hnd]. case_decide as Hl.
  - destruct (IH _ _ _ _ Hrun Hr Hnd Hcur) as (H1 & H2 & H3 & H4). split_and!; [done..|]. intros p' Hp'.
    destruct (H4 p' Hp') as [H5 H6]. split; [constructor; [|done]|set_solver].
    left. rewrite (live_config_evolves _ _ _ _ _ Hr H2). by rewrite <- Hcur.
  - destruct (newRequestChannel (rg_next r) q) as [e|err] eqn:He.
    2: { injection Hrun as <- <-. by split_and!; [|apply evolves_refl| |]. }
    destruct (alloc_ok _ _ _ _ _ Hr He) as (Hf & Hev & Ha). destruct (newRequestChannel_spec _ _ _ He) as (_ & _ & _ & N4 & N5 & _).
    destruct (IH _ _ _ _ Hrun Ha Hnd) as (H1 & H2 & H3 & H4).
    { intros id. by rewrite (live_config_evolves _ _ _ _ _ Hr Hev). }
    split_and!; [done|by eapply registry_evolves_trans|done|]. intros p' Hp'. destruct (H4 p' Hp') as [H5 H6]. split.
    + constructor; [|done]. eapply (ready_evolves _ _ (alloc e r)); [done..|]. right. exists (rg_next r), e.
      rewrite H6 by done. rewrite lookup_insert_eq. simpl. rewrite lookup_insert_eq. split_and!; try done.
      intros [id Hid]. simpl in Hid. destruct (live_at _ _ _ _ _ Hr Hid) as (x & Hx & _). congruence.
    + intros id Hid. rewrite H6 by set_solver. apply lookup_insert_ne. set_solver.
Qed.

Lemma normalize_validate_ids pools queues : validateSortedSetQueues pools queues = Ok tt -> NoDup (qc_ID <$> queues).
Proof. rewrite validate_spec. tauto. Qed.

Lemma prepare_ok pools cl queues r res r' : prepare pools queues r = (res, r') -> reg_ok pools cl r ->
  reg_ok pools cl r' /\ evolves r r' /\
  (forall normalized prepared, res = Ok (normalized, prepared) -> normalized = normalizeSortedSetQueue <$> queues /\
     phase_ok pools r' (Prepared normalized prepared)).
Proof.
  unfold prepare. intros Hrun Hr. destruct (validateSortedSetQueues pools _) as [[]|e] eqn:Hv.
  2: { injection Hrun as <- <-. by split_and!; [|apply evolves_refl|]. }
  destruct (rg_stopped r); [injection Hrun as <- <-; by split_and!; [|apply evolves_refl|]|].
  destruct (prepare_loop _ _ _ _) as [res0 r0] eqn:Hl.
  destruct (prepare_loop_ok pools cl _ _ _ _ _ _ Hl Hr) as (H1 & H2 & _ & H4); [by eapply normalize_validate_ids|done|].
  destruct res0 as [p|e]; injection Hrun as <- <-; (split_and!; [done..|]); [|done].
  intros ? ? [= <- <-]. split; [done|]. split; [done|]. by apply H4.
Qed.

(** *** commit *)
Lemma elem_of_option_list {A : Type} (o : option A) (a : A) : a ∈ option_list o <-> o = Some a.
Proof. destruct o; simpl; rewrite ?list_elem_of_singleton, ?elem_of_nil; naive_solver. Qed.

Lemma classify_ok r prepared queues : Forall (ready r prepared) queues ->
  exists new changed added, classify r prepared queues = Some (new, changed, added) /\
    new.*1 = qc_ID <$> queues /\
    (forall id c, (id, c) ∈ new <-> exists q, q ∈ queues /\ id = qc_ID q /\
       (live_config r id = Some q /\ rg_queues r !! id = Some c \/ live_config r id <> Some q /\ prepared !! id = Some c)) /\
    (forall c, c ∈ changed <-> exists q, q ∈ queues /\ live_config r (qc_ID q) <> Some q /\ rg_queues r !! qc_ID q = Some c) /\
    (forall c, c ∈ added <-> exists q, q ∈ queues /\ live_config r (qc_ID q) <> Some q /\ prepared !! qc_ID q = Some c) /\
    changed = omap (fun q => if decide (live_config r (qc_ID q) = Some q) then None else rg_queues r !! qc_ID q) queues /\
    added = omap (fun q => if decide (live_config r (qc_ID q) = Some q) then None else prepared !! qc_ID q) queues.
Proof.
  induction 1 as [|q rest Hq _ (new & changed & added & IH & H1 & H2 & H3 & H4 & H5 & H6)].
  { exists [], [], []. split_and!; [done..| | | |done|done]; intros; rewrite elem_of_nil; (split; [done|]); intros (q & Hq & _); by apply not_elem_of_nil in Hq. }
  cbn [classify]. rewrite IH. simpl. case_decide as Hl.
  - pose proof Hl as Hl'. unfold live_config in Hl'. destruct (rg_queues r !! qc_ID q) as [c|] eqn:E; [|done]. simpl.
    exists ((qc_ID q, c) :: new), changed, added. split_and!; [done|by rewrite fmap_cons, H1| | | |done|done].
    + intros id c'. rewrite elem_of_cons, H2. setoid_rewrite elem_of_cons. naive_solver.
    + intros c'. rewrite H3. setoid_rewrite elem_of_cons. naive_solver.
    + intros c'. rewrite H4. setoid_rewrite elem_of_cons. naive_solver.
  - destruct Hq as [|(c & e & Hp & _)]; [done|]. rewrite Hp. simpl.
    exists ((qc_ID q, c) :: new), (option_list (rg_queues r !! qc_ID q) ++ changed), (c :: added).
    split_and!; [done|by rewrite fmap_cons, H1| | | | |].
    4: destruct (rg_queues r !! qc_ID q); simpl; by rewrite H5.
    4: by rewrite H6.
    + intros id c'. rewrite elem_of_cons, H2. setoid_rewrite elem_of_cons. naive_solver.
    + intros c'. rewrite elem_of_app, elem_of_option_list, H3. setoid_rewrite elem_of_cons. naive_solver.
    + intros c'. rewrite elem_of_cons, H4. setoid_rewrite elem_of_cons. naive_solver.
Qed.

Lemma fmap_NoDup_eq {A B : Type} (f : A -> B) (l : list A) a b : NoDup (f <$> l) -> a ∈ l -> b ∈ l -> f a = f b -> a = b.
Proof.
  induction l as [|x l IH]; cbn [fmap list_fmap]; [by intros _ ?%not_elem_of_nil|]. rewrite NoDup_cons. intros [Hx Hl] Ha Hb E.
  apply elem_of_cons in Ha as [->|Ha], Hb as [->|Hb]; [done| | |by apply IH].
  - destruct Hx. rewrite E. by apply list_elem_of_fmap_2.
  - destruct Hx. rewrite <- E. by apply list_elem_of_fmap_2.
Qed.

Lemma NoDup_omap_inj {A B : Type} (f : A -> option B) (l : list A) :
  NoDup l -> (forall a b x, a ∈ l -> b ∈ l -> f a = Some x -> f b = Some x -> a = b) -> NoDup (omap f l).
Proof.
  induction 1 as [|a l Ha _ IH]; intros Hf; [constructor|]. cbn [omap list_omap].
  assert (NoDup (omap f l)) by (apply IH; intros; eapply Hf; set_solver).
  destruct (f a) as [x|] eqn:E; [|done]. constructor; [|done]. intros (b & Hb & Eb)%list_elem_of_omap.
  apply Ha. by rewrite (Hf a b x) by (done || set_solver).
Qed.

Lemma omap_fmap_id {A B : Type} (f : B -> option A) (g : A -> B) (l : list A) :
  (forall x, x ∈ l -> f (g x) = Some x) -> omap f (g <$> l) = l.
Proof.
  induction l as [|x l IH]; intros Hf; [done|]. simpl. rewrite Hf by set_solver. f_equal. apply IH. set_solver.
Qed.

Section commit.
Context (pools : list string) (r : Registry) (normalized : list QueueConfig) (prepared : gmap string nat).
Context (Hr : reg_ok pools [] r) (Hp : phase_ok pools r (Prepared normalized prepared)).

(** The change a reconfiguration makes, by what it does to the map of queues. *)
Record change (newQueues : gmap string nat) (removed added : list nat) : Prop := {
  ch_dom id : is_Some (newQueues !! id) <-> id ∈ qc_ID <$> normalized;
  ch_new id c : newQueues !! id = Some c -> exists q, q ∈ normalized /\ id = qc_ID q /\
    ((live_config r id = Some q /\ rg_queues r !! id = Some c) \/
     (live_config r id <> Some q /\ ~ registered r c /\
      exists e, rg_heap r !! c = Some e /\ qr_config e = q /\ qr_started e = false));
  ch_kept id q : live_config r id = Some q -> q ∈ normalized -> newQueues !! id = rg_queues r !! id;
  ch_removed c : c ∈ removed <-> exists id, rg_queues r !! id = Some c /\ newQueues !! id <> Some c;
  ch_added c : c ∈ added <-> (exists id, newQueues !! id = Some c) /\ ~ registered r c;
  ch_removed_once : NoDup removed;
  ch_added_once : NoDup added
}.

Lemma prepared_entry q c : q ∈ normalized -> live_config r (qc_ID q) <> Some q -> prepared !! qc_ID q = Some c ->
  ~ registered r c /\ exists e, rg_heap r !! c = Some e /\ qr_config e = q /\ qr_started e = false.
Proof.
  intros Hin Hl Hc. destruct Hp as [_ Hf]. rewrite Forall_forall in Hf.
  destruct (Hf q Hin) as [|(c' & e & E & He & Hq & Hs & Hn)]; [done|]. rewrite E in Hc. injection Hc as <-. eauto.
Qed.

Lemma classify_change : exists new changed added,
  classify r prepared normalized = Some (new, changed, added) /\
  let newQueues := list_to_map new : gmap string nat in
  change newQueues (changed ++ entries_of r (filter (fun id => newQueues !! id = None) (rg_order r))) added.
Proof.
  destruct Hp as [Hv Hf]. pose proof (normalize_validate_ids _ _ Hv) as Hnd.
  destruct (classify_ok r prepared normalized Hf) as (new & changed & added & E & H1 & H2 & H3 & H4 & H5 & H6).
  exists new, changed, added. split; [done|]. intros newQueues.
  assert (forall id c, newQueues !! id = Some c <-> (id, c) ∈ new) as Hnew.
  { intros id c. symmetry. apply elem_of_list_to_map. by rewrite H1. }
  assert (forall q c, q ∈ normalized -> live_config r (qc_ID q) <> Some q -> rg_queues r !! qc_ID q = Some c -> newQueues !! qc_ID q <> Some c) as Hch.
  { intros q c Hq Hl Hc (q' & Hq' & Hid & Hcase)%Hnew%H2. rewrite (fmap_NoDup_eq qc_ID normalized q q' Hnd Hq Hq' Hid) in *.
    destruct Hcase as [[]|[_ Hpr]]; [done|]. destruct (prepared_entry q' c Hq' Hl Hpr) as [Hn _]. apply Hn. by exists (qc_ID q'). }
  split.
  - intros id. rewrite <- H1. unfold newQueues. rewrite <- elem_of_dom, dom_list_to_map, elem_of_list_to_set. done.
  - intros id c (q & Hq & -> & [[]|[Hl Hpr]])%Hnew%H2; exists q; (split; [done|]); (split; [done|]); [by left|right].
    split; [done|]. by apply prepared_entry.
  - intros id q Hl Hq. pose proof (live_config_id _ _ _ _ _ Hr Hl) as <-. destruct (rg_queues r !! qc_ID q) as [c|] eqn:Ec.
    + apply Hnew, H2. exists q. auto.
    + unfold live_config in Hl. by rewrite Ec in Hl.
  - intros c. rewrite elem_of_app, H3. unfold entries_of. rewrite list_elem_of_omap. split.
    + intros [(q & Hq & Hl & Hc)|(id & [Hid _]%list_elem_of_filter & Hc)]; [|exists id; split; [done|congruence]].
      exists (qc_ID q). auto.
    + intros (id & Hc & Hne). destruct (newQueues !! id) as [c'|] eqn:En.
      * apply Hnew, H2 in En as (q & Hq & -> & [[_ Hc']|[Hl _]]); [congruence|]. left. by exists q.
      * right. exists id. split; [|done]. apply list_elem_of_filter. split; [done|]. apply (ro_dom _ _ _ Hr). eauto.
  - intros c. rewrite H4. split.
    + intros (q & Hq & Hl & Hpr). destruct (prepared_entry q c Hq Hl Hpr) as [Hn _]. split; [|done]. exists (qc_ID q).
      apply Hnew, H2. exists q. auto.
    + intros [(id & (q & Hq & -> & [[_ Hc]|[Hl Hpr]])%Hnew%H2) Hn]; [destruct Hn; by exists (qc_ID q)|]. by exists q.
  - apply NoDup_app. split_and!.
    + rewrite H5. apply NoDup_omap_inj; [by eapply NoDup_fmap_1|]. intros a b c Ha Hb Ea Eb. repeat case_decide; try done.
      apply (fmap_NoDup_eq qc_ID normalized); [done..|]. by apply (registered_inj _ _ _ _ _ _ Hr Ea Eb).
    + intros c (q & Hq & Hl & Hc)%H3 (id & [Hid _]%list_elem_of_filter & Hc')%list_elem_of_omap.
      rewrite (registered_inj _ _ _ _ _ _ Hr Hc' Hc) in Hid. apply eq_None_not_Some in Hid. destruct Hid.
      unfold newQueues. rewrite <- elem_of_dom, dom_list_to_map, elem_of_list_to_set, H1. by apply list_elem_of_fmap_2.
    + apply NoDup_omap_inj; [apply NoDup_filter, (ro_order _ _ _ Hr)|]. intros a b c _ _ Ha Hb. by apply (registered_inj _ _ _ _ _ _ Hr Ha Hb).
  - rewrite H6. apply NoDup_omap_inj; [by eapply NoDup_fmap_1|]. intros a b c Ha Hb Ea Eb. repeat case_decide; try done.
    destruct (prepared_entry a c) as (_ & e & He & <- & _); [done..|].
    destruct (prepared_entry b c) as (_ & e' & He' & <- & _); [done..|]. congruence.
Qed.

(** The registry a change leads to. *)
Definition changed_heap (removed added : list nat) : gmap nat queueRuntime :=
  let h := on_entries cancel_worker removed (rg_heap r) in if rg_ctx r then on_entries start_worker added h else h.
Definition changed_registry (newQueues : gmap string nat) (removed added : list nat) : Registry :=
  mkRegistry (changed_heap removed added) (rg_next r) (rg_closed r) newQueues (qc_ID <$> normalized)
    (list_to_map ((fun q => (qc_ID q, q)) <$> normalized)) (default_queue normalized) (rg_stopped r) (rg_ctx r).

Context (newQueues : gmap string nat) (removed added : list nat) (Hch : change newQueues removed added).
Let r' : Registry := changed_registry newQueues removed added.

Lemma added_not_removed c : c ∈ added -> c ∉ removed.
Proof. intros [_ Hn]%(ch_added _ _ _ Hch) (id & E & _)%(ch_removed _ _ _ Hch). apply Hn. by exists id. Qed.

Lemma changed_lookup c : changed_heap removed added !! c =
  if decide (c ∈ removed) then cancel_worker <$> rg_heap r !! c
  else if decide (c ∈ added) then (if rg_ctx r then start_worker else id) <$> rg_heap r !! c else rg_heap r !! c.
Proof.
  pose proof (added_not_removed c) as Hd. unfold changed_heap.
  destruct (rg_ctx r); rewrite ?(lookup_on_entries _ _ _ _ start_idem), !(lookup_on_entries _ _ _ _ cancel_idem).
  - destruct (decide (c ∈ removed)), (decide (c ∈ added)); [tauto|done..].
  - destruct (decide (c ∈ removed)), (decide (c ∈ added)); try done. destruct (rg_heap r !! c); done.
Qed.

(** Entries that stay are not touched. *)
Lemma kept_untouched c : registered r c -> registered r' c -> rg_heap r' !! c = rg_heap r !! c.
Proof.
  intros Hc [id' Hid']. simpl in *. rewrite changed_lookup.
  rewrite (decide_False (P := c ∈ added)) by (intros [_ Hn]%(ch_added _ _ _ Hch); done).
  rewrite decide_False; [done|]. intros (id & E & Hne)%(ch_removed _ _ _ Hch).
  destruct (ch_new _ _ _ Hch id' c Hid') as (q & _ & _ & [[_ E']|(_ & Hn & _)]); [|done].
  by rewrite (registered_inj _ _ _ _ _ _ Hr E' E) in Hid'.
Qed.

Lemma new_entry id c : newQueues !! id = Some c -> exists q e, q ∈ normalized /\ id = qc_ID q /\ rg_heap r' !! c = Some e /\
  qr_config e = q /\ qr_cancelled e = false /\ qr_started e = bool_decide (is_Some (rg_ctx r)) /\ c ∉ rg_closed r.
Proof.
  intros E. destruct (ch_new _ _ _ Hch id c E) as (q & Hq & -> & [[Hl Ec]|(Hl & Hn & e & He & Hcfg & Hs)]).
  - destruct (live_at _ _ _ _ _ Hr Ec) as (e & He & _ & _ & H1 & H2 & H3). exists q, e.
    rewrite (kept_untouched c) by (by eexists). unfold live_config in Hl. rewrite Ec in Hl. simpl in Hl. rewrite He in Hl.
    injection Hl as <-. by split_and!.
  - assert (c ∈ added) as Ha by (apply (ch_added _ _ _ Hch); split; [by exists (qc_ID q)|done]).
    pose proof (added_not_removed c Ha) as Hnr. pose proof (ro_heap _ _ _ Hr c e He) as Ho.
    assert (qr_cancelled e = false) as Hcn by (destruct (qr_cancelled e) eqn:Ex; [apply (eo_cancelled _ _ _ Ho) in Ex; congruence|done]).
    exists q, ((if rg_ctx r then start_worker else id) e). simpl. rewrite changed_lookup, (decide_False (P := c ∈ removed)), decide_True, He by done.
    split_and!; [done..| | | |].
    + destruct (rg_ctx r); simpl; [|done]. unfold start_worker. by rewrite Hs.
    + destruct (rg_ctx r); simpl; [|done]. unfold start_worker. by rewrite Hs.
    + destruct (rg_ctx r); simpl; [|done]. unfold start_worker. by rewrite Hs.
    + intros Hcl. destruct (ro_closed _ _ _ Hr c Hcl) as (x & Hx & Hxs & _). congruence.
Qed.

Lemma new_config q : q ∈ normalized -> live_config r' (qc_ID q) = Some q.
Proof.
  intros Hq. unfold live_config. simpl. destruct (newQueues !! qc_ID q) as [c|] eqn:E.
  - destruct (new_entry _ _ E) as (q' & e & Hq' & Hid & He & Hc & _). simpl in *. rewrite He. simpl. f_equal.
    rewrite Hc. apply (fmap_NoDup_eq qc_ID normalized); [apply (normalize_validate_ids pools), Hp|done..].
  - apply eq_None_not_Some in E. destruct E. apply (ch_dom _ _ _ Hch). by apply list_elem_of_fmap_2.
Qed.

Lemma new_configs : configs r' = normalized.
Proof. apply omap_fmap_id, new_config. Qed.

Lemma changed_started c e' : rg_heap r' !! c = Some e' -> exists e, rg_heap r !! c = Some e /\ qr_config e' = qr_config e /\
  qr_channel e' = qr_channel e /\ qr_queueID e' = qr_queueID e /\ qr_queueName e' = qr_queueName e /\ qr_done e' = qr_done e /\
  (qr_started e' = true -> qr_started e = true \/ c ∈ added /\ is_Some (rg_ctx r)) /\
  (qr_cancelled e' = true <-> qr_cancelled e = true \/ c ∈ removed /\ qr_started e = true) /\
  (qr_started e = true -> qr_started e' = true).
Proof.
  simpl. rewrite changed_lookup. intros E. repeat case_decide.
  - destruct (rg_heap r !! c) as [e|]; [|done]. injection E as <-. exists e. unfold cancel_worker. simpl.
    split_and!; try done; [auto|]. destruct (qr_started e); naive_solver.
  - destruct (rg_heap r !! c) as [e|] eqn:He; [|done]. injection E as <-. exists e.
    assert (qr_done e = false) as Hd.
    { destruct (ch_added _ _ _ Hch c) as [Ha _]. destruct Ha as [[id Hid] Hn]; [done|].
      destruct (ch_new _ _ _ Hch id c Hid) as (q & _ & _ & [[_ Ec]|(_ & _ & x & Hx & _ & Hs)]); [destruct Hn; by exists id|].
      destruct (qr_done e) eqn:Ed; [|done]. destruct (eo_done _ _ _ (ro_heap _ _ _ Hr c e He) Ed) as [Hst _]. congruence. }
    destruct (rg_ctx r) as [b|]; simpl; [|split_and!; naive_solver]. unfold start_worker.
    destruct (qr_started e) eqn:Es; simpl; split_and!; try done; naive_solver.
  - exists e'. split_and!; try done; naive_solver.
Qed.

Lemma changed_ok : reg_ok pools removed r' /\ phase_ok pools r' (Closing removed).
Proof.
  split; [split|split].
  - intros c e' He'. destruct (changed_started c e' He') as (e & He & C1 & C2 & C3 & C4 & C5 & C6 & C7 & C8).
    destruct (ro_heap _ _ _ Hr c e He) as [E1 E2 E3 E4 E5 E6]. split; simpl; try congruence.
    + intros [Hc|[_ Hc]]%C7; auto.
    + rewrite C5. intros Hd. destruct (E6 Hd) as [Hs Hw]. split; [auto|]. unfold worker_stopping in *. simpl.
      apply orb_true_iff in Hw as [Hw|Hw]; apply orb_true_iff; [left; apply C7; auto|by right].
  - simpl. by apply (normalize_validate_ids pools), Hp.
  - intros id. simpl. by rewrite (ch_dom _ _ _ Hch).
  - intros id c Hc. simpl in Hc. destruct (new_entry id c Hc) as (q & e & Hq & -> & He & Hcfg & H1 & H2 & H3). split; [|done].
    exists e. split_and!; [done|by rewrite Hcfg| |done|done]. simpl. rewrite Hcfg. apply elem_of_list_to_map.
    + rewrite <- list_fmap_compose. by apply (normalize_validate_ids pools), Hp.
    + by apply (list_elem_of_fmap_2 (fun q => (qc_ID q, q))).
  - rewrite new_configs. apply Hp.
  - intros id. simpl. rewrite (ch_dom _ _ _ Hch), <- elem_of_dom, dom_list_to_map, elem_of_list_to_set, <- list_fmap_compose. done.
  - by rewrite new_configs.
  - intros c Hc. simpl in Hc. destruct (ro_closed _ _ _ Hr c Hc) as (e & He & Hs & Hd). simpl. rewrite changed_lookup.
    repeat case_decide; rewrite He; simpl; eexists; (split; [done|]); try done.
    destruct (rg_ctx r); simpl; [|done]. unfold start_worker. by rewrite Hs.
  - intros c e' He' Hs' Hn. destruct (changed_started c e' He') as (e & He & _ & _ & _ & _ & _ & C6 & C7 & _).
    destruct (C6 Hs') as [Hs|[Ha _]]; [|destruct (ch_added _ _ _ Hch c) as [H1 _]; destruct Hn; by apply H1].
    destruct (decide (c ∈ removed)) as [Hrm|Hrm]; [by split; [apply C7; auto|auto]|].
    assert (~ registered r c) as Hn0.
    { intros [id E]. apply Hrm, (ch_removed _ _ _ Hch). exists id. split; [done|]. intros E'. apply Hn. by exists id. }
    destruct (ro_abandoned _ _ _ Hr c e He Hs Hn0) as [Hc [Hcl|Hcl]]; [|by apply not_elem_of_nil in Hcl].
    split; [apply C7; auto|auto].
  - apply (ro_stopped _ _ _ Hr).
  - apply (ch_removed_once _ _ _ Hch).
  - apply Forall_forall. intros c Hc. destruct (ch_removed _ _ _ Hch c) as [H1 _]. destruct (H1 Hc) as (id & E & Hne).
    destruct (live_at _ _ _ _ _ Hr E) as (e & He & _ & _ & _ & _ & Hcl). split_and!; [|intros [id' E']|done].
    + simpl. rewrite changed_lookup, decide_True, He by done. eauto.
    + simpl in E'. destruct (ch_new _ _ _ Hch id' c E') as (q & _ & -> & [[_ E2]|(_ & Hn & _)]); [|apply Hn; by exists id].
      by rewrite (registered_inj _ _ _ _ _ _ Hr E2 E) in E'.
Qed.
End commit.

Lemma commit_cases pools normalized prepared beforeCommit r o r' :
  reg_ok pools [] r -> phase_ok pools r (Prepared normalized prepared) -> commit normalized prepared beforeCommit r = (o, r') ->
  (exists e, o = Failed e /\ r' = r /\ (e = ErrFlowStopped <-> rg_stopped r = true)) \/
  exists newQueues removed added, change r normalized newQueues removed added /\ rg_stopped r = false /\
    r' = changed_registry r normalized newQueues removed added /\
    o = Committed removed (mkResult (channels_at r added) (channels_at r removed)) /\
    (forall f, beforeCommit = Some f -> added <> [] -> f (channels_at r added) = true).
Proof.
  intros Hr Hp. unfold commit. destruct (rg_stopped r) eqn:Hs; [intros [= <- <-]; left; eexists; split_and!; naive_solver|].
  destruct (classify_change pools r normalized prepared Hr Hp) as (new & changed & added & -> & Hch). cbv zeta in Hch |- *.
  set (removed := changed ++ _) in *. cbn [qrr_Added].
  destruct (match beforeCommit with Some f => _ | None => _ end) eqn:Eb; intros [= <- <-]; [left; eexists; split_and!; naive_solver|right].
  eexists _, removed, added. split; [exact Hch|]. split_and!; [done|unfold changed_registry; by rewrite Hs|done|]. intros f -> Ha. rewrite bool_decide_false in Eb by done. simpl in Eb.
  by destruct (f (channels_at r added)).
Qed.

(** Workers returning and the context being cancelled. *)
Record drifts (stopping : bool) (x x' : queueRuntime) : Prop := {
  dr_config : qr_config x' = qr_config x;
  dr_channel : qr_channel x' = qr_channel x;
  dr_id : qr_queueID x' = qr_queueID x;
  dr_name : qr_queueName x' = qr_queueName x;
  dr_started : qr_started x' = qr_started x;
  dr_cancelled : qr_cancelled x' = qr_cancelled x;
  dr_done : qr_done x = true -> qr_done x' = true;
  dr_newly : qr_done x' = true -> qr_done x = true \/ qr_started x = true /\ (qr_cancelled x = true \/ stopping = true)
}.
Lemma drifts_refl b x : drifts b x x.
Proof. split; auto. Qed.

Lemma drift_ok pools cl r h ctx : reg_ok pools cl r -> dom h = dom (rg_heap r) ->
  (forall c x x', rg_heap r !! c = Some x -> h !! c = Some x' -> drifts (bool_decide (ctx = Some true)) x x') ->
  (rg_ctx r = Some true -> ctx = Some true) -> (ctx = Some true -> rg_stopped r = true) -> (is_Some ctx <-> is_Some (rg_ctx r)) ->
  reg_ok pools cl (set_ctx ctx (set_heap h r)) /\ evolves r (set_ctx ctx (set_heap h r)).
Proof.
  intros Hr Hdom Hdr T9 T10 T11. set (r' := set_ctx ctx _).
  assert (forall c, is_Some (h !! c) <-> is_Some (rg_heap r !! c)) as Hd by (intros c; by rewrite <- !elem_of_dom, Hdom).
  assert (forall c x, rg_heap r !! c = Some x -> exists x', h !! c = Some x' /\ drifts (bool_decide (ctx = Some true)) x x') as Hold.
  { intros c x Hx. destruct (Hd c) as [_ [x' Hx']]; [eauto|]. eauto. }
  assert (forall c x', h !! c = Some x' -> exists x, rg_heap r !! c = Some x /\ drifts (bool_decide (ctx = Some true)) x x') as Hnew.
  { intros c x' Hx'. destruct (Hd c) as [[x Hx] _]; [eauto|]. eauto. }
  assert (evolves r r') as Hev.
  { split; [done|]. intros c x Hx. destruct (Hold c x Hx) as (x' & Hx' & []). exists x'. auto. }
  split; [|done]. pose proof (configs_evolves _ _ _ _ Hr Hev eq_refl) as Hcfg.
  destruct Hr as [R1 R2 R3 R4 R5 R6 R7 R8 R9 R10]. split; rewrite ?Hcfg; try done.
  - intros c x' Hx'. destruct (Hnew c x' Hx') as (x & Hx & [D1 D2 D3 D4 D5 D6 D7 D8]).
    destruct (R1 c x Hx) as [E1 E2 E3 E4 E5 E6]. split; simpl; try congruence; [rewrite D5, D6; done|]. rewrite D5. unfold worker_stopping. simpl. rewrite D6.
    intros [Hxd|[Hs Hc]]%D8.
    + destruct (E6 Hxd) as [Hs [Hw|Hw%bool_decide_eq_true_1]%orb_true_iff]; (split; [done|]); apply orb_true_iff; [by left|right].
      apply bool_decide_eq_true_2. auto.
    + split; [done|]. apply orb_true_iff. tauto.
  - intros id c E. destruct (R4 id c E) as [(x & X1 & X2 & X3 & X4 & X5) Ho]. split; [|done].
    destruct (Hold c x X1) as (x' & Hx' & [D1 D2 D3 D4 D5 D6 D7 D8]). exists x'. rewrite D1, D5, D6. split_and!; try done.
    rewrite X5. simpl. by apply bool_decide_ext.
  - intros c Hc. destruct (R8 c Hc) as (x & X1 & X2 & X3). destruct (Hold c x X1) as (x' & Hx' & [D1 D2 D3 D4 D5 D6 D7 D8]).
    exists x'. rewrite D5. auto.
  - intros c x' Hx' Hs Hn. destruct (Hnew c x' Hx') as (x & Hx & [D1 D2 D3 D4 D5 D6 D7 D8]). rewrite D6. apply (R9 c x Hx); [congruence|done].
Qed.

Lemma Start_ok pools cl r : reg_ok pools cl r -> rg_ctx r = None -> reg_ok pools cl (Start r) /\ evolves r (Start r).
Proof.
  intros Hr Hctx. pose proof Hr as [R1 R2 R3 R4 R5 R6 R7 R8 R9 R10].
  assert (forall c, c ∈ entries_of r (rg_order r) <-> registered r c) as Hreg.
  { intros c. unfold entries_of, registered. rewrite list_elem_of_omap. split; [intros (id & _ & E); eauto|].
    intros [id E]. exists id. split; [|done]. apply R3. eauto. }
  assert (forall c, rg_heap (Start r) !! c = if decide (c ∈ entries_of r (rg_order r)) then start_worker <$> rg_heap r !! c else rg_heap r !! c) as Hl.
  { intros c. simpl. by rewrite lookup_on_entries by apply start_idem. }
  assert (forall c x, rg_heap r !! c = Some x -> registered r c -> qr_started x = false /\ qr_cancelled x = false /\ qr_done x = false) as Hst.
  { intros c x Hx [id E]. destruct (live_at _ _ _ _ _ Hr E) as (y & Hy & _ & _ & H1 & H2 & _). assert (x = y) as -> by congruence.
    rewrite Hctx in H2. simpl in H2. split_and!; [done..|]. destruct (qr_done y) eqn:Ed; [|done].
    destruct (eo_done _ _ _ (R1 c y Hy) Ed). congruence. }
  assert (evolves r (Start r)) as Hev.
  { split; [done|]. intros c x Hx. rewrite Hl, Hx. case_decide as Hc; [|eauto]. eexists. split; [done|].
    unfold start_worker. split; [by destruct (qr_started x)|]. intros Hn. destruct Hn. by apply Hreg. }
  split; [|done]. pose proof (configs_evolves _ _ _ _ Hr Hev eq_refl) as Hcfg. split; rewrite ?Hcfg; try done.
  - intros c x'. rewrite Hl. case_decide as Hc; [|intros Hx; destruct (R1 c x' Hx) as [E1 E2 E3 E4 E5 E6]; split; try done].
    + destruct (rg_heap r !! c) as [x|] eqn:Hx; [|done]. intros [= <-]. destruct (Hst c x Hx) as (S1 & S2 & S3); [by apply Hreg|].
      destruct (R1 c x Hx) as [E1 E2 E3 E4 E5 E6]. unfold start_worker. rewrite S1. split; done.
    + intros Hd. destruct (E6 Hd) as [Hs Hw]. split; [done|]. unfold worker_stopping in *. rewrite Hctx in Hw.
      rewrite bool_decide_false in Hw by done. rewrite orb_false_r in Hw. by rewrite Hw.
  - intros id c E. destruct (live_at _ _ _ _ _ Hr E) as (x & X1 & X2 & X3 & X4 & X5 & X6). split; [|done].
    exists (start_worker x). rewrite Hl, decide_True, X1 by (apply Hreg; by exists id). destruct (Hst c x X1) as (S1 & S2 & S3); [by exists id|].
    split; [done|]. unfold start_worker. rewrite S1. split_and!; done.
  - intros c Hc. destruct (R8 c Hc) as (x & X1 & X2 & X3). rewrite Hl. case_decide; rewrite X1; simpl; eexists; (split; [done|]); [|done].
    unfold start_worker. by rewrite X2.
  - intros c x'. rewrite Hl. case_decide as Hc; [|by apply R9]. intros _ _ Hn. destruct Hn. by apply Hreg.
Qed.

(** Changes of the closed channels and of the stopped flag. *)
Lemma heap_ok_ext r r' : rg_next r' = rg_next r -> rg_ctx r' = rg_ctx r -> rg_heap r' = rg_heap r ->
  map_Forall (entry_ok r) (rg_heap r) -> map_Forall (entry_ok r') (rg_heap r').
Proof.
  intros Hn Hc -> H. eapply map_Forall_impl; [exact H|]. intros c x [E1 E2 E3 E4 E5 E6]. split; try done; [by rewrite Hn|].
  unfold worker_stopping in *. by rewrite Hc.
Qed.

Lemma closes_ok pools c removed r : reg_ok pools (c :: removed) r -> phase_ok pools r (Closing (c :: removed)) ->
  sys_ok pools (after_close (c :: removed) (close_removed c r)).
Proof.
  intros Hr [Hnd Hf]. pose proof Hf as [([q Hq] & Hn & Hcl) Hf']%Forall_cons. pose proof Hnd as [Hc Hnd']%NoDup_cons.
  unfold close_removed. rewrite Hq. destruct (qr_started q) eqn:Hs; simpl.
  - destruct (qr_done q) eqn:Hd; simpl; [|by split].
    rewrite decide_False by done. simpl. destruct Hr as [R1 R2 R3 R4 R5 R6 R7 R8 R9 R10]. split; [split|split]; try done.
    + by apply (heap_ok_ext r).
    + intros id c' E. destruct (R4 id c' E) as [X Ho]. split; [done|]. simpl. intros [->%elem_of_singleton|]%elem_of_union; [|done].
      apply Hn. by exists id.
    + intros c' [->%elem_of_singleton|Hc']%elem_of_union; [eauto|by apply R8].
    + intros c' x Hx Hs' Hn'. destruct (R9 c' x Hx Hs' Hn') as [H1 [H2|[->|H2]%elem_of_cons]]; (split; [done|]); simpl; set_solver.
    + apply Forall_forall. intros c' Hc'. rewrite Forall_forall in Hf'. destruct (Hf' c' Hc') as (A1 & A2 & A3). split_and!; try done.
      simpl. set_solver.
  - destruct Hr as [R1 R2 R3 R4 R5 R6 R7 R8 R9 R10]. split; [split|split]; try done.
    intros c' x Hx Hs' Hn'. destruct (R9 c' x Hx Hs' Hn') as [H1 [H2|[->|H2]%elem_of_cons]]; [auto| |auto]. congruence.
Qed.

Lemma sys_step_ok pools s s' : sys_step pools s s' -> sys_ok pools s -> sys_ok pools s'.
Proof.
  destruct 1 as [queues r normalized prepared r' H|queues r e r' H|normalized prepared bc r o r' H|c removed r|r|r p Hctx|r p|r p Hst|c q r p Hq Hrun Hst|c q r p Hq Hrun];
    intros [Hr Hp]; simpl in Hr.
  - destruct (prepare_ok _ _ _ _ _ _ H Hr) as (H1 & _ & H3). split; [done|]. by apply H3.
  - by destruct (prepare_ok _ _ _ _ _ _ H Hr) as (H1 & _ & _).
  - destruct (commit_cases _ _ _ _ _ _ _ Hr Hp H) as [(e & -> & -> & _)|(new & removed & added & Hch & _ & -> & -> & _)]; [done|].
    by apply (changed_ok pools r normalized prepared Hr Hp).
  - by apply closes_ok.
  - done.
  - destruct (Start_ok _ _ _ Hr Hctx) as [H1 H2]. split; [done|]. eapply phase_evolves; [exact Hr|exact H2|done|exact Hp].
  - split; [|exact Hp]. destruct Hr as [R1 R2 R3 R4 R5 R6 R7 R8 R9 R10]. split; try done; [by apply (heap_ok_ext r)|].
    intros id c E. destruct (R4 id c E). by split.
  - destruct (drift_ok pools _ r (rg_heap r) ((fun _ => true) <$> rg_ctx r) Hr eq_refl) as [H1 H2].
    + intros c x x' Hx Hx'. assert (x' = x) as -> by congruence. apply drifts_refl.
    + by intros ->.
    + done.
    + by rewrite fmap_is_Some.
    + assert (StopConsuming_cancel r = set_ctx ((fun _ => true) <$> rg_ctx r) (set_heap (rg_heap r) r)) as E by by destruct r.
      rewrite E. split; [done|]. eapply phase_evolves; [exact Hr|exact H2|done|exact Hp].
  - destruct (drift_ok pools _ r (<[c := finish_worker q]> (rg_heap r)) (rg_ctx r) Hr) as [H1 H2]; try done.
    + rewrite dom_insert_L. apply elem_of_dom_2 in Hq. set_solver.
    + intros c' x x' Hx Hx'. apply lookup_insert_Some in Hx' as [[<- <-]|[Hne Hx']].
      * assert (x = q) as -> by congruence. split; try done. intros _. right. apply andb_prop in Hrun as [Hs _].
        split; [done|]. apply orb_true_iff in Hst. done.
      * assert (x' = x) as -> by congruence. apply drifts_refl.
    + apply (ro_stopped _ _ _ Hr).
    + assert (set_heap (<[c := finish_worker q]> (rg_heap r)) r = set_ctx (rg_ctx r) (set_heap (<[c := finish_worker q]> (rg_heap r)) r)) as -> by by destruct r.
      split; [done|]. eapply phase_evolves; [exact Hr|exact H2|done|exact Hp].
  - rewrite decide_False; [done|]. intros Hc. destruct (ro_closed _ _ _ Hr c Hc) as (x & Hx & _ & Hd). assert (x = q) as -> by congruence.
    unfold worker_running in Hrun. rewrite Hd, andb_false_r in Hrun. done.
Qed.

(** ** Startup *)
Definition emptyRegistry : Registry := mkRegistry ∅ 0 ∅ ∅ [] ∅ "" false None.

Lemma emptyRegistry_ok pools : reg_ok pools [] emptyRegistry.
Proof.
  split; simpl; try done; try apply map_Forall_empty; try constructor; intros; try (set_solver || done).
  all: try (by destruct H as [? ?]). all: try set_solver.
Qed.

Lemma register_all_loop queues : forall r rq prepared, NoDup (qc_ID <$> queues) ->
  rg_heap rq = rg_heap r -> rg_next rq = rg_next r -> rg_queues rq = prepared ->
  register_all queues rq =
  match prepare_loop (∅, ∅) queues prepared r with
  | (Ok prepared', r') =>
      Ok (mkRegistry (rg_heap r') (rg_next r') (rg_closed rq) prepared' (rg_order rq ++ (qc_ID <$> queues))
            (list_to_map ((fun q => (qc_ID q, q)) <$> queues) ∪ rg_configMap rq) (rg_default rq) (rg_stopped rq) (rg_ctx rq))
  | (Err e, _) => Err e
  end.
Proof.
  induction queues as [|q rest IH]; intros r rq prepared Hnd Hh Hn Hq; cbn [register_all prepare_loop fmap list_fmap].
  { rewrite app_nil_r. simpl. rewrite (left_id_L ∅ (∪)). rewrite <- Hh, <- Hn, <- Hq. by destruct rq. }
  apply NoDup_cons in Hnd as [Hq' Hnd]. rewrite decide_False by (simpl; by rewrite lookup_empty). rewrite <- Hn.
  destruct (newRequestChannel (rg_next rq) q) as [e|err]; [|done].
  rewrite (IH (alloc e r) _ (<[qc_ID q := rg_next rq]> prepared)); [|done|simpl; by rewrite Hh, Hn|simpl; by rewrite Hn|simpl; by rewrite Hq].
  destruct (prepare_loop _ _ _ _) as [[p'|err] r']; [|done]. simpl. do 2 f_equal; [by rewrite <- app_assoc|].
  rewrite <- insert_union_l. symmetry. apply insert_union_r. apply not_elem_of_list_to_map_1. rewrite <- list_fmap_compose. done.
Qed.

(** The workers' heap and the queue map of a reconfiguration of an empty flow. *)
Lemma first_commit pools normalized prepared r :
  reg_ok pools [] r -> phase_ok pools r (Prepared normalized prepared) -> rg_queues r = ∅ -> rg_order r = [] -> rg_ctx r = None ->
  rg_stopped r = false -> (forall id, id ∉ qc_ID <$> normalized -> prepared !! id = None) ->
  exists added, commit normalized prepared None r =
    (Committed [] (mkResult (channels_at r added) []),
     mkRegistry (rg_heap r) (rg_next r) (rg_closed r) prepared (qc_ID <$> normalized)
       (list_to_map ((fun q => (qc_ID q, q)) <$> normalized)) (default_queue normalized) false None) /\
    added = omap (fun q => prepared !! qc_ID q) normalized.
Proof.
  intros Hr Hp Hq Ho Hctx Hs Hout. destruct Hp as [Hv Hf]. pose proof (normalize_validate_ids _ _ Hv) as Hnd.
  destruct (classify_ok r prepared normalized Hf) as (new & changed & added & E & H1 & H2 & H3 & H4 & H5 & H6).
  assert (forall id, live_config r id = None) as Hl by (intros id; unfold live_config; by rewrite Hq, lookup_empty).
  exists added. unfold commit. rewrite Hs, E, Ho, Hctx. cbv zeta. change (filter _ []) with (@nil string). cbn [entries_of omap list_omap].
  assert (changed = []) as ->.
  { destruct changed as [|c l]; [done|]. destruct (H3 c) as [H _]. destruct H as (q & _ & _ & Hc); [set_solver|]. by rewrite Hq, lookup_empty in Hc. }
  assert ((list_to_map new : gmap string nat) = prepared) as Hnew.
  { apply map_eq. intros id. apply option_eq. intros c. rewrite <- elem_of_list_to_map by by rewrite H1. rewrite H2. split.
    - intros (q & _ & -> & [[Hlq _]|[_ Hc]]); [by rewrite Hl in Hlq|done].
    - intros Hc. destruct (decide (id ∈ qc_ID <$> normalized)) as [Hin|Hni]; [|by rewrite Hout in Hc].
      apply list_elem_of_fmap in Hin as (q & -> & Hin). exists q. rewrite Hl. auto. }
  rewrite Hnew. split; [done|]. rewrite H6. apply list_omap_ext, Forall_Forall2_diag, Forall_forall. intros q _. by rewrite Hl.
Qed.

Lemma prepare_loop_frame current queues : forall prepared r res r', prepare_loop current queues prepared r = (res, r') ->
  rg_queues r' = rg_queues r /\ rg_order r' = rg_order r /\ rg_ctx r' = rg_ctx r /\ rg_stopped r' = rg_stopped r /\
  rg_closed r' = rg_closed r.
Proof.
  induction queues as [|q rest IH]; intros prepared r res r'; cbn [prepare_loop]; [by intros [= <- <-]|].
  case_decide; [apply IH|]. destruct (newRequestChannel _ _); [|by intros [= <- <-]]. intros Hrun. apply IH in Hrun. done.
Qed.

Lemma omap_omap {A B C : Type} (f : B -> option C) (g : A -> option B) (l : list A) :
  omap f (omap g l) = omap (fun a => g a ≫= f) l.
Proof. induction l as [|a l IH]; [done|]. cbn. destruct (g a) as [b|]; cbn; [destruct (f b); [f_equal|]|]; exact IH. Qed.
Lemma omap_fmap {A B C : Type} (f : B -> option C) (g : A -> B) (l : list A) : omap f (g <$> l) = omap (fun a => f (g a)) l.
Proof. induction l as [|a l IH]; [done|]. cbn. destruct (f (g a)); [f_equal|]; exact IH. Qed.

Lemma startup_steps workerPools queues :
  match NewRedisSortedSetFlow workerPools queues with
  | Err e => exists r, prepare workerPools queues emptyRegistry = (Err e, r)
  | Ok r => exists normalized prepared r0, prepare workerPools queues emptyRegistry = (Ok (normalized, prepared), r0) /\
      commit normalized prepared None r0 = (Committed [] (mkResult (RequestChannels r) []), r)
  end.
Proof.
  unfold NewRedisSortedSetFlow. pose proof (prepare_ok workerPools [] queues emptyRegistry) as Hprep.
  unfold prepare in *. destruct (validateSortedSetQueues _ _) as [[]|e] eqn:Hv; [|by eexists].
  set (normalized := normalizeSortedSetQueue <$> queues) in *. pose proof (normalize_validate_ids _ _ Hv) as Hnd. simpl in *.
  rewrite (register_all_loop normalized emptyRegistry _ ∅) by done.
  destruct (prepare_loop (∅, ∅) normalized ∅ emptyRegistry) as [[prepared|e] r0] eqn:Hl; [|by eexists].
  destruct (prepare_loop_ok workerPools [] _ _ _ _ _ _ Hl (emptyRegistry_ok _) Hnd) as (H1 & H2 & H3 & H4).
  { intros id. unfold live_config. simpl. by rewrite lookup_empty. }
  destruct (Hprep _ _ eq_refl (emptyRegistry_ok _)) as (P1 & P2 & P3). destruct (P3 _ _ eq_refl) as [_ P4]. destruct (H4 _ eq_refl) as [_ Hout].
  destruct (prepare_loop_frame _ _ _ _ _ _ Hl) as (F1 & F2 & F3 & F4 & F5).
  destruct (first_commit workerPools normalized prepared r0 P1 P4 F1 F2 F3 F4 Hout) as (added & Hc & Ha).
  exists normalized, prepared, r0. split; [done|]. rewrite Hc. simpl in F5. rewrite F5.
  cbn [rg_configMap rg_closed rg_order rg_default rg_stopped rg_ctx app]. rewrite (right_id_L ∅ (∪)). do 2 f_equal. unfold RequestChannels, channels_at. simpl. rewrite Ha, omap_omap, omap_fmap. done.
Qed.

(** C37. Startup is a reload: [NewRedisSortedSetFlow] fails with the error a
    reconfiguration of an empty flow would be refused with, and otherwise builds
    the very registry that reconfiguration commits, whose added channels are the
    flow's. So a hot-loaded queue set has the semantics of a configured one. *)
Theorem startup_is_reload workerPools queues :
  match NewRedisSortedSetFlow workerPools queues with
  | Err e => exists r, prepare workerPools queues emptyRegistry = (Err e, r)
  | Ok r => exists normalized prepared r0, prepare workerPools queues emptyRegistry = (Ok (normalized, prepared), r0) /\
      commit normalized prepared None r0 = (Committed [] (mkResult (RequestChannels r) []), r)
  end.
Proof. apply startup_steps. Qed.

Lemma NewRedisSortedSetFlow_ok pools queues r : NewRedisSortedSetFlow pools queues = Ok r -> sys_ok pools (Running r Idle).
Proof.
  intros E. pose proof (startup_steps pools queues) as H. rewrite E in H. destruct H as (n & p & r0 & Hp & Hc).
  assert (sys_ok pools (after_commit (Committed [] (mkResult (RequestChannels r) [])) r)) as [H1 H2].
  { eapply sys_step_ok; [by eapply SCommit|]. eapply sys_step_ok; [by eapply SPrepare|]. split; [apply emptyRegistry_ok|done]. }
  done.
Qed.

Lemma flow_ok pools queues r0 s : NewRedisSortedSetFlow pools queues = Ok r0 -> rtc (sys_step pools) (Running r0 Idle) s -> sys_ok pools s.
Proof.
  intros E Hs. pose proof (NewRedisSortedSetFlow_ok _ _ _ E) as H0. clear E. induction Hs as [|s1 s2 s3 H1 _ IH]; [done|].
  apply IH. by eapply sys_step_ok.
Qed.

(** C19. Reloads are safe in every interleaving with [Start], [StopConsuming] and
    the consume workers: no nil entry is dereferenced, no channel is closed
    twice, no worker sends on a closed channel. The live queues are always a
    valid configuration, each with its own open channel and, once the flow is
    started, an uncancelled worker; a worker of any other queue is cancelled,
    and its channel is closed by the time the reload that removed it returns. *)
Theorem reload_safe workerPools queues r0 s :
  NewRedisSortedSetFlow workerPools queues = Ok r0 -> rtc (sys_step workerPools) (Running r0 Idle) s ->
  exists r p, s = Running r p /\ validateSortedSetQueues workerPools (configs r) = Ok tt /\ qc_ID <$> configs r = rg_order r /\
    (forall id, id ∈ rg_order r -> exists c q, rg_queues r !! id = Some c /\ rg_heap r !! c = Some q /\ qc_ID (qr_config q) = id /\
       rg_configMap r !! id = Some (qr_config q) /\ qr_channel q = channel_for c (qr_config q) /\ c ∉ rg_closed r /\
       qr_cancelled q = false /\ qr_started q = bool_decide (is_Some (rg_ctx r))) /\
    (forall c q, rg_heap r !! c = Some q -> qr_started q = true -> ~ registered r c ->
       qr_cancelled q = true /\ (p = Idle -> c ∈ rg_closed r)) /\
    (forall c, c ∈ rg_closed r -> exists q, rg_heap r !! c = Some q /\ worker_running q = false).
Proof.
  intros E Hs. pose proof (flow_ok _ _ _ _ E Hs) as Hok. destruct s as [r p|]; [|done]. destruct Hok as [Hr Hp].
  exists r, p. split_and!; [done|apply (ro_configs _ _ _ Hr)| | | |].
  - unfold configs. assert (forall id, id ∈ rg_order r -> exists q, live_config r id = Some q /\ qc_ID q = id) as Hl.
    { intros id [c Hc]%(ro_dom _ _ _ Hr). destruct (live_at _ _ _ _ _ Hr Hc) as (q & Hq & Hid & _). exists (qr_config q).
      unfold live_config. rewrite Hc. simpl. by rewrite Hq. }
    revert Hl. generalize (rg_order r). induction l as [|id l IH]; intros Hl; [done|].
    destruct (Hl id) as (q & Hq & Hid); [set_solver|]. cbn. rewrite Hq. cbn. rewrite Hid. f_equal. apply IH. set_solver.
  - intros id [c Hc]%(ro_dom _ _ _ Hr). destruct (live_at _ _ _ _ _ Hr Hc) as (q & Hq & H1 & H2 & H3 & H4 & H5). exists c, q.
    split_and!; try done. apply (ro_heap _ _ _ Hr c q Hq).
  - intros c q Hq Hst Hn. destruct (ro_abandoned _ _ _ Hr c q Hq Hst Hn) as [H1 H2]. split; [done|]. intros ->.
    by destruct H2 as [|H2%not_elem_of_nil].
  - intros c Hc. destruct (ro_closed _ _ _ Hr c Hc) as (q & Hq & Hs1 & Hd). exists q. unfold worker_running. by rewrite Hd, andb_false_r.
Qed.

Lemma elem_of_entries pools cl r c : reg_ok pools cl r -> c ∈ entries_of r (rg_order r) <-> registered r c.
Proof.
  intros Hr. unfold entries_of, registered. rewrite list_elem_of_omap. split; [intros (id & _ & E); eauto|].
  intros [id E]. exists id. split; [|done]. apply (ro_dom _ _ _ Hr). eauto.
Qed.
Lemma entries_once pools cl r : reg_ok pools cl r -> NoDup (entries_of r (rg_order r)).
Proof.
  intros Hr. apply NoDup_omap_inj; [apply (ro_order _ _ _ Hr)|]. intros a b c _ _ Ha Hb. by apply (registered_inj _ _ _ _ _ _ Hr Ha Hb).
Qed.
Lemma RequestChannels_entries r : RequestChannels r = channels_at r (entries_of r (rg_order r)).
Proof. unfold RequestChannels, channels_at, entries_of. rewrite omap_omap. done. Qed.

Lemma change_channels pools r normalized prepared newQueues removed added :
  reg_ok pools [] r -> phase_ok pools r (Prepared normalized prepared) -> change r normalized newQueues removed added ->
  let r' := changed_registry r normalized newQueues removed added in
  RequestChannels r ++ channels_at r added ≡ₚ RequestChannels r' ++ channels_at r removed.
Proof.
  intros Hr Hp Hch r'. destruct (changed_ok pools r normalized prepared Hr Hp newQueues removed added Hch) as [Hr' _].
  fold r' in Hr'. rewrite !RequestChannels_entries.
  assert (channels_at r' (entries_of r' (rg_order r')) = channels_at r (entries_of r' (rg_order r'))) as ->.
  { apply list_omap_ext, Forall_Forall2_diag, Forall_forall. intros c _.
    destruct (rg_heap r' !! c) as [e'|] eqn:E'.
    - by destruct (changed_started pools r normalized prepared Hr Hp newQueues removed added Hch c e' E') as (e & -> & _ & Hc & _); simpl; rewrite Hc.
    - assert (rg_heap r !! c = None) as ->; [|done]. simpl in E'. rewrite (changed_lookup r normalized newQueues removed added Hch) in E'.
      repeat case_decide; [by apply fmap_None in E'|by apply fmap_None in E'|done]. }
  unfold channels_at. rewrite <- !omap_app. apply omap_Permutation, NoDup_Permutation.
  - apply NoDup_app. split_and!; [by eapply entries_once| |apply (ch_added_once _ _ _ _ _ Hch)].
    intros c Hc%(elem_of_entries _ _ _ _ Hr) [_ Hn]%(ch_added _ _ _ _ _ Hch). done.
  - apply NoDup_app. split_and!; [by eapply entries_once| |apply (ch_removed_once _ _ _ _ _ Hch)].
    intros c [id' E']%(elem_of_entries _ _ _ _ Hr') (id & E & Hne)%(ch_removed _ _ _ _ _ Hch). simpl in E'.
    destruct (ch_new _ _ _ _ _ Hch id' c E') as (q & _ & _ & [[_ E2]|(_ & Hn & _)]); [|apply Hn; by exists id].
    by rewrite (registered_inj _ _ _ _ _ _ Hr E2 E) in E'.
  - intros c. rewrite !elem_of_app, (elem_of_entries _ _ _ _ Hr), (elem_of_entries _ _ _ _ Hr').
    rewrite (ch_added _ _ _ _ _ Hch), (ch_removed _ _ _ _ _ Hch). unfold registered. simpl. split.
    + intros [[id E]|[? _]]; [|by left]. destruct (decide (newQueues !! id = Some c)); eauto.
    + intros [[id E]|(id & E & _)]; [|eauto]. destruct (ch_new _ _ _ _ _ Hch id c E) as (q & _ & _ & [[_ E2]|(_ & Hn & _)]); eauto.
Qed.

(** A reload does what it says or nothing: a commit that fails leaves the
    registry as it was; one that succeeds makes the live queues exactly the
    normalized configuration, in its order, keeps the channel, gate and worker
    of every queue whose configuration is unchanged, gives every other queue a
    new channel, and reports as added and removed precisely the difference
    between the channels before and after. *)
Theorem reload_applies workerPools queues r0 r normalized prepared beforeCommit o r' :
  NewRedisSortedSetFlow workerPools queues = Ok r0 ->
  rtc (sys_step workerPools) (Running r0 Idle) (Running r (Prepared normalized prepared)) ->
  commit normalized prepared beforeCommit r = (o, r') ->
  match o with
  | Panic => False
  | Failed _ => r' = r
  | Committed removed result =>
      configs r' = normalized /\ rg_order r' = qc_ID <$> normalized /\ rg_default r' = default_queue normalized /\
      RequestChannels r ++ qrr_Added result ≡ₚ RequestChannels r' ++ qrr_Removed result /\
      (forall q, q ∈ normalized -> live_config r (qc_ID q) = Some q ->
         exists c e, rg_queues r !! qc_ID q = Some c /\ rg_queues r' !! qc_ID q = Some c /\ rg_heap r !! c = Some e /\ rg_heap r' !! c = Some e) /\
      (forall q, q ∈ normalized -> live_config r (qc_ID q) <> Some q ->
         exists c, rg_queues r' !! qc_ID q = Some c /\ ~ registered r c /\ channel_for c q ∈ qrr_Added result)
  end.
Proof.
  intros E Hs Hc. destruct (flow_ok _ _ _ _ E Hs) as [Hr Hp]. simpl in Hr.
  destruct (commit_cases _ _ _ _ _ _ _ Hr Hp Hc) as [(e & -> & -> & _)|(new & removed & added & Hch & _ & -> & -> & _)]; [done|].
  set (r' := changed_registry r normalized new removed added).
  split_and!; [by apply (new_configs workerPools r normalized prepared Hr Hp)|done|done|by apply (change_channels workerPools r normalized prepared)| |].
  - intros q Hq Hl. pose proof (ch_kept _ _ _ _ _ Hch (qc_ID q) q Hl Hq) as Hk. unfold live_config in Hl.
    destruct (rg_queues r !! qc_ID q) as [c|] eqn:Ec; [|done]. destruct (live_at _ _ _ _ _ Hr Ec) as (e & He & _).
    exists c, e. split_and!; [done|done|done|]. unfold r'. rewrite (kept_untouched workerPools r normalized Hr new removed added Hch c); [done| |]; by exists (qc_ID q).
  - intros q Hq Hl. assert (is_Some (new !! qc_ID q)) as [c Ec] by (apply (ch_dom _ _ _ _ _ Hch); by apply list_elem_of_fmap_2).
    destruct (ch_new _ _ _ _ _ Hch _ _ Ec) as (q' & Hq' & Hid & Hcase).
    rewrite <- (fmap_NoDup_eq qc_ID normalized q q' (normalize_validate_ids _ _ (proj1 Hp)) Hq Hq' Hid) in *.
    destruct Hcase as [[]|(_ & Hn & e & He & Hcfg & _)]; [done|]. exists c. split_and!; [done|done|].
    apply list_elem_of_omap. exists c. rewrite He. simpl. split; [apply (ch_added _ _ _ _ _ Hch); eauto|].
    by rewrite (eo_channel _ _ _ (ro_heap _ _ _ Hr c e He)), Hcfg.
Qed.

End registry.

(** ** A reload of a running flow *)
Definition w_queue (id name url : string) : QueueConfig := mkQueueConfig (mkQueueCfg id name "" 0 "" "" "" url "" ∅) tt.
Definition w_configured : list (QueueConfig (Params := unit)) := [w_queue "" "q1" "http://a"; w_queue "b" "q2" "http://a"].
Definition w_flow : Registry :=
  match NewRedisSortedSetFlow tt None ["default"] w_configured with Ok r => r | Err _ => emptyRegistry end.
(** [q1] changes its URL, [q2] stays, [q3] is new. *)
Definition w_reload : list (QueueConfig (Params := unit)) :=
  [w_queue "" "q1" "http://c"; w_queue "b" "q2" "http://a"; w_queue "" "q3" "http://a"].
Definition w_prepared : Res RegErr (list QueueConfig * gmap string nat) * Registry :=
  prepare tt None ["default"] w_reload (Start w_flow).
Definition w_normalized : list (QueueConfig (Params := unit)) := match w_prepared.1 with Ok (n, _) => n | Err _ => [] end.
Definition w_entries : gmap string nat := match w_prepared.1 with Ok (_, p) => p | Err _ => ∅ end.

Lemma w_reload_steps : rtc (sys_step tt None ["default"]) (Running w_flow Idle) (Running w_prepared.2 (Prepared w_normalized w_entries)).
Proof.
  eapply rtc_l; [by apply SStart|]. apply rtc_once. apply (SPrepare tt None ["default"] w_reload). by vm_compute.
Qed.

Lemma reload_safe_witness : validateSortedSetQueues ["default"] (configs w_prepared.2) = Ok tt.
Proof.
  destruct (reload_safe tt None ["default"] w_configured w_flow _ eq_refl w_reload_steps) as (r & p & E & H & _). injection E as -> _. exact H.
Defined.

Lemma reload_applies_witness : exists removed result r', commit w_normalized w_entries None w_prepared.2 = (Committed removed result, r') /\
  configs r' = w_normalized /\ RequestChannels w_prepared.2 ++ qrr_Added result ≡ₚ RequestChannels r' ++ qrr_Removed result.
Proof.
  destruct (commit w_normalized w_entries None w_prepared.2) as [o r'] eqn:E.
  pose proof (reload_applies tt None ["default"] w_configured w_flow _ _ _ None o r' eq_refl w_reload_steps E) as H.
  assert (Hc : match (commit w_normalized w_entries None w_prepared.2).1 with Committed _ _ => true | _ => false end = true) by by vm_compute.
  rewrite E in Hc. destruct o as [|e|removed result]; [done..|]. exists removed, result, r'. split; [done|]. split; apply H.
Defined.
