(* ===== verification/HotReload.v ===== *)
(** * Transport configuration and its hot reload

    pkg/redis/options.go and pkg/redis/redis_conn.go: the configurations of the
    Redis transports, from the decoded JSON on; pkg/server/queues_reload.go: the
    loop that re-reads the file, and what keeps the merge policy in step with
    the flow's queues while they change. *)
From stdpp Require Import prelude gmap strings list.
From Stdlib Require Import ZArith Lia.
From S2P Require Import Prelude Api RedisProducer SortedSetFlow MergePolicy QueueRegistry.

#[local] Open Scope string_scope.
#[local] Open Scope list_scope.

(** ** The connection *)
Record ConnectionConfig : Type := mkConn {
  cc_URL : string;
  cc_Mode : string;
  cc_Addrs : list string;
  cc_MasterName : string
}.

Inductive ConnErr : Type :=
| ErrAddrsMode
| ErrMasterMode
| ErrMasterRequired
| ErrUnknownMode
| ErrURLRequired
| ErrURL
| ErrClusterDB (db : Z).

Definition validateConnection (c : ConnectionConfig) : Res ConnErr unit :=
  if decide (cc_Mode c = "" \/ cc_Mode c = "standalone") then
    if decide (cc_Addrs c = []) then if decide (cc_MasterName c = "") then Ok tt else Err ErrMasterMode else Err ErrAddrsMode
  else if decide (cc_Mode c = "cluster") then if decide (cc_MasterName c = "") then Ok tt else Err ErrMasterMode
  else if decide (cc_Mode c = "sentinel") then if decide (cc_MasterName c = "") then Err ErrMasterRequired else Ok tt
  else Err ErrUnknownMode.

(** What of the client's options depends on the topology; [ParseURL] gives the
    address and the database of a URL. *)
(** What [redis.ParseURL] makes of a URL: the address, the database, and the
    options that are copied as they are. *)
Record UniversalOptions {Options : Type} : Type := mkUniversal {
  uo_Addrs : list string;
  uo_DB : Z;
  uo_options : Options;
  uo_IsClusterMode : bool;
  uo_MasterName : string
}.
Arguments UniversalOptions : clear implicits.
Arguments mkUniversal {_}.

Definition universalOptions {Options : Type} (ParseURL : string -> option (string * Z * Options)) (c : ConnectionConfig) :
    Res ConnErr (UniversalOptions Options) :=
  if decide (cc_URL c = "") then Err ErrURLRequired
  else match validateConnection c with
  | Err e => Err e
  | Ok _ =>
      match ParseURL (cc_URL c) with
      | None => Err ErrURL
      | Some (addr, db, options) =>
          if decide (cc_Mode c = "cluster" /\ db <> 0%Z) then Err (ErrClusterDB db)
          else Ok (mkUniversal (addr :: cc_Addrs c) db options (bool_decide (cc_Mode c = "cluster")) (cc_MasterName c))
      end
  end.

Inductive CfgErr : Type :=
| ErrParse
| ErrNoURL
| ErrConnection (e : ConnErr)
| ErrNegative (field : string)
| ErrNoQueues
| ErrNoQueueName
| ErrNoBaseURL (name : string)
| ErrDupID (id : string)
| ErrDupName (name : string).

Section config.
Context {Params : Type} `{EqDecision Params}.

(** Slices are [None] where they are nil: [reflect.DeepEqual] tells them apart. *)
Record SortedSetConfig : Type := mkSortedSetConfig {
  ss_URL : string;
  ss_Mode : string;
  ss_Addrs : option (list string);
  ss_MasterName : string;
  ss_RetryQueueName : string;
  ss_ResultQueueName : string;
  ss_PollIntervalMs : Z;
  ss_BatchSize : Z;
  ss_EnableTracing : bool;
  ss_ClaimLeaseTTLSeconds : Z;
  ss_ClaimReclaimIntervalMs : Z;
  ss_Queues : option (list (QueueConfig (Params := Params)))
}.
#[global] Instance sortedset_transport_eq : EqDecision SortedSetConfig.
Proof. solve_decision. Defined.

Definition slice {A : Type} (o : option (list A)) : list A := default [] o.
Definition or_zero (n d : Z) : Z := if decide (n = 0%Z) then d else n.

Definition ss_connection (c : SortedSetConfig) : ConnectionConfig :=
  mkConn (ss_URL c) (ss_Mode c) (slice (ss_Addrs c)) (ss_MasterName c).

(** [REDIS_URL] of the environment. *)
Definition ss_ApplyEnvOverrides (env : string) (c : SortedSetConfig) : SortedSetConfig :=
  mkSortedSetConfig (or_default (ss_URL c) env) (ss_Mode c) (ss_Addrs c) (ss_MasterName c) (ss_RetryQueueName c) (ss_ResultQueueName c)
    (ss_PollIntervalMs c) (ss_BatchSize c) (ss_EnableTracing c) (ss_ClaimLeaseTTLSeconds c) (ss_ClaimReclaimIntervalMs c) (ss_Queues c).

(** The loop over the queues sets what [normalizeSortedSetQueue] sets. *)
Definition ss_ApplyDefaults (c : SortedSetConfig) : SortedSetConfig :=
  mkSortedSetConfig (ss_URL c) (ss_Mode c) (ss_Addrs c) (ss_MasterName c) (or_default (ss_RetryQueueName c) "retry-sortedset")
    (or_default (ss_ResultQueueName c) "result-list") (or_zero (ss_PollIntervalMs c) 1000) (or_zero (ss_BatchSize c) 10)
    (ss_EnableTracing c) (or_zero (ss_ClaimLeaseTTLSeconds c) 300) (or_zero (ss_ClaimReclaimIntervalMs c) 15000)
    (option_map (fun queues => normalizeSortedSetQueue <$> queues) (ss_Queues c)).

Fixpoint check_queues (seenID seenQueue : gset string) (queues : list (QueueConfig (Params := Params))) : Res CfgErr unit :=
  match queues with
  | [] => Ok tt
  | q :: rest =>
      if decide (qc_Name q = "") then Err ErrNoQueueName
      else if decide (sc_IGWBaseURL (qc_cfg q) = "") then Err (ErrNoBaseURL (qc_Name q))
      else if decide (qc_ID q ∈ seenID) then Err (ErrDupID (qc_ID q))
      else if decide (qc_Name q ∈ seenQueue) then Err (ErrDupName (qc_Name q))
      else check_queues ({[qc_ID q]} ∪ seenID) ({[qc_Name q]} ∪ seenQueue) rest
  end.

Definition ss_validate (allowEmptyQueues : bool) (c : SortedSetConfig) : Res CfgErr unit :=
  if decide (ss_URL c = "") then Err ErrNoURL
  else match validateConnection (ss_connection c) with
  | Err e => Err (ErrConnection e)
  | Ok _ =>
      if (ss_PollIntervalMs c <? 0)%Z then Err (ErrNegative "poll_interval_ms")
      else if (ss_BatchSize c <? 0)%Z then Err (ErrNegative "batch_size")
      else if (ss_ClaimLeaseTTLSeconds c <? 0)%Z then Err (ErrNegative "claim_lease_ttl_seconds")
      else if (ss_ClaimReclaimIntervalMs c <? 0)%Z then Err (ErrNegative "claim_reclaim_interval_ms")
      else if negb allowEmptyQueues && bool_decide (slice (ss_Queues c) = []) then Err ErrNoQueues
      else check_queues ∅ ∅ (slice (ss_Queues c))
  end.

(** [decoded]: what [json.Unmarshal] made of the data. *)
Definition loadSortedSetConfig (env : string) (decoded : option SortedSetConfig) (allowEmptyQueues : bool) : Res CfgErr SortedSetConfig :=
  match decoded with
  | None => Err ErrParse
  | Some cfg =>
      let cfg := ss_ApplyDefaults (ss_ApplyEnvOverrides env cfg) in
      match ss_validate allowEmptyQueues cfg with Ok _ => Ok cfg | Err e => Err e end
  end.

(** The other transport's configuration. *)
Record PubSubQueue : Type := mkPubSubQueue {
  pq_QueueName : string;
  pq_WorkerPoolID : string;
  pq_InferenceObjective : string;
  pq_RequestPathURL : string;
  pq_IGWBaseURL : string;
  pq_Labels : gmap string string
}.
Record PubSubConfig : Type := mkPubSubConfig {
  pc_URL : string;
  pc_Mode : string;
  pc_Addrs : list string;
  pc_MasterName : string;
  pc_RetryQueueName : string;
  pc_ResultQueueName : string;
  pc_EnableTracing : bool;
  pc_Queues : list PubSubQueue
}.

Definition pc_connection (c : PubSubConfig) : ConnectionConfig := mkConn (pc_URL c) (pc_Mode c) (pc_Addrs c) (pc_MasterName c).
Definition pc_ApplyEnvOverrides (env : string) (c : PubSubConfig) : PubSubConfig :=
  mkPubSubConfig (or_default (pc_URL c) env) (pc_Mode c) (pc_Addrs c) (pc_MasterName c) (pc_RetryQueueName c) (pc_ResultQueueName c)
    (pc_EnableTracing c) (pc_Queues c).
Definition pq_defaults (q : PubSubQueue) : PubSubQueue :=
  mkPubSubQueue (pq_QueueName q) (or_default (pq_WorkerPoolID q) "default") (pq_InferenceObjective q)
    (or_default (pq_RequestPathURL q) "/v1/completions") (pq_IGWBaseURL q) (pq_Labels q).
Definition pc_ApplyDefaults (c : PubSubConfig) : PubSubConfig :=
  mkPubSubConfig (pc_URL c) (pc_Mode c) (pc_Addrs c) (pc_MasterName c) (or_default (pc_RetryQueueName c) "retry-sortedset")
    (or_default (pc_ResultQueueName c) "result-queue") (pc_EnableTracing c) (pq_defaults <$> pc_Queues c).
Fixpoint check_pubsub (queues : list PubSubQueue) : Res CfgErr unit :=
  match queues with
  | [] => Ok tt
  | q :: rest =>
      if decide (pq_QueueName q = "") then Err ErrNoQueueName
      else if decide (pq_IGWBaseURL q = "") then Err (ErrNoBaseURL (pq_QueueName q)) else check_pubsub rest
  end.
Definition pc_Validate (c : PubSubConfig) : Res CfgErr unit :=
  if decide (pc_URL c = "") then Err ErrNoURL
  else match validateConnection (pc_connection c) with
  | Err e => Err (ErrConnection e)
  | Ok _ => if decide (pc_Queues c = []) then Err ErrNoQueues else check_pubsub (pc_Queues c)
  end.
Definition LoadPubSubConfig (env : string) (decoded : option PubSubConfig) : Res CfgErr PubSubConfig :=
  match decoded with
  | None => Err ErrParse
  | Some cfg =>
      let cfg := pc_ApplyDefaults (pc_ApplyEnvOverrides env cfg) in
      match pc_Validate cfg with Ok _ => Ok cfg | Err e => Err e end
  end.

(** ** The reload loop

    [file]: the read of the file, and then the decoding of what it holds. *)
Inductive reload_outcome : Type :=
| Keep (rejected : bool)
| Apply (queues : list (QueueConfig (Params := Params))) (lastGood : SortedSetConfig).

Definition without_queues (c : SortedSetConfig) : SortedSetConfig :=
  mkSortedSetConfig (ss_URL c) (ss_Mode c) (ss_Addrs c) (ss_MasterName c) (ss_RetryQueueName c) (ss_ResultQueueName c)
    (ss_PollIntervalMs c) (ss_BatchSize c) (ss_EnableTracing c) (ss_ClaimLeaseTTLSeconds c) (ss_ClaimReclaimIntervalMs c) None.

Definition reload (env : string) (pools : list string) (file : option (option SortedSetConfig)) (lastGood : SortedSetConfig) : reload_outcome :=
  match file with
  | None => Keep true
  | Some decoded =>
      match loadSortedSetConfig env decoded true with
      | Err _ => Keep true
      | Ok cfg =>
          if decide (cfg = lastGood) then Keep false
          else if decide (without_queues lastGood = without_queues cfg) then
            if bool_decide (Forall (fun q => qc_Pool q ∈ pools) (slice (ss_Queues cfg)))
            then Apply (slice (ss_Queues cfg)) cfg else Keep true
          else Keep true
      end
  end.

(** ** What a loaded configuration is *)
Lemma check_queues_spec seenID seenQueue queues : check_queues seenID seenQueue queues = Ok tt ->
  forall pools, Forall (fun q => qc_Pool q ∈ pools) queues -> validate_from pools seenID seenQueue queues = Ok tt.
Proof.
  revert seenID seenQueue. induction queues as [|q rest IH]; intros seenID seenQueue; [done|]. cbn [check_queues validate_from].
  repeat case_decide; try done. intros Hc pools [Hq Hrest]%Forall_cons. repeat case_decide; try done. by apply IH.
Qed.

Lemma normalize_idem (q : QueueConfig (Params := Params)) :
  normalizeSortedSetQueue (normalizeSortedSetQueue q) = normalizeSortedSetQueue q.
Proof. unfold normalizeSortedSetQueue. simpl. repeat case_decide; simpl in *; congruence. Qed.

Lemma or_zero_pos n d : (0 < d)%Z -> (0 <= or_zero n d)%Z -> (0 < or_zero n d)%Z.
Proof. unfold or_zero. case_decide; lia. Qed.

(** A configuration that loads is complete: every duration and the batch
    size are positive, the queue names are set, the connection is valid, its
    queues are already in normal form, and they pass the flow's own validation
    against any pools that contain theirs; so a reload that finds its pools is
    never refused for its queues. *)
Theorem loaded_config_complete env decoded allowEmpty cfg : loadSortedSetConfig env decoded allowEmpty = Ok cfg ->
  ss_URL cfg <> "" /\ validateConnection (ss_connection cfg) = Ok tt /\ ss_RetryQueueName cfg <> "" /\ ss_ResultQueueName cfg <> "" /\
  (0 < ss_PollIntervalMs cfg)%Z /\ (0 < ss_BatchSize cfg)%Z /\ (0 < ss_ClaimLeaseTTLSeconds cfg)%Z /\ (0 < ss_ClaimReclaimIntervalMs cfg)%Z /\
  (allowEmpty = false -> slice (ss_Queues cfg) <> []) /\
  normalizeSortedSetQueue <$> slice (ss_Queues cfg) = slice (ss_Queues cfg) /\
  (forall pools, Forall (fun q => qc_Pool q ∈ pools) (slice (ss_Queues cfg)) -> validateSortedSetQueues pools (slice (ss_Queues cfg)) = Ok tt).
Proof.
  unfold loadSortedSetConfig. destruct decoded as [c|]; [|done]. set (d := ss_ApplyDefaults _).
  destruct (ss_validate allowEmpty d) as [[]|e] eqn:Hv; [|done]. intros [= <-]. unfold ss_validate in Hv.
  destruct (decide (ss_URL d = "")); [done|]. destruct (validateConnection (ss_connection d)) as [[]|e]; [|done].
  destruct (Z.ltb_spec (ss_PollIntervalMs d) 0); [done|]. destruct (Z.ltb_spec (ss_BatchSize d) 0); [done|].
  destruct (Z.ltb_spec (ss_ClaimLeaseTTLSeconds d) 0); [done|]. destruct (Z.ltb_spec (ss_ClaimReclaimIntervalMs d) 0); [done|].
  destruct (negb allowEmpty && _) eqn:Ha; [done|]. split_and!; try done.
  - simpl. unfold or_default. by case_decide.
  - simpl. unfold or_default. by case_decide.
  - by apply or_zero_pos.
  - by apply or_zero_pos.
  - by apply or_zero_pos.
  - by apply or_zero_pos.
  - intros ->. apply andb_false_iff in Ha as [|Ha%bool_decide_eq_false_1]; [done|]. exact Ha.
  - subst d. simpl. destruct (ss_Queues c) as [l|]; [|done]. simpl. induction l as [|q l IH]; [done|].
    rewrite !fmap_cons, normalize_idem. by f_equal.
  - by apply check_queues_spec.
Qed.
End config.

(** ** The flow and the merge policy together

    The server merges the flow's channels, starts it and then reloads: each
    commit first hands the new channels to the policy's AddRequestChannels, and
    the policy forgets a channel when it sees it closed. *)
Section in_step.
Context {Gate Params : Type} `{EqDecision Params}.
Context (constOpenGate : Gate) (CreateGate : option (SortedSetQueueConfig -> Params -> option Gate)) (workerPools : list string).
Notation system := (QueueRegistry.system (Gate := Gate) (Params := Params)).
Notation registry := (Registry (Gate := Gate) (Params := Params)).
Notation phase := (QueueRegistry.phase (Params := Params)).
Notation sys_step := (QueueRegistry.sys_step constOpenGate CreateGate workerPools).

Definition policy_admits (pools : gmap string poolFanIn) (added : list RequestChannel) : bool := is_ok (rr_AddRequestChannels added pools).1.

(** Steps of the flow other than the commit of a reload. *)
Definition not_commit (s s' : system) : Prop :=
  forall r n p, s = Running r (Prepared n p) -> exists r', s' = Running r' (Prepared n p).

Inductive srv_step : system * gmap string poolFanIn -> system * gmap string poolFanIn -> Prop :=
| VFlow s s' pools : sys_step s s' -> not_commit s s' -> srv_step (s, pools) (s', pools)
| VCommit normalized prepared r o r' pools : commit normalized prepared (Some (policy_admits pools)) r = (o, r') ->
    srv_step (Running r (Prepared normalized prepared), pools)
      (after_commit o r', match o with Committed _ result => (rr_AddRequestChannels (qrr_Added result) pools).2 | _ => pools end)
| VForget r p c pool f pools : c ∈ rg_closed r -> pools !! pool = Some f ->
    srv_step (Running r p, pools) (Running r p, <[pool := removeSource c f]> pools)
| VFan s pool f f' pools : pools !! pool = Some f -> fi_sources f' = fi_sources f -> srv_step (s, pools) (s, <[pool := f']> pools).

(** AddRequestChannels that fails has added nothing. *)
Lemma add_fails_clean channels (pools : gmap string poolFanIn) e : (rr_AddRequestChannels channels pools).1 = Err e -> (rr_AddRequestChannels channels pools).2 = pools.
Proof.
  pose proof (rr_AddRequestChannels_spec channels pools) as H. destruct (unknown_pool channels pools); [by rewrite H|].
  destruct H as (pools' & -> & _). done.
Qed.

Lemma add_sources l f c ch : 
  (fi_sources f !! c = Some ch -> fi_sources (foldl (fun f ch => addSource ch f) f l) !! c = Some ch) /\
  (fi_sources (foldl (fun f ch => addSource ch f) f l) !! c = Some ch -> fi_sources f !! c = Some ch \/ ch ∈ l /\ rc_Channel ch = c) /\
  (ch ∈ l -> is_Some (fi_sources (foldl (fun f ch => addSource ch f) f l) !! rc_Channel ch)).
Proof.
  revert f c ch. induction l as [|ch0 l IH]; intros f c ch; simpl; [split_and!; auto; by intros ?%not_elem_of_nil|].
  assert (forall c ch, fi_sources f !! c = Some ch -> fi_sources (addSource ch0 f) !! c = Some ch) as H1.
  { intros c' ch' E. unfold addSource. destruct (fi_sources f !! rc_Channel ch0) eqn:E0; [done|]. simpl. rewrite lookup_insert_ne; [done|congruence]. }
  assert (is_Some (fi_sources (addSource ch0 f) !! rc_Channel ch0)) as [x Hx].
  { unfold addSource. destruct (fi_sources f !! rc_Channel ch0) eqn:E0; [by rewrite E0|]. simpl. rewrite lookup_insert_eq. eauto. }
  destruct (IH (addSource ch0 f) c ch) as (I1 & I2 & I3). split_and!; [auto| |].
  - intros E. destruct (I2 E) as [E'|[Hin Hc]]; [|right; set_solver]. unfold addSource in E'.
    destruct (fi_sources f !! rc_Channel ch0) eqn:E0; [auto|]. simpl in E'. apply lookup_insert_Some in E' as [[<- <-]|[_ ?]]; [right; set_solver|auto].
  - intros [->|Hin]%elem_of_cons; [|by apply I3]. destruct (IH (addSource ch0 f) (rc_Channel ch0) x) as (J1 & _ & _). eauto.
Qed.

(** *** What holds of both *)
Record in_step (r : registry) (p : phase) (pools : gmap string poolFanIn) : Prop := {
  is_started : is_Some (rg_ctx r);
  is_pools x : is_Some (pools !! x) <-> x ∈ workerPools;
  is_live c q : rg_heap r !! c = Some q -> registered r c ->
    exists f, pools !! qc_Pool (qr_config q) = Some f /\ fi_sources f !! c = Some (channel_for c (qr_config q));
  is_source x f c ch : pools !! x = Some f -> fi_sources f !! c = Some ch ->
    exists q, rg_heap r !! c = Some q /\ ch = channel_for c (qr_config q) /\ (registered r c \/ c ∈ rg_closed r \/ c ∈ closing_of p);
  is_closing c q : c ∈ closing_of p -> rg_heap r !! c = Some q -> qr_started q = true
}.

Lemma prepare_frame queues (r r' : registry) res : prepare constOpenGate CreateGate workerPools queues r = (res, r') ->
  rg_closed r' = rg_closed r /\ rg_ctx r' = rg_ctx r.
Proof.
  unfold prepare. destruct (validateSortedSetQueues _ _); [|by intros [= <- <-]]. destruct (rg_stopped r); [by intros [= <- <-]|].
  destruct (prepare_loop _ _ _ _ _ _) as [res0 r0] eqn:E. destruct (prepare_loop_frame _ _ _ _ _ _ _ _ E) as (_ & _ & H1 & _ & H2).
  destruct res0; by intros [= <- <-].
Qed.

(** What a step of the flow leaves of the queues. *)
Record frame (r r' : registry) (p p' : phase) : Prop := {
  fr_evolves : evolves r r';
  fr_closed : rg_closed r ⊆ rg_closed r';
  fr_ctx : is_Some (rg_ctx r) -> is_Some (rg_ctx r');
  fr_closing c : c ∈ closing_of p' -> c ∈ closing_of p;
  fr_closes c : c ∈ closing_of p -> c ∈ closing_of p' \/ c ∈ rg_closed r' \/ exists q, rg_heap r !! c = Some q /\ qr_started q = false
}.
Lemma frame_same (r r' : registry) p : evolves r r' -> rg_closed r' = rg_closed r -> (is_Some (rg_ctx r) -> is_Some (rg_ctx r')) -> frame r r' p p.
Proof. intros H1 H2 H3. split; auto. by rewrite H2. Qed.
Lemma evolves_heap_same (r r' : registry) : rg_queues r' = rg_queues r -> rg_heap r' = rg_heap r -> evolves r r'.
Proof. intros H1 H2. split; [done|]. rewrite H2. eauto. Qed.

Lemma flow_step_frame s s' (r : registry) p : sys_ok workerPools s -> sys_step s s' -> not_commit s s' -> s = Running r p ->
  exists r' p', s' = Running r' p' /\ frame r r' p p'.
Proof.
  intros Hok Hstep Hnc Hs.
  destruct Hstep as [queues r1 normalized prepared r1' H|queues r1 e r1' H|normalized prepared bc r1 o r1' H|c removed r1|r1|r1 p1 Hctx|r1 p1|r1 p1 Hst|c q r1 p1 Hq Hrun Hst|c q r1 p1 Hq Hrun];
    injection Hs as <- <-; destruct Hok as [Hr Hp]; simpl in Hr.
  - destruct (prepare_ok _ _ _ _ _ _ _ _ H Hr) as (_ & H2 & _). destruct (prepare_frame _ _ _ _ H) as [F1 F2].
    eexists _, _. split; [done|]. split; [done|by rewrite F1|by rewrite F2|done|by left].
  - destruct (prepare_ok _ _ _ _ _ _ _ _ H Hr) as (_ & H2 & _). destruct (prepare_frame _ _ _ _ H) as [F1 F2].
    eexists _, _. split; [done|]. apply frame_same; [done..|by rewrite F2].
  - destruct (Hnc _ _ _ eq_refl) as [r' Hr']. by destruct o.
  - destruct Hp as [_ [([q Hq] & _ & Hcl) _]%Forall_cons]. unfold close_removed. rewrite Hq. destruct (qr_started q) eqn:Hs; simpl.
    + destruct (qr_done q); simpl; [rewrite decide_False by done|]; eexists _, _; (split; [done|]).
      * split; simpl; [by apply evolves_heap_same|set_solver|done|set_solver|set_solver].
      * apply frame_same; [by apply evolves_heap_same|done..].
    + eexists _, _. split; [done|]. split; simpl; [by apply evolves_heap_same|done|done|set_solver|].
      intros c' [->|Hc']%elem_of_cons; [right; right; eauto|auto].
  - eexists _, _. split; [done|]. split; simpl; [by apply evolves_heap_same|done|done|done|by left].
  - eexists _, _. split; [done|]. apply frame_same; [by eapply Start_ok|done|by eauto].
  - eexists _, _. split; [done|]. apply frame_same; [by apply evolves_heap_same|done..].
  - eexists _, _. split; [done|]. apply frame_same; [by apply evolves_heap_same|done|]. simpl. by rewrite fmap_is_Some.
  - eexists _, _. split; [done|]. apply frame_same; [|done..]. split; [done|]. intros c' x Hx. simpl.
    destruct (decide (c' = c)) as [->|]; [rewrite lookup_insert_eq; rewrite Hq in Hx; injection Hx as <-|rewrite lookup_insert_ne by done]; by eexists.
  - case_decide as Hc.
    + destruct (ro_closed _ _ _ Hr c Hc) as (x & Hx & _ & Hd). assert (x = q) as -> by congruence. unfold worker_running in Hrun.
      by rewrite Hd, andb_false_r in Hrun.
    + eexists _, _. split; [done|]. apply frame_same; [by apply evolves_heap_same|done..].
Qed.

Lemma in_step_frame (r r' : registry) p p' pools : reg_ok workerPools (closing_of p) r -> phase_ok workerPools r p ->
  in_step r p pools -> frame r r' p p' -> in_step r' p' pools.
Proof.
  intros Hr Hp [I1 I2 I3 I4 I5] [F1 F2 F3 F4 F5].
  assert (forall c q', rg_heap r' !! c = Some q' -> is_Some (rg_heap r !! c) -> exists q, rg_heap r !! c = Some q /\ qr_config q' = qr_config q /\
    (~ registered r c -> qr_started q' = qr_started q)) as Hback.
  { intros c q' Hq' [q Hq]. destruct (ev_heap _ _ F1 c q Hq) as (x & Hx & Hc & Hs). assert (x = q') as -> by congruence. eauto. }
  split; [auto|done| | |].
  - intros c q' Hq' Hreg. rewrite evolves_registered in Hreg by done. pose proof Hreg as [id E].
    destruct (live_at _ _ _ _ _ Hr E) as (q & Hq & _). destruct (Hback c q' Hq') as (x & Hx & Hc & _); [eauto|]. rewrite Hc. by apply I3.
  - intros x f c ch Hf Hch. destruct (I4 x f c ch Hf Hch) as (q & Hq & -> & Hcase). destruct (ev_heap _ _ F1 c q Hq) as (q' & Hq' & Hc & _).
    exists q'. rewrite Hc, evolves_registered by done. split_and!; [done..|]. destruct Hcase as [?|[?|Hcl]]; [auto|set_solver|].
    destruct (F5 c Hcl) as [?|[?|(y & Hy & Hs)]]; [auto|auto|]. rewrite (I5 c y Hcl Hy) in Hs. done.
  - intros c q' Hcl%F4 Hq'. destruct p as [| |removed]; simpl in Hcl; [by apply not_elem_of_nil in Hcl..|].
    destruct Hp as [_ Hf]. rewrite Forall_forall in Hf. destruct (Hf c Hcl) as (Hsome & Hn & _).
    destruct (Hback c q' Hq' Hsome) as (q & Hq & _ & Hs). rewrite Hs by done. by apply (I5 c).
Qed.

Lemma unknown_none (pools : gmap string poolFanIn) channels : Forall (fun ch => is_Some (pools !! pool_of ch)) channels -> unknown_pool channels pools = None.
Proof. induction 1 as [|ch l [f Hf] _ IH]; [done|]. cbn [unknown_pool]. by rewrite Hf. Qed.

Context (Hnames : "" ∉ workerPools).

Lemma pool_of_channel c (q : QueueConfig (Params := Params)) : qc_Pool q ∈ workerPools -> pool_of (channel_for c q) = qc_Pool q.
Proof. intros Hq. unfold pool_of. simpl. rewrite bool_decide_false; [done|]. intros E. apply Hnames. by rewrite <- E. Qed.

Lemma validated_pool queues (q : QueueConfig (Params := Params)) : validateSortedSetQueues workerPools queues = Ok tt -> q ∈ queues -> qc_Pool q ∈ workerPools.
Proof. rewrite validate_spec, Forall_forall. intros (H & _ & _) Hq. by destruct (H q Hq) as (_ & _ & ?). Qed.

Section commit.
Context (r : registry) (normalized : list (QueueConfig (Params := Params))) (prepared : gmap string nat).
Context (newQueues : gmap string nat) (removed added : list nat).
Context (Hr : reg_ok workerPools [] r) (Hp : phase_ok workerPools r (Prepared normalized prepared)).
Context (Hch : change r normalized newQueues removed added).
Let r' : registry := changed_registry r normalized newQueues removed added.

Lemma added_entry c : c ∈ added -> exists e, qr_config e ∈ normalized /\ rg_heap r !! c = Some e /\ qr_channel e = channel_for c (qr_config e) /\
  ~ registered r c /\ qr_started e = false.
Proof.
  intros Hc. pose proof Hc as [[id Hid] Hn]%(ch_added _ _ _ _ _ Hch).
  destruct (ch_new _ _ _ _ _ Hch id c Hid) as (q & Hq & -> & [[_ E]|(_ & _ & e & He & <- & Hs)]); [destruct Hn; by exists (qc_ID q)|].
  exists e. split_and!; try done. apply (ro_heap _ _ _ Hr c e He).
Qed.

Lemma added_channels ch : ch ∈ channels_at r added <->
  exists c q, c ∈ added /\ q ∈ normalized /\ ch = channel_for c q /\ qr_config <$> rg_heap r !! c = Some q.
Proof.
  unfold channels_at. rewrite list_elem_of_omap. split.
  - intros (c & Hc & E). destruct (added_entry c Hc) as (e & Hq & He & Hcn & _). rewrite He in E. injection E as <-.
    exists c, (qr_config e). by rewrite He.
  - intros (c & q & Hc & _ & -> & E). destruct (added_entry c Hc) as (e & _ & He & Hcn & _). exists c. rewrite He in *.
    injection E as <-. simpl. by rewrite Hcn.
Qed.

Lemma changed_keeps c q : rg_heap r !! c = Some q ->
  exists q', rg_heap r' !! c = Some q' /\ qr_config q' = qr_config q /\ (qr_started q = true -> qr_started q' = true).
Proof.
  intros Hq. destruct (rg_heap r' !! c) as [q'|] eqn:E.
  - destruct (changed_started workerPools r normalized prepared Hr Hp newQueues removed added Hch c q' E) as (x & Hx & Hc & _ & _ & _ & _ & _ & _ & Hs).
    assert (x = q) as -> by congruence. eauto.
  - simpl in E. rewrite (changed_lookup r normalized newQueues removed added Hch) in E. repeat case_decide; by rewrite Hq in E.
Qed.

Lemma in_step_commit pools : in_step r (Prepared normalized prepared) pools ->
  exists pools', rr_AddRequestChannels (channels_at r added) pools = (Ok tt, pools') /\ in_step r' (Closing removed) pools'.
Proof.
  intros [I1 I2 I3 I4 I5]. pose proof added_channels as Hchan. pose proof changed_keeps as Hfwd.
  pose proof (rr_AddRequestChannels_spec (channels_at r added) pools) as Hspec. rewrite unknown_none in Hspec.
  2: { apply Forall_forall. intros ch (c & q & _ & Hq & -> & _)%Hchan. rewrite pool_of_channel; [apply I2|]; by eapply validated_pool; [apply Hp|]. }
  destruct Hspec as (pools' & -> & Hdom & Hsrc). exists pools'. split; [done|].
  assert (forall x f' c ch, pools' !! x = Some f' -> fi_sources f' !! c = Some ch ->
    (exists f, pools !! x = Some f /\ fi_sources f !! c = Some ch) \/ ch ∈ channels_at r added /\ rc_Channel ch = c) as Hback.
  { intros x f' c ch Hf' Hc. destruct (proj1 (Hdom x)) as [f Hf]; [eauto|]. rewrite (Hsrc x f Hf) in Hf'. injection Hf' as <-.
    destruct (add_sources (filter (fun ch => pool_of ch = x) (channels_at r added)) f c ch) as (_ & H2 & _).
    destruct (H2 Hc) as [?|[[_ ?]%list_elem_of_filter ?]]; eauto. }
  split; [done| | | |].
  - intros x. by rewrite Hdom, I2.
  - intros c q' Hq' Hreg'. pose proof Hreg' as [id E]. simpl in E.
    assert (forall f, pools !! qc_Pool (qr_config q') = Some f -> exists f', pools' !! qc_Pool (qr_config q') = Some f' /\
      (forall ch, fi_sources f !! c = Some ch -> fi_sources f' !! c = Some ch) /\
      (channel_for c (qr_config q') ∈ channels_at r added -> qc_Pool (qr_config q') ∈ workerPools -> is_Some (fi_sources f' !! c))) as Hf'.
    { intros f Hf. eexists. split; [by apply Hsrc|]. split.
      - intros ch. apply (add_sources _ f c ch).
      - intros Hin Hpool. apply (add_sources _ f c (channel_for c (qr_config q'))), list_elem_of_filter. split; [by apply pool_of_channel|done]. }
    destruct (ch_new _ _ _ _ _ Hch id c E) as (q & Hq & -> & [[Hl Ec]|(Hl & Hn & e & He & Hcfg & Hs)]).
    + assert (registered r c) as Hreg by by exists (qc_ID q).
      assert (rg_heap r !! c = Some q') as Hold by (rewrite <- Hq'; symmetry; by apply (kept_untouched workerPools r normalized Hr newQueues removed added Hch c)).
      destruct (I3 c q' Hold Hreg) as (f & Hf & Hch'). destruct (Hf' f Hf) as (f' & Hf2 & Hk & _). exists f'. auto.
    + assert (c ∈ added) as Ha by (apply (ch_added _ _ _ _ _ Hch); eauto).
      assert (qr_config q' = q) as Hcq.
      { destruct (Hfwd c e He) as (x & Hx & Hxc & _). congruence. }
      rewrite Hcq in *. assert (qc_Pool q ∈ workerPools) as Hpool by (eapply validated_pool; [apply Hp|done]).
      destruct (proj2 (I2 (qc_Pool q)) Hpool) as [f Hf]. destruct (Hf' f Hf) as (f' & Hf2 & _ & Hnew). exists f'. split; [done|].
      destruct Hnew as [ch Hchs]; [|done|].
      { apply Hchan. exists c, q. rewrite He. simpl. by rewrite Hcfg. }
      destruct (Hback _ _ _ _ Hf2 Hchs) as [(g & Hg & Hgc)|[Hin Hcc]].
      * destruct (I4 _ _ _ _ Hg Hgc) as (x & Hx & _ & [Hreg|[Hcl|Hcl]]); [done| |by apply not_elem_of_nil in Hcl].
        destruct (ro_closed _ _ _ Hr c Hcl) as (y & Hy & Hys & _). congruence.
      * apply Hchan in Hin as (c0 & q0 & _ & _ & -> & E0). simpl in Hcc. subst c0. rewrite He in E0. injection E0 as <-. by rewrite Hchs, Hcfg.
  - intros x f' c ch Hf' Hc. destruct (Hback _ _ _ _ Hf' Hc) as [(f & Hf & Hfc)|[Hin Hcc]].
    + destruct (I4 _ _ _ _ Hf Hfc) as (q & Hq & -> & Hcase). destruct (Hfwd c q Hq) as (q' & Hq' & Hcq & _). exists q'. rewrite Hcq.
      split_and!; [done..|]. destruct Hcase as [[id E]|[Hcl|Hcl]]; [|auto|by apply not_elem_of_nil in Hcl].
      destruct (decide (newQueues !! id = Some c)) as [E'|E']; [left; by exists id|]. right. right. apply (ch_removed _ _ _ _ _ Hch). eauto.
    + apply Hchan in Hin as (c0 & q0 & Ha & _ & -> & E0). simpl in Hcc. subst c0. destruct (rg_heap r !! c) as [e|] eqn:He; [|done].
      injection E0 as E0. destruct (Hfwd c e He) as (q' & Hq' & Hcq & _). exists q'. rewrite Hcq, E0. split_and!; [done..|].
      left. apply (ch_added _ _ _ _ _ Hch) in Ha as [Hid _]. exact Hid.
  - intros c q' Hc Hq'. apply (ch_removed _ _ _ _ _ Hch) in Hc as (id & E & _). destruct (live_at _ _ _ _ _ Hr E) as (q & Hq & _ & _ & _ & Hs & _).
    rewrite bool_decide_true in Hs by done. destruct (Hfwd c q Hq) as (x & Hx & _ & Hxs). assert (x = q') as -> by congruence. auto.
Qed.
End commit.

Lemma srv_step_ok (s s' : system) pools pools' : srv_step (s, pools) (s', pools') ->
  (sys_ok workerPools s /\ exists r p, s = Running r p /\ in_step r p pools) ->
  sys_ok workerPools s' /\ exists r p, s' = Running r p /\ in_step r p pools'.
Proof.
  intros Hstep (Hok & r & p & -> & Hin). pose proof Hok as [Hr Hp].
  inversion Hstep as [x s2 ps Hs Hnc Ea Eb|n pr x o x' ps Hc Ea Eb|x ph c pool f ps Hcl Hf Ea Eb|x pool f f' ps Hf Hsame Ea Eb]; subst; clear Hstep.
  - split; [by eapply sys_step_ok|]. destruct (flow_step_frame _ _ r p Hok Hs Hnc eq_refl) as (r' & p' & -> & Hfr).
    exists r', p'. split; [done|]. by eapply in_step_frame.
  - split; [eapply (sys_step_ok constOpenGate CreateGate); [by eapply SCommit|done]|].
    destruct (commit_cases _ _ _ _ _ _ _ Hr Hp Hc) as [(e & -> & -> & _)|(new & removed & added & Hch & _ & -> & -> & _)].
    + exists r, Idle. split; [done|]. destruct Hin as [I1 I2 I3 I4 I5]. by split.
    + destruct (in_step_commit r n pr new removed added Hr Hp Hch pools Hin) as (pools1 & E & H1). simpl. rewrite E. by eexists _, _.
  - split; [done|]. exists r, p. split; [done|]. destruct Hin as [I1 I2 I3 I4 I5]. split; [done| | | |done].
    + intros x. rewrite lookup_insert. case_decide; [subst|apply I2]. split; [intros _; apply I2; eauto|by eexists].
    + intros c' q Hq Hreg. destruct (I3 c' q Hq Hreg) as (g & Hg & Hs). rewrite lookup_insert. case_decide; [|eauto]. subst.
      assert (g = f) as -> by congruence. eexists. split; [done|]. unfold removeSource. destruct (fi_sources f !! c) eqn:E; [|done]. simpl.
      rewrite lookup_delete_ne; [done|]. intros ->. destruct Hreg as [id Hid]. by destruct (live_at _ _ _ _ _ Hr Hid) as (_ & _ & _ & _ & _ & _ & Hno).
    + intros x g c' ch Hg Hs. apply lookup_insert_Some in Hg as [[<- <-]|[_ Hg]]; [|by eapply I4]. apply (I4 pool f c' ch Hf).
      unfold removeSource in Hs. destruct (fi_sources f !! c) eqn:E; [|done]. simpl in Hs. by apply lookup_delete_Some in Hs as [_ Hs].
  - split; [done|]. exists r, p. split; [done|]. destruct Hin as [I1 I2 I3 I4 I5]. split; [done| | | |done].
    + intros x. rewrite lookup_insert. case_decide; [subst|apply I2]. split; [intros _; apply I2; eauto|by eexists].
    + intros c' q Hq Hreg. destruct (I3 c' q Hq Hreg) as (g & Hg & Hs). rewrite lookup_insert. case_decide; [|eauto]. subst.
      assert (g = f) as -> by congruence. eexists. split; [done|]. by rewrite Hsame.
    + intros x g c' ch Hg Hs. apply lookup_insert_Some in Hg as [[<- <-]|[_ Hg]]; [|by eapply I4]. rewrite Hsame in Hs. by apply (I4 pool f c' ch Hf).
Qed.

Lemma elem_of_channels (r : registry) cl ch : reg_ok workerPools cl r ->
  ch ∈ RequestChannels r <-> exists c q, registered r c /\ rg_heap r !! c = Some q /\ ch = channel_for c (qr_config q).
Proof.
  intros Hr. rewrite RequestChannels_entries. unfold channels_at. rewrite list_elem_of_omap. split.
  - intros (c & Hc%(elem_of_entries _ _ _ _ Hr) & E). destruct (rg_heap r !! c) as [q|] eqn:Hq; [|done]. injection E as <-.
    exists c, q. split_and!; [done..|]. apply (ro_heap _ _ _ Hr c q Hq).
  - intros (c & q & Hc & Hq & ->). exists c. rewrite Hq. split; [by apply (elem_of_entries _ _ _ _ Hr)|]. simpl. f_equal. apply (ro_heap _ _ _ Hr c q Hq).
Qed.

Lemma NewRedisSortedSetFlow_ctx queues (r : registry) : NewRedisSortedSetFlow constOpenGate CreateGate workerPools queues = Ok r -> rg_ctx r = None.
Proof.
  intros E. pose proof (startup_steps constOpenGate CreateGate workerPools queues) as H. rewrite E in H. destruct H as (n & p & r1 & Hp & Hc).
  apply prepare_frame in Hp as [_ Hx]. simpl in Hx. unfold commit in Hc. destruct (rg_stopped r1); [done|]. destruct (classify r1 p n) as [[[new ch] ad]|]; [|done].
  apply (f_equal (fun x => rg_ctx x.2)) in Hc. simpl in Hc. by rewrite <- Hc.
Qed.

Lemma live_pool (r : registry) cl c q : reg_ok workerPools cl r -> registered r c -> rg_heap r !! c = Some q -> qc_Pool (qr_config q) ∈ workerPools.
Proof.
  intros Hr [id Hid] Hq. destruct (live_at _ _ _ _ _ Hr Hid) as (q' & Hq' & Hc & _). assert (q' = q) as -> by congruence.
  eapply validated_pool; [apply (ro_configs _ _ _ Hr)|]. apply list_elem_of_omap. exists id. split; [apply (ro_dom _ _ _ Hr); eauto|].
  unfold live_config. rewrite Hid. simpl. by rewrite Hq.
Qed.

(** The policy after its first merge, and the flow just started. *)
Lemma merged_in_step (r0 : registry) (ps pools0 : gmap string poolFanIn) : reg_ok workerPools [] r0 -> rg_ctx r0 = None ->
  (forall x, is_Some (ps !! x) <-> x ∈ workerPools) -> (forall x f, ps !! x = Some f -> f = newPoolFanIn) ->
  (forall x, is_Some (pools0 !! x) <-> is_Some (ps !! x)) ->
  (forall x f, ps !! x = Some f -> pools0 !! x = Some (foldl (fun f ch => addSource ch f) f (filter (fun ch => pool_of ch = x) (RequestChannels r0)))) ->
  in_step (Start r0) Idle pools0.
Proof.
  intros Hr Hctx Hps Hnew Hdom Hsrc. destruct (Start_ok _ _ _ Hr Hctx) as [Hr1 Hev].
  assert (forall c q', rg_heap (Start r0) !! c = Some q' -> registered r0 c -> exists q, rg_heap r0 !! c = Some q /\ qr_config q' = qr_config q) as Hback.
  { intros c q' Hq' [id E]. destruct (live_at _ _ _ _ _ Hr E) as (q & Hq & _). destruct (ev_heap _ _ Hev c q Hq) as (x & Hx & Hc & _).
    exists q. split; [done|]. congruence. }
  assert (forall x f c ch, pools0 !! x = Some f -> fi_sources f !! c = Some ch ->
    exists q, registered r0 c /\ rg_heap r0 !! c = Some q /\ ch = channel_for c (qr_config q)) as Hof.
  { intros x f c ch Hf Hc. destruct (proj1 (Hdom x)) as [g Hg]; [eauto|]. rewrite (Hsrc x g Hg) in Hf. injection Hf as <-.
    rewrite (Hnew x g Hg) in Hc. destruct (add_sources (filter (fun ch => pool_of ch = x) (RequestChannels r0)) newPoolFanIn c ch) as (_ & H2 & _).
    destruct (H2 Hc) as [Hc'|[[_ Hin]%list_elem_of_filter Hcc]]; [simpl in Hc'; by rewrite lookup_empty in Hc'|].
    apply (elem_of_channels _ _ _ Hr) in Hin as (c0 & q & Hreg & Hq & ->). simpl in Hcc. subst c0. eauto. }
  split; simpl; [by eexists| | | |by intros ?? ?%not_elem_of_nil].
  - intros x. by rewrite Hdom.
  - intros c q' Hq' Hreg. rewrite (evolves_registered _ _ _ Hev) in Hreg. destruct (Hback c q' Hq' Hreg) as (q & Hq & ->).
    pose proof (live_pool _ _ _ _ Hr Hreg Hq) as Hp. destruct (proj2 (Hps _) Hp) as [g Hg]. eexists. split; [by apply Hsrc|].
    destruct (add_sources (filter (fun ch => pool_of ch = qc_Pool (qr_config q)) (RequestChannels r0)) g c (channel_for c (qr_config q))) as (_ & _ & H3).
    destruct H3 as [ch Hc].
    { apply list_elem_of_filter. split; [by apply pool_of_channel|]. apply (elem_of_channels _ _ _ Hr). eauto. }
    simpl in Hc. destruct (Hof _ _ _ _ (Hsrc _ _ Hg) Hc) as (x & _ & Hx & ->). assert (x = q) as -> by congruence. exact Hc.
  - intros x f c ch Hf Hc. destruct (Hof x f c ch Hf Hc) as (q & Hreg & Hq & ->). destruct (ev_heap _ _ Hev c q Hq) as (q' & Hq' & Hcq & _).
    exists q'. rewrite Hcq. split_and!; [done..|]. left. by rewrite (evolves_registered _ _ _ Hev).
Qed.

(** C20. Under hot reload the merge policy stays in step with the flow, in every
    interleaving of reloads, workers, shutdown and the policy's own loop: every
    live queue's channel is a source of its pool's fan-in, and a source that is
    not a live queue's channel is closed, which makes the policy forget it, or
    the reload in progress is about to close it. Merging the first channels and
    handing over new ones never fail. *)
Theorem policy_in_step {C : Type} (poolConfigs : gmap string C) queues r0 :
  (forall x, is_Some (poolConfigs !! x) <-> x ∈ workerPools) ->
  NewRedisSortedSetFlow constOpenGate CreateGate workerPools queues = Ok r0 ->
  exists pools0, rr_MergeRequestChannels (RequestChannels r0) poolConfigs ∅ = Some pools0 /\
  forall s pools, rtc srv_step (Running (Start r0) Idle, pools0) (s, pools) ->
  exists r p, s = Running r p /\
    (forall ch, ch ∈ RequestChannels r -> exists f, pools !! pool_of ch = Some f /\ fi_sources f !! rc_Channel ch = Some ch) /\
    (forall x f c ch, pools !! x = Some f -> fi_sources f !! c = Some ch -> ch ∈ RequestChannels r \/ c ∈ rg_closed r \/ c ∈ closing_of p).
Proof.
  intros Hpools E. pose proof (NewRedisSortedSetFlow_ok _ _ _ _ _ E) as [Hr _]. simpl in Hr.
  assert (forall ch, ch ∈ RequestChannels r0 -> pool_of ch ∈ workerPools) as Hch.
  { intros ch (c & q & Hreg & Hq & ->)%(elem_of_channels _ _ _ Hr). pose proof (live_pool _ _ _ _ Hr Hreg Hq). by rewrite pool_of_channel. }
  unfold rr_MergeRequestChannels.
  assert (unknown_pool (RequestChannels r0) poolConfigs = None) as ->.
  { clear -Hch Hpools. induction (RequestChannels r0) as [|ch l IH]; [done|]. cbn [unknown_pool].
    destruct (proj2 (Hpools (pool_of ch))) as [x ->]; [apply Hch; set_solver|]. apply IH. set_solver. }
  rewrite (right_id_L ∅ (∪)). set (ps := (fun _ => newPoolFanIn) <$> poolConfigs).
  assert (forall x, is_Some (ps !! x) <-> x ∈ workerPools) as Hps by (intros x; unfold ps; by rewrite lookup_fmap, fmap_is_Some).
  destruct (rr_merge_known (RequestChannels r0) ps) as (pools0 & -> & Hdom & Hsrc).
  { apply unknown_none, Forall_forall. intros ch Hin. by apply Hps, Hch. }
  exists pools0. split; [done|].
  intros s pools Hs.
  assert (rg_ctx r0 = None) as Hctx by (pose proof (NewRedisSortedSetFlow_ctx _ _ E); done).
  destruct (Start_ok _ _ _ Hr Hctx) as [Hr1 _].
  assert (sys_ok workerPools s /\ exists r p, s = Running r p /\ in_step r p pools) as (Hok & r & p & -> & Hin).
  { assert (forall x y, rtc srv_step x y -> (sys_ok workerPools x.1 /\ exists r p, x.1 = Running r p /\ in_step r p x.2) ->
      sys_ok workerPools y.1 /\ exists r p, y.1 = Running r p /\ in_step r p y.2) as Hrtc.
    { induction 1 as [|[s1 p1] [s2 p2] z H12 _ IH]; [done|]. intros H1. apply IH. by eapply srv_step_ok. }
    apply (Hrtc _ _ Hs). split; [done|]. eexists _, _. split; [done|]. eapply merged_in_step; [done|done|exact Hps| |exact Hdom|exact Hsrc].
    intros x f. unfold ps. rewrite lookup_fmap. destruct (poolConfigs !! x); [by intros [= <-]|done]. }
  destruct Hok as [Hrr _]. exists r, p. split; [done|]. destruct Hin as [I1 I2 I3 I4 I5]. split.
  - intros ch (c & q & Hreg & Hq & ->)%(elem_of_channels _ _ _ Hrr). rewrite pool_of_channel by by eapply live_pool. by apply I3.
  - intros x f c ch Hf Hc. destruct (I4 x f c ch Hf Hc) as (q & Hq & -> & [Hreg|Hcase]); [left|by right].
    apply (elem_of_channels _ _ _ Hrr). eauto.
Qed.
End in_step.

(** ** A transport and its policy *)
Definition w_transport : SortedSetConfig (Params := unit) :=
  mkSortedSetConfig "redis://h" "cluster" None "" "" "" 0 0 false 0 0 (Some [w_queue "" "q1" "http://a"]).

Lemma loaded_config_complete_witness : exists cfg, loadSortedSetConfig "" (Some w_transport) false = Ok cfg /\
  (0 < ss_PollIntervalMs cfg)%Z /\ normalizeSortedSetQueue <$> slice (ss_Queues cfg) = slice (ss_Queues cfg).
Proof. eexists. split; [reflexivity|]. by split; apply (loaded_config_complete "" (Some w_transport) false). Defined.

Lemma policy_in_step_witness : exists pools0 f ch, rr_MergeRequestChannels (RequestChannels w_flow) {["default" := tt]} ∅ = Some pools0 /\
  pools0 !! pool_of ch = Some f /\ fi_sources f !! rc_Channel ch = Some ch.
Proof.
  destruct (policy_in_step (Params := unit) tt None ["default"] ltac:(set_solver) (C := unit) {["default" := tt]} w_configured w_flow) as (pools0 & Hm & H).
  - intros x. rewrite lookup_singleton_is_Some. set_solver.
  - reflexivity.
  - destruct (H _ _ (rtc_refl _ _)) as (r & p & E & H1 & _). injection E as <- <-.
    destruct (H1 (mkRequestChannel 0 "http://a" "" "/v1/completions" "default")) as (f & Hf & Hs); [apply list_elem_of_here|].
    exists pools0, f, (mkRequestChannel 0 "http://a" "" "/v1/completions" "default"). by split_and!.
Defined.
