(* ===== verification/Backlog.v ===== *)
(** * The broker's backlog and its gauges

    [QueueBacklog] of pkg/redis/sortedset_impl.go, the deadline-proximity
    histogram of pkg/metrics/metrics.go and the poller of pkg/server/runner.go
    that feeds one to the other. *)
From stdpp Require Import prelude gmap strings list sorting.
From Stdlib Require Import ZArith QArith Lia.
From S2P Require Import Prelude Json Rounding Api RedisClaim Wire SortedSetFlow MergePolicy QueueRegistry.

#[local] Open Scope Z_scope.
#[local] Open Scope list_scope.

(** ** The buckets *)
Definition deadlineProximityBuckets : list Z :=
  [0; Second; 5 * Second; 15 * Second; 30 * Second; Minute; 2 * Minute; 5 * Minute; 10 * Minute; 30 * Minute; 60 * Minute;
   120 * Minute; 360 * Minute; 1440 * Minute].
Definition bucket_ms (b : Z) : Z := Z.quot b Millisecond.
Definition buildDeadlineProximityBucketLabels : list string := (fun b => itoa (bucket_ms b)) <$> deadlineProximityBuckets.

(** ** QueueBacklog *)
Record ExpiringCount : Type := mkExpiring { ec_Window : string; ec_Count : Z }.

Record QueueBacklogStat : Type := mkStat {
  qs_QueueID : string;
  qs_QueueName : string;
  qs_PoolName : string;
  qs_Depth : Z;
  qs_SourceAvailable : bool;
  qs_ExpiringCounts : option (list ExpiringCount)   (* [None] is nil *)
}.

Definition zeroExpiringCounts (labels : list string) : list ExpiringCount := (fun l => mkExpiring l 0) <$> labels.

(** The data of the registered queues, in configuration order. *)
Definition queueSnapshot {Gate Params : Type} (r : Registry (Gate := Gate) (Params := Params)) : list (string * string * string) :=
  omap (fun id => c ← rg_queues r !! id; q ← rg_heap r !! c; Some (qr_queueID q, qr_queueName q, rc_WorkerPoolID (qr_channel q))) (rg_order r).

(** What the transaction of a queue comes back with: an error, or the replies
    of its commands, each an error or a number. *)
Inductive tx_reply : Type :=
| TxFailed
| TxReplies (card : option Z) (counts : list (option Z)).

Inductive BacklogErr : Type :=
| ErrPipelined (queue : string)
| ErrZCard (queue : string)
| ErrDeadlineReads (queue : string).

Definition backlog_stat (labels : list string) (q : string * string * string) (reply : tx_reply) : QueueBacklogStat * option BacklogErr :=
  let '(id, name, pool) := q in
  match reply with
  | TxFailed => (mkStat id name pool 0 false (Some (zeroExpiringCounts labels)), Some (ErrPipelined name))
  | TxReplies None _ => (mkStat id name pool 0 false (Some (zeroExpiringCounts labels)), Some (ErrZCard name))
  | TxReplies (Some depth) counts =>
      if bool_decide (None ∈ counts)
      then (mkStat id name pool depth true (Some (zeroExpiringCounts labels)), Some (ErrDeadlineReads name))
      else (mkStat id name pool depth true (Some (zip_with (fun l n => mkExpiring l (default 0 n)) labels counts)), None)
  end.

(** [read]: the transaction on a queue, and the clock at it; the first error is
    the one returned. *)
Definition QueueBacklog (read : string -> tx_reply) (snapshot : list (string * string * string)) : list QueueBacklogStat * option BacklogErr :=
  let each := (fun q => backlog_stat buildDeadlineProximityBucketLabels q (read q.1.2)) <$> snapshot in
  (each.*1, head (omap snd each)).

(** [ZCARD], and [ZCOUNT -inf (n] per bucket. *)
Definition zcount_below (n : Z) (zset : gmap string Q) : Z := Z.of_nat (size (filter (fun kv => Qle_bool (inject_Z n) kv.2 = false) zset)).
Definition bucket_seconds (b : Z) : Z := Z.quot b Second.
Definition backlog_read (r : Redis) (now : Z) (queue : string) : tx_reply :=
  let zset := pending (queue_at r queue) in
  TxReplies (Some (Z.of_nat (size zset))) ((fun b => Some (zcount_below (now + bucket_seconds b + 1) zset)) <$> deadlineProximityBuckets).

(** ** The gauges *)
Definition labels : Type := string * string * string.

Record Gauges : Type := mkGauges {
  ga_backlog : gmap labels Q;
  ga_available : gmap labels bool;
  ga_budget : gmap labels Q;
  ga_series : gmap string (labels * list Z)     (* the histogram's snapshots *)
}.

Definition series_key (l : labels) : string := l.1.1 +:+ nul +:+ l.1.2 +:+ nul +:+ l.2.

Definition collector_Set (l : labels) (cumulative : list Z) (s : gmap string (labels * list Z)) : gmap string (labels * list Z) :=
  if decide (length cumulative = length deadlineProximityBuckets) then <[series_key l := (l, (fun v => Z.max v 0) <$> cumulative)]> s else s.
Definition collector_Delete (l : labels) (s : gmap string (labels * list Z)) : gmap string (labels * list Z) := delete (series_key l) s.

(** What [Collect] makes of a series. *)
Definition bucketCounts (cumulative : list Z) : list (Z * Z) := zip (bucket_ms <$> deadlineProximityBuckets) cumulative.
Definition total (cumulative : list Z) : Z := default 0 (last cumulative).
Fixpoint sum_from (prevBound prevCount sum : Q) (buckets : list (Z * Z)) : Q :=
  match buckets with
  | [] => sum
  | (bound, c) :: rest =>
      let bound := frnd (inject_Z bound) in
      let count := fsub64 (frnd (inject_Z c)) prevCount in
      sum_from bound (frnd (inject_Z c))
        (if Qlt_le_dec 0 count then fadd64 sum (fdiv64 (fmul64 count (fadd64 prevBound bound)) 2) else sum) rest
  end.
Definition estimatedSum (cumulative : list Z) : Q := sum_from 0 0 0 (bucketCounts cumulative).

Definition RemoveQueueSnapshots (l : labels) (g : Gauges) : Gauges :=
  mkGauges (delete l (ga_backlog g)) (delete l (ga_available g)) (delete l (ga_budget g)) (collector_Delete l (ga_series g)).

Definition stat_labels (s : QueueBacklogStat) : labels := (qs_QueueID s, qs_QueueName s, qs_PoolName s).
Definition report (g : Gauges) (s : QueueBacklogStat) : Gauges :=
  let l := stat_labels s in
  mkGauges (<[l := frnd (inject_Z (qs_Depth s))]> (ga_backlog g)) (<[l := qs_SourceAvailable s]> (ga_available g)) (ga_budget g)
    (match qs_ExpiringCounts s with Some counts => collector_Set l (ec_Count <$> counts) (ga_series g) | None => ga_series g end).

(** One poll: the gauges and the labels of the last poll that succeeded. *)
Definition poll (stats : list QueueBacklogStat) (err : option BacklogErr) (st : Gauges * gset labels) : Gauges * gset labels :=
  let g := foldl report st.1 stats in
  let current := list_to_set (stat_labels <$> stats) : gset labels in
  match err with
  | Some _ => (g, st.2)
  | None => (foldr RemoveQueueSnapshots g (elements (st.2 ∖ current)), current)
  end.

(** ** The counts are exact *)

(** The deadline of the request a member holds. *)
Definition deadline_of (member : string) : Z := from_option rm_Deadline 0 (unmarshal member ≫= ir_view).

(** A queue whose members are scored by their requests, as producers and the
    flow's retries score them. *)
Definition scored (zset : gmap string Q) : Prop := map_Forall (fun m s => exists ir,
  unmarshal m = Some ir /\ is_Some (ir_view ir) /\ QueueScore ir = Some s /\ 0 <= deadline_of m < 2 ^ 32) zset.

Definition due_within (t : Z) (zset : gmap string Q) : Z := Z.of_nat (size (filter (fun kv => deadline_of kv.1 <= t) zset)).

Lemma score_below d seq n : 0 <= d < 2 ^ 32 -> Qle_bool (inject_Z (n + 1)) (queueScore d seq) = false <-> d <= n.
Proof.
  intros Hd. rewrite <- not_true_iff_false, Qle_bool_iff. pose proof (clampSeq_bounds seq) as Hc.
  rewrite (queueScore_fraction d seq) by done. unfold Qle. simpl. change maxQueueScoreSeq with 2097151 in Hc. lia.
Qed.

Lemma zcount_exact zset n : scored zset -> zcount_below (n + 1) zset = due_within n zset.
Proof.
  intros Hs. unfold zcount_below, due_within. do 2 f_equal. apply map_filter_ext. intros m s Hm. simpl.
  destruct (Hs m s Hm) as (ir & Hu & [v Hv] & Hq & Hd). unfold deadline_of in *. rewrite Hu in *. cbn [mbind option_bind] in *.
  rewrite Hv in *. simpl in *. unfold ir_view, QueueScore in *. destruct (ir_Public ir) as [r|]; [|done]. simpl in Hv. rewrite Hv in Hq.
  simpl in Hq. injection Hq as <-. by apply score_below.
Qed.

Lemma due_within_mono t t' zset : t <= t' -> 0 <= due_within t zset <= due_within t' zset /\ due_within t' zset <= Z.of_nat (size zset).
Proof.
  intros Ht. unfold due_within. split; [split; [lia|]|]; apply Nat2Z.inj_le, map_subseteq_size; [|apply map_filter_subseteq].
  apply map_filter_subseteq_ext. intros m s _. simpl. lia.
Qed.

Lemma bucket_seconds_sorted : Sorted Z.le (bucket_seconds <$> deadlineProximityBuckets).
Proof. repeat constructor; done. Qed.

Lemma labels_length : length buildDeadlineProximityBucketLabels = length deadlineProximityBuckets.
Proof. apply length_fmap. Qed.

Lemma zip_counts {A : Type} (labels : list string) (f : A -> Z) (bs : list A) : length labels = length bs ->
  ec_Window <$> zip_with (fun l n => mkExpiring l (default 0 n)) labels ((fun b => Some (f b)) <$> bs) = labels /\
  ec_Count <$> zip_with (fun l n => mkExpiring l (default 0 n)) labels ((fun b => Some (f b)) <$> bs) = f <$> bs.
Proof.
  revert bs. induction labels as [|l labels IH]; intros [|b bs]; try done. intros [= Hl]. destruct (IH bs Hl) as [H1 H2].
  cbn. split; f_equal; done.
Qed.

(** The backlog of a queue is exact: with no failed read, its depth is the
    number of requests waiting in it, and the count of each bucket is the number
    of them whose deadline is at most that far away, although Redis only
    compares scores; the counts never decrease along the buckets and never
    exceed the depth. *)
Theorem backlog_exact r now snapshot :
  Forall (fun q => scored (pending (queue_at r q.1.2))) snapshot ->
  let '(stats, err) := QueueBacklog (backlog_read r now) snapshot in
  err = None /\
  Forall2 (fun q s => let zset := pending (queue_at r q.1.2) in
    stat_labels s = q /\ qs_Depth s = Z.of_nat (size zset) /\ qs_SourceAvailable s = true /\
    exists counts, qs_ExpiringCounts s = Some counts /\ ec_Window <$> counts = buildDeadlineProximityBucketLabels /\
      ec_Count <$> counts = (fun b => due_within (now + bucket_seconds b) zset) <$> deadlineProximityBuckets /\
      StronglySorted Z.le (ec_Count <$> counts) /\ Forall (fun n => 0 <= n <= qs_Depth s) (ec_Count <$> counts)) snapshot stats.
Proof.
  unfold QueueBacklog. induction 1 as [|[[id name] pool] l Hq _ [IH1 IH2]]; [by split|].
  cbn [fmap list_fmap]. cbn [fst snd] in Hq. set (zset := pending (queue_at r name)) in *.
  assert (backlog_stat buildDeadlineProximityBucketLabels (id, name, pool) (backlog_read r now name) =
    (mkStat id name pool (Z.of_nat (size zset)) true
       (Some (zip_with (fun l n => mkExpiring l (default 0 n)) buildDeadlineProximityBucketLabels
          ((fun b => Some (due_within (now + bucket_seconds b) zset)) <$> deadlineProximityBuckets))), None)) as E.
  { unfold backlog_read, backlog_stat. fold zset. rewrite bool_decide_false by (intros (b & Hb & _)%list_elem_of_fmap; done).
    do 4 f_equal. apply list_fmap_ext. intros _ b _. by rewrite zcount_exact. }
  cbn [fst snd]. rewrite E. cbn [fst snd omap list_omap]. split; [done|]. constructor; [|done].
  split_and!; [done..|]. eexists. split; [done|]. cbn [qs_Depth].
  destruct (zip_counts buildDeadlineProximityBucketLabels (fun b => due_within (now + bucket_seconds b) zset) deadlineProximityBuckets labels_length) as [Z1 Z2].
  split_and!; [done|done| |].
  - rewrite Z2. pose proof (Sorted_StronglySorted _ _ bucket_seconds_sorted) as Hs. revert Hs.
    generalize deadlineProximityBuckets. clear. induction l as [|b l IH]; intros Hs; [constructor|].
    cbn [fmap list_fmap] in *. apply StronglySorted_inv in Hs as [Hs Hb]. constructor; [by apply IH|].
    apply Forall_fmap. rewrite Forall_fmap in Hb. eapply Forall_impl; [exact Hb|]. intros b' Hle. simpl in *. apply due_within_mono. lia.
  - rewrite Z2. apply Forall_fmap, Forall_forall. intros b _. simpl. destruct (due_within_mono (now + bucket_seconds b) (now + bucket_seconds b) zset); lia.
Qed.

(** ** Gauges *)

(** What a poll leaves: the values of this poll for the queues it reports, a
    failed read included, and nothing of a queue the last good poll reported
    and this one, also good, does not. *)
Lemma report_other g s l : stat_labels s <> l -> ga_backlog (report g s) !! l = ga_backlog g !! l /\ ga_available (report g s) !! l = ga_available g !! l.
Proof. intros Hl. simpl. by rewrite !lookup_insert_ne. Qed.

Lemma reports stats g s : s ∈ stats -> NoDup (stat_labels <$> stats) ->
  ga_backlog (foldl report g stats) !! stat_labels s = Some (frnd (inject_Z (qs_Depth s))) /\
  ga_available (foldl report g stats) !! stat_labels s = Some (qs_SourceAvailable s).
Proof.
  revert g. induction stats as [|s0 stats IH]; intros g; [by intros ?%not_elem_of_nil|]. cbn [foldl fmap list_fmap]. rewrite NoDup_cons.
  intros [->|Hs]%elem_of_cons [Hn Hnd]; [|by apply IH].
  assert (forall l g, l ∉ stat_labels <$> stats -> ga_backlog (foldl report g stats) !! l = ga_backlog g !! l /\
    ga_available (foldl report g stats) !! l = ga_available g !! l) as Hother.
  { clear. induction stats as [|s stats IH]; intros l g Hl; [done|]. cbn [foldl fmap list_fmap] in *. apply not_elem_of_cons in Hl as [Hs Hl].
    destruct (IH l (report g s) Hl) as [-> ->]. by apply report_other. }
  destruct (Hother (stat_labels s0) (report g s0) Hn) as [-> ->]. simpl. by rewrite !lookup_insert_eq.
Qed.

Lemma removes ls g l : (l ∈ ls -> ga_backlog (foldr RemoveQueueSnapshots g ls) !! l = None /\ ga_available (foldr RemoveQueueSnapshots g ls) !! l = None) /\
  (l ∉ ls -> ga_backlog (foldr RemoveQueueSnapshots g ls) !! l = ga_backlog g !! l /\ ga_available (foldr RemoveQueueSnapshots g ls) !! l = ga_available g !! l).
Proof.
  induction ls as [|l0 ls [IH1 IH2]]; [split; [by intros ?%not_elem_of_nil|done]|]. cbn [foldr RemoveQueueSnapshots ga_backlog ga_available]. split.
  - intros [->|Hl]%elem_of_cons; [by rewrite !lookup_delete_eq|]. destruct (IH1 Hl) as [H1 H2].
    destruct (decide (l = l0)) as [->|]; [by rewrite !lookup_delete_eq|by rewrite !lookup_delete_ne].
  - intros [Hne Hl]%not_elem_of_cons. rewrite !lookup_delete_ne by done. by apply IH2.
Qed.

Theorem poll_reports stats err g previous : NoDup (stat_labels <$> stats) ->
  let '(g', previous') := poll stats err (g, previous) in
  (forall s, s ∈ stats -> ga_backlog g' !! stat_labels s = Some (frnd (inject_Z (qs_Depth s))) /\
     ga_available g' !! stat_labels s = Some (qs_SourceAvailable s)) /\
  (err = None -> previous' = list_to_set (stat_labels <$> stats) /\
     forall l, l ∈ previous -> l ∉ stat_labels <$> stats -> ga_backlog g' !! l = None /\ ga_available g' !! l = None).
Proof.
  intros Hnd. unfold poll. destruct err as [e|]; cbn [fst snd].
  - split; [|done]. intros s Hs. by apply reports.
  - split.
    + intros s Hs. destruct (removes (elements (previous ∖ list_to_set (stat_labels <$> stats))) (foldl report g stats) (stat_labels s)) as [_ Ho].
      destruct Ho as [-> ->]; [|by apply reports]. rewrite elem_of_elements, elem_of_difference, elem_of_list_to_set. intros [_ Hn]. apply Hn.
      by apply list_elem_of_fmap_2.
    + intros _. split; [done|]. intros l Hl Hn. apply removes. rewrite elem_of_elements, elem_of_difference, elem_of_list_to_set. done.
Qed.

Definition w_backlog_message : RequestMessage := mkRequestMessage "r1" 0 100 RawNil ∅ ∅ "" "".
Lemma backlog_exact_witness : exists r, size (pending (queue_at r "q")) = 1%nat /\ (QueueBacklog (backlog_read r 90) [("i", "q", "p")]).2 = None /\
  qs_Depth <$> (QueueBacklog (backlog_read r 90) [("i", "q", "p")]).1 = [1].
Proof.
  destruct (wire_decodes (mkInternalRequest zeroRouting (Some (PlainRequest (Some w_backlog_message))) 0) (PlainRequest (Some w_backlog_message)) eq_refl)
    as (m & _ & Hm); [split; try done; try apply map_Forall_empty; by exists "null"|split; try done; apply map_Forall_empty|].
  exists (mkRedis {["q" := mkQueueKeys {[m := queueScore 100 0]} ∅ ∅ ∅]} ∅ ∅ ∅ ∅). split; [apply map_size_singleton|].
  set (r := mkRedis _ _ _ _ _). pose proof (backlog_exact r 90 [("i", "q", "p")]) as H.
  destruct (QueueBacklog (backlog_read r 90) [("i", "q", "p")]) as [stats err]. destruct H as [H1 H2].
  - constructor; [|constructor]. change (pending (queue_at r "q")) with ({[m := queueScore 100 0]} : gmap string Q). apply map_Forall_singleton.
    eexists. split; [exact Hm|]. split; [by eexists|]. split; [reflexivity|]. unfold deadline_of. rewrite Hm. done.
  - split; [exact H1|]. inversion H2 as [|q s l l' (_ & Hd & _) Hnil]; subst. inversion Hnil; subst. transitivity [qs_Depth s]; [reflexivity|]. rewrite Hd. f_equal.
    apply (f_equal Z.of_nat (y := 1%nat)), (map_size_singleton (M := gmap string) m (queueScore 100 0)).
Defined.
