(* ===== verification/RateGate.v ===== *)
(** * Leased rates in Redis

    pkg/redis/leased_rate_gate.go: the pool-wide token bucket that an external
    controller sets the rate of, with its script and its bounds. *)
From stdpp Require Import prelude gmap strings list.
From Stdlib Require Import ZArith QArith Qround Qminmax Lqa Lia.
From S2P Require Import Prelude Json Rounding Api Gates.

#[local] Open Scope Z_scope.

(** ** The leased rate gate *)

(** The control hash, and the state hash: tokens, the time of its last update
    and when it expires, in milliseconds. *)
Record RateState : Type := mkRateState {
  rs_command : gmap string string;
  rs_bucket : option (Q * Z * Z)
}.

(** A reply of the script: allowed, lease valid, rate, valid until. *)
Record RateReply : Type := mkRateReply {
  rp_allowed : Z;
  rp_leaseValid : Z;
  rp_rate : Q;
  rp_validUntil : Z
}.
Definition refusal : RateReply := mkRateReply 0 0 0 0.

Record RedisLeasedRateGate : Type := mkLeasedGate {
  lg_controlKey : string;
  lg_stateKey : string;
  lg_poolID : string;
  lg_burstSeconds : float64
}.

Definition NewRedisLeasedRateGate (controlKey stateKey poolID : string) (burstSeconds : float64) : RedisLeasedRateGate :=
  mkLeasedGate controlKey (if decide (stateKey = "") then controlKey +:+ ":state" else stateKey) poolID burstSeconds.

Definition command_fields : list string := ["api_version"; "pool_id"; "max_admission_rps"; "valid_until_unix_ms"; "decision_id"].

Section script.

(** Lua's [tonumber] on a string, and a number written with [tostring] and read
    back with [tonumber]: fourteen significant digits. *)
Context (tonumber : string -> option float64) (stored : Q -> Q).

Definition finite (f : option float64) : option Q := match f with Some (Fin q) => Some q | _ => None end.
Definition is_integer (q : Q) : bool := Qeq_bool (inject_Z (Qfloor q)) q.

(** The rate, the lease and the burst, when the command is one for this pool. *)
Definition read_command (wall : Z) (g : RedisLeasedRateGate) (command : gmap string string) : option (Q * Z * Q) :=
  let field f := v ← command !! f; if decide (v = "") then None else Some v in
  version ← field "api_version"; pool ← field "pool_id"; rate ← field "max_admission_rps"; until ← field "valid_until_unix_ms";
  _ ← field "decision_id";
  if decide (version = DispatchRateLimitAPIVersion /\ pool = lg_poolID g) then
    rate ← finite (tonumber rate); until ← finite (tonumber until); burst ← finite (Some (lg_burstSeconds g));
    if negb (Qle_bool 0 rate) || negb (is_integer until) || Qle_bool until (inject_Z wall) || Qle_bool burst 0 then None
    else Some (rate, Qfloor until, burst)
  else None.

(** [math.huge]: nothing of 2^1024 and more is finite. *)
Definition capacity_of (rate burst : Q) : option Q :=
  let requested := fmul64 rate burst in
  if Qle_bool (inject_Z (2 ^ 1024)) requested then None else Some (Qmax 1 requested).

(** The bucket before this request: refilled, or full when it expired. *)
Definition refill (wall : Z) (rate capacity : Q) (bucket : option (Q * Z * Z)) : Q * Z :=
  match bucket with
  | Some (tokens, last, expires) =>
      if expires <=? wall then (capacity, wall)
      else
        let now := if wall <? last then last else wall in
        (Qmin capacity (fadd64 tokens (fmul64 (fdiv64 (inject_Z (now - last)) 1000) rate)), now)
  | None => (capacity, wall)
  end.

Definition leasedRateAcquireScript (wall : Z) (g : RedisLeasedRateGate) (s : RateState) : RateReply * RateState :=
  match read_command wall g (rs_command s) with
  | None => (refusal, s)
  | Some (rate, until, burst) =>
      if Qeq_bool rate 0 then (mkRateReply 0 1 0 until, s)
      else match capacity_of rate burst with
      | None => (refusal, s)
      | Some capacity =>
          let '(tokens, now) := refill wall rate capacity (rs_bucket s) in
          let '(allowed, tokens) := if Qle_bool 1 tokens then (1, fsub64 tokens 1) else (0, tokens) in
          (mkRateReply allowed 1 rate until,
           mkRateState (rs_command s) (Some (stored tokens, now, wall + Z.max 1000 (until - wall + 1000))))
      end
  end.

End script.

(** The gate: [Apply] from the script's reply, [Budget] from the command as Go
    reads it. *)
Section gate.
Context (ParseFloat : string -> option float64) (ParseInt : string -> option Z).

(** A value of a reply: an integer, or a text (of a bulk string, or the one
    [fmt.Sprint] makes). *)
Inductive reply_value : Type :=
| RInt (n : Z)
| RText (s : string).
Definition Sprint (v : reply_value) : string := match v with RInt n => itoa n | RText s => s end.

Definition resultInt64 (v : reply_value) : option Z := match v with RInt n => Some n | RText s => ParseInt s end.

(** [None]: an error, or a reply that is not an array. *)
Definition parseLeasedRateResult (raw : option (list reply_value)) : option (bool * bool * float64 * Z) :=
  match raw with
  | Some [a; b; c; d] =>
      allowed ← resultInt64 a; valid ← resultInt64 b; rate ← ParseFloat (Sprint c);
      if isNaN rate || isInf rate then None else until ← resultInt64 d; Some (allowed =? 1, valid =? 1, rate, until)
  | _ => None
  end.

(** [None]: the call failed. *)
Definition apply_leased (result : option (list reply_value)) : Verdict :=
  match parseLeasedRateResult result with
  | Some (true, _, _, _) => Continue
  | _ => Refuse
  end.

Inductive LimitErr : Type :=
| ErrMissing
| ErrRate
| ErrUntil
| ErrCommand (e : RateLimitErr)
| ErrPool.

Definition readLimit (now : Z) (g : RedisLeasedRateGate) (command : gmap string string) : Res LimitErr DispatchRateLimit :=
  match command !! "api_version", command !! "pool_id", command !! "max_admission_rps", command !! "valid_until_unix_ms", command !! "decision_id" with
  | Some version, Some pool, Some rate, Some until, Some decision =>
      match ParseFloat rate with
      | None => Err ErrRate
      | Some rate =>
          match ParseInt until with
          | None => Err ErrUntil
          | Some until =>
              let limit := mkDispatchRateLimit version pool rate until decision in
              match ValidateAt limit now with
              | Err e => Err (ErrCommand e)
              | Ok _ => if decide (pool = lg_poolID g) then Ok limit else Err ErrPool
              end
          end
      end
  | _, _, _, _, _ => Err ErrMissing
  end.

Definition leased_budget (now : Z) (g : RedisLeasedRateGate) (command : option (gmap string string)) : float64 :=
  match command with
  | None => Fin 0
  | Some c =>
      match readLimit now g c with
      | Err _ => Fin 0
      | Ok limit => if feq (drl_MaxAdmissionRPS limit) (Fin 0) then Fin 0 else Fin 1
      end
  end.
End gate.

(** ** The rate ceiling *)
Section ceiling.
Context (tonumber : string -> option float64) (stored : Q -> Q).
(** [tostring] keeps fourteen significant digits. *)
Context (stored_near : forall q, (0 <= q)%Q -> (0 <= stored q <= q + q * (1 # 10 ^ 13))%Q).
Context (g : RedisLeasedRateGate) (rate capacity : Q).

(** A request: the server's time, and the command in force. *)
Record rate_run : Type := mkRun { run_wall : Z; run_command : gmap string string }.
Definition run_script (x : rate_run) (s : RateState) : RateReply * RateState :=
  leasedRateAcquireScript tonumber stored (run_wall x) g (mkRateState (run_command x) (rs_bucket s)).

Fixpoint admitted (xs : list rate_run) (s : RateState) : Z :=
  match xs with
  | [] => 0
  | x :: rest => let '(r, s') := run_script x s in rp_allowed r + admitted rest s'
  end.
Fixpoint after (xs : list rate_run) (s : RateState) : RateState :=
  match xs with [] => s | x :: rest => after rest (run_script x s).2 end.

(** The command sets this rate and capacity, or is not one in force. *)
Definition sets_rate (x : rate_run) : Prop :=
  match read_command tonumber (run_wall x) g (run_command x) with
  | Some (r, _, b) => r = rate /\ capacity_of rate b = Some capacity
  | None => True
  end.

Context (Hrate : (1 <= rate)%Q) (Hcap : (capacity <= rate)%Q).

Lemma capacity_pos b : capacity_of rate b = Some capacity -> (1 <= capacity)%Q.
Proof. unfold capacity_of. destruct (Qle_bool _ _); [done|]. intros [= <-]. apply Q.le_max_l. Qed.

Definition earned (ms : Z) : Q := inject_Z ms / 1000 * rate.

(** What one request adds at most, of rounding. *)
Definition slack : Q := capacity * (1 # 10 ^ 12).

Lemma gain_bounds dt : 0 <= dt -> (0 <= fmul64 (fdiv64 (inject_Z dt) 1000) rate <= earned dt + earned dt * (1 # 10 ^ 12))%Q.
Proof.
  intros Hdt. unfold earned. assert (0 <= inject_Z dt / 1000)%Q as H0.
  { apply Qle_shift_div_l; [done|]. rewrite Qmult_0_l. change 0%Q with (inject_Z 0). by rewrite <- Zle_Qle. }
  set (x := (inject_Z dt / 1000)%Q) in *. pose proof (frnd_bounds x H0) as [A1 A2]. fold (fdiv64 (inject_Z dt) 1000) in *.
  unfold fdiv64. fold x. assert (0 <= frnd x)%Q as H1 by by apply frnd_nonneg.
  assert (0 <= frnd x * rate)%Q as H2 by (apply Qmult_le_0_compat; lra).
  pose proof (frnd_bounds _ H2) as [B1 B2]. unfold fmul64. split; [by apply frnd_nonneg|].
  assert (frnd x * rate <= (x + x * ulp) * rate)%Q as H3 by (apply Qmult_le_compat_r; lra).
  assert (0 <= x * rate)%Q as H4 by (apply Qmult_le_0_compat; lra).
  unfold ulp in *. set (y := (frnd x * rate)%Q) in *. assert (y <= x * rate + x * rate * (1 # 9007199254740992))%Q by lra.
  change (10 ^ 12)%positive with 1000000000000%positive. lra.
Qed.

(** A bucket the script left: not negative, and kept at least a second. *)
Definition bucket_ok (s : RateState) : Prop :=
  match rs_bucket s with
  | Some (tokens, last, expires) => (0 <= tokens)%Q /\ last + 1000 <= expires
  | None => True
  end.
Definition not_after (s : RateState) (t : Z) : Prop :=
  match rs_bucket s with Some (_, last, _) => last <= t | None => True end.

Lemma refill_nonneg w s b :
  capacity_of rate b = Some capacity -> bucket_ok s -> not_after s w -> (0 <= (refill w rate capacity (rs_bucket s)).1 <= capacity)%Q.
Proof.
  intros Hc%capacity_pos Hok Hn. unfold bucket_ok, not_after, refill in *.
  destruct (rs_bucket s) as [[[tok last] ex]|]; simpl; [|lra]. destruct Hok as [H0 _].
  destruct (_ <=? _); simpl; [lra|]. rewrite (proj2 (Z.ltb_ge w last) Hn). split; [|apply Q.le_min_l].
  apply Q.min_glb; [lra|]. apply frnd_nonneg. pose proof (gain_bounds (w - last) ltac:(lia)). lra.
Qed.

Lemma refill_now w s : not_after s w -> (refill w rate capacity (rs_bucket s)).2 = w.
Proof.
  unfold not_after, refill. destruct (rs_bucket s) as [[[tok last] ex]|]; [|done]. intros H. destruct (_ <=? _); [done|].
  by rewrite (proj2 (Z.ltb_ge w last) H).
Qed.

Lemma refill_gain w s b tok last ex :
  capacity_of rate b = Some capacity -> bucket_ok s -> rs_bucket s = Some (tok, last, ex) -> last <= w ->
  ((refill w rate capacity (rs_bucket s)).1
     <= tok + earned (w - last) + earned (w - last) * (1 # 10 ^ 12) + capacity * 2 * ulp)%Q.
Proof.
  intros Hc%capacity_pos Hok Hb Hw. unfold bucket_ok in Hok. rewrite Hb in Hok |- *. destruct Hok as [H0 He].
  pose proof (gain_bounds (w - last) ltac:(lia)) as [G0 G1]. set (gain := fmul64 _ _) in *.
  assert (0 <= earned (w - last))%Q as E0.
  { unfold earned. apply Qmult_le_0_compat; [|lra]. apply Qle_shift_div_l; [done|].
    rewrite Qmult_0_l. change 0%Q with (inject_Z 0). rewrite <- Zle_Qle. lia. }
  change (10 ^ 12)%positive with 1000000000000%positive in *. unfold ulp. unfold refill.
  destruct (Z.leb_spec ex w); cbn [fst].
  - assert (rate <= earned (w - last))%Q; [|lra]. unfold earned. rewrite <- (Qmult_1_l rate) at 1.
    apply Qmult_le_compat_r; [|lra]. apply Qle_shift_div_l; [done|]. change (1 * 1000)%Q with (inject_Z 1000). rewrite <- Zle_Qle. lia.
  - rewrite (proj2 (Z.ltb_ge w last) Hw). cbn [fst]. fold gain. destruct (Qlt_le_dec (2 * capacity) (tok + gain)) as [Hl|Hl].
    + pose proof (Q.le_min_l capacity (fadd64 tok gain)). lra.
    + pose proof (Q.le_min_r capacity (fadd64 tok gain)). unfold fadd64 in *.
      pose proof (frnd_bounds (tok + gain) ltac:(lra)) as [_ B]. unfold ulp in B. lra.
Qed.

(** What the script leaves of [t] tokens. *)
Lemma spend_bound t :
  (1 <= capacity)%Q -> (0 <= t <= capacity)%Q ->
  let '(allowed, rest) := if Qle_bool 1 t then (1, fsub64 t 1) else (0, t) in
  (0 <= stored rest /\ inject_Z allowed + stored rest <= t + capacity * (ulp + 2 * (1 # 10 ^ 13)))%Q.
Proof.
  intros Hc [H0 Ht]. unfold ulp.
  destruct (Qle_bool 1 t) eqn:E.
  - apply Qle_bool_iff in E. unfold fsub64. pose proof (frnd_bounds (t - 1) ltac:(lra)) as [_ B]. unfold ulp in B.
    pose proof (stored_near (frnd (t - 1)) (frnd_nonneg (t - 1) ltac:(lra))) as [S0 S1].
    change (10 ^ 13)%positive with 10000000000000%positive in *. split; [done|]. change (inject_Z 1) with 1%Q. lra.
  - pose proof (stored_near t H0) as [S0 S1]. change (10 ^ 13)%positive with 10000000000000%positive in *.
    split; [done|]. change (inject_Z 0) with 0%Q. lra.
Qed.

(** One request: the bucket stands, or is spent from. *)
Lemma run_step x s :
  sets_rate x -> bucket_ok s -> not_after s (run_wall x) ->
  let '(r, s') := run_script x s in
  bucket_ok s' /\
  (rp_allowed r = 0 /\ rs_bucket s' = rs_bucket s \/
   exists b tok ex, capacity_of rate b = Some capacity /\ rs_bucket s' = Some (tok, run_wall x, ex) /\
     (inject_Z (rp_allowed r) + tok
        <= (refill (run_wall x) rate capacity (rs_bucket s)).1 + capacity * (ulp + 2 * (1 # 10 ^ 13)))%Q).
Proof.
  intros Hs Hok Hn. unfold run_script, leasedRateAcquireScript, sets_rate in *. cbn [rs_command rs_bucket].
  destruct (read_command _ _ _ _) as [[[r until] b]|]; [|by auto]. destruct Hs as [-> Hc].
  destruct (Qeq_bool rate 0); [by auto|]. rewrite Hc.
  pose proof (refill_nonneg _ _ _ Hc Hok Hn) as Hr. pose proof (refill_now _ _ Hn) as Hw.
  destruct (refill _ _ _ _) as [t w]. cbn [fst snd] in *. subst w. pose proof (spend_bound t (capacity_pos _ Hc) Hr) as Hb.
  destruct (if Qle_bool 1 t then _ else _) as [a l]. destruct Hb as [B0 B1].
  split; [split; [done|lia]|]. right. exists b, (stored l), (run_wall x + Z.max 1000 (until - run_wall x + 1000)). auto.
Qed.

Lemma slack_covers : (1 <= capacity)%Q -> (capacity * (ulp + 2 * (1 # 10 ^ 13)) + capacity * 2 * ulp <= slack)%Q.
Proof.
  intros Hc. unfold slack, ulp. change (10 ^ 12)%positive with 1000000000000%positive.
  change (10 ^ 13)%positive with 10000000000000%positive. lra.
Qed.

Lemma earned_split a b c : (earned (c - a) == earned (b - a) + earned (c - b))%Q.
Proof. unfold earned. replace (c - a) with ((b - a) + (c - b)) by lia. rewrite inject_Z_plus. field. Qed.

Lemma earned_mono a b : a <= b -> (earned a <= earned b)%Q.
Proof.
  intros H. unfold earned. apply Qmult_le_compat_r; [|lra]. apply Qmult_le_compat_r; [by rewrite <- Zle_Qle|].
  apply Qinv_le_0_compat. lra.
Qed.

(** Requests in order, the last by [T]. *)
Fixpoint runs_in (t T : Z) (xs : list rate_run) : Prop :=
  match xs with
  | [] => True
  | x :: rest => t <= run_wall x <= T /\ runs_in (run_wall x) T rest
  end.

(** From a bucket of [tok] tokens at [last]. *)
Lemma admitted_from xs s tok last ex T :
  Forall sets_rate xs -> bucket_ok s -> rs_bucket s = Some (tok, last, ex) -> last <= T -> runs_in last T xs -> (0 <= slack)%Q ->
  (inject_Z (admitted xs s)
     <= tok + earned (T - last) + earned (T - last) * (1 # 10 ^ 12) + inject_Z (Z.of_nat (length xs)) * slack)%Q.
Proof.
  intros Hs. revert s tok last ex. induction Hs as [|x xs Hx Hs IH]; intros s tok last ex Hok Hb HT Hin Hsl.
  - cbn [admitted length]. unfold bucket_ok in Hok. rewrite Hb in Hok. pose proof (earned_mono 0 (T - last) ltac:(lia)) as He.
    unfold earned at 1 in He. change (inject_Z 0 / 1000 * rate)%Q with (0 * / 1000 * rate)%Q in He. 
    change (10 ^ 12)%positive with 1000000000000%positive. change (inject_Z (Z.of_nat 0)) with 0%Q. change (inject_Z 0) with 0%Q. lra.
  - destruct Hin as [[H1 H2] Hin]. assert (not_after s (run_wall x)) as Hn by (unfold not_after; by rewrite Hb).
    pose proof (run_step x s Hx Hok Hn) as Hstep. cbn [admitted]. destruct (run_script x s) as [r s'] eqn:Er.
    destruct Hstep as [Hok' Hcase]. rewrite inject_Z_plus. cbn [length]. rewrite Nat2Z.inj_succ, <- Z.add_1_r, inject_Z_plus.
    change (inject_Z 1) with 1%Q. set (n := inject_Z (Z.of_nat (length xs))) in *.
    destruct Hcase as [[Ha Hb']|(b & tok' & ex' & Hc & Hb' & Hle)].
    + rewrite Hb in Hb'. rewrite Ha. change (inject_Z 0) with 0%Q.
      assert (runs_in last T xs) as Hin' by (destruct xs; simpl in *; [done|]; destruct Hin as [? ?]; split; [lia|done]).
      specialize (IH s' tok last ex Hok' Hb' HT Hin' Hsl). lra.
    + specialize (IH s' tok' (run_wall x) ex' Hok' Hb' H2 Hin Hsl).
      pose proof (refill_gain _ _ _ _ _ _ Hc Hok Hb H1) as Hg. pose proof (slack_covers (capacity_pos _ Hc)) as Hcov.
      pose proof (earned_split last (run_wall x) T) as He. rewrite He. change (10 ^ 12)%positive with 1000000000000%positive in *. lra.
Qed.

(** From any bucket: what it holds at the first request counts once. *)
Lemma admitted_window xs s t0 T :
  Forall sets_rate xs -> bucket_ok s -> not_after s t0 -> t0 <= T -> runs_in t0 T xs -> (1 <= capacity)%Q ->
  (inject_Z (admitted xs s)
     <= capacity + earned (T - t0) + earned (T - t0) * (1 # 10 ^ 12) + inject_Z (Z.of_nat (length xs)) * slack)%Q.
Proof.
  intros Hs. revert s t0. induction Hs as [|x xs Hx Hs IH]; intros s t0 Hok Hn HT Hin Hc;
    pose proof (earned_mono 0 (T - t0) ltac:(lia)) as He; unfold earned at 1 in He;
    change (inject_Z 0 / 1000 * rate)%Q with (0 * / 1000 * rate)%Q in He;
    assert (0 <= slack)%Q as Hsl by (unfold slack; change (10 ^ 12)%positive with 1000000000000%positive; lra).
  - cbn [admitted length]. change (10 ^ 12)%positive with 1000000000000%positive.
    change (inject_Z (Z.of_nat 0)) with 0%Q. change (inject_Z 0) with 0%Q. lra.
  - destruct Hin as [[H1 H2] Hin]. assert (not_after s (run_wall x)) as Hn'.
    { unfold not_after in *. destruct (rs_bucket s) as [[[? ?] ?]|]; [lia|done]. }
    pose proof (run_step x s Hx Hok Hn') as Hstep. cbn [admitted]. destruct (run_script x s) as [r s'] eqn:Er.
    destruct Hstep as [Hok' Hcase]. rewrite inject_Z_plus. cbn [length]. rewrite Nat2Z.inj_succ, <- Z.add_1_r, inject_Z_plus.
    change (inject_Z 1) with 1%Q. set (n := inject_Z (Z.of_nat (length xs))) in *.
    destruct Hcase as [[Ha Hb']|(b & tok' & ex' & Hcb & Hb' & Hle)].
    + rewrite Ha. change (inject_Z 0) with 0%Q.
      assert (runs_in t0 T xs) as Hin' by (destruct xs; simpl in *; [done|]; destruct Hin as [? ?]; split; [lia|done]).
      assert (not_after s' t0) as Hn2 by (unfold not_after in *; by rewrite Hb').
      specialize (IH s' t0 Hok' Hn2 HT Hin' Hc). lra.
    + pose proof (admitted_from _ _ _ _ _ T Hs Hok' Hb' H2 Hin Hsl) as Hf. fold n in Hf.
      pose proof (refill_nonneg _ _ _ Hcb Hok Hn') as [_ Hr]. pose proof (slack_covers Hc) as Hcov.
      pose proof (earned_mono (T - run_wall x) (T - t0) ltac:(lia)) as Hm. unfold ulp in *.
      change (10 ^ 12)%positive with 1000000000000%positive in *. lra.
Qed.

Lemma after_ok xs s t0 T :
  Forall sets_rate xs -> bucket_ok s -> not_after s t0 -> t0 <= T -> runs_in t0 T xs -> bucket_ok (after xs s) /\ not_after (after xs s) T.
Proof.
  intros Hs. revert s t0. induction Hs as [|x xs Hx Hs IH]; intros s t0 Hok Hn HT Hin.
  { split; [done|]. unfold not_after in *. simpl. destruct (rs_bucket s) as [[[? ?] ?]|]; [lia|done]. }
  destruct Hin as [[H1 H2] Hin]. assert (not_after s (run_wall x)) as Hn'.
  { unfold not_after in *. destruct (rs_bucket s) as [[[? ?] ?]|]; [lia|done]. }
  pose proof (run_step x s Hx Hok Hn') as Hstep. cbn [after]. destruct (run_script x s) as [r s'] eqn:Er.
  destruct Hstep as [Hok' Hcase]. apply (IH s' (run_wall x)); [done| |done|done].
  destruct Hcase as [[_ Hb]|(b & tok & ex & _ & Hb & _)]; unfold not_after in *; rewrite Hb; [done|lia].
Qed.

(** C28. While a pool's command sets a rate of at least one request a second
    and a burst of at most a second of it, the requests that any number of
    gates admit in any window from [t0] to [T] are at most the burst and what
    the rate earns in the window, but for the rounding of the script's floating
    point numbers: of order 10^-12 of the earning, and of the burst for each
    request.  The commands may be renewed, expire or be withdrawn in between,
    and the bucket may expire. *)
Theorem rate_ceiling before window t t0 T command :
  (1 <= capacity)%Q -> Forall sets_rate (before ++ window) -> t <= t0 <= T -> runs_in t t0 before -> runs_in t0 T window ->
  (inject_Z (admitted window (after before (mkRateState command None)))
     <= capacity + earned (T - t0) + earned (T - t0) * (1 # 10 ^ 12) + inject_Z (Z.of_nat (length window)) * slack)%Q.
Proof.
  intros Hc [Hb Hw]%Forall_app [H1 H2] Hin1 Hin2.
  destruct (after_ok before (mkRateState command None) t t0) as [Hok Hn]; [done..|]. by apply admitted_window.
Qed.
End ceiling.

(** Below one request a second the ceiling does not hold: the bucket is
    kept a second past the lease, so once a command has lapsed for a second the
    next one in force starts from a full bucket, and admits a request however
    little the rate has earned. *)
Theorem lapsed_lease_refills tonumber stored g x y s rate until rate' until' burst burst' :
  read_command tonumber (run_wall x) g (run_command x) = Some (rate, until, burst) ->
  read_command tonumber (run_wall y) g (run_command y) = Some (rate', until', burst') ->
  is_Some (capacity_of rate burst) -> is_Some (capacity_of rate' burst') -> Qeq_bool rate 0 = false -> Qeq_bool rate' 0 = false ->
  rs_bucket s = None -> run_wall x < until -> until + 1000 <= run_wall y -> admitted tonumber stored g [x; y] s = 2.
Proof.
  intros Hx Hy [c Hc] [c' Hc'] Hr Hr' Hb Hu Hw. pose proof Hc as Hc1. pose proof Hc' as Hc1'.
  unfold admitted, run_script, leasedRateAcquireScript. cbn [rs_command rs_bucket]. rewrite Hx, Hy, Hr, Hr', Hc, Hc', Hb.
  cbn [refill]. assert (forall r b k, capacity_of r b = Some k -> Qle_bool 1 k = true) as Hp.
  { intros r b k. unfold capacity_of. destruct (Qle_bool (inject_Z _) _); [done|]. intros [= <-]. apply Qle_bool_iff, Q.le_max_l. }
  rewrite (Hp _ _ _ Hc). cbn [rp_allowed rs_bucket refill].
  replace (_ <=? run_wall y) with true by (symmetry; apply Z.leb_le; lia). rewrite (Hp _ _ _ Hc'). done.
Qed.

(** ** Concrete commands *)
#[local] Open Scope string_scope.
#[local] Open Scope list_scope.
Definition w_tonumber (s : string) : option float64 :=
  if decide (s = "2") then Some (Fin 2) else if decide (s = "0.01") then Some (Fin (frnd (1 # 100)))
  else if decide (s = "5000") then Some (Fin 5000) else if decide (s = "9000") then Some (Fin 9000) else None.
Definition w_command (rate until : string) : gmap string string :=
  <["api_version" := DispatchRateLimitAPIVersion]> (<["pool_id" := "p"]> (<["max_admission_rps" := rate]>
    (<["valid_until_unix_ms" := until]> (<["decision_id" := "d"]> ∅)))).
Definition w_gate : RedisLeasedRateGate := NewRedisLeasedRateGate "control" "" "p" (Fin 1).

Definition w_capacity : Q := Qmax 1 (fmul64 2 1).

Lemma rate_ceiling_witness :
  (inject_Z (admitted w_tonumber (fun q => q) w_gate [mkRun 1000 (w_command "2" "5000"); mkRun 1000 (w_command "2" "5000"); mkRun 1500 (w_command "2" "9000")]
     (after w_tonumber (fun q => q) w_gate [mkRun 10 (w_command "2" "5000")] (mkRateState ∅ None)))
     <= w_capacity + earned 2 (1500 - 1000) + earned 2 (1500 - 1000) * (1 # 10 ^ 12) + inject_Z (Z.of_nat 3) * slack w_capacity)%Q.
Proof.
  apply (rate_ceiling w_tonumber (fun q => q)) with (g := w_gate) (rate := 2%Q) (capacity := w_capacity) (t := 0)
    (before := [mkRun 10 (w_command "2" "5000")]) (t0 := 1000) (T := 1500)
    (window := [mkRun 1000 (w_command "2" "5000"); mkRun 1000 (w_command "2" "5000"); mkRun 1500 (w_command "2" "9000")]);
    [|done|by vm_compute|by vm_compute|repeat apply Forall_cons_2; try done; split; reflexivity|lia|simpl; lia|simpl; lia].
  intros q Hq. change (10 ^ 13)%positive with 10000000000000%positive. lra.
Defined.

Lemma lapsed_lease_refills_witness :
  admitted w_tonumber (fun q => q) w_gate [mkRun 10 (w_command "0.01" "5000"); mkRun 6000 (w_command "0.01" "9000")] (mkRateState ∅ None) = 2.
Proof.
  eapply lapsed_lease_refills with (until := 5000) (rate := frnd (1 # 100)) (rate' := frnd (1 # 100)) (burst := 1%Q) (burst' := 1%Q)
    (until' := 9000); try reflexivity; try (by eexists); try (cbn; lia).
Defined.
