(* ===== verification/RedisQuota.v ===== *)
(** * The quota counters in Redis

    pkg/redis/quota_store.go: the concurrency counter, a key that expires when
    it is left alone, and the sliding window, a sorted set of the times of the
    admissions.  The scripts run at the server's time, in milliseconds; the
    window's times are the dispatchers' own, in nanoseconds. *)
From Stdlib Require Import ZArith QArith Qround Lqa Lia.
From stdpp Require Import prelude gmap strings list sorting gmultiset.
From S2P Require Import Prelude Rounding.

#[local] Open Scope Z_scope.

(** The counters and the windows, each with the time it expires.  A window's
    members are the decimal times, and their scores the same. *)
Record QuotaKeys : Type := mkQuotaKeys {
  qk_slots : gmap string (Z * Z);
  qk_windows : gmap string (gset Z * Z)
}.
#[global] Instance qk_empty : Empty QuotaKeys := mkQuotaKeys ∅ ∅.

Definition live {A : Type} (t : Z) (v : option (A * Z)) : option A :=
  match v with Some (a, expires) => if expires <=? t then None else Some a | None => None end.

(** [int(d.Seconds())] of a duration that is not negative. *)
Definition Seconds (d : Z) : Q :=
  fadd64 (inject_Z (Z.quot d (10 ^ 9))) (fdiv64 (inject_Z (Z.rem d (10 ^ 9))) (inject_Z (10 ^ 9))).
Definition int_seconds (d : Z) : Z := if d <? 0 then - Qfloor (Seconds (- d)) else Qfloor (Seconds d).

(** ** Concurrency *)
Definition slot_ttl (slotTTL : Z) : Z := let ttl := int_seconds slotTTL in if ttl <=? 0 then 300 else ttl.

Definition acquire_script (t : Z) (key : string) (limit ttl : Z) (s : QuotaKeys) : QuotaKeys * Z :=
  let current := live t (qk_slots s !! key) in
  match current with
  | Some n => if limit <=? n then (s, 0) else (mkQuotaKeys (<[key := (n + 1, t + ttl * 1000)]> (qk_slots s)) (qk_windows s), 1)
  | None => (mkQuotaKeys (<[key := (1, t + ttl * 1000)]> (qk_slots s)) (qk_windows s), 1)
  end.

Definition release_script (t : Z) (key : string) (ttl : Z) (s : QuotaKeys) : QuotaKeys * Z :=
  match qk_slots s !! key with
  | Some (n, expires) =>
      if expires <=? t then (s, -1)
      else if n <=? 0 then (s, -1)
      else (mkQuotaKeys (<[key := (n - 1, if 0 <? n - 1 then t + ttl * 1000 else expires)]> (qk_slots s)) (qk_windows s), n - 1)
  | None => (s, -1)
  end.

(** A call: it runs, is lost, or runs and its reply is lost. *)
Definition eval {A : Type} (f : fault) (q : QuotaKeys -> QuotaKeys * A) (s : QuotaKeys) : QuotaKeys * Res unit A :=
  match f with
  | FNone => let '(s', a) := q s in (s', Ok a)
  | FLost => (s, Err tt)
  | FReply => ((q s).1, Err tt)
  end.

(** The release function is the key it returns a slot of. *)
Definition AcquireSlot (slotTTL : Z) (f : fault) (t : Z) (key : string) (limit : Z) (s : QuotaKeys) : QuotaKeys * Res unit (option string) :=
  let '(s', r) := eval f (acquire_script t key limit (slot_ttl slotTTL)) s in
  (s', match r with Err e => Err e | Ok n => Ok (if n =? 0 then None else Some key) end).

Definition releaseSlot (slotTTL : Z) (f : fault) (t : Z) (key : string) (s : QuotaKeys) : QuotaKeys * Res unit Z :=
  eval f (release_script t key (slot_ttl slotTTL)) s.

(** ** Rate *)
Definition score (n : Z) : Q := frnd (inject_Z n).
Definition in_range (min m : Z) : bool := Qle_bool 0 (score m) && Qle_bool (score m) (score min).

Definition admit_script (t : Z) (key : string) (min limit now ttl : Z) (s : QuotaKeys) : QuotaKeys * Z :=
  match qk_windows s !! key with
  | Some (members, expires) =>
      let kept := if expires <=? t then ∅ else filter (fun m => in_range min m = false) members in
      if limit <=? Z.of_nat (size kept)
      then (mkQuotaKeys (qk_slots s) (if decide (kept = ∅) then delete key (qk_windows s) else <[key := (kept, expires)]> (qk_windows s)), 0)
      else (mkQuotaKeys (qk_slots s) (<[key := ({[now]} ∪ kept, t + ttl * 1000)]> (qk_windows s)), 1)
  | None =>
      if limit <=? 0 then (s, 0)
      else (mkQuotaKeys (qk_slots s) (<[key := ({[now]}, t + ttl * 1000)]> (qk_windows s)), 1)
  end.

Definition window_ttl (window : Z) : Z := let ttl := int_seconds window * 2 in if ttl <=? 0 then 3600 else ttl.

Definition Admit (f : fault) (now t : Z) (key : string) (limit window : Z) (s : QuotaKeys) : QuotaKeys * Res unit bool :=
  let '(s', r) := eval f (admit_script t key (now - window) limit now (window_ttl window)) s in
  (s', match r with Err e => Err e | Ok n => Ok (n =? 1) end).

(** ** The concurrency limit *)
Section slots.
Context (slotTTL : Z) (limit : string -> Z).

(** A dispatcher asks for a slot of a key, or returns one it holds. *)
Inductive slot_event : Type :=
| SAcquire (f : fault) (t : Z) (key : string)
| SRelease (f : fault) (t : Z) (key : string).
Definition event_time (e : slot_event) : Z := match e with SAcquire _ t _ | SRelease _ t _ => t end.

Definition slot_step (e : slot_event) (s : QuotaKeys) (held : gmultiset string) : QuotaKeys * gmultiset string :=
  match e with
  | SAcquire f t key =>
      let '(s', r) := AcquireSlot slotTTL f t key (limit key) s in
      (s', match r with Ok (Some k) => held ⊎ {[+ k +]} | _ => held end)
  | SRelease f t key => if decide (key ∈ held) then ((releaseSlot slotTTL f t key s).1, held ∖ {[+ key +]}) else (s, held)
  end.

(** No counter is left alone so long that it expires while a slot of it is
    held. *)
Definition kept_alive (t : Z) (s : QuotaKeys) (held : gmultiset string) : Prop :=
  forall key, key ∈ held -> is_Some (live t (qk_slots s !! key)).

Fixpoint slot_runs (es : list slot_event) (s : QuotaKeys) (held : gmultiset string) : Prop :=
  match es with
  | [] => True
  | e :: es => kept_alive (event_time e) s held /\ slot_runs es (slot_step e s held).1 (slot_step e s held).2
  end.
Fixpoint slots_after (es : list slot_event) (s : QuotaKeys) (held : gmultiset string) : gmultiset string :=
  match es with
  | [] => held
  | e :: es => slots_after es (slot_step e s held).1 (slot_step e s held).2
  end.

Definition counts (s : QuotaKeys) (held : gmultiset string) : Prop :=
  forall key,
    match qk_slots s !! key with
    | Some (n, _) => Z.of_nat (multiplicity key held) <= n <= limit key
    | None => key ∉ held
    end.

Context (limit_pos : forall key, 1 <= limit key).

Lemma acquire_counts t key s held :
  counts s held -> kept_alive t s held ->
  let '(s', n) := acquire_script t key (limit key) (slot_ttl slotTTL) s in
  counts s' (if n =? 0 then held else held ⊎ {[+ key +]}).
Proof.
  intros Hc Hk. unfold acquire_script. pose proof (limit_pos key) as Hl. pose proof (Hc key) as Hkey.
  assert (live t (qk_slots s !! key) = None -> key ∉ held) as Hdead by (intros E Hin; destruct (Hk key Hin); congruence).
  destruct (live t (qk_slots s !! key)) as [n|] eqn:El.
  - assert (exists ex, qk_slots s !! key = Some (n, ex)) as [ex E].
    { unfold live in El. destruct (qk_slots s !! key) as [[? ?]|]; [|done]. destruct (_ <=? _); [done|]. simplify_eq. eauto. }
    rewrite E in Hkey. destruct (Z.leb_spec (limit key) n); [done|]. intros k. cbn [qk_slots Z.eqb].
    destruct (decide (k = key)) as [->|Hne].
    + rewrite lookup_insert_eq, multiplicity_disj_union, multiplicity_singleton, decide_True by done. lia.
    + rewrite lookup_insert_ne by done. specialize (Hc k). destruct (qk_slots s !! k) as [[m ?]|].
      * rewrite multiplicity_disj_union, multiplicity_singleton_ne by done. lia.
      * multiset_solver.
  - intros k. cbn [qk_slots Z.eqb]. specialize (Hdead eq_refl). destruct (decide (k = key)) as [->|Hne].
    + rewrite lookup_insert_eq, multiplicity_disj_union, multiplicity_singleton, decide_True by done.
      rewrite (proj1 (not_elem_of_multiplicity _ _) Hdead). lia.
    + rewrite lookup_insert_ne by done. specialize (Hc k). destruct (qk_slots s !! k) as [[m ?]|].
      * rewrite multiplicity_disj_union, multiplicity_singleton_ne by done. lia.
      * multiset_solver.
Qed.

Lemma counts_weaken s held held' : held' ⊆ held -> counts s held -> counts s held'.
Proof.
  intros Hs Hc k. specialize (Hc k). destruct (qk_slots s !! k) as [[m ?]|]; [|multiset_solver].
  specialize (Hs k). lia.
Qed.

Lemma release_counts t key s held :
  key ∈ held -> kept_alive t s held -> counts s held -> counts (release_script t key (slot_ttl slotTTL) s).1 (held ∖ {[+ key +]}).
Proof.
  intros Hin Hk Hc. unfold release_script. destruct (Hk key Hin) as [n El]. pose proof (Hc key) as Hkey.
  pose proof (proj1 (elem_of_multiplicity _ _) Hin) as Hm.
  unfold live in El. destruct (qk_slots s !! key) as [[m ex]|] eqn:E; [|done]. destruct (ex <=? t); [done|]. injection El as ->.
  destruct (Z.leb_spec n 0); [lia|]. intros k. cbn [fst qk_slots]. destruct (decide (k = key)) as [->|Hne].
  - rewrite lookup_insert_eq, multiplicity_difference, multiplicity_singleton, decide_True by done. lia.
  - rewrite lookup_insert_ne by done. specialize (Hc k). destruct (qk_slots s !! k) as [[? ?]|]; [|multiset_solver].
    rewrite multiplicity_difference, multiplicity_singleton_ne by done. lia.
Qed.

Lemma slot_step_counts e s held :
  kept_alive (event_time e) s held -> counts s held -> counts (slot_step e s held).1 (slot_step e s held).2.
Proof.
  intros Hk Hc. destruct e as [f t key|f t key]; simpl in *.
  - unfold AcquireSlot, eval. pose proof (acquire_counts t key s held Hc Hk) as Ha.
    destruct (acquire_script _ _ _ _ _) as [s' n]. destruct f; simpl; [by destruct (n =? 0)|done|].
    eapply counts_weaken, Ha. destruct (n =? 0); multiset_solver.
  - destruct (decide (key ∈ held)) as [Hin|]; [|done]. unfold releaseSlot, eval. cbn [fst snd].
    pose proof (release_counts t key s held Hin Hk Hc) as Hr. destruct (release_script _ _ _ _) as [s' n].
    destruct f; simpl in *; [done| |done]. eapply counts_weaken, Hc. multiset_solver.
Qed.

(** C29. The dispatchers of a key never hold more slots than its limit,
    whatever calls are lost, as long as its counter is not left to expire while
    a slot is held. *)
Theorem concurrency_bounded es key :
  slot_runs es ∅ ∅ -> Z.of_nat (multiplicity key (slots_after es ∅ ∅)) <= limit key.
Proof.
  intros Hr. assert (counts ∅ ∅) as Hc by (intros k; cbn [qk_slots empty qk_empty]; rewrite lookup_empty; multiset_solver). revert Hr Hc.
  generalize (∅ : gmultiset string) as held. generalize (∅ : QuotaKeys) as s.
  induction es as [|e es IH]; intros s held Hr Hc.
  - simpl. specialize (Hc key). destruct (qk_slots s !! key) as [[n ?]|]; [lia|].
    rewrite (proj1 (not_elem_of_multiplicity _ _) Hc). pose proof (limit_pos key). lia.
  - destruct Hr as [Hk Hr]. cbn [slots_after]. apply IH; [done|]. by apply slot_step_counts.
Qed.
End slots.

(** ** The sliding window *)

(** A time that the script drops is at least a window old, but for the
    rounding of the scores: they are doubles, 2^62 ns is the year 2116. *)
Lemma dropped_old m min : 0 <= m < 2 ^ 62 -> 0 <= min < 2 ^ 62 -> in_range min m = true -> m <= min + 1024.
Proof.
  intros [Hm Hm2] [Hn Hn2] [_ H%Qle_bool_iff]%andb_true_iff. unfold score in H.
  assert (0 <= inject_Z m)%Q as Q1 by (change 0%Q with (inject_Z 0); by rewrite <- Zle_Qle).
  assert (0 <= inject_Z min)%Q as Q2 by (change 0%Q with (inject_Z 0); by rewrite <- Zle_Qle).
  pose proof (frnd_bounds _ Q1) as [B1 _]. pose proof (frnd_bounds _ Q2) as [_ B2].
  assert (inject_Z m <= inject_Z (2 ^ 62))%Q as Q3 by (rewrite <- Zle_Qle; lia).
  assert (inject_Z min <= inject_Z (2 ^ 62))%Q as Q4 by (rewrite <- Zle_Qle; lia).
  change (inject_Z (2 ^ 62)) with (4611686018427387904 # 1)%Q in *. unfold ulp in *.
  rewrite Zle_Qle, inject_Z_plus. change (inject_Z 1024) with (1024 # 1)%Q. lra.
Qed.

Lemma seconds_ge w : 1 <= Z.quot w (10 ^ 9) < 2 ^ 33 -> 0 <= w -> Z.quot w (10 ^ 9) <= Qfloor (Seconds w).
Proof.
  intros Hq Hw. set (q := Z.quot w (10 ^ 9)) in *. rewrite <- (Qfloor_Z q). apply Qfloor_resp_le. unfold Seconds, fadd64. fold q.
  assert (0 <= Z.rem w (10 ^ 9) < 10 ^ 9) as Hr by (apply Z.rem_bound_pos; lia).
  set (x := (inject_Z (Z.rem w (10 ^ 9)) / inject_Z (10 ^ 9))%Q).
  assert (0 <= x)%Q as X0.
  { apply Qle_shift_div_l; [done|]. rewrite Qmult_0_l. change 0%Q with (inject_Z 0). rewrite <- Zle_Qle. lia. }
  assert (x <= 1)%Q as X1 by (apply Qle_shift_div_r; [done|]; rewrite Qmult_1_l, <- Zle_Qle; lia).
  unfold fdiv64. fold x. pose proof (frnd_bounds x X0) as [_ B]. unfold ulp in B. pose proof (frnd_nonneg x X0) as F0.
  assert (inject_Z 1 <= inject_Z q)%Q by (rewrite <- Zle_Qle; lia). change (inject_Z 1) with 1%Q in *.
  assert (inject_Z q <= inject_Z (2 ^ 33))%Q by (rewrite <- Zle_Qle; lia). change (inject_Z (2 ^ 33)) with (8589934592 # 1)%Q in *.
  apply (frnd_ge _ q 0); [lra|lia| |].
  - change (inject_Z (2 ^ (52 - 0))) with (4503599627370496 # 1)%Q. lra.
  - change (q # Z.to_pos (2 ^ 0))%Q with (inject_Z q). lra.
Qed.

(** The sorted set is kept for at least the window. *)
Lemma window_ttl_covers w : 0 <= w < 2 ^ 62 -> w <= window_ttl w * 10 ^ 9.
Proof.
  intros [H0 H1]. unfold window_ttl, int_seconds. destruct (Z.ltb_spec w 0); [lia|].
  assert (Z.quot w (10 ^ 9) * 10 ^ 9 <= w < (Z.quot w (10 ^ 9) + 1) * 10 ^ 9) as Hq.
  { rewrite Z.quot_div_nonneg by lia. pose proof (Z.div_mod w (10 ^ 9) ltac:(lia)).
    pose proof (Z.mod_pos_bound w (10 ^ 9) ltac:(lia)). lia. }
  destruct (decide (1 <= Z.quot w (10 ^ 9))); [pose proof (seconds_ge w ltac:(lia) H0)|];
    destruct (Z.leb_spec (Qfloor (Seconds w) * 2) 0); lia.
Qed.

Section window.
Context (key : string) (limit window skew : Z).

(** An admission: the dispatcher's clock, and the server's when its script
    runs. *)
Record admit_event : Type := mkAdmit { ae_fault : fault; ae_now : Z; ae_time : Z }.

Definition admit_step (acc : QuotaKeys * list Z) (e : admit_event) : QuotaKeys * list Z :=
  let '(s, r) := Admit (ae_fault e) (ae_now e) (ae_time e) key limit window acc.1 in
  (s, match r with Ok true => ae_now e :: acc.2 | _ => acc.2 end).
Definition admissions (es : list admit_event) : QuotaKeys * list Z := foldl admit_step (∅, []) es.

(** The dispatchers' clocks follow the server's: from one script to a later
    one they advance as much, but for [skew]. *)
Definition clocks_follow (es : list admit_event) : Prop :=
  forall i j e e', (i < j)%nat -> es !! i = Some e -> es !! j = Some e' ->
    0 <= (ae_time e' - ae_time e) * 10 ^ 6 <= ae_now e' - ae_now e + skew.

Definition members (s : QuotaKeys) : gset Z := match qk_windows s !! key with Some (x, _) => x | None => ∅ end.

(** Admitted times are in the set, or older than a window. *)
Definition accounted (es : list admit_event) (s : QuotaKeys) (admitted : list Z) : Prop :=
  (forall m, m ∈ admitted -> m ∈ members s \/ exists e, e ∈ es /\ m <= ae_now e - window + 1024 + skew) /\
  (forall x expires m, qk_windows s !! key = Some (x, expires) -> m ∈ x ->
     exists e, e ∈ es /\ ae_now e = m /\ ae_time e + window_ttl window * 1000 <= expires) /\
  (forall m, m ∈ admitted -> m ∈ ae_now <$> es) /\ NoDup admitted.

(** What the script keeps. *)
Definition kept_by (e : admit_event) (s : QuotaKeys) : gset Z :=
  match qk_windows s !! key with
  | Some (x, expires) => if expires <=? ae_time e then ∅ else filter (fun m => in_range (ae_now e - window) m = false) x
  | None => ∅
  end.

Lemma admit_script_spec e s :
  let r := admit_script (ae_time e) key (ae_now e - window) limit (ae_now e) (window_ttl window) s in
  r.2 = 0 /\ members r.1 = kept_by e s /\
    (forall x ex m, qk_windows r.1 !! key = Some (x, ex) -> m ∈ x -> exists x0, qk_windows s !! key = Some (x0, ex) /\ m ∈ x0) \/
  r.2 = 1 /\ Z.of_nat (size (kept_by e s)) < limit /\ members r.1 = {[ae_now e]} ∪ kept_by e s /\
    qk_windows r.1 !! key = Some ({[ae_now e]} ∪ kept_by e s, ae_time e + window_ttl window * 1000).
Proof.
  unfold admit_script, members, kept_by. destruct (qk_windows s !! key) as [[x0 ex0]|] eqn:E.
  - set (k := if ex0 <=? ae_time e then _ else _). assert (k ⊆ x0) as Hk by (unfold k; destruct (_ <=? _); set_solver).
    destruct (Z.leb_spec limit (Z.of_nat (size k))).
    + left. split; [done|]. cbn [fst qk_windows]. destruct (decide (k = ∅)) as [Ek|Ek].
      * rewrite lookup_delete_eq, Ek. split; [done|]. by intros.
      * rewrite lookup_insert_eq. split; [done|]. intros x ex m [= <- <-] Hm. exists x0. set_solver.
    + right. cbn [fst snd qk_windows]. rewrite lookup_insert_eq. auto.
  - destruct (Z.leb_spec limit 0).
    + left. cbn [fst snd]. rewrite E. split; [done|]. split; [done|]. by intros.
    + right. cbn [fst snd qk_windows]. rewrite lookup_insert_eq, size_empty, union_empty_r_L. auto.
Qed.

Context (skew_pos : 0 <= skew) (Hwindow : 0 <= window).
Definition in_epoch (e : admit_event) : Prop := window <= ae_now e < 2 ^ 62.

Lemma dropped es e s admitted m :
  accounted es s admitted -> Forall in_epoch (es ++ [e]) -> clocks_follow (es ++ [e]) ->
  m ∈ members s -> m ∉ kept_by e s -> m <= ae_now e - window + 1024 + skew.
Proof.
  intros (_ & Hm & _) Hep Hcl Hin Hout. unfold members, kept_by in *.
  destruct (qk_windows s !! key) as [[x ex]|] eqn:E; [|set_solver]. destruct (Hm x ex m eq_refl Hin) as (e0 & H0 & <- & Hex).
  apply list_elem_of_lookup in H0 as [i Hi]. pose proof (lookup_lt_Some _ _ _ Hi) as Hlt.
  assert (Forall in_epoch es /\ in_epoch e) as [He1 He] by (split; [|apply Forall_inv with []]; by apply Forall_app in Hep as [??]).
  pose proof (Forall_lookup_1 _ _ _ _ He1 Hi) as He0. unfold in_epoch in *.
  destruct (Z.leb_spec ex (ae_time e)) as [Hdead|Halive].
  - destruct (Hcl i (length es) e0 e Hlt) as [_ Hc].
    { by rewrite lookup_app_l. } { by apply list_lookup_middle. }
    pose proof (window_ttl_covers window ltac:(lia)). lia.
  - destruct (in_range (ae_now e - window) (ae_now e0)) eqn:Er; [|set_solver].
    apply dropped_old in Er; lia.
Qed.

Lemma admit_step_accounted es e acc :
  Forall in_epoch (es ++ [e]) -> clocks_follow (es ++ [e]) -> NoDup (ae_now <$> es ++ [e]) ->
  accounted es acc.1 acc.2 ->
  let acc' := admit_step acc e in
  accounted (es ++ [e]) acc'.1 acc'.2 /\
  (acc'.2 = acc.2 \/ acc'.2 = ae_now e :: acc.2 /\ Z.of_nat (size (kept_by e acc.1)) < limit /\ ae_now e ∉ acc.2 /\
     members acc'.1 = {[ae_now e]} ∪ kept_by e acc.1).
Proof.
  intros Hep Hcl Hnd Hacc. pose proof Hacc as (Hm & Hx & Hsub & Hd). destruct acc as [s adm]. cbn [fst snd] in *.
  assert (ae_now e ∉ adm) as Hnew.
  { intros Hin%Hsub. rewrite fmap_app in Hnd. apply list.NoDup_app in Hnd as (_ & Hnd & _). apply (Hnd _ Hin). set_solver. }
  assert (forall m, m ∈ adm -> m ∈ kept_by e s \/ exists e', e' ∈ es ++ [e] /\ m <= ae_now e' - window + 1024 + skew) as Hkeep.
  { intros m Hin. destruct (Hm m Hin) as [Hin'|(e' & ? & ?)]; [|right; exists e'; set_solver].
    destruct (decide (m ∈ kept_by e s)); [by left|]. right. exists e. split; [set_solver|]. by eapply dropped. }
  assert (forall m, m ∈ adm -> m ∈ ae_now <$> es ++ [e]) as Hsub' by (intros m Hin; rewrite fmap_app; set_solver).
  assert (accounted (es ++ [e]) s adm) as Hlost.
  { split_and!; [|intros x ex m Ex Hin; destruct (Hx x ex m Ex Hin) as (e' & ? & ?); exists e'; set_solver|done|done].
    intros m Hin. destruct (Hm m Hin) as [?|(e' & ? & ?)]; [by left|right; exists e'; set_solver]. }
  unfold admit_step, Admit, eval. cbn [fst snd].
  destruct (admit_script_spec e s) as [(Hr & Hmem & Hex)|(Hr & Hsz & Hmem & Hex)];
    destruct (admit_script _ _ _ _ _ _ _) as [s' n]; cbn [fst snd] in *; subst n.
  - assert (accounted (es ++ [e]) s' adm) as Hran.
    { split_and!; [by rewrite Hmem| |done|done]. intros x ex m Ex Hin. destruct (Hex x ex m Ex Hin) as (x0 & E0 & H0).
      destruct (Hx x0 ex m E0 H0) as (e' & ? & ?). exists e'. set_solver. }
    destruct (ae_fault e); cbn; auto.
  - assert (forall adm', adm' ⊆ ae_now e :: adm -> NoDup adm' -> accounted (es ++ [e]) s' adm') as Hran.
    { intros adm' Hs Hnd'. split_and!; [| | |done].
      - intros m Hin%Hs. rewrite Hmem. apply elem_of_cons in Hin as [->|Hin]; [set_solver|]. destruct (Hkeep m Hin); set_solver.
      - intros x ex m Ex Hin. rewrite Hex in Ex. injection Ex as <- <-. apply elem_of_union in Hin as [Hin|Hin].
        + exists e. set_solver by lia.
        + unfold kept_by in Hin. destruct (qk_windows s !! key) as [[x0 ex0]|] eqn:E0; [|set_solver].
          destruct (Z.leb_spec ex0 (ae_time e)); [set_solver|]. apply elem_of_filter in Hin as [_ Hin].
          destruct (Hx x0 ex0 m eq_refl Hin) as (e0 & H0 & ? & ?). exists e0. split; [set_solver|]. split; [done|].
          apply list_elem_of_lookup in H0 as [i Hi]. pose proof (lookup_lt_Some _ _ _ Hi).
          destruct (Hcl i (length es) e0 e) as [Hc _]; [done|by rewrite lookup_app_l|by apply list_lookup_middle|]. lia.
      - intros m Hin%Hs. apply elem_of_cons in Hin as [->|Hin]; [|auto]. rewrite fmap_app. set_solver. }
    destruct (ae_fault e); cbn.
    + split; [|auto]. apply Hran; [done|by constructor].
    + auto.
    + split; [|auto]. apply Hran; [set_solver|done].
Qed.

(** The admitted times of a window that ends at [x]. *)
Definition in_window (x : Z) (admitted : list Z) : list Z :=
  filter (fun m => x - (window - 1024 - 2 * skew) < m <= x) admitted.

Lemma prefix_clocks es e : clocks_follow (es ++ [e]) -> clocks_follow es.
Proof.
  intros H i j e1 e2 Hij H1 H2. apply (H i j); [done|apply lookup_app_l_Some; done..].
Qed.

Lemma length_le_size (l : list Z) (x : gset Z) : NoDup l -> (forall m, m ∈ l -> m ∈ x) -> (length l <= size x)%nat.
Proof. intros Hd Hs. rewrite <- (size_list_to_set (C := gset Z) l Hd). apply subseteq_size. set_solver. Qed.

(** Of the requests a rate quota admits, whichever dispatchers ask and
    whatever replies are lost, no more than the limit fall in one window: the
    dispatchers' times are distinct and follow the server's clock within
    [skew], which the window is shorter by (twice), as it is by the 1024 ns of
    the scores' rounding. *)
Theorem sliding_window_bounded es x :
  0 <= limit -> Forall in_epoch es -> clocks_follow es -> NoDup (ae_now <$> es) ->
  Z.of_nat (length (in_window x (admissions es).2)) <= limit.
Proof.
  intros Hl Hep Hcl Hnd.
  assert (accounted es (admissions es).1 (admissions es).2 /\ Z.of_nat (length (in_window x (admissions es).2)) <= limit); [|tauto].
  induction es as [|e es IH] using rev_ind.
  { split; [|simpl; lia]. split_and!; cbn; [set_solver| |set_solver|constructor]. intros ? ? ? E. by rewrite lookup_empty in E. }
  pose proof Hep as [Hep' _]%Forall_app. pose proof Hnd as Hnd'. rewrite fmap_app in Hnd'. apply list.NoDup_app in Hnd' as (Hnd' & _).
  destruct (IH Hep' (prefix_clocks _ _ Hcl) Hnd') as [Hacc Hle]. unfold admissions in *. rewrite foldl_snoc.
  set (acc := foldl _ _ _) in *. destruct (admit_step_accounted es e acc Hep Hcl Hnd Hacc) as [Hacc' Hcase].
  split; [done|]. destruct Hcase as [->|(Heq & Hsz & Hnew & Hmem)]; [done|]. unfold in_window in *. rewrite Heq, filter_cons.
  case_decide as Hw; [|done]. cbn [length].
  assert (length (filter (fun m => (x - (window - 1024 - 2 * skew) < m <= x)%Z) acc.2) <= size (kept_by e acc.1))%nat; [|lia].
  apply length_le_size; [apply list.NoDup_filter, Hacc|]. intros m [Hm Hin]%list_elem_of_filter.
  destruct Hacc' as (Hm' & _). destruct (Hm' m) as [Hin'|(e' & He' & Hold)].
  - rewrite Heq. set_solver.
  - rewrite Hmem in Hin'. set_solver.
  - exfalso. apply elem_of_app in He' as [He'|He']; [|set_solver by lia].
    apply list_elem_of_lookup in He' as [i Hi]. pose proof (lookup_lt_Some _ _ _ Hi).
    destruct (Hcl i (length es) e' e) as [H1 H2]; [done|by rewrite lookup_app_l|by apply list_lookup_middle|]. lia.
Qed.
End window.

Lemma instant_admits key now t window acc :
  members key acc.1 ⊆ {[now]} ->
  let acc' := admit_step key 2 window acc (mkAdmit FNone now t) in acc'.2 = now :: acc.2 /\ members key acc'.1 ⊆ {[now]}.
Proof.
  intros Hm. unfold admit_step, Admit, eval. cbn [ae_fault ae_now ae_time].
  assert (kept_by key window (mkAdmit FNone now t) acc.1 ⊆ {[now]}) as Hk.
  { unfold kept_by, members in *. destruct (_ !! key) as [[x ex]|]; [|set_solver]. destruct (_ <=? _); set_solver. }
  pose proof (subseteq_size _ _ Hk) as Hs. rewrite size_singleton in Hs.
  destruct (admit_script_spec key 2 window (mkAdmit FNone now t) acc.1) as [(Hr & Hmem & _)|(Hr & _ & Hmem & _)];
    cbn [ae_now ae_time] in *; [|destruct (admit_script _ _ _ _ _ _ _) as [s' n]; simpl in *; subst n; set_solver].
  exfalso. revert Hr. unfold admit_script. unfold kept_by in Hs. cbn [ae_now ae_time] in Hs.
  destruct (_ !! key) as [[x ex]|]; [|done]. destruct (Z.leb_spec 2 (Z.of_nat (size (if ex <=? t then ∅ else filter (fun m => in_range (now - window) m = false) x)))); [lia|done].
Qed.

(** The window counts instants, not requests: when any number of
    dispatchers read the same nanosecond, a limit of two admits all of them. *)
Theorem same_instant_uncounted key now t window n :
  (admissions key 2 window (replicate n (mkAdmit FNone now t))).2 = replicate n now.
Proof.
  unfold admissions. assert (forall acc, members key acc.1 ⊆ {[now]} ->
    (foldl (admit_step key 2 window) acc (replicate n (mkAdmit FNone now t))).2 = replicate n now ++ acc.2) as H.
  { induction n as [|n IH]; intros acc Hacc; [done|]. cbn [replicate foldl].
    destruct (instant_admits key now t window acc Hacc) as [E Hm]. rewrite (IH _ Hm), E.
    by rewrite (cons_middle now), (assoc_L (++)), <- replicate_cons_app. }
  rewrite (H (∅, [])); [apply app_nil_r|]. unfold members. cbn. rewrite lookup_empty. set_solver.
Qed.

(** ** Concrete runs *)
#[local] Open Scope string_scope.
#[local] Open Scope list_scope.
Definition w_slots : list slot_event := [SAcquire FNone 0 "k"; SAcquire FReply 10 "k"; SRelease FLost 30 "k"; SAcquire FNone 40 "k"].
Definition w_at (n ex : Z) : QuotaKeys := mkQuotaKeys {["k" := (n, ex)]} ∅.

Lemma w_step_1 : slot_step 60000000000 (fun _ => 2) (SAcquire FNone 0 "k") ∅ ∅ = (w_at 1 60000, {[+ "k" +]}).
Proof. vm_compute. reflexivity. Qed.
Lemma w_step_2 : slot_step 60000000000 (fun _ => 2) (SAcquire FReply 10 "k") (w_at 1 60000) {[+ "k" +]} = (w_at 2 60010, {[+ "k" +]}).
Proof. vm_compute. reflexivity. Qed.
Lemma w_step_3 : slot_step 60000000000 (fun _ => 2) (SRelease FLost 30 "k") (w_at 2 60010) {[+ "k" +]} = (w_at 2 60010, ∅).
Proof. vm_compute. reflexivity. Qed.

Lemma concurrency_bounded_witness :
  slot_runs 60000000000 (fun _ => 2) w_slots ∅ ∅ /\
  Z.of_nat (multiplicity "k" (slots_after 60000000000 (fun _ => 2) w_slots ∅ ∅)) <= 2.
Proof.
  assert (slot_runs 60000000000 (fun _ => 2) w_slots ∅ ∅) as H.
  { assert (forall t n ex, (ex <=? t)%Z = false -> kept_alive t (w_at n ex) {[+ "k" +]}) as Ha.
    { intros t n ex Ht k ->%gmultiset_elem_of_singleton. cbn [w_at qk_slots]. rewrite lookup_singleton_eq. unfold live. rewrite Ht. eauto. }
    assert (forall t s, kept_alive t s ∅) as He by (intros t s k Hk; multiset_solver).
    unfold w_slots. cbn [slot_runs event_time]. rewrite w_step_1. cbn [fst snd]. rewrite w_step_2. cbn [fst snd].
    rewrite w_step_3. cbn [fst snd]. auto 10. }
  split; [exact H|]. apply (concurrency_bounded 60000000000 (fun _ => 2)); [done|exact H].
Defined.

Definition w_admits : list admit_event := [mkAdmit FNone 5000000000 5000; mkAdmit FReply 5000000001 5000; mkAdmit FNone 5500000000 5500].

Lemma sliding_window_bounded_witness :
  Z.of_nat (length (in_window 4000000000 1000000 5500000000 (admissions "k" 2 4000000000 w_admits).2)) <= 2.
Proof.
  apply (sliding_window_bounded "k" 2 4000000000 1000000); [done|done|done| | |].
  - repeat constructor; done.
  - intros i j e e' Hij Hi Hj. destruct i as [|[|[|i]]], j as [|[|[|j]]]; try lia; simpl in *; simplify_eq; simpl; lia.
  - cbn. repeat constructor; set_solver by lia.
Defined.
