(* ===== verification/PubSubFlow.v ===== *)
(** * The Cloud Pub/Sub flow

    pkg/pubsub: the transport configuration, the construction of the flow, the
    receive callback of a subscription with the workers that answer it, the
    health of the subscriptions and their backlog.  The client library and the
    broker are the environment: which messages they deliver, how publishes and
    probes end.  Every callback, worker and publish is a thread of its own; a
    step of the system is one of theirs. *)
From stdpp Require Import prelude gmap strings list sorting.
From Stdlib Require Import ZArith QArith Qround Lia.
From S2P Require Import Prelude Json Rounding Api RedisProducer Gates Wire SortedSetFlow MergePolicy Backlog.

#[local] Open Scope string_scope.
#[local] Open Scope list_scope.
#[local] Open Scope Z_scope.

(** ** Configuration *)
Record TopicConfig {Params : Type} : Type := mkTopic {
  tc_SubscriberID : string;
  tc_WorkerPoolID : string;
  tc_InferenceObjective : string;
  tc_RequestPathURL : string;
  tc_IGWBaseURL : string;
  tc_ResultTopicID : string;
  tc_GateType : string;
  tc_params : Params;        (* the rest of the GateConfig *)
  tc_Labels : gmap string string
}.
Arguments TopicConfig : clear implicits.
Arguments mkTopic {_}.

Record Config {Params : Type} : Type := mkConfig {
  cf_ProjectID : string;
  cf_ResultTopicID : string;
  cf_BatchSize : Z;
  cf_Topics : list (TopicConfig Params)
}.
Arguments Config : clear implicits.
Arguments mkConfig {_}.

Inductive PubSubErr : Type :=
| ErrPSParse
| ErrProjectID
| ErrBatchSize (n : Z)
| ErrNoTopics
| ErrNoResultTopic
| ErrNoSubscriber
| ErrTopicBaseURL (sub : string)
| ErrTopicPool (pool : string)
| ErrTopicGate (sub : string)
| ErrClient.

Section config.
Context {Params : Type}.
Notation TopicConfig := (TopicConfig Params).
Notation Config := (Config Params).

Definition topic_defaults (t : TopicConfig) : TopicConfig :=
  mkTopic (tc_SubscriberID t) (or_default (tc_WorkerPoolID t) "default") (tc_InferenceObjective t)
    (or_default (tc_RequestPathURL t) "/v1/completions") (tc_IGWBaseURL t) (tc_ResultTopicID t) (tc_GateType t) (tc_params t) (tc_Labels t).

Definition ApplyDefaults (c : Config) : Config :=
  mkConfig (cf_ProjectID c) (cf_ResultTopicID c) (if decide (cf_BatchSize c = 0) then 10 else cf_BatchSize c)
    (topic_defaults <$> cf_Topics c).

Definition allTopicsHaveResultTopic (c : Config) : bool := forallb (fun t => bool_decide (tc_ResultTopicID t <> "")) (cf_Topics c).

Fixpoint check_topics (topics : list TopicConfig) : Res PubSubErr unit :=
  match topics with
  | [] => Ok tt
  | t :: rest =>
      if decide (tc_SubscriberID t = "") then Err ErrNoSubscriber
      else if decide (tc_IGWBaseURL t = "") then Err (ErrTopicBaseURL (tc_SubscriberID t)) else check_topics rest
  end.

Definition Validate (c : Config) : Res PubSubErr unit :=
  if decide (cf_ProjectID c = "") then Err ErrProjectID
  else if cf_BatchSize c <=? 0 then Err (ErrBatchSize (cf_BatchSize c))
  else if decide (cf_Topics c = []) then Err ErrNoTopics
  else if bool_decide (cf_ResultTopicID c = "") && negb (allTopicsHaveResultTopic c) then Err ErrNoResultTopic
  else check_topics (cf_Topics c).

(** [decoded]: what [json.Unmarshal] made of the data. *)
Definition LoadConfig (decoded : option Config) : Res PubSubErr Config :=
  match decoded with
  | None => Err ErrPSParse
  | Some c => let c := ApplyDefaults c in match Validate c with Ok _ => Ok c | Err e => Err e end
  end.
End config.

(** ** The flow *)

(** A subscription: its channel, its gate, its labels and where its results go. *)
Record RequestChannelData {Gate : Type} : Type := mkChannelData {
  cd_channel : RequestChannel;
  cd_subscriberID : string;
  cd_gate : Gate;
  cd_labels : gmap string string;
  cd_resultTopicID : string
}.
Arguments RequestChannelData : clear implicits.
Arguments mkChannelData {_}.

(** [p.gate] is nil while the constructor runs. Channels are numbered from
    [c]. *)
Fixpoint topic_channels {Gate Params : Type} (constOpenGate : Gate)
    (CreateGate : option (string -> string -> Params -> option Gate)) (workerPools : list string) (c : nat)
    (topics : list (TopicConfig Params)) : Res PubSubErr (list (RequestChannelData Gate)) :=
  match topics with
  | [] => Ok []
  | t :: rest =>
      let pool := or_default (tc_WorkerPoolID t) "default" in
      if decide (pool ∈ workerPools) then
        if decide (tc_IGWBaseURL t = "") then Err (ErrTopicBaseURL (tc_SubscriberID t))
        else
          let gate := match CreateGate with
                      | Some create => if decide (tc_GateType t = "") then Some constOpenGate else create pool (tc_SubscriberID t) (tc_params t)
                      | None => Some constOpenGate
                      end in
          match gate with
          | None => Err (ErrTopicGate (tc_SubscriberID t))
          | Some g =>
              match topic_channels constOpenGate CreateGate workerPools (S c) rest with
              | Err e => Err e
              | Ok l => Ok (mkChannelData (mkRequestChannel c (tc_IGWBaseURL t) (tc_InferenceObjective t)
                              (or_default (tc_RequestPathURL t) "/v1/completions") pool) (tc_SubscriberID t) g (tc_Labels t) (tc_ResultTopicID t) :: l)
              end
          end
      else Err (ErrTopicPool pool)
  end.

(** [client]: whether the client library could be set up. *)
Definition NewGCPPubSubMQFlow {Gate Params : Type} (client : bool) (constOpenGate : Gate)
    (CreateGate : option (string -> string -> Params -> option Gate)) (workerPools : list string) (cfg : Config Params) :
    Res PubSubErr (list (RequestChannelData Gate)) :=
  if client then topic_channels constOpenGate CreateGate workerPools 0 (cf_Topics cfg) else Err ErrClient.

Definition RequestChannels {Gate : Type} (r : list (RequestChannelData Gate)) : list RequestChannel := cd_channel <$> r.

(** ** The receive callback *)
Record Message : Type := mkMessage {
  m_ID : string;
  m_Data : string;
  m_Attributes : gmap string string;
  m_DeliveryAttempt : option Z
}.

Definition decode_wire (data : string) : option PubSubRequest :=
  value_text data ≫= fun v => d_struct 0 pubsub_step v (mkPubSubRequest zeroMessage "" "").

(** The body, with the attributes over its metadata. *)
Definition request_body (msg : Message) (wire : PubSubRequest) : RequestMessage :=
  let b := ps_Message wire in
  mkRequestMessage (rm_ID b) (rm_Created b) (rm_Deadline b) (rm_Payload b) (m_Attributes msg ∪ rm_Metadata b) (rm_Headers b)
    (rm_Endpoint b) (rm_Model b).

Definition result_queue (resultTopicID : string) (wire : PubSubRequest) : string :=
  if decide (resultTopicID = "") then ps_ResultQueueName wire else resultTopicID.

Definition request_routing (subscriberID resultTopicID : string) (labels : gmap string string) (msg : Message) (wire : PubSubRequest) : InternalRouting :=
  mkInternalRouting (match m_DeliveryAttempt msg with Some n => n - 1 | None => 0 end) "" "" 0 subscriberID
    (result_queue resultTopicID wire) 0 false (m_ID msg) 0 "" labels.

Definition receive_request {Gate : Type} (cd : RequestChannelData Gate) (msg : Message) : option InternalRequest :=
  (fun wire => NewInternalRequest (request_routing (cd_subscriberID cd) (cd_resultTopicID cd) (cd_labels cd) msg wire)
                 (PlainRequest (Some (request_body msg wire)))) <$> decode_wire (m_Data msg).

(** Where a callback is. *)
Inductive callback : Type :=
| CbGating (ir : InternalRequest)
| CbDropping (res : ResultMessage)    (* sending on the result channel *)
| CbSending (ir : InternalRequest)    (* sending on the subscription's channel *)
| CbWaiting                           (* on its results channel *)
| CbNacking                           (* returned; the Nack is delayed *)
| CbDone (ack : bool).

Record call {Gate : Type} : Type := mkCall {
  call_cd : RequestChannelData Gate;
  call_msg : Message;
  call_releases : list nat;
  call_state : callback
}.
Arguments call : clear implicits.
Arguments mkCall {_}.

(** What answers a callback, on its way to it: in the channels of the merge
    policy, with a worker, with the result
    worker or the retry worker, in a publish, and as a signal, first to a message ID and then
    on the results channel of a callback. *)
Inductive token : Type :=
| TQueued (ir : InternalRequest)
| TWorker (ir : InternalRequest)
| TResult (res : ResultMessage)
| TRetry (ir : InternalRequest)
| TPublishing (correlationID topic bytes : string)
| TSignal (correlationID : string) (published : bool)
| TSignalling (c : nat) (published : bool).

(** What was published: for which callback, its correlation ID, the topic and
    the bytes. *)
Record publication : Type := mkPub { pb_call : nat; pb_correlationID : string; pb_topic : string; pb_bytes : string }.

(** How far the process is in its life, by the order of the runner: the signal was
    received; some inference worker runs; StopConsuming returned; the context of
    the requests in flight was cancelled; the result and the retry worker run. *)
Record life : Type := mkLife { lf_signal : bool; lf_workers : bool; lf_stopped : bool; lf_dropping : bool; lf_sinks : bool }.
Definition at_start : life := mkLife false true false false true.

Record Sys {Gate : Type} : Type := mkSys {
  sy_calls : gmap nat (call Gate);
  sy_next : nat;
  sy_chans : gmap string nat;         (* resultChannels *)
  sy_bufs : gmap nat bool;            (* their buffers, of one element *)
  sy_tokens : gmap nat token;
  sy_published : list publication;
  sy_released : list nat;
  sy_life : life
}.
Arguments Sys : clear implicits.
Arguments mkSys {_}.

(** ** The threads *)
Definition marshalResult (r : ResultMessage) : string :=
  print_obj ([("id", quote (res_ID r))] ++ field_int "status_code" (res_StatusCode r) ++ [("payload", quote (res_Payload r))] ++
    field_string "error_code" (res_ErrorCode r) ++ field_string "error_message" (res_ErrorMessage r)).

Definition route_result (defaultTopicID : string) (res : ResultMessage) : token :=
  let correlationID := rt_TransportCorrelationID (res_Routing res) in
  let topicID := or_default (rt_ResultQueueName (res_Routing res)) defaultTopicID in
  if decide (topicID = "") then TSignal correlationID false else TPublishing correlationID topicID (marshalResult res).

Section threads.
Context {Gate : Type} (defaultTopicID : string).
Notation RequestChannelData := (RequestChannelData Gate).
Notation call := (call Gate).
Notation Sys := (Sys Gate).

Definition set_call (n : nat) (c : call) (s : Sys) : Sys :=
  mkSys (<[n := c]> (sy_calls s)) (sy_next s) (sy_chans s) (sy_bufs s) (sy_tokens s) (sy_published s) (sy_released s) (sy_life s).
Definition put_token (n : nat) (t : option token) (s : Sys) : Sys :=
  mkSys (sy_calls s) (sy_next s) (sy_chans s) (sy_bufs s) (match t with Some t => <[n := t]> (sy_tokens s) | None => delete n (sy_tokens s) end)
    (sy_published s) (sy_released s) (sy_life s).
Definition set_life (l : life) (s : Sys) : Sys :=
  mkSys (sy_calls s) (sy_next s) (sy_chans s) (sy_bufs s) (sy_tokens s) (sy_published s) (sy_released s) l.
Definition at_state (c : call) (st : callback) : call := mkCall (call_cd c) (call_msg c) (call_releases c) st.

(** The callback's first part: up to the gate. *)
Definition deliver (cd : RequestChannelData) (msg : Message) (s : Sys) : Sys :=
  let n := sy_next s in
  match receive_request cd msg with
  | None => mkSys (<[n := mkCall cd msg [] (CbDone true)]> (sy_calls s)) (S n) (sy_chans s) (sy_bufs s) (sy_tokens s) (sy_published s) (sy_released s) (sy_life s)
  | Some ir => mkSys (<[n := mkCall cd msg [] (CbGating ir)]> (sy_calls s)) (S n) (<[m_ID msg := n]> (sy_chans s)) (sy_bufs s) (sy_tokens s)
                 (sy_published s) (sy_released s) (sy_life s)
  end.

(** The deferred calls, when the callback returns in state [st]. *)
Definition return_at (n : nat) (c : call) (st : callback) (s : Sys) : Sys :=
  mkSys (<[n := at_state c st]> (sy_calls s)) (sy_next s) (delete (m_ID (call_msg c)) (sy_chans s)) (sy_bufs s) (sy_tokens s) (sy_published s)
    (sy_released s ++ call_releases c) (sy_life s).

(** The gate's answer. *)
Definition gate_answer (n : nat) (c : call) (g : gated) (ingestion : Z) (s : Sys) : Sys :=
  let c := mkCall (call_cd c) (call_msg c) (gd_releases g) (call_state c) in
  let ir := gd_ir g in
  match gd_verdict g with
  | Err _ => return_at n c (CbDone false) s
  | Ok v =>
      match v_Action v with
      | ActionRefuse => return_at n c CbNacking s
      | ActionDrop =>
          let res := match v_Result v with
                     | Some r => mkResultMessage (res_ID r) (res_StatusCode r) (res_Payload r) (res_ErrorCode r) (res_ErrorMessage r) (ir_Routing ir) (res_Metadata r)
                     | None => NewGateDroppedResult (default zeroMessage (ir_view ir)) (ir_Routing ir)
                     end in
          set_call n (at_state c (CbDropping res)) s
      | _ => set_call n (at_state c (CbSending (mkInternalRequest (ir_Routing ir) (ir_Public ir) ingestion))) s
      end
  end.

(** What a gate does to the request: it labels it. *)
Definition labels_only (ir ir' : InternalRequest) : Prop :=
  ir_Public ir' = ir_Public ir /\ rt_TransportCorrelationID (ir_Routing ir') = rt_TransportCorrelationID (ir_Routing ir) /\
  rt_ResultQueueName (ir_Routing ir') = rt_ResultQueueName (ir_Routing ir).

(** What the workers keep of a request's routing. *)
Definition same_route (rt rt' : InternalRouting) : Prop :=
  rt_TransportCorrelationID rt' = rt_TransportCorrelationID rt /\ rt_ResultQueueName rt' = rt_ResultQueueName rt.

(** A callback that has not returned. *)
Definition active (st : callback) : bool :=
  match st with CbGating _ | CbDropping _ | CbSending _ | CbWaiting => true | CbNacking | CbDone _ => false end.

(** [distinct]: no message is delivered while a callback of the same message
    ID runs.

    After the signal the inference workers leave once they find their channel
    empty, each with no request in its hands.  StopConsuming returns when the
    client's Receive does, which is when every callback has returned; only then can
    the drain time out, from where on a worker may drop what it was to send, and
    only when the workers are gone the result and the retry worker end. *)
Inductive ps_step (distinct : Prop) : Sys -> Sys -> Prop :=
| PDeliver cd msg s : (distinct -> sy_chans s !! m_ID msg = None) -> lf_stopped (sy_life s) = false -> ps_step distinct s (deliver cd msg s)
| PGate n c ir g ingestion s : sy_calls s !! n = Some c -> call_state c = CbGating ir -> labels_only ir (gd_ir g) ->
    ps_step distinct s (gate_answer n c g ingestion s)
| PDrop n c res s : sy_calls s !! n = Some c -> call_state c = CbDropping res ->
    ps_step distinct s (put_token n (Some (TResult res)) (set_call n (at_state c CbWaiting) s))
| PSend n c ir s : sy_calls s !! n = Some c -> call_state c = CbSending ir ->
    ps_step distinct s (put_token n (Some (TQueued ir)) (set_call n (at_state c CbWaiting) s))
| PTake n ir s : sy_tokens s !! n = Some (TQueued ir) -> lf_workers (sy_life s) = true -> ps_step distinct s (put_token n (Some (TWorker ir)) s)
| PWorkerResult n ir res s : sy_tokens s !! n = Some (TWorker ir) -> same_route (ir_Routing ir) (res_Routing res) ->
    ps_step distinct s (put_token n (Some (TResult res)) s)
| PWorkerRetry n ir ir' s : sy_tokens s !! n = Some (TWorker ir) -> same_route (ir_Routing ir) (ir_Routing ir') ->
    ps_step distinct s (put_token n (Some (TRetry ir')) s)
| PResult n res s : sy_tokens s !! n = Some (TResult res) -> lf_sinks (sy_life s) = true -> ps_step distinct s (put_token n (Some (route_result defaultTopicID res)) s)
| PRetry n ir s : sy_tokens s !! n = Some (TRetry ir) -> lf_sinks (sy_life s) = true ->
    ps_step distinct s (put_token n (Some (TSignal (rt_TransportCorrelationID (ir_Routing ir)) false)) s)
| PPublished n id topic bytes s : sy_tokens s !! n = Some (TPublishing id topic bytes) ->
    ps_step distinct s (mkSys (sy_calls s) (sy_next s) (sy_chans s) (sy_bufs s) (<[n := TSignal id true]> (sy_tokens s))
                          (sy_published s ++ [mkPub n id topic bytes]) (sy_released s) (sy_life s))
| PPublishFails n id topic bytes s : sy_tokens s !! n = Some (TPublishing id topic bytes) -> ps_step distinct s (put_token n (Some (TSignal id false)) s)
| PSignal n id b s : sy_tokens s !! n = Some (TSignal id b) -> ps_step distinct s (put_token n ((fun c => TSignalling c b) <$> sy_chans s !! id) s)
| PBuffer n c b s : sy_tokens s !! n = Some (TSignalling c b) -> sy_bufs s !! c = None ->
    ps_step distinct s (mkSys (sy_calls s) (sy_next s) (sy_chans s) (<[c := b]> (sy_bufs s)) (delete n (sy_tokens s)) (sy_published s) (sy_released s) (sy_life s))
| PAnswered n c b s : sy_calls s !! n = Some c -> call_state c = CbWaiting -> sy_bufs s !! n = Some b ->
    ps_step distinct s (return_at n c (CbDone b) (mkSys (sy_calls s) (sy_next s) (sy_chans s) (delete n (sy_bufs s)) (sy_tokens s) (sy_published s) (sy_released s) (sy_life s)))
| PDelayedNack n c s : sy_calls s !! n = Some c -> call_state c = CbNacking -> ps_step distinct s (set_call n (at_state c (CbDone false)) s)
| PInterrupt s : ps_step distinct s (set_life (let l := sy_life s in mkLife true (lf_workers l) (lf_stopped l) (lf_dropping l) (lf_sinks l)) s)
| PWorkersLeave s : lf_signal (sy_life s) = true -> (forall n ir, sy_tokens s !! n <> Some (TWorker ir)) ->
    ps_step distinct s (set_life (let l := sy_life s in mkLife true false (lf_stopped l) (lf_dropping l) (lf_sinks l)) s)
| PStopped s : lf_signal (sy_life s) = true -> (forall n c, sy_calls s !! n = Some c -> active (call_state c) = false) ->
    ps_step distinct s (set_life (let l := sy_life s in mkLife true (lf_workers l) true (lf_dropping l) (lf_sinks l)) s)
| PDrainTimeout s : lf_stopped (sy_life s) = true ->
    ps_step distinct s (set_life (let l := sy_life s in mkLife (lf_signal l) (lf_workers l) true true (lf_sinks l)) s)
| PWorkerDrop n ir s : sy_tokens s !! n = Some (TWorker ir) -> lf_dropping (sy_life s) = true -> ps_step distinct s (put_token n None s)
| PShutdown s : lf_stopped (sy_life s) = true -> lf_workers (sy_life s) = false ->
    ps_step distinct s (set_life (let l := sy_life s in mkLife (lf_signal l) false true (lf_dropping l) false) s).

Definition initial : Sys := mkSys ∅ 0 ∅ ∅ ∅ [] [] at_start.
Definition ps_reaches (distinct : Prop) : Sys -> Sys -> Prop := rtc (ps_step distinct).

(** ** One answer for every callback *)
Definition id_of (k : call) : string := m_ID (call_msg k).

(** The route of the request that the message holds. *)
Definition route_ok (k : call) (rt : InternalRouting) : Prop :=
  exists ir, receive_request (call_cd k) (call_msg k) = Some ir /\ same_route (ir_Routing ir) rt.

(** The topic the results of a message go to: the subscription's, the
    message's, or the flow's. *)
Definition topic_of (k : call) : option string :=
  (fun ir => or_default (rt_ResultQueueName (ir_Routing ir)) defaultTopicID) <$> receive_request (call_cd k) (call_msg k).

Definition published_for (s : Sys) (n : nat) (k : call) : Prop :=
  exists topic bytes, mkPub n (id_of k) topic bytes ∈ sy_published s /\ topic_of k = Some topic /\ topic <> "".

Definition token_ok (s : Sys) (n : nat) (k : call) (t : token) : Prop :=
  match t with
  | TQueued ir | TWorker ir | TRetry ir => route_ok k (ir_Routing ir)
  | TResult r => route_ok k (res_Routing r)
  | TPublishing id topic _ => id = id_of k /\ topic_of k = Some topic /\ topic <> ""
  | TSignal id b => id = id_of k /\ (b = true -> published_for s n k)
  | TSignalling c b => c = n /\ (b = true -> published_for s n k)
  end.

Definition idle (s : Sys) (n : nat) : Prop := sy_tokens s !! n = None /\ sy_bufs s !! n = None.
Definition answering (s : Sys) (n : nat) (k : call) : Prop :=
  (exists t, sy_tokens s !! n = Some t /\ token_ok s n k t) /\ sy_bufs s !! n = None \/
  sy_tokens s !! n = None /\ exists b, sy_bufs s !! n = Some b /\ (b = true -> published_for s n k).

Definition call_ok (s : Sys) (n : nat) (k : call) : Prop :=
  (active (call_state k) = true -> sy_chans s !! id_of k = Some n) /\
  match call_state k with
  | CbGating ir | CbSending ir => route_ok k (ir_Routing ir) /\ idle s n
  | CbDropping r => route_ok k (res_Routing r) /\ idle s n
  | CbWaiting => answering s n k
  | CbNacking => idle s n
  | CbDone b => idle s n /\ (b = true -> receive_request (call_cd k) (call_msg k) = None \/ published_for s n k)
  end.

Record inv (s : Sys) : Prop := {
  i_next n : is_Some (sy_calls s !! n) -> (n < sy_next s)%nat;
  i_chan id c : sy_chans s !! id = Some c -> exists k, sy_calls s !! c = Some k /\ id_of k = id /\ active (call_state k) = true;
  i_call n k : sy_calls s !! n = Some k -> call_ok s n k;
  i_token n : is_Some (sy_tokens s !! n) \/ is_Some (sy_bufs s !! n) -> is_Some (sy_calls s !! n)
}.

Lemma published_mono s s' n k : sy_published s ⊆ sy_published s' -> published_for s n k -> published_for s' n k.
Proof. intros Hs (t & b & H & ?). exists t, b. auto. Qed.

Lemma token_mono s s' n k t : sy_published s ⊆ sy_published s' -> token_ok s n k t -> token_ok s' n k t.
Proof. intros Hs. destruct t; simpl; try done; intros [? H]; (split; [done|]); intros Hb; eapply published_mono; eauto. Qed.

Lemma call_ok_frame s s' n k : call_ok s n k -> sy_tokens s' !! n = sy_tokens s !! n -> sy_bufs s' !! n = sy_bufs s !! n ->
  sy_published s ⊆ sy_published s' -> (active (call_state k) = true -> sy_chans s' !! id_of k = sy_chans s !! id_of k) -> call_ok s' n k.
Proof.
  intros [H1 H2] Ht Hb Hp Hc. split; [intros Ha; rewrite Hc by done; auto|].
  unfold idle, answering in *. rewrite Ht, Hb. pose proof (published_mono s s' n k Hp) as Hm.
  destruct (call_state k) as [| | | | |b]; try done.
  - destruct H2 as [[(t & E & Ht') Hb']|(E & b & Eb & Hb')].
    + left. split; [|done]. exists t. split; [done|]. by eapply token_mono.
    + right. split; [done|]. exists b. auto.
  - destruct H2 as [? H2]. split; [done|]. intros E. destruct (H2 E); auto.
Qed.

(** A step of callback [n], which it leaves as [k']. *)
Lemma inv_update s s' n k' :
  inv s -> sy_calls s' = <[n := k']> (sy_calls s) -> (n < sy_next s')%nat -> (sy_next s <= sy_next s')%nat ->
  (forall n', n' <> n -> sy_tokens s' !! n' = sy_tokens s !! n' /\ sy_bufs s' !! n' = sy_bufs s !! n') ->
  sy_published s ⊆ sy_published s' ->
  (forall id c, sy_chans s' !! id = Some c -> c = n /\ id = id_of k' /\ active (call_state k') = true \/ c <> n /\ sy_chans s !! id = Some c) ->
  (forall n' k, n' <> n -> sy_chans s !! id_of k = Some n' -> sy_chans s' !! id_of k = Some n') ->
  call_ok s' n k' -> inv s'.
Proof.
  intros [I1 I2 I3 I4] Hc Hn Hnx Hf Hp Hch Hkeep Hok. split.
  - intros n' [k Hk]. rewrite Hc in Hk. apply lookup_insert_Some in Hk as [[<- _]|[_ Hk]]; [done|].
    assert (n' < sy_next s)%nat by (apply I1; eauto). lia.
  - intros id c H. destruct (Hch id c H) as [(-> & -> & Ha)|[Hne H']].
    + exists k'. rewrite Hc, lookup_insert_eq. auto.
    + destruct (I2 id c H') as (k & Hk & ? & ?). exists k. rewrite Hc, lookup_insert_ne by done. auto.
  - intros n' k Hk. rewrite Hc in Hk. apply lookup_insert_Some in Hk as [[<- <-]|[Hne Hk]]; [done|].
    destruct (Hf n') as [Ht Hb]; [done|]. pose proof (I3 n' k Hk) as Hk'. apply (call_ok_frame s); [done..|].
    intros Ha. destruct Hk' as [Hk' _]. rewrite (Hk' Ha). apply Hkeep; [done|]. auto.
  - intros n' H. rewrite Hc. destruct (decide (n' = n)) as [->|Hne]; [rewrite lookup_insert_eq; eauto|].
    rewrite lookup_insert_ne by done. destruct (Hf n' Hne) as [Ht Hb]. rewrite Ht, Hb in H. auto.
Qed.

Lemma token_waits s n k t : call_ok s n k -> sy_tokens s !! n = Some t -> call_state k = CbWaiting.
Proof. intros [_ Hok] Ht. destruct (call_state k); try done; unfold idle in Hok; naive_solver congruence. Qed.

(** A step that only moves the token of a waiting callback. *)
Lemma inv_token s s' n : inv s ->
  sy_calls s' = sy_calls s -> sy_next s' = sy_next s -> sy_chans s' = sy_chans s ->
  (forall n', n' <> n -> sy_tokens s' !! n' = sy_tokens s !! n' /\ sy_bufs s' !! n' = sy_bufs s !! n') ->
  sy_published s ⊆ sy_published s' -> is_Some (sy_tokens s !! n) ->
  (forall k, sy_calls s !! n = Some k -> call_state k = CbWaiting -> answering s' n k) -> inv s'.
Proof.
  intros Hi Hc Hx Hch Hf Hp Ht Ha. destruct (i_token _ Hi n (or_introl Ht)) as [k Hk]. pose proof (i_call _ Hi n k Hk) as [Hact Hok].
  assert (call_state k = CbWaiting) as Hw.
  { destruct Ht as [t Ht]. by eapply token_waits; [split|]. }
  apply (inv_update s s' n k); try done.
  - rewrite Hc. symmetry. by apply insert_id.
  - rewrite Hx. apply (i_next _ Hi). eauto.
  - by rewrite Hx.
  - intros id c H. rewrite Hch in H. destruct (decide (c = n)) as [->|]; [left|by right].
    destruct (i_chan _ Hi id n H) as (k0 & Hk0 & ? & ?). assert (k0 = k) as -> by congruence. auto.
  - intros n' k0 _ H. by rewrite Hch.
  - split; [by rewrite Hch|]. rewrite Hw. by apply Ha.
Qed.

Lemma waiting_token s n t : inv s -> sy_tokens s !! n = Some t ->
  exists k, sy_calls s !! n = Some k /\ call_state k = CbWaiting /\ token_ok s n k t /\ sy_bufs s !! n = None /\ sy_chans s !! id_of k = Some n.
Proof.
  intros Hi Ht. destruct (i_token _ Hi n) as [k Hk]; [eauto|]. exists k. pose proof (i_call _ Hi n k Hk) as Hcall.
  pose proof (token_waits s n k t Hcall Ht) as E. destruct Hcall as [Ha Hok]. rewrite E in *. specialize (Ha eq_refl).
  destruct Hok as [[(t' & Et & ?) ?]|(? & _)]; [|congruence]. assert (t' = t) as -> by congruence. auto.
Qed.

(** The token of [n] becomes [t']. *)
Lemma inv_put s n t t' : inv s -> sy_tokens s !! n = Some t -> (forall k, token_ok s n k t -> token_ok s n k t') -> inv (put_token n (Some t') s).
Proof.
  intros Hi Ht Hok. apply (inv_token s _ n); simpl; try done.
  - intros n' Hne. by rewrite lookup_insert_ne.
  - intros k Hk Hw. destruct (waiting_token s n t Hi Ht) as (k0 & Hk0 & _ & Htok & Hb & _). assert (k0 = k) as -> by congruence.
    left. split; [|done]. exists t'. split; [simpl; by rewrite lookup_insert_eq|]. apply Hok in Htok. destruct t'; done.
Qed.

Lemma same_route_trans a b c : same_route a b -> same_route b c -> same_route a c.
Proof. unfold same_route. naive_solver congruence. Qed.
Lemma route_ok_same k rt rt' : route_ok k rt -> same_route rt rt' -> route_ok k rt'.
Proof. intros (ir & H1 & H2) H. exists ir. eauto using same_route_trans. Qed.

(** A request's correlation ID is its message's. *)
Lemma route_id k rt : route_ok k rt -> rt_TransportCorrelationID rt = id_of k.
Proof.
  intros (ir & H & [-> _]). unfold receive_request in H. destruct (decode_wire _) as [w|]; [|done]. simpl in H. by injection H as <-.
Qed.
Lemma route_topic k rt : route_ok k rt -> topic_of k = Some (or_default (rt_ResultQueueName rt) defaultTopicID).
Proof. intros (ir & H & [_ ->]). unfold topic_of. by rewrite H. Qed.

Lemma inv_return s n k st : inv s -> sy_calls s !! n = Some k -> active (call_state k) = true -> active st = false ->
  forall rel, let k' := mkCall (call_cd k) (call_msg k) rel st in
  (forall s', sy_tokens s' = sy_tokens s -> sy_bufs s' !! n = None -> sy_published s' = sy_published s -> call_ok s' n k') ->
  inv (return_at n (mkCall (call_cd k) (call_msg k) rel (call_state k)) st
         (mkSys (sy_calls s) (sy_next s) (sy_chans s) (delete n (sy_bufs s)) (sy_tokens s) (sy_published s) (sy_released s) (sy_life s))).
Proof.
  intros Hi Hk Ha Hst rel k' Hok. destruct (i_call _ Hi n k Hk) as [Hch _]. specialize (Hch Ha).
  apply (inv_update s _ n k'); simpl; try done.
  - apply (i_next _ Hi). eauto.
  - intros n' Hne. by rewrite lookup_delete_ne.
  - intros id c H. apply lookup_delete_Some in H as [Hne H]. right. split; [|done]. intros ->.
    destruct (i_chan _ Hi id n H) as (k0 & Hk0 & E & _). assert (k0 = k) as -> by congruence. done.
  - intros n' k0 Hne H. destruct (decide (id_of k0 = id_of k)) as [E|E].
    + rewrite E, Hch in H. congruence.
    + by rewrite lookup_delete_ne.
  - apply Hok; simpl; [done|by rewrite lookup_delete_eq|done].
Qed.

Lemma return_same n k st s : sy_bufs s !! n = None ->
  return_at n k st s = return_at n k st (mkSys (sy_calls s) (sy_next s) (sy_chans s) (delete n (sy_bufs s)) (sy_tokens s) (sy_published s) (sy_released s) (sy_life s)).
Proof. intros H. unfold return_at. simpl. by rewrite (delete_id (sy_bufs s) n) by done. Qed.

(** Callback [n] moves on, with the token [t] if it now waits. *)
Lemma inv_advance s n k k' (t : option token) : inv s -> sy_calls s !! n = Some k -> active (call_state k) = true ->
  call_cd k' = call_cd k -> call_msg k' = call_msg k -> active (call_state k') = true -> idle s n ->
  call_ok (put_token n t (set_call n k' s)) n k' -> inv (put_token n t (set_call n k' s)).
Proof.
  intros Hi Hk Ha Hcd Hm Ha' [Hid _] Hok. destruct (i_call _ Hi n k Hk) as [Hch _]. specialize (Hch Ha).
  apply (inv_update s _ n k'); simpl; try done.
  - apply (i_next _ Hi). eauto.
  - intros n' Hne. split; [|done]. destruct t; [by rewrite lookup_insert_ne|by rewrite lookup_delete_ne].
  - intros id c H. destruct (decide (c = n)) as [->|]; [left|by right]. split; [done|]. split; [|done].
    destruct (i_chan _ Hi id n H) as (k0 & Hk0 & E & _). assert (k0 = k) as -> by congruence. unfold id_of in *. by rewrite Hm.
Qed.

Lemma deliver_inv cd msg s : inv s -> sy_chans s !! m_ID msg = None -> inv (deliver cd msg s).
Proof.
  intros Hi Hf. assert (idle s (sy_next s)) as Hidle.
  { unfold idle. destruct (sy_tokens s !! sy_next s) eqn:E1, (sy_bufs s !! sy_next s) eqn:E2; try done; exfalso;
      destruct (i_token _ Hi (sy_next s)) as [k Hk]; eauto; assert (sy_next s < sy_next s)%nat by (apply (i_next _ Hi); eauto); lia. }
  unfold deliver. destruct (receive_request cd msg) as [ir|] eqn:E.
  - apply (inv_update s _ (sy_next s) (mkCall cd msg [] (CbGating ir))); simpl; try done; [lia..| | |].
    + intros id c [[<- <-]|[Hne H]]%lookup_insert_Some; [auto|]. right. split; [|done]. intros ->.
      destruct (i_chan _ Hi id _ H) as (k & Hk & _). assert (sy_next s < sy_next s)%nat by (apply (i_next _ Hi); eauto). lia.
    + intros n' k Hne H. rewrite lookup_insert_ne; [done|]. intros E'. rewrite <- E', Hf in H. done.
    + split; simpl; [by rewrite lookup_insert_eq|]. split; [|done]. exists ir. by split.
  - apply (inv_update s _ (sy_next s) (mkCall cd msg [] (CbDone true))); simpl; try done; [lia..| |].
    + intros id c H. right. split; [|done]. intros ->. destruct (i_chan _ Hi id _ H) as (k & Hk & _).
      assert (sy_next s < sy_next s)%nat by (apply (i_next _ Hi); eauto). lia.
    + split; simpl; [done|]. split; [done|]. auto.
Qed.

Lemma gate_inv n k ir g ingestion s : inv s -> sy_calls s !! n = Some k -> call_state k = CbGating ir -> labels_only ir (gd_ir g) ->
  inv (gate_answer n k g ingestion s).
Proof.
  intros Hi Hk Hst (Hpub & Hid & Hrq). destruct (i_call _ Hi n k Hk) as [Hch Hok]. rewrite Hst in Hok, Hch. destruct Hok as [Hr [Hi1 Hi2]].
  assert (route_ok k (ir_Routing (gd_ir g))) as Hr' by (eapply route_ok_same; [exact Hr|by split]).
  assert (forall st, active st = false -> (forall b, st = CbDone b -> b = false) ->
    inv (return_at n (mkCall (call_cd k) (call_msg k) (gd_releases g) (call_state k)) st s)) as Hret.
  { intros st Hna Hd. rewrite return_same by done. apply (inv_return s n k st); [done..|by rewrite Hst|done|].
    intros s' Ht Hb Hp. split; simpl; [by rewrite Hna|]. assert (idle s' n) as Hidle by (split; [by rewrite Ht|done]).
    destruct st as [| | | | |b]; try done. split; [done|]. intros ->. by specialize (Hd true eq_refl). }
  assert (forall st, active st = true ->
    (forall s', idle s' n -> sy_chans s' !! id_of k = Some n -> call_ok s' n (mkCall (call_cd k) (call_msg k) (gd_releases g) st)) ->
    inv (set_call n (mkCall (call_cd k) (call_msg k) (gd_releases g) st) s)) as Hadv.
  { intros st Ha Hcall. assert (forall x, put_token n None (set_call n x s) = set_call n x s) as E.
    { intros x. unfold put_token, set_call. simpl. by rewrite (delete_id (sy_tokens s) n). }
    rewrite <- E. apply (inv_advance s n k); try done; [by rewrite Hst|]. rewrite E. apply Hcall; [done|]. by apply Hch. }
  unfold gate_answer. destruct (gd_verdict g) as [v|e]; [|apply Hret; [done|naive_solver]].
  destruct (v_Action v); [apply Hadv; [done|]|apply Hadv; [done|]|apply Hret; [done|naive_solver]|apply Hadv; [done|]];
    intros s' Hidle E; (split; [intros _; exact E|]); simpl; (split; [|done]); try done.
  destruct (v_Result v); done.
Qed.

Lemma inv_life l s : inv s -> inv (set_life l s).
Proof. intros [H1 H2 H3 H4]. by split. Qed.

(** The order of the runner: nothing that ends an answer happens before
    StopConsuming has returned, and then no callback runs. *)
Record life_ok (s : Sys) : Prop := {
  l_stopped : lf_stopped (sy_life s) = true -> forall n k, sy_calls s !! n = Some k -> active (call_state k) = false;
  l_dropping : lf_dropping (sy_life s) = true -> lf_stopped (sy_life s) = true;
  l_sinks : lf_sinks (sy_life s) = false -> lf_stopped (sy_life s) = true;
  l_workers : lf_workers (sy_life s) = false -> lf_signal (sy_life s) = true
}.

Lemma life_ok_call s s' n k k' : life_ok s -> sy_calls s !! n = Some k -> active (call_state k) = true \/ active (call_state k') = false ->
  sy_calls s' = <[n := k']> (sy_calls s) -> sy_life s' = sy_life s -> life_ok s'.
Proof.
  intros [H1 H2 H3 H4] Hk Ha Hc Hl. split; rewrite Hl; try done. rewrite Hc. intros Hs m x Hx.
  apply lookup_insert_Some in Hx as [[<- <-]|[_ Hx]]; [|by apply (H1 Hs m)]. destruct Ha as [Ha|Ha]; [|done]. by rewrite (H1 Hs n k Hk) in Ha.
Qed.

Lemma life_ok_same s s' : life_ok s -> sy_calls s' = sy_calls s -> sy_life s' = sy_life s -> life_ok s'.
Proof. intros [H1 H2 H3 H4] Hc Hl. split; rewrite Hl, ?Hc; done. Qed.

Lemma step_life d s s' : ps_step d s s' -> life_ok s -> life_ok s'.
Proof.
  intros Hstep Hi. destruct Hstep as [cd msg s Hf Hs|n k ir g ing s Hk Hst Hl|n k res s Hk Hst|n k ir s Hk Hst|n ir s Ht Hw|n ir res s Ht Hr|n ir ir' s Ht Hr|n res s Ht Hs|n ir s Ht Hs
    |n id topic bytes s Ht|n id topic bytes s Ht|n id b s Ht|n c b s Ht Hb|n k b s Hk Hst Hb|n k s Hk Hst|s|s Hs Hn|s Hs Hn|s Hs|n ir s Ht Hd|s Hs Hw]; try (by apply (life_ok_same s)).
  - unfold deliver. destruct Hi as [H1 H2 H3 H4]. destruct (receive_request cd msg); split; simpl; try done; by rewrite Hs.
  - unfold gate_answer. destruct (gd_verdict g) as [v|e]; [destruct (v_Action v)|]; (eapply (life_ok_call s _ n k); [done|done|left; by rewrite Hst|done|done]).
  - apply (life_ok_call s _ n k (at_state k CbWaiting)); try done. left. by rewrite Hst.
  - apply (life_ok_call s _ n k (at_state k CbWaiting)); try done. left. by rewrite Hst.
  - apply (life_ok_call s _ n k (at_state k (CbDone b))); try done. by right.
  - apply (life_ok_call s _ n k (at_state k (CbDone false))); try done. by right.
  - destruct Hi as [H1 H2 H3 H4]. by split.
  - destruct Hi as [H1 H2 H3 H4]. by split.
  - destruct Hi as [H1 H2 H3 H4]. by split.
  - destruct Hi as [H1 H2 H3 H4]. split; simpl; try done. intros _. by apply H1.
  - destruct Hi as [H1 H2 H3 H4]. split; simpl; try done; intros _; [by apply H1|by apply H4].
Qed.

Lemma initial_life : life_ok initial.
Proof. by split. Qed.

Lemma step_inv s s' : ps_step True s s' -> life_ok s -> inv s -> inv s'.
Proof.
  intros Hstep Hlife Hi. destruct Hstep as [cd msg s Hf Hs|n k ir g ing s Hk Hst Hl|n k res s Hk Hst|n k ir s Hk Hst|n ir s Ht Hw|n ir res s Ht Hr|n ir ir' s Ht Hr|n res s Ht Hs|n ir s Ht Hs
    |n id topic bytes s Ht|n id topic bytes s Ht|n id b s Ht|n c b s Ht Hb|n k b s Hk Hst Hb|n k s Hk Hst|s|s Hs Hn|s Hs Hn|s Hs|n ir s Ht Hd|s Hs Hw]; try (by apply inv_life).
  - by apply deliver_inv; [|apply Hf].
  - by eapply gate_inv.
  - destruct (i_call _ Hi n k Hk) as [Hch Hok]. rewrite Hst in Hch, Hok. destruct Hok as [Hr Hid].
    apply (inv_advance s n k); try done; [by rewrite Hst|]. split; [intros _; apply Hch; done|]. left. simpl.
    split; [|apply Hid]. exists (TResult res). by rewrite lookup_insert_eq.
  - destruct (i_call _ Hi n k Hk) as [Hch Hok]. rewrite Hst in Hch, Hok. destruct Hok as [Hr Hid].
    apply (inv_advance s n k); try done; [by rewrite Hst|]. split; [intros _; apply Hch; done|]. left. simpl.
    split; [|apply Hid]. exists (TQueued ir). by rewrite lookup_insert_eq.
  - by apply (inv_put s n _ _ Hi Ht).
  - apply (inv_put s n _ _ Hi Ht). intros k. simpl. intros H. by eapply route_ok_same.
  - apply (inv_put s n _ _ Hi Ht). intros k. simpl. intros H. by eapply route_ok_same.
  - apply (inv_put s n _ _ Hi Ht). intros k H. simpl in H. unfold route_result. rewrite (route_id _ _ H). pose proof (route_topic _ _ H).
    destruct (decide (_ = "")); by split_and!.
  - apply (inv_put s n _ _ Hi Ht). intros k H. simpl in *. split; [by apply route_id|done].
  - destruct (waiting_token s n _ Hi Ht) as (k & Hk & Hw & (-> & Htop & Hne) & Hb & Hch).
    apply (inv_token s _ n); simpl; try done.
    + intros n' Hn. by rewrite lookup_insert_ne.
    + set_solver.
    + intros k0 Hk0 _. assert (k0 = k) as -> by congruence. left. split; [|done]. eexists. simpl. rewrite lookup_insert_eq. split; [done|].
      simpl. split; [done|]. intros _. exists topic, bytes. simpl. split; [set_solver|done].
  - apply (inv_put s n _ _ Hi Ht). intros k H. simpl in *. split; [apply H|done].
  - destruct (waiting_token s n _ Hi Ht) as (k & Hk & Hw & (-> & Hp) & Hb & Hch). rewrite Hch. simpl.
    apply (inv_put s n _ _ Hi Ht). intros k0 [_ H]. done.
  - destruct (waiting_token s n _ Hi Ht) as (k & Hk & Hw & (-> & Hp) & Hbn & Hch). apply (inv_token s _ n); simpl; try done.
    + intros n' Hn. by rewrite lookup_insert_ne, lookup_delete_ne.
    + intros k0 Hk0 _. assert (k0 = k) as -> by congruence. right. simpl. rewrite lookup_delete_eq, lookup_insert_eq. split; [done|]. eauto.
  - destruct (i_call _ Hi n k Hk) as [Hch Hok]. rewrite Hst in Hch, Hok. destruct Hok as [[_ ?]|[Htn (b' & Hb' & Hp)]]; [congruence|].
    assert (b' = b) as -> by congruence. replace k with (mkCall (call_cd k) (call_msg k) (call_releases k) (call_state k)) at 2 by by destruct k.
    apply (inv_return s n k (CbDone b)); [done|done|by rewrite Hst|done|]. intros s' Ht' Hbs Hps. split; [done|]. simpl.
    split; [split; [by rewrite Ht'|done]|]. intros Hbt. right. destruct (Hp Hbt) as (t & y & ? & ?). exists t, y. by rewrite Hps.
  - destruct (i_call _ Hi n k Hk) as [Hch Hok]. rewrite Hst in Hch, Hok. apply (inv_update s _ n (at_state k (CbDone false))); simpl; try done.
    + apply (i_next _ Hi). eauto.
    + intros id c H. right. split; [|done]. intros ->. destruct (i_chan _ Hi id n H) as (k0 & Hk0 & _ & Ha).
      assert (k0 = k) as -> by congruence. by rewrite Hst in Ha.
  - destruct (waiting_token s n _ Hi Ht) as (k & Hk & Hw & _). pose proof (l_stopped _ Hlife (l_dropping _ Hlife Hd) n k Hk) as Ha. by rewrite Hw in Ha.
Qed.

Lemma initial_inv : inv initial.
Proof. split; simpl; intros *; rewrite ?lookup_empty; try done; [by intros [? ?]..|]. intros [[? ?]|[? ?]]; done. Qed.

Lemma reachable_ok s : ps_reaches True initial s -> inv s /\ life_ok s.
Proof.
  intros H. assert (forall x y, ps_reaches True x y -> inv x /\ life_ok x -> inv y /\ life_ok y) as Hx;
    [|apply (Hx initial s H (conj initial_inv initial_life))].
  induction 1 as [|x y z Hs _ IH]; [done|]. intros [Hi Hl]. apply IH. eauto using step_inv, step_life.
Qed.

Lemma reachable_inv s : ps_reaches True initial s -> inv s.
Proof. intros H. by apply reachable_ok. Qed.

(** C8. A request is acknowledged to the broker only once the server accepted
    its result: when a callback of the flow acknowledged its message, the
    message could not be decoded, or a result of this very delivery was
    published, under its message ID, to the subscription's result topic, else
    the one the message names, else the flow's.  This holds however
    deliveries, gates, workers, publishes and retries interleave and fail, as
    long as no message is delivered again while it is being handled. *)
Theorem acked_is_published s n k :
  ps_reaches True initial s -> sy_calls s !! n = Some k -> call_state k = CbDone true ->
  decode_wire (m_Data (call_msg k)) = None \/
  exists topic bytes, mkPub n (m_ID (call_msg k)) topic bytes ∈ sy_published s /\ topic_of k = Some topic /\ topic <> "".
Proof.
  intros Hr Hk Hst. apply reachable_inv in Hr. destruct (i_call _ Hr n k Hk) as [_ Hok]. rewrite Hst in Hok.
  destruct Hok as [_ Hok]. destruct (Hok eq_refl) as [H|H]; [left|by right]. unfold receive_request in H.
  by destruct (decode_wire _).
Qed.

(** The steps that are left before the callback is answered. *)
Definition steps_left (s : Sys) (n : nat) : nat :=
  match sy_tokens s !! n with
  | Some (TQueued _) => 7
  | Some (TWorker _) => 6
  | Some (TResult _) | Some (TRetry _) => 5
  | Some (TPublishing _ _ _) => 4
  | Some (TSignal _ _) => 3
  | Some (TSignalling _ _) => 2
  | None => match sy_bufs s !! n with Some _ => 1 | None => 0 end
  end.

Lemma steps_left_same s s' n : sy_tokens s' !! n = sy_tokens s !! n -> sy_bufs s' !! n = sy_bufs s !! n -> steps_left s' n = steps_left s n.
Proof. intros H1 H2. unfold steps_left. by rewrite H1, H2. Qed.

Lemma steps_put s n t n' t' : sy_tokens s !! n = Some t ->
  (match t' with Some t' => steps_left (put_token n (Some t') s) n <= steps_left s n | None => sy_bufs s !! n = None end)%nat ->
  (steps_left (put_token n t' s) n' <= steps_left s n')%nat.
Proof.
  intros Ht H. destruct (decide (n' = n)) as [->|Hne].
  - destruct t'; [done|]. unfold steps_left. simpl. rewrite lookup_delete_eq, H. lia.
  - rewrite (steps_left_same s); [done| |done]. destruct t'; simpl; [by rewrite lookup_insert_ne|by rewrite lookup_delete_ne].
Qed.

Lemma put_steps s n t : steps_left (put_token n (Some t) s) n = steps_left (mkSys ∅ 0 ∅ ∅ {[n := t]} [] [] at_start) n.
Proof. unfold steps_left. simpl. rewrite lookup_insert_eq, lookup_singleton_eq. done. Qed.

Lemma route_steps res n s : (steps_left (put_token n (Some (route_result defaultTopicID res)) s) n <= 4)%nat.
Proof. rewrite put_steps. unfold steps_left, route_result. simpl. rewrite lookup_singleton_eq. destruct (decide _); lia. Qed.

Ltac steps_at := unfold steps_left; simpl; rewrite ?lookup_insert_eq, ?lookup_delete_eq.

(** The request of [n] has not reached a worker. *)
Definition queued (s : Sys) (n : nat) : bool := match sy_tokens s !! n with Some (TQueued _) => true | _ => false end.

Lemma enabled_step s n k : inv s -> lf_sinks (sy_life s) = true -> queued s n = false \/ lf_workers (sy_life s) = true ->
  sy_calls s !! n = Some k -> call_state k = CbWaiting ->
  exists s', ps_step True s s' /\ (steps_left s' n < steps_left s n)%nat.
Proof.
  intros Hi Hsk Hq Hk Hst. destruct (i_call _ Hi n k Hk) as [Hch Hok]. rewrite Hst in Hch, Hok. specialize (Hch eq_refl).
  destruct Hok as [[(t & Ht & Htok) Hb]|(Ht & b & Hb & _)].
  - assert (steps_left s n = steps_left (mkSys ∅ 0 ∅ ∅ {[n := t]} [] [] at_start : Sys) n) as -> by (unfold steps_left; simpl; by rewrite Ht, lookup_singleton_eq).
    unfold steps_left at 2. simpl. rewrite lookup_singleton_eq. destruct t as [ir|ir|res|ir|id topic bytes|id b|c b].
    + eexists. split; [apply (PTake _ n ir); [done|]|steps_at; lia]. unfold queued in Hq. rewrite Ht in Hq. by destruct Hq.
    + eexists. split; [by apply (PWorkerRetry _ n ir ir)|]. steps_at. lia.
    + eexists. split; [by apply (PResult _ n res)|]. pose proof (route_steps res n s). lia.
    + eexists. split; [by apply (PRetry _ n ir)|]. steps_at. lia.
    + eexists. split; [by apply (PPublishFails _ n id topic bytes)|]. steps_at. lia.
    + destruct Htok as [-> _]. eexists. split; [by apply (PSignal _ n (id_of k) b)|]. rewrite Hch. steps_at. lia.
    + destruct Htok as [-> _]. eexists. split; [by apply (PBuffer _ n n b)|]. steps_at. lia.
  - eexists. split; [by apply (PAnswered _ n k b)|]. unfold steps_left. simpl. rewrite Ht, lookup_delete_eq, Hb. lia.
Qed.

Lemma steps_never_rise s s' n k : inv s -> ps_step True s s' -> sy_calls s !! n = Some k -> call_state k = CbWaiting ->
  (steps_left s' n <= steps_left s n)%nat.
Proof.
  intros Hi Hstep Hk Hst.
  destruct Hstep as [cd msg s Hf Hs|m k' ir g ing s Hk' Hst' Hl|m k' res s Hk' Hst'|m k' ir s Hk' Hst'|m ir s Ht Hw|m ir res s Ht Hr|m ir ir' s Ht Hr|m res s Ht Hs|m ir s Ht Hs
    |m id topic bytes s Ht|m id topic bytes s Ht|m id b s Ht|m c b s Ht Hb|m k' b s Hk' Hst' Hb|m k' s Hk' Hst'|s|s Hs Hn|s Hs Hn|s Hs|m ir s Ht Hd|s Hs Hw]; try done.
  - unfold deliver. destruct (receive_request cd msg); by rewrite (steps_left_same s).
  - unfold gate_answer. destruct (gd_verdict g) as [v|e]; [destruct (v_Action v)|]; by rewrite (steps_left_same s).
  - assert (n <> m) by congruence. rewrite (steps_left_same s); [done| |done]. simpl. by rewrite lookup_insert_ne.
  - assert (n <> m) by congruence. rewrite (steps_left_same s); [done| |done]. simpl. by rewrite lookup_insert_ne.
  - apply (steps_put _ _ _ _ _ Ht). unfold steps_left at 2. rewrite Ht. steps_at. lia.
  - apply (steps_put _ _ _ _ _ Ht). unfold steps_left at 2. rewrite Ht. steps_at. lia.
  - apply (steps_put _ _ _ _ _ Ht). unfold steps_left at 2. rewrite Ht. steps_at. lia.
  - apply (steps_put _ _ _ _ _ Ht). unfold steps_left at 2. rewrite Ht. pose proof (route_steps res m s). lia.
  - apply (steps_put _ _ _ _ _ Ht). unfold steps_left at 2. rewrite Ht. steps_at. lia.
  - destruct (decide (n = m)) as [->|Hne]; [unfold steps_left; simpl; rewrite Ht, lookup_insert_eq; lia|].
    rewrite (steps_left_same s); [done| |done]. simpl. by rewrite lookup_insert_ne.
  - apply (steps_put _ _ _ _ _ Ht). unfold steps_left at 2. rewrite Ht. steps_at. lia.
  - apply (steps_put _ _ _ _ _ Ht). destruct (waiting_token s m _ Hi Ht) as (k0 & _ & _ & _ & Hb0 & _).
    destruct (sy_chans s !! id); [|done]. simpl. unfold steps_left at 2. rewrite Ht. steps_at. lia.
  - destruct (waiting_token s m _ Hi Ht) as (k0 & _ & _ & [-> _] & _ & _).
    destruct (decide (n = m)) as [->|Hne]; [unfold steps_left; simpl; rewrite Ht, lookup_delete_eq, lookup_insert_eq; lia|].
    rewrite (steps_left_same s); [done|simpl; by rewrite lookup_delete_ne|simpl; by rewrite lookup_insert_ne].
  - destruct (decide (n = m)) as [->|Hne]; [unfold steps_left; simpl; rewrite lookup_delete_eq; destruct (sy_tokens s !! m); [done|lia]|].
    rewrite (steps_left_same s); [done|done|simpl; by rewrite lookup_delete_ne].
  - apply (steps_put _ _ _ _ _ Ht). by destruct (waiting_token s m _ Hi Ht) as (k0 & _ & _ & _ & Hb0 & _).
Qed.


(** ** Callbacks that shutdown leaves behind *)

(** The request of callback [n] waits for a worker, and there is none. *)
Definition stranded (n : nat) (s : Sys) : Prop :=
  inv s /\ life_ok s /\ (exists k, sy_calls s !! n = Some k /\ call_state k = CbWaiting) /\ queued s n = true /\ lf_workers (sy_life s) = false.

Lemma stranded_step n s s' : ps_step True s s' -> stranded n s -> stranded n s'.
Proof.
  intros Hstep (Hi & Hl & (k & Hk & Hst) & Hq & Hw). split; [by eapply step_inv|]. split; [by eapply step_life|]. clear Hl.
  assert (exists ir, sy_tokens s !! n = Some (TQueued ir)) as [ir0 Ht0].
  { unfold queued in Hq. destruct (sy_tokens s !! n) as [[ir| | | | | |]|]; try done. by exists ir. }
  assert (sy_bufs s !! n = None) as Hbn by (destruct (waiting_token s n _ Hi Ht0) as (_ & _ & _ & _ & ? & _); done).
  assert (n < sy_next s)%nat as Hnx by (apply (i_next _ Hi); eauto).
  assert (forall s1, sy_calls s1 !! n = sy_calls s !! n -> sy_tokens s1 !! n = sy_tokens s !! n -> lf_workers (sy_life s1) = false ->
    (exists k, sy_calls s1 !! n = Some k /\ call_state k = CbWaiting) /\ queued s1 n = true /\ lf_workers (sy_life s1) = false) as Hsame.
  { intros s1 Hc Ht ?. rewrite Hc. unfold queued. rewrite Ht, Ht0. eauto. }
  destruct Hstep as [cd msg s Hf Hs|m k' ir g ing s Hk' Hst' Hg|m k' res s Hk' Hst'|m k' ir s Hk' Hst'|m ir s Ht Hw'|m ir res s Ht Hr|m ir ir' s Ht Hr|m res s Ht Hs|m ir s Ht Hs
    |m id topic bytes s Ht|m id topic bytes s Ht|m id b s Ht|m c b s Ht Hb|m k' b s Hk' Hst' Hb|m k' s Hk' Hst'|s|s Hs Hn|s Hs Hn|s Hs|m ir s Ht Hd|s Hs Hw'];
    try congruence; try (by apply Hsame); try (assert (n <> m) as Hne by congruence);
    try (apply Hsame; simpl; [done|by rewrite ?lookup_insert_ne, ?lookup_delete_ne by done|done]);
    try (apply Hsame; simpl; [by rewrite lookup_insert_ne|by rewrite ?lookup_insert_ne by done|done]).
  - unfold deliver. destruct (receive_request cd msg); apply Hsame; simpl; try done; (rewrite lookup_insert_ne; [done|lia]).
  - unfold gate_answer. destruct (gd_verdict g) as [v|e]; [destruct (v_Action v)|]; apply Hsame; simpl; try done; by rewrite lookup_insert_ne.
  - apply Hsame; [done| |done]. destruct (sy_chans s !! id); simpl; [by rewrite lookup_insert_ne|by rewrite lookup_delete_ne].
Qed.

(** The workers leave on the signal, whether or not callbacks are still to send
    their request, and a callback's send does not end with any context: when its
    gate answers after the workers have left, its request reaches nobody, it waits
    whatever happens next, and StopConsuming, which waits for it, never returns. *)
Theorem stranded_by_shutdown (cd : RequestChannelData) msg ir : receive_request cd msg = Some ir ->
  exists s, ps_reaches True initial s /\
    forall s', ps_reaches True s s' -> lf_stopped (sy_life s') = false /\ exists k, sy_calls s' !! 0%nat = Some k /\ call_state k = CbWaiting.
Proof.
  intros Hrec. set (ir' := mkInternalRequest (ir_Routing ir) (ir_Public ir) 0).
  set (gone := mkLife true false false false true).
  set (s := mkSys {[0%nat := mkCall cd msg [] CbWaiting]} 1 {[m_ID msg := 0%nat]} ∅ {[0%nat := TQueued ir']} [] [] gone : Sys). exists s.
  assert (ps_reaches True initial s) as Hr.
  { eapply rtc_l; [apply (PDeliver _ cd msg); done|]. unfold deliver at 1. rewrite Hrec. simpl.
    eapply rtc_l; [apply PInterrupt|]. unfold set_life; simpl.
    eapply rtc_l; [apply PWorkersLeave; done|]. unfold set_life; simpl.
    eapply rtc_l; [eapply (PGate _ 0 _ ir (mkGated (Ok Continue) [] ir) 0); [by simplify_map_eq|done|done]|]. unfold gate_answer, set_call; simpl.
    eapply rtc_l; [eapply (PSend _ 0 _ ir'); [by simplify_map_eq|done]|]. unfold put_token, set_call; simpl.
    rewrite !insert_insert_eq. apply rtc_refl. }
  split; [done|]. assert (stranded 0 s) as Hs.
  { destruct (reachable_ok s Hr) as [H1 H2]. split_and!; try done. by eexists. }
  intros s' Hs'. assert (stranded 0 s') as (_ & Hl & (k & Hk & Hst) & _).
  { clear Hr. clearbody s. revert Hs. induction Hs' as [|x y z Hxy _ IH]; [done|]. intros Hx. by apply IH, (stranded_step 0 x). }
  split; [|eauto]. destruct (lf_stopped (sy_life s')) eqn:E; [|done]. pose proof (l_stopped _ Hl E _ _ Hk) as Ha. by rewrite Hst in Ha.
Qed.

(** ** Message IDs that are shared *)

(** Nothing is on its way to callback [n], and nothing will be. *)
Definition forgotten (n : nat) (s : Sys) : Prop :=
  (exists k, sy_calls s !! n = Some k /\ call_state k = CbWaiting) /\ (n < sy_next s)%nat /\ sy_tokens s !! n = None /\ sy_bufs s !! n = None /\
  (forall id, sy_chans s !! id <> Some n) /\ (forall m b, sy_tokens s !! m <> Some (TSignalling n b)).

Lemma forgotten_put n m t s : forgotten n s -> m <> n -> (forall b, t <> Some (TSignalling n b)) -> forgotten n (put_token m t s).
Proof.
  intros (H1 & H2 & H3 & H4 & H5 & H6) Hne Ht. split_and!; try done; simpl.
  - destruct t; [by rewrite lookup_insert_ne|by rewrite lookup_delete_ne].
  - intros m' b. destruct t as [t|].
    + destruct (decide (m' = m)) as [->|]; [rewrite lookup_insert_eq; intros [= ->]; by apply (Ht b)|by rewrite lookup_insert_ne].
    + intros [_ H]%lookup_delete_Some. by apply (H6 m' b).
Qed.

Lemma forgotten_call n m k s : forgotten n s -> m <> n -> forgotten n (set_call m k s).
Proof. intros (H1 & H2 & H3 & H4 & H5 & H6) Hne. split_and!; try done. simpl. by rewrite lookup_insert_ne. Qed.

Lemma forgotten_return n m k st s : forgotten n s -> m <> n -> forgotten n (return_at m k st s).
Proof.
  intros (H1 & H2 & H3 & H4 & H5 & H6) Hne. split_and!; try done; simpl; [by rewrite lookup_insert_ne|].
  intros id [_ H]%lookup_delete_Some. by apply (H5 id).
Qed.

Lemma forgotten_step n s s' : ps_step False s s' -> forgotten n s -> forgotten n s'.
Proof.
  intros Hstep Hf. pose proof Hf as ((k & Hk & Hst) & H2 & H3 & H4 & H5 & H6).
  assert (forall m, is_Some (sy_tokens s !! m) -> m <> n) as Hm by (intros m [t Ht] ->; congruence).
  destruct Hstep as [cd msg s _ Hs|m k' ir g ing s Hk' Hst' Hl|m k' res s Hk' Hst'|m k' ir s Hk' Hst'|m ir s Ht Hw|m ir res s Ht Hr|m ir ir' s Ht Hr|m res s Ht Hs|m ir s Ht Hs
    |m id topic bytes s Ht|m id topic bytes s Ht|m id b s Ht|m c b s Ht Hb|m k' b s Hk' Hst' Hb|m k' s Hk' Hst'|s|s Hs Hn|s Hs Hn|s Hs|m ir s Ht Hd|s Hs Hw];
    try exact Hf; try (by apply forgotten_put; [done|apply Hm; eauto|]).
  - unfold deliver. destruct (receive_request cd msg); split_and!; simpl; try done; try lia; try (rewrite lookup_insert_ne by lia; eauto).
    intros id [[_ ?]|[_ H]]%lookup_insert_Some; [lia|by apply (H5 id)].
  - assert (m <> n) as Hne by (intros ->; assert (k' = k) as -> by congruence; congruence). unfold gate_answer.
    destruct (gd_verdict g) as [v|e]; [destruct (v_Action v)|]; by first [apply forgotten_return|apply forgotten_call].
  - assert (m <> n) as Hne by (intros ->; congruence). apply forgotten_put; [by apply forgotten_call|done|done].
  - assert (m <> n) as Hne by (intros ->; congruence). apply forgotten_put; [by apply forgotten_call|done|done].
  - apply forgotten_put; [done|apply Hm; eauto|]. unfold route_result. by destruct (decide _).
  - apply (forgotten_put n m (Some (TSignal id true))) in Hf; [|apply Hm; eauto|done]. done.
  - apply forgotten_put; [done|apply Hm; eauto|]. intros b'. destruct (sy_chans s !! id) as [c|] eqn:E; simpl; [|done]. intros [= -> _]. by apply (H5 id).
  - assert (c <> n) as Hc by (intros ->; by apply (H6 m b)). apply (forgotten_put n m None) in Hf as (G1 & G2 & G3 & G4 & G5 & G6); [|apply Hm; eauto|done].
    split_and!; try done. simpl. by rewrite lookup_insert_ne.
  - assert (m <> n) as Hne by (intros ->; congruence). apply forgotten_return; [|done]. split_and!; try done; [by exists k|]. simpl. by rewrite lookup_delete_ne.
  - assert (m <> n) as Hne by (intros ->; congruence). by apply forgotten_call.
Qed.

(** Two deliveries with one message ID, from subscriptions of one topic, and
    the answer of the first. *)
Definition passes (ir : InternalRequest) : gated := mkGated (Ok Continue) [] ir.
Definition w_result (ir : InternalRequest) : ResultMessage := mkResultMessage "" 200 "" "" "" (ir_Routing ir) ∅.

Lemma reaches_eq distinct s s' : s = s' -> ps_reaches distinct s s'.
Proof. intros ->. apply rtc_refl. Qed.
Lemma reaches_trans distinct s1 s2 s3 : ps_reaches distinct s1 s2 -> ps_reaches distinct s2 s3 -> ps_reaches distinct s1 s3.
Proof. unfold ps_reaches. by etransitivity. Qed.

(** The map of results channels is keyed by the message ID alone, which
    the subscriptions of a topic share.  When two of them deliver a message
    while the first is being handled, the first result answers the second
    callback: it acknowledges its message although no result of it was
    published, and the first callback waits for ever, whatever happens next. *)
Theorem shared_id_acks_unpublished (cdA cdB : RequestChannelData) msg irA irB :
  receive_request cdA msg = Some irA -> receive_request cdB msg = Some irB ->
  or_default (rt_ResultQueueName (ir_Routing irA)) defaultTopicID <> "" ->
  exists s kB, ps_reaches False initial s /\
    sy_calls s !! 1%nat = Some kB /\ call_cd kB = cdB /\ call_msg kB = msg /\ call_state kB = CbDone true /\
    Forall (fun p => pb_call p <> 1%nat) (sy_published s) /\
    forall s', ps_reaches False s s' -> exists k, sy_calls s' !! 0%nat = Some k /\ call_state k = CbWaiting.
Proof.
  intros HA HB Htopic. set (topic := or_default _ _) in *.
  assert (rt_TransportCorrelationID (ir_Routing irA) = m_ID msg) as Hid.
  { unfold receive_request in HA. destruct (decode_wire _); [|done]. simpl in HA. by injection HA as <-. }
  assert (route_result defaultTopicID (w_result irA) = TPublishing (m_ID msg) topic (marshalResult (w_result irA))) as Hroute.
  { unfold route_result. simpl. fold topic. rewrite Hid. by rewrite decide_False. }
  set (irA' := mkInternalRequest (ir_Routing irA) (ir_Public irA) 0). set (irB' := mkInternalRequest (ir_Routing irB) (ir_Public irB) 0).
  set (kA st := mkCall cdA msg [] st : call). set (kB st := mkCall cdB msg [] st : call).
  set (pub := mkPub 0 (m_ID msg) topic (marshalResult (w_result irA))).
  set (fin := mkSys (<[1%nat := kB (CbDone true)]> {[0%nat := kA CbWaiting]}) 2 ∅ ∅ {[1%nat := TQueued irB']} [pub] [] at_start : Sys).
  exists fin, (kB (CbDone true)).
  assert (forgotten 0 fin) as Hfor.
  { unfold fin. split_and!; simpl; try done; [by eexists|lia|]. intros m b [_ ?]%lookup_singleton_Some; done. }
  split_and!; try done; [|by constructor|].
  - set (st cs bufs tok pubs chans := mkSys cs 2 chans bufs tok pubs [] at_start : Sys).
    assert (ps_reaches False initial (st {[0%nat := kA CbWaiting; 1%nat := kB CbWaiting]} ∅
              {[0%nat := TQueued irA'; 1%nat := TQueued irB']} [] {[m_ID msg := 1%nat]})) as H1.
    { eapply rtc_l; [apply (PDeliver _ cdA msg); done|]. unfold deliver at 1. rewrite HA.
      eapply rtc_l; [apply (PDeliver _ cdB msg); done|]. unfold deliver at 1. rewrite HB. simpl.
      eapply rtc_l; [eapply (PGate _ 0 _ irA (passes irA) 0); [by simplify_map_eq|done|done]|]. unfold gate_answer; simpl.
      eapply rtc_l; [eapply (PGate _ 1 _ irB (passes irB) 0); [by simplify_map_eq|done|done]|]. unfold gate_answer, set_call; simpl.
      eapply rtc_l; [eapply (PSend _ 0 _ irA'); [by simplify_map_eq|done]|]. unfold put_token, set_call; simpl.
      eapply rtc_l; [eapply (PSend _ 1 _ irB'); [by simplify_map_eq|done]|]. unfold put_token, set_call; simpl.
      rewrite insert_insert_eq. apply reaches_eq. done. }
    eapply reaches_trans; [exact H1|]. unfold st.
    eapply rtc_l; [eapply (PTake _ 0 irA'); done|]. unfold put_token; simpl.
    eapply rtc_l; [eapply (PWorkerResult _ 0 irA' (w_result irA)); done|]. unfold put_token; simpl.
    eapply rtc_l; [eapply (PResult _ 0 (w_result irA)); done|]. unfold put_token; simpl. rewrite Hroute.
    eapply rtc_l; [eapply (PPublished _ 0); done|]. simpl.
    eapply rtc_l; [eapply (PSignal _ 0 (m_ID msg) true); done|]. unfold put_token; simpl. rewrite lookup_singleton_eq. simpl.
    eapply rtc_l; [eapply (PBuffer _ 0 1 true); done|]. simpl.
    eapply rtc_l; [eapply (PAnswered _ 1 (kB CbWaiting) true); done|]. unfold return_at; simpl. rewrite delete_singleton_eq.
    apply reaches_eq. done.
  - intros s' Hs'. assert (forgotten 0 s') as (H & _); [|exact H]. revert Hfor. induction Hs'; eauto using forgotten_step.
Qed.
End threads.

(** ** The consume loop *)
Inductive receive_mode : Type :=
| Throttled                (* waits for a change of the budget *)
| Receiving (limit : Z).

(** The limit of outstanding messages is the batch of the sorted-set flow. *)
Definition receive_window (batchSize : Z) (budget : float64) : receive_mode :=
  let n := batch_of batchSize budget in if n <=? 0 then Throttled else Receiving n.

Lemma batch_of_bounds batchSize q : 0 < batchSize < 2 ^ 52 -> (0 <= q <= 1)%Q -> 0 <= batch_of batchSize (Fin q) <= batchSize.
Proof.
  intros Hb [Hq0 Hq1]. unfold batch_of, fmul64.
  assert (0 <= inject_Z batchSize)%Q as H0 by (change 0%Q with (inject_Z 0); rewrite <- Zle_Qle; lia).
  assert (0 <= inject_Z batchSize * q)%Q as P0 by by apply Qmult_le_0_compat.
  assert (inject_Z batchSize * q <= inject_Z batchSize)%Q as P1.
  { rewrite <- (Qmult_1_r (inject_Z batchSize)) at 2. rewrite !(Qmult_comm (inject_Z batchSize)). by apply Qmult_le_compat_r. }
  split.
  - change 0 with (Qfloor (inject_Z 0)). apply Qfloor_resp_le. by apply frnd_nonneg.
  - rewrite <- (Qfloor_Z batchSize) at 2. apply Qfloor_resp_le. apply (frnd_le _ batchSize 0); [exact P0|lia| |exact P1].
    eapply Qle_lt_trans; [exact P1|]. rewrite <- Zlt_Qlt. simpl. lia.
Qed.

Lemma batch_of_full batchSize q : 0 < batchSize < 2 ^ 52 -> (q == 1)%Q -> batch_of batchSize (Fin q) = batchSize.
Proof.
  intros Hb Hq. unfold batch_of, fmul64. rewrite <- (Qfloor_Z batchSize) at 2. apply Qfloor_comp.
  assert (inject_Z batchSize * q == inject_Z batchSize)%Q as E by (rewrite Hq; ring).
  transitivity (inject_Z batchSize * q)%Q; [apply (frnd_exact _ batchSize 0); [lia|lia|exact E]|exact E].
Qed.

(** The messages a subscription may have outstanding: with a budget of the
    unit interval, at most the configured batch, and all of it when the budget
    is one; with no budget, or one that is not a number, the flow does not
    receive. *)
Theorem receive_window_bounded batchSize budget :
  0 < batchSize < 2 ^ 52 -> in_unit budget = true ->
  match receive_window batchSize budget with
  | Receiving n => 0 < n <= batchSize /\ (feq budget (Fin 1) = true -> n = batchSize)
  | Throttled => feq budget (Fin 1) = false
  end /\ (fle budget (Fin 0) = true \/ isNaN budget = true -> receive_window batchSize budget = Throttled).
Proof.
  intros Hb Hu. unfold receive_window. destruct budget as [q| | |]; try done.
  unfold in_unit in Hu. simpl in Hu. apply andb_true_iff in Hu as [H0%Qle_bool_iff H1%Qle_bool_iff].
  pose proof (batch_of_bounds batchSize q Hb (conj H0 H1)) as Hn. unfold feq. cbn [fle isNaN].
  assert (Qle_bool q 1 && Qle_bool 1 q = true -> batch_of batchSize (Fin q) = batchSize) as Hfull.
  { intros [_ H%Qle_bool_iff]%andb_true_iff. apply batch_of_full; [done|]. by apply Qle_antisym. }
  split.
  - destruct (Z.leb_spec (batch_of batchSize (Fin q)) 0) as [Hle|Hgt].
    + destruct (Qle_bool q 1 && _); [|done]. specialize (Hfull eq_refl). lia.
    + split; [lia|done].
  - intros [H%Qle_bool_iff|]; [|done]. assert (q == 0)%Q as E by (apply Qle_antisym; done).
    assert (batch_of batchSize (Fin q) = 0) as ->; [|done]. unfold batch_of, fmul64. change 0 with (Qfloor 0). apply Qfloor_comp.
    assert (inject_Z batchSize * q == 0)%Q as Em by (rewrite E; ring). 
    transitivity (inject_Z batchSize * q)%Q; [apply (frnd_exact _ 0 0); [lia|lia|exact Em]|exact Em].
Qed.

(** ** Health *)

(** Times are nanoseconds; [zeroTime] is the zero [time.Time]. *)
Definition zeroTime : Z := - 62135596800 * Second.
Record subHealth : Type := mkHealth { h_lastOK : Z; h_lastErr : bool; h_lastErrAt : Z }.
Definition freshHealth : subHealth := mkHealth zeroTime false zeroTime.
Definition consumeHealthTTL : Z := 30 * Second.

Definition recordConsumeOK (now : Z) (sub : string) (hs : gmap string subHealth) : gmap string subHealth :=
  alter (fun h => mkHealth now false (h_lastErrAt h)) sub hs.
Definition recordConsumeErr (now : Z) (sub : string) (hs : gmap string subHealth) : gmap string subHealth :=
  alter (fun h => mkHealth (h_lastOK h) true now) sub hs.

(** After [Receive]: its error, whether it is a cancellation, and whether the
    consume context ended. *)
Definition receive_ended (now : Z) (sub : string) (err : option bool) (stopped : bool) (hs : gmap string subHealth) : gmap string subHealth :=
  match err with
  | Some canceled => if negb stopped && negb canceled then recordConsumeErr now sub hs else hs
  | None => hs
  end.

(** How a probe ends: found, refused for lack of permission, or not reached. *)
Inductive probe_reply : Type := ProbeFound | ProbeDenied | ProbeFailed.
Definition probeSubscription (reply : probe_reply) : bool := match reply with ProbeFailed => false | _ => true end.

Inductive health : Type :=
| Unhealthy        (* the consume loop's error *)
| Healthy
| Unknown.
Definition passive (now : Z) (h : option subHealth) : health :=
  match h with
  | None => Unknown
  | Some h =>
      if h_lastErr h && (h_lastOK h <? h_lastErrAt h) && (now - h_lastErrAt h <? consumeHealthTTL) then Unhealthy
      else if negb (h_lastOK h =? zeroTime) && (now - h_lastOK h <? consumeHealthTTL) then Healthy
      else Unknown
  end.

Fixpoint HealthCheck (now : Z) (probe : string -> probe_reply) (hs : gmap string subHealth) (subs : list string) : Res string unit :=
  match subs with
  | [] => Ok tt
  | sub :: rest =>
      match passive now (hs !! sub) with
      | Unhealthy => Err sub
      | Healthy => HealthCheck now probe hs rest
      | Unknown => if probeSubscription (probe sub) then HealthCheck now probe hs rest else Err sub
      end
  end.

(** The consume loop's reports on the subscriptions, in order. *)
Inductive health_event : Type :=
| HDelivered (t : Z) (sub : string)
| HFailed (t : Z) (sub : string).
Definition health_time (e : health_event) : Z := match e with HDelivered t _ | HFailed t _ => t end.
Definition health_apply (hs : gmap string subHealth) (e : health_event) : gmap string subHealth :=
  match e with HDelivered t sub => recordConsumeOK t sub hs | HFailed t sub => recordConsumeErr t sub hs end.
Definition health_start (subs : list string) : gmap string subHealth := list_to_map ((fun sub => (sub, freshHealth)) <$> subs).

Lemma HealthCheck_ok now probe hs subs :
  HealthCheck now probe hs subs = Ok tt <->
  Forall (fun sub => match passive now (hs !! sub) with Unhealthy => False | Healthy => True | Unknown => probeSubscription (probe sub) = true end) subs.
Proof.
  induction subs as [|sub subs IH]; [by split|]. rewrite Forall_cons, <- IH. simpl. destruct (passive now (hs !! sub)); [naive_solver..|].
  destruct (probeSubscription (probe sub)); naive_solver.
Qed.

Definition about (sub : string) (e : health_event) : bool := match e with HDelivered _ s | HFailed _ s => bool_decide (s = sub) end.
Definition last_event (sub : string) (es : list health_event) : option health_event := last (filter (fun e => about sub e = true) es).

(** What the last report on a subscription says of it. *)
Definition report_says (now : Z) (e : option health_event) : health :=
  match e with
  | Some (HDelivered t _) => if now - t <? consumeHealthTTL then Healthy else Unknown
  | Some (HFailed t _) => if now - t <? consumeHealthTTL then Unhealthy else Unknown
  | None => Unknown
  end.

Lemma last_event_snoc sub es e : last_event sub (es ++ [e]) = if about sub e then Some e else last_event sub es.
Proof.
  unfold last_event. rewrite filter_app. destruct (about sub e) eqn:E.
  - rewrite (filter_cons_True _ e []), filter_nil by done. by rewrite last_snoc.
  - rewrite (filter_cons_False _ e []), filter_nil by congruence. by rewrite app_nil_r.
Qed.

Lemma health_state subs es sub : sub ∈ subs -> StronglySorted Z.lt (zeroTime :: (health_time <$> es)) ->
  exists h, foldl health_apply (health_start subs) es !! sub = Some h /\ (h_lastOK h = zeroTime \/ h_lastOK h ∈ health_time <$> es) /\
    match last_event sub es with
    | None => h = freshHealth
    | Some (HDelivered t _) => h_lastOK h = t /\ h_lastErr h = false /\ zeroTime < t
    | Some (HFailed t _) => h_lastErr h = true /\ h_lastErrAt h = t /\ h_lastOK h < t
    end.
Proof.
  intros Hin. induction es as [|e es IH] using rev_ind; intros Hs.
  { exists freshHealth. split_and!; [|by left|done]. simpl. unfold health_start.
    apply elem_of_list_to_map_1'; [|by apply list_elem_of_fmap; exists sub]. intros y (s & [= _ ->] & _)%list_elem_of_fmap. done. }
  rewrite fmap_app in Hs.
  apply (StronglySorted_app Z.lt (zeroTime :: (health_time <$> es)) [health_time e]) in Hs as (Hlt & Hs & _). destruct (IH Hs) as (h & Hh & Hok & Hlast).
  assert (h_lastOK h < health_time e) as Hnew.
  { apply Hlt; [|set_solver]. destruct Hok as [->|Hok]; set_solver. }
  rewrite foldl_snoc, last_event_snoc. set (hs := foldl _ _ _) in *.
  destruct e as [t s|t s]; simpl in *; unfold recordConsumeOK, recordConsumeErr; rewrite lookup_alter.
  - case_bool_decide as E; [subst s; rewrite decide_True by done|rewrite decide_False by done]; simpl.
    + eexists. split; [by rewrite Hh|]. simpl. split_and!; [right; rewrite fmap_app; set_solver|done|done|]. apply Hlt; set_solver.
    + exists h. split; [exact Hh|]. split; [rewrite fmap_app; set_solver|done].
  - case_bool_decide as E; [subst s; rewrite decide_True by done|rewrite decide_False by done]; simpl.
    + eexists. split; [by rewrite Hh|]. simpl. split_and!; [rewrite fmap_app; set_solver|done|done|done].
    + exists h. split; [exact Hh|]. split; [rewrite fmap_app; set_solver|done].
Qed.

Lemma passive_says now h e : zeroTime + consumeHealthTTL <= now ->
  match e with
  | None => h = freshHealth
  | Some (HDelivered t _) => h_lastOK h = t /\ h_lastErr h = false /\ zeroTime < t
  | Some (HFailed t _) => h_lastErr h = true /\ h_lastErrAt h = t /\ h_lastOK h < t
  end -> passive now (Some h) = report_says now e.
Proof.
  intros Hz H. unfold passive. destruct e as [[t s|t s]|]; simpl.
  - destruct H as (-> & -> & Ht). simpl. destruct (Z.eqb_spec t zeroTime); [lia|]. simpl. done.
  - destruct H as (-> & -> & Ht). rewrite (proj2 (Z.ltb_lt _ _) Ht). simpl.
    destruct (Z.ltb_spec (now - t) consumeHealthTTL); [done|]. destruct (Z.ltb_spec (now - h_lastOK h) consumeHealthTTL); [lia|]. by rewrite andb_false_r.
  - subst h. simpl. done.
Qed.

(** The readiness of the flow is what the last reports of its consume loops
    say: with reports in order of time, the check passes exactly when each
    subscription's last report, if it is less than thirty seconds old, was a
    delivery, and else a probe reaches the subscription, which a missing
    permission does not prevent.  An error is forgotten after the thirty
    seconds, and a delivery at once outdates it. *)
Theorem readiness_exact now probe subs es :
  StronglySorted Z.lt (zeroTime :: (health_time <$> es)) -> Forall (fun e => health_time e <= now) es -> zeroTime + consumeHealthTTL <= now ->
  HealthCheck now probe (foldl health_apply (health_start subs) es) subs = Ok tt <->
  Forall (fun sub => match report_says now (last_event sub es) with
                     | Unhealthy => False
                     | Healthy => True
                     | Unknown => probe sub <> ProbeFailed
                     end) subs.
Proof.
  intros Hs Hnow Hz. rewrite HealthCheck_ok.
  assert (forall sub, sub ∈ subs -> passive now (foldl health_apply (health_start subs) es !! sub) = report_says now (last_event sub es)) as Hp.
  { intros sub Hin. destruct (health_state subs es sub Hin Hs) as (h & -> & _ & Hlast). by apply passive_says. }
  assert (forall r, probeSubscription r = true <-> r <> ProbeFailed) as Hr by by intros [].
  rewrite !Forall_forall. split; intros H sub Hin; specialize (H sub Hin); rewrite (Hp sub Hin) in *;
    destruct (report_says now _); try done; by apply Hr.
Qed.

(** ** Backlog *)

(** What the query of the monitoring service returns for a subscription. *)
Inductive series_reply : Type :=
| SeriesDone                  (* no time series *)
| SeriesFailed
| SeriesPoints (points : list Z).

Definition subscription_stat (sub pool : string) (reply : series_reply) : QueueBacklogStat * bool :=
  match reply with
  | SeriesPoints (latest :: _) => (mkStat sub sub pool latest true None, false)
  | SeriesFailed => (mkStat sub sub pool 0 false None, true)
  | _ => (mkStat sub sub pool 0 false None, false)
  end.

(** [None]: the monitoring client could not be made. The error is the first
    subscription whose query failed. *)
Definition PubSubBacklog {Gate : Type} (query : option (string -> series_reply)) (channels : list (RequestChannelData Gate)) :
    list QueueBacklogStat * option string :=
  match query with
  | None => ((fun cd => mkStat (cd_subscriberID cd) (cd_subscriberID cd) (rc_WorkerPoolID (cd_channel cd)) 0 false None) <$> channels, None)
  | Some q =>
      let each := (fun cd => (cd_subscriberID cd, subscription_stat (cd_subscriberID cd) (rc_WorkerPoolID (cd_channel cd)) (q (cd_subscriberID cd)))) <$> channels in
      ((fun x => x.2.1) <$> each, fst <$> head (filter (fun x => x.2.2 = true) each))
  end.

(** A source is called available only when it had a sample. *)
Theorem backlog_available {Gate : Type} query (channels : list (RequestChannelData Gate)) :
  Forall2 (fun cd s => qs_QueueName s = cd_subscriberID cd /\ qs_ExpiringCounts s = None /\
    (qs_SourceAvailable s = true <-> exists q latest rest, query = Some q /\ q (cd_subscriberID cd) = SeriesPoints (latest :: rest) /\ qs_Depth s = latest) /\
    (qs_SourceAvailable s = false -> qs_Depth s = 0)) channels (PubSubBacklog query channels).1.
Proof.
  destruct query as [q|]; simpl.
  - rewrite <- list_fmap_compose. apply Forall2_fmap_r, Forall_Forall2_diag, Forall_forall. intros cd _. unfold compose, subscription_stat. simpl.
    destruct (q (cd_subscriberID cd)) as [| |[|latest rest]] eqn:E; simpl; split_and!; try done;
      (split; [intros; try done; eauto 10|intros (q' & l' & r' & [= <-] & E' & ?); congruence]).
  - apply Forall2_fmap_r, Forall_Forall2_diag, Forall_forall. intros cd _. simpl. split_and!; try done.
    split; [done|]. by intros (q' & l' & r' & ? & _).
Qed.

(** ** A loaded configuration *)
Lemma check_topics_spec {Params : Type} (topics : list (TopicConfig Params)) :
  check_topics topics = Ok tt -> Forall (fun t => tc_SubscriberID t <> "" /\ tc_IGWBaseURL t <> "") topics.
Proof. induction topics as [|t topics IH]; [by constructor|]. simpl. repeat case_decide; try done. constructor; auto. Qed.

Lemma topic_channels_ok {Gate Params : Type} (g0 : Gate) create pools c (topics : list (TopicConfig Params)) :
  Forall (fun t => tc_IGWBaseURL t <> "" /\ or_default (tc_WorkerPoolID t) "default" ∈ pools) topics ->
  (forall pool sub p, is_Some (create pool sub p)) ->
  exists l, topic_channels g0 (Some create) pools c topics = Ok l /\
    Forall2 (fun t cd => cd_subscriberID cd = tc_SubscriberID t /\ cd_resultTopicID cd = tc_ResultTopicID t /\ cd_labels cd = tc_Labels t /\
      rc_WorkerPoolID (cd_channel cd) = or_default (tc_WorkerPoolID t) "default") topics l /\
    (rc_Channel ∘ cd_channel) <$> l = seq c (length topics).
Proof.
  intros Ht Hc. revert c. induction Ht as [|t topics [Hu Hp] _ IH]; intros c; [by exists []|].
  destruct (IH (S c)) as (l & El & Hl & Hn). simpl. rewrite decide_True by done. rewrite decide_False by done.
  destruct (Hc (or_default (tc_WorkerPoolID t) "default") (tc_SubscriberID t) (tc_params t)) as [g Hg].
  case_decide; [|rewrite Hg]; rewrite El; (eexists; split; [done|]); (split; [by constructor|]); rewrite fmap_cons, Hn; done.
Qed.

(** A configuration that loads is complete: the batch size is positive, and
    whatever a message of one of its topics says, its result has a topic to go
    to; and the flow is built from it, one channel per topic, when the pools
    its topics name exist and their gates can be made. *)
Theorem pubsub_config_complete {Gate Params : Type} (decoded : option (Config Params)) cfg (g0 : Gate) create pools :
  LoadConfig decoded = Ok cfg ->
  Forall (fun t => tc_WorkerPoolID t ∈ pools) (cf_Topics cfg) -> (forall pool sub p, is_Some (create pool sub p)) ->
  0 < cf_BatchSize cfg /\
  (forall t wire, t ∈ cf_Topics cfg -> or_default (result_queue (tc_ResultTopicID t) wire) (cf_ResultTopicID cfg) <> "") /\
  exists l, NewGCPPubSubMQFlow true g0 (Some create) pools cfg = Ok l /\ length l = length (cf_Topics cfg) /\ l <> [] /\
    NoDup (rc_Channel <$> RequestChannels l).
Proof.
  unfold LoadConfig. destruct decoded as [c|]; [|done]. set (d := ApplyDefaults c). destruct (Validate d) as [[]|e] eqn:Hv; [|done].
  intros [= <-] Hpools Hcreate. unfold Validate in Hv. destruct (decide (cf_ProjectID d = "")); [done|].
  destruct (Z.leb_spec (cf_BatchSize d) 0); [done|]. destruct (decide (cf_Topics d = [])) as [|Hne]; [done|].
  destruct (_ && _) eqn:Hr; [done|]. apply check_topics_spec in Hv. split_and!; [lia| |].
  - intros t wire Hin. unfold or_default, result_queue. repeat case_decide; try done. apply andb_false_iff in Hr as [Hr|Hr].
    + by apply bool_decide_eq_false_1 in Hr.
    + apply negb_false_iff in Hr. unfold allTopicsHaveResultTopic in Hr. apply Is_true_eq_left, forallb_True in Hr. rewrite Forall_forall in Hr. specialize (Hr t Hin). by apply bool_decide_unpack in Hr.
  - destruct (topic_channels_ok g0 create pools 0 (cf_Topics d)) as (l & El & Hl & Hn); [|done|].
    + rewrite Forall_forall in *. intros t Hin. destruct (Hv t Hin). split; [done|]. specialize (Hpools t Hin).
      assert (tc_WorkerPoolID t <> "") as Hw.
      { subst d. apply list_elem_of_fmap in Hin as (t0 & -> & _). simpl. unfold or_default. by destruct (decide (tc_WorkerPoolID t0 = "")). }
      unfold or_default. by rewrite decide_False.
    + exists l. split; [done|]. assert (length l = length (cf_Topics d)) as Hlen by (symmetry; by eapply Forall2_length). split_and!; [done| |].
      * intros ->. by destruct (cf_Topics d).
      * unfold RequestChannels. rewrite <- list_fmap_compose, Hn. apply NoDup_seq.
Qed.

(** ** Concrete runs *)
Definition w_sub (name topic : string) : RequestChannelData unit := mkChannelData (mkRequestChannel 0 "http://a" "" "/v1/completions" "default") name tt ∅ topic.
Definition w_msg : Message := mkMessage "m1" "{}" ∅ None.
Definition w_wire : PubSubRequest := mkPubSubRequest zeroMessage "" "".
Lemma w_decodes : decode_wire (m_Data w_msg) = Some w_wire.
Proof. vm_compute. reflexivity. Qed.
Definition w_request (cd : RequestChannelData unit) : InternalRequest :=
  NewInternalRequest (request_routing (cd_subscriberID cd) (cd_resultTopicID cd) ∅ w_msg w_wire) (PlainRequest (Some (request_body w_msg w_wire))).
Lemma w_received name topic : receive_request (w_sub name topic) w_msg = Some (w_request (w_sub name topic)).
Proof. unfold receive_request. rewrite w_decodes. reflexivity. Qed.

(** One delivery, answered. *)
Definition w_waiting : Sys unit :=
  mkSys {[0%nat := mkCall (w_sub "s" "t") w_msg [] CbWaiting]} 1 {["m1" := 0%nat]} ∅ {[0%nat := TQueued (mkInternalRequest (ir_Routing (w_request (w_sub "s" "t"))) (ir_Public (w_request (w_sub "s" "t"))) 0)]} [] [] at_start.
Definition w_pub : publication := mkPub 0 "m1" "t" (marshalResult (w_result (w_request (w_sub "s" "t")))).
Definition w_acked : Sys unit := mkSys {[0%nat := mkCall (w_sub "s" "t") w_msg [] (CbDone true)]} 1 ∅ ∅ ∅ [w_pub] [] at_start.

Lemma w_reaches_waiting : ps_reaches "" True initial w_waiting.
Proof.
  eapply rtc_l; [apply (PDeliver _ _ (w_sub "s" "t") w_msg); done|]. unfold deliver. rewrite w_received. simpl.
  eapply rtc_l; [eapply (PGate _ _ 0 _ (w_request (w_sub "s" "t")) (passes (w_request (w_sub "s" "t"))) 0); [by simplify_map_eq|done|done]|]. unfold gate_answer, set_call; simpl.
  eapply rtc_l; [eapply (PSend _ _ 0); [by simplify_map_eq|done]|]. unfold put_token, set_call; simpl. apply reaches_eq. reflexivity.
Qed.
Lemma w_reaches_acked : ps_reaches "" True initial w_acked.
Proof.
  eapply reaches_trans; [apply w_reaches_waiting|].
  eapply rtc_l; [eapply (PTake _ _ 0); done|]. unfold put_token; simpl.
  eapply rtc_l; [eapply (PWorkerResult _ _ 0 _ (w_result (w_request (w_sub "s" "t")))); done|]. unfold put_token; simpl.
  eapply rtc_l; [eapply (PResult _ _ 0); done|]. unfold put_token; simpl.
  eapply rtc_l; [eapply (PPublished _ _ 0); done|]. simpl.
  eapply rtc_l; [eapply (PSignal _ _ 0 "m1" true); done|]. unfold put_token; simpl.
  eapply rtc_l; [eapply (PBuffer _ _ 0 0 true); done|]. simpl.
  eapply rtc_l; [eapply (PAnswered _ _ 0 _ true); done|]. unfold return_at; simpl. apply reaches_eq. reflexivity.
Qed.

Lemma acked_is_published_witness :
  let k := mkCall (w_sub "s" "t") w_msg [] (CbDone true) in
  decode_wire (m_Data w_msg) = None \/ exists topic bytes, mkPub 0 "m1" topic bytes ∈ sy_published w_acked /\ topic_of "" k = Some topic /\ topic <> "".
Proof. exact (acked_is_published "" w_acked 0 (mkCall (w_sub "s" "t") w_msg [] (CbDone true)) w_reaches_acked eq_refl eq_refl). Defined.


Lemma stranded_by_shutdown_witness : exists s : Sys unit, ps_reaches "" True initial s /\
  forall s', ps_reaches "" True s s' -> lf_stopped (sy_life s') = false /\ exists k, sy_calls s' !! 0%nat = Some k /\ call_state k = CbWaiting.
Proof. exact (stranded_by_shutdown "" (w_sub "s" "t") w_msg _ (w_received "s" "t")). Defined.

Lemma shared_id_acks_unpublished_witness : exists (s : Sys unit) kB, ps_reaches "" False initial s /\ sy_calls s !! 1%nat = Some kB /\ call_state kB = CbDone true /\
  Forall (fun p => pb_call p <> 1%nat) (sy_published s).
Proof.
  destruct (shared_id_acks_unpublished "" (w_sub "a" "t") (w_sub "b" "t") w_msg _ _ (w_received "a" "t") (w_received "b" "t") ltac:(done))
    as (s & kB & H1 & H2 & _ & _ & H5 & H6 & _).
  exact (ex_intro _ s (ex_intro _ kB (conj H1 (conj H2 (conj H5 H6))))).
Defined.

Lemma receive_window_bounded_witness :
  match receive_window 10 (Fin (1 # 2)) with Receiving n => 0 < n <= 10 | Throttled => False end.
Proof.
  destruct (receive_window_bounded 10 (Fin (1 # 2)) ltac:(lia) eq_refl) as [H _]. destruct (receive_window 10 (Fin (1 # 2))) eqn:E; [discriminate E|]. apply H.
Defined.

Lemma readiness_exact_witness :
  HealthCheck 100 (fun _ => ProbeFailed) (foldl health_apply (health_start ["s"]) [HFailed 1 "s"; HDelivered 2 "s"]) ["s"] = Ok tt.
Proof.
  apply (readiness_exact 100 (fun _ => ProbeFailed) ["s"] [HFailed 1 "s"; HDelivered 2 "s"]).
  - repeat constructor; done.
  - repeat constructor; done.
  - done.
  - constructor; [done|constructor].
Defined.

Definition w_config : Config unit := mkConfig "p" "" 0 [mkTopic "s" "" "" "" "http://a" "t" "" tt ∅].
Lemma pubsub_config_complete_witness : exists l, NewGCPPubSubMQFlow true tt (Some (fun _ _ _ => Some tt)) ["default"] (ApplyDefaults w_config) = Ok l /\ l <> [].
Proof.
  destruct (pubsub_config_complete (Some w_config) (ApplyDefaults w_config) tt (fun _ _ _ => Some tt) ["default"] eq_refl) as (_ & _ & l & H1 & _ & H2 & _).
  - constructor; [|constructor]. set_solver.
  - by intros.
  - exact (ex_intro _ l (conj H1 H2)).
Defined.
