(* ===== verification/MetricSources.v ===== *)
(** * The metric sources behind the dispatch gates

    pkg/async/inference/flowcontrol: the scraped source, the cached source, the
    cascade of sources and the PromQL expressions of the Prometheus gates.  What
    a scrape or a Prometheus query returns is given: the families of the text
    exposition format, and the samples of an instant vector. *)
From stdpp Require Import prelude gmap strings list sorting.
From Stdlib Require Import ZArith QArith Lqa Lia.
From S2P Require Import Prelude Json Rounding Gates.

#[local] Open Scope string_scope.
#[local] Open Scope list_scope.
#[local] Open Scope Z_scope.

(** ** Arithmetic *)
Definition fpos (a : float64) : bool := flt (Fin 0) a.
Definition fneg (a : float64) : bool := flt a (Fin 0).
Definition inf_of (negative : bool) : float64 := if negative then NegInf else PosInf.

Definition fmul (a b : float64) : float64 :=
  match a, b with
  | NaN, _ | _, NaN => NaN
  | Fin x, Fin y => Fin (fmul64 x y)
  | _, _ => if feq a (Fin 0) || feq b (Fin 0) then NaN else inf_of (xorb (fneg a) (fneg b))
  end.

Definition fdiv (a b : float64) : float64 :=
  match a, b with
  | NaN, _ | _, NaN => NaN
  | Fin x, Fin y => if Qeq_bool y 0 then (if Qeq_bool x 0 then NaN else inf_of (fneg a)) else Fin (fdiv64 x y)
  | Fin _, _ => Fin 0
  | _, Fin y => inf_of (xorb (fneg a) (fneg b))
  | _, _ => NaN
  end.

(** ** Samples *)
Record Sample : Type := mkSample { sm_Labels : gmap string string; sm_Value : float64 }.

Notation answer := (Res unit (list Sample)).

(** ** The scraped source *)

(** A metric of a family, with the value of each kind it may have. *)
Record metric : Type := mkMetric {
  mt_labels : list (string * string);
  mt_gauge : option float64;
  mt_counter : option float64;
  mt_untyped : option float64
}.

Definition matchLabels (actual filters : gmap string string) : bool :=
  forallb (fun kv => bool_decide (default "" (actual !! kv.1) = kv.2)) (map_to_list filters).

Definition sample_of (filters : gmap string string) (m : metric) : option Sample :=
  let labels := foldl (fun acc kv => <[kv.1 := kv.2]> acc) ∅ (mt_labels m) in
  if matchLabels labels filters then
    match mt_gauge m, mt_counter m, mt_untyped m with
    | Some v, _, _ | None, Some v, _ | None, None, Some v => Some (mkSample labels v)
    | None, None, None => None
    end
  else None.

(** [None]: the body could not be parsed. *)
Definition parseSamples (families : option (gmap string (list metric))) (metricName : string) (filters : gmap string string) : answer :=
  match families with
  | None => Err tt
  | Some fs => Ok (match fs !! metricName with Some ms => omap (sample_of filters) ms | None => [] end)
  end.

(** What the GET of an endpoint ends with: no answer, or a status and the families of
    its body. *)
Inductive scraped : Type :=
| ScrapeFailed
| Scraped (status : Z) (families : option (gmap string (list metric))).

Definition scrapeMetric (fetched : scraped) (metricName : string) (filters : gmap string string) : answer :=
  match fetched with
  | ScrapeFailed => Err tt
  | Scraped status families => if status =? 200 then parseSamples families metricName filters else Err tt
  end.

Record ScrapeConfig : Type := mkScrape {
  sc_URL : string;
  sc_MetricName : string;
  sc_Labels : gmap string string;
  sc_MaxCountPerPod : float64;
  sc_DirectBudget : bool;
  sc_PodsURL : string;
  sc_PodsMetric : string;
  sc_PodsLabels : gmap string string
}.

Definition clampFloat (v lo hi : float64) : float64 := if flt v lo then lo else if flt hi v then hi else v.

(** The total capacity: static, or of the ready pods. *)
Definition max_count (pods : scraped) (s : ScrapeConfig) : option float64 :=
  if bool_decide (sc_PodsURL s <> "") && bool_decide (sc_PodsMetric s <> "") then
    match scrapeMetric pods (sc_PodsMetric s) (sc_PodsLabels s) with
    | Ok (p :: _) => if fle (sm_Value p) (Fin 0) then None else Some (fmul (sm_Value p) (sc_MaxCountPerPod s))
    | _ => None
    end
  else Some (sc_MaxCountPerPod s).

Definition scraped_budget (s : ScrapeConfig) (maxCount value : float64) : float64 :=
  let normalized := clampFloat (if fpos maxCount then fdiv value maxCount else value) (Fin 0) (Fin 1) in
  if sc_DirectBudget s then normalized else fsub (Fin 1) normalized.

Definition scrape_Query (fetched pods : scraped) (s : ScrapeConfig) : answer :=
  match scrapeMetric fetched (sc_MetricName s) (sc_Labels s) with
  | Err e => Err e
  | Ok samples =>
      match max_count pods s with
      | None => Err tt
      | Some m => Ok ((fun x => mkSample (sm_Labels x) (scraped_budget s m (sm_Value x))) <$> samples)
      end
  end.

Lemma clamp_unit v : in_unit (clampFloat v (Fin 0) (Fin 1)) = true.
Proof. destruct v as [| | |q]; try done. unfold clampFloat, in_unit. cbn -[Qle_bool]. q_cases. Qed.

Lemma one_minus_unit v : in_unit v = true -> in_unit (fsub (Fin 1) v) = true.
Proof.
  destruct v as [| | |q]; try done. unfold in_unit. cbn -[Qle_bool]. rewrite !andb_true_iff, !Qle_bool_iff. intros [H0 H1].
  unfold fsub64. assert (0 <= 1 - q)%Q as P0 by lra. split; [by apply frnd_nonneg|].
  apply (frnd_le _ 1 0); [done|lia| |simpl; lra]. by apply Qle_lt_trans with 1%Q; [lra|].
Qed.

(** A scraped source only ever reports budgets of the unit interval, or no
    number: whatever the endpoint returns, with a static capacity or one of the
    ready pods, and for saturation as for direct budgets; and each sample it
    reports is one of the scraped metric, with its labels. *)
Theorem scraped_in_unit fetched pods s samples :
  scrape_Query fetched pods s = Ok samples ->
  Forall (fun x => in_unit (sm_Value x) = true) samples /\
  exists raw, scrapeMetric fetched (sc_MetricName s) (sc_Labels s) = Ok raw /\ sm_Labels <$> samples = sm_Labels <$> raw /\
    Forall (fun x => matchLabels (sm_Labels x) (sc_Labels s) = true) samples.
Proof.
  unfold scrape_Query. destruct (scrapeMetric _ _ _) as [raw|] eqn:Er; [|done]. destruct (max_count pods s) as [m|]; [|done].
  intros [= <-]. split.
  - apply Forall_fmap, Forall_true. intros x. simpl. unfold scraped_budget. destruct (sc_DirectBudget s); [|apply one_minus_unit]; apply clamp_unit.
  - exists raw. split; [done|]. split; [by rewrite <- list_fmap_compose|]. apply Forall_fmap. unfold compose. simpl.
    unfold scrapeMetric, parseSamples in Er. destruct fetched as [|st fam]; [done|]. destruct (_ =? _); [|done]. destruct fam as [fs|]; [|done].
    injection Er as <-. destruct (fs !! _) as [ms|]; [|constructor]. apply Forall_forall. intros x (mt & _ & Hx)%list_elem_of_omap.
    unfold sample_of in Hx. destruct (matchLabels _ _) eqn:E; [|done].
    by destruct (mt_gauge mt), (mt_counter mt), (mt_untyped mt); simplify_eq/=.
Qed.

Lemma scraped_in_unit_witness :
  Forall (fun x => in_unit (sm_Value x) = true) [mkSample ∅ (fsub (Fin 1) (Fin (fdiv64 3 4)))] /\
  exists raw, scrapeMetric (Scraped 200 (Some {["m" := [mkMetric [] (Some (Fin 3)) None None]]})) "m" ∅ = Ok raw /\
    sm_Labels <$> [mkSample ∅ (fsub (Fin 1) (Fin (fdiv64 3 4)))] = sm_Labels <$> raw /\
    Forall (fun x => matchLabels (sm_Labels x) ∅ = true) [mkSample ∅ (fsub (Fin 1) (Fin (fdiv64 3 4)))].
Proof.
  apply (scraped_in_unit (Scraped 200 (Some {["m" := [mkMetric [] (Some (Fin 3)) None None]]})) ScrapeFailed
           (mkScrape "u" "m" ∅ (Fin 4) false "" "" ∅)).
  vm_compute. reflexivity.
Defined.

(** ** The cached source

    Calls are serialised by [queryLock], taken after the caller's context is
    seen alive; a call that gives up waiting for it reads nothing. *)
Record CachedMetricSource : Type := mkCached { ca_result : answer; ca_expiry : option Z }.

Definition NewCachedMetricSource : CachedMetricSource := mkCached (Ok []) None.

(** What came back, whether the source was asked, and the cache after. *)
Definition cached_Query (ttl now : Z) (backend : answer) (c : CachedMetricSource) : answer * bool * CachedMetricSource :=
  if match ca_expiry c with Some e => now <? e | None => false end then (ca_result c, false, c)
  else (backend, true, mkCached backend (Some (now + ttl))).

(** A sequence of calls: when each was made, and what the source would have
    answered it then. *)
Fixpoint cached_run (ttl : Z) (c : CachedMetricSource) (calls : list (Z * answer)) : list (answer * bool) :=
  match calls with
  | [] => []
  | (now, backend) :: rest =>
      let '(r, asked, c') := cached_Query ttl now backend c in
      (r, asked) :: cached_run ttl c' rest
  end.

Lemma cached_run_length ttl c calls : length (cached_run ttl c calls) = length calls.
Proof.
  revert c. induction calls as [|[now b] calls IH]; intros c; [done|]. cbn [cached_run]. destruct (cached_Query ttl now b c) as [[r a] c']. cbn [length]. by rewrite IH.
Qed.

(** The cache holds what the source answered to a call of time [t]. *)
Definition filled_at (ttl : Z) (c : CachedMetricSource) (t : Z) (b : answer) : Prop := c = mkCached b (Some (t + ttl)).

Lemma cached_run_from ttl c t b calls i now backend r (asked : bool) :
  filled_at ttl c t b -> 0 <= ttl -> calls !! i = Some (now, backend) -> cached_run ttl c calls !! i = Some (r, asked) ->
  if asked then r = backend /\ t + ttl <= now
  else (r = b /\ now < t + ttl) \/
       exists j t', (j < i)%nat /\ calls !! j = Some (t', r) /\ cached_run ttl c calls !! j = Some (r, true) /\ now < t' + ttl.
Proof.
  unfold filled_at. intros -> Httl. revert t b i. induction calls as [|[now0 b0] calls IH]; intros t b i; [done|].
  cbn [cached_run]. unfold cached_Query. cbn [ca_expiry ca_result]. destruct (Z.ltb_spec now0 (t + ttl)) as [Hlt|Hge].
  - destruct i as [|i]; cbn [lookup list_lookup]; [intros [= -> ->] [= <- <-]; by left|]. intros Hc Hr.
    pose proof (IH t b i Hc Hr) as H. destruct asked; [done|]. destruct H as [H|(j & t' & Hj & Hcj & Hrj & Hn)]; [by left|].
    right. exists (S j), t'. split; [lia|]. by split_and!.
  - destruct i as [|i]; cbn [lookup list_lookup]; [intros [= -> ->] [= <- <-]; by split|]. intros Hc Hr.
    pose proof (IH now0 b0 i Hc Hr) as H. destruct asked; [destruct H; split; [done|lia]|].
    destruct H as [[-> Hn]|(j & t' & Hj & Hcj & Hrj & Hn)]; right.
    + exists 0%nat, now0. split; [lia|]. by split_and!.
    + exists (S j), t'. split; [lia|]. by split_and!.
Qed.

(** Two calls that asked the source are a TTL apart. *)
Lemma cached_spacing ttl c calls i j ti bi ri tj bj rj :
  0 <= ttl -> (i < j)%nat -> calls !! i = Some (ti, bi) -> calls !! j = Some (tj, bj) ->
  cached_run ttl c calls !! i = Some (ri, true) -> cached_run ttl c calls !! j = Some (rj, true) -> ti + ttl <= tj.
Proof.
  intros Httl. revert c i j. induction calls as [|[now b] calls IH]; intros c i j Hij; [done|]. cbn [cached_run].
  destruct (cached_Query ttl now b c) as [[r a] c'] eqn:Ec. destruct j as [|j]; [lia|]. destruct i as [|i]; cbn [lookup list_lookup].
  - intros [= -> ->] Hcj [= -> ->] Hrj. unfold cached_Query in Ec. destruct (match ca_expiry c with Some e => ti <? e | None => false end); [done|].
    injection Ec as <- <-. pose proof (cached_run_from ttl _ ti bi calls j tj bj rj true eq_refl Httl Hcj Hrj) as [_ H]. exact H.
  - apply IH. lia.
Qed.

(** C38. The cache bounds both the load on the metrics backend and the age of
    what gates see: two queries that reach the backend are at least a TTL apart,
    a call that reaches it gets its answer, and any other call gets the answer
    of an earlier call that reached it less than a TTL before. *)
Theorem cached_within_ttl ttl calls i now backend r (asked : bool) :
  0 <= ttl -> calls !! i = Some (now, backend) -> cached_run ttl NewCachedMetricSource calls !! i = Some (r, asked) ->
  (if asked then r = backend
   else exists j t, (j < i)%nat /\ calls !! j = Some (t, r) /\ cached_run ttl NewCachedMetricSource calls !! j = Some (r, true) /\ now < t + ttl) /\
  forall j t b r', asked = true -> (j < i)%nat -> calls !! j = Some (t, b) ->
    cached_run ttl NewCachedMetricSource calls !! j = Some (r', true) -> t + ttl <= now.
Proof.
  intros Httl Hc Hr. split; [|intros j t b r' -> Hj Hcj Hrj; exact (cached_spacing ttl _ calls j i t b r' now backend r Httl Hj Hcj Hc Hrj Hr)].
  destruct calls as [|[t0 b0] calls]; [done|]. change (cached_run _ _ _) with ((b0, true) :: cached_run ttl (mkCached b0 (Some (t0 + ttl))) calls) in Hr |- *.
  destruct i as [|i]; cbn [lookup list_lookup] in Hc, Hr; [by injection Hc as -> ->; injection Hr as <- <-|].
  pose proof (cached_run_from ttl _ t0 b0 calls i now backend r asked eq_refl Httl Hc Hr) as H. destruct asked; [by destruct H|].
  destruct H as [[-> Hn]|(j & t' & Hj & Hcj & Hrj & Hn)].
  - exists 0%nat, t0. split; [lia|]. by split_and!.
  - exists (S j), t'. split; [lia|]. by split_and!.
Qed.

Definition w_calls : list (Z * answer) := [(10, Err tt); (12, Ok [])].

Lemma cached_within_ttl_witness :
  (exists j t, (j < 1)%nat /\ w_calls !! j = Some (t, Err tt) /\ cached_run 5 NewCachedMetricSource w_calls !! j = Some (Err tt, true) /\ 12 < t + 5) /\
  forall j t b r', false = true -> (j < 1)%nat -> w_calls !! j = Some (t, b) ->
    cached_run 5 NewCachedMetricSource w_calls !! j = Some (r', true) -> t + 5 <= 12.
Proof. apply (cached_within_ttl 5 w_calls 1 12 (Ok []) (Err tt) false); [lia|reflexivity|reflexivity]. Defined.

(** An error is cached like an answer, also the one a query ended with because
    its caller gave up: the next caller gets it though the source would answer. *)
Example cancelled_query_cached :
  cached_run 5000 NewCachedMetricSource [(0, Err tt); (10, Ok [mkSample ∅ (Fin 1)])] = [(Err tt, true); (Err tt, false)].
Proof. reflexivity. Qed.

(** ** The cascade

    A source is asked in a world (the caches of the sources, the backends). *)
Section cascade.
Context {W : Type}.

Notation asked := (W -> answer * W).

(** The answer, the world and the index of the source that gave it. *)
Fixpoint cascade_from (i : nat) (sources : list asked) (w : W) : answer * W * option nat :=
  match sources with
  | [] => (Err tt, w, None)
  | s :: rest =>
      let '(a, w') := s w in
      match a with
      | Ok (x :: xs) => (Ok (x :: xs), w', Some i)
      | _ => cascade_from (S i) rest w'
      end
  end.

(** [activeIndex] is -1 until a source resolved. *)
Definition cascade_Query (sources : list asked) (activeIndex : Z) (w : W) : answer * Z * W :=
  let '(a, w', i) := cascade_from 0 sources w in
  (a, match i with Some i => Z.of_nat i | None => activeIndex end, w').

Definition NewCascadeMetricSource (sources : list asked) : option (list asked * Z) :=
  if (length sources <? 2)%nat then None else Some (sources, -1).

(** The world after the first [n] sources were asked in turn. *)
Fixpoint world_after (n : nat) (sources : list asked) (w : W) : W :=
  match n, sources with
  | S n', s :: rest => world_after n' rest (s w).2
  | _, _ => w
  end.

Definition has_samples (a : answer) : bool := match a with Ok (_ :: _) => true | _ => false end.

Lemma cascade_from_spec sources : forall k w a w' i,
  cascade_from k sources w = (a, w', i) ->
  match i with
  | Some i => exists n s, i = (k + n)%nat /\ sources !! n = Some s /\ s (world_after n sources w) = (a, w') /\ has_samples a = true /\
      forall m s', (m < n)%nat -> sources !! m = Some s' -> has_samples (s' (world_after m sources w)).1 = false
  | None => a = Err tt /\ w' = world_after (length sources) sources w /\
      forall m s', sources !! m = Some s' -> has_samples (s' (world_after m sources w)).1 = false
  end.
Proof.
  induction sources as [|s sources IH]; intros k w a w' i; cbn [cascade_from]; [intros [= <- <- <-]; by split_and!|].
  destruct (s w) as [b w1] eqn:Es. destruct (has_samples b) eqn:Eb.
  - destruct b as [[|x xs]|]; [done| |done]. intros [= <- <- <-]. exists 0%nat, s. rewrite Nat.add_0_r. split_and!; [done..|]. intros; lia.
  - assert (cascade_from k (s :: sources) w = cascade_from (S k) sources w1) as Heq.
    { cbn [cascade_from]. rewrite Es. by destruct b as [[|x xs]|]. }
    intros H. assert (cascade_from (S k) sources w1 = (a, w', i)) as H' by (rewrite <- Heq; cbn [cascade_from]; by rewrite Es).
    apply IH in H'. assert (w1 = (s w).2) as Hw1 by by rewrite Es. destruct i as [i|].
    + destruct H' as (n & s1 & -> & Hn & Ha & Hs & Hbefore). exists (S n), s1. cbn [world_after]. rewrite <- Hw1.
      split_and!; [lia|done..|]. intros [|m] s' Hm; cbn [lookup list_lookup world_after]; [intros [= <-]; by rewrite Es|]. rewrite <- Hw1. apply Hbefore. lia.
    + destruct H' as (-> & -> & Hall). cbn [length world_after]. rewrite <- Hw1. split_and!; [done..|].
      intros [|m] s'; cbn [lookup list_lookup world_after]; [intros [= <-]; by rewrite Es|]. rewrite <- Hw1. apply Hall.
Qed.

(** A cascade answers with the first of its sources that has samples: the
    sources before it were asked, each in the world the ones before it left, and
    had none; the sources after it were not asked; and it fails only when no
    source has samples, the active index then left as it was. *)
Theorem cascade_first_available sources active w a active' w' :
  cascade_Query sources active w = (a, active', w') ->
  (exists n s, active' = Z.of_nat n /\ sources !! n = Some s /\ s (world_after n sources w) = (a, w') /\ has_samples a = true /\
     forall m s', (m < n)%nat -> sources !! m = Some s' -> has_samples (s' (world_after m sources w)).1 = false) \/
  (a = Err tt /\ active' = active /\ w' = world_after (length sources) sources w /\
     forall m s', sources !! m = Some s' -> has_samples (s' (world_after m sources w)).1 = false).
Proof.
  unfold cascade_Query. destruct (cascade_from 0 sources w) as [[a1 w1] i] eqn:E. apply cascade_from_spec in E.
  destruct i as [i|]; intros [= <- <- <-].
  - left. destruct E as (n & s & -> & H). by exists n, s.
  - right. destruct E as (-> & -> & H). by split_and!.
Qed.
End cascade.

Definition w_sources : list (Z -> answer * Z) := [(fun w => (Err tt, w + 1)); (fun w => (Ok [mkSample ∅ (Fin 1)], w + 1))].

Lemma cascade_first_available_witness :
  (exists n s, 1 = Z.of_nat n /\ w_sources !! n = Some s /\ s (world_after n w_sources 0) = (Ok [mkSample ∅ (Fin 1)], 2) /\
     has_samples (Ok [mkSample ∅ (Fin 1)]) = true /\
     forall m s', (m < n)%nat -> w_sources !! m = Some s' -> has_samples (s' (world_after m w_sources 0)).1 = false) \/
  (Ok [mkSample ∅ (Fin 1)] = Err tt /\ 1 = -1 /\ 2 = world_after (length w_sources) w_sources 0 /\
     forall m s', w_sources !! m = Some s' -> has_samples (s' (world_after m w_sources 0)).1 = false).
Proof. apply (cascade_first_available w_sources (-1) 0). reflexivity. Defined.

(** ** PromQL

    [Quote] is strconv.Quote, [FormatG] the verb %g. *)

(** An instant query: an error, a value that is no vector, or the elements of a
    vector. *)
Definition promql_Query (result : Res unit (option (list (list (string * string) * float64)))) : answer :=
  match result with
  | Ok (Some vec) => Ok ((fun s => mkSample (foldl (fun acc kv => <[kv.1 := kv.2]> acc) ∅ s.1) s.2) <$> vec)
  | _ => Err tt
  end.

Definition string_le (a b : string) : Prop := String.leb a b = true.
#[export] Instance string_le_dec : RelDecision string_le.
Proof. intros a b. unfold string_le. apply _. Defined.

Definition Join (sep : string) (l : list string) : string := String.concat sep l.

Section promql.
Context (Quote : string -> string) (FormatG : float64 -> string).

Definition buildPromQL (metricName : string) (labels : gmap string string) : string :=
  if bool_decide (labels = ∅) then metricName
  else
    let keys := merge_sort string_le (map_to_list labels).*1 in
    let parts := (fun k => k +:+ "=" +:+ Quote (default "" (labels !! k))) <$> keys in
    metricName +:+ "{" +:+ Join "," parts +:+ "}".

Definition requireSingleNamespace (query namespace : string) (metrics : list string) : string :=
  if bool_decide (namespace <> "") then query
  else
    let namespaces := (fun m => "count by(namespace)(" +:+ m +:+ ")") <$> metrics in
    "(" +:+ query +:+ ") and on() (count(" +:+ Join " or " namespaces +:+ ") == 1)".

(** The labels of a pool, under the name its metric has for it. *)
Definition pool_labels (label pool namespace : string) : gmap string string :=
  let labels := {[label := pool]} in
  if bool_decide (namespace <> "") then <["namespace" := namespace]> labels else labels.

Definition saturation_query (pool namespace : string) : option string :=
  if bool_decide (pool = "") then None
  else Some ("1 - " +:+ buildPromQL "llm_d_epp_flow_control_pool_saturation" (pool_labels "inference_pool" pool namespace)).

Definition flow_control_query (pool : string) (maxConcurrency : float64) (namespace : string) : option string :=
  if bool_decide (pool = "") || fle maxConcurrency (Fin 0) then None
  else
    let queueMetric := buildPromQL "llm_d_epp_flow_control_queue_size" (pool_labels "inference_pool" pool namespace) in
    let podsMetric := buildPromQL "llm_d_epp_ready_endpoints" (pool_labels "name" pool namespace) in
    let query := "1 - (sum by(inference_pool)(" +:+ queueMetric +:+ ") / on() (max(" +:+ podsMetric +:+ ") * " +:+ FormatG maxConcurrency +:+ "))" in
    Some (requireSingleNamespace query namespace [queueMetric; podsMetric]).

Definition pool_queue_query (pool : string) (maxConcurrency : float64) (namespace : string) : option string :=
  if bool_decide (pool = "") || fle maxConcurrency (Fin 0) then None
  else
    let queueMetric := buildPromQL "llm_d_epp_per_endpoint_queue_size" (pool_labels "name" pool namespace) in
    let query := "1 - (avg by(name)(" +:+ queueMetric +:+ ") / " +:+ FormatG maxConcurrency +:+ ")" in
    Some (requireSingleNamespace query namespace [queueMetric]).

Definition vllm_query (pool : string) (maxConcurrency : float64) (namespace : string) : option string :=
  if bool_decide (pool = "") || fle maxConcurrency (Fin 0) then None
  else
    let vllmMetric := buildPromQL "vllm:num_requests_running" (pool_labels "inference_pool" pool namespace) in
    let podsMetric := buildPromQL "llm_d_epp_ready_endpoints" (pool_labels "name" pool namespace) in
    let query := "1 - (sum(" +:+ vllmMetric +:+ ") / on() (max(" +:+ podsMetric +:+ ") * " +:+ FormatG maxConcurrency +:+ "))" in
    Some (requireSingleNamespace query namespace [vllmMetric; podsMetric]).
End promql.
