(* ===== verification/GateFactory.v ===== *)
(** * The gate factory (pkg/async/inference/flowcontrol/gate_factory.go)

    The parameters of a gate are values of a decoded JSON document.  A string
    parameter may hold a JSON document in turn, so a string comes with what
    json.Unmarshal makes of its text.  A created gate is the tree of the
    constructors the factory called, with the Redis clients, quota stores and
    metric sources it gave them. *)
From stdpp Require Import prelude gmap strings list sorting.
From Stdlib Require Import ZArith QArith Qround Lqa Lia.
From S2P Require Import Prelude Json Rounding Api Gates Wire HttpClient RateGate MetricSources.

#[local] Open Scope string_scope.
#[local] Open Scope list_scope.
#[local] Open Scope Z_scope.

(** ** Parameter values *)
Inductive any : Type :=
| ANil
| ABool (b : bool)
| ANum (f : float64)
| AStr (s : string) (json : option any)   (* [None]: no JSON document *)
| AArr (l : list any)
| AObj (members : list (string * any)).   (* in document order; the last of a name counts *)

Record GateOwner : Type := mkOwner { go_QueueID : string; go_QueueName : string; go_WorkerPoolID : string }.

Record GateConfig : Type := mkGateConfig {
  gc_GateType : string;
  gc_GateParams : option (list (string * any));
  gc_Owner : GateOwner
}.

Definition no_owner : GateOwner := mkOwner "" "" "".
Definition zeroConfig : GateConfig := mkGateConfig "" None no_owner.

(** [params[key]], a nil value as an absent one. *)
Fixpoint param (params : list (string * any)) (key : string) : option any :=
  match params with
  | [] => None
  | (k, v) :: rest =>
      if bool_decide (k = key) && negb (bool_decide (key ∈ rest.*1)) then match v with ANil => None | _ => Some v end
      else param rest key
  end.

(** ** Decoding into a GateConfig

    Field names match case-insensitively, objects for [gate_params] add to the
    map that is there, and a null leaves a string and resets a map. *)
Definition config_field (cfg : GateConfig) (kv : string * any) : option GateConfig :=
  if bool_decide (fold_name kv.1 = "gate_type") then
    match kv.2 with
    | AStr s _ => Some (mkGateConfig s (gc_GateParams cfg) (gc_Owner cfg))
    | ANil => Some cfg
    | _ => None
    end
  else if bool_decide (fold_name kv.1 = "gate_params") then
    match kv.2 with
    | AObj l => Some (mkGateConfig (gc_GateType cfg) (Some (default [] (gc_GateParams cfg) ++ l)) (gc_Owner cfg))
    | ANil => Some (mkGateConfig (gc_GateType cfg) None (gc_Owner cfg))
    | _ => None
    end
  else Some cfg.

Fixpoint config_fields (cfg : GateConfig) (members : list (string * any)) : option GateConfig :=
  match members with
  | [] => Some cfg
  | kv :: rest => cfg' ← config_field cfg kv; config_fields cfg' rest
  end.

Definition unmarshal_config (v : any) : option GateConfig :=
  match v with
  | AObj members => config_fields zeroConfig members
  | ANil => Some zeroConfig
  | _ => None
  end.

Definition unmarshal_configs (v : any) : option (list GateConfig) :=
  match v with
  | AArr l => mapM unmarshal_config l
  | ANil => Some []
  | _ => None
  end.

(** json.Marshal writes the keys of a map in order, once each. *)
Definition key_le (a b : string * any) : Prop := String.leb a.1 b.1 = true.
#[export] Instance key_le_dec : RelDecision key_le.
Proof. intros a b. unfold key_le. apply _. Defined.

Fixpoint last_of_each (members : list (string * any)) : list (string * any) :=
  match members with
  | [] => []
  | kv :: rest => if bool_decide (kv.1 ∈ rest.*1) then last_of_each rest else kv :: last_of_each rest
  end.

Definition remarshal (v : any) : any :=
  match v with
  | AObj members => AObj (merge_sort key_le (last_of_each members))
  | _ => v
  end.

(** ** Reading parameters *)
Inductive CreateErr : Type :=
| ErrParam (key : string)      (* missing, of another type, unparseable or out of range *)
| ErrNoSQL
| ErrNoPrometheus
| ErrPromClient.

Definition paramGateConfigs (params : list (string * any)) (key : string) : Res CreateErr (list GateConfig) :=
  let decoded o := match o with Some l => Ok l | None => Err (ErrParam key) end in
  match param params key with
  | Some (AStr s json) =>
      if bool_decide (s = "") then Err (ErrParam key) else decoded (json ≫= unmarshal_configs)
  | Some (AArr l) => decoded (unmarshal_configs (AArr (remarshal <$> l)))
  | _ => Err (ErrParam key)
  end.

Definition paramGateConfig (params : list (string * any)) (key : string) : Res CreateErr GateConfig :=
  let decoded o := match o with Some c => Ok c | None => Err (ErrParam key) end in
  match param params key with
  | Some (AStr s json) =>
      if bool_decide (s = "") then Err (ErrParam key) else decoded (json ≫= unmarshal_config)
  | Some (AObj members) => decoded (unmarshal_config (remarshal (AObj members)))
  | _ => Err (ErrParam key)
  end.

Definition paramMapAny (params : list (string * any)) (key : string) : Res CreateErr (option (list (string * any))) :=
  match param params key with
  | None => Ok None
  | Some (AStr s json) =>
      if bool_decide (s = "") then Ok None
      else match json with
           | Some (AObj l) => Ok (Some l)
           | Some ANil => Ok None
           | _ => Err (ErrParam key)
           end
  | Some (AObj l) => Ok (Some l)
  | Some _ => Err (ErrParam key)
  end.

(** The members of a document decoded into a map of strings. *)
Fixpoint string_members (acc : gmap string string) (members : list (string * any)) : option (gmap string string) :=
  match members with
  | [] => Some acc
  | (k, AStr s _) :: rest => string_members (<[k := s]> acc) rest
  | (k, ANil) :: rest => string_members (<[k := ""]> acc) rest
  | _ => None
  end.

Section params.

(** strconv.FormatFloat with 'f' and -1, strconv.ParseFloat, time.ParseDuration
    in nanoseconds, and the verb %v. *)
Context (FormatFloat : float64 -> string) (ParseFloat : string -> option float64).
Context (ParseDuration : string -> option Z) (Sprint : any -> string).

Definition paramString (params : list (string * any)) (key defaultVal : string) : string :=
  match param params key with
  | Some (AStr s _) => if bool_decide (s = "") then defaultVal else s
  | Some (ANum f) => FormatFloat f
  | Some (ABool b) => if b then "true" else "false"
  | _ => defaultVal
  end.

Definition paramFloat (params : list (string * any)) (key : string) (defaultVal : float64) : Res CreateErr float64 :=
  match param params key with
  | None => Ok defaultVal
  | Some (ANum f) => Ok f
  | Some (AStr s _) =>
      if bool_decide (s = "") then Ok defaultVal
      else match ParseFloat s with Some f => Ok f | None => Err (ErrParam key) end
  | Some _ => Err (ErrParam key)
  end.

(** [int(val)], and whether converting it back gives [val]: not for a fraction,
    a value out of the range of int64, an infinity or NaN. *)
Definition int_of (f : float64) : option Z :=
  match f with
  | Fin q => let n := Qfloor q in if Qeq_bool (inject_Z n) q && (- 2 ^ 63 <=? n) && (n <? 2 ^ 63) then Some n else None
  | _ => None
  end.

Definition paramInt (params : list (string * any)) (key : string) (defaultVal : Z) : Res CreateErr Z :=
  match param params key with
  | None => Ok defaultVal
  | Some (ANum f) => match int_of f with Some n => Ok n | None => Err (ErrParam key) end
  | Some (AStr s _) =>
      if bool_decide (s = "") then Ok defaultVal
      else match Atoi s with Some n => Ok n | None => Err (ErrParam key) end
  | Some _ => Err (ErrParam key)
  end.

Definition paramDuration (params : list (string * any)) (key : string) (defaultVal : Z) : Res CreateErr Z :=
  match param params key with
  | None => Ok defaultVal
  | Some v =>
      let s := match v with AStr s _ => s | _ => Sprint v end in
      if bool_decide (s = "") then Ok defaultVal
      else match ParseDuration s with Some d => Ok d | None => Err (ErrParam key) end
  end.

Definition paramStringMap (params : list (string * any)) (key : string) : Res CreateErr (gmap string string) :=
  match param params key with
  | None => Ok ∅
  | Some (AStr s json) =>
      if bool_decide (s = "") then Ok ∅
      else match json with
           | Some (AObj l) => match string_members ∅ l with Some m => Ok m | None => Err (ErrParam key) end
           | Some ANil => Ok ∅
           | _ => Err (ErrParam key)
           end
  | Some (AObj l) => Ok (foldl (fun acc kv => <[kv.1 := Sprint kv.2]> acc) ∅ l)
  | Some _ => Err (ErrParam key)
  end.
End params.

(** ** Created gates *)
Inductive client : Type :=
| TransportClient (id : nat)   (* registered by the transport, which owns it *)
| OwnClient (id : nat).        (* created by the factory *)

#[export] Instance client_eq_dec : EqDecision client.
Proof. solve_decision. Defined.

Inductive source : Type :=
| SPromQL (url expr : string)
| SScrape (cfg : ScrapeConfig)
| SCached (s : source) (ttl : Z)
| SCascade (l : list source).

Record quotaConfig : Type := mkQuotaConfig {
  qc_attribute : string;
  qc_mode : QuotaMode;
  qc_gatingMode : GatingMode;
  qc_limit : Z;
  qc_window : Z;
  qc_prefix : string
}.

Inductive quota_store : Type :=
| RedisQuotaStore (c : client) (slotTTL : Z)
| SQLQuotaStore.

Inductive made : Type :=
| MConstOpen
| MRedis (c : client) (budgetKey : string)
| MLeased (c : client) (g : RedisLeasedRateGate)
| MQuota (store : quota_store) (q : quotaConfig)
| MMetric (src : source) (threshold fallback : float64) (owner : GateOwner) (inferencePool : string)
| MLocal (limit : Z) (mode : GatingMode)
| MWaitOnRefuse (inner : made)
| MTierPriority (saturation : made) (tierLabel : string)
| MComposite (gates : list made).

Definition clampFallback (fb : float64) : float64 := fmax (Fin 0) (fmin (Fin 1) fb).
Definition MetricDispatchGate (src : source) (threshold fallback : float64) (owner : GateOwner) (pool : string) : made :=
  MMetric src threshold (clampFallback fallback) owner pool.

(** ** The factory *)
Record GateFactory : Type := mkFactory {
  gf_prometheusURL : string;
  gf_cacheTTL : Z;
  gf_redisClients : gmap string nat;
  gf_transportClients : gmap string nat;
  gf_sqlQuota : bool;
  gf_next : nat    (* the clients created so far *)
}.

Definition NewGateFactoryWithCacheTTL (prometheusURL : string) (cacheTTL : Z) : GateFactory :=
  mkFactory prometheusURL cacheTTL ∅ ∅ false 0.
Definition DefaultCacheTTL : Z := 5 * 10 ^ 9.
Definition NewGateFactory (prometheusURL : string) : GateFactory := NewGateFactoryWithCacheTTL prometheusURL DefaultCacheTTL.

Definition WithSQLQuota (f : GateFactory) : GateFactory :=
  mkFactory (gf_prometheusURL f) (gf_cacheTTL f) (gf_redisClients f) (gf_transportClients f) true (gf_next f).

(** [options.Addrs[0]] is the first address; with no address the index panics. *)
Definition RegisterRedisClient (id : nat) (addrs : list string) (f : GateFactory) : option GateFactory :=
  match addrs with
  | [] => None
  | addr :: _ =>
      Some (mkFactory (gf_prometheusURL f) (gf_cacheTTL f) (gf_redisClients f) (<[addr := id]> (gf_transportClients f))
              (gf_sqlQuota f) (gf_next f))
  end.

Definition redisClient (addr : string) (f : GateFactory) : client * GateFactory :=
  match gf_transportClients f !! addr with
  | Some id => (TransportClient id, f)
  | None =>
      match gf_redisClients f !! addr with
      | Some id => (OwnClient id, f)
      | None =>
          (OwnClient (gf_next f),
           mkFactory (gf_prometheusURL f) (gf_cacheTTL f) (<[addr := gf_next f]> (gf_redisClients f)) (gf_transportClients f)
             (gf_sqlQuota f) (S (gf_next f)))
      end
  end.

(** The clients closed, whatever closing one of them ends with. *)
Definition Close (f : GateFactory) : list client * GateFactory :=
  ((fun kv => OwnClient kv.2) <$> map_to_list (gf_redisClients f),
   mkFactory (gf_prometheusURL f) (gf_cacheTTL f) ∅ ∅ (gf_sqlQuota f) (gf_next f)).

Definition cachedSource (s : source) (ttl : Z) : source := if 0 <? ttl then SCached s ttl else s.

Section create.
Context (FormatFloat : float64 -> string) (ParseFloat : string -> option float64).
Context (ParseDuration : string -> option Z) (Sprint : any -> string).
Context (Quote : string -> string) (FormatG : float64 -> string).

(** Whether the Prometheus API makes a client for an address. *)
Context (promClient : string -> bool).

#[local] Open Scope res_scope.

Notation params_t := (list (string * any)).
Notation pString := (paramString FormatFloat).
Notation pFloat := (paramFloat ParseFloat).

Definition guard (b : bool) (e : CreateErr) : Res CreateErr unit := if b then Ok tt else Err e.

Definition requireString (params : params_t) (key : string) : Res CreateErr string :=
  let s := pString params key "" in try _ <- guard (bool_decide (s <> "")) (ErrParam key); Ok s.

Definition NewPromQLMetricSource (url expr : string) : Res CreateErr source :=
  try _ <- guard (promClient url) ErrPromClient; Ok (SPromQL url expr).

(** A query that could be built, as a source. *)
Definition promSource (url : string) (query : option string) : Res CreateErr source :=
  match query with Some expr => NewPromQLMetricSource url expr | None => Err (ErrParam "pool") end.

Definition quotaMode (s : string) : option QuotaMode :=
  if bool_decide (s = "rate-limit") then Some QuotaModeRateLimit
  else if bool_decide (s = "concurrency") then Some QuotaModeConcurrency else None.
Definition gatingMode (s : string) : option GatingMode :=
  if bool_decide (s = "blocking") then Some GatingModeBlocking
  else if bool_decide (s = "classifying") then Some GatingModeClassifying else None.

Definition is_rate_limit (m : QuotaMode) : bool := match m with QuotaModeRateLimit => true | _ => false end.

Definition quotaParams (params : params_t) : Res CreateErr quotaConfig :=
  match quotaMode (pString params "mode" "rate-limit") with
  | None => Err (ErrParam "mode")
  | Some mode =>
      match gatingMode (pString params "gating_mode" "blocking") with
      | None => Err (ErrParam "gating_mode")
      | Some gating =>
          try limit <- paramInt params "limit" 0;
          try _ <- guard (negb (limit <=? 0)) (ErrParam "limit");
          try window <- paramDuration ParseDuration Sprint params "window" (60 * 10 ^ 9);
          try _ <- guard (negb (is_rate_limit mode && (window <=? 0))) (ErrParam "window");
          Ok (mkQuotaConfig (pString params "attribute" "userid") mode gating limit window (pString params "prefix" "quota:"))
      end
  end.

(** The client of an address, handed to what is made of it. *)
Definition with_client (addr : string) (mk : client -> made) (f : GateFactory) : Res CreateErr made * GateFactory :=
  let '(c, f') := redisClient addr f in (Ok (mk c), f').

Definition create_redis (params : params_t) (f : GateFactory) : Res CreateErr made * GateFactory :=
  match requireString params "address" with
  | Err e => (Err e, f)
  | Ok addr => with_client addr (fun c => MRedis c (pString params "budget_key" "dispatch-gate-budget")) f
  end.

Definition create_leased (owner : GateOwner) (params : params_t) (f : GateFactory) : Res CreateErr made * GateFactory :=
  match (try addr <- requireString params "address";
         let poolID := pString params "pool_id" (go_WorkerPoolID owner) in
         try _ <- guard (bool_decide (poolID <> "")) (ErrParam "pool_id");
         try controlKey <- requireString params "control_key";
         try burst <- pFloat params "burst_seconds" (Fin 1);
         try _ <- guard (negb (isNaN burst || isInf burst || fle burst (Fin 0))) (ErrParam "burst_seconds");
         Ok (addr, NewRedisLeasedRateGate controlKey (pString params "state_key" "") poolID burst)) with
  | Err e => (Err e, f)
  | Ok (addr, g) => with_client addr (fun c => MLeased c g) f
  end.

Definition create_redis_quota (params : params_t) (f : GateFactory) : Res CreateErr made * GateFactory :=
  match (try addr <- requireString params "address"; try q <- quotaParams params; Ok (addr, q)) with
  | Err e => (Err e, f)
  | Ok (addr, q) => with_client addr (fun c => MQuota (RedisQuotaStore c (qc_window q)) q) f
  end.

Definition create_sql_quota (sqlQuota : bool) (params : params_t) : Res CreateErr made :=
  try _ <- guard sqlQuota ErrNoSQL;
  try q <- quotaParams params;
  Ok (MQuota SQLQuotaStore q).

Definition create_saturation (f : GateFactory) (owner : GateOwner) (params : params_t) : Res CreateErr made :=
  let url := gf_prometheusURL f in
  try _ <- guard (bool_decide (url <> "")) ErrNoPrometheus;
  try threshold <- pFloat params "threshold" (Fin (frnd (4 # 5)));
  try fallback <- pFloat params "fallback" (Fin 0);
  let pool := pString params "pool" "" in
  try src <- promSource url (saturation_query Quote pool (pString params "namespace" ""));
  Ok (MetricDispatchGate (cachedSource src (gf_cacheTTL f)) (fsub (Fin 1) threshold) (fsub (Fin 1) fallback) owner pool).

Definition create_budget (f : GateFactory) (owner : GateOwner) (params : params_t) : Res CreateErr made :=
  let url := gf_prometheusURL f in
  try _ <- guard (bool_decide (url <> "")) ErrNoPrometheus;
  try pool <- requireString params "pool";
  try maxConcurrency <- pFloat params "max_concurrency" (Fin 100);
  try _ <- guard (negb (fle maxConcurrency (Fin 0))) (ErrParam "max_concurrency");
  try baseline <- pFloat params "baseline" (Fin (frnd (1 # 20)));
  try _ <- guard (negb (flt baseline (Fin 0) || fle (Fin 1) baseline)) (ErrParam "baseline");
  try fallback <- pFloat params "fallback" (Fin 0);
  let namespace := pString params "namespace" "" in
  try flowControl <- promSource url (flow_control_query Quote FormatG pool maxConcurrency namespace);
  try poolQueue <- promSource url (pool_queue_query Quote FormatG pool maxConcurrency namespace);
  try vllm <- promSource url (vllm_query Quote FormatG pool maxConcurrency namespace);
  let cascaded := (fun s => cachedSource s (gf_cacheTTL f)) <$> [flowControl; poolQueue; vllm] in
  Ok (MetricDispatchGate (SCascade cascaded) baseline fallback owner pool).

Definition create_query (f : GateFactory) (owner : GateOwner) (params : params_t) : Res CreateErr made :=
  let url := gf_prometheusURL f in
  try _ <- guard (bool_decide (url <> "")) ErrNoPrometheus;
  try query <- requireString params "query";
  try fallback <- pFloat params "fallback" (Fin 0);
  try src <- NewPromQLMetricSource url query;
  Ok (MetricDispatchGate (cachedSource src (gf_cacheTTL f)) (Fin 0) fallback owner (pString params "pool" "")).

Definition create_scrape (cacheTTL : Z) (params : params_t) : Res CreateErr made :=
  try url <- requireString params "url";
  try metric <- requireString params "metric";
  try labels <- paramStringMap Sprint params "labels";
  try maxCountPerPod <- pFloat params "max_count_per_pod" (Fin 0);
  let valueType := pString params "value_type" "saturation" in
  try _ <- guard (bool_decide (valueType = "saturation") || bool_decide (valueType = "budget")) (ErrParam "value_type");
  try baseline <- pFloat params "baseline" (Fin 0);
  try fallback <- pFloat params "fallback" (Fin 0);
  try podsLabels <- paramStringMap Sprint params "pods_labels";
  let cfg := mkScrape url metric labels maxCountPerPod (bool_decide (valueType = "budget"))
               (pString params "pods_url" "") (pString params "pods_metric" "") podsLabels in
  Ok (MetricDispatchGate (cachedSource (SScrape cfg) cacheTTL) baseline fallback no_owner "").

Definition create_local (params : params_t) : Res CreateErr made :=
  try limit <- paramInt params "limit" 0;
  try _ <- guard (negb (limit <=? 0)) (ErrParam "limit");
  let mode := pString params "gating_mode" "" in
  if bool_decide (mode = "") then Ok (MLocal limit GatingModeClassifying)
  else match gatingMode mode with
       | Some m => Ok (MLocal limit m)
       | None => Err (ErrParam "gating_mode")
       end.

(** The gate types with no inner gate; an unknown type is an open gate. *)
Definition create_leaf (gateType : string) (owner : GateOwner) (params : params_t) (f : GateFactory) : Res CreateErr made * GateFactory :=
  if bool_decide (gateType = "redis") then create_redis params f
  else if bool_decide (gateType = "redis-leased-rate") then create_leased owner params f
  else if bool_decide (gateType = "redis-quota") then create_redis_quota params f
  else if bool_decide (gateType = "sql-quota") then (create_sql_quota (gf_sqlQuota f) params, f)
  else if bool_decide (gateType = "prometheus-saturation") then (create_saturation f owner params, f)
  else if bool_decide (gateType = "prometheus-budget") then (create_budget f owner params, f)
  else if bool_decide (gateType = "prometheus-query") then (create_query f owner params, f)
  else if bool_decide (gateType = "endpoint-scrape") then (create_scrape (gf_cacheTTL f) params, f)
  else if bool_decide (gateType = "local-max-concurrency") then (create_local params, f)
  else (Ok MConstOpen, f).

Definition created : Type := option (Res CreateErr made * GateFactory).

(** The inner gates of a composite, up to the first that fails. *)
Fixpoint create_all (create : GateConfig -> GateFactory -> created) (configs : list GateConfig) (f : GateFactory) :
    option (Res CreateErr (list made) * GateFactory) :=
  match configs with
  | [] => Some (Ok [], f)
  | c :: rest =>
      '(r, f') ← create c f;
      match r with
      | Err e => Some (Err e, f')
      | Ok g =>
          '(rs, f'') ← create_all create rest f';
          Some (match rs with Ok gs => Ok (g :: gs) | Err e => Err e end, f'')
      end
  end.

(** What is made of an inner gate. *)
Definition around (mk : made -> made) (r : created) : created :=
  '(r, f) ← r; Some (match r with Ok g => Ok (mk g) | Err e => Err e end, f).

Definition owned_by (owner : GateOwner) (c : GateConfig) : GateConfig := mkGateConfig (gc_GateType c) (gc_GateParams c) owner.

(** [None]: the fuel ran out. *)
Fixpoint CreateGate (fuel : nat) (cfg : GateConfig) (f : GateFactory) : created :=
  match fuel with
  | O => None
  | S fuel =>
      let params := default [] (gc_GateParams cfg) in
      let owner := gc_Owner cfg in
      let create c := CreateGate fuel (owned_by owner c) in
      if bool_decide (gc_GateType cfg = "composite") then
        match paramGateConfigs params "gates" with
        | Err e => Some (Err e, f)
        | Ok configs =>
            '(rs, f') ← create_all create configs f;
            Some (match rs with Ok gs => Ok (MComposite gs) | Err e => Err e end, f')
        end
      else if bool_decide (gc_GateType cfg = "wait-on-refuse") then
        match paramGateConfig params "gate" with
        | Err e => Some (Err e, f)
        | Ok inner => around MWaitOnRefuse (create inner f)
        end
      else if bool_decide (gc_GateType cfg = "tier-priority-admission") then
        match (try ty <- requireString params "saturation_gate"; try ps <- paramMapAny params "saturation_gate_params"; Ok (ty, ps)) with
        | Err e => Some (Err e, f)
        | Ok (ty, ps) =>
            around (fun g => MTierPriority g (pString params "tier_label" "tier")) (create (mkGateConfig ty ps owner) f)
        end
      else Some (create_leaf (gc_GateType cfg) owner params f)
  end.
End create.

(** ** Termination *)
Fixpoint asize (v : any) : nat :=
  match v with
  | ANil | ABool _ | ANum _ | AStr _ None => 1
  | AStr _ (Some d) => S (asize d)
  | AArr l => S (sum_list_with asize l)
  | AObj l => S (sum_list_with (fun kv => asize kv.2) l)
  end.

Definition psize (params : list (string * any)) : nat := sum_list_with (fun kv => asize kv.2) params.
Definition csize (cfg : GateConfig) : nat := psize (default [] (gc_GateParams cfg)).

(** Enough for the gates nested in a configuration. *)
Definition gate_fuel (cfg : GateConfig) : nat := S (csize cfg).

Lemma psize_app l k : psize (l ++ k) = (psize l + psize k)%nat.
Proof. apply sum_list_with_app. Qed.

Lemma psize_cons kv l : psize (kv :: l) = (asize kv.2 + psize l)%nat.
Proof. done. Qed.

Lemma param_size params key v : param params key = Some v -> (asize v <= psize params)%nat.
Proof.
  induction params as [|[k x] params IH]; [done|]. cbn [param]. rewrite psize_cons. cbn [snd].
  destruct (_ && _); [|intros H; apply IH in H; lia]. destruct x; try done; intros [= <-]; lia.
Qed.

Lemma config_fields_size members : forall cfg cfg', config_fields cfg members = Some cfg' -> (csize cfg' <= csize cfg + psize members)%nat.
Proof.
  induction members as [|kv members IH]; intros cfg cfg'; cbn [config_fields]; [intros [= <-]; lia|].
  destruct (config_field cfg kv) as [cfg1|] eqn:E; cbn [mbind option_bind]; [|done]. intros H. apply IH in H. rewrite psize_cons.
  enough (csize cfg1 <= csize cfg + asize kv.2)%nat by lia. unfold config_field in E. destruct (bool_decide _).
  - destruct kv.2; simplify_eq; unfold csize; cbn [gc_GateParams]; lia.
  - destruct (bool_decide _); [|simplify_eq; lia]. destruct kv.2 as [| | | | |l]; simplify_eq; unfold csize; cbn [gc_GateParams from_option]; [cbn; lia|].
    unfold id at 1. rewrite psize_app. cbn [asize]. unfold psize. lia.
Qed.

Lemma unmarshal_config_size v c : unmarshal_config v = Some c -> (csize c < asize v)%nat.
Proof.
  destruct v; try done; cbn [unmarshal_config]; [by intros [= <-]; cbn; lia|]. intros H%config_fields_size. cbn [asize].
  change (csize zeroConfig) with 0%nat in H. unfold psize in H. lia.
Qed.

Lemma unmarshal_configs_size v l : unmarshal_configs v = Some l -> Forall (fun c => (csize c < asize v)%nat) l.
Proof.
  destruct v as [| | | |vs|]; try done; cbn [unmarshal_configs]; [intros [= <-]; constructor|]. intros H%mapM_Some_1. cbn [asize].
  induction H as [|v c vs l Hc H IH]; [constructor|]. apply unmarshal_config_size in Hc. cbn [sum_list_with]. constructor; [lia|].
  eapply Forall_impl; [exact IH|]. simpl. intros. lia.
Qed.

Lemma psize_perm l k : l ≡ₚ k -> psize l = psize k.
Proof. induction 1; rewrite ?psize_cons; lia. Qed.

Lemma last_of_each_size l : (psize (last_of_each l) <= psize l)%nat.
Proof. induction l as [|kv l IH]; [done|]. cbn [last_of_each]. destruct (bool_decide _); rewrite ?psize_cons; lia. Qed.

Lemma remarshal_size v : (asize (remarshal v) <= asize v)%nat.
Proof.
  destruct v as [| | | | |l]; try done. cbn [remarshal asize]. apply le_n_S.
  fold (psize (merge_sort key_le (last_of_each l))). fold (psize l). rewrite (psize_perm _ _ (merge_sort_Permutation key_le _)). apply last_of_each_size.
Qed.

Lemma paramGateConfigs_size params key l : paramGateConfigs params key = Ok l -> Forall (fun c => (csize c < psize params)%nat) l.
Proof.
  unfold paramGateConfigs. destruct (param params key) as [v|] eqn:Ep; [|done]. apply param_size in Ep.
  destruct v as [| | |s json|vs|]; try done.
  - destruct (bool_decide _); [done|]. destruct json as [d|]; [|done]. cbn [mbind option_bind]. destruct (unmarshal_configs d) eqn:E; [|done].
    intros [= <-]. apply unmarshal_configs_size in E. eapply Forall_impl; [exact E|]. cbn [asize] in Ep. simpl. lia.
  - destruct (unmarshal_configs _) eqn:E; [|done]. intros [= <-]. apply unmarshal_configs_size in E. eapply Forall_impl; [exact E|]. simpl.
    cbn [asize] in Ep |- *. assert (sum_list_with asize (remarshal <$> vs) <= sum_list_with asize vs)%nat; [|simpl; intros; lia].
    clear. induction vs as [|v vs IH]; [done|]. rewrite fmap_cons. cbn [sum_list_with]. pose proof (remarshal_size v). lia.
Qed.

Lemma paramGateConfig_size params key c : paramGateConfig params key = Ok c -> (csize c < psize params)%nat.
Proof.
  unfold paramGateConfig. destruct (param params key) as [v|] eqn:Ep; [|done]. apply param_size in Ep.
  destruct v as [| | |s json| |ms]; try done.
  - destruct (bool_decide _); [done|]. destruct json as [d|]; [|done]. cbn [mbind option_bind]. destruct (unmarshal_config d) eqn:E; [|done].
    intros [= <-]. apply unmarshal_config_size in E. cbn [asize] in Ep. lia.
  - destruct (unmarshal_config _) eqn:E; [|done]. intros [= <-]. apply unmarshal_config_size in E. pose proof (remarshal_size (AObj ms)). lia.
Qed.

Lemma paramMapAny_size params key ps : paramMapAny params key = Ok ps -> psize params = 0%nat \/ (psize (default [] ps) < psize params)%nat.
Proof.
  unfold paramMapAny. destruct (param params key) as [v|] eqn:Ep; [apply param_size in Ep|intros [= <-]; cbn; lia].
  destruct v as [| | |s json| |ms]; try done.
  - destruct (bool_decide _); [intros [= <-]; cbn in *; destruct json; cbn in *; lia|]. destruct json as [[| | | | |l]|]; try done; intros [= <-]; cbn in *; unfold psize in *; lia.
  - intros [= <-]. cbn in *. unfold psize in *. lia.
Qed.

Section factory.
Context (FormatFloat : float64 -> string) (ParseFloat : string -> option float64).
Context (ParseDuration : string -> option Z) (Sprint : any -> string).
Context (Quote : string -> string) (FormatG : float64 -> string) (promClient : string -> bool).

Notation CreateGate := (CreateGate FormatFloat ParseFloat ParseDuration Sprint Quote FormatG promClient).
Notation create_leaf := (create_leaf FormatFloat ParseFloat ParseDuration Sprint Quote FormatG promClient).

Lemma create_all_agree (create create' : GateConfig -> GateFactory -> created) configs : forall f,
  Forall (fun c => forall f, create c f = create' c f) configs -> create_all create configs f = create_all create' configs f.
Proof.
  induction configs as [|c configs IH]; intros f; [done|]. intros [Hc H]%Forall_cons_1. cbn [create_all]. rewrite Hc.
  destruct (create' c f) as [[[g|e] f']|]; [|done..]. cbn. by rewrite IH.
Qed.

Lemma create_all_some (create : GateConfig -> GateFactory -> created) configs : forall f,
  Forall (fun c => forall f, is_Some (create c f)) configs -> is_Some (create_all create configs f).
Proof.
  induction configs as [|c configs IH]; intros f; [done|]. intros [Hc H]%Forall_cons_1. cbn [create_all].
  destruct (Hc f) as [[[g|e] f'] ->]; cbn; [|done]. by destruct (IH f' H) as [[[gs|e] f''] ->]; cbn.
Qed.

Lemma saturation_params_size params ty ps :
  res_bind (requireString FormatFloat params "saturation_gate") (fun ty => res_bind (paramMapAny params "saturation_gate_params") (fun ps => Ok (ty, ps))) = Ok (ty, ps) ->
  (psize (default [] ps) < psize params)%nat.
Proof.
  unfold requireString, guard, paramString. destruct (param params "saturation_gate") as [v|] eqn:Ep; [|by rewrite bool_decide_eq_false_2 by auto].
  apply param_size in Ep. assert (0 < asize v)%nat by (destruct v as [| | |? []| |]; cbn; lia).
  destruct (bool_decide _); [|done]. cbn [res_bind]. destruct (paramMapAny params _) as [ps'|] eqn:E; [|done]. cbn. intros [= _ <-].
  apply paramMapAny_size in E. lia.
Qed.

Lemma csize_owned owner c : csize (owned_by owner c) = csize c.
Proof. done. Qed.

Lemma create_fuel fuel : forall cfg f, (csize cfg < fuel)%nat ->
  is_Some (CreateGate fuel cfg f) /\ forall fuel', (csize cfg < fuel')%nat -> CreateGate fuel' cfg f = CreateGate fuel cfg f.
Proof.
  induction fuel as [|fuel IH]; intros cfg f Hf; [lia|].
  assert (forall c, (csize c < csize cfg)%nat -> forall f, is_Some (CreateGate fuel (owned_by (gc_Owner cfg) c) f) /\
    forall fuel', (csize cfg < S fuel')%nat -> CreateGate fuel' (owned_by (gc_Owner cfg) c) f = CreateGate fuel (owned_by (gc_Owner cfg) c) f) as Hin.
  { intros c Hc f'. destruct (IH (owned_by (gc_Owner cfg) c) f') as [H1 H2]; [rewrite csize_owned; lia|]. split; [done|].
    intros fuel' Hf'. apply H2. rewrite csize_owned. lia. }
  clear IH. cbn [CreateGate]. split.
  - destruct (bool_decide (gc_GateType cfg = "composite")).
    { destruct (paramGateConfigs _ _) as [configs|] eqn:E; [|done]. apply paramGateConfigs_size in E.
      destruct (create_all_some (fun c => CreateGate fuel (owned_by (gc_Owner cfg) c)) configs f) as [[rs f'] ->]; [|done].
      eapply Forall_impl; [exact E|]. intros c Hc f'. by apply Hin. }
    destruct (bool_decide (gc_GateType cfg = "wait-on-refuse")).
    { destruct (paramGateConfig _ _) as [c|] eqn:E; [|done]. apply paramGateConfig_size in E. by destruct (Hin c E f) as [[[r f'] ->] _]. }
    destruct (bool_decide (gc_GateType cfg = "tier-priority-admission")); [|done].
    destruct (res_bind _ _) as [[ty ps]|] eqn:E; [|done]. apply saturation_params_size in E.
    by destruct (Hin (mkGateConfig ty ps (gc_Owner cfg)) E f) as [[[r f'] ->] _].
  - intros [|fuel'] Hf'; [lia|]. cbn [CreateGate]. destruct (bool_decide (gc_GateType cfg = "composite")).
    { destruct (paramGateConfigs _ _) as [configs|] eqn:E; [|done]. apply paramGateConfigs_size in E.
      rewrite (create_all_agree _ (fun c => CreateGate fuel (owned_by (gc_Owner cfg) c))); [done|].
      eapply Forall_impl; [exact E|]. intros c Hc f'. by apply Hin. }
    destruct (bool_decide (gc_GateType cfg = "wait-on-refuse")).
    { destruct (paramGateConfig _ _) as [c|] eqn:E; [|done]. apply paramGateConfig_size in E. by rewrite (proj2 (Hin c E f)). }
    destruct (bool_decide (gc_GateType cfg = "tier-priority-admission")); [|done].
    destruct (res_bind _ _) as [[ty ps]|] eqn:E; [|done]. apply saturation_params_size in E.
    by rewrite (proj2 (Hin (mkGateConfig ty ps (gc_Owner cfg)) E f)).
Qed.

(** C36. Creating a gate terminates on every configuration, however its gates are
    nested in documents and in texts of documents: the fuel for the size of the
    parameters is enough, and more does not change the outcome. *)
Theorem CreateGate_total cfg f :
  is_Some (CreateGate (gate_fuel cfg) cfg f) /\
  forall fuel, (gate_fuel cfg <= fuel)%nat -> CreateGate fuel cfg f = CreateGate (gate_fuel cfg) cfg f.
Proof. unfold gate_fuel. destruct (create_fuel (S (csize cfg)) cfg f) as [H1 H2]; [lia|]. split; [done|]. intros fuel Hf. apply H2. lia. Qed.

(** ** What a created gate was made with *)

(** [P] of every gate of a tree that has no inner gate. *)
Fixpoint every_leaf (P : made -> Prop) (g : made) : Prop :=
  match g with
  | MWaitOnRefuse g | MTierPriority g _ => every_leaf P g
  | MComposite gs => foldr (fun g acc => every_leaf P g /\ acc) True gs
  | _ => P g
  end.

Lemma create_all_leaves (P : GateFactory -> made -> Prop) (I : GateFactory -> GateFactory -> Prop) (create : GateConfig -> GateFactory -> created) :
  (forall f, I f f) -> (forall f f' f'', I f f' -> I f' f'' -> I f f'') ->
  (forall f f' g, I f f' -> every_leaf (P f) g -> every_leaf (P f') g) ->
  forall configs, (forall c f r f', c ∈ configs -> create c f = Some (r, f') -> I f f' /\ forall g, r = Ok g -> every_leaf (P f') g) ->
  forall f rs f', create_all create configs f = Some (rs, f') -> I f f' /\ forall gs, rs = Ok gs -> every_leaf (P f') (MComposite gs).
Proof.
  intros Irefl Itrans Pmono configs. induction configs as [|c configs IH]; intros Hc f rs f'; cbn [create_all]; [by intros [= <- <-]; split; [done|]; intros gs [= <-]|].
  destruct (create c f) as [[r f1]|] eqn:Ec; [|done]. cbn [mbind option_bind]. destruct (Hc c f r f1) as [I1 G1]; [left|done|].
  destruct r as [g|e]; [|intros [= <- <-]; by split].
  destruct (create_all create configs f1) as [[rs1 f2]|] eqn:Er; [|done]. cbn [mbind option_bind]. intros [= <- <-].
  destruct (IH (fun c f r f' H => Hc c f r f' (list_elem_of_further _ _ _ H)) f1 rs1 f2 Er) as [I2 G2]. split; [by eapply Itrans|].
  destruct rs1 as [gs1|]; [|done]. intros gs [= <-]. split; [by eapply Pmono, G1|by apply G2].
Qed.

(** What holds of the leaves holds of every gate. *)
Lemma create_leaves (P : GateOwner -> GateFactory -> made -> Prop) (I : GateFactory -> GateFactory -> Prop) :
  (forall f, I f f) -> (forall f f' f'', I f f' -> I f' f'' -> I f f'') ->
  (forall o f f' g, I f f' -> every_leaf (P o f) g -> every_leaf (P o f') g) ->
  (forall ty o ps f r f', create_leaf ty o ps f = (r, f') -> I f f' /\ forall g, r = Ok g -> every_leaf (P o f') g) ->
  forall fuel cfg f r f', CreateGate fuel cfg f = Some (r, f') -> I f f' /\ forall g, r = Ok g -> every_leaf (P (gc_Owner cfg) f') g.
Proof.
  intros Irefl Itrans Pmono Hleaf fuel. induction fuel as [|fuel IH]; intros cfg f r f'; [done|]. cbn [CreateGate].
  assert (forall o mk c f r f', (forall P g, every_leaf P (mk g) = every_leaf P g) -> around mk (CreateGate fuel (owned_by o c) f) = Some (r, f') ->
    I f f' /\ forall g, r = Ok g -> every_leaf (P o f') g) as Haround.
  { intros o mk c f0 r0 f0' Hmk H. unfold around in H. destruct (CreateGate fuel _ f0) as [[r1 f1]|] eqn:E; [|done]. cbn in H.
    injection H as <- <-. apply IH in E as [HI HP]. split; [done|]. destruct r1 as [g1|]; [|done]. intros g [= <-]. rewrite Hmk. by apply HP. }
  destruct (bool_decide (gc_GateType cfg = "composite")).
  { destruct (paramGateConfigs _ _) as [configs|]; [|intros [= <- <-]; by split]. destruct (create_all _ configs f) as [[rs f1]|] eqn:E; [|done].
    cbn. intros [= <- <-]. apply (create_all_leaves (P (gc_Owner cfg)) I) in E as [HI HP]; [|done..| |].
    - split; [done|]. destruct rs as [gs|]; [|done]. intros g [= <-]. by apply HP.
    - intros. by eapply Pmono.
    - intros c f0 r0 f0' _ H. apply IH in H. exact H. }
  destruct (bool_decide (gc_GateType cfg = "wait-on-refuse")).
  { destruct (paramGateConfig _ _) as [c|]; [|intros [= <- <-]; by split]. by apply Haround. }
  destruct (bool_decide (gc_GateType cfg = "tier-priority-admission")).
  { destruct (res_bind _ _) as [[ty ps]|]; [|intros [= <- <-]; by split]. by apply Haround. }
  intros [= H]. by eapply Hleaf.
Qed.

(** A client a gate may use: one the factory holds, or the transport's. *)
Definition client_open (f : GateFactory) (c : client) : Prop :=
  match c with
  | OwnClient id => exists addr, gf_redisClients f !! addr = Some id
  | TransportClient id => exists addr, gf_transportClients f !! addr = Some id
  end.

(** A source that asks a server itself: the configured Prometheus, which has a
    client, or an endpoint. *)
Definition asks (f : GateFactory) (s : source) : Prop :=
  match s with
  | SPromQL url _ => url = gf_prometheusURL f /\ url <> "" /\ promClient url = true
  | SScrape cfg => sc_URL cfg <> "" /\ sc_MetricName cfg <> ""
  | _ => False
  end.

(** Through a cache exactly when the factory has a TTL, and then with that one. *)
Definition asks_cached (f : GateFactory) (s : source) : Prop :=
  if 0 <? gf_cacheTTL f then exists s', s = SCached s' (gf_cacheTTL f) /\ asks f s' else asks f s.

Definition source_ok (f : GateFactory) (s : source) : Prop :=
  match s with
  | SCascade l => (2 <= length l)%nat /\ Forall (asks_cached f) l
  | s => asks_cached f s
  end.

(** A number of the unit interval, or not a number. *)
Definition unit_or_nan (x : float64) : Prop := x = NaN \/ exists q, x = Fin q /\ (0 <= q <= 1)%Q.

Lemma in_unit_or_nan x : in_unit x = true -> unit_or_nan x.
Proof.
  unfold in_unit. destruct x as [| | |q]; [by left|done|done|]. cbn. intros [H1%Qle_bool_iff H2%Qle_bool_iff]%andb_prop. right. by exists q.
Qed.

Definition is_scrape (s : source) : bool := match s with SScrape _ | SCached (SScrape _) _ => true | _ => false end.

Definition leaf_ok (owner : GateOwner) (f : GateFactory) (g : made) : Prop :=
  match g with
  | MRedis c _ => client_open f c
  | MLeased c g =>
      client_open f c /\ lg_poolID g <> "" /\ lg_controlKey g <> "" /\ lg_stateKey g <> "" /\
      exists q, lg_burstSeconds g = Fin q /\ (0 < q)%Q
  | MQuota st q =>
      0 < qc_limit q /\ qc_mode q <> QuotaModeOther /\ (qc_mode q = QuotaModeRateLimit -> 0 < qc_window q) /\
      match st with
      | RedisQuotaStore c ttl => client_open f c /\ ttl = qc_window q
      | SQLQuotaStore => gf_sqlQuota f = true
      end
  | MMetric src _ fallback o _ => source_ok f src /\ unit_or_nan fallback /\ o = (if is_scrape src then no_owner else owner)
  | MLocal limit _ => 0 < limit
  | _ => True
  end.

(** What creating gates does to a factory: it may create clients, whose ids
    follow those it gave out before. *)
Definition own_ids (f : GateFactory) : list nat := (map_to_list (gf_redisClients f)).*2.

Record extends (f f' : GateFactory) : Prop := mkExtends {
  ext_url : gf_prometheusURL f' = gf_prometheusURL f;
  ext_ttl : gf_cacheTTL f' = gf_cacheTTL f;
  ext_sql : gf_sqlQuota f' = gf_sqlQuota f;
  ext_transport : gf_transportClients f' = gf_transportClients f;
  ext_clients : gf_redisClients f ⊆ gf_redisClients f';
  ext_ids : exists n, gf_next f' = (gf_next f + n)%nat /\ own_ids f' ≡ₚ own_ids f ++ seq (gf_next f) n
}.

Lemma extends_refl f : extends f f.
Proof. split; try done. exists 0%nat. by rewrite Nat.add_0_r, app_nil_r. Qed.

Lemma extends_trans f f' f'' : extends f f' -> extends f' f'' -> extends f f''.
Proof.
  intros [] []. split; try congruence; [by etrans|]. destruct ext_ids0 as (n & Hn & Hp), ext_ids1 as (m & Hm & Hq).
  exists (n + m)%nat. split; [lia|]. rewrite Hq, Hp, Hn, seq_app, <- app_assoc. done.
Qed.

Lemma redisClient_spec addr f c f' : redisClient addr f = (c, f') -> extends f f' /\ client_open f' c.
Proof.
  unfold redisClient. destruct (gf_transportClients f !! addr) eqn:Et; [intros [= <- <-]; split; [apply extends_refl|by exists addr]|].
  destruct (gf_redisClients f !! addr) eqn:Er; intros [= <- <-]; (split; [|exists addr; cbn; by simplify_map_eq]); [apply extends_refl|].
  split; try done; [by apply insert_subseteq|]. exists 1%nat. split; [cbn; lia|]. unfold own_ids. cbn [gf_redisClients seq].
  rewrite map_to_list_insert by done. cbn. by rewrite Permutation_app_comm.
Qed.

Lemma client_open_mono f f' c : extends f f' -> client_open f c -> client_open f' c.
Proof.
  intros []. destruct c as [id|id]; intros [addr H]; exists addr; [by rewrite ext_transport0|]. by eapply lookup_weaken.
Qed.

Lemma asks_cached_same f f' s : extends f f' -> asks_cached f s -> asks_cached f' s.
Proof.
  intros []. unfold asks_cached. rewrite ext_ttl0. assert (forall s, asks f s -> asks f' s) as H by (intros [| | |]; cbn; by rewrite ?ext_url0).
  destruct (0 <? gf_cacheTTL f); [|apply H]. intros (s' & -> & Hs). eauto.
Qed.

Lemma source_ok_same f f' s : extends f f' -> source_ok f s -> source_ok f' s.
Proof.
  intros E. destruct s as [| | |l]; try by apply asks_cached_same. intros [H1 H2]. split; [done|].
  eapply Forall_impl; [exact H2|]. intros s. by apply asks_cached_same.
Qed.

Lemma leaf_ok_mono o f f' g : extends f f' -> leaf_ok o f g -> leaf_ok o f' g.
Proof.
  intros E. pose proof (fun c => client_open_mono f f' c E). pose proof (fun s => source_ok_same f f' s E). pose proof (ext_sql _ _ E) as Es.
  destruct g as [| | |[c ttl|] q| | | | |]; cbn [leaf_ok]; try rewrite Es; naive_solver.
Qed.

Lemma every_leaf_impl (P Q : made -> Prop) : (forall g, P g -> Q g) -> forall g, every_leaf P g -> every_leaf Q g.
Proof.
  intros HPQ. fix IH 1. intros [| | | | | |g|g l|gs]; cbn [every_leaf]; [apply HPQ..|apply IH|apply IH|].
  induction gs as [|g gs IHgs]; [done|]. cbn [foldr]. intros [H1 H2]. split; [by apply IH|by apply IHgs].
Qed.

Lemma guard_true b e u : guard b e = Ok u -> b = true.
Proof. by destruct b. Qed.

Lemma requireString_nonempty params key s : requireString FormatFloat params key = Ok s -> s <> "".
Proof.
  unfold requireString. destruct (guard _ _) eqn:E; [|done]. cbn. intros [= <-]. apply guard_true in E. by apply bool_decide_eq_true in E.
Qed.

(** The steps of a creation that succeeded. *)
Ltac inv_ok H :=
  repeat match type of H with
  | res_bind ?x _ = Ok _ => let E := fresh "E" in destruct x eqn:E; cbn [res_bind] in H; [|discriminate H]
  | (match ?x with Some _ => _ | None => _ end) = Ok _ => let E := fresh "E" in destruct x eqn:E; [|discriminate H]
  end.

Lemma quotaParams_ok params q : quotaParams FormatFloat ParseDuration Sprint params = Ok q ->
  0 < qc_limit q /\ qc_mode q <> QuotaModeOther /\ (qc_mode q = QuotaModeRateLimit -> 0 < qc_window q).
Proof.
  unfold quotaParams. intros H. inv_ok H. injection H as <-. cbn. apply guard_true in E2, E4. split_and!.
  - lia.
  - unfold quotaMode in E. repeat case_bool_decide; by simplify_eq.
  - intros ->. cbn in E4. lia.
Qed.

Lemma cachedSource_ok f s : asks f s -> asks_cached f (cachedSource s (gf_cacheTTL f)) /\
  source_ok f (cachedSource s (gf_cacheTTL f)) /\ is_scrape (cachedSource s (gf_cacheTTL f)) = is_scrape s.
Proof.
  intros Hs. assert (asks_cached f (cachedSource s (gf_cacheTTL f))) as H by (unfold asks_cached, cachedSource; destruct (0 <? gf_cacheTTL f); eauto).
  split; [done|]. unfold cachedSource in *. destruct (0 <? gf_cacheTTL f), s; by split.
Qed.

Lemma promSource_ok f s query : promSource promClient (gf_prometheusURL f) query = Ok s -> gf_prometheusURL f <> "" ->
  asks f s /\ is_scrape s = false.
Proof.
  unfold promSource, NewPromQLMetricSource. destruct query as [e|]; [|done]. intros H Hu. inv_ok H. injection H as <-. apply guard_true in E. done.
Qed.

Lemma metric_ok o f src t fb pool : source_ok f src -> is_scrape src = false ->
  leaf_ok o f (MetricDispatchGate src t fb o pool).
Proof. intros H1 H2. split_and!; [done|apply in_unit_or_nan, clamp_in_unit|by rewrite H2]. Qed.

Lemma metric_prom_ok o f s t fb pool : asks f s -> is_scrape s = false ->
  leaf_ok o f (MetricDispatchGate (cachedSource s (gf_cacheTTL f)) t fb o pool).
Proof. intros H1 H2. destruct (cachedSource_ok f s H1) as (_ & H3 & H4). apply metric_ok; [done|]. by rewrite H4. Qed.

Lemma with_client_ok o addr (mk : client -> made) f r f' :
  with_client addr mk f = (r, f') ->
  (forall c f', client_open f' c -> every_leaf (leaf_ok o f') (mk c)) -> extends f f' /\ forall g, r = Ok g -> every_leaf (leaf_ok o f') g.
Proof.
  unfold with_client. destruct (redisClient addr f) as [c f1] eqn:E. intros [= <- <-] Hmk. apply redisClient_spec in E as [E1 E2].
  split; [done|]. intros g [= <-]. by apply Hmk.
Qed.

Lemma create_redis_ok o params f r f' : create_redis FormatFloat params f = (r, f') ->
  extends f f' /\ forall g, r = Ok g -> every_leaf (leaf_ok o f') g.
Proof.
  unfold create_redis. destruct (requireString _ _ _); [|intros [= <- <-]; split; [apply extends_refl|done]]. intros H.
  by apply (with_client_ok o) in H; [|intros c f1 Hc].
Qed.

Lemma create_leased_ok o params f r f' : create_leased FormatFloat ParseFloat o params f = (r, f') ->
  extends f f' /\ forall g, r = Ok g -> every_leaf (leaf_ok o f') g.
Proof.
  unfold create_leased. destruct (res_bind _ _) as [[addr g]|] eqn:H; [|intros [= <- <-]; split; [apply extends_refl|done]].
  cbn zeta in H. inv_ok H. injection H as <- <-. apply guard_true in E0, E3. apply requireString_nonempty in E1. apply bool_decide_eq_true in E0.
  intros H. apply (with_client_ok o) in H; [done|]. intros c f1 Hc. cbn. split_and!; [done..| |].
  - destruct (decide _); [|done]. by destruct a1.
  - destruct a2 as [| | |q]; try done. exists q. split; [done|]. cbn in E3. apply negb_true_iff, Qle_bool_false in E3. done.
Qed.

Lemma create_redis_quota_ok o params f r f' : create_redis_quota FormatFloat ParseDuration Sprint params f = (r, f') ->
  extends f f' /\ forall g, r = Ok g -> every_leaf (leaf_ok o f') g.
Proof.
  unfold create_redis_quota. destruct (res_bind _ _) as [[addr q]|] eqn:H; [|intros [= <- <-]; split; [apply extends_refl|done]].
  inv_ok H. injection H as <- <-. apply quotaParams_ok in E0 as (H1 & H2 & H3). intros H. apply (with_client_ok o) in H; [done|].
  intros c f1 Hc. cbn. by split_and!.
Qed.

Lemma create_pure_ok o params f ty r f' :
  ty ∈ ["sql-quota"; "prometheus-saturation"; "prometheus-budget"; "prometheus-query"; "endpoint-scrape"; "local-max-concurrency"] ->
  create_leaf ty o params f = (r, f') -> f' = f /\ forall g, r = Ok g -> leaf_ok o f g /\ every_leaf (leaf_ok o f) g = leaf_ok o f g.
Proof.
  rewrite !elem_of_cons. intros Hty. unfold create_leaf.
  destruct Hty as [->|[->|[->|[->|[->|[->|Hty]]]]]]; [..|by apply not_elem_of_nil in Hty]; cbn -[create_sql_quota create_saturation create_budget create_query create_scrape create_local]; intros [= <- <-]; (split; [done|]); intros g H.
  - unfold create_sql_quota in H. inv_ok H. injection H as <-. apply guard_true in E. apply quotaParams_ok in E0 as (H1 & H2 & H3). split; [|done]. by split_and!.
  - unfold create_saturation in H. cbn zeta in H. inv_ok H. injection H as <-. apply guard_true, bool_decide_eq_true in E.
    apply promSource_ok in E2 as [H1 H2]; [|done]. split; [|done]. by apply metric_prom_ok.
  - unfold create_budget in H. cbn zeta in H. inv_ok H. injection H as <-. apply guard_true, bool_decide_eq_true in E.
    apply promSource_ok in E6 as [H1 _], E7 as [H2 _], E8 as [H3 _]; [|done..]. split; [|done]. apply metric_ok; [|done].
    split; [cbn; lia|]. cbn [fmap list_fmap]. repeat constructor; by apply cachedSource_ok.
  - unfold create_query in H. cbn zeta in H. inv_ok H. injection H as <-. apply guard_true, bool_decide_eq_true in E.
    apply (promSource_ok f _ (Some _)) in E2 as [H1 H2]; [|done]. split; [|done]. by apply metric_prom_ok.
  - unfold create_scrape in H. cbn zeta in H. inv_ok H. injection H as <-. apply requireString_nonempty in E, E0. split; [|done].
    match goal with |- context [SScrape ?cfg] => destruct (cachedSource_ok f (SScrape cfg)) as (_ & H1 & H2); [done|] end.
    split_and!; [done|apply in_unit_or_nan, clamp_in_unit|by rewrite H2].
  - unfold create_local in H. cbn zeta in H. inv_ok H. apply guard_true in E0. destruct (bool_decide _); [injection H as <-; split; [cbn; lia|done]|].
    inv_ok H. injection H as <-. split; [cbn; lia|done].
Qed.

Lemma create_leaf_ok ty o ps f r f' : create_leaf ty o ps f = (r, f') -> extends f f' /\ forall g, r = Ok g -> every_leaf (leaf_ok o f') g.
Proof.
  intros H. destruct (decide (ty ∈ ["sql-quota"; "prometheus-saturation"; "prometheus-budget"; "prometheus-query"; "endpoint-scrape"; "local-max-concurrency"])) as [Hty|Hty].
  { apply create_pure_ok in H as [-> H]; [|done]. split; [apply extends_refl|]. intros g Hg. destruct (H g Hg) as [H1 ->]. exact H1. }
  unfold create_leaf in H.
  destruct (bool_decide (ty = "redis")); [exact (create_redis_ok o _ _ _ _ H)|].
  destruct (bool_decide (ty = "redis-leased-rate")); [exact (create_leased_ok o _ _ _ _ H)|].
  destruct (bool_decide (ty = "redis-quota")); [exact (create_redis_quota_ok o _ _ _ _ H)|].
  repeat (rewrite bool_decide_eq_false_2 in H by (intros ->; apply Hty; rewrite !elem_of_cons; tauto)). injection H as <- <-.
  split; [apply extends_refl|]. by intros g [= <-].
Qed.

Lemma create_ok fuel cfg f r f' :
  CreateGate fuel cfg f = Some (r, f') -> extends f f' /\ forall g, r = Ok g -> every_leaf (leaf_ok (gc_Owner cfg) f') g.
Proof.
  apply (create_leaves (fun o f => leaf_ok o f) extends); [apply extends_refl|apply extends_trans| |apply create_leaf_ok].
  intros o f0 f1 g E. apply every_leaf_impl. intros g'. by apply leaf_ok_mono.
Qed.

(** C35. Every gate the factory creates was made with what its kind needs, in
    every place of the tree: a quota and a local gate have a positive limit, and
    a rate limit a positive window; a leased rate has a pool, its keys and a
    finite positive burst; a metric gate falls back to a number of the unit
    interval, or to NaN; it asks the configured Prometheus server, or an endpoint,
    or a cascade of such sources, each through a cache of the factory's TTL when
    that is positive and directly when it is not; it carries the owner of the
    outermost gate, except a gate that scrapes an endpoint, which carries none; and
    a Redis gate uses a client that is open. *)
Theorem created_gate_ok cfg f g f' :
  CreateGate (gate_fuel cfg) cfg f = Some (Ok g, f') -> every_leaf (leaf_ok (gc_Owner cfg) f') g.
Proof. intros H. apply create_ok in H as [_ H]. by apply H. Qed.

(** ** The clients of a factory *)
Inductive factory_op : Type :=
| FCreate (cfg : GateConfig)
| FRegister (id : nat) (addrs : list string)
| FSQL
| FClose.

(** The factory, and the clients it closed. *)
Definition run_op (st : GateFactory * list client) (op : factory_op) : GateFactory * list client :=
  let '(f, closed) := st in
  match op with
  | FCreate cfg => (match CreateGate (gate_fuel cfg) cfg f with Some (_, f') => f' | None => f end, closed)
  | FRegister id addrs => (default f (RegisterRedisClient id addrs f), closed)
  | FSQL => (WithSQLQuota f, closed)
  | FClose => let '(cs, f') := Close f in (f', closed ++ cs)
  end.

Definition clients_accounted (st : GateFactory * list client) : Prop :=
  st.2 ++ (OwnClient <$> own_ids st.1) ≡ₚ OwnClient <$> seq 0 (gf_next st.1).

Lemma run_op_accounted st op : clients_accounted st -> clients_accounted (run_op st op).
Proof.
  destruct st as [f closed]. unfold clients_accounted, run_op. cbn [fst snd]. intros H. destruct op as [cfg|id addrs| |]; [|by destruct addrs|done|].
  - destruct (CreateGate _ cfg f) as [[r f']|] eqn:E; [|done]. apply create_ok in E as [[] _]. destruct ext_ids0 as (n & Hn & Hp).
    cbn [fst snd]. rewrite Hn, Hp, fmap_app, app_assoc, H, seq_app, fmap_app. done.
  - unfold Close. cbn [fst snd]. unfold own_ids at 1. cbn [gf_redisClients gf_next]. rewrite map_to_list_empty. cbn. rewrite app_nil_r.
    rewrite <- H. unfold own_ids. by rewrite <- list_fmap_compose.
Qed.

(** Over any sequence of creations, registrations and closings, the Redis
    clients a factory created are exactly those it holds and those it closed,
    each once: none is closed twice, none leaks past a closing, and the
    transport's client is never closed. *)
Theorem clients_closed_once url ttl ops :
  let st := foldl run_op (NewGateFactoryWithCacheTTL url ttl, []) ops in
  NoDup (st.2 ++ (OwnClient <$> own_ids st.1)) /\
  (forall id, id ∈ seq 0 (gf_next st.1) <-> OwnClient id ∈ st.2 ++ (OwnClient <$> own_ids st.1)) /\
  (forall id, TransportClient id ∉ st.2) /\
  own_ids (run_op st FClose).1 = [].
Proof.
  intros st. assert (clients_accounted st) as H.
  { subst st. assert (clients_accounted (NewGateFactoryWithCacheTTL url ttl, [])) as H0 by (unfold clients_accounted, own_ids; cbn; by rewrite map_to_list_empty). revert H0.
    generalize (NewGateFactoryWithCacheTTL url ttl, @nil client). induction ops as [|op ops IH]; intros st H; [done|]. cbn [foldl]. by apply IH, run_op_accounted. }
  unfold clients_accounted in H. clearbody st. split_and!.
  - rewrite H. apply NoDup_fmap_2; [by intros ?? [= ->]|]. apply NoDup_seq.
  - intros id. rewrite H. rewrite list_elem_of_fmap. split; [by exists id|]. by intros (i & [= ->] & Hi).
  - intros id Hid. assert (TransportClient id ∈ st.2 ++ (OwnClient <$> own_ids st.1)) as Hin by set_solver. rewrite H in Hin.
    by apply list_elem_of_fmap in Hin as (i & ? & _).
  - destruct st as [f closed]. unfold own_ids. cbn. by rewrite map_to_list_empty.
Qed.

(** Two gates at one address share the client, and the transport's is preferred. *)
Lemma redisClient_shared addr f c f' : redisClient addr f = (c, f') -> redisClient addr f' = (c, f').
Proof.
  unfold redisClient. destruct (gf_transportClients f !! addr) eqn:Et; [intros [= <- <-]; by rewrite Et|].
  destruct (gf_redisClients f !! addr) eqn:Er; intros [= <- <-]; cbn; rewrite Et; [by rewrite Er|by simplify_map_eq].
Qed.
End factory.

(** ** Concrete parameters *)
Definition w_parse (s : string) : option float64 := if bool_decide (s = "NaN") then Some NaN else None.
Definition w_create : nat -> GateConfig -> GateFactory -> created :=
  CreateGate (fun _ => "0") w_parse (fun _ => None) (fun _ => "") (fun s => s) (fun _ => "100") (fun _ => true).
Definition w_owner : GateOwner := mkOwner "id" "q" "pool".

(** A wait-on-refuse gate around a local one, given as a text. *)
Definition w_config : GateConfig :=
  mkGateConfig "wait-on-refuse"
    (Some [("gate", AStr "{...}" (Some (AObj [("gate_type", AStr "local-max-concurrency" None);
                                              ("gate_params", AObj [("limit", ANum (Fin 3))])])))]) w_owner.

Lemma created_gate_ok_witness :
  every_leaf (leaf_ok (fun _ => true) w_owner (NewGateFactory "http://p")) (MWaitOnRefuse (MLocal 3 GatingModeClassifying)).
Proof.
  apply (created_gate_ok (fun _ => "0") w_parse (fun _ => None) (fun _ => "") (fun s => s) (fun _ => "100") (fun _ => true)
           w_config (NewGateFactory "http://p")).
  reflexivity.
Defined.

Definition w_nan : GateConfig :=
  mkGateConfig "prometheus-budget" (Some [("pool", AStr "p" None); ("baseline", AStr "NaN" None)]) w_owner.

(** The baseline is compared with the bounds of its range and not asked to be a
    number: a baseline of NaN is accepted, and the gate then never refuses,
    whatever its metric source reports. *)
Theorem nan_baseline_accepted :
  exists src fb f', w_create (gate_fuel w_nan) w_nan (NewGateFactory "http://p") = Some (Ok (MMetric src NaN fb w_owner "p"), f') /\
    forall env n q, env_query env n = Ok [Fin q] -> metric_budget env n NaN fb = NaN /\ fle (metric_budget env n NaN fb) (Fin 0) = false.
Proof.
  do 3 eexists. split; [vm_compute; reflexivity|]. intros env n q Hq. unfold metric_budget. rewrite Hq. done.
Qed.
