(* ===== verification/RedisMQ.v ===== *)
(** * The Redis Pub/Sub flow (pkg/redis/redisimpl.go)

    The worker of a subscription, the worker that parks retries in a sorted set,
    the worker that moves due retries back to the request channels, and the one
    that publishes results.  The state is the retry set, what was published, and
    what went to the request channels; each select between a channel send and
    the end of the context takes the next of [mq_picks]. *)
From stdpp Require Import prelude gmap strings list sorting.
From Stdlib Require Import ZArith QArith Lqa Lia.
From S2P Require Import Prelude Json Rounding Api Wire RedisProducer SortedSetFlow MergePolicy HotReload.

#[local] Open Scope string_scope.
#[local] Open Scope list_scope.
#[local] Open Scope Z_scope.
#[local] Open Scope faulty_scope.

Record MQ : Type := mkMQ {
  mq_retry : gmap string Q;
  mq_published : list (string * string);          (* the channel and the message *)
  mq_delivered : list (string * InternalRequest); (* the queue of the channel and the request *)
  mq_picks : list bool                            (* [false]: the context ended *)
}.

Definition set_retry (r : gmap string Q) (s : MQ) : MQ := mkMQ r (mq_published s) (mq_delivered s) (mq_picks s).

Notation MQM := (Faulty MQ unit).

Definition redis_call {A : Type} (q : MQ -> MQ * A) : MQM A := f_call tt (fun s => Ok (q s)).

(** [retryRedisOp]: up to three attempts. *)
Fixpoint retryOp {A : Type} (attempts : nat) (op : MQM A) : MQM A := fun s =>
  match op s with
  | (Ok a, s') => (Ok a, s')
  | (Err e, s') => match attempts with
                   | S n => match n with O => (Err e, s') | _ => retryOp n op s' end
                   | O => (Err e, s')
                   end
  end.

(** A pipeline runs every command and reports the first error. *)
Fixpoint pipe (cmds : list (MQM unit)) : MQM unit :=
  match cmds with
  | [] => f_ret tt
  | c :: rest => fun s =>
      let '(r, s1) := c s in
      let '(r', s2) := pipe rest s1 in
      (match r with Err e => Err e | Ok _ => r' end, s2)
  end.

Definition zadd (member : string) (score : Q) : MQM unit :=
  redis_call (fun s => (set_retry (<[member := score]> (mq_retry s)) s, tt)).

(** ** Construction *)
Record RequestChannelData : Type := mkChannelData {
  cd_requestChannel : RequestChannel;
  cd_queueName : string;
  cd_labels : gmap string string
}.

Inductive FlowErr : Type :=
| ErrConnection
| ErrPool (id : string)
| ErrBaseURL (queue : string)
| ErrTracing.

(** Channels are numbered from [c]. *)
Fixpoint queue_channels (workerPools : list string) (c : nat) (queues : list PubSubQueue) : Res FlowErr (list RequestChannelData) :=
  match queues with
  | [] => Ok []
  | q :: rest =>
      let workerPoolID := or_default (pq_WorkerPoolID q) "default" in
      if negb (bool_decide (workerPoolID ∈ workerPools)) then Err (ErrPool workerPoolID)
      else if bool_decide (pq_IGWBaseURL q = "") then Err (ErrBaseURL (pq_QueueName q))
      else match queue_channels workerPools (S c) rest with
           | Err e => Err e
           | Ok l =>
               Ok (mkChannelData (mkRequestChannel c (pq_IGWBaseURL q) (pq_InferenceObjective q)
                     (or_default (pq_RequestPathURL q) "/v1/completions") workerPoolID) (pq_QueueName q) (pq_Labels q) :: l)
           end
  end.

(** [client], [tracing]: whether the Redis client, and its tracing, could be set
    up. *)
Definition NewRedisMQFlow (client tracing : bool) (workerPools : list string) (cfg : PubSubConfig) : Res FlowErr (list RequestChannelData) :=
  if negb client then Err ErrConnection
  else match queue_channels workerPools 0 (pc_Queues cfg) with
       | Err e => Err e
       | Ok l => if pc_EnableTracing cfg && negb tracing then Err ErrTracing else Ok l
       end.

Lemma queue_channels_spec pools queues : forall c l, queue_channels pools c queues = Ok l ->
  cd_queueName <$> l = pq_QueueName <$> queues /\ rc_Channel ∘ cd_requestChannel <$> l = seq c (length queues) /\
  Forall (fun d => rc_WorkerPoolID (cd_requestChannel d) ∈ pools /\ rc_IGWBaseURL (cd_requestChannel d) <> "" /\
                   rc_RequestPathURL (cd_requestChannel d) <> "") l.
Proof.
  induction queues as [|q queues IH]; intros c l; cbn [queue_channels]; [by intros [= <-]|].
  case_bool_decide; cbn; [|done]. case_bool_decide; [done|]. destruct (queue_channels pools (S c) queues) as [l'|] eqn:E; [|done].
  intros [= <-]. apply IH in E as (H1 & H2 & H3). rewrite !fmap_cons, H1, H2. split_and!; [done..|]. constructor; [|done].
  cbn. split_and!; [done..|]. unfold or_default. by case_decide.
Qed.

(** ** Subscriptions *)
Section flow.
Context (marshal : InternalRequest -> option string) (unmarshal : string -> option InternalRequest).
Context (marshalResult : ResultMessage -> string) (resultQueue : string).

(** What [consumeSubscription] makes of a payload. *)
Definition received (queueName : string) (labels : gmap string string) (payload : string) : option InternalRequest :=
  ir ← unmarshal payload;
  match ir_Public ir with
  | None => None
  | Some _ => Some (on_routing (fun rt => set_labels (set_requestQueue queueName rt) (labels ∪ rt_Labels rt)) ir)
  end.

(** ** Parking a retry *)
Definition addRetry (now : Z) (msg : option InternalRequest * Q) : MQM unit :=
  match msg.1 with
  | None => f_ret tt
  | Some ir =>
      let score := fadd64 (inject_Z (Unix now)) msg.2 in
      match marshal ir with
      | None => f_ret tt
      | Some bytes => do! _ <- f_try (retryOp maxRetries (zadd bytes score)); f_ret tt
      end
  end.

(** ** Moving due retries back *)
Context (queues : list string).

(** The due entries of the set, first by score, and the set without them. *)
Definition due_entries (now : Q) (limit : nat) (r : gmap string Q) : list string :=
  (take limit (filter (fun ms => Qle_bool ms.2 now = true) (merge_sort zset_le (map_to_list r)))).*1.
Definition without (ms : list string) (r : gmap string Q) : gmap string Q := filter (fun kv => kv.1 ∉ ms) r.

Definition popDueRetryMessages (now : Z) (limit : nat) : MQM (list string) :=
  redis_call (fun s => let items := due_entries (inject_Z now) limit (mq_retry s) in (set_retry (without items (mq_retry s)) s, items)).

(** The request of an entry, when it can go back to a channel. *)
Definition deliverable (msg : string) : option (string * InternalRequest) :=
  message ← unmarshal msg;
  match ir_Public message with
  | None => None
  | Some _ =>
      let queueName := rt_RequestQueueName (ir_Routing message) in
      if bool_decide (queueName ∈ queues) then Some (queueName, message) else None
  end.

(** The select of a send: sent, or the context ended. *)
Definition send (m : string * InternalRequest) : MQM bool :=
  f_local (fun s =>
    let sent := default true (head (mq_picks s)) in
    (mkMQ (mq_retry s) (mq_published s) (if sent then mq_delivered s ++ [m] else mq_delivered s) (tail (mq_picks s)), sent)).

(** [Some rest]: the context ended, with [results[i:]] not delivered. *)
Fixpoint deliver (results : list string) : MQM (option (list string)) :=
  match results with
  | [] => f_ret None
  | msg :: rest =>
      match deliverable msg with
      | None => deliver rest
      | Some m => do! sent <- send m; if (sent : bool) then deliver rest else f_ret (Some (msg :: rest))
      end
  end.

Definition requeueRetryMessages (now : Z) (messages : list string) : MQM unit :=
  match messages with
  | [] => f_ret tt
  | _ => do! _ <- f_try (retryOp maxRetries (pipe ((fun m => zadd m (inject_Z (Unix now))) <$> messages))); f_ret tt
  end.

Definition retryPopBatchSize : nat := 100.

(** One drain cycle with the cutoff [cutoff]; [now] is when entries are put
    back.  Whether any entry was drained, and whether the context ended. *)
Inductive drained : Type := Drained (any : bool) | Stopped (put_back : list string) | OutOfFuel.

Fixpoint drain (fuel : nat) (cutoff now : Z) (drainedAny : bool) : MQM drained :=
  match fuel with
  | O => f_ret OutOfFuel
  | S fuel =>
      do! r <- f_try (popDueRetryMessages cutoff retryPopBatchSize);
      match r with
      | Err _ | Ok [] => f_ret (Drained drainedAny)
      | Ok results =>
          do! rest <- deliver results;
          match rest with
          | Some rest => do> requeueRetryMessages now rest; f_ret (Stopped rest)
          | None => drain fuel cutoff now true
          end
      end
  end.

Definition nextRetryPollInterval (current base max : Z) : Z :=
  if current <? base then base
  else let next := wrap64 (current * 2) in if max <? next then max else next.

Definition baseRetryPollInterval : Z := 1 * Second.
Definition maxRetryPollInterval : Z := 30 * Second.

(** The sleep after a cycle; [None]: the worker returns. *)
Definition retry_cycle (fuel : nat) (start now sleep : Z) : MQM (option Z) :=
  do! d <- drain fuel (Unix start) now false;
  f_ret (match d with
         | Drained true => Some baseRetryPollInterval
         | Drained false => Some (nextRetryPollInterval sleep baseRetryPollInterval maxRetryPollInterval)
         | _ => None
         end).

(** ** Publishing results *)
Definition publish (result : ResultMessage) : MQM unit :=
  redis_call (fun s => (mkMQ (mq_retry s) (mq_published s ++ [(resultQueue, marshalResult result)]) (mq_delivered s) (mq_picks s), tt)).

Definition flushResultBatch (batch : list ResultMessage) : MQM unit :=
  do! _ <- f_try (retryOp maxRetries (pipe (publish <$> batch))); f_ret tt.

(** The worker over what the channel holds, also once its context ended: a batch
    at a time. *)
Fixpoint resultWorker (fuel : nat) (channel : list ResultMessage) : MQM unit :=
  match fuel, channel with
  | S fuel, msg :: rest =>
      do> flushResultBatch (drainBatch msg rest);
      resultWorker fuel (drop (maxBatchSize - 1) rest)
  | _, _ => f_ret tt
  end.
End flow.

(** ** Proofs *)
Definition lost_calls (fs : list fault) : nat := length (filter (fun f => match f with FLost => true | _ => false end = true) fs).
Definition no_lost_reply (fs : list fault) : Prop := FReply ∉ fs.

Lemma due_entries_due now limit r m : m ∈ due_entries now limit r -> exists sc, r !! m = Some sc /\ (sc <= now)%Q.
Proof.
  unfold due_entries. intros ([m' sc] & -> & H)%list_elem_of_fmap. apply elem_of_take in H as (i & H & _). apply list_elem_of_lookup_2 in H.
  apply list_elem_of_filter in H as [Hd H]. rewrite (merge_sort_Permutation zset_le) in H. apply elem_of_map_to_list in H.
  exists sc. split; [done|]. by apply Qle_bool_iff.
Qed.

Lemma due_entries_NoDup now limit r : NoDup (due_entries now limit r).
Proof.
  unfold due_entries. apply (sublist_NoDup _ (merge_sort zset_le (map_to_list r)).*1).
  - rewrite (merge_sort_Permutation zset_le). apply NoDup_fst_map_to_list.
  - apply fmap_sublist. etrans; [apply sublist_take|apply sublist_filter].
Qed.

Lemma due_entries_none now limit r m sc : (0 < limit)%nat -> due_entries now limit r = [] -> r !! m = Some sc -> (now < sc)%Q.
Proof.
  intros Hl He Hm. destruct (Qlt_le_dec now sc) as [|Hle]; [done|exfalso].
  assert ((m, sc) ∈ filter (fun ms => Qle_bool ms.2 now = true) (merge_sort zset_le (map_to_list r))) as H.
  { apply list_elem_of_filter. split; [by apply Qle_bool_iff|]. rewrite (merge_sort_Permutation zset_le). by apply elem_of_map_to_list. }
  unfold due_entries in He. destruct (filter _ _) as [|x l]; [by apply not_elem_of_nil in H|]. destruct limit; [lia|]. done.
Qed.

Lemma without_lookup ms r m : without ms r !! m = if bool_decide (m ∈ ms) then None else r !! m.
Proof.
  unfold without. case_bool_decide as H; [apply map_lookup_filter_None_2; right; by intros ? _ Hn|].
  destruct (r !! m) eqn:E; [by apply map_lookup_filter_Some_2|]. apply map_lookup_filter_None_2. by left.
Qed.

Section proofs.
Context (unmarshal : string -> option InternalRequest) (queues : list string).
Notation deliverable := (deliverable unmarshal queues).

Lemma deliver_spec results : forall s fs, exists out s',
  deliver unmarshal queues results (s, fs) = (Ok out, (s', fs)) /\ mq_retry s' = mq_retry s /\ mq_published s' = mq_published s /\
  exists handled, results = handled ++ default [] out /\ out <> Some [] /\
    mq_delivered s' = mq_delivered s ++ omap deliverable handled /\
    (Forall (fun b => b = true) (mq_picks s) -> out = None /\ Forall (fun b => b = true) (mq_picks s')).
Proof.
  induction results as [|msg rest IH]; intros s fs; cbn [deliver].
  - exists None, s. split_and!; [done..|]. exists []. split_and!; [done|done|by cbn; rewrite app_nil_r|done].
  - destruct (deliverable msg) as [m|] eqn:Ed.
    + unfold f_bind, send, f_local. cbn [head]. destruct (default true (head (mq_picks s))) eqn:Ep.
      * edestruct (IH (mkMQ (mq_retry s) (mq_published s) (mq_delivered s ++ [m]) (tail (mq_picks s))) fs) as (out & s' & -> & H1 & H2 & handled & Hr & Ho & Hd & Hpick).
        exists out, s'. split_and!; [done..|]. exists (msg :: handled). split_and!; [by rewrite Hr at 1|done| |].
        { rewrite Hd. cbn. rewrite Ed. cbn. by rewrite <- app_assoc. }
        intros Hall. apply Hpick. cbn. destruct (mq_picks s); [done|]. by apply Forall_cons_1 in Hall as [_ Hall].
      * eexists (Some (msg :: rest)), _. split_and!; [done..|]. exists []. split_and!; [done|done|by cbn; rewrite app_nil_r|].
        intros Hall. destruct (mq_picks s); [done|]. apply Forall_cons_1 in Hall as [-> _]. done.
    + destruct (IH s fs) as (out & s' & -> & H1 & H2 & handled & Hr & Ho & Hd & Hpick). exists out, s'. split_and!; [done..|].
      exists (msg :: handled). split_and!; [by rewrite Hr at 1|done| |done]. rewrite Hd. cbn. by rewrite Ed.
Qed.

(** A put-back of [ms] at score [sc]: of the others nothing changes, and of [ms]
    nothing but the score. *)
Definition puts (ms : list string) (sc : Q) (s s' : MQ) : Prop :=
  mq_published s' = mq_published s /\ mq_delivered s' = mq_delivered s /\ mq_picks s' = mq_picks s /\
  forall m, mq_retry s' !! m = mq_retry s !! m \/ (m ∈ ms /\ mq_retry s' !! m = Some sc).

Lemma puts_refl ms sc s : puts ms sc s s.
Proof. split_and!; [done..|]. by left. Qed.

Lemma puts_trans ms sc s s' s'' : puts ms sc s s' -> puts ms sc s' s'' -> puts ms sc s s''.
Proof.
  intros (H1 & H2 & H3 & H4) (K1 & K2 & K3 & K4). split_and!; [congruence..|]. intros m.
  destruct (K4 m) as [->|]; [apply H4|by right].
Qed.

Lemma no_lost_reply_tail fs : no_lost_reply fs -> no_lost_reply (tail fs).
Proof. destruct fs; [done|]. unfold no_lost_reply. cbn. set_solver. Qed.

Lemma redis_call_spec {A} (q : MQ -> MQ * A) s fs : no_lost_reply fs ->
  (redis_call q (s, fs) = (Ok (q s).2, ((q s).1, tail fs)) /\ lost_calls (tail fs) = lost_calls fs) \/
  (redis_call q (s, fs) = (Err tt, (s, tail fs)) /\ lost_calls fs = S (lost_calls (tail fs))).
Proof.
  intros H. unfold redis_call, f_call. destruct fs as [|[] fs]; cbn [head tail]; destruct (q s); [by left|by left|by right|]. exfalso. apply H. left.
Qed.

Lemma pipe_puts ms sc : forall s fs, no_lost_reply fs ->
  exists r s' fs', pipe ((fun m => zadd m sc) <$> ms) (s, fs) = (r, (s', fs')) /\ no_lost_reply fs' /\ puts ms sc s s' /\
    match r with
    | Ok _ => (lost_calls fs' <= lost_calls fs)%nat /\ forall m, m ∈ ms -> mq_retry s' !! m = Some sc
    | Err _ => (lost_calls fs' < lost_calls fs)%nat
    end.
Proof.
  induction ms as [|m ms IH]; intros s fs Hfs.
  { exists (Ok tt), s, fs. split_and!; [done|done|apply puts_refl|lia|]. by intros m ?%not_elem_of_nil. }
  rewrite fmap_cons. cbn [pipe]. pose proof (no_lost_reply_tail fs Hfs) as Hfs'.
  assert (forall s0 s', puts ms sc s0 s' -> puts (m :: ms) sc s0 s') as Hsub.
  { intros s0 s' (K1 & K2 & K3 & K4). split_and!; [done..|]. intros m'. destruct (K4 m') as [|[]]; [by left|right; split; [by right|done]]. }
  destruct (redis_call_spec (fun s => (set_retry (<[m := sc]> (mq_retry s)) s, tt)) s fs Hfs) as [[He Hl]|[He Hl]]; unfold zadd at 1; rewrite He; cbn [fst snd].
  - destruct (IH (set_retry (<[m := sc]> (mq_retry s)) s) (tail fs) Hfs') as (r & s' & fs' & -> & Hn & Hp & Hr). exists r, s', fs'. split_and!; [done..| |].
    + eapply puts_trans; [|by apply Hsub]. split_and!; [done..|]. intros m'. cbn. destruct (decide (m' = m)) as [->|].
      * right. split; [left|by simplify_map_eq].
      * left. by rewrite lookup_insert_ne.
    + destruct r; [|lia]. destruct Hr as [Hr1 Hr2]. split; [lia|]. intros m' [->|Hm]%elem_of_cons; [|by apply Hr2].
      destruct Hp as (_ & _ & _ & Hp). destruct (Hp m) as [->|[]]; [cbn; by simplify_map_eq|done].
  - destruct (IH s (tail fs) Hfs') as (r & s' & fs' & -> & Hn & Hp & Hr). exists (Err tt), s', fs'. split_and!; [done..| |].
    + by apply Hsub.
    + destruct r; lia.
Qed.

Lemma retryOp_puts ms sc n : forall s fs, no_lost_reply fs -> (lost_calls fs <= n)%nat ->
  exists s' fs', retryOp (S n) (pipe ((fun m => zadd m sc) <$> ms)) (s, fs) = (Ok tt, (s', fs')) /\ no_lost_reply fs' /\
    (lost_calls fs' <= lost_calls fs)%nat /\ puts ms sc s s' /\ forall m, m ∈ ms -> mq_retry s' !! m = Some sc.
Proof.
  induction n as [|n IH]; intros s fs Hfs Hl; destruct (pipe_puts ms sc s fs Hfs) as ([[]|e] & s' & fs' & He & Hn & Hp & Hr).
  - destruct Hr. exists s', fs'. cbn [retryOp]. rewrite He. by split_and!.
  - lia.
  - destruct Hr. exists s', fs'. cbn [retryOp]. rewrite He. by split_and!.
  - destruct (IH s' fs' Hn) as (s2 & fs2 & Hop & Hn2 & Hl2 & Hp2 & Hin); [lia|]. exists s2, fs2. split_and!; [|done|lia|by eapply puts_trans|done].
    rewrite <- Hop. change (retryOp (S (S n)) ?op (s, fs)) with (match op (s, fs) with (Ok a, s') => (Ok a, s') | (Err e, s') => retryOp (S n) op s' end).
    by rewrite He.
Qed.

Lemma requeue_spec now ms s fs : no_lost_reply fs -> (lost_calls fs < maxRetries)%nat ->
  exists s' fs', requeueRetryMessages now ms (s, fs) = (Ok tt, (s', fs')) /\ no_lost_reply fs' /\ (lost_calls fs' <= lost_calls fs)%nat /\
    puts ms (inject_Z (Unix now)) s s' /\ forall m, m ∈ ms -> mq_retry s' !! m = Some (inject_Z (Unix now)).
Proof.
  intros Hfs Hl. unfold requeueRetryMessages. destruct ms as [|m ms].
  { exists s, fs. split_and!; [done|done|lia|apply puts_refl|]. by intros m ?%not_elem_of_nil. }
  destruct (retryOp_puts (m :: ms) (inject_Z (Unix now)) 2 s fs Hfs) as (s' & fs' & He & H); [unfold maxRetries in Hl; lia|].
  exists s', fs'. unfold f_bind, f_try. change maxRetries with 3%nat. rewrite He. by split.
Qed.

Definition put_back (d : drained) : list string := match d with Stopped l => l | _ => [] end.

(** What a cycle did: it took [handled] off the set and sent what of it can be
    delivered, and put [put_back d] back. *)
Record accounts (cutoff now : Z) (s s' : MQ) (handled : list string) (d : drained) : Prop := mkAccounts {
  ac_nodup : NoDup (handled ++ put_back d);
  ac_due : forall m, m ∈ handled ++ put_back d -> exists sc, mq_retry s !! m = Some sc /\ (sc <= inject_Z cutoff)%Q;
  ac_delivered : mq_delivered s' = mq_delivered s ++ omap deliverable handled;
  ac_published : mq_published s' = mq_published s;
  ac_retry : forall m, mq_retry s' !! m =
    if bool_decide (m ∈ handled) then None
    else if bool_decide (m ∈ put_back d) then Some (inject_Z (Unix now)) else mq_retry s !! m
}.

Lemma accounts_nothing cutoff now s d : put_back d = [] -> accounts cutoff now s s [] d.
Proof. intros H. split; rewrite ?H; cbn; [constructor|by intros m ?%not_elem_of_nil|by rewrite app_nil_r|done|done]. Qed.

(** Entries popped and all handled, then the rest of the cycle. *)
Lemma accounts_after cutoff now s s1 s' items handled d :
  NoDup items -> (forall m, m ∈ items -> exists sc, mq_retry s !! m = Some sc /\ (sc <= inject_Z cutoff)%Q) ->
  mq_retry s1 = without items (mq_retry s) -> mq_published s1 = mq_published s -> mq_delivered s1 = mq_delivered s ++ omap deliverable items ->
  accounts cutoff now s1 s' handled d -> accounts cutoff now s s' (items ++ handled) d.
Proof.
  intros Hnd Hdue Hr Hp Hd []. assert (forall m, m ∈ handled ++ put_back d -> m ∉ items /\ exists sc, mq_retry s !! m = Some sc /\ (sc <= inject_Z cutoff)%Q) as Hout.
  { intros m (sc & Hm & Hle)%ac_due0. rewrite Hr, without_lookup in Hm. case_bool_decide; [done|]. split; [done|]. by exists sc. }
  split.
  - rewrite <- app_assoc. apply list.NoDup_app. split_and!; [done| |done]. intros m Hm Hn. by apply Hout in Hn as [].
  - intros m. rewrite <- app_assoc, elem_of_app. intros [Hm|Hm]; [by apply Hdue|by apply Hout].
  - by rewrite ac_delivered0, Hd, omap_app, app_assoc.
  - congruence.
  - intros m. rewrite ac_retry0, Hr, without_lookup. repeat case_bool_decide; set_solver.
Qed.

(** Entries popped, some handled and the others put back. *)
Lemma accounts_stopped cutoff now s s1 s' items handled rest :
  NoDup items -> (forall m, m ∈ items -> exists sc, mq_retry s !! m = Some sc /\ (sc <= inject_Z cutoff)%Q) -> items = handled ++ rest ->
  mq_retry s1 = without items (mq_retry s) -> mq_published s1 = mq_published s -> mq_delivered s1 = mq_delivered s ++ omap deliverable handled ->
  puts rest (inject_Z (Unix now)) s1 s' -> (forall m, m ∈ rest -> mq_retry s' !! m = Some (inject_Z (Unix now))) ->
  accounts cutoff now s s' handled (Stopped rest).
Proof.
  intros Hnd Hdue -> Hr Hp Hd (K1 & K2 & K3 & K4) Hrest. split; cbn [put_back]; [done|done|congruence|congruence|].
  intros m. apply list.NoDup_app in Hnd as (_ & Hdis & _). case_bool_decide as Hh; [|case_bool_decide as Hb; [by apply Hrest|]].
  - destruct (K4 m) as [->|[Hm _]]; [|by apply Hdis in Hh]. rewrite Hr, without_lookup. rewrite bool_decide_eq_true_2; [done|]. set_solver.
  - destruct (K4 m) as [->|[Hm _]]; [|done]. rewrite Hr, without_lookup. rewrite bool_decide_eq_false_2; [done|]. set_solver.
Qed.

Lemma without_size items r m : m ∈ items -> is_Some (r !! m) -> (size (without items r) < size r)%nat.
Proof.
  intros Hm [x Hx]. apply map_subset_size. split; [apply map_filter_subseteq|]. intros Hsub.
  eapply lookup_weaken in Hx; [|exact Hsub]. rewrite without_lookup, bool_decide_eq_true_2 in Hx by done. done.
Qed.

Lemma drain_spec cutoff now fuel : forall b s fs, no_lost_reply fs -> (lost_calls fs < maxRetries)%nat -> (size (mq_retry s) < fuel)%nat ->
  exists d s' fs' handled, drain unmarshal queues fuel cutoff now b (s, fs) = (Ok d, (s', fs')) /\ d <> OutOfFuel /\ accounts cutoff now s s' handled d /\
    (forall any, d = Drained any -> any = b || bool_decide (handled <> [])) /\
    (fs = [] -> Forall (fun b => b = true) (mq_picks s) -> (exists b, d = Drained b) /\ forall m sc, mq_retry s' !! m = Some sc -> (inject_Z cutoff < sc)%Q).
Proof.
  induction fuel as [|fuel IH]; intros b s fs Hfs Hl Hsz; [lia|]. cbn [drain]. unfold f_bind at 1, f_try at 1. cbv beta.
  set (items := due_entries (inject_Z cutoff) retryPopBatchSize (mq_retry s)).
  destruct (redis_call_spec (fun s => let items := due_entries (inject_Z cutoff) retryPopBatchSize (mq_retry s) in (set_retry (without items (mq_retry s)) s, items)) s fs Hfs)
    as [[He Hl']|[He Hl']]; unfold popDueRetryMessages; cbv zeta in He |- *; rewrite He; cbn [fst snd]; fold items.
  2: { exists (Drained b), s, (tail fs), []. split_and!; [done..|by apply accounts_nothing|by intros any [= <-]; rewrite orb_false_r|]. intros ->. done. }
  assert (NoDup items) as Hnd by apply due_entries_NoDup.
  assert (forall m, m ∈ items -> exists sc, mq_retry s !! m = Some sc /\ (sc <= inject_Z cutoff)%Q) as Hdue by (intros m; apply due_entries_due).
  set (s1 := set_retry (without items (mq_retry s)) s). destruct items as [|i0 items'] eqn:Ei.
  { exists (Drained b), s1, (tail fs), []. assert (mq_retry s1 = mq_retry s) as Hsame.
    { apply map_eq. intros m. unfold s1. cbn. rewrite without_lookup. done. }
    split_and!; [done..| | |].
    - split; cbn; [constructor|by intros m ?%not_elem_of_nil|by rewrite app_nil_r|done|]. intros m. change (mq_retry s1 !! m = mq_retry s !! m). by rewrite Hsame.
    - by intros any [= <-]; rewrite orb_false_r.
    - intros _ _. split; [by exists b|]. intros m sc. rewrite Hsame. by apply (due_entries_none _ retryPopBatchSize); [unfold retryPopBatchSize; lia|]. }
  pose proof (no_lost_reply_tail fs Hfs) as Hfs'. destruct (deliver_spec (i0 :: items') s1 (tail fs)) as (out & s2 & Hd & Hr2 & Hp2 & handled & Hh & Hne & Hdel & Hpick).
  unfold f_bind at 1. rewrite Hd. destruct out as [rest|]; cbn [from_option] in Hh.
  - destruct (requeue_spec now rest s2 (tail fs) Hfs') as (s3 & fs3 & Hq & _ & _ & Hput & Hback); [lia|].
    exists (Stopped rest), s3, fs3, handled. unfold f_bind. rewrite Hq. split_and!; [done..| | |].
    + by eapply accounts_stopped.
    + done.
    + intros _ Hall. destruct (Hpick Hall) as [? _]. done.
  - rewrite app_nil_r in Hh. subst handled. destruct (IH true s2 (tail fs) Hfs') as (d & s3 & fs3 & handled & Hdr & Hnf & Hac & Hany & Hcomp); [lia| |].
    { rewrite Hr2. unfold s1. cbn [mq_retry set_retry]. enough (size (without (i0 :: items') (mq_retry s)) < size (mq_retry s))%nat by lia.
      apply (without_size _ _ i0); [left|]. destruct (Hdue i0) as (sc & -> & _); [left|done]. }
    exists d, s3, fs3, ((i0 :: items') ++ handled). split_and!; [done..| | |].
    + by eapply accounts_after.
    + intros any ->. rewrite (Hany any eq_refl), (bool_decide_eq_true_2 (_ ++ _ <> [])) by done. by rewrite orb_true_r.
    + intros -> Hall. apply Hcomp; [done|]. by apply Hpick.
Qed.

Lemma next_interval_bounds current : baseRetryPollInterval <= current <= maxRetryPollInterval ->
  nextRetryPollInterval current baseRetryPollInterval maxRetryPollInterval = Z.min maxRetryPollInterval (2 * current).
Proof.
  unfold nextRetryPollInterval, baseRetryPollInterval, maxRetryPollInterval, wrap64, Second. intros H.
  destruct (Z.ltb_spec current (1 * 1000000000)); [lia|]. rewrite Z.mod_small by lia. destruct (Z.ltb_spec (30 * 1000000000) (current * 2 + 2 ^ 63 - 2 ^ 63)); lia.
Qed.

(** C24. A cycle of the retry worker ends, and accounts for every parked retry,
    as long as no reply of Redis is lost and fewer than three calls are: it takes
    off the set only entries that were due, sends each that a known queue can get
    to the channel of that queue, once; when the context ends in between, the
    entries it took and did not send are back on the set; nothing else changes.
    Without faults no due entry is left.  When the context goes on, the next sleep
    is the base interval if the cycle handled an entry, and otherwise twice the
    last one up to the bound. *)
Theorem retry_conserved start now sleep s fs :
  no_lost_reply fs -> (lost_calls fs < maxRetries)%nat -> baseRetryPollInterval <= sleep <= maxRetryPollInterval ->
  exists sleep' s' fs' handled d,
    retry_cycle unmarshal queues (S (size (mq_retry s))) start now sleep (s, fs) = (Ok sleep', (s', fs')) /\
    accounts (Unix start) now s s' handled d /\
    match d with
    | Stopped _ => sleep' = None
    | Drained _ => sleep' = Some (if decide (handled = []) then Z.min maxRetryPollInterval (2 * sleep) else baseRetryPollInterval)
    | OutOfFuel => False
    end /\
    (fs = [] -> Forall (fun b => b = true) (mq_picks s) ->
     forall m sc, mq_retry s' !! m = Some sc -> (inject_Z (Unix start) < sc)%Q).
Proof.
  intros Hfs Hl Hsleep. destruct (drain_spec (Unix start) now (S (size (mq_retry s))) false s fs Hfs Hl) as (d & s' & fs' & handled & Hd & Hne & Hac & Hany & Hc); [lia|].
  unfold retry_cycle, f_bind. rewrite Hd. eexists _, s', fs', handled, d. split; [done|]. split; [done|]. split.
  - destruct d as [any| |]; try done. rewrite (Hany any eq_refl). destruct (decide (handled = [])) as [->|Hh]; cbn [orb].
    + by rewrite (bool_decide_eq_false_2 (_ <> _)), next_interval_bounds by tauto.
    + by rewrite (bool_decide_eq_true_2 (_ <> _)) by done.
  - intros H1 H2. by apply Hc.
Qed.
End proofs.

(** ** A retry comes back, and results go out *)
Section retries.
Context (queues : list string).

(** A parked retry is on the set, due once its backoff is over. *)
Lemma addRetry_parks marshal now ir backoff bytes s fs : marshal ir = Some bytes -> no_lost_reply fs -> (lost_calls fs < maxRetries)%nat ->
  exists s' fs', addRetry marshal now (Some ir, backoff) (s, fs) = (Ok tt, (s', fs')) /\ mq_picks s' = mq_picks s /\
    mq_retry s' !! bytes = Some (fadd64 (inject_Z (Unix now)) backoff).
Proof.
  intros Hm Hfs Hl. unfold addRetry. cbn [fst snd]. rewrite Hm. unfold f_bind, f_try.
  destruct (retryOp_puts [bytes] (fadd64 (inject_Z (Unix now)) backoff) 2 s fs Hfs) as (s' & fs' & He & _ & _ & (_ & _ & Hp & _) & Hin); [unfold maxRetries in Hl; lia|].
  assert (forall sc s, pipe [zadd bytes sc] s = zadd bytes sc s) as Hone by (intros sc [s0 fs0]; unfold zadd, redis_call, f_call; cbn; by destruct fs0 as [|[]]).
  assert (forall n s, retryOp n (zadd bytes (fadd64 (inject_Z (Unix now)) backoff)) s = retryOp n (pipe [zadd bytes (fadd64 (inject_Z (Unix now)) backoff)]) s) as Hop.
  { induction n as [|n IH]; intros s0; cbn [retryOp]; rewrite Hone; [done|]. destruct (zadd _ _ s0) as [[|] s1]; [done|]. destruct n; [done|]. apply IH. }
  change maxRetries with 3%nat. rewrite Hop. change [zadd bytes ?sc] with ((fun m => zadd m sc) <$> [bytes]). rewrite He.
  exists s', fs'. split; [done|]. split; [done|]. apply Hin. left.
Qed.

(** Without faults, a cycle delivers every entry that is due and can be. *)
Lemma cycle_delivers unmarshal start now sleep s bytes sc m :
  Forall (fun b => b = true) (mq_picks s) -> mq_retry s !! bytes = Some sc -> (sc <= inject_Z (Unix start))%Q ->
  deliverable unmarshal queues bytes = Some m ->
  exists s' fs' more, retry_cycle unmarshal queues (S (size (mq_retry s))) start now sleep (s, []) = (Ok (Some baseRetryPollInterval), (s', fs')) /\
    mq_delivered s' = mq_delivered s ++ more /\ m ∈ more /\ mq_retry s' !! bytes = None.
Proof.
  intros Hp Hin Hdue Hd. destruct (drain_spec unmarshal queues (Unix start) now (S (size (mq_retry s))) false s []) as (d & s' & fs' & handled & Hdr & _ & Hac & Hany & Hc);
    [by intros ?%not_elem_of_nil|apply Nat.ltb_lt; reflexivity|lia|].
  destruct (Hc eq_refl Hp) as ([b ->] & Hleft). assert (bytes ∈ handled) as Hh.
  { destruct (decide (bytes ∈ handled)) as [|Hn]; [done|]. pose proof (ac_retry _ _ _ _ _ _ _ _ Hac bytes) as Hr.
    rewrite !bool_decide_eq_false_2, Hin in Hr by (done || apply not_elem_of_nil). apply Hleft in Hr. lra. }
  exists s', fs', (omap (deliverable unmarshal queues) handled). split; [|split; [apply Hac|split]].
  - unfold retry_cycle, f_bind. rewrite Hdr, (Hany b eq_refl), bool_decide_eq_true_2; [done|]. intros ->. by apply not_elem_of_nil in Hh.
  - apply list_elem_of_omap. eauto.
  - pose proof (ac_retry _ _ _ _ _ _ _ _ Hac bytes) as Hr. by rewrite bool_decide_eq_true_2 in Hr.
Qed.

Lemma routing_ok_count rt n : routing_ok rt -> int64 n -> routing_ok (set_retry_count rt n).
Proof. intros [] Hn. by split. Qed.

(** C25. A request that came in on a subscription goes back, when it is to be
    retried, to the channel of that subscription, with every field it had but the
    retry count, which is what the worker made it: given to the retry worker with
    fewer than three lost calls it is parked under the end of its backoff, and a
    cycle without faults that starts after that time sends it to the channel of
    the queue it came from, with the labels of that queue, takes it off the set,
    and polls again after the base interval.  The texts of the request are valid
    UTF-8 and its payload JSON, which comes back compacted; the time of its
    ingestion, which is not part of the wire format, is reset. *)
Theorem retry_returns queueName labels payload ir r count backoff now start later sleep s fs :
  queueName ∈ queues -> received unmarshal queueName labels payload = Some ir ->
  ir_Public ir = Some r -> request_ok r -> routing_ok (ir_Routing ir) -> int64 count ->
  no_lost_reply fs -> (lost_calls fs < maxRetries)%nat -> Forall (fun b => b = true) (mq_picks s) ->
  (fadd64 (inject_Z (Unix now)) backoff <= inject_Z (Unix start))%Q ->
  exists bytes s1 fs1 s2 fs2 more,
    addRetry marshal now (Some (on_routing (fun rt => set_retry_count rt count) ir), backoff) (s, fs) = (Ok tt, (s1, fs1)) /\
    mq_retry s1 !! bytes = Some (fadd64 (inject_Z (Unix now)) backoff) /\
    retry_cycle unmarshal queues (S (size (mq_retry s1))) start later sleep (s1, []) = (Ok (Some baseRetryPollInterval), (s2, fs2)) /\
    mq_delivered s2 = mq_delivered s1 ++ more /\
    (queueName, mkInternalRequest (set_retry_count (ir_Routing ir) count) (Some (canon_request r)) 0) ∈ more /\
    mq_retry s2 !! bytes = None /\
    forall k v, labels !! k = Some v -> rt_Labels (ir_Routing ir) !! k = Some v.
Proof.
  intros Hq Hrec Hp Hr Hrt Hcount Hfs Hl Hpicks Hdue. set (ir1 := on_routing _ ir).
  destruct (wire_decodes ir1 r Hp Hr) as (bytes & Hm & Hu); [by apply routing_ok_count|].
  destruct (addRetry_parks marshal now ir1 backoff bytes s fs Hm Hfs Hl) as (s1 & fs1 & He & Hp1 & Hin).
  assert (rt_RequestQueueName (ir_Routing ir) = queueName /\ forall k v, labels !! k = Some v -> rt_Labels (ir_Routing ir) !! k = Some v) as [Hn Hlab].
  { unfold received in Hrec. destruct (unmarshal payload) as [ir0|]; [|done]. cbn in Hrec. destruct (ir_Public ir0); [|done]. injection Hrec as <-.
    split; [done|]. cbn. intros k v Hk. by apply lookup_union_Some_l. }
  destruct (cycle_delivers unmarshal start later sleep s1 bytes _ (queueName, mkInternalRequest (ir_Routing ir1) (Some (canon_request r)) 0)
    ltac:(by rewrite Hp1) Hin Hdue) as (s2 & fs2 & more & Hc & Hd & Hmore & Hgone).
  { unfold deliverable. rewrite Hu. cbn. rewrite Hn. by rewrite bool_decide_eq_true_2. }
  exists bytes, s1, fs1, s2, fs2, more. split_and!; done.
Qed.
End retries.

(** ** Results *)
Section results.
Context (marshalResult : ResultMessage -> string) (resultQueue : string).

Definition sent_out (r : ResultMessage) (s : MQ) : Prop := (resultQueue, marshalResult r) ∈ mq_published s.

Lemma pipe_publishes batch : forall s fs, no_lost_reply fs ->
  exists r s' fs', pipe (publish marshalResult resultQueue <$> batch) (s, fs) = (r, (s', fs')) /\ no_lost_reply fs' /\
    mq_published s ⊆ mq_published s' /\
    match r with
    | Ok _ => (lost_calls fs' <= lost_calls fs)%nat /\ Forall (fun r => sent_out r s') batch
    | Err _ => (lost_calls fs' < lost_calls fs)%nat
    end.
Proof.
  induction batch as [|m batch IH]; intros s fs Hfs; [by exists (Ok tt), s, fs|].
  rewrite fmap_cons. cbn [pipe]. pose proof (no_lost_reply_tail fs Hfs) as Hfs'.
  destruct (redis_call_spec (fun s => (mkMQ (mq_retry s) (mq_published s ++ [(resultQueue, marshalResult m)]) (mq_delivered s) (mq_picks s), tt)) s fs Hfs)
    as [[He Hl]|[He Hl]]; unfold publish at 1; rewrite He; cbn [fst snd].
  - edestruct IH as (r & s' & fs' & -> & Hn & Hp & Hr); [exact Hfs'|]. exists r, s', fs'. cbn [mq_published] in Hp. split_and!; [done..| |].
    + set_solver.
    + destruct r; [|lia]. destruct Hr as [Hr1 Hr2]. split; [lia|]. constructor; [|done]. unfold sent_out. set_solver.
  - destruct (IH s (tail fs) Hfs') as (r & s' & fs' & -> & Hn & Hp & Hr). exists (Err tt), s', fs'. split_and!; [done..|]. destruct r; lia.
Qed.

Lemma retryOp_publishes batch n : forall s fs, no_lost_reply fs -> (lost_calls fs <= n)%nat ->
  exists s' fs', retryOp (S n) (pipe (publish marshalResult resultQueue <$> batch)) (s, fs) = (Ok tt, (s', fs')) /\ no_lost_reply fs' /\
    (lost_calls fs' <= lost_calls fs)%nat /\ mq_published s ⊆ mq_published s' /\ Forall (fun r => sent_out r s') batch.
Proof.
  induction n as [|n IH]; intros s fs Hfs Hl; destruct (pipe_publishes batch s fs Hfs) as ([[]|e] & s' & fs' & He & Hn & Hp & Hr).
  - destruct Hr. exists s', fs'. cbn [retryOp]. rewrite He. by split_and!.
  - lia.
  - destruct Hr. exists s', fs'. cbn [retryOp]. rewrite He. by split_and!.
  - destruct (IH s' fs' Hn) as (s2 & fs2 & Hop & Hn2 & Hl2 & Hp2 & Hin); [lia|]. exists s2, fs2. split_and!; [|done|lia|by etrans|done].
    rewrite <- Hop. change (retryOp (S (S n)) ?op (s, fs)) with (match op (s, fs) with (Ok a, s') => (Ok a, s') | (Err e, s') => retryOp (S n) op s' end).
    by rewrite He.
Qed.

(** Every result the channel holds is published when the worker is done with
    it, as long as no reply of Redis is lost and fewer than three calls are. *)
Theorem results_published fuel : forall channel s fs,
  no_lost_reply fs -> (lost_calls fs < maxRetries)%nat -> (length channel <= fuel)%nat ->
  exists s' fs', resultWorker marshalResult resultQueue fuel channel (s, fs) = (Ok tt, (s', fs')) /\
    mq_published s ⊆ mq_published s' /\ Forall (fun r => sent_out r s') channel.
Proof.
  induction fuel as [|fuel IH]; intros [|msg rest] s fs Hfs Hl Hf; [by exists s, fs|cbn in Hf; lia|by exists s, fs|]. cbn [resultWorker].
  unfold f_bind at 1, flushResultBatch, f_bind at 1, f_try. cbv beta.
  destruct (retryOp_publishes (drainBatch msg rest) 2 s fs Hfs) as (s1 & fs1 & He & Hn1 & Hl1 & Hp1 & Hin); [unfold maxRetries in Hl; lia|].
  change maxRetries with 3%nat. rewrite He. cbn [f_ret].
  destruct (IH (drop (maxBatchSize - 1) rest) s1 fs1 Hn1) as (s2 & fs2 & -> & Hp2 & Hin2); [lia|rewrite length_drop; cbn in Hf; lia|].
  exists s2, fs2. split_and!; [done|by etrans|].
  assert (msg :: rest = drainBatch msg rest ++ drop (maxBatchSize - 1) rest) as -> by (unfold drainBatch; cbn [app]; by rewrite take_drop).
  apply Forall_app. split; [|done]. eapply Forall_impl; [exact Hin|]. unfold sent_out. set_solver.
Qed.
End results.

Definition w_plain : InternalRequest := mkInternalRequest zeroRouting (Some (PlainRequest None)) 0.
Definition w_labels : gmap string string := {["tier" := "batch"]}.
Definition w_stamped : InternalRequest :=
  on_routing (fun rt => set_labels (set_requestQueue "q" rt) (w_labels ∪ rt_Labels rt)) w_plain.
Definition w_mq_unmarshal (s : string) : option InternalRequest :=
  if decide (s = "p") then Some w_plain else if decide (s = "b") then Some w_stamped else None.
Definition w_mq : MQ := mkMQ {["b" := 3%Q; "c" := 9%Q]} [] [] [].

Lemma retry_conserved_witness :
  exists sleep' s' fs' handled d,
    retry_cycle w_mq_unmarshal ["q"] 3 (5 * Second) (5 * Second) Second (w_mq, [FLost]) = (Ok sleep', (s', fs')) /\
    accounts w_mq_unmarshal ["q"] 5 (5 * Second) w_mq s' handled d /\
    match d with
    | Stopped _ => sleep' = None
    | Drained _ => sleep' = Some (if decide (handled = []) then Z.min maxRetryPollInterval (2 * Second) else baseRetryPollInterval)
    | OutOfFuel => False
    end /\
    ([FLost] = [] -> Forall (fun b => b = true) (mq_picks w_mq) ->
     forall m sc, mq_retry s' !! m = Some sc -> (inject_Z 5 < sc)%Q).
Proof.
  apply (retry_conserved w_mq_unmarshal ["q"] (5 * Second) (5 * Second) Second w_mq [FLost]).
  - intros H. apply list_elem_of_singleton in H. discriminate H.
  - apply Nat.ltb_lt. reflexivity.
  - unfold baseRetryPollInterval, maxRetryPollInterval, Second. lia.
Defined.

Definition w_request : Request := PlainRequest (Some (mkRequestMessage "r1" 0 100 (RawBytes "{}") ∅ ∅ "" "")).
Definition w_routing : InternalRouting := mkInternalRouting 0 "" "t" 0 "q" "" 0 false "" 0 "" w_labels.

Lemma w_request_sent : request_ok w_request /\ routing_ok w_routing /\ canon_request w_request = w_request.
Proof.
  assert (forall n, 0 <= n < 2 ^ 10 -> int64 n) as Hn by (unfold int64; lia).
  split; [|split; [|reflexivity]]; split; try done; try (by apply Hn); try by apply map_Forall_empty.
  - by exists "{}".
  - by apply map_Forall_singleton.
Qed.

Lemma retry_returns_witness : exists payload, received unmarshal "q" w_labels payload = Some (mkInternalRequest w_routing (Some w_request) 0) /\
  exists bytes s1 fs1 s2 fs2 more,
    addRetry marshal (5 * Second) (Some (mkInternalRequest (set_retry_count w_routing 1) (Some w_request) 0), 2%Q) (w_mq, [FLost]) = (Ok tt, (s1, fs1)) /\
    mq_retry s1 !! bytes = Some (fadd64 (inject_Z (Unix (5 * Second))) 2) /\
    retry_cycle unmarshal ["q"] (S (size (mq_retry s1))) (8 * Second) (8 * Second) Second (s1, []) = (Ok (Some baseRetryPollInterval), (s2, fs2)) /\
    mq_delivered s2 = mq_delivered s1 ++ more /\ ("q", mkInternalRequest (set_retry_count w_routing 1) (Some w_request) 0) ∈ more /\
    mq_retry s2 !! bytes = None.
Proof.
  destruct w_request_sent as (Hr & Hrt & Hc).
  destruct (wire_decodes (mkInternalRequest w_routing (Some w_request) 0) w_request eq_refl Hr Hrt) as (payload & _ & Hu). rewrite Hc in Hu.
  assert (received unmarshal "q" w_labels payload = Some (mkInternalRequest w_routing (Some w_request) 0)) as Hrec.
  { unfold received. rewrite Hu. vm_compute. reflexivity. }
  exists payload. split; [exact Hrec|].
  destruct (retry_returns ["q"] "q" w_labels payload _ w_request 1 2 (5 * Second) (8 * Second) (8 * Second) Second w_mq [FLost] ltac:(by left) Hrec eq_refl Hr Hrt)
    as (bytes & s1 & fs1 & s2 & fs2 & more & H1 & H2 & H3 & H4 & H5 & H6 & _).
  - unfold int64. lia.
  - intros H. apply list_elem_of_singleton in H. discriminate H.
  - apply Nat.ltb_lt. reflexivity.
  - constructor.
  - vm_compute. discriminate.
  - rewrite Hc in H5. exists bytes, s1, fs1, s2, fs2, more. repeat split; assumption.
Defined.
