(* ===== verification/RedisEndToEnd.v ===== *)
(** * From a Redis producer to a dispatcher

    The producer of RedisProducer.v and the dispatcher of SortedSetFlow.v meet in
    one Redis: what a submission leaves there, a poll of the queue claims, decodes
    with the wire format of Wire.v and hands to the workers. *)
From stdpp Require Import prelude gmap strings list sorting.
From Stdlib Require Import ZArith Lia QArith.
From S2P Require Import Prelude Json Api Gates RedisClaim Wire RedisProducer SortedSetFlow.

#[local] Open Scope string_scope.
#[local] Open Scope list_scope.
#[local] Open Scope Z_scope.

(** ** What a submission adds to a queue *)
Lemma purge_pending t s q : pending (queue_at (pr_r (purge t s)) q) = pending (queue_at (pr_r s) q).
Proof. done. Qed.

Lemma ZADD_pending q score m s : pending (queue_at (pr_r (ZADD q score m s)) q) = <[m := score]> (pending (queue_at (pr_r s) q)).
Proof. unfold ZADD. cbn [pr_r]. by rewrite queue_at_insert. Qed.

(** A script that leaves the members of the queue alone, and one that adds one. *)
Definition sc_keeps {A : Type} (q : string) (f : script A) : Prop :=
  forall s, pending (queue_at (pr_r (f s).1) q) = pending (queue_at (pr_r s) q).
Definition sc_adds {A : Type} (q : string) (f : script A) : Prop :=
  forall s s' a, f s = (s', Some a) -> exists m score, pending (queue_at (pr_r s') q) = <[m := score]> (pending (queue_at (pr_r s) q)).

Lemma sc_adds_after {A B : Type} q (f : script A) (k : A -> script B) : sc_keeps q f -> (forall a, sc_adds q (k a)) -> sc_adds q (sc_bind f k).
Proof.
  intros Hf Hk s s' b. unfold sc_bind. specialize (Hf s). destruct (f s) as [s1 [a|]]; [|done]. cbn in Hf. intros (m & sc & ->)%Hk.
  exists m, sc. by rewrite Hf.
Qed.
Lemma sc_adds_before {A B : Type} q (f : script A) (k : A -> script B) : sc_adds q f -> (forall a, sc_keeps q (k a)) -> sc_adds q (sc_bind f k).
Proof.
  intros Hf Hk s s' b. unfold sc_bind. destruct (f s) as [s1 [a|]] eqn:E; [|done]. intros E2.
  destruct (Hf _ _ _ E) as (m & sc & H). exists m, sc. rewrite <- H. specialize (Hk a s1). by rewrite E2 in Hk.
Qed.
Lemma sc_keeps_bind {A B : Type} q (f : script A) (k : A -> script B) : sc_keeps q f -> (forall a, sc_keeps q (k a)) -> sc_keeps q (sc_bind f k).
Proof. intros Hf Hk s. unfold sc_bind. specialize (Hf s). destruct (f s) as [s1 [a|]]; [|done]. by rewrite Hk. Qed.

Lemma script_keeps_ret {A : Type} q (a : A) : sc_keeps q (sc_ret a).
Proof. by intros s. Qed.
Lemma keeps_INCR q key : sc_keeps q (sc_do (INCR key)).
Proof. by intros s. Qed.
Lemma keeps_EXPIREAT q key sec t : sc_keeps q (sc_try (EXPIREAT key sec t)).
Proof. intros s. unfold sc_try, EXPIREAT. by repeat case_match; simplify_eq. Qed.
Lemma keeps_DEL q key : sc_keeps q (sc_upd (DEL key)).
Proof. by intros s. Qed.
Lemma keeps_SET_PX q key v ms t : sc_keeps q (sc_try (SET_PX key v ms t)).
Proof. intros s. unfold sc_try, SET_PX. by repeat case_match; simplify_eq. Qed.
Lemma adds_ZADD q score m : sc_adds q (sc_upd (ZADD q score m)).
Proof. intros s s' a [= <- _]. exists m, score. apply ZADD_pending. Qed.

Lemma enqueueRequestScript_adds t key q exp b a d : sc_adds q (enqueueRequestScript t key q exp b a d).
Proof.
  unfold enqueueRequestScript. apply sc_adds_after; [apply keeps_INCR|]. intros n. apply sc_adds_after; [apply keeps_EXPIREAT|]. intros _.
  apply sc_adds_before; [apply adds_ZADD|]. intros _. apply script_keeps_ret.
Qed.

Lemma submitRequestScript_adds t key ck ak q pl token px exp b a d : sc_adds q (submitRequestScript t key ck ak q pl token px exp b a d).
Proof.
  unfold submitRequestScript. apply sc_adds_after; [apply keeps_INCR|]. intros n. apply sc_adds_after; [apply keeps_EXPIREAT|]. intros _.
  apply sc_adds_after; [apply keeps_DEL|]. intros _. apply sc_adds_after; [apply keeps_SET_PX|]. intros _.
  apply sc_adds_before; [apply adds_ZADD|]. intros _. apply sc_keeps_bind; [|intros _; apply script_keeps_ret].
  destruct pl as [[[? ?] ?]|]; [apply keeps_SET_PX|apply script_keeps_ret].
Qed.

Lemma after_pipe_pending t1 id token ttl ref payload pttl s q :
  pending (queue_at (pr_r (after_pipe t1 id token ttl ref payload pttl s)) q) = pending (queue_at (pr_r s) q).
Proof. unfold after_pipe. by case_decide. Qed.

Lemma ran_pending p now token t1 t2 req v n s s' : ran p now token t1 t2 req v n s s' ->
  exists m score, pending (queue_at (pr_r s') (rt_RequestQueueName (submit_rt p token req v))) =
    <[m := score]> (pending (queue_at (pr_r s) (rt_RequestQueueName (submit_rt p token req v)))).
Proof.
  intros (b & a & pl & H). destruct (rp_clusterKeys p).
  - apply enqueueRequestScript_adds in H as (m & sc & ->). rewrite purge_pending, after_pipe_pending. eauto.
  - apply submitRequestScript_adds in H as (m & sc & ->). rewrite purge_pending. eauto.
Qed.

(** ** A poll of one request *)
Definition delivered_payload (pk : bool) (v : RequestMessage) : RawMessage :=
  if pk then RawBytes (raw_bytes (rm_Payload v)) else canon_payload (rm_Payload v).

Lemma read_back_view pk r v : request_ok r -> request_view r = Some v ->
  exists v', request_view (canon_request (in_envelope pk r)) = Some v' /\ set_payload v' RawNil = set_payload v RawNil /\
    (pk = false -> rm_Payload v' = canon_payload (rm_Payload v)).
Proof.
  destruct r as [[m|]|[[m q res]|]|[[m i res]|]|v0]; cbn; try done; intros _ [= <-]; destruct pk; eexists; (split; [reflexivity|]); done.
Qed.

Lemma attach_view pk r v payload rt t : request_ok r -> request_view r = Some v ->
  exists ir', AttachPayload (Some (mkInternalRequest rt (Some (canon_request (in_envelope pk r))) t)) (RawBytes payload) = Ok ir' /\
    ir_Routing ir' = rt /\ ir_view ir' = Some (set_payload v (RawBytes payload)).
Proof.
  destruct r as [[m|]|[[m q res]|]|[[m i res]|]|v0]; cbn; try done; intros _ [= <-]; destruct pk; eexists; (split; [reflexivity|]); done.
Qed.

Lemma set_payload_eq v v' : set_payload v' RawNil = set_payload v RawNil -> v' = set_payload v (rm_Payload v').
Proof. destruct v, v'. unfold set_payload. cbn. intros [=]. by subst. Qed.

Section poll.
Context (ttl : Z) (q queueID : string) (cfg : SortedSetQueueConfig) (gate : InternalRequest -> gated) (now ingestion : Z).
Context (h : Claims) (r : Redis) (clock : Z) (ctoken : string).
Context (active : gmap string (list nat)) (released handed : list nat) (results : list ResultMessage) (sent : list InternalRequest).

(** Nothing fails, no other process interferes, and the channels take what is sent. *)
Definition calm : SS := mkSS h r [] [] [(clock, Some ctoken)] active released handed results sent [].

Definition stamped (ir : InternalRequest) : InternalRequest := on_routing (stampRoute q queueID cfg) ir.

(** The gate lets the request through as it is, holding nothing. *)
Definition passes (ir : InternalRequest) : Prop := gate ir = mkGated (Ok Continue) [] ir.

(** The state once the request is claimed. *)
Definition claimed_redis (ir : InternalRequest) (member : string) (deadline : Z) : Redis :=
  set_queue q (mkQueueKeys (delete member (pending (queue_at r q)))
    (<[claimKey (rm_ID (view ir)) (rt_RequestToken (ir_Routing ir)) := member]> (claimed (queue_at r q)))
    (<[claimKey (rm_ID (view ir)) (rt_RequestToken (ir_Routing ir)) := ctoken]> (owners (queue_at r q)))
    (<[claimKey (rm_ID (view ir)) (rt_RequestToken (ir_Routing ir)) := claimExpiry ttl clock (inject_Z deadline)]> (idx (queue_at r q)))) r.

Lemma claim_calm ir m member score deadline : ir_view ir = Some m -> pending (queue_at r q) !! member = Some score ->
  exists h', claim ttl q ir member deadline calm = (Some ctoken, mkSS h' (claimed_redis ir member deadline) [] [] [] active released handed results sent []).
Proof.
  intros Hv Hm. unfold claim, s_bind, next_claim, s_call, calm. cbn [ss_env ss_others ss_r ss_fs ss_h head tail default id with_env fst snd].
  unfold claimRequest. rewrite Hv. unfold f_bind, redis_do, f_call, on_queue, claimScript. cbn [head tail]. rewrite Hm.
  cbn [Z.eqb]. unfold handles, f_local, f_ret, with_redis, s_ret. cbn [ss_env ss_active ss_released ss_handed ss_results ss_sent ss_selects fst snd].
  unfold claimed_redis, view. rewrite Hv. cbn [default]. eexists. reflexivity.
Qed.

Definition after_claim (h' : Claims) (ir : InternalRequest) (member : string) (deadline : Z) (sent' : list InternalRequest) : SS :=
  mkSS h' (claimed_redis ir member deadline) [] [] [] active released handed results sent' [].

Lemma IsCancelled_calm reqID token : strs r !! RequestCancellationKey reqID = None -> s_call (IsCancelled reqID token) calm = (Ok false, calm).
Proof.
  intros Hc. unfold s_call, IsCancelled, calm. cbn [ss_others ss_r ss_fs ss_h head tail default id]. case_decide; [done|].
  unfold f_bind, redis_do, f_call, f_ret. cbn [head tail]. rewrite Hc. done.
Qed.

Lemma poll_one_calm unm member score ir0 m : unm member = Some ir0 -> ir_view ir0 = Some m -> 0 < rm_Deadline m -> Unix now <= rm_Deadline m ->
  pending (queue_at r q) !! member = Some score -> strs r !! RequestCancellationKey (rm_ID m) = None -> passes (stamped ir0) ->
  exists h', poll_one ttl unm q queueID cfg gate now ingestion member [] calm =
    if decide (rt_PayloadRef (ir_Routing ir0) <> "")
    then (Go, [mkClaimed (stamped ir0) member ctoken []], after_claim h' (stamped ir0) member (rm_Deadline m) sent)
    else (Go, [], after_claim h' (stamped ir0) member (rm_Deadline m) (sent ++ [stamp_ingestion ingestion (stamped ir0)])).
Proof.
  intros Hu Hv Hd Hnow Hm Hc Hg. assert (Hv' : ir_view (stamped ir0) = Some m) by done.
  assert (Hpub : exists pub, ir_Public ir0 = Some pub) by (unfold ir_view in Hv; destruct (ir_Public ir0); eauto; done). destruct Hpub as [pub Hpub].
  unfold poll_one, parseMessage. rewrite Hu, Hpub, Hv. destruct (Z.leb_spec (rm_Deadline m) 0); [lia|].
  destruct (Z.ltb_spec (rm_Deadline m) (Unix now)); [lia|]. fold (stamped ir0). unfold s_bind at 1.
  assert (Hview : view (stamped ir0) = m) by (unfold view; by rewrite Hv'). rewrite Hview, IsCancelled_calm by done.
  unfold after_gate. unfold passes in Hg. rewrite Hg. cbn [gd_ir gd_releases gd_verdict v_Action Continue].
  unfold s_bind at 1, handed_out, s_upd, with_handed, calm. cbn [ss_h ss_r ss_fs ss_others ss_env ss_active ss_released ss_results ss_sent ss_selects ss_handed].
  rewrite app_nil_r. fold calm. destruct (claim_calm (stamped ir0) m member score (rm_Deadline m) Hv' Hm) as (h' & Hcl).
  exists h'. unfold s_bind at 1. rewrite Hcl. cbn [stamped on_routing ir_Routing stampRoute rt_PayloadRef]. fold (stamped ir0). by case_decide.
Qed.

(** One request in the queue: the poll claims it and sends it, with its payload. *)
Lemma process_calm unm member score ir0 m payload batchSize budget : unm member = Some ir0 -> ir_view ir0 = Some m -> 0 < rm_Deadline m ->
  Unix now <= rm_Deadline m -> pending (queue_at r q) = {[member := score]} -> strs r !! RequestCancellationKey (rm_ID m) = None ->
  passes (stamped ir0) -> 0 < batch_of batchSize budget -> (rt_PayloadRef (ir_Routing ir0) <> "" -> strs r !! rt_PayloadRef (ir_Routing ir0) = Some payload) ->
  forall ir, (if decide (rt_PayloadRef (ir_Routing ir0) <> "") then AttachPayload (Some (stamped ir0)) (RawBytes payload) = Ok ir else ir = stamped ir0) ->
  exists h', processMessagesWithConfig ttl unm q queueID cfg gate now ingestion batchSize budget calm =
    (tt, after_claim h' (stamped ir0) member (rm_Deadline m) (sent ++ [stamp_ingestion ingestion ir])).
Proof.
  intros Hu Hv Hd Hnow Hp Hc Hg Hb Hpl ir Hir. unfold processMessagesWithConfig. destruct (Z.leb_spec (batch_of batchSize budget) 0); [lia|].
  assert (Hpeek : s_call (peek q (batch_of batchSize budget)) calm = (Ok [(member, score)], calm)).
  { unfold s_call, peek, redis_do, f_call, calm. cbn [ss_others ss_r ss_fs ss_h head tail default id]. rewrite Hp, map_to_list_singleton.
    assert (Hms : merge_sort zset_le [(member, score)] = [(member, score)]) by apply Permutation_singleton_r, merge_sort_Permutation.
    rewrite Hms, take_ge by (cbn; lia). reflexivity. }
  unfold s_bind at 1. rewrite Hpeek. cbn [fmap list_fmap fst poll_loop]. unfold s_bind at 1 2.
  destruct (poll_one_calm unm member score ir0 m) as (h' & Hone); [done..|by rewrite Hp, lookup_singleton_eq|done|done|].
  rewrite Hone. exists h'. case_decide as Hr; [|subst ir; done].
  cbn [fst snd s_ret]. unfold fetchPayloads. unfold s_bind at 1 2. cbn [fmap list_fmap cr_ir stamped on_routing ir_Routing stampRoute rt_PayloadRef].
  unfold s_call, readPayloads, redis_do, f_call, after_claim. cbn [ss_others ss_r ss_fs ss_h head tail default id fmap list_fmap claimed_redis set_queue strs].
  rewrite Hpl by done. unfold s_ret. cbn [zip_with]. unfold attach. cbn [cr_ir cr_member cr_token cr_releases]. fold (stamped ir0). rewrite Hir.
  cbn [send_ready cr_ir cr_releases]. rewrite decide_False by (by intros []). reflexivity.
Qed.
End poll.

(** C5. From the producer to the worker: a request that is submitted without a
    fault to an empty queue is claimed and handed out by the next poll whose gate
    is open, before its deadline, in standalone and in cluster mode: on the channel
    arrives the request with the message that was submitted, its generation token,
    and its payload, byte for byte when it travels under its own key and compacted
    when it travels in the envelope.  The queue holds it no more, and its claim is
    the poller's. *)
Theorem submit_is_dispatched p now token t1 t2 req pub v s
    ttl queueID cfg gate pollNow ingestion h clock ctoken active released handed results sent batchSize budget :
  let q := rt_RequestQueueName (submit_rt p token req v) in
  submittable p now token t1 t2 req pub v -> counters_good s -> pending (queue_at (pr_r s) q) = ∅ ->
  Unix pollNow <= rm_Deadline v -> 0 < batch_of batchSize budget -> (forall ir, passes gate ir) ->
  exists s' fs' out ir,
    SubmitRequest p now (Some token) t1 t2 (Some req) (s, []) = (Ok tt, (s', fs')) /\
    processMessagesWithConfig ttl unmarshal q queueID cfg gate pollNow ingestion batchSize budget
      (calm h (pr_r s') clock ctoken active released handed results sent) = (tt, out) /\
    ss_sent out = sent ++ [ir] /\ ss_results out = results /\
    ir_view ir = Some (set_payload v (delivered_payload (rp_payloadKeys p) v)) /\ rt_RequestToken (ir_Routing ir) = token /\
    pending (queue_at (ss_r out) q) = ∅ /\ owners (queue_at (ss_r out) q) !! claimKey (rm_ID v) token = Some ctoken.
Proof.
  intros q Hs Hc He Hnow Hb Hg. destruct (SubmitRequest_effect p now token t1 t2 req pub v s Hs Hc) as (n & s' & Hrun & (Hn & member & score & Hsub & Hun & Hsc) & Hran).
  destruct (ran_pending _ _ _ _ _ _ _ _ _ _ Hran) as (m0 & sc0 & Hp). fold q in Hp. rewrite He in Hp. rewrite insert_empty in Hp.
  pose proof (sb_member _ _ _ _ _ _ _ _ Hsub) as Hm. fold q in Hm. rewrite Hp in Hm. apply lookup_singleton_Some in Hm as [-> ->].
  set (rt := set_seq n (submit_rt p token req v)) in *.
  assert (Hrt : rt_PayloadRef rt = submit_ref p token v /\ rt_RequestToken rt = token) by done. destruct Hrt as [Href Htok].
  destruct (read_back_view (rp_payloadKeys p) pub v (su_request _ _ _ _ _ _ _ _ Hs) (su_view _ _ _ _ _ _ _ _ Hs)) as (v' & Hv' & Hsame & Hpay).
  apply set_payload_eq in Hsame. assert (Hid : rm_ID v' = rm_ID v /\ rm_Deadline v' = rm_Deadline v) by (rewrite Hsame; done). destruct Hid as [Hid Hdl].
  set (ir0 := read_back p n (submit_rt p token req v) pub) in *. assert (Hir0 : ir_view ir0 = Some v') by exact Hv'.
  destruct (su_due _ _ _ _ _ _ _ _ Hs) as [Hdue _]. assert (0 < rm_Deadline v) by (unfold Second in Hdue; lia).
  pose proof (sb_cancel _ _ _ _ _ _ _ _ Hsub) as Hcan. pose proof (sb_payload _ _ _ _ _ _ _ _ Hsub) as Hside. unfold beside in Hside.
  assert (Hir : exists ir, (if decide (rt_PayloadRef (ir_Routing ir0) <> "") then
      AttachPayload (Some (stamped q queueID cfg ir0)) (RawBytes (raw_bytes (rm_Payload v))) = Ok ir else ir = stamped q queueID cfg ir0) /\
    ir_view ir = Some (set_payload v (delivered_payload (rp_payloadKeys p) v)) /\ rt_RequestToken (ir_Routing ir) = token).
  { change (rt_PayloadRef (ir_Routing ir0)) with (submit_ref p token v). unfold submit_ref, delivered_payload. destruct (rp_payloadKeys p) eqn:Epk.
    - destruct (attach_view true pub v (raw_bytes (rm_Payload v)) (stampRoute q queueID cfg rt) 0) as (ir & Ha & Hr & Hvw);
        [apply Hs|apply Hs|]. exists ir. rewrite decide_True by done. split_and!; [|done|by rewrite Hr]. rewrite <- Ha. unfold stamped, on_routing, ir0, read_back. by rewrite Epk.
    - eexists. rewrite decide_False by (by intros []). split_and!; [done| |done]. change (ir_view ir0 = Some (set_payload v (canon_payload (rm_Payload v)))).
      rewrite Hir0. f_equal. rewrite <- Hpay by done. exact Hsame. }
  destruct Hir as (ir & Hir & Hview & Htoken).
  destruct (process_calm ttl q queueID cfg gate pollNow ingestion h (pr_r s') clock ctoken active released handed results sent unmarshal member score ir0 v'
    (raw_bytes (rm_Payload v)) batchSize budget) with (ir := ir) as (h' & Hproc); try done; rewrite ?Hid, ?Hdl; try done.
  { change (rt_PayloadRef (ir_Routing ir0)) with (submit_ref p token v). unfold submit_ref in *. destruct (rp_payloadKeys p); [|done].
    intros _. by destruct (Hside _ _ _ eq_refl). }
  eexists s', [], _, _. split_and!; [exact Hrun|exact Hproc|reflexivity|reflexivity|exact Hview|exact Htoken| |].
  - unfold after_claim, claimed_redis. cbn [ss_r]. rewrite queue_at_insert. cbn [pending]. by rewrite Hp, delete_singleton_eq.
  - unfold after_claim, claimed_redis. cbn [ss_r]. rewrite queue_at_insert. cbn [owners].
    assert (Hvw : view (stamped q queueID cfg ir0) = v') by (unfold view; change (ir_view (stamped q queueID cfg ir0)) with (ir_view ir0); by rewrite Hir0).
    rewrite Hvw. change (rt_RequestToken (ir_Routing (stamped q queueID cfg ir0))) with token. rewrite Hid. by rewrite lookup_insert_eq.
Qed.

Definition w_open (ir : InternalRequest) : gated := mkGated (Ok Continue) [] ir.
Definition w_queue : SortedSetQueueConfig := mkQueueCfg "id" "q" "" 0 "default" "" "" "" "" ∅.

Lemma submit_is_dispatched_witness : exists s' fs' out ir,
  SubmitRequest (RedisProducer.w_producer true true) Second (Some "t1") 1000 1001 (Some (RedisProducer.w_request 60)) (RedisProducer.w_redis, []) = (Ok tt, (s', fs')) /\
  processMessagesWithConfig (300 * Second) unmarshal "q" "id" w_queue w_open (2 * Second) 0 10 (Fin 1)
    (calm ∅ (pr_r s') 0 "c1" ∅ [] [] [] []) = (tt, out) /\ ss_sent out = [ir] /\ rt_RequestToken (ir_Routing ir) = "t1".
Proof.
  destruct (submit_is_dispatched (RedisProducer.w_producer true true) Second "t1" 1000 1001 (RedisProducer.w_request 60) (RedisProducer.w_request 60) (RedisProducer.w_msg 60) RedisProducer.w_redis
    (300 * Second) "id" w_queue w_open (2 * Second) 0 ∅ 0 "c1" ∅ [] [] [] [] 10 (Fin 1)) as (s' & fs' & out & ir & H1 & H2 & H3 & _ & _ & H6 & _).
  - apply (RedisProducer.w_sub_ok true true 60 "t1"); [lia|by left].
  - apply RedisProducer.w_counters.
  - reflexivity.
  - by vm_compute.
  - by vm_compute.
  - done.
  - exists s', fs', out, ir. by split_and!.
Defined.
