(* ===== verification/SqlProducer.v ===== *)
(** * The producer of the SQL transport (producer-sql/producer.go)

    Submission, cancellation and the reading of results, over the store of
    SqlStore.v and the wire format of Wire.v.  The clock, the random source and
    the context are arguments. *)
From stdpp Require Import prelude gmap strings list sorting.
From Stdlib Require Import ZArith Lia.
From S2P Require Import Prelude Json Api QueueSpec SqlStore SqlSafety SqlMethods Wire RedisProducer SqlFlow.

#[local] Open Scope string_scope.
#[local] Open Scope list_scope.
#[local] Open Scope Z_scope.
#[local] Open Scope faulty_scope.

Inductive SubmitErr : Type :=
| ErrNoRequest
| ErrNilPointer        (* a typed nil pointer: the program panics *)
| ErrNoID
| ErrNoDeadline
| ErrExpired
| ErrToken
| ErrEncoding
| ErrPayloadJSON
| ErrEnqueue (e : StoreErr)
| ErrLimit
| ErrPop
| ErrContextEnded.

(** ** Construction *)
Record Config : Type := mkConfig { pc_URL : string; pc_RequestQueueName : string; pc_ResultQueueName : string; pc_PollInterval : Z }.

Record Producer : Type := mkProducer {
  sp_managedStore : bool;
  sp_requestQueueName : string;
  sp_resultQueueName : string;
  sp_pollInterval : Z
}.

(** [stores]: for each WithStore option, whether it was given a store;
    [opened]: whether sqlqueue.Open succeeds. *)
Definition New (config : Config) (stores : list bool) (opened : bool) : option Producer :=
  if bool_decide (pc_ResultQueueName config = "") then None
  else
    let p managed := mkProducer managed (or_default (pc_RequestQueueName config) "request-sql") (pc_ResultQueueName config)
                       (if pc_PollInterval config <=? 0 then Second else pc_PollInterval config) in
    if negb (forallb id stores) then None
    else match stores with
         | _ :: _ => Some (p false)
         | [] => if bool_decide (pc_URL config = "") || negb opened then None else Some (p true)
         end.

(** Whether Close closes the store. *)
Definition Close (p : Producer) : bool := sp_managedStore p.

(** ** Submission *)
Definition toInternal (req : Api.Request) : option InternalRequest :=
  match req with
  | PlainRequest (Some m) => Some (mkInternalRequest zeroRouting (Some (PlainRequest (Some m))) 0)
  | RedisReq (Some x) =>
      Some (mkInternalRequest (mkInternalRouting 0 "" "" 0 (rr_RequestQueueName x) (rr_ResultQueueName x) 0 false "" 0 "" ∅)
              (Some (RedisReq (Some x))) 0)
  | _ => (fun v => mkInternalRequest zeroRouting (Some (PlainRequest (Some v))) 0) <$> request_view req
  end.

Section producer.
Context (p : Producer).

Definition row_routing (token : string) (rt : InternalRouting) : InternalRouting :=
  mkInternalRouting (rt_RetryCount rt) (rt_QueueID rt) token (rt_DispatchAttempt rt)
    (or_default (rt_RequestQueueName rt) (sp_requestQueueName p)) (or_default (rt_ResultQueueName rt) (sp_resultQueueName p))
    (rt_ResultTTLSeconds rt) (rt_ResultRoutingResolved rt) (rt_TransportCorrelationID rt) (rt_EnqueueSeq rt) (rt_PayloadRef rt)
    (rt_Labels rt).

Definition toRow (now : Z) (tok : option string) (req : option Api.Request) : Res SubmitErr Request :=
  match req with
  | None => Err ErrNoRequest
  | Some req =>
      match toInternal req with
      | None => Err ErrNilPointer
      | Some ir =>
          match ir_view ir with
          | None => Err ErrNilPointer
          | Some v =>
              if bool_decide (rm_ID v = "") then Err ErrNoID
              else if rm_Deadline v <=? 0 then Err ErrNoDeadline
              else if untilUnix (rm_Deadline v) now <=? 0 then Err ErrExpired
              else match tok with
                   | None => Err ErrToken
                   | Some token =>
                       let ir := mkInternalRequest (row_routing token (ir_Routing ir)) (ir_Public ir) (ir_Ingestion ir) in
                       match (SplitPayload marshal (Some ir)).1 with
                       | Err _ => Err ErrEncoding
                       | Ok (envelope, payload) =>
                           if match payload with RawBytes s => negb (json_valid s) | RawNil => false end then Err ErrPayloadJSON
                           else Ok (mkRequest (rm_ID v) token (rt_RequestQueueName (ir_Routing ir)) 0 0 0 (rm_Deadline v) envelope
                                      (raw_bytes payload) false 0)
                       end
                   end
          end
      end
  end.

(** Each request with the time it is looked at and the token drawn for it. *)
Fixpoint toRows (reqs : list (Z * option string * option Api.Request)) : Res SubmitErr (list Request) :=
  match reqs with
  | [] => Ok []
  | (now, tok, req) :: rest =>
      match toRow now tok req with
      | Err e => Err e
      | Ok row => match toRows rest with Err e => Err e | Ok rows => Ok (row :: rows) end
      end
  end.

Definition SubmitRequests (createdAt : Z) (reqs : list (Z * option string * option Api.Request)) : Faulty Store SubmitErr unit :=
  match toRows reqs with
  | Err e => f_fail e
  | Ok rows => fun s => match Enqueue createdAt rows s with
                        | (Ok _, s') => (Ok tt, s')
                        | (Err e, s') => (Err (ErrEnqueue e), s')
                        end
  end.

Definition SubmitRequest (createdAt now : Z) (tok : option string) (req : option Api.Request) : Faulty Store SubmitErr unit :=
  SubmitRequests createdAt [(now, tok, req)].

Definition CancelRequests (ids : list string) : Faulty Store SubmitErr unit := fun s =>
  match Cancel ids s with
  | (Ok _, s') => (Ok tt, s')
  | (Err e, s') => (Err (ErrEnqueue e), s')
  end.

(** ** Results *)

(** The text of the decoding error is left out of the message. *)
Definition read_result (row : Result) : ResultMessage :=
  match parseInternalResult (r_Payload row) with
  | Some r => r
  | None => mkResultMessage (r_ID row) 0 "" ErrCodeInferenceError "unparsable result payload" (SqlFlow.set_token zeroRouting (r_Token row)) ∅
  end.

(** One poll per element: the clock, the rows other transactions hold, what
    others did to the store since the last poll, and whether the context was
    alive through the wait after it.  [None]: still waiting. *)
Definition poll : Type := Z * (Z -> bool) * (Store -> Store) * bool.

Fixpoint GetResults_from (limit : Z) (polls : list poll) : Faulty Store SubmitErr (option (list ResultMessage)) :=
  match polls with
  | [] => f_ret None
  | (now, locked, others, alive) :: rest =>
      fun '(st, fs) =>
        match PopResults (sp_resultQueueName p) now limit locked (others st, fs) with
        | (Err _, s) => (Err ErrPop, s)
        | (Ok [], s) => if alive then GetResults_from limit rest s else (Err ErrContextEnded, s)
        | (Ok rows, s) => (Ok (Some (read_result <$> rows)), s)
        end
  end.

Definition GetResults (limit : Z) (polls : list poll) : Faulty Store SubmitErr (option (list ResultMessage)) :=
  if limit <=? 0 then f_fail ErrLimit else GetResults_from limit polls.

Definition GetResult (polls : list poll) : Faulty Store SubmitErr (option ResultMessage) :=
  do! r <- GetResults 1 polls;
  match r with
  | None => f_ret None
  | Some [] => f_fail ErrPop
  | Some (x :: _) => f_ret (Some x)
  end.
End producer.

(** ** Proofs *)

(** A program that ends well met no fault. *)
Definition ok_faultless {A : Type} (m : DB A) : Prop :=
  forall st fs a st' fs', m (st, fs) = (Ok a, (st', fs')) -> m (st, []) = (Ok a, (st', [])).

Lemma ok_exec {A} (q : stmt A) : ok_faultless (exec q).
Proof.
  intros st fs a st' fs'. unfold exec, f_call. cbn [head tail]. destruct (head fs) as [[]|]; destruct (q st) as [[]|]; by intros [= <- <- _].
Qed.

Lemma ok_ret {A} (a : A) : ok_faultless (db_ret a).
Proof. by intros st fs b st' fs' [= <- <- _]. Qed.

Lemma ok_bind {A B} (m : DB A) (k : A -> DB B) : ok_faultless m -> (forall a, ok_faultless (k a)) -> ok_faultless (db_bind m k).
Proof.
  intros Hm Hk st fs b st' fs'. unfold f_bind. destruct (m (st, fs)) as [[a|] [st1 fs1]] eqn:E; [|done]. apply Hm in E. rewrite E.
  apply Hk.
Qed.

(** A transaction changed nothing, or its body ended well and was committed. *)
Lemma inTx_inv {A} (m : DB A) st fs r st' fs' : inTx m (st, fs) = (r, (st', fs')) ->
  (exists e, r = Err e /\ st' = st) \/ exists a fs1, m (st, tail fs) = (Ok a, (st', fs1)) /\ (r = Ok a \/ r = Err ErrStatement).
Proof.
  unfold inTx. destruct (m (st, tail fs)) as [[b|e1] [st1 fs1]] eqn:E; destruct (head fs) as [[]|]; try (intros [= <- <- _]; by eauto);
    destruct (head fs1) as [[]|]; intros [= <- <- _]; eauto 8.
Qed.

Lemma ok_inTx {A} (m : DB A) : ok_faultless m -> ok_faultless (inTx m).
Proof.
  intros Hm st fs a st' fs' [(e & ? & _)|(b & fs1 & H & [[= ->]|?])]%inTx_inv; [done| |done]. apply Hm in H. unfold inTx. cbn [head tail]. by rewrite H.
Qed.

Lemma ok_chunks createdAt chs : forall start, ok_faultless (enqueue_chunks createdAt start chs).
Proof.
  induction chs as [|ch chs IH]; intros start; cbn [enqueue_chunks]; [apply ok_ret|]. apply ok_bind; [apply ok_exec|]. intros _. apply IH.
Qed.

Lemma ok_Enqueue createdAt rows : ok_faultless (Enqueue createdAt rows).
Proof. unfold Enqueue. destruct rows as [|r rows]; [apply ok_ret|]. apply ok_inTx, ok_chunks. Qed.

(** The rows are there, and nothing else changed. *)
Definition enqueued (createdAt : Z) (rows : list Request) (st st' : Store) : Prop :=
  NoDup (request_Key <$> rows) /\ (forall k, k ∈ request_Key <$> rows -> requests st !! k = None) /\
  (forall k, requests st' !! k = match list_to_map (M := gmap Key ReqRow) (enqueue_rows createdAt 0 rows) !! k with
                                | Some row => Some row | None => requests st !! k end) /\
  set_requests st' ∅ = set_requests st ∅.

Lemma Enqueue_enqueued createdAt rows st fs st' fs' : Enqueue createdAt rows (st, fs) = (Ok tt, (st', fs')) -> enqueued createdAt rows st st'.
Proof.
  intros H%ok_Enqueue. rewrite Enqueue_flat_lemma in H. destruct (insert_rows _ _) as [m|] eqn:E; [|done]. injection H as <-.
  apply insert_rows_Some_inv in E as (H1 & H2 & H3). rewrite enqueue_rows_keys in *. by split_and!.
Qed.

Lemma Enqueue_err createdAt rows st fs e st' fs' : Enqueue createdAt rows (st, fs) = (Err e, (st', fs')) -> st' = st \/ enqueued createdAt rows st st'.
Proof.
  unfold Enqueue at 1. destruct rows as [|r rows]; [done|]. intros [(? & _ & ->)|([] & fs1 & H & _)]%inTx_inv; [by left|right].
  apply ok_chunks in H. assert (Enqueue createdAt (r :: rows) (st, []) = (Ok tt, (st', []))) as H'; [|by apply Enqueue_enqueued in H'].
  unfold Enqueue, inTx. cbn [head tail]. by rewrite H.
Qed.

(** A request with another payload. *)
Definition with_payload (r : Api.Request) (payload : RawMessage) : Api.Request :=
  match requestMessageOf (Some r) with Ok (m, put) => put (set_payload m payload) | Err _ => r end.

(** What a worker gets: the request as it was submitted, its payload's bytes
    unchanged (none when it was nil), and its routing. *)
Definition arrives (p : Producer) (token : string) (ir : InternalRequest) (r : Api.Request) (v : RequestMessage) : InternalRequest :=
  mkInternalRequest (row_routing p token (ir_Routing ir)) (Some (with_payload r (RawBytes (raw_bytes (rm_Payload v))))) 0.

(** The texts of a request and of the names around it are UTF-8. *)
Definition encodable (p : Producer) (token : string) (ir : InternalRequest) (r : Api.Request) : Prop :=
  request_ok (with_payload r RawNil) /\ routing_ok (row_routing p token (ir_Routing ir)).

Lemma toInternal_kind req ir : toInternal req = Some ir -> exists r m put, ir_Public ir = Some r /\ requestMessageOf (Some r) = Ok (m, put) /\
  request_view r = Some m /\ ir_Ingestion ir = 0.
Proof.
  destruct req as [[m|]|[x|]|[x|]|v]; cbn; intros [= <-]; cbn; eauto 10.
Qed.

Lemma canon_attach r m put q : requestMessageOf (Some r) = Ok (m, put) ->
  exists m' put', requestMessageOf (Some (canon_request (put (set_payload m RawNil)))) = Ok (m', put') /\ put' (set_payload m' q) = put (set_payload m q).
Proof. destruct r as [[m0|]|[x|]|[x|]|v]; cbn; intros [= <- <-]; cbn; eauto 10. Qed.

Lemma toRow_parses p now tok req ir r row :
  toInternal req = Some ir -> ir_Public ir = Some r -> toRow p now tok (Some req) = Ok row ->
  exists token v, tok = Some token /\ request_view r = Some v /\ req_ID row = rm_ID v /\ req_Token row = token /\
    req_Queue row = rt_RequestQueueName (row_routing p token (ir_Routing ir)) /\ req_Deadline row = rm_Deadline v /\
    (encodable p token ir r -> token <> "" ->
     forall row', req_Envelope row' = req_Envelope row -> req_Payload row' = req_Payload row -> req_Token row' = token ->
     SqlFlow.parseRequest unmarshal row' = Some (arrives p token ir r v)).
Proof.
  intros Hin Hpub. unfold toRow. rewrite Hin. destruct (toInternal_kind req ir Hin) as (r' & m & put & Hp' & Hm & Hv & Hing). rewrite Hpub in Hp'.
  injection Hp' as <-. unfold ir_view. rewrite Hpub. cbn [mbind option_bind]. rewrite Hv. case_bool_decide; [done|].
  destruct (_ <=? 0); [done|]. destruct (_ <=? 0); [done|]. destruct tok as [token|]; [|done]. cbn [SplitPayload ir_Public ir_Routing ir_Ingestion].
  rewrite Hm. cbn [fst]. destruct (marshal _) as [envelope|] eqn:Em; [|done].
  destruct (match rm_Payload m with RawBytes s => negb (json_valid s) | RawNil => false end); [done|].
  intros [= <-]. exists token, m. split_and!; [done..|]. intros [Hreq Hrt] Htok row' He Hp Ht. cbn [req_Envelope req_Payload] in He, Hp.
  unfold SqlFlow.parseRequest. rewrite He. unfold with_payload in Hreq. rewrite Hm in Hreq.
  destruct (wire_decodes (mkInternalRequest (row_routing p token (ir_Routing ir)) (Some (put (set_payload m RawNil))) (ir_Ingestion ir)) _ eq_refl Hreq Hrt)
    as (s & Hs & Hu). rewrite Em in Hs. injection Hs as <-. rewrite Hu. cbn [ir_Public ir_Routing].
  unfold AttachPayload. cbn [ir_Public]. destruct (canon_attach r m put (RawBytes (req_Payload row')) Hm) as (m' & put' & -> & Hput).
  unfold arrives, map_routing. cbn. rewrite Hput, Hp. unfold with_payload. rewrite Hm. unfold or_else, row_routing. cbn.
  rewrite decide_False by done. done.
Qed.

Lemma toRows_lookup p reqs rows : toRows p reqs = Ok rows ->
  Forall2 (fun q row => toRow p q.1.1 q.1.2 q.2 = Ok row) reqs rows.
Proof.
  revert rows. induction reqs as [|[[now tok] req] reqs IH]; intros rows; cbn [toRows]; [by intros [= <-]; constructor|].
  destruct (toRow p now tok req) eqn:E; [|done]. destruct (toRows p reqs) eqn:Es; [|done]. intros [= <-]. constructor; [done|by apply IH].
Qed.

Lemma enqueue_rows_lookup createdAt rows : forall start i row, rows !! i = Some row ->
  enqueue_rows createdAt start rows !! i = Some (enqueue_row createdAt (start + Z.of_nat i) row).
Proof.
  induction rows as [|r rows IH]; intros start [|i] row; [done..| |]; cbn [lookup list_lookup enqueue_rows].
  - intros [= <-]. by rewrite Z.add_0_r.
  - intros H. etrans; [by apply (IH (start + 1))|]. do 2 f_equal. lia.
Qed.

(** C15. A submission to the SQL transport is all or nothing, under any loss of
    statements and replies: an error leaves the store as it was, or with every
    row of the call after the reply of the COMMIT was lost.  After a success
    each request has its row, pending for the queue it names or the producer's,
    and a worker that reads the row gets the request back as it was submitted,
    with the bytes of its payload and with the token it was submitted under. *)
Theorem sql_submit_arrives p createdAt reqs st fs r st' fs' :
  SubmitRequests p createdAt reqs (st, fs) = (r, (st', fs')) ->
  match r with
  | Err _ => st' = st \/ exists rows, toRows p reqs = Ok rows /\ enqueued createdAt rows st st'
  | Ok _ =>
      (exists rows, toRows p reqs = Ok rows /\ enqueued createdAt rows st st') /\
      forall i now tok req ir pub, reqs !! i = Some (now, tok, Some req) -> toInternal req = Some ir -> ir_Public ir = Some pub ->
      exists token v row, tok = Some token /\ request_view pub = Some v /\ requests st' !! mkKey (rm_ID v) token = Some row /\
        deadline row = rm_Deadline v /\ queue row = rt_RequestQueueName (row_routing p token (ir_Routing ir)) /\ cancelled row = false /\
        (encodable p token ir pub -> token <> "" ->
         SqlFlow.parseRequest unmarshal (to_request (mkKey (rm_ID v) token) row) = Some (arrives p token ir pub v))
  end.
Proof.
  unfold SubmitRequests. destruct (toRows p reqs) as [rows|e] eqn:Er; [|intros [= <- <- _]; by left].
  destruct (Enqueue createdAt rows (st, fs)) as [[[]|e] [st1 fs1]] eqn:Ee; intros [= <- <- <-].
  2: { apply Enqueue_err in Ee as [->|Ee]; [by left|right; eauto]. }
  apply Enqueue_enqueued in Ee. split; [eauto|]. intros i now tok req ir pub Hi Hin Hpub.
  apply toRows_lookup in Er. destruct (Forall2_lookup_l _ _ _ _ _ Er Hi) as (row & Hrow & Hto). cbn in Hto.
  destruct (toRow_parses p now tok req ir pub row Hin Hpub Hto) as (token & v & -> & Hv & Hid & Htok & Hq & Hd & Hparse).
  destruct Ee as (Hnd & _ & Hlook & _). pose proof (enqueue_rows_lookup createdAt rows 0 i row Hrow) as Hl. apply list_elem_of_lookup_2 in Hl.
  unfold enqueue_row in Hl. unfold request_Key in Hl. rewrite Hid, Htok in Hl.
  eexists token, v, _. split_and!; [done|done| | | | |].
  - rewrite Hlook, (elem_of_list_to_map_1 _ _ _ ltac:(rewrite enqueue_rows_keys; done) Hl). done.
  - done.
  - done.
  - done.
  - intros Henc Hne. by apply Hparse.
Qed.

(** ** Results

    The rows of [route] a reader at [now] finds, those it may take, and a store
    after the expired ones have been dropped. *)
Definition without_expired (route : string) (now : Z) (st : Store) : Store :=
  set_results st (delete_where (fun _ r => bool_decide (s_route r = route) && expired_result now r) (results st)).

Definition readable (route : string) (now : Z) (locked : Z -> bool) (st : Store) (s : Z) (rr : ResRow) : Prop :=
  results st !! s = Some rr /\ s_route rr = route /\ expired_result now rr = false /\ locked s = false.

Lemma take_misses {A} (R : relation A) `{!Transitive R} n (l : list A) x : Sorted R l -> x ∈ l -> x ∉ take n l ->
  (n <= length l)%nat /\ forall y, y ∈ take n l -> R y x.
Proof.
  intros Hs Hx Hn. rewrite <- (take_drop n l) in Hx. apply elem_of_app in Hx as [?|Hx]; [done|]. split.
  - destruct (Nat.le_gt_cases n (length l)) as [?|?]; [done|]. rewrite drop_ge in Hx by lia. by apply elem_of_nil in Hx.
  - intros y Hy. apply (Sorted_StronglySorted R) in Hs. rewrite <- (take_drop n l) in Hs.
    eapply (StronglySorted_app_1_elem_of R); eauto.
Qed.

Lemma PopResults_ok route now limit locked st fs rows st' fs' : PopResults route now limit locked (st, fs) = (Ok rows, (st', fs')) ->
  NoDup (r_Seq <$> rows) /\ Sorted result_le rows /\ Z.of_nat (length rows) <= Z.max 0 limit /\
  (forall row, row ∈ rows -> exists rr, readable route now locked st (r_Seq row) rr /\ row = to_result (r_Seq row, rr)) /\
  (forall s rr, readable route now locked st s rr -> s ∉ r_Seq <$> rows ->
     Z.of_nat (length rows) = limit /\ forall row, row ∈ rows -> r_Seq row <= s) /\
  st' = set_results st (delete_where (fun s _ => bool_decide (s ∈ r_Seq <$> rows)) (results (without_expired route now st))).
Proof.
  intros H. assert (ok_faultless (PopResults route now limit locked)) as Hok.
  { apply ok_bind; [apply ok_exec|]. intros _. apply ok_bind; [apply ok_exec|]. intros l. apply ok_ret. }
  apply Hok in H. unfold PopResults, f_bind, exec, f_call, stmt_expire_route, async_pop_results in H. cbn [head tail] in H.
  destruct (Z.ltb_spec limit 0); [done|]. cbn -[take merge_sort select_where delete_where fmap] in H. injection H as <- <-.
  unfold without_expired. cbn [results set_results].
  set (alive := delete_where (fun _ r => bool_decide (s_route r = route) && expired_result now r) (results st)).
  set (all := merge_sort seq_le (select_where (fun s r => bool_decide (s_route r = route) && negb (locked s)) alive)).
  assert (r_Seq <$> (to_result <$> take (Z.to_nat limit) all) = (take (Z.to_nat limit) all).*1) as Hseq by by rewrite <- list_fmap_compose.
  assert (merge_sort result_le (to_result <$> take (Z.to_nat limit) all) ≡ₚ to_result <$> take (Z.to_nat limit) all) as Hperm by apply merge_sort_Permutation.
  assert (Hread : forall s rr, readable route now locked st s rr <-> (s, rr) ∈ all).
  { intros s rr. unfold all, readable. rewrite merge_sort_Permutation, elem_of_select_where. unfold alive. rewrite lookup_delete_where_Some, andb_true_iff, negb_true_iff, bool_decide_eq_true.
    split; intros; destruct_and!; split_and!; try done; [rewrite bool_decide_eq_true_2 by done|rewrite bool_decide_eq_true_2 in * by done]; done. }
  split_and!.
  - rewrite Hperm, Hseq. apply NoDup_limit_where.
  - apply Sorted_merge_sort. intros a b. unfold result_le. lia.
  - rewrite Hperm, length_fmap, length_take. lia.
  - intros row. rewrite Hperm. intros ([s rr] & -> & Hin)%list_elem_of_fmap. exists rr. split; [|done]. apply Hread. apply elem_of_take in Hin as (i & Hi & _). by eapply list_elem_of_lookup_2.
  - intros s rr Hr Hs. rewrite Hperm, Hseq in Hs. apply Hread in Hr.
    assert (Transitive seq_le) by (intros a b c; unfold seq_le; lia). destruct (take_misses seq_le (Z.to_nat limit) all (s, rr)) as [Hlen Hle]; [|done| |].
    + apply Sorted_merge_sort. intros a b. unfold seq_le. lia.
    + contradict Hs. apply list_elem_of_fmap. by exists (s, rr).
    + split; [rewrite Hperm, length_fmap, length_take; lia|]. intros row. rewrite Hperm. intros (y & -> & Hy)%list_elem_of_fmap. apply (Hle y Hy).
  - unfold set_results. cbn. f_equal. apply map_eq. intros s. rewrite !lookup_delete_where. destruct (alive !! s); [|done]. cbn.
    f_equal. assert (bool_decide (s ∈ (take (Z.to_nat limit) all).*1) = bool_decide (s ∈ r_Seq <$> merge_sort result_le (to_result <$> take (Z.to_nat limit) all))) as ->; [|done].
    apply bool_decide_ext. by rewrite Hperm, Hseq.
Qed.

(** The store the [k]th poll of a read reads: the one the read began with, changed by
    the others between the polls, and by the earlier polls in that they dropped the
    expired rows. *)
Fixpoint store_read (route : string) (polls : list poll) (k : nat) (st : Store) : Store :=
  match polls, k with
  | (_, _, others, _) :: _, O => others st
  | (now, _, others, _) :: rest, S k => store_read route rest k (without_expired route now (others st))
  | [], _ => st
  end.


(** ** A submission of one request *)
Definition w_producer : Producer := mkProducer true "rq" "res" Second.
Definition w_submitted : Api.Request := PlainRequest (Some (mkRequestMessage "r1" 0 100 (RawBytes "{}") ∅ ∅ "" "")).
Definition w_reqs : list (Z * option string * option Api.Request) := [(0, Some "t", Some w_submitted)].
Definition w_internal : InternalRequest := mkInternalRequest zeroRouting (Some w_submitted) 0.

Lemma w_encodable : encodable w_producer "t" w_internal w_submitted.
Proof.
  assert (texts_valid ∅) as H by by apply map_Forall_empty.
  split; split;
    lazymatch goal with
    | |- int64 _ => unfold int64; cbn; lia
    | |- valid_utf8 _ = true => vm_compute; reflexivity
    | |- ex _ => exists "null"; split; vm_compute; reflexivity
    | |- _ => done
    end.
Qed.

Lemma w_submits : exists st', SubmitRequests w_producer 7 w_reqs (emptyStore, []) = (Ok tt, (st', [])).
Proof.
  destruct w_encodable as [H1 H2].
  destruct (wire_decodes (mkInternalRequest (row_routing w_producer "t" zeroRouting) (Some (with_payload w_submitted RawNil)) 0) _ eq_refl H1 H2) as (s & Hs & _).
  cbn [ir_Public with_payload w_submitted requestMessageOf] in Hs.
  assert (toRows w_producer w_reqs = Ok [mkRequest "r1" "t" "rq" 0 0 0 100 s "{}" false 0]) as Hr.
  { cbn [toRows w_reqs]. unfold toRow. cbn [toInternal w_submitted ir_view ir_Public mbind option_bind request_view rm_ID rm_Deadline].
    rewrite bool_decide_eq_false_2 by done. change (100 <=? 0) with false. change (untilUnix 100 0 <=? 0) with false. cbv iota.
    unfold SplitPayload. cbn [ir_Public ir_Routing ir_Ingestion requestMessageOf fst]. rewrite Hs. reflexivity. }
  unfold SubmitRequests. rewrite Hr. eexists. reflexivity.
Qed.

Lemma sql_submit_arrives_witness : exists st',
  (exists rows, toRows w_producer w_reqs = Ok rows /\ enqueued 7 rows emptyStore st') /\
  forall i now tok req ir pub, w_reqs !! i = Some (now, tok, Some req) -> toInternal req = Some ir -> ir_Public ir = Some pub ->
  exists token v row, tok = Some token /\ request_view pub = Some v /\ requests st' !! mkKey (rm_ID v) token = Some row /\
    deadline row = rm_Deadline v /\ queue row = rt_RequestQueueName (row_routing w_producer token (ir_Routing ir)) /\ cancelled row = false /\
    (encodable w_producer token ir pub -> token <> "" ->
     SqlFlow.parseRequest unmarshal (to_request (mkKey (rm_ID v) token) row) = Some (arrives w_producer token ir pub v)).
Proof.
  destruct w_submits as [st' H]. exists st'. apply (sql_submit_arrives w_producer 7 w_reqs emptyStore [] (Ok tt) st' []). exact H.
Defined.

Definition w_row : ResRow := mkResRow "res" "r1" "t" "x" 0 0.
Definition w_results : Store := mkStore ∅ ∅ ∅ {[1 := w_row]} 0 1.

(** Nothing at the first poll; a result is written before the second. *)
Definition w_polls : list poll := [(0, fun _ => false, fun s => s, true); (1, fun _ => false, fun _ => w_results, true)].

