(* ===== verification/SqlSetup.v ===== *)
(** * Setting up the SQL transport (pkg/sqlflow: config.go, cancelbatch.go, and
    the construction and the expiry of results of flow.go)

    The decoded configuration with its defaults and checks, the flow built from
    it, the goroutine that batches cancellation checks as a step relation, and
    the loop that deletes expired results. *)
From stdpp Require Import prelude gmap strings list sorting.
From Stdlib Require Import ZArith Lia.
From S2P Require Import Prelude Api QueueSpec SqlStore SqlConsumer RedisProducer MergePolicy SqlFlow.

#[local] Open Scope string_scope.
#[local] Open Scope list_scope.
#[local] Open Scope Z_scope.

(** ** Configuration *)
Record Config : Type := mkConfig {
  c_URL : string;
  c_ResultQueueName : string;
  c_PollIntervalMs : Z;
  c_BatchSize : Z;
  c_ResultBatchSize : Z;
  c_EnableTracing : bool;
  c_CancelCheckBatchSize : Z;
  c_CancelCheckLingerMs : Z;
  c_LeaseTTLSeconds : Z;
  c_MaxConnections : Z;
  c_HandoffTimeoutSeconds : Z;
  c_Queues : list QueueConfig
}.

Definition or_int (z d : Z) : Z := if z =? 0 then d else z.

Definition queue_defaults (q : QueueConfig) : QueueConfig :=
  mkQueueConfig (or_default (qc_ID q) (qc_QueueName q)) (qc_QueueName q) (qc_ResultQueueName q) (qc_ResultTTLSeconds q)
    (or_default (qc_WorkerPoolID q) "default") (qc_InferenceObjective q) (or_default (qc_RequestPathURL q) "/v1/completions")
    (qc_IGWBaseURL q) (qc_GateType q) (qc_Labels q).

Definition DefaultMaxConns : Z := 32.

Definition ApplyDefaults (c : Config) : Config :=
  mkConfig (c_URL c) (or_default (c_ResultQueueName c) "result-sql") (or_int (c_PollIntervalMs c) 1000) (or_int (c_BatchSize c) 10)
    (or_int (c_ResultBatchSize c) 32) (c_EnableTracing c) (or_int (c_CancelCheckBatchSize c) 256) (or_int (c_CancelCheckLingerMs c) 5)
    (or_int (c_LeaseTTLSeconds c) 30) (or_int (c_MaxConnections c) DefaultMaxConns) (or_int (c_HandoffTimeoutSeconds c) 900)
    (queue_defaults <$> c_Queues c).

Inductive ConfigErr : Type :=
| ErrParse
| ErrURL
| ErrNegative (field : string)
| ErrNoQueues
| ErrQueueName
| ErrDuplicateID (id : string)
| ErrDuplicateName (name : string)
| ErrQueueBaseURL (name : string)
| ErrQueuePool (id : string)
| ErrQueueGate (name : string)
| ErrOwner.

Fixpoint check_queues (seenID seenName : gset string) (queues : list QueueConfig) : Res ConfigErr unit :=
  match queues with
  | [] => Ok tt
  | q :: rest =>
      if bool_decide (qc_QueueName q = "") then Err ErrQueueName
      else if bool_decide (qc_ID q ∈ seenID) then Err (ErrDuplicateID (qc_ID q))
      else if bool_decide (qc_QueueName q ∈ seenName) then Err (ErrDuplicateName (qc_QueueName q))
      else if bool_decide (qc_IGWBaseURL q = "") then Err (ErrQueueBaseURL (qc_QueueName q))
      else check_queues ({[qc_ID q]} ∪ seenID) ({[qc_QueueName q]} ∪ seenName) rest
  end.

Definition Validate (c : Config) : Res ConfigErr unit :=
  if bool_decide (c_URL c = "") then Err ErrURL
  else if c_PollIntervalMs c <? 0 then Err (ErrNegative "poll_interval_ms")
  else if c_BatchSize c <? 0 then Err (ErrNegative "batch_size")
  else if c_ResultBatchSize c <? 0 then Err (ErrNegative "result_batch_size")
  else if c_CancelCheckBatchSize c <? 1 then Err (ErrNegative "cancel_check_batch_size")
  else if c_CancelCheckLingerMs c <? 0 then Err (ErrNegative "cancel_check_linger_ms")
  else if c_LeaseTTLSeconds c <? 0 then Err (ErrNegative "lease_ttl_seconds")
  else if c_MaxConnections c <? 0 then Err (ErrNegative "max_connections")
  else if c_HandoffTimeoutSeconds c <? 0 then Err (ErrNegative "handoff_timeout_seconds")
  else match c_Queues c with
       | [] => Err ErrNoQueues
       | queues => check_queues ∅ ∅ queues
       end.

(** [decoded]: what json.Unmarshal makes of the text; [env]: SQL_URL. *)
Definition LoadConfig (env : string) (decoded : option Config) : Res ConfigErr Config :=
  match decoded with
  | None => Err ErrParse
  | Some c =>
      let c := ApplyDefaults (mkConfig (or_default (c_URL c) env) (c_ResultQueueName c) (c_PollIntervalMs c) (c_BatchSize c)
                 (c_ResultBatchSize c) (c_EnableTracing c) (c_CancelCheckBatchSize c) (c_CancelCheckLingerMs c) (c_LeaseTTLSeconds c)
                 (c_MaxConnections c) (c_HandoffTimeoutSeconds c) (c_Queues c)) in
      match Validate c with Ok _ => Ok c | Err e => Err e end
  end.

(** ** The flow *)
Record queueRuntime {Gate : Type} : Type := mkRuntime {
  qr_config : QueueConfig;
  qr_channel : RequestChannel;
  qr_gate : Gate
}.
Arguments queueRuntime : clear implicits.
Arguments mkRuntime {_}.

Record Flow {Gate : Type} : Type := mkFlow {
  fl_queues : list (queueRuntime Gate);
  fl_owner : string;
  fl_pollInterval : Z;
  fl_batchSize : Z;
  fl_resultBatchSize : Z;
  fl_leaseTTL : Z;
  fl_handoffTimeout : Z;
  fl_defaultResultQueueName : string
}.
Arguments Flow : clear implicits.
Arguments mkFlow {_}.

Definition poolExists (pools : list string) (id : string) : bool := existsb (String.eqb id) pools.

(** A product of durations, and the default when it is not positive. *)
Definition or_positive (d default : Z) : Z := if d <=? 0 then default else d.
Definition duration (n unit : Z) : Z := wrap64 (n * unit).

Section new.
Context {Gate : Type} (constOpenGate : Gate) (CreateGate : option (QueueConfig -> option Gate)) (pools : list string).

Fixpoint queue_runtimes (c : nat) (queues : list QueueConfig) : Res ConfigErr (list (queueRuntime Gate)) :=
  match queues with
  | [] => Ok []
  | q :: rest =>
      if negb (poolExists pools (qc_WorkerPoolID q)) then Err (ErrQueuePool (qc_WorkerPoolID q))
      else
        match (match CreateGate with
               | Some create => if bool_decide (qc_GateType q = "") then Some constOpenGate else create q
               | None => Some constOpenGate
               end) with
        | None => Err (ErrQueueGate (qc_QueueName q))
        | Some gate =>
            match queue_runtimes (S c) rest with
            | Err e => Err e
            | Ok l => Ok (mkRuntime q (mkRequestChannel c (qc_IGWBaseURL q) (qc_InferenceObjective q) (qc_RequestPathURL q) (qc_WorkerPoolID q)) gate :: l)
            end
        end
  end.

(** [owner]: the name drawn for this dispatcher. *)
Definition NewWithStore (owner : option string) (cfg : Config) : Res ConfigErr (Flow Gate) :=
  match owner with
  | None => Err ErrOwner
  | Some owner =>
      match queue_runtimes 0 (c_Queues cfg) with
      | Err e => Err e
      | Ok queues =>
          Ok (mkFlow queues owner (or_positive (duration (c_PollIntervalMs cfg) Millisecond) Second) (or_positive (c_BatchSize cfg) 10)
                (or_positive (c_ResultBatchSize cfg) 32) (or_positive (duration (c_LeaseTTLSeconds cfg) Second) (30 * Second))
                (or_positive (duration (c_HandoffTimeoutSeconds cfg) Second) (15 * Minute)) (c_ResultQueueName cfg))
      end
  end.
End new.

Definition RequestChannels {Gate : Type} (f : Flow Gate) : list RequestChannel := qr_channel <$> fl_queues f.
Definition storeTimeout {Gate : Type} (f : Flow Gate) : Z := Z.max Second (Z.quot (fl_leaseTTL f) 3).
Definition heartbeatInterval {Gate : Type} (f : Flow Gate) : Z := Z.max (100 * Millisecond) (Z.quot (fl_leaseTTL f) 3).

(** ** What a loaded configuration promises *)
Record queue_ok (q : QueueConfig) : Prop := mkQueueOk {
  qo_name : qc_QueueName q <> "";
  qo_id : qc_ID q <> "";
  qo_pool : qc_WorkerPoolID q <> "";
  qo_path : qc_RequestPathURL q <> "";
  qo_url : qc_IGWBaseURL q <> ""
}.

Lemma check_queues_ok queues : forall ids names u, check_queues ids names queues = Ok u ->
  NoDup (qc_ID <$> queues) /\ NoDup (qc_QueueName <$> queues) /\
  Forall (fun q => qc_ID q ∉ ids /\ qc_QueueName q ∉ names /\ qc_QueueName q <> "" /\ qc_IGWBaseURL q <> "") queues.
Proof.
  induction queues as [|q queues IH]; intros ids names u; cbn [check_queues]; [intros _; split_and!; constructor|].
  repeat (case_bool_decide; [done|]). intros (K1 & K2 & K3)%IH. rewrite !fmap_cons, !NoDup_cons. rewrite Forall_forall in K3. split_and!; [|done| |done|].
  - intros (q' & Hq & Hin)%list_elem_of_fmap. destruct (K3 q' Hin) as (Hn & _). rewrite <- Hq in Hn. set_solver.
  - intros (q' & Hq & Hin)%list_elem_of_fmap. destruct (K3 q' Hin) as (_ & Hn & _). rewrite <- Hq in Hn. set_solver.
  - constructor; [done|]. apply Forall_forall. intros q' Hin. destruct (K3 q' Hin) as (L1 & L2 & L3 & L4). split_and!; [set_solver..|done|done].
Qed.

Lemma queue_defaults_ok q : qc_QueueName q <> "" -> qc_IGWBaseURL q <> "" -> queue_ok (queue_defaults q).
Proof. intros H1 H2. split; cbn; try done; unfold or_default; by case_decide. Qed.

Record config_ok (c : Config) : Prop := mkConfigOk {
  co_url : c_URL c <> "";
  co_result : c_ResultQueueName c <> "";
  co_poll : 0 < c_PollIntervalMs c;
  co_batch : 0 < c_BatchSize c;
  co_resultBatch : 0 < c_ResultBatchSize c;
  co_cancel : 1 <= c_CancelCheckBatchSize c;
  co_linger : 0 < c_CancelCheckLingerMs c;
  co_lease : 0 < c_LeaseTTLSeconds c;
  co_conns : 0 < c_MaxConnections c;
  co_handoff : 0 < c_HandoffTimeoutSeconds c;
  co_some : c_Queues c <> [];
  co_ids : NoDup (qc_ID <$> c_Queues c);
  co_names : NoDup (qc_QueueName <$> c_Queues c);
  co_queues : Forall queue_ok (c_Queues c)
}.

Lemma or_default_nonempty s d : d <> "" -> or_default s d <> "".
Proof. unfold or_default. by case_decide. Qed.

Lemma or_int_pos z d : 0 < d -> 0 <= or_int z d -> 0 < or_int z d.
Proof. unfold or_int. destruct (Z.eqb_spec z 0); lia. Qed.

Lemma Validate_ok c u : Validate c = Ok u ->
  c_URL c <> "" /\ 0 <= c_PollIntervalMs c /\ 0 <= c_BatchSize c /\ 0 <= c_ResultBatchSize c /\ 1 <= c_CancelCheckBatchSize c /\
  0 <= c_CancelCheckLingerMs c /\ 0 <= c_LeaseTTLSeconds c /\ 0 <= c_MaxConnections c /\ 0 <= c_HandoffTimeoutSeconds c /\ c_Queues c <> [] /\
  check_queues ∅ ∅ (c_Queues c) = Ok u.
Proof.
  unfold Validate. case_bool_decide; [done|]. repeat match goal with |- context [if ?a <? ?b then _ else _] => destruct (Z.ltb_spec a b); [done|] end.
  destruct (c_Queues c) eqn:E; [done|]. intros Hq. by split_and!.
Qed.

Lemma LoadConfig_ok env decoded cfg : LoadConfig env decoded = Ok cfg -> config_ok cfg.
Proof.
  destruct decoded as [c|]; [|done]. cbn [LoadConfig]. destruct (Validate _) eqn:E; [|done]. intros [= <-].
  apply Validate_ok in E as (H1 & H2 & H3 & H4 & H5 & H6 & H7 & H8 & H9 & H10 & H11). apply check_queues_ok in H11 as (N1 & N2 & N3).
  cbn [ApplyDefaults c_URL c_ResultQueueName c_PollIntervalMs c_BatchSize c_ResultBatchSize c_CancelCheckBatchSize c_CancelCheckLingerMs c_LeaseTTLSeconds
    c_MaxConnections c_HandoffTimeoutSeconds c_Queues] in *.
  split; cbn [ApplyDefaults c_URL c_ResultQueueName c_PollIntervalMs c_BatchSize c_ResultBatchSize c_CancelCheckBatchSize c_CancelCheckLingerMs c_LeaseTTLSeconds
    c_MaxConnections c_HandoffTimeoutSeconds c_Queues]; try done; try (by apply or_int_pos).
  - by apply or_default_nonempty.
  - apply Forall_fmap. apply Forall_fmap in N3. eapply Forall_impl; [exact N3|]. intros q (_ & _ & K1 & K2). by apply queue_defaults_ok.
Qed.

Lemma queue_runtimes_ok {Gate} (open : Gate) create pools queues : forall c l, queue_runtimes open create pools c queues = Ok l ->
  qr_config <$> l = queues /\ rc_Channel ∘ qr_channel <$> l = seq c (length queues) /\ Forall (fun q => rc_WorkerPoolID (qr_channel q) ∈ pools) l.
Proof.
  induction queues as [|q queues IH]; intros c l; cbn [queue_runtimes]; [by intros [= <-]|].
  destruct (poolExists pools (qc_WorkerPoolID q)) eqn:Ep; [|done]. cbn [negb]. destruct (match create with Some _ => _ | None => _ end) as [g|]; [|done].
  destruct (queue_runtimes open create pools (S c) queues) as [l'|] eqn:E; [|done]. intros [= <-]. apply IH in E as (K1 & K2 & K3).
  rewrite !fmap_cons, K1, K2. split_and!; [done..|]. constructor; [|done]. cbn. unfold poolExists in Ep. apply existsb_exists in Ep as (x & Hin & Hx).
  apply String.eqb_eq in Hx. subst x. by apply list_elem_of_In.
Qed.

Lemma or_positive_pos d default : 0 < default -> 0 < or_positive d default.
Proof. unfold or_positive. destruct (Z.leb_spec d 0); lia. Qed.

(** A configuration that loads is complete: the server and every queue can be
    addressed, ids and names of queues are distinct, and sizes and intervals are
    positive; and the flow built from it has one channel per queue, in order, for
    a worker pool that exists, with positive intervals and a heartbeat that comes
    at least twice in a lease. *)
Theorem sql_config_complete {Gate : Type} (open : Gate) create pools owner env decoded cfg f :
  LoadConfig env decoded = Ok cfg -> NewWithStore open create pools owner cfg = Ok f -> c_LeaseTTLSeconds cfg <= 2 ^ 33 ->
  config_ok cfg /\
  qr_config <$> fl_queues f = c_Queues cfg /\ rc_Channel ∘ qr_channel <$> fl_queues f = seq 0 (length (c_Queues cfg)) /\
  Forall (fun q => rc_WorkerPoolID (qr_channel q) ∈ pools) (fl_queues f) /\
  0 < fl_pollInterval f /\ 0 < fl_batchSize f /\ 0 < fl_resultBatchSize f /\ 0 < fl_handoffTimeout f /\
  0 < 2 * heartbeatInterval f <= fl_leaseTTL f.
Proof.
  intros Hl Hn Hlease. apply LoadConfig_ok in Hl. split; [done|]. unfold NewWithStore in Hn. destruct owner as [owner|]; [|done].
  destruct (queue_runtimes _ _ _ _ _) as [l|] eqn:E; [|done]. injection Hn as <-. apply queue_runtimes_ok in E as (K1 & K2 & K3).
  cbn [fl_queues fl_pollInterval fl_batchSize fl_resultBatchSize fl_handoffTimeout]. split_and!; [done..| | | | | |];
    try (apply or_positive_pos; unfold Minute, Second; lia).
  all: unfold heartbeatInterval; cbn [fl_leaseTTL]; pose proof (co_lease _ Hl) as Hpos.
  all: assert (or_positive (duration (c_LeaseTTLSeconds cfg) Second) (30 * Second) = c_LeaseTTLSeconds cfg * 1000000000) as ->
    by (unfold or_positive, duration, wrap64, Second; rewrite Z.mod_small by lia; destruct (Z.leb_spec (c_LeaseTTLSeconds cfg * 1000000000 + 2 ^ 63 - 2 ^ 63) 0); lia).
  all: unfold Millisecond; rewrite Z.quot_div_nonneg by lia; pose proof (Z.mul_div_le (c_LeaseTTLSeconds cfg * 1000000000) 3); lia.
Qed.

(** ** Batched cancellation checks

    A query is known by a number, as each caller has a reply channel of its own.
    The steps interleave the goroutine that collects a batch, the goroutines
    that flush, the callers and whoever stops the batcher.  A channel select may
    take any branch that is ready, so a query can still be taken after the
    context ended, until the goroutine returns. *)
Definition maxCancelFlushes : nat := 4.

Record query : Type := mkQuery { qy_id : nat; qy_key : Key }.
Record reply : Type := mkReply { rp_id : nat; rp_cancelled : bool; rp_err : bool }.

Record batcher : Type := mkBatcher {
  cb_collecting : option (list query);   (* the batch of the run loop *)
  cb_running : list (list query);        (* flushes in goroutines of their own *)
  cb_last : option (list query);         (* the flush the run loop does itself, stopped *)
  cb_stopped : bool;
  cb_returned : bool;                    (* the run loop has ended, or does its last flush *)
  cb_taken : list query;
  cb_replies : list reply
}.

Definition newCancelBatcher : batcher := mkBatcher None [] None false false [] [].

Section batcher.
Context (size : nat).

(** [flush]: a reply per query, whatever the statement ended with. *)
Definition flush (batch : list query) (s : Store * list fault) : list reply :=
  zip_with (fun q r => mkReply (qy_id q) r.1 r.2) batch (cancelFlush (qy_key <$> batch) s).1.

Inductive batcher_step : batcher -> batcher -> Prop :=
| CB_first b q : cb_returned b = false -> cb_collecting b = None ->
    batcher_step b (mkBatcher (Some [q]) (cb_running b) (cb_last b) (cb_stopped b) false (cb_taken b ++ [q]) (cb_replies b))
| CB_collect b q batch : cb_collecting b = Some batch -> (length batch < size)%nat ->
    batcher_step b (mkBatcher (Some (batch ++ [q])) (cb_running b) (cb_last b) (cb_stopped b) (cb_returned b) (cb_taken b ++ [q]) (cb_replies b))
| CB_spawn b batch : cb_collecting b = Some batch -> (length (cb_running b) < maxCancelFlushes)%nat ->
    batcher_step b (mkBatcher None (batch :: cb_running b) (cb_last b) (cb_stopped b) (cb_returned b) (cb_taken b) (cb_replies b))
| CB_stop b : batcher_step b (mkBatcher (cb_collecting b) (cb_running b) (cb_last b) true (cb_returned b) (cb_taken b) (cb_replies b))
| CB_last b batch : cb_collecting b = Some batch -> cb_stopped b = true ->
    batcher_step b (mkBatcher None (cb_running b) (Some batch) true true (cb_taken b) (cb_replies b))
| CB_return b : cb_collecting b = None -> cb_stopped b = true ->
    batcher_step b (mkBatcher None (cb_running b) (cb_last b) true true (cb_taken b) (cb_replies b))
| CB_flushed b l batch l' s : cb_running b = l ++ batch :: l' ->
    batcher_step b (mkBatcher (cb_collecting b) (l ++ l') (cb_last b) (cb_stopped b) (cb_returned b) (cb_taken b) (cb_replies b ++ flush batch s))
| CB_last_flushed b batch s : cb_last b = Some batch ->
    batcher_step b (mkBatcher (cb_collecting b) (cb_running b) None (cb_stopped b) (cb_returned b) (cb_taken b) (cb_replies b ++ flush batch s)).

Inductive batcher_reaches : batcher -> Prop :=
| CB_init : batcher_reaches newCancelBatcher
| CB_step b b' : batcher_reaches b -> batcher_step b b' -> batcher_reaches b'.

(** The queries that were taken and have no reply yet. *)
Definition in_batches (b : batcher) : list query :=
  default [] (cb_collecting b) ++ mjoin (cb_running b) ++ default [] (cb_last b).

Record batcher_inv (b : batcher) : Prop := mkBatcherInv {
  bi_exact : (qy_id <$> in_batches b) ++ (rp_id <$> cb_replies b) ≡ₚ qy_id <$> cb_taken b;
  bi_running : (length (cb_running b) <= maxCancelFlushes)%nat;
  bi_sizes : Forall (fun batch => (length batch <= max 1 size)%nat) (option_list (cb_collecting b) ++ cb_running b ++ option_list (cb_last b));
  bi_returned : cb_returned b = true -> cb_collecting b = None;
  bi_last : cb_last b <> None -> cb_returned b = true
}.

Lemma cancelFlush_length keys s : length (cancelFlush keys s).1 = length keys.
Proof. unfold cancelFlush. destruct (CancelledKeys _ s). cbn. by rewrite length_fmap. Qed.

Lemma flush_ids batch s : rp_id <$> flush batch s = qy_id <$> batch.
Proof.
  unfold flush. assert (length batch = length (cancelFlush (qy_key <$> batch) s).1) as H by by rewrite cancelFlush_length, length_fmap.
  revert H. generalize (cancelFlush (qy_key <$> batch) s).1. induction batch as [|q batch IH]; intros [|r rs] H; try done. cbn in *. f_equal. apply IH. lia.
Qed.

Lemma exact_take (ids B taken : list nat) q : ids ++ B ≡ₚ taken -> (q :: ids) ++ B ≡ₚ taken ++ [q].
Proof. intros H. cbn. rewrite H. by rewrite Permutation_app_comm. Qed.

Lemma exact_reply (A batch C R taken : list nat) : (A ++ batch ++ C) ++ R ≡ₚ taken -> (A ++ C) ++ R ++ batch ≡ₚ taken.
Proof. intros <-. rewrite <- !app_assoc. f_equiv. rewrite (Permutation_app_comm batch). by rewrite <- !app_assoc. Qed.

Lemma batcher_step_inv b b' : batcher_inv b -> batcher_step b b' -> batcher_inv b'.
Proof.
  intros [He Hr Hs Ht Hlr] Hstep. unfold in_batches in He. rewrite !fmap_app in He.
  inversion Hstep as [? q Hret Hc|? q batch Hc Hl|? batch Hc Hl|?|? batch Hc Hstop|? Hc Hstop|? l batch l' st Hrun|? batch st Hlast]; subst; clear Hstep;
    split; cbn [cb_collecting cb_running cb_last cb_stopped cb_returned cb_taken cb_replies in_batches] in *;
    try (unfold in_batches; cbn [cb_collecting cb_running cb_last]; rewrite !fmap_app); try done.
  - rewrite Hc in He. cbn in He |- *. by apply exact_take.
  - rewrite Hc in Hs. constructor; [cbn; lia|]. by apply Forall_app in Hs as [_ ?].
  - intros H. by rewrite Hlr in Hret.
  - rewrite Hc in He. cbn in He |- *. rewrite <- He, fmap_app. cbn. rewrite <- !app_assoc. f_equiv. cbn. by rewrite Permutation_cons_append, <- !app_assoc.
  - rewrite Hc in Hs. apply Forall_cons_1 in Hs as [Hb Hs]. constructor; [rewrite length_app; cbn; lia|done].
  - intros H. rewrite Ht in Hc by done. done.
  - rewrite Hc in He. rewrite <- He. change (mjoin (batch :: cb_running b)) with (batch ++ mjoin (cb_running b)). cbn. by rewrite fmap_app, <- !app_assoc.
  - rewrite Hc in Hs. done.
  - assert (cb_last b = None) as Hn by (destruct (cb_last b); [|done]; rewrite Ht in Hc by (by apply Hlr); done). rewrite Hc, Hn in He. rewrite <- He. cbn.
    rewrite app_nil_r. by rewrite (Permutation_app_comm (qy_id <$> batch)).
  - rewrite Hc in Hs. cbn in Hs |- *. apply Forall_cons_1 in Hs as [Hb Hs]. apply Forall_app in Hs as [Hs _]. apply Forall_app. by split; [|constructor].
  - by rewrite Hc in He.
  - by rewrite Hc in Hs.
  - rewrite Hrun in He. rewrite flush_ids. rewrite join_app in He |- *. change (mjoin (batch :: l')) with (batch ++ mjoin l') in He.
    rewrite !fmap_app in He. rewrite !fmap_app. rewrite <- He. set (B := qy_id <$> batch).
    rewrite <- !app_assoc. do 2 f_equiv. rewrite (Permutation_app_comm B). by rewrite <- !app_assoc.
  - rewrite Hrun, length_app in Hr. cbn in Hr. rewrite length_app. lia.
  - rewrite Hrun in Hs. apply Forall_app in Hs as [S1 S2]. rewrite <- app_assoc in S2. apply Forall_app in S2 as [S2 S3]. apply Forall_cons_1 in S3 as [_ S3].
    rewrite <- app_assoc. apply Forall_app. split; [done|]. apply Forall_app. by split.
  - rewrite Hlast in He. rewrite flush_ids. rewrite <- He. cbn. rewrite app_nil_r, <- !app_assoc. do 2 f_equiv. apply Permutation_app_comm.
  - apply Forall_app in Hs as [S1 S2]. apply Forall_app in S2 as [S2 _]. rewrite app_nil_r. by apply Forall_app.
Qed.

(** C27. The batcher answers every check it takes exactly once, by one reply of
    the batch the check is in, also when it is stopped in between: whatever the
    interleaving, each query taken is in one batch or has its one reply; at most
    four batches query at once, none longer than the configured size; and once
    the batcher is stopped and its flushes are done, every query has its reply. *)
Theorem cancel_checks_answered b :
  batcher_reaches b ->
  (qy_id <$> in_batches b) ++ (rp_id <$> cb_replies b) ≡ₚ qy_id <$> cb_taken b /\
  (length (cb_running b) <= maxCancelFlushes)%nat /\
  Forall (fun batch => (length batch <= max 1 size)%nat) (option_list (cb_collecting b) ++ cb_running b ++ option_list (cb_last b)) /\
  (cb_returned b = true -> cb_running b = [] -> cb_last b = None -> rp_id <$> cb_replies b ≡ₚ qy_id <$> cb_taken b).
Proof.
  intros Hb. assert (batcher_inv b) as [He Hr Hs Ht _].
  { induction Hb as [|b b' _ IH Hstep]; [|by eapply batcher_step_inv]. split; cbn; [done|unfold maxCancelFlushes; lia|constructor|done|done]. }
  split_and!; [done..|]. intros H1 H2 H3. rewrite <- He. unfold in_batches. by rewrite H2, H3, Ht.
Qed.
End batcher.

Definition w_key : Key := mkKey "r" "t".
Definition w_batcher : batcher := mkBatcher (Some [mkQuery 0 w_key; mkQuery 1 w_key]) [] None false false [mkQuery 0 w_key; mkQuery 1 w_key] [].

Lemma w_batcher_reached : batcher_reaches 2 w_batcher.
Proof.
  eapply CB_step; [eapply CB_step; [apply CB_init|]|].
  - by apply (CB_first 2 newCancelBatcher (mkQuery 0 w_key)).
  - apply (CB_collect 2 (mkBatcher (Some [mkQuery 0 w_key]) [] None false false [mkQuery 0 w_key] []) (mkQuery 1 w_key) [mkQuery 0 w_key]); [done|cbn; lia].
Qed.

Lemma cancel_checks_answered_witness :
  (qy_id <$> in_batches w_batcher) ++ (rp_id <$> cb_replies w_batcher) ≡ₚ qy_id <$> cb_taken w_batcher /\
  (length (cb_running w_batcher) <= maxCancelFlushes)%nat /\
  Forall (fun batch => (length batch <= max 1 2)%nat) (option_list (cb_collecting w_batcher) ++ cb_running w_batcher ++ option_list (cb_last w_batcher)) /\
  (cb_returned w_batcher = true -> cb_running w_batcher = [] -> cb_last w_batcher = None -> rp_id <$> cb_replies w_batcher ≡ₚ qy_id <$> cb_taken w_batcher).
Proof. apply (cancel_checks_answered 2 w_batcher). exact w_batcher_reached. Defined.

Definition w_sql_queue : QueueConfig := mkQueueConfig "" "q" "" 0 "" "" "" "http://igw" "" ∅.
Definition w_sql_config : Config := mkConfig "" "" 0 0 0 false 0 0 0 0 0 [w_sql_queue].
Definition w_loaded : Config := mkConfig "postgres://h" "result-sql" 1000 10 32 false 256 5 30 32 900 [queue_defaults w_sql_queue].
Definition w_flow : Flow unit :=
  mkFlow [mkRuntime (queue_defaults w_sql_queue) (mkRequestChannel 0 "http://igw" "" "/v1/completions" "default") tt] "host-1"
    Second 10 32 (30 * Second) (15 * Minute) "result-sql".

Lemma sql_config_complete_witness :
  config_ok w_loaded /\
  qr_config <$> fl_queues w_flow = c_Queues w_loaded /\ rc_Channel ∘ qr_channel <$> fl_queues w_flow = seq 0 (length (c_Queues w_loaded)) /\
  Forall (fun q => rc_WorkerPoolID (qr_channel q) ∈ ["default"]) (fl_queues w_flow) /\
  0 < fl_pollInterval w_flow /\ 0 < fl_batchSize w_flow /\ 0 < fl_resultBatchSize w_flow /\ 0 < fl_handoffTimeout w_flow /\
  0 < 2 * heartbeatInterval w_flow <= fl_leaseTTL w_flow.
Proof.
  apply (sql_config_complete tt None ["default"] (Some "host-1") "postgres://h" (Some w_sql_config)); [reflexivity|reflexivity|cbn; lia].
Defined.

(** ** Expired results

    [expireResults]: batches of a thousand until one is not full; [locked] are
    the rows other transactions hold. *)
Definition resultExpiryBatch : Z := 1000.

(** [false]: the fuel ran out. *)
Fixpoint expireResults (fuel : nat) (now : Z) (locked : Z -> bool) : DB bool :=
  match fuel with
  | O => f_ret false
  | S fuel => fun s =>
      match ExpireResults now resultExpiryBatch locked s with
      | (Err _, s') => (Ok true, s')
      | (Ok n, s') => if n <? resultExpiryBatch then (Ok true, s') else expireResults fuel now locked s'
      end
  end.

Lemma size_delete_keys (ks : list Z) : forall m : gmap Z ResRow, NoDup ks -> (forall k, k ∈ ks -> is_Some (m !! k)) ->
  (size (delete_where (fun s _ => bool_decide (s ∈ ks)) m) + length ks)%nat = size m.
Proof.
  induction ks as [|k ks IH]; intros m Hnd Hin.
  - assert (delete_where (fun s _ => bool_decide (s ∈ [])) m = m) as ->; [|cbn; lia]. apply map_eq. intros i. rewrite lookup_delete_where.
    destruct (m !! i); [|done]. cbn. by rewrite bool_decide_eq_false_2 by apply not_elem_of_nil.
  - apply NoDup_cons in Hnd as [Hk Hnd]. rewrite <- (IH m Hnd) by (intros; apply Hin; by right). destruct (Hin k) as [r Hr]; [left|].
    assert (delete_where (fun s _ => bool_decide (s ∈ k :: ks)) m = delete k (delete_where (fun s _ => bool_decide (s ∈ ks)) m)) as ->.
    { apply map_eq. intros i. destruct (decide (i = k)) as [->|Hne].
      - rewrite lookup_delete_eq, lookup_delete_where, Hr. cbn. by rewrite bool_decide_eq_true_2 by left.
      - rewrite lookup_delete_ne by done. rewrite !lookup_delete_where. destruct (m !! i); [|done]. cbn.
        assert (bool_decide (i ∈ k :: ks) = bool_decide (i ∈ ks)) as ->; [|done]. apply bool_decide_ext. rewrite elem_of_cons. tauto. }
    assert (delete_where (fun s _ => bool_decide (s ∈ ks)) m !! k = Some r) as Hl by (apply lookup_delete_where_Some; split; [done|by apply bool_decide_eq_false]).
    rewrite map_size_delete_Some by by exists r. cbn.
    assert (size (delete_where (fun s _ => bool_decide (s ∈ ks)) m) <> 0%nat) by (apply map_size_ne_0_lookup; by exists k, r). lia.
Qed.

Lemma ExpireResults_spec now locked st : exists n st', ExpireResults now resultExpiryBatch locked (st, []) = (Ok n, (st', [])) /\
  results st' ⊆ results st /\ (forall s r, results st !! s = Some r -> expired_result now r && negb (locked s) = false -> results st' !! s = Some r) /\
  Z.of_nat (size (results st')) + n = Z.of_nat (size (results st)) /\
  (n < resultExpiryBatch -> forall s r, results st' !! s = Some r -> expired_result now r && negb (locked s) = false).
Proof.
  unfold ExpireResults, exec, f_call, stmt_expire_results. cbn [head tail]. change (resultExpiryBatch <? 0) with false. cbv iota.
  set (P := fun s r => expired_result now r && negb (locked s)). set (all := merge_sort expiry_le (select_where P (results st))).
  set (sel := take (Z.to_nat resultExpiryBatch) all). eexists _, _. split; [reflexivity|]. cbn [results set_results].
  set (D := fun s (_ : ResRow) => bool_decide (s ∈ sel.*1)).
  assert (forall s r, (s, r) ∈ sel -> results st !! s = Some r /\ P s r = true) as Hsel by (intros s r; apply elem_of_limit_where).
  assert (delete_where D (results st) ⊆ results st) as Hsub.
  { apply map_subseteq_spec. intros s r Hs. by apply lookup_delete_where_Some in Hs as [Hs _]. }
  split_and!; [done| | |].
  - intros s r Hs Hp. apply lookup_delete_where_Some. split; [done|]. unfold D. apply bool_decide_eq_false. intros ([s' r'] & Heq & Hin)%list_elem_of_fmap.
    cbn in Heq. subst s'. apply Hsel in Hin as [H1 H2]. rewrite Hs in H1. injection H1 as ->. unfold P in H2. congruence.
  - rewrite <- (size_delete_keys sel.*1 (results st)); [rewrite length_fmap; unfold D; lia|apply NoDup_limit_where|].
    intros k ([k' r] & -> & Hin)%list_elem_of_fmap. apply Hsel in Hin as [Hin _]. by exists r.
  - intros Hn s r Hs. apply lookup_delete_where_Some in Hs as [Hs Hd]. destruct (P s r) eqn:Hp; [exfalso|done].
    assert (sel = all) as Hall by (apply take_ge; unfold sel in Hn; rewrite length_take in Hn; lia).
    unfold D in Hd. apply bool_decide_eq_false in Hd. apply Hd. rewrite Hall. apply list_elem_of_fmap. exists (s, r). split; [done|].
    unfold all. rewrite (merge_sort_Permutation expiry_le). by apply elem_of_select_where.
Qed.

(** Expiry ends and is exact: with fuel for the number of results, all that have
    expired and are not held by another transaction are gone, and no other. *)
Theorem expireResults_exact now locked fuel : forall st, (size (results st) < fuel)%nat ->
  exists st', expireResults fuel now locked (st, []) = (Ok true, (st', [])) /\
    forall s r, results st' !! s = Some r <-> results st !! s = Some r /\ expired_result now r && negb (locked s) = false.
Proof.
  induction fuel as [|fuel IH]; intros st Hf; [lia|]. cbn [expireResults].
  destruct (ExpireResults_spec now locked st) as (n & st1 & -> & Hsub & Hkeep & Hsz & Hdone). destruct (Z.ltb_spec n resultExpiryBatch) as [Hn|Hn].
  - exists st1. split; [done|]. intros s r. split; [|by intros []; apply Hkeep]. intros Hs. split; [by eapply lookup_weaken|]. by eapply Hdone.
  - unfold resultExpiryBatch in Hn. destruct (IH st1) as (st2 & -> & Hspec); [lia|]. exists st2. split; [done|]. intros s r. rewrite Hspec. split.
    + intros [Hs He]. split; [by eapply lookup_weaken|done].
    + intros [Hs He]. split; [by apply Hkeep|done].
Qed.
