(* ===== verification/AdmitBatch.v ===== *)
(** * Batched admission (pkg/sqlflow/quota.go: admitBatcher)

    Callers that ask for the same key while a statement runs share the next one.
    Per key: the callers in the order they arrived, the flush goroutine with the
    batch it serves and those who wait for the next, and the replies made so far.
    A caller whose context ends gives up; the flush that serves it then hands the
    reply to its abandoned function, where it passed one: the callers of the slots
    do, to give the slot back, and those of the rates pass nil.  Each line of the code that takes the lock,
    swaps a waiter's state or ends a statement is a step, and the steps of all
    callers and keys interleave. *)
From stdpp Require Import prelude gmap strings list.
From Stdlib Require Import ZArith Lia.
From S2P Require Import Prelude.

#[local] Open Scope list_scope.
#[local] Open Scope nat_scope.

Record admitReply : Type := mkReply { ar_ok : bool; ar_err : bool }.

(** The waiter's state, until it is served with whether it has an abandoned
    function, and then with what became of its reply: sent to the caller, given to
    the function, or lost, where the caller had given up and passed none. *)
Inductive admitWaiter : Type :=
| waiterPending (abandoned : bool)
| waiterAbandoned (abandoned : bool)
| waiterAnswered (r : admitReply)
| waiterGiven (r : admitReply)
| waiterLost (r : admitReply).

(** The flush goroutine of a key: about to take the waiting, with a statement
    running, or replying to what is left of its batch. *)
Inductive flusher : Type :=
| NoFlush
| Taking
| Running (batch : list nat)
| Replying (batch : list nat) (granted : nat) (err : bool).

Record admitQueue : Type := mkQueue {
  q_arrived : list nat;                     (* every caller of the key, in order *)
  q_waiting : list nat;
  q_flush : flusher;
  q_replies : list (nat * admitReply);      (* in the order made *)
  q_granted : nat                           (* what the statements granted, in all *)
}.

Definition no_queue : admitQueue := mkQueue [] [] NoFlush [] 0.

Section batcher.
Context {K : Type} `{Countable K}.
(** Whether the callers of a key pass a function. *)
Context (passes : K -> bool).

Record admitBatcher : Type := mkBatcher {
  ab_queues : gmap K admitQueue;
  ab_waiters : gmap nat admitWaiter;
  ab_closed : bool
}.

Definition newAdmitBatcher : admitBatcher := mkBatcher ∅ ∅ false.

Definition queue_of (b : admitBatcher) (k : K) : admitQueue := default no_queue (ab_queues b !! k).
Definition set_queue (b : admitBatcher) (k : K) (q : admitQueue) : admitBatcher :=
  mkBatcher (<[k := q]> (ab_queues b)) (ab_waiters b) (ab_closed b).
Definition set_waiter (b : admitBatcher) (w : nat) (x : admitWaiter) : admitBatcher :=
  mkBatcher (ab_queues b) (<[w := x]> (ab_waiters b)) (ab_closed b).

(** The batcher's admit up to its unlock: the key's flush is started where there is none, and
    refused when the store is closed. *)
Definition ab_admit (w : nat) (k : K) (abandoned : bool) (b : admitBatcher) : option admitBatcher :=
  let q := queue_of b k in
  match q_flush q, ab_closed b with
  | NoFlush, true => None
  | f, _ => Some (set_waiter (set_queue b k (mkQueue (q_arrived q ++ [w]) (q_waiting q ++ [w])
                     (match f with NoFlush => Taking | f => f end) (q_replies q) (q_granted q))) w (waiterPending abandoned))
  end.

(** The context of a caller ends before its reply. *)
Definition abandon (w : nat) (b : admitBatcher) : admitBatcher :=
  match ab_waiters b !! w with Some (waiterPending fn) => set_waiter b w (waiterAbandoned fn) | _ => b end.

(** [flush]: under the lock, the waiting become the batch, or the queue goes. *)
Definition flush_take (k : K) (b : admitBatcher) : admitBatcher :=
  let q := queue_of b k in
  match q_flush q with
  | Taking => set_queue b k (mkQueue (q_arrived q) [] (match q_waiting q with [] => NoFlush | batch => Running batch end) (q_replies q) (q_granted q))
  | _ => b
  end.

(** The statement's answer: what it granted, or an error. *)
Definition flush_run (k : K) (granted : nat) (err : bool) (b : admitBatcher) : admitBatcher :=
  let q := queue_of b k in
  match q_flush q with
  | Running batch =>
      let granted := if err then 0 else granted in
      set_queue b k (mkQueue (q_arrived q) (q_waiting q) (Replying batch granted err) (q_replies q) (q_granted q + granted))
  | _ => b
  end.

(** One waiter of the batch is answered, or its abandoned function, if it is not
    nil, called. *)
Definition reply_to (x : admitWaiter) (r : admitReply) : admitWaiter :=
  match x with
  | waiterPending _ => waiterAnswered r
  | waiterAbandoned abandoned => if abandoned then waiterGiven r else waiterLost r
  | x => x
  end.

Definition flush_reply (k : K) (b : admitBatcher) : admitBatcher :=
  let q := queue_of b k in
  match q_flush q with
  | Replying [] _ _ => set_queue b k (mkQueue (q_arrived q) (q_waiting q) Taking (q_replies q) (q_granted q))
  | Replying (w :: batch) granted err =>
      let r := mkReply (negb err && (0 <? granted)) err in
      set_waiter (set_queue b k (mkQueue (q_arrived q) (q_waiting q) (Replying batch (granted - 1) err) (q_replies q ++ [(w, r)]) (q_granted q)))
        w (reply_to (default (waiterPending false) (ab_waiters b !! w)) r)
  | _ => b
  end.

Definition batch_of (f : flusher) : list nat :=
  match f with Running batch | Replying batch _ _ => batch | _ => [] end.

(** A statement grants no more than it is asked for. *)
Inductive ab_step (b : admitBatcher) : admitBatcher -> Prop :=
| Admit w k b' : ab_waiters b !! w = None -> ab_admit w k (passes k) b = Some b' -> ab_step b b'
| GiveUp w : ab_step b (abandon w b)
| Take k : ab_step b (flush_take k b)
| Answer k granted err : granted <= length (batch_of (q_flush (queue_of b k))) -> ab_step b (flush_run k granted err b)
| Reply k : ab_step b (flush_reply k b)
| CloseStore : ab_step b (mkBatcher (ab_queues b) (ab_waiters b) true).

(** ** The invariant *)
Definition oks (l : list (nat * admitReply)) : nat := length (filter (fun wr => ar_ok wr.2 = true) l).

(** What the replies still to come will grant. *)
Definition to_grant (f : flusher) : nat := match f with Replying _ granted _ => granted | _ => 0 end.

(** The end of a reply whose caller had given up. *)
Definition unheard (abandoned : bool) (r : admitReply) : admitWaiter := if abandoned then waiterGiven r else waiterLost r.

Definition queue_ok (b : admitBatcher) (k : K) : Prop :=
  let q := queue_of b k in
  q_arrived q = (q_replies q).*1 ++ batch_of (q_flush q) ++ q_waiting q /\
  oks (q_replies q) + to_grant (q_flush q) = q_granted q /\
  (q_flush q = NoFlush -> q_waiting q = []) /\
  to_grant (q_flush q) <= length (batch_of (q_flush q)) /\
  match q_flush q with Replying _ g err => err = true -> g = 0 | _ => True end /\
  NoDup (q_arrived q) /\
  (forall w, w ∈ batch_of (q_flush q) ++ q_waiting q -> ab_waiters b !! w = Some (waiterPending (passes k)) \/ ab_waiters b !! w = Some (waiterAbandoned (passes k))) /\
  (forall w r, (w, r) ∈ q_replies q -> ab_waiters b !! w = Some (waiterAnswered r) \/ ab_waiters b !! w = Some (unheard (passes k) r)).

Definition arrived_at (b : admitBatcher) (w : nat) (k : K) : Prop := w ∈ q_arrived (queue_of b k).

Record batcher_ok (b : admitBatcher) : Prop := {
  bo_queues : forall k, queue_ok b k;
  bo_known : forall w k, arrived_at b w k -> is_Some (ab_waiters b !! w);
  bo_once : forall w k k', arrived_at b w k -> arrived_at b w k' -> k = k';
  bo_has : forall w, is_Some (ab_waiters b !! w) -> exists k, arrived_at b w k
}.

(** ** Proofs *)
Lemma queue_of_set b k k' q : queue_of (set_queue b k q) k' = if decide (k = k') then q else queue_of b k'.
Proof.
  unfold queue_of, set_queue. cbn [ab_queues]. case_decide as E; [subst; by rewrite lookup_insert_eq|by rewrite lookup_insert_ne].
Qed.
Lemma queue_of_waiter b w x k : queue_of (set_waiter b w x) k = queue_of b k.
Proof. done. Qed.

Lemma queue_ok_frame b b' k : queue_of b' k = queue_of b k -> (forall w, arrived_at b w k -> ab_waiters b' !! w = ab_waiters b !! w) ->
  queue_ok b k -> queue_ok b' k.
Proof.
  unfold queue_ok, arrived_at. intros -> Hw (H1 & H2 & H3 & H4 & H5 & H6 & H7 & H8). split_and!; try done.
  - intros w Hin. rewrite Hw; [by apply H7|]. rewrite H1. set_solver.
  - intros w r Hin. rewrite Hw; [by apply H8|]. rewrite H1. apply elem_of_app. left. by apply (list_elem_of_fmap_2 fst) in Hin.
Qed.

(** A step of one key, on a waiter that is its own. *)
Lemma batcher_ok_step b k q (upd : option (nat * admitWaiter)) :
  let b' := match upd with Some (w, x) => set_waiter (set_queue b k q) w x | None => set_queue b k q end in
  batcher_ok b -> queue_ok b' k ->
  match upd with
  | Some (w, _) => (q_arrived q = q_arrived (queue_of b k) /\ w ∈ q_arrived q) \/
                   (q_arrived q = q_arrived (queue_of b k) ++ [w] /\ ab_waiters b !! w = None)
  | None => q_arrived q = q_arrived (queue_of b k)
  end -> batcher_ok b'.
Proof.
  intros b' [Hq Hknown Honce Hhas] Hk Hupd.
  assert (Hat : forall w k', arrived_at b' w k' -> arrived_at b w k' \/ (k' = k /\ exists x, upd = Some (w, x) /\ ab_waiters b !! w = None)).
  { intros w k'. unfold arrived_at, b'. destruct upd as [[w0 x]|]; rewrite ?queue_of_waiter, queue_of_set; (case_decide; [subst k'|by left]).
    - destruct Hupd as [[-> _]|[-> Hn]]; [by left|]. rewrite elem_of_app, list_elem_of_singleton. intros [?| ->]; [by left|right; eauto].
    - rewrite Hupd. by left. }
  assert (Hat' : forall w k', arrived_at b w k' -> arrived_at b' w k').
  { intros w k'. unfold arrived_at, b'. destruct upd as [[w0 x]|]; rewrite ?queue_of_waiter, queue_of_set; (case_decide; [subst k'|done]).
    - destruct Hupd as [[-> _]|[-> _]]; set_solver.
    - by rewrite Hupd. }
  assert (Hw : forall w, is_Some (ab_waiters b !! w) -> is_Some (ab_waiters b' !! w)).
  { intros w Hs. unfold b'. destruct upd as [[w0 x]|]; [|done]. cbn. destruct (decide (w0 = w)) as [->|]; [by rewrite lookup_insert_eq|by rewrite lookup_insert_ne]. }
  split.
  - intros k'. destruct (decide (k = k')) as [->|Hne]; [done|]. apply (queue_ok_frame b); [| |apply Hq].
    + unfold b'. destruct upd as [[w0 x]|]; rewrite ?queue_of_waiter, queue_of_set; by case_decide.
    + intros w Hin. unfold b'. destruct upd as [[w0 x]|]; [|done]. cbn. apply lookup_insert_ne. intros ->.
      destruct Hupd as [[Ha Hin']|[_ Hn]].
      * apply Hne. apply (Honce w); [unfold arrived_at; by rewrite <- Ha|done].
      * apply Hknown in Hin. rewrite Hn in Hin. by destruct Hin.
  - intros w k' [Ho|(-> & x & -> & Hn)]%Hat; [by eapply Hw, Hknown|]. unfold b'. cbn. by rewrite lookup_insert_eq.
  - intros w k1 k2 [H1|(-> & x & -> & Hn)]%Hat [H2|(-> & y & Hy & Hn')]%Hat; [by eapply Honce| | |done].
    + apply Hknown in H1. rewrite Hn' in H1. by destruct H1.
    + apply Hknown in H2. rewrite Hn in H2. by destruct H2.
  - intros w Hs. destruct (decide (is_Some (ab_waiters b !! w))) as [Hb|Hb]; [destruct (Hhas w Hb) as (k' & Hk'); exists k'; by apply Hat'|].
    unfold b' in *. destruct upd as [[w0 x]|]; [|done]. cbn in Hs. destruct (decide (w0 = w)) as [->|]; [|by rewrite lookup_insert_ne in Hs].
    exists k. unfold arrived_at. rewrite queue_of_waiter, queue_of_set, decide_True by done. destruct Hupd as [[_ ?]|[-> _]]; [done|set_solver].
Qed.

Lemma set_queue_same b k w : arrived_at b w k -> set_queue b k (queue_of b k) = b.
Proof.
  unfold arrived_at, queue_of, set_queue. destruct (ab_queues b !! k) as [q|] eqn:E; cbn; [|by intros ?%not_elem_of_nil].
  intros _. rewrite insert_id by done. by destruct b.
Qed.

Lemma abandon_ok w b : batcher_ok b -> batcher_ok (abandon w b).
Proof.
  intros Hb. unfold abandon. destruct (ab_waiters b !! w) as [[fn| | | |]|] eqn:Hw; try done.
  destruct (bo_has b Hb w) as (k & Hk); [by rewrite Hw|]. rewrite <- (set_queue_same b k w Hk).
  refine (batcher_ok_step b k (queue_of b k) (Some (w, waiterAbandoned fn)) Hb _ _); [|left; by split].
  destruct (bo_queues b Hb k) as (H1 & H2 & H3 & H4 & H5 & H6 & H7 & H8). unfold queue_ok. rewrite queue_of_waiter, queue_of_set, decide_True by done.
  split_and!; try done; cbn [set_waiter set_queue ab_waiters].
  - intros w' Hin. destruct (decide (w = w')) as [->|]; [right; rewrite lookup_insert_eq; destruct (H7 _ Hin); congruence|]. rewrite lookup_insert_ne by done. by apply H7.
  - intros w' r Hin. destruct (decide (w = w')) as [->|]; [|rewrite lookup_insert_ne by done; by apply H8].
    destruct (H8 _ _ Hin) as [E|E]; rewrite Hw in E; [done|]. unfold unheard in E. by destruct (passes k).
Qed.

Lemma ab_admit_ok w k b b' : batcher_ok b -> ab_waiters b !! w = None -> ab_admit w k (passes k) b = Some b' -> batcher_ok b'.
Proof.
  intros Hb Hw. unfold ab_admit. set (q := queue_of b k). set (f := match q_flush q with NoFlush => Taking | f => f end).
  set (q' := mkQueue (q_arrived q ++ [w]) (q_waiting q ++ [w]) f (q_replies q) (q_granted q)). intros Ha.
  assert (Hb' : b' = set_waiter (set_queue b k q') w (waiterPending (passes k))) by (destruct (q_flush q), (ab_closed b); by simplify_eq). subst b'. clear Ha.
  destruct (bo_queues b Hb k) as (H1 & H2 & H3 & H4 & H5 & H6 & H7 & H8). fold q in H1, H2, H3, H4, H5, H6, H7, H8.
  assert (Hfresh : w ∉ q_arrived q). { intros Hin. destruct (bo_known b Hb w k Hin) as [x Hx]. by rewrite Hw in Hx. }
  assert (Hf : batch_of f = batch_of (q_flush q) /\ to_grant f = to_grant (q_flush q)) by (unfold f; by destruct (q_flush q)). destruct Hf as [Hf1 Hf2].
  apply (batcher_ok_step b k q' (Some (w, waiterPending (passes k))) Hb); [|right; by split].
  unfold queue_ok. rewrite queue_of_waiter, queue_of_set, decide_True by done. cbn [q' q_arrived q_waiting q_flush q_replies q_granted].
  split_and!.
  - rewrite Hf1, H1 at 1. by rewrite <- !app_assoc.
  - by rewrite Hf2.
  - unfold f. by destruct (q_flush q).
  - by rewrite Hf1, Hf2.
  - unfold f. by destruct (q_flush q).
  - apply list.NoDup_app. split_and!; [done| |apply NoDup_singleton]. intros x Hx ->%list_elem_of_singleton. done.
  - rewrite Hf1. intros w' Hin. cbn. destruct (decide (w = w')) as [->|]; [left; by rewrite lookup_insert_eq|]. rewrite lookup_insert_ne by done. apply H7. set_solver.
  - intros w' r Hin. cbn. rewrite lookup_insert_ne; [by apply H8|]. intros ->. apply Hfresh. rewrite H1. apply elem_of_app. left.
    by apply (list_elem_of_fmap_2 fst) in Hin.
Qed.

Lemma flush_take_ok k b : batcher_ok b -> batcher_ok (flush_take k b).
Proof.
  intros Hb. unfold flush_take. destruct (q_flush (queue_of b k)) eqn:Hf; try done.
  destruct (bo_queues b Hb k) as (H1 & H2 & H3 & H4 & H5 & H6 & H7 & H8). rewrite Hf in *. cbn [batch_of to_grant app] in *.
  apply (batcher_ok_step b k _ None Hb); [|done].
  unfold queue_ok. rewrite queue_of_set, decide_True by done. cbn [q_arrived q_waiting q_flush q_replies q_granted].
  destruct (q_waiting (queue_of b k)) eqn:Hq; cbn [batch_of to_grant]; split_and!; try done; try (cbn; lia); rewrite ?app_nil_r in *; done.
Qed.

Lemma flush_run_ok k granted err b : batcher_ok b -> granted <= length (batch_of (q_flush (queue_of b k))) -> batcher_ok (flush_run k granted err b).
Proof.
  intros Hb Hg. unfold flush_run. destruct (q_flush (queue_of b k)) as [| |batch|] eqn:Hf; try done.
  destruct (bo_queues b Hb k) as (H1 & H2 & H3 & H4 & H5 & H6 & H7 & H8). rewrite Hf in *. cbn [batch_of to_grant] in *.
  apply (batcher_ok_step b k _ None Hb); [|done].
  unfold queue_ok. rewrite queue_of_set, decide_True by done. cbn [q_arrived q_waiting q_flush q_replies q_granted batch_of to_grant].
  split_and!; try done; destruct err; try done; lia.
Qed.

Lemma oks_snoc l w r : oks (l ++ [(w, r)]) = oks l + (if ar_ok r then 1 else 0).
Proof.
  unfold oks. rewrite filter_app, length_app. f_equal. destruct r as [[|] e]; cbn [ar_ok].
  - by rewrite filter_cons_True.
  - by rewrite filter_cons_False.
Qed.

Lemma flush_reply_ok k b : batcher_ok b -> batcher_ok (flush_reply k b).
Proof.
  intros Hb. unfold flush_reply. destruct (q_flush (queue_of b k)) as [| | |[|w batch] g err] eqn:Hf; try done;
    destruct (bo_queues b Hb k) as (H1 & H2 & H3 & H4 & H5 & H6 & H7 & H8); rewrite Hf in *; cbn [batch_of to_grant] in *.
  - apply (batcher_ok_step b k _ None Hb); [|done].
    unfold queue_ok. rewrite queue_of_set, decide_True by done. cbn [q_arrived q_waiting q_flush q_replies q_granted batch_of to_grant].
    split_and!; try done; try (cbn in *; lia).
  - set (r := mkReply (negb err && (0 <? g)) err). set (q' := mkQueue _ _ _ _ _). set (x := reply_to _ r).
    apply (batcher_ok_step b k q' (Some (w, x)) Hb); [|left; split; [done|cbn; rewrite H1; set_solver]].
    assert (Hx : x = waiterAnswered r \/ x = unheard (passes k) r).
    { unfold x. destruct (H7 w ltac:(set_solver)) as [-> | ->]; [by left|by right]. }
    rewrite H1 in H6. apply list.NoDup_app in H6 as (Hnd1 & Hdis & Hnd2). rewrite <- app_comm_cons in Hnd2. apply NoDup_cons in Hnd2 as (Hw & Hnd2).
    unfold queue_ok. rewrite queue_of_waiter, queue_of_set, decide_True by done. cbn [q' q_arrived q_waiting q_flush q_replies q_granted batch_of to_grant].
    split_and!.
    + rewrite fmap_app, <- app_assoc. exact H1.
    + rewrite oks_snoc. unfold r. cbn [ar_ok]. destruct err; cbn [negb andb].
      * rewrite H5 in * by done. cbn in *. lia.
      * destruct (Nat.ltb_spec 0 g); lia.
    + done.
    + cbn in H4. lia.
    + intros ->. rewrite H5 by done. done.
    + rewrite H1. apply list.NoDup_app. split_and!; [done|done|]. by apply NoDup_cons.
    + intros w' Hin. cbn. rewrite lookup_insert_ne by (intros ->; set_solver). apply H7. set_solver.
    + intros w' r' [Hin|Hin%list_elem_of_singleton]%elem_of_app.
      * cbn. rewrite lookup_insert_ne; [by apply H8|]. intros ->. apply (Hdis w'); [by apply (list_elem_of_fmap_2 fst) in Hin|set_solver].
      * simplify_eq. cbn. rewrite lookup_insert_eq. destruct Hx as [-> | ->]; [by left|by right].
Qed.

Lemma ab_step_ok b b' : batcher_ok b -> ab_step b b' -> batcher_ok b'.
Proof.
  intros Hb []; [by eapply ab_admit_ok|by apply abandon_ok|by apply flush_take_ok|by apply flush_run_ok|by apply flush_reply_ok|].
  destruct Hb as [Hq Hk Ho Hh]. split; done.
Qed.

Lemma start_ok : batcher_ok newAdmitBatcher.
Proof.
  split.
  - intros k. unfold queue_ok, queue_of. cbn. rewrite lookup_empty. cbn. split_and!; try done; try (intros; by apply not_elem_of_nil in H0). constructor.
  - intros w k. unfold arrived_at, queue_of. cbn. rewrite lookup_empty. by intros ?%not_elem_of_nil.
  - intros w k k'. unfold arrived_at, queue_of. cbn. rewrite lookup_empty. by intros ?%not_elem_of_nil.
  - intros w [x Hx]. cbn in Hx. by rewrite lookup_empty in Hx.
Qed.

Lemma reach_batcher_ok b : rtc ab_step newAdmitBatcher b -> batcher_ok b.
Proof.
  intros Hr. assert (H0 := start_ok). induction Hr as [|b0 b1 b2 Hs _ IH]; [done|]. apply IH. by eapply ab_step_ok.
Qed.

(** The flush alone, from wherever it is, serves everyone of its key. *)
Lemma replying_drains k batch b g err : q_flush (queue_of b k) = Replying batch g err ->
  exists b', rtc ab_step b b' /\ q_flush (queue_of b' k) = Taking /\ q_waiting (queue_of b' k) = q_waiting (queue_of b k) /\
    q_arrived (queue_of b' k) = q_arrived (queue_of b k).
Proof.
  revert b g. induction batch as [|w batch IH]; intros b g Hf.
  - exists (flush_reply k b). split; [apply rtc_once, Reply|]. unfold flush_reply. rewrite Hf. by rewrite queue_of_set, decide_True by done.
  - destruct (IH (flush_reply k b) (g - 1)) as (b' & Hr & H1 & H2 & H3).
    { unfold flush_reply. rewrite Hf. by rewrite queue_of_waiter, queue_of_set, decide_True by done. }
    exists b'. split; [eapply rtc_l; [apply (Reply _ k)|done]|]. unfold flush_reply in H2, H3. rewrite Hf in H2, H3.
    rewrite queue_of_waiter, queue_of_set, decide_True in H2, H3 by done. done.
Qed.

Lemma taking_drains k b : q_flush (queue_of b k) = Taking ->
  exists b', rtc ab_step b b' /\ q_flush (queue_of b' k) = NoFlush /\ q_arrived (queue_of b' k) = q_arrived (queue_of b k).
Proof.
  intros Hf. assert (Hend : forall b0, q_flush (queue_of b0 k) = Taking -> q_waiting (queue_of b0 k) = [] ->
    exists b', rtc ab_step b0 b' /\ q_flush (queue_of b' k) = NoFlush /\ q_arrived (queue_of b' k) = q_arrived (queue_of b0 k)).
  { intros b0 Hf0 Hw0. exists (flush_take k b0). split; [apply rtc_once, Take|]. unfold flush_take. rewrite Hf0, Hw0. by rewrite queue_of_set, decide_True by done. }
  destruct (q_waiting (queue_of b k)) as [|w ws] eqn:Hw; [by apply Hend|].
  set (b1 := flush_take k b). assert (H1 : queue_of b1 k = mkQueue (q_arrived (queue_of b k)) [] (Running (w :: ws)) (q_replies (queue_of b k)) (q_granted (queue_of b k))).
  { unfold b1, flush_take. rewrite Hf, Hw. by rewrite queue_of_set, decide_True by done. }
  set (b2 := flush_run k 0 true b1). assert (H2 : q_flush (queue_of b2 k) = Replying (w :: ws) 0 true /\ q_waiting (queue_of b2 k) = [] /\
    q_arrived (queue_of b2 k) = q_arrived (queue_of b k)).
  { unfold b2, flush_run. rewrite H1. cbn [q_flush]. by rewrite queue_of_set, decide_True by done. }
  destruct H2 as (H2 & H3 & H4). destruct (replying_drains k _ b2 _ _ H2) as (b3 & Hr3 & H5 & H6 & H7).
  destruct (Hend b3 H5) as (b4 & Hr4 & H8 & H9); [congruence|]. exists b4. split; [|split; [done|congruence]].
  eapply rtc_l; [apply (Take _ k)|]. eapply rtc_l; [apply (Answer _ k 0 true); lia|]. etrans; [exact Hr3|exact Hr4].
Qed.

Lemma flush_drains k b : exists b', rtc ab_step b b' /\ q_flush (queue_of b' k) = NoFlush /\ q_arrived (queue_of b' k) = q_arrived (queue_of b k).
Proof.
  destruct (q_flush (queue_of b k)) as [| |batch|batch g err] eqn:Hf.
  - by exists b.
  - by apply taking_drains.
  - destruct (replying_drains k batch (flush_run k 0 true b) 0 true) as (b2 & Hr & H1 & _ & H3).
    { unfold flush_run. rewrite Hf. by rewrite queue_of_set, decide_True by done. }
    destruct (taking_drains k b2 H1) as (b3 & Hr3 & H4 & H5). exists b3. split; [|split; [done|]].
    + eapply rtc_l; [apply (Answer _ k 0 true); rewrite Hf; cbn; lia|]. by etrans.
    + rewrite H5, H3. unfold flush_run. rewrite Hf. by rewrite queue_of_set, decide_True by done.
  - destruct (replying_drains k batch b g err Hf) as (b2 & Hr & H1 & _ & H3). destruct (taking_drains k b2 H1) as (b3 & Hr3 & H4 & H5).
    exists b3. split; [by etrans|]. split; [done|congruence].
Qed.

End batcher.

(** Key 0 is a slot's and key 1 a rate's.  On each two callers share a statement
    that grants one, and the first had given up: the slot is given back, and the
    admission to the window is used up. *)
Definition w_passes (k : nat) : bool := bool_decide (k = 0).
Definition w_batch (k : nat) : admitBatcher (K := nat) :=
  flush_reply k (flush_reply k (flush_run k 1 false (flush_take k (abandon 1
    (default newAdmitBatcher (ab_admit 2 k (w_passes k) (default newAdmitBatcher (ab_admit 1 k (w_passes k) newAdmitBatcher)))))))).

Lemma w_batch_reached k : k = 0 \/ k = 1 -> rtc (ab_step w_passes) newAdmitBatcher (w_batch k).
Proof.
  intros Hk. eapply rtc_l; [apply (Admit _ _ 1 k); destruct Hk as [-> | ->]; reflexivity|].
  eapply rtc_l; [apply (Admit _ _ 2 k); destruct Hk as [-> | ->]; reflexivity|]. eapply rtc_l; [apply (GiveUp _ _ 1)|].
  eapply rtc_l; [apply (Take _ _ k)|]. eapply rtc_l; [apply (Answer _ _ k 1 false); destruct Hk as [-> | ->]; vm_compute; lia|].
  eapply rtc_l; [apply (Reply _ _ k)|]. eapply rtc_l; [apply (Reply _ _ k)|]. destruct Hk as [-> | ->]; reflexivity.
Qed.

