(* ===== verification/Migrate.v ===== *)
(** * Schema migrations (producer-sql/sqlqueue/migrate/migrate.go)

    The migrations a binary carries, and what [Run] and [Check] do to a database
    that several binaries start on at the same time: each statement is a step, the
    statements of a transaction take effect at its commit, and the advisory lock is
    exclusive for [Run] and shared for [Check].  Any statement may fail, and a
    commit may succeed without its answer; the deferred rollback then ends the
    transaction and lets the lock go. *)
From stdpp Require Import prelude gmap strings list.
From Stdlib Require Import ZArith Lia Ascii.
From S2P Require Import Prelude.

#[local] Open Scope string_scope.
#[local] Open Scope list_scope.
#[local] Open Scope Z_scope.

(** ** The migrations of a binary *)
Record migration : Type := mkMigration { mg_version : Z; mg_name : string; mg_sql : string }.

Inductive MigrateErr : Type :=
| ErrFileName (name : string)
| ErrRead (name : string)
| ErrNotContiguous (version : Z) (position : nat)
| ErrSchemaMissing
| ErrSchemaBehind (current : Z) (expected : nat)
| ErrDatabase.

Definition digit (c : ascii) : option Z :=
  let n := Z.of_nat (nat_of_ascii c) in if (48 <=? n) && (n <=? 57) then Some (n - 48) else None.
Definition name_char (c : ascii) : bool :=
  let n := Z.of_nat (nat_of_ascii c) in ((97 <=? n) && (n <=? 122)) || ((48 <=? n) && (n <=? 57)) || (n =? 95).

(** [[a-z0-9_]+\.sql], to the end: the name before the suffix. *)
Fixpoint sql_name (s : string) : option string :=
  match s with
  | "" => None
  | String c rest =>
      if bool_decide (s = ".sql") then Some ""
      else if name_char c then String c <$> sql_name rest else None
  end.

(** [^(\d{4})_([a-z0-9_]+)\.sql$]: the version and the name. *)
Definition fileNamePattern (s : string) : option (Z * string) :=
  match s with
  | String a (String b (String c (String d (String u rest)))) =>
      a ← digit a; b ← digit b; c ← digit c; d ← digit d;
      if bool_decide (u = "_"%char) then
        name ← sql_name rest;
        if bool_decide (name = "") then None else Some (((a * 10 + b) * 10 + c) * 10 + d, name)
      else None
  | _ => None
  end.

(** The files of the directory in the order of their names, each with its text. *)
Fixpoint parse_files (entries : list (string * option string)) : Res MigrateErr (list migration) :=
  match entries with
  | [] => Ok []
  | (name, body) :: rest =>
      match fileNamePattern name with
      | None => Err (ErrFileName name)
      | Some (version, short) =>
          match body with
          | None => Err (ErrRead name)
          | Some sql => match parse_files rest with Ok ms => Ok (mkMigration version short sql :: ms) | Err e => Err e end
          end
      end
  end.

Fixpoint check_contiguous (i : nat) (ms : list migration) : Res MigrateErr unit :=
  match ms with
  | [] => Ok tt
  | m :: rest => if mg_version m =? Z.of_nat i + 1 then check_contiguous (S i) rest else Err (ErrNotContiguous (mg_version m) (S i))
  end.

Definition load (entries : list (string * option string)) : Res MigrateErr (list migration) :=
  match parse_files entries with
  | Err e => Err e
  | Ok ms => match check_contiguous 0 ms with Ok _ => Ok ms | Err e => Err e end
  end.

(** ** The database *)
Record database : Type := mkDb {
  db_versions : option (list (Z * string));   (* the rows of the version table; [None]: no such table *)
  db_sql : list string                        (* the migrations that ran, in order *)
}.

(** What a transaction has done so far. *)
Record transaction : Type := mkTx { tx_created : bool; tx_versions : list (Z * string); tx_sql : list string }.
Definition begin : transaction := mkTx false [] [].

(** The database as the transaction sees it, and as its commit leaves it. *)
Definition view (d : database) (t : transaction) : database :=
  mkDb (match db_versions d with
        | Some rows => Some (rows ++ tx_versions t)
        | None => if tx_created t then Some (tx_versions t) else None
        end) (db_sql d ++ tx_sql t).

Definition max_version (rows : list (Z * string)) : Z := foldr Z.max 0 rows.*1.

Definition readVersion (d : database) : Res MigrateErr Z :=
  match db_versions d with Some rows => Ok (max_version rows) | None => Err ErrSchemaMissing end.

(** The primary key of the version table. *)
Definition insertVersion (d : database) (t : transaction) (m : migration) : option transaction :=
  match db_versions (view d t) with
  | Some rows => if bool_decide (mg_version m ∈ rows.*1) then None
                 else Some (mkTx (tx_created t) (tx_versions t ++ [(mg_version m, mg_name m)]) (tx_sql t))
  | None => None
  end.

(** ** The processes *)
Inductive pc : Type :=
| RunStart (ms : list migration)
| RunLock (ms : list migration)
| RunTable (ms : list migration)
| RunRead (ms : list migration)
| RunLoop (ms : list migration) (current : Z) (todo : list migration)
| RunRecord (ms : list migration) (current : Z) (m : migration) (todo : list migration)
| CheckStart (ms : list migration)
| CheckLock (ms : list migration)
| CheckRead (ms : list migration)
| Finished (ms : list migration) (r : Res MigrateErr unit).

Record system : Type := mkSystem {
  sy_db : database;
  sy_lock : option (nat * transaction);   (* the holder of the exclusive lock, and its transaction *)
  sy_shared : gset nat;                   (* the holders of the shared lock *)
  sy_procs : gmap nat pc
}.

Definition move (s : system) (i : nat) (p : pc) : system := mkSystem (sy_db s) (sy_lock s) (sy_shared s) (<[i := p]> (sy_procs s)).

(** A transaction that ends, committed or not, lets its lock go. *)
Definition unlock (s : system) (i : nat) : system :=
  mkSystem (sy_db s) (match sy_lock s with Some (j, t) => if bool_decide (j = i) then None else Some (j, t) | None => None end)
    (sy_shared s ∖ {[i]}) (sy_procs s).
Definition commit (s : system) (i : nat) (t : transaction) : system :=
  unlock (mkSystem (view (sy_db s) t) (sy_lock s) (sy_shared s) (sy_procs s)) i.
Definition in_tx (s : system) (i : nat) (t : transaction) : system := mkSystem (sy_db s) (Some (i, t)) (sy_shared s) (sy_procs s).

(** What the first reading, outside a transaction, leads to. *)
Definition after_first (ms : list migration) (read : Res MigrateErr Z) (wait : pc) : pc :=
  match read with
  | Ok current => if Z.of_nat (length ms) <=? current then Finished ms (Ok tt) else wait
  | Err ErrSchemaMissing => wait
  | Err e => Finished ms (Err e)
  end.

Definition check_result (ms : list migration) (read : Res MigrateErr Z) : Res MigrateErr unit :=
  match read with
  | Err e => Err e
  | Ok current => if current <? Z.of_nat (length ms) then Err (ErrSchemaBehind current (length ms)) else Ok tt
  end.

Definition is_finished (p : pc) : bool := match p with Finished _ _ => true | _ => false end.
Definition carried (p : pc) : list migration :=
  match p with
  | RunStart ms | RunLock ms | RunTable ms | RunRead ms | RunLoop ms _ _ | RunRecord ms _ _ _
  | CheckStart ms | CheckLock ms | CheckRead ms | Finished ms _ => ms
  end.

Section steps.
(** The migrations ever written, in order: each release carries a first part. *)
Context (all : list migration).

Inductive step (s : system) : system -> Prop :=
| StartRun i entries ms : sy_procs s !! i = None -> load entries = Ok ms -> ms `prefix_of` all -> step s (move s i (RunStart ms))
| StartCheck i entries ms : sy_procs s !! i = None -> load entries = Ok ms -> ms `prefix_of` all -> step s (move s i (CheckStart ms))
| RunFirst i ms : sy_procs s !! i = Some (RunStart ms) -> step s (move s i (after_first ms (readVersion (sy_db s)) (RunLock ms)))
| RunAcquire i ms : sy_procs s !! i = Some (RunLock ms) -> sy_lock s = None -> sy_shared s = ∅ ->
    step s (move (in_tx s i begin) i (RunTable ms))
| RunCreate i ms t : sy_procs s !! i = Some (RunTable ms) -> sy_lock s = Some (i, t) ->
    step s (move (in_tx s i (mkTx true (tx_versions t) (tx_sql t))) i (RunRead ms))
| RunReads i ms t : sy_procs s !! i = Some (RunRead ms) -> sy_lock s = Some (i, t) ->
    step s (match readVersion (view (sy_db s) t) with
            | Ok current => move s i (RunLoop ms current ms)
            | Err e => move (unlock s i) i (Finished ms (Err e))
            end)
| RunSkip i ms current m todo : sy_procs s !! i = Some (RunLoop ms current (m :: todo)) -> mg_version m <= current ->
    step s (move s i (RunLoop ms current todo))
| RunApply i ms current m todo t : sy_procs s !! i = Some (RunLoop ms current (m :: todo)) -> current < mg_version m -> sy_lock s = Some (i, t) ->
    step s (move (in_tx s i (mkTx (tx_created t) (tx_versions t) (tx_sql t ++ [mg_sql m]))) i (RunRecord ms current m todo))
| RunRecords i ms current m todo t t' : sy_procs s !! i = Some (RunRecord ms current m todo) -> sy_lock s = Some (i, t) ->
    insertVersion (sy_db s) t m = Some t' -> step s (move (in_tx s i t') i (RunLoop ms current todo))
| RunCommit i ms current t (answered : bool) : sy_procs s !! i = Some (RunLoop ms current []) -> sy_lock s = Some (i, t) ->
    step s (move (commit s i t) i (Finished ms (if answered then Ok tt else Err ErrDatabase)))
| CheckFirst i ms : sy_procs s !! i = Some (CheckStart ms) -> step s (move s i (after_first ms (readVersion (sy_db s)) (CheckLock ms)))
| CheckAcquire i ms : sy_procs s !! i = Some (CheckLock ms) -> sy_lock s = None ->
    step s (move (mkSystem (sy_db s) (sy_lock s) ({[i]} ∪ sy_shared s) (sy_procs s)) i (CheckRead ms))
| CheckReads i ms : sy_procs s !! i = Some (CheckRead ms) ->
    step s (move (unlock s i) i (Finished ms (check_result ms (readVersion (sy_db s)))))
| Fails i p : sy_procs s !! i = Some p -> is_finished p = false -> step s (move (unlock s i) i (Finished (carried p) (Err ErrDatabase))).

(** ** The invariant *)
Definition row (m : migration) : Z * string := (mg_version m, mg_name m).
Definition later (current : Z) : list migration -> list migration := filter (fun m => current < mg_version m).

(** Of a process, with [k] migrations applied. *)
Definition proc_ok (k : nat) (lock : option (nat * transaction)) (shared : gset nat) (i : nat) (p : pc) : Prop :=
  carried p `prefix_of` all /\
  match p with
  | RunTable ms => lock = Some (i, begin)
  | RunRead ms => lock = Some (i, mkTx true [] [])
  | RunLoop ms current todo => exists pre, ms = pre ++ todo /\ current = Z.of_nat k /\
      lock = Some (i, mkTx true (row <$> later current pre) (mg_sql <$> later current pre))
  | RunRecord ms current m todo => exists pre, ms = pre ++ m :: todo /\ current = Z.of_nat k /\ current < mg_version m /\
      lock = Some (i, mkTx true (row <$> later current pre) (mg_sql <$> later current (pre ++ [m])))
  | CheckRead ms => i ∈ shared
  | Finished ms (Ok _) => (length ms <= k)%nat
  | _ => True
  end.

Definition applied (k : nat) (d : database) : Prop :=
  (k <= length all)%nat /\ db_sql d = mg_sql <$> take k all /\
  match db_versions d with Some rows => rows = row <$> take k all | None => k = 0%nat end.

Definition system_ok (s : system) : Prop :=
  exists k, applied k (sy_db s) /\ (sy_shared s <> ∅ -> sy_lock s = None) /\
    forall i p, sy_procs s !! i = Some p -> proc_ok k (sy_lock s) (sy_shared s) i p.
End steps.

Definition contiguous (ms : list migration) : Prop := forall i m, ms !! i = Some m -> mg_version m = Z.of_nat i + 1.

Definition start (d : database) : system := mkSystem d None ∅ ∅.

(** ** Proofs *)
Lemma check_contiguous_spec i ms : check_contiguous i ms = Ok tt ->
  forall j m, ms !! j = Some m -> mg_version m = Z.of_nat (i + j) + 1.
Proof.
  revert i. induction ms as [|m0 ms IH]; intros i; cbn [check_contiguous]; [done|].
  destruct (Z.eqb_spec (mg_version m0) (Z.of_nat i + 1)) as [He|]; [|done]. intros Hc [|j] m Hj.
  - cbn in Hj. simplify_eq. rewrite He. f_equal. lia.
  - cbn in Hj. rewrite (IH _ Hc j m Hj). f_equal. lia.
Qed.

Lemma load_contiguous entries ms : load entries = Ok ms -> contiguous ms.
Proof.
  unfold load. destruct (parse_files entries) as [ms'|]; [|done]. destruct (check_contiguous 0 ms') as [[]|] eqn:Hc; [|done].
  intros [= <-] i m Hi. by rewrite (check_contiguous_spec _ _ Hc i m Hi).
Qed.

Lemma later_drop (o k : nat) (ms : list migration) : (forall i m, ms !! i = Some m -> mg_version m = Z.of_nat (o + i) + 1) ->
  later (Z.of_nat k) ms = drop (k - o) ms.
Proof.
  revert o. induction ms as [|m ms IH]; intros o Hv; [by rewrite drop_nil|]. unfold later.
  assert (Hm : mg_version m = Z.of_nat o + 1) by (rewrite (Hv 0%nat m eq_refl); f_equal; lia).
  assert (Hrest : later (Z.of_nat k) ms = drop (k - S o) ms).
  { apply IH. intros i x Hi. rewrite (Hv (S i) x Hi). f_equal. lia. }
  unfold later in Hrest. destruct (decide (Z.of_nat k < mg_version m)).
  - rewrite filter_cons_True by done. rewrite Hrest. replace (k - o)%nat with 0%nat by lia. by replace (k - S o)%nat with 0%nat by lia.
  - rewrite filter_cons_False by done. rewrite Hrest. replace (k - o)%nat with (S (k - S o)) by lia. done.
Qed.

Lemma contiguous_later k ms : contiguous ms -> later (Z.of_nat k) ms = drop k ms.
Proof. intros H. rewrite (later_drop 0); [by rewrite Nat.sub_0_r|]. intros i m Hi. by apply H. Qed.

Lemma prefix_take {A : Type} (l l' : list A) : l `prefix_of` l' -> l = take (length l) l'.
Proof. intros [r ->]. by rewrite take_app_length. Qed.

Lemma contiguous_prefix ms all : contiguous all -> ms `prefix_of` all -> contiguous ms.
Proof. intros H [r ->] i m Hi. apply H. by apply lookup_app_l_Some. Qed.

Lemma take_drop_prefix {A : Type} (k : nat) (ms all : list A) : (k <= length all)%nat -> ms `prefix_of` all ->
  take k all ++ drop k ms = take (k `max` length ms) all.
Proof.
  intros Hk Hp. rewrite (prefix_take _ _ Hp) at 1. pose proof (prefix_length _ _ Hp). destruct (decide (k <= length ms)%nat).
  - rewrite Nat.max_r by done. rewrite <- (take_drop k (take (length ms) all)) at 2. by rewrite take_take, Nat.min_l by done.
  - rewrite Nat.max_l by lia. rewrite drop_ge by (rewrite length_take; lia). by rewrite app_nil_r.
Qed.

Lemma max_version_take k all : contiguous all -> (k <= length all)%nat -> max_version (row <$> take k all) = Z.of_nat k.
Proof.
  intros Hc Hk. assert (Hlen : length (take k all) = k) by (rewrite length_take; lia).
  assert (Hpre : contiguous (take k all)) by (apply (contiguous_prefix _ all Hc); exists (drop k all); by rewrite take_drop).
  revert Hpre Hlen. generalize (take k all). clear. intros l. revert k. induction l as [|m l IH] using rev_ind; intros k Hc Hlen; [by subst|].
  rewrite length_app in Hlen. cbn in Hlen. unfold max_version in *. rewrite !fmap_app, foldr_app. cbn [fmap list_fmap row fst foldr].
  assert (Hm : mg_version m = Z.of_nat k) by (rewrite (Hc (length l) m (list_lookup_middle l [] m _ eq_refl)); lia).
  assert (Hl : contiguous l) by (apply (contiguous_prefix _ _ Hc); by exists [m]).
  specialize (IH (length l) Hl eq_refl).
  assert (Hpush : forall (vs : list Z) x, foldr Z.max (Z.max x 0) vs = Z.max x (foldr Z.max 0 vs)) by (intros vs x; induction vs as [|v vs IHv]; cbn; lia).
  rewrite Hpush, Hm, IH. lia.
Qed.

Section invariant.
Context (all : list migration) (Hall : contiguous all).

Lemma applied_read k d v : applied all k d -> readVersion d = Ok v -> v = Z.of_nat k.
Proof.
  unfold applied, readVersion. intros (Hk & _ & Hr). destruct (db_versions d) as [rows|]; [|done]. intros [= <-]. subst rows.
  by apply max_version_take.
Qed.

Lemma applied_view k d : applied all k d -> readVersion (view d (mkTx true [] [])) = Ok (Z.of_nat k).
Proof.
  unfold applied, readVersion, view. intros (Hk & _ & Hr). cbn [tx_created tx_versions db_versions].
  destruct (db_versions d) as [rows|]; [|by subst k].
  rewrite app_nil_r. subst rows. by rewrite max_version_take.
Qed.

Lemma applied_commit k d ms : applied all k d -> ms `prefix_of` all ->
  applied all (k `max` length ms) (view d (mkTx true (row <$> later (Z.of_nat k) ms) (mg_sql <$> later (Z.of_nat k) ms))).
Proof.
  intros (Hk & Hs & Hr) Hp. pose proof (prefix_length _ _ Hp). rewrite contiguous_later by by eapply contiguous_prefix.
  unfold applied, view. cbn [db_sql db_versions tx_created tx_versions tx_sql]. split_and!; [lia| |].
  - by rewrite Hs, <- fmap_app, take_drop_prefix.
  - destruct (db_versions d) as [rows|]; subst.
    + by rewrite <- fmap_app, take_drop_prefix.
    + rewrite <- (take_drop_prefix 0 ms all) by done. done.
Qed.

Lemma proc_ok_frame k k' lock lock' shared shared' i p :
  proc_ok all k lock shared i p -> (forall t, lock = Some (i, t) -> lock' = Some (i, t) /\ k' = k) -> (i ∈ shared -> i ∈ shared') -> (k <= k')%nat ->
  proc_ok all k' lock' shared' i p.
Proof.
  intros (Hp & H) Hl Hs Hk. split; [done|]. destruct p as [| |ms|ms|ms c todo|ms c m todo| | |ms|ms [r|]]; try done.
  - by destruct (Hl _ H) as [-> ->].
  - by destruct (Hl _ H) as [-> ->].
  - destruct H as (pre & -> & -> & H). destruct (Hl _ H) as [-> ->]. by exists pre.
  - destruct H as (pre & -> & -> & Hm & H). destruct (Hl _ H) as [-> ->]. by exists pre.
  - by apply Hs.
  - lia.
Qed.

(** The process that steps, the others as they were. *)
Lemma system_ok_step k k' (s : system) d' lock' shared' i p :
  (forall j q, sy_procs s !! j = Some q -> proc_ok all k (sy_lock s) (sy_shared s) j q) ->
  applied all k' d' -> (shared' <> ∅ -> lock' = None) -> (k <= k')%nat ->
  (forall j t, j <> i -> sy_lock s = Some (j, t) -> lock' = Some (j, t) /\ k' = k) ->
  (forall j, j <> i -> j ∈ sy_shared s -> j ∈ shared') -> proc_ok all k' lock' shared' i p ->
  system_ok all (mkSystem d' lock' shared' (<[i := p]> (sy_procs s))).
Proof.
  intros Hprocs Ha Hsh Hk Hlock Hshared Hp. exists k'. cbn [sy_db sy_lock sy_shared sy_procs]. split_and!; [done..|].
  intros j q Hj. destruct (decide (j = i)) as [->|Hne].
  - rewrite lookup_insert_eq in Hj. by simplify_eq.
  - rewrite lookup_insert_ne in Hj by done. eapply proc_ok_frame; [by apply Hprocs|intros t Ht; by apply Hlock|by apply Hshared|done].
Qed.

Lemma later_snoc_skip c pre m : mg_version m <= c -> later c (pre ++ [m]) = later c pre.
Proof. intros. unfold later. rewrite filter_app, (filter_cons_False _ m) by lia. by rewrite filter_nil, app_nil_r. Qed.
Lemma later_snoc_keep c pre m : c < mg_version m -> later c (pre ++ [m]) = later c pre ++ [m].
Proof. intros. unfold later. by rewrite filter_app, filter_cons_True, filter_nil. Qed.

Lemma first_ok k s ms (wait : pc) i : applied all k (sy_db s) -> ms `prefix_of` all -> proc_ok all k (sy_lock s) (sy_shared s) i wait ->
  proc_ok all k (sy_lock s) (sy_shared s) i (after_first ms (readVersion (sy_db s)) wait).
Proof.
  intros Ha Hp Hw. unfold after_first. destruct (readVersion (sy_db s)) as [v|e] eqn:Hr.
  - apply (applied_read _ _ _ Ha) in Hr as ->. destruct (Z.leb_spec (Z.of_nat (length ms)) (Z.of_nat k)); [|done]. split; [done|]. cbn. lia.
  - by destruct e.
Qed.

Lemma unlock_frame s i j t : j <> i -> sy_lock s = Some (j, t) -> sy_lock (unlock s i) = Some (j, t).
Proof. unfold unlock. cbn [sy_lock]. intros Hne ->. by rewrite bool_decide_eq_false_2. Qed.

(** A process that ends lets its locks go, and leaves the database alone. *)
Lemma end_ok k s i ms r : applied all k (sy_db s) -> (sy_shared s <> ∅ -> sy_lock s = None) ->
  (forall j q, sy_procs s !! j = Some q -> proc_ok all k (sy_lock s) (sy_shared s) j q) ->
  ms `prefix_of` all -> (is_ok r = true -> (length ms <= k)%nat) -> system_ok all (move (unlock s i) i (Finished ms r)).
Proof.
  intros Ha Hsh Hprocs Hp Hr. refine (system_ok_step k k s _ _ _ i _ Hprocs Ha _ (le_n _) _ _ _).
  - cbn. intros Hne. rewrite Hsh by set_solver. done.
  - intros j t Hne Hl. split; [by apply unlock_frame|done].
  - cbn. set_solver.
  - split; [done|]. destruct r; [by apply Hr|done].
Qed.

Lemma migrate_step_ok s s' : system_ok all s -> step all s s' -> system_ok all s'.
Proof.
  intros (k & Ha & Hsh & Hprocs) Hstep.
  assert (Hstay : forall i p, proc_ok all k (sy_lock s) (sy_shared s) i p -> system_ok all (move s i p)).
  { intros i p Hp. by apply (system_ok_step k k s _ _ _ i p Hprocs Ha). }
  assert (Hin : forall i t t' p, sy_lock s = Some (i, t) -> proc_ok all k (Some (i, t')) (sy_shared s) i p -> system_ok all (move (in_tx s i t') i p)).
  { intros i t t' p Hl Hp. apply (system_ok_step k k s _ _ _ i p Hprocs Ha); [|done| |done|done].
    - intros Hne. by rewrite Hsh in Hl.
    - intros j u Hne. rewrite Hl. naive_solver. }
  destruct Hstep as [i en ms Hi Hld Hp|i en ms Hi Hld Hp|i ms Hi|i ms Hi Hl Hs|i ms t Hi Hl|i ms t Hi Hl|i ms c m todo Hi Hm|i ms c m todo t Hi Hm Hl
    |i ms c m todo t t' Hi Hl Hins|i ms c t ans Hi Hl|i ms Hi|i ms Hi Hl|i ms Hi|i p Hi Hf]; try (pose proof (Hprocs _ _ Hi) as (Hpre & Hpc); cbn in Hpre, Hpc).
  - apply Hstay. by split.
  - apply Hstay. by split.
  - apply Hstay. apply first_ok; [done..|]. by split.
  - apply (system_ok_step k k s _ _ _ i _ Hprocs Ha); [intros Hne; by destruct Hne|done|intros; congruence|done|by split].
  - eapply Hin; [exact Hl|]. split; [done|]. by rewrite Hpc in Hl; simplify_eq.
  - rewrite Hpc in Hl. injection Hl as <-. rewrite (applied_view k) by done. apply Hstay. split; [done|]. by exists [].
  - apply Hstay. destruct Hpc as (pre & -> & -> & Hl). split; [done|]. exists (pre ++ [m]). rewrite <- app_assoc, later_snoc_skip by done. done.
  - destruct Hpc as (pre & -> & -> & Hl'). rewrite Hl' in Hl. injection Hl as <-. eapply Hin; [exact Hl'|]. split; [done|]. exists pre.
    rewrite later_snoc_keep, fmap_app by done. done.
  - destruct Hpc as (pre & -> & -> & Hm & Hl'). rewrite Hl' in Hl. injection Hl as <-. eapply Hin; [exact Hl'|]. split; [done|]. exists (pre ++ [m]).
    rewrite <- app_assoc. split_and!; [done..|]. unfold insertVersion in Hins. destruct (db_versions _); [|done]. case_bool_decide; [done|].
    injection Hins as <-. rewrite (later_snoc_keep _ _ m), !fmap_app by done. done.
  - destruct Hpc as (pre & -> & -> & Hl'). rewrite app_nil_r in *. rewrite Hl' in Hl. injection Hl as <-.
    apply (system_ok_step k (k `max` length pre) s _ _ _ i _ Hprocs (applied_commit _ _ _ Ha Hpre)).
    + cbn. intros Hne. rewrite Hl'. by rewrite bool_decide_eq_true_2.
    + lia.
    + intros j u Hne. rewrite Hl'. naive_solver.
    + cbn. set_solver.
    + split; [done|]. destruct ans; [cbn; lia|done].
  - apply Hstay. apply first_ok; [done..|]. by split.
  - apply (system_ok_step k k s _ _ _ i _ Hprocs Ha); [done|done|done|set_solver|]. split; [done|]. cbn. set_solver.
  - apply (end_ok k); [done..|]. unfold check_result. destruct (readVersion (sy_db s)) as [v|] eqn:Hr; [|done].
    apply (applied_read _ _ _ Ha) in Hr as ->. destruct (Z.ltb_spec (Z.of_nat k) (Z.of_nat (length ms))); [done|lia].
  - by apply (end_ok k).
Qed.
End invariant.

Lemma step_log all s s' : step all s s' -> db_sql (sy_db s) `prefix_of` db_sql (sy_db s').
Proof. intros []; try (cbn; done); [by case_match|]. cbn. by eexists. Qed.

Lemma migrate_reach_ok all d k s : contiguous all -> applied all k d -> rtc (step all) (start d) s ->
  system_ok all s /\ db_sql d `prefix_of` db_sql (sy_db s).
Proof.
  intros Hall Ha. remember (start d) as s0 eqn:H0. intros H.
  assert (Hs0 : system_ok all s0 /\ db_sql d `prefix_of` db_sql (sy_db s0)).
  { subst s0. split; [|done]. exists k. split_and!; [done..|]. intros i p Hi. cbn [start sy_procs] in Hi. by rewrite lookup_empty in Hi. }
  clear H0 Ha. induction H as [s|s s' s'' Hs _ IH]; [done|]. apply IH. destruct Hs0 as (Hok & Hlog). split; [by eapply migrate_step_ok|].
  etrans; [done|by eapply step_log].
Qed.

(** C14. Whatever runs of [Run] and [Check] of binaries old and new share a
    database, in any order of their statements and with any of them failing, the
    migrations in effect are always a first part of all migrations, each applied
    exactly once, in order, and recorded once in the version table; none is ever
    undone.  A [Run] or a [Check] that succeeds means that every migration its
    binary carries is in effect, and stays so; and while a [Check] that waited
    reads the version again no migration is in progress, so that what it reports
    as missing or behind is so. *)
Theorem migrations_once all d k s : contiguous all -> applied all k d -> rtc (step all) (start d) s ->
  exists k', (k <= k')%nat /\ applied all k' (sy_db s) /\
    (forall i ms, sy_procs s !! i = Some (Finished ms (Ok tt)) -> ms `prefix_of` all /\ (length ms <= k')%nat) /\
    (forall i ms, sy_procs s !! i = Some (CheckRead ms) -> sy_lock s = None).
Proof.
  intros Hall Ha Hr. destruct (migrate_reach_ok _ _ _ _ Hall Ha Hr) as ((k' & Ha' & Hsh & Hprocs) & Hlog). exists k'. split_and!.
  - destruct Ha as (Hk & Hs & _), Ha' as (Hk' & Hs' & _). rewrite Hs, Hs' in Hlog. apply prefix_length in Hlog.
    rewrite !length_fmap, !length_take in Hlog. lia.
  - done.
  - intros i ms Hi. by destruct (Hprocs _ _ Hi) as (Hp & Hl).
  - intros i ms Hi. destruct (Hprocs _ _ Hi) as (_ & Hin). apply Hsh. cbn in Hin. set_solver.
Qed.

(** ** A run alone *)
Section alone.
Context (all : list migration) (Hall : contiguous all) (i : nat).

Lemma versions_below pre m todo : contiguous (pre ++ m :: todo) -> Forall (fun x => mg_version x < mg_version m) pre.
Proof.
  intros Hc. apply Forall_lookup. intros j x Hj. rewrite (Hc j x) by by apply lookup_app_l_Some.
  rewrite (Hc (length pre) m) by by apply list_lookup_middle. apply lookup_lt_Some in Hj. lia.
Qed.

Lemma record_fits k d pre m todo : applied all k d -> pre ++ m :: todo `prefix_of` all -> Z.of_nat k < mg_version m ->
  insertVersion d (mkTx true (row <$> later (Z.of_nat k) pre) (mg_sql <$> later (Z.of_nat k) (pre ++ [m]))) m =
  Some (mkTx true (row <$> later (Z.of_nat k) (pre ++ [m])) (mg_sql <$> later (Z.of_nat k) (pre ++ [m]))).
Proof.
  intros (Hk & _ & Hr) Hp Hm. unfold insertVersion, view. cbn [db_versions tx_created tx_versions tx_sql].
  assert (Hpre : mg_version m ∉ (row <$> later (Z.of_nat k) pre).*1).
  { rewrite <- list_fmap_compose. intros (x & He & (_ & Hx)%list_elem_of_filter)%list_elem_of_fmap. cbn in He.
    pose proof (versions_below pre m todo (contiguous_prefix _ _ Hall Hp)) as Hb. rewrite Forall_forall in Hb. specialize (Hb x Hx). lia. }
  assert (Htake : mg_version m ∉ (row <$> take k all).*1).
  { rewrite <- list_fmap_compose. intros (x & He & (j & Hj)%list_elem_of_lookup)%list_elem_of_fmap. cbn in He.
    apply lookup_take_Some in Hj as (Hj & Hlt). rewrite (Hall _ _ Hj) in He. lia. }
  destruct (db_versions d) as [rows|]; subst.
  - rewrite fmap_app, bool_decide_eq_false_2 by (rewrite elem_of_app; tauto). by rewrite (later_snoc_keep _ _ m), !fmap_app.
  - rewrite bool_decide_eq_false_2 by done. by rewrite (later_snoc_keep _ _ m), !fmap_app.
Qed.

Definition looping (d : database) (k : nat) (procs : gmap nat pc) (pre todo : list migration) : system :=
  mkSystem d (Some (i, mkTx true (row <$> later (Z.of_nat k) pre) (mg_sql <$> later (Z.of_nat k) pre))) ∅
    (<[i := RunLoop (pre ++ todo) (Z.of_nat k) todo]> procs).

Lemma loop_completes d k procs pre todo : applied all k d -> pre ++ todo `prefix_of` all ->
  rtc (step all) (looping d k procs pre todo) (looping d k procs (pre ++ todo) []).
Proof.
  revert pre. induction todo as [|m todo IH]; intros pre Ha Hp; [rewrite app_nil_r; unfold looping; rewrite app_nil_r; apply rtc_refl|].
  specialize (IH (pre ++ [m]) Ha). rewrite <- app_assoc in IH. cbn in IH. specialize (IH Hp).
  unfold looping in *. rewrite <- app_assoc in IH. cbn [app] in IH. destruct (decide (mg_version m <= Z.of_nat k)).
  - eapply rtc_l; [eapply RunSkip; [cbn; by rewrite lookup_insert_eq|done]|]. unfold move. cbn [sy_db sy_lock sy_shared sy_procs].
    rewrite insert_insert_eq. rewrite later_snoc_skip in IH by done. exact IH.
  - eapply rtc_l; [eapply RunApply; [cbn; by rewrite lookup_insert_eq|lia|done]|]. unfold move, in_tx. cbn [sy_db sy_lock sy_shared sy_procs tx_created tx_versions tx_sql].
    rewrite insert_insert_eq. eapply rtc_l.
    + eapply RunRecords; [cbn; by rewrite lookup_insert_eq|done|]. cbn [sy_db].
      replace ((mg_sql <$> later (Z.of_nat k) pre) ++ [mg_sql m]) with (mg_sql <$> later (Z.of_nat k) (pre ++ [m]))
        by (rewrite later_snoc_keep, fmap_app by lia; done).
      eapply record_fits; [done|exact Hp|lia].
    + unfold move, in_tx. cbn [sy_db sy_lock sy_shared sy_procs]. rewrite insert_insert_eq. exact IH.
Qed.
End alone.

Lemma first_cases all k d ms wait : contiguous all -> applied all k d ->
  after_first ms (readVersion d) wait = wait \/ after_first ms (readVersion d) wait = Finished ms (Ok tt) /\ (length ms <= k)%nat.
Proof.
  intros Hall Ha. unfold after_first. destruct (readVersion d) as [v|e] eqn:Hr.
  - apply (applied_read _ Hall _ _ _ Ha) in Hr as ->. destruct (Z.leb_spec (Z.of_nat (length ms)) (Z.of_nat k)); [right; split; [done|lia]|by left].
  - unfold readVersion in Hr. destruct (db_versions d); [done|]. injection Hr as <-. by left.
Qed.

(** A [Run] whose statements succeed and that meets no lock ends with success,
    on a database without a version table, behind, level or ahead: afterwards
    exactly its migrations, or the more that were there, are in effect, and the
    lock is free. *)
Theorem run_completes all s k i ms : contiguous all -> ms `prefix_of` all -> applied all k (sy_db s) -> sy_lock s = None -> sy_shared s = ∅ ->
  sy_procs s !! i = Some (RunStart ms) ->
  exists s', rtc (step all) s s' /\ sy_procs s' = <[i := Finished ms (Ok tt)]> (sy_procs s) /\ sy_lock s' = None /\ sy_shared s' = ∅ /\
    applied all (k `max` length ms) (sy_db s').
Proof.
  intros Hall Hp Ha Hl Hs Hi. destruct (first_cases all k (sy_db s) ms (RunLock ms) Hall Ha) as [Hw|(Hd & Hlen)].
  - eexists. split.
    + eapply rtc_l; [by eapply RunFirst|]. rewrite Hw. eapply rtc_l; [eapply RunAcquire; [cbn; by rewrite lookup_insert_eq|done|done]|].
      eapply rtc_l; [eapply RunCreate; [cbn; by rewrite lookup_insert_eq|done]|]. eapply rtc_l; [eapply RunReads; [cbn; by rewrite lookup_insert_eq|done]|].
      cbn [sy_db move in_tx begin tx_versions tx_sql]. rewrite (applied_view _ Hall k) by done. unfold move, in_tx. cbn [sy_db sy_lock sy_shared sy_procs].
      rewrite !insert_insert_eq. etrans; [rewrite Hs; apply (loop_completes all Hall i (sy_db s) k (sy_procs s) [] ms); done|].
      cbn [app]. eapply rtc_once. unfold looping. rewrite app_nil_r. eapply (RunCommit _ _ i ms (Z.of_nat k) _ true); [cbn; by rewrite lookup_insert_eq|done].
    + unfold move, commit, unlock. cbn [sy_db sy_lock sy_shared sy_procs]. rewrite bool_decide_eq_true_2 by done. rewrite insert_insert_eq.
      split_and!; [done|done|set_solver|]. by apply applied_commit.
  - exists (move s i (Finished ms (Ok tt))). split; [apply rtc_once; rewrite <- Hd; by apply RunFirst|].
    cbn [move sy_db sy_lock sy_shared sy_procs]. rewrite Nat.max_l by done. done.
Qed.

Definition w_files : list (string * option string) := [("0001_initial_schema.sql", Some "CREATE TABLE ..."); ("0002_quota.sql", Some "ALTER TABLE ...")].
Definition w_all : list migration := [mkMigration 1 "initial_schema" "CREATE TABLE ..."; mkMigration 2 "quota" "ALTER TABLE ..."].
Definition w_start : system := move (start (mkDb None [])) 0 (RunStart (take 1 w_all)).

Lemma w_contiguous : contiguous w_all.
Proof. intros [|[|i]] m; cbn; naive_solver. Qed.

Lemma run_completes_witness : load w_files = Ok w_all /\ exists s', rtc (step w_all) w_start s' /\ sy_lock s' = None /\ applied w_all 1 (sy_db s').
Proof.
  split; [reflexivity|].
  destruct (run_completes w_all w_start 0 0 (take 1 w_all) w_contiguous) as (s' & Hr & _ & Hl & _ & Ha).
  - by exists (drop 1 w_all).
  - split_and!; [cbn; lia|done|done].
  - done.
  - done.
  - done.
  - by exists s'.
Defined.

Lemma migrations_once_witness : exists s, rtc (step w_all) (start (mkDb None [])) s /\ sy_procs s !! 0%nat = Some (CheckStart w_all) /\
  exists k, applied w_all k (sy_db s) /\ (0 <= k)%nat.
Proof.
  assert (Hr : rtc (step w_all) (start (mkDb None [])) (move (start (mkDb None [])) 0 (CheckStart w_all))).
  { apply rtc_once. by apply (StartCheck _ _ _ w_files). }
  eexists. split; [exact Hr|]. split; [done|].
  destruct (migrations_once w_all (mkDb None []) 0 _ w_contiguous ltac:(split_and!; [cbn; lia|done|done]) Hr) as (k & Hk & Ha & _). by exists k.
Defined.
