(* ===== verification/Usage.v ===== *)
(** * Token usage (pkg/asyncworker/usage.go)

    The usage a completions response reports, for the token counters.  The path of
    the request's URL is an argument: [None] where the URL does not parse. *)
From stdpp Require Import prelude strings list.
From Stdlib Require Import ZArith Lia Ascii.
From S2P Require Import Prelude Json Api Wire RedisProducer.

#[local] Open Scope string_scope.
#[local] Open Scope list_scope.
#[local] Open Scope Z_scope.

Fixpoint HasSuffix (s suffix : string) : bool :=
  bool_decide (s = suffix) || match s with "" => false | String _ s' => HasSuffix s' suffix end.

Definition TrimSuffix (s suffix : string) : string :=
  if HasSuffix s suffix then str_take (String.length s - String.length suffix) s else s.

(** The suffixes the callers give are trimmed already. *)
Definition matchPathSuffix (path suffix : string) : bool := HasSuffix (TrimSuffix (TrimSpace path) "/") suffix.

Definition openAICompletionsEndpoint (path : option string) : bool :=
  match path with
  | None => false
  | Some p => matchPathSuffix p "v1/completions" || matchPathSuffix p "v1/chat/completions"
  end.

Definition usage_step (key raw : string) (u : Z * Z) : option (Z * Z) :=
  let name := fold_name key in
  if String.eqb name "prompt_tokens" then (fun n => (n, u.2)) <$> d_int raw u.1
  else if String.eqb name "completion_tokens" then (fun n => (u.1, n)) <$> d_int raw u.2
  else Some u.

(** The usage is a pointer: null clears it. *)
Definition response_step (key raw : string) (u : option (Z * Z)) : option (option (Z * Z)) :=
  if String.eqb (fold_name key) "usage" then
    if bool_decide (raw = "null") then Some None else Some <$> d_struct 1 usage_step raw (default (0, 0) u)
  else Some u.

(** The input and output tokens; [None]: not ok. *)
Definition ParseUsage (body : string) (path : option string) : option (Z * Z) :=
  if negb (openAICompletionsEndpoint path) then None
  else match value_text body ≫= (fun v => d_struct 0 response_step v None) with
       | Some (Some (input, output)) => Some (Z.max 0 input, Z.max 0 output)
       | _ => None
       end.

(** ** Proofs *)
Definition counts_ok (u : Z * Z) : Prop := int64 u.1 /\ int64 u.2.

Lemma d_int_int64 raw cur n : int64 cur -> d_int raw cur = Some n -> int64 n.
Proof.
  unfold d_int. intros Hc. case_decide; [by intros [= <-]|]. unfold parse_int64, int64.
  destruct (match raw with String c t => _ | "" => _ end); [|done]. destruct (_ && _) eqn:E; [|done]. intros [= <-].
  apply andb_true_iff in E as [?%Z.leb_le ?%Z.ltb_lt]. done.
Qed.

Lemma dec_fields_inv {R : Type} (P : R -> Prop) (step : string -> string -> R -> option R) l r r' :
  (forall k raw x x', P x -> step k raw x = Some x' -> P x') -> P r -> dec_fields step l r = Some r' -> P r'.
Proof.
  intros Hs. revert r. induction l as [|[k raw] l IH]; intros r Hr; cbn [dec_fields]; [by intros [= <-]|].
  destruct (unquote k) as [key|]; [|done]. destruct (step key raw r) as [x|] eqn:E; [|done]. apply IH. by eapply Hs.
Qed.

Lemma d_struct_inv {R : Type} (P : R -> Prop) d (step : string -> string -> R -> option R) raw r r' :
  (forall k raw x x', P x -> step k raw x = Some x' -> P x') -> P r -> d_struct d step raw r = Some r' -> P r'.
Proof.
  intros Hs Hr. unfold d_struct. case_decide; [by intros [= <-]|]. destruct (object_of d raw); [|done]. by apply dec_fields_inv.
Qed.

Lemma usage_step_ok key raw u u' : counts_ok u -> usage_step key raw u = Some u' -> counts_ok u'.
Proof.
  intros [H1 H2]. unfold usage_step. destruct (String.eqb _ _).
  - destruct (d_int raw u.1) eqn:E; [|done]. intros [= <-]. split; [exact (d_int_int64 _ _ _ H1 E)|done].
  - destruct (String.eqb _ _); [|by intros [= <-]]. destruct (d_int raw u.2) eqn:E; [|done]. intros [= <-]. split; [done|exact (d_int_int64 _ _ _ H2 E)].
Qed.

Lemma response_step_ok key raw u u' : from_option counts_ok True u -> response_step key raw u = Some u' -> from_option counts_ok True u'.
Proof.
  intros Hu. unfold response_step. destruct (String.eqb _ _); [|by intros [= <-]]. case_bool_decide; [by intros [= <-]|].
  destruct (d_struct 1 usage_step raw _) eqn:E; [|done]. intros [= <-]. eapply (d_struct_inv counts_ok); [apply usage_step_ok| |exact E].
  destruct u; [done|]. split; unfold int64; cbn; lia.
Qed.

(** The token counts a response adds to the counters are never negative and
    fit an int64, whatever the body says, and are taken only from an answer to a
    completions endpoint, with or without a path before it and a slash after. *)
Theorem usage_counts body path input output : ParseUsage body path = Some (input, output) ->
  openAICompletionsEndpoint path = true /\ 0 <= input < 2 ^ 63 /\ 0 <= output < 2 ^ 63.
Proof.
  unfold ParseUsage. destruct (openAICompletionsEndpoint path); [|done]. cbn [negb]. destruct (value_text body) as [v|]; [|done]. cbn [mbind option_bind].
  destruct (d_struct 0 response_step v None) as [[[i o]|]|] eqn:E; [|done..]. intros [= <- <-].
  apply (d_struct_inv (from_option counts_ok True)) in E; [|apply response_step_ok|done]. destruct E as [Hi Ho]. unfold int64 in *. cbn in Hi, Ho. lia.
Qed.

Definition w_usage : string := print_obj [("usage", print_obj [("prompt_tokens", "7"); ("completion_tokens", "-2")])].

Lemma usage_counts_witness : ParseUsage w_usage (Some "/gw/v1/completions/") = Some (7, 0) /\ 0 <= 7 < 2 ^ 63.
Proof.
  assert (H : ParseUsage w_usage (Some "/gw/v1/completions/") = Some (7, 0)) by (vm_compute; reflexivity).
  split; [exact H|]. exact (proj1 (proj2 (usage_counts _ _ _ _ H))).
Defined.
