(* ===== verification/GcsMultipart.v ===== *)
(** * The multipart transform (pkg/asyncworker/transform/gcsmultipart)

    The plugin that turns a JSON body with a signed URL into a form: what it owns,
    its preflight of the URL's expiry against the deadline, and the form it writes,
    down to the bytes of multipart/form-data.  The boundary is the writer's random
    text, the order of the fields that of a map's iteration; parsing a URL's query
    and a date are arguments. *)
From stdpp Require Import prelude gmap strings list fin_maps.
From Stdlib Require Import ZArith Lia Ascii.
From S2P Require Import Prelude Json Api Wire RedisProducer HttpClient Worker.

#[local] Open Scope string_scope.
#[local] Open Scope list_scope.
#[local] Open Scope Z_scope.

Record Plugin : Type := mkPlugin { pl_name : string; pl_providers : gset string }.

(** [providers]: the decoded parameters, [None] where they do not decode; no
    parameters are an empty list. *)
Definition New (name : string) (providers : option (list string)) : option Plugin :=
  match providers with
  | None | Some [] => None
  | Some l => if existsb (String.eqb "") l then None else Some (mkPlugin name (list_to_set l))
  end.

Definition owns (p : Plugin) (metadata : gmap string string) : bool :=
  bool_decide (default "" (metadata !! "provider") ∈ pl_providers p).

(** ** The fields of the body *)
Definition raw_step (key raw : string) (m : gmap string string) : option (gmap string string) := Some (<[key := raw]> m).

Definition decodeFields (payload : string) : option (gmap string string) :=
  v ← value_text payload;
  if bool_decide (v = "null") then Some ∅ else l ← object_of 0 v; dec_fields raw_step l ∅.

(** [json.Unmarshal] into a string. *)
Definition unmarshal_string (raw : string) : option string := v ← value_text raw; d_string v "".

Definition stringField (fields : gmap string string) (name : string) : string :=
  match fields !! name with Some raw => default "" (unmarshal_string raw) | None => "" end.

Definition asFormValue (raw : string) : string := default raw (unmarshal_string raw).

(** ** The preflight

    An instant is its nanoseconds since the year 1, of seconds that are an int64. *)
Definition time_Unix (sec : Z) : Z := wrap64 (sec + unixToInternal) * Second.

Section preflight.
(** [query]: the parameters of a URL, [None] where it does not parse. *)
Context (query : string -> option (string -> string)) (parseDate : string -> option Z).

Definition signedURLExpiry (signedURL : string) : option Z :=
  match query signedURL with
  | None => None
  | Some get =>
      if negb (bool_decide (get "X-Goog-Date" = "")) && negb (bool_decide (get "X-Goog-Expires" = "")) then
        start ← parseDate (get "X-Goog-Date");
        secs ← Atoi (get "X-Goog-Expires");
        Some (start + wrap64 (secs * Second))
      else if negb (bool_decide (get "Expires" = "")) then time_Unix <$> Atoi (get "Expires")
      else None
  end.

(** [Some text]: the fatal error. *)
Definition Validate (p : Plugin) (payload : string) (metadata : gmap string string) (reqDeadline : Z) : option string :=
  if negb (owns p metadata) then None
  else match decodeFields payload with
       | None => Some "failed to parse request body"
       | Some fields =>
           let signedURL := stringField fields "gcs_uri" in
           if bool_decide (signedURL = "") then None
           else match signedURLExpiry signedURL with
                | None => None
                | Some expiry => if time_Unix reqDeadline <? expiry then None else Some "signed URL expires at or before the request deadline"
                end
       end.
End preflight.

(** ** The form *)
Definition cr : ascii := "013".
Definition lf : ascii := "010".
Definition crlf : string := String cr (ch lf).

(** [escapeQuotes] of mime/multipart. *)
Fixpoint escapeQuotes (s : string) : string :=
  match s with
  | "" => ""
  | String c rest =>
      (if code c =? 92 then String backslash (ch backslash)
       else if code c =? 34 then String backslash (ch dquote)
       else if code c =? 13 then "%0D"
       else if code c =? 10 then "%0A"
       else ch c) +:+ escapeQuotes rest
  end.

(** [WriteField], with the delimiter before it; [Close]. *)
Definition part_head : string := "Content-Disposition: form-data; name=" +:+ ch dquote.
Definition part_text (p : string * string) : string := part_head +:+ (escapeQuotes p.1 +:+ String dquote (crlf +:+ (crlf +:+ p.2))).
Definition delimiter (boundary : string) : string := crlf +:+ ("--" +:+ boundary).

(** What follows a delimiter: the end, or a part and the next delimiter. *)
Fixpoint after_delimiter (boundary : string) (ps : list (string * string)) : string :=
  match ps with
  | [] => "--" +:+ crlf
  | p :: rest => crlf +:+ (part_text p +:+ (delimiter boundary +:+ after_delimiter boundary rest))
  end.

(** The first delimiter has no line end before it. *)
Definition multipart_body (boundary : string) (ps : list (string * string)) : string :=
  "--" +:+ (boundary +:+ after_delimiter boundary ps).

Definition form_fields (signedURL : string) (entries : list (string * string)) : list (string * string) :=
  ("url", signedURL) ::
  ((fun e => (e.1, asFormValue e.2)) <$> filter (fun e => e.1 <> "gcs_uri" /\ e.1 <> "file_base64") entries).

(** [iter]: the order in which a map is iterated.  [Ok None]: not handled. *)
Definition Transform (boundary : string) (iter : gmap string string -> list (string * string)) (p : Plugin) (payload : string)
    (metadata : gmap string string) : Res string (option (string * string)) :=
  if negb (owns p metadata) then Ok None
  else match decodeFields payload with
       | None => Err "failed to parse request body"
       | Some fields =>
           let signedURL := stringField fields "gcs_uri" in
           if bool_decide (signedURL = "") then Ok None
           else if negb (bool_decide (stringField fields "file_base64" = "")) then Err "file_base64 is not supported on the multipart path"
           else Ok (Some (multipart_body boundary (form_fields signedURL (iter fields)), "multipart/form-data; boundary=" +:+ boundary))
       end.

(** The plugin as a transform of the worker's chain. *)
Definition gcs_transform (query : string -> option (string -> string)) (parseDate : string -> option Z) (boundary : string)
    (iter : gmap string string -> list (string * string)) (p : Plugin) : RequestTransform :=
  mkRequestTransform ("gcs_uri_multipart/" +:+ pl_name p) (Validate query parseDate p) (Transform boundary iter p).

(** ** Reading a form

    A reader of what RFC 7578 calls multipart/form-data, for parts with a name. *)
Fixpoint read_name (s : string) : option (string * string) :=
  match s with
  | "" => None
  | String c rest =>
      if code c =? 34 then Some ("", rest)
      else if (code c =? 13) || (code c =? 10) then None
      else if code c =? 92 then
        match rest with
        | String d rest' => match read_name rest' with Some (n, r) => Some (String d n, r) | None => None end
        | "" => None
        end
      else match read_name rest with Some (n, r) => Some (String c n, r) | None => None end
  end.

Fixpoint strip (lit s : string) : option string :=
  match lit, s with
  | "", _ => Some s
  | String a lit', String b s' => if ascii_dec a b then strip lit' s' else None
  | String _ _, "" => None
  end.

(** What comes before the first [d], and what after it. *)
Fixpoint cut (d s : string) : option (string * string) :=
  match strip d s with
  | Some rest => Some ("", rest)
  | None => match s with
            | "" => None
            | String c s' => match cut d s' with Some (a, rest) => Some (String c a, rest) | None => None end
            end
  end.

Fixpoint read_parts (fuel : nat) (boundary s : string) : option (list (string * string)) :=
  match fuel with
  | O => None
  | S f =>
      match strip ("--" +:+ crlf) s with
      | Some "" => Some []
      | Some _ => None
      | None =>
          s1 ← strip crlf s; s2 ← strip part_head s1; '(name, s3) ← read_name s2; s4 ← strip (crlf +:+ crlf) s3;
          '(value, s5) ← cut (delimiter boundary) s4; rest ← read_parts f boundary s5; Some ((name, value) :: rest)
      end
  end.

(** Each part takes at least a byte. *)
Definition read_form (boundary s : string) : option (list (string * string)) :=
  rest ← strip ("--" +:+ boundary) s; read_parts (S (String.length s)) boundary rest.

(** ** Proofs *)
Lemma strip_app lit r : strip lit (lit +:+ r) = Some r.
Proof. induction lit as [|c lit IH]; [done|]. rewrite cons_app. cbn [strip]. by destruct (ascii_dec c c). Qed.

Lemma strip_none d s r : strip d s = None -> (String.length d <= String.length s)%nat -> strip d (s +:+ r) = None.
Proof.
  revert s. induction d as [|c d IH]; intros s; [done|]. destruct s as [|e s]; cbn [strip String.length]; [lia|].
  rewrite cons_app. cbn [strip]. destruct (ascii_dec c e); [|done]. intros H Hl. apply IH; [done|lia].
Qed.

Fixpoint plain_name (n : string) : bool :=
  match n with "" => true | String c n' => negb ((code c =? 13) || (code c =? 10)) && plain_name n' end.

Lemma read_name_escaped n r : plain_name n = true -> read_name (escapeQuotes n +:+ String dquote r) = Some (n, r).
Proof.
  induction n as [|c n IH]; [done|]. cbn [plain_name]. intros [Hc Hn]%andb_true_iff. specialize (IH Hn).
  apply negb_true_iff in Hc. cbn [escapeQuotes]. rewrite app_app. destruct (code c =? 92) eqn:E1.
  - apply (code_is c backslash) in E1 as ->. rewrite cons_app, ch_app. cbn [read_name]. change (code backslash) with 92. cbn -[read_name]. by rewrite IH.
  - destruct (code c =? 34) eqn:E2.
    + apply (code_is c dquote) in E2 as ->. rewrite cons_app, ch_app. cbn [read_name]. change (code backslash) with 92. cbn -[read_name]. by rewrite IH.
    + destruct (code c =? 13) eqn:E3; [done|]. destruct (code c =? 10) eqn:E4; [done|]. rewrite ch_app. cbn [read_name]. rewrite E1, E2, E3, E4. cbn. by rewrite IH.
Qed.

(** The delimiter is not in the value, nor begins at its end. *)
Definition delimited (d v : string) : Prop := cut d (v +:+ d) = Some (v, "").

Lemma cut_rest d v r : delimited d v -> cut d (v +:+ (d +:+ r)) = Some (v, r).
Proof.
  unfold delimited. induction v as [|c v IH]; intros H.
  - rewrite nil_app. destruct (d +:+ r) eqn:E; cbn [cut]; rewrite <- E; by rewrite strip_app.
  - rewrite !cons_app in *. cbn [cut] in *. destruct (strip d (String c (v +:+ d))) as [x|] eqn:E; [done|].
    replace (String c (v +:+ (d +:+ r))) with (String c (v +:+ d) +:+ r) by (by rewrite cons_app, app_app).
    rewrite strip_none; [|done|cbn; rewrite len_app; lia]. destruct (cut d (v +:+ d)) as [[a x]|] eqn:Ec; [|done].
    injection H as -> ->. by rewrite IH.
Qed.

Lemma read_parts_print b ps fuel : (length ps < fuel)%nat -> Forall (fun p => plain_name p.1 = true /\ delimited (delimiter b) p.2) ps ->
  read_parts fuel b (after_delimiter b ps) = Some ps.
Proof.
  revert fuel. induction ps as [|[n v] ps IH]; intros fuel Hf Hall; (destruct fuel as [|fuel]; [lia|]).
  - cbn [after_delimiter read_parts]. rewrite <- (str_app_nil ("--" +:+ crlf)) at 2. by rewrite strip_app.
  - apply Forall_cons in Hall as ((Hn & Hv) & Hall). cbn [fst snd] in *. cbn [after_delimiter read_parts].
    change (strip ("--" +:+ crlf) (crlf +:+ (part_text (n, v) +:+ (delimiter b +:+ after_delimiter b ps)))) with (@None string). cbn iota.
    rewrite strip_app. cbn [mbind option_bind]. unfold part_text. cbn [fst snd]. rewrite !app_app, strip_app. cbn [mbind option_bind].
    rewrite cons_app, read_name_escaped by done. cbn [mbind option_bind]. rewrite !app_app, <- (app_app crlf crlf), strip_app. cbn [mbind option_bind].
    rewrite cut_rest by done. cbn [mbind option_bind]. rewrite IH by (cbn in Hf; lia || done). done.
Qed.

Lemma after_delimiter_len b ps : (length ps <= String.length (after_delimiter b ps))%nat.
Proof. induction ps as [|p ps IH]; [cbn; lia|]. cbn [after_delimiter length]. rewrite !len_app. change (String.length crlf) with 2%nat. lia. Qed.

Lemma read_form_print b ps : Forall (fun p => plain_name p.1 = true /\ delimited (delimiter b) p.2) ps ->
  read_form b (multipart_body b ps) = Some ps.
Proof.
  intros H. unfold read_form, multipart_body. rewrite <- app_app, strip_app. cbn [mbind option_bind]. apply read_parts_print; [|done].
  rewrite len_app. pose proof (after_delimiter_len b ps). lia.
Qed.

(** The fields that pass through. *)
Definition passed (fields : gmap string string) : gmap string string := delete "gcs_uri" (delete "file_base64" fields).

Lemma form_fields_passed (iter : gmap string string -> list (string * string)) u fields : iter fields ≡ₚ map_to_list fields ->
  exists rest, form_fields u (iter fields) = ("url", u) :: rest /\ rest ≡ₚ ((fun e => (e.1, asFormValue e.2)) <$> map_to_list (passed fields)).
Proof.
  intros Hi. eexists. split; [reflexivity|]. apply fmap_Permutation. rewrite Hi. apply NoDup_Permutation.
  - apply NoDup_filter, NoDup_map_to_list.
  - apply NoDup_map_to_list.
  - intros [n raw]. rewrite list_elem_of_filter, !elem_of_map_to_list. unfold passed. cbn [fst].
    rewrite !lookup_delete_Some. naive_solver.
Qed.

(** The text of a form's field for the JSON value [raw]: the text of a string
    literal, whatever escapes it is written with; nothing for null; and any other
    value, a number, a boolean, an object or an array, as it stands. *)
Record rendered (raw v : string) : Prop := mkRendered {
  rn_literal : forall b t, raw = String dquote (b +:+ ch dquote) -> body_ok b -> unquote b = Some t -> v = t;
  rn_quoted : forall t, raw = quote t -> valid_utf8 t = true -> v = t;
  rn_null : raw = "null" -> v = "";
  rn_other : forall c t, raw = String c t -> code c <> 34 -> c <> "n"%char -> is_space c = false -> v = raw
}.

Lemma skip_ws_head c t : is_space c = false -> skip_ws (String c t) = String c t.
Proof. intros H. cbn [skip_ws]. by rewrite H. Qed.

Lemma unmarshal_literal b : body_ok b -> unmarshal_string (String dquote (b +:+ ch dquote)) = unquote b.
Proof.
  intros Hb. set (s := String dquote (b +:+ ch dquote)).
  assert (scan_value (fuel_for s) 0 s = Some (String dquote (html b +:+ ch dquote), "")) as Hs.
  { unfold s, fuel_for. rewrite Nat.add_comm. cbn [Nat.add scan_value]. change (code dquote =? 34) with true. cbn iota. unfold ch at 1. by rewrite (Hb ""). }
  unfold unmarshal_string, value_text, json_valid, compact. change (skip_ws s) with s. rewrite Hs. cbn [skip_ws]. cbn iota.
  rewrite Nat.sub_0_r. assert (str_take (String.length s) s = s) as ->.
  { rewrite <- (str_app_nil s) at 2. apply str_take_full. }
  change (d_string s "" = unquote b). unfold d_string. destruct (decide (s = "null")) as [[=]|_].
  unfold s. cbn iota. change (code dquote =? 34) with true. cbn iota. unfold ch. by rewrite (Hb "").
Qed.

Lemma unmarshal_other c t : code c <> 34 -> c <> "n"%char -> is_space c = false -> unmarshal_string (String c t) = None.
Proof.
  intros H1 H2 H3. unfold unmarshal_string, value_text. destruct (json_valid _); [|done]. rewrite skip_ws_head by done.
  destruct (scan_value _ _ _) as [[x r]|]; [|done]. cbn [mbind option_bind]. set (n := (_ - _)%nat). destruct n as [|n]; [done|].
  cbn [str_take]. unfold d_string. rewrite decide_False by (intros [=]; congruence). by rewrite (proj2 (Z.eqb_neq (code c) 34)).
Qed.

Lemma asFormValue_rendered raw : rendered raw (asFormValue raw).
Proof.
  unfold asFormValue. split.
  - intros b t -> Hb Ht. by rewrite unmarshal_literal, Ht.
  - intros t -> Ht. unfold quote. by rewrite unmarshal_literal, unquote_qbody by (done || (intros r; apply scan_quote)).
  - intros ->. vm_compute. reflexivity.
  - intros c t -> H1 H2 H3. by rewrite unmarshal_other.
Qed.


(** The preflight is exact: a request with a signed URL whose expiry is given
    is let through exactly when the URL is still good after the deadline.  This is
    so for both ways of signing, as long as the seconds do not overflow the
    nanoseconds of a duration (292 years). *)
Theorem preflight_exact query parseDate p payload metadata deadline fields get :
  owns p metadata = true -> decodeFields payload = Some fields -> stringField fields "gcs_uri" <> "" ->
  query (stringField fields "gcs_uri") = Some get -> - 2 ^ 62 <= deadline < 2 ^ 62 ->
  (forall start secs, get "X-Goog-Date" <> "" -> parseDate (get "X-Goog-Date") = Some start -> get "X-Goog-Expires" <> "" ->
     Atoi (get "X-Goog-Expires") = Some secs -> 0 <= secs <= 9223372036 ->
     Validate query parseDate p payload metadata deadline = None <-> (deadline + unixToInternal) * Second < start + secs * Second) /\
  (forall secs, get "X-Goog-Date" = "" \/ get "X-Goog-Expires" = "" -> get "Expires" <> "" -> Atoi (get "Expires") = Some secs ->
     - 2 ^ 62 <= secs < 2 ^ 62 -> Validate query parseDate p payload metadata deadline = None <-> deadline < secs).
Proof.
  intros Ho Hd Hu Hq Hr. unfold Validate. rewrite Ho, Hd. cbn [negb]. rewrite (bool_decide_eq_false_2 (_ = _)) by done.
  unfold signedURLExpiry. rewrite Hq. unfold time_Unix. rewrite (wrap64_id (deadline + _)) by (unfold unixToInternal; lia). split.
  - intros start secs H1 H2 H3 H4 H5. rewrite !bool_decide_eq_false_2 by done. cbn [negb andb]. rewrite H2, H4. cbn [mbind option_bind].
    rewrite wrap64_id by (unfold Second; lia). destruct (Z.ltb_spec ((deadline + unixToInternal) * Second) (start + secs * Second)); split; (done || lia).
  - intros secs H1 H2 H3 H4.
    assert (Hv4 : negb (bool_decide (get "X-Goog-Date" = "")) && negb (bool_decide (get "X-Goog-Expires" = "")) = false).
    { destruct H1 as [->| ->]; [done|]. apply andb_false_r. }
    rewrite Hv4, bool_decide_eq_false_2, H3 by done. cbn [negb fmap option_fmap option_map]. rewrite wrap64_id by (unfold unixToInternal; lia).
    destruct (Z.ltb_spec ((deadline + unixToInternal) * Second) ((secs + unixToInternal) * Second)) as [H|H]; unfold Second in H; split; (done || lia).
Qed.

(** A body with a "url" of its own makes a form with two such fields, of which
    only the first was checked. *)
Example own_url_repeated : form_fields "https://signed" [("url", quote "https://other")] = [("url", "https://signed"); ("url", "https://other")].
Proof. by vm_compute. Qed.

(** A field that is null is sent as an empty text. *)
Example null_becomes_empty : asFormValue "null" = "" /\ asFormValue "1" = "1".
Proof. by vm_compute. Qed.

Definition w_plugin : Plugin := mkPlugin "gcs" {["whisper"]}.
Definition w_metadata : gmap string string := {["provider" := "whisper"]}.
Definition w_body : string := print_obj [("gcs_uri", quote "u"); ("n", "1"); ("t", quote "x"); ("z", "null")].
Definition w_fields : gmap string string := {["gcs_uri" := quote "u"; "n" := "1"; "t" := quote "x"; "z" := "null"]}.
Definition w_get (k : string) : string := if bool_decide (k = "Expires") then "200" else "".

Lemma w_body_decodes : decodeFields w_body = Some w_fields.
Proof. by vm_compute. Qed.


Lemma preflight_exact_witness :
  Validate (fun _ => Some w_get) (fun _ => None) w_plugin w_body w_metadata 100 = None /\ w_get "X-Goog-Date" = "".
Proof.
  destruct (preflight_exact (fun _ => Some w_get) (fun _ => None) w_plugin w_body w_metadata 100 w_fields w_get) as [_ H2];
    [by vm_compute|exact w_body_decodes|by vm_compute|done|lia|].
  split; [|done]. apply (H2 200); [by left|by vm_compute|by vm_compute|lia|lia].
Defined.
