(* ===== verification/Server.v ===== *)
(** * The server (pkg/server, pipeline/worker_pool.go, pkg/plugins,
    pkg/asyncworker/transform/loader.go, pkg/async/mergepolicy/loader.go)

    The options with their checks, the transport they select and the
    configuration it gets, the worker pools, the plugins and the probes.  What the
    runner does from its start to its end is in the file on the lifecycle.  Reading a file and decoding its
    text is an argument: [None] where it fails.  A configuration made from the
    deprecated flags is encoded and decoded again by the code, and is the decoded
    value here. *)
From stdpp Require Import prelude gmap strings list sorting.
From Stdlib Require Import ZArith Lia.
From S2P Require Import Prelude Api RedisProducer SortedSetFlow Worker QueueRegistry HotReload PubSubFlow.

#[local] Open Scope string_scope.
#[local] Open Scope list_scope.
#[local] Open Scope Z_scope.

(** ** Options *)
Record TransportOptions : Type := mkTransport {
  to_Type : string;
  to_Config : string;
  to_ConfigFile : string;
  to_ConfigWatchInterval : Z;
  to_MergePolicyConfigFile : string
}.

Record TLSConfig : Type := mkTLS { tls_CACert : string; tls_Cert : string; tls_Key : string; tls_InsecureSkipVerify : bool }.

Record WorkerConfig : Type := mkWorkerConfig { wc_Concurrency : Z; wc_GateWaitTimeout : Z; wc_PoolConfigFile : string }.

(** The deprecated flags of the single-queue modes and of their files. *)
Record LegacyQueue : Type := mkLegacy {
  lq_IGWBaseURL : string;
  lq_RequestPathURL : string;
  lq_InferenceObjective : string;
  lq_RequestName : string;       (* the queue, or the subscription *)
  lq_RetryQueueName : string;
  lq_ResultName : string;        (* the queue, or the topic *)
  lq_Config : string;
  lq_ConfigFile : string;
  lq_PollIntervalMs : Z;
  lq_BatchSize : Z;
  lq_GateType : string
}.

Record Options : Type := mkOptions {
  op_Transport : TransportOptions;
  op_TLS : TLSConfig;
  op_Worker : WorkerConfig;
  op_RedisTracing : bool;
  op_MessageQueueImpl : string;
  op_legacyMergePolicyConfigFile : string;
  op_RedisURL : string;
  op_Redis : LegacyQueue;
  op_RedisSortedSet : LegacyQueue;
  op_PubSub : LegacyQueue;
  op_ProjectID : string;
  op_changed : option (gset string)     (* the flags set on the command line; [None]: no flag set *)
}.

Definition changed (o : Options) (flag : string) : bool :=
  match op_changed o with Some s => bool_decide (flag ∈ s) | None => false end.

Definition usingNewTransport (o : Options) : bool :=
  changed o "transport" || changed o "transport-config" || changed o "transport-config-file".

Definition mergePolicyConfigFile (o : Options) : string :=
  if changed o "request-merge-policy-config" && negb (changed o "request-merge-policy-config-file")
  then op_legacyMergePolicyConfigFile o else to_MergePolicyConfigFile (op_Transport o).

Definition set_ (s : string) : bool := negb (bool_decide (s = "")).

Definition IsQueueConfigSet (o : Options) : bool :=
  (set_ (lq_Config (op_Redis o)) || set_ (lq_ConfigFile (op_Redis o))) ||
  (set_ (lq_Config (op_RedisSortedSet o)) || set_ (lq_ConfigFile (op_RedisSortedSet o))) || set_ (lq_ConfigFile (op_PubSub o)).

Inductive OptErr : Type :=
| ErrPoolConfigAlone
| ErrWatchInterval
| ErrWatchTransport
| ErrWatchFile
| ErrTransport
| ErrBothConfigs
| ErrNoConfig
| ErrImpl
| ErrRedisURL
| ErrProject
| ErrTLSPair
| ErrGateWait
| ErrRead
| ErrWatchFlow
| ErrWatchPolicy
| ErrUnknown.

Definition Complete (o : Options) : Res OptErr unit :=
  let hasTransportConfig :=
    if usingNewTransport o then set_ (to_Config (op_Transport o)) || set_ (to_ConfigFile (op_Transport o)) else IsQueueConfigSet o in
  if set_ (wc_PoolConfigFile (op_Worker o)) && negb hasTransportConfig then Err ErrPoolConfigAlone else Ok tt.

Definition validTransports : list string := ["redis-pubsub"; "redis-sortedset"; "gcp-pubsub"; "sql"].
Definition validQueueImpls : list string := ["redis-pubsub"; "redis-sortedset"; "gcp-pubsub"; "gcp-pubsub-gated"].
Definition contains (slice : list string) (s : string) : bool := existsb (String.eqb s) slice.

Definition validateNewTransport (o : Options) : Res OptErr unit :=
  let t := op_Transport o in
  if negb (contains validTransports (to_Type t)) then Err ErrTransport
  else if set_ (to_Config t) && set_ (to_ConfigFile t) then Err ErrBothConfigs
  else if negb (set_ (to_Config t)) && negb (set_ (to_ConfigFile t)) then Err ErrNoConfig
  else Ok tt.

Definition validateLegacyTransport (o : Options) : Res OptErr unit :=
  let impl := op_MessageQueueImpl o in
  if negb (contains validQueueImpls impl) then Err ErrImpl
  else if String.prefix "redis" impl && negb (set_ (op_RedisURL o)) then Err ErrRedisURL
  else if String.prefix "gcp-pubsub" impl && negb (set_ (op_ProjectID o)) then Err ErrProject
  else Ok tt.

Definition Validate (o : Options) : Res OptErr unit :=
  let t := op_Transport o in
  if to_ConfigWatchInterval t <? 0 then Err ErrWatchInterval
  else if (0 <? to_ConfigWatchInterval t) && (negb (usingNewTransport o) || negb (bool_decide (to_Type t = "redis-sortedset")))
  then Err ErrWatchTransport
  else if (0 <? to_ConfigWatchInterval t) && (set_ (to_Config t) || negb (set_ (to_ConfigFile t))) then Err ErrWatchFile
  else match (if usingNewTransport o then validateNewTransport o else validateLegacyTransport o) with
       | Err e => Err e
       | Ok _ =>
           if xorb (set_ (tls_Cert (op_TLS o))) (set_ (tls_Key (op_TLS o))) then Err ErrTLSPair
           else if wc_GateWaitTimeout (op_Worker o) <? 0 then Err ErrGateWait
           else Ok tt
       end.

(** ** The transport *)
Definition normalizeLegacyImpl (impl : string) : string := if bool_decide (impl = "gcp-pubsub-gated") then "gcp-pubsub" else impl.

Definition effectiveTransportType (o : Options) : string :=
  if usingNewTransport o then to_Type (op_Transport o) else normalizeLegacyImpl (op_MessageQueueImpl o).

Definition legacyUngatedPubSub (o : Options) : bool := negb (usingNewTransport o) && bool_decide (op_MessageQueueImpl o = "gcp-pubsub").

Section transport.
Context {Params : Type}.

(** The parameters of a gate given by --redis.ss.gate-params, and none. *)
Context (noParams : Params) (parseGateParamsJSON : option Params).

(** The queues of a list or a file of them. *)
Context (queuesText : string -> option (list PubSubQueue)) (queuesFile : string -> option (list PubSubQueue)).
Context (ssText : string -> option (list (QueueConfig (Params := Params)))) (ssFile : string -> option (list (QueueConfig (Params := Params)))).
Context (topicsFile : string -> option (list (TopicConfig Params))).
Context (readFile : string -> option string).

Inductive transport_config : Type :=
| Text (s : string)
| RedisPubSub (c : PubSubConfig)
| RedisSortedSet (c : SortedSetConfig (Params := Params))
| GCPPubSub (c : PubSubFlow.Config Params).

Definition loadTransportConfigBytes (t : TransportOptions) : option string :=
  if set_ (to_Config t) then Some (to_Config t) else readFile (to_ConfigFile t).

Definition legacyRedisPubSubQueues (q : LegacyQueue) : option (list PubSubQueue) :=
  if set_ (lq_Config q) then queuesText (lq_Config q)
  else if set_ (lq_ConfigFile q) then queuesFile (lq_ConfigFile q)
  else Some [mkPubSubQueue (lq_RequestName q) "default" (lq_InferenceObjective q) (lq_RequestPathURL q) (lq_IGWBaseURL q) ∅].

Definition synthesizeRedisPubSubConfig (o : Options) : option PubSubConfig :=
  queues ← legacyRedisPubSubQueues (op_Redis o);
  Some (mkPubSubConfig (op_RedisURL o) "" [] "" (lq_RetryQueueName (op_Redis o)) (lq_ResultName (op_Redis o)) (op_RedisTracing o) queues).

Definition legacyRedisSortedSetQueues (q : LegacyQueue) : option (list (QueueConfig (Params := Params))) :=
  if set_ (lq_Config q) then ssText (lq_Config q)
  else if set_ (lq_ConfigFile q) then ssFile (lq_ConfigFile q)
  else
    params ← parseGateParamsJSON;
    Some [QueueRegistry.mkQueueConfig (mkQueueCfg "" (lq_RequestName q) "" 0 "default" (lq_InferenceObjective q) (lq_RequestPathURL q)
            (lq_IGWBaseURL q) (lq_GateType q) ∅) params].

Definition synthesizeRedisSortedSetConfig (o : Options) : option (SortedSetConfig (Params := Params)) :=
  let q := op_RedisSortedSet o in
  queues ← legacyRedisSortedSetQueues q;
  Some (mkSortedSetConfig (op_RedisURL o) "" None "" "" (lq_ResultName q) (lq_PollIntervalMs q) (lq_BatchSize q) (op_RedisTracing o) 0 0
          (Some queues)).

Definition legacyPubSubTopics (q : LegacyQueue) : option (list (TopicConfig Params)) :=
  if set_ (lq_ConfigFile q) then topicsFile (lq_ConfigFile q)
  else Some [mkTopic (lq_RequestName q) "default" (lq_InferenceObjective q) (lq_RequestPathURL q) (lq_IGWBaseURL q) "" "" noParams ∅].

Definition synthesizePubSubConfig (o : Options) : option (PubSubFlow.Config Params) :=
  topics ← legacyPubSubTopics (op_PubSub o);
  Some (PubSubFlow.mkConfig (op_ProjectID o) (lq_ResultName (op_PubSub o)) (lq_BatchSize (op_PubSub o)) topics).

Definition synthesizeTransportConfig (o : Options) (transportType : string) : Res OptErr transport_config :=
  let made {A : Type} (mk : A -> transport_config) (c : option A) := match c with Some c => Ok (mk c) | None => Err ErrRead end in
  if bool_decide (transportType = "redis-pubsub") then made RedisPubSub (synthesizeRedisPubSubConfig o)
  else if bool_decide (transportType = "redis-sortedset") then made RedisSortedSet (synthesizeRedisSortedSetConfig o)
  else if bool_decide (transportType = "gcp-pubsub") then made GCPPubSub (synthesizePubSubConfig o)
  else Err ErrUnknown.

Definition resolveTransport (o : Options) : Res OptErr (string * transport_config) :=
  if usingNewTransport o then
    match loadTransportConfigBytes (op_Transport o) with
    | Some data => Ok (to_Type (op_Transport o), Text data)
    | None => Err ErrRead
    end
  else
    let transportType := normalizeLegacyImpl (op_MessageQueueImpl o) in
    match synthesizeTransportConfig o transportType with
    | Ok c => Ok (transportType, c)
    | Err e => Err e
    end.
End transport.

(** ** Worker pools *)
Record WorkerPoolConfig : Type := mkPool { wp_ID : string; wp_Workers : Z; wp_GateType : string }.

Inductive PoolErr : Type :=
| ErrPoolFile
| ErrPoolID
| ErrPoolWorkers (id : string)
| ErrPoolDuplicate (id : string).

Fixpoint check_pools (seen : gset string) (pools : list WorkerPoolConfig) : Res PoolErr unit :=
  match pools with
  | [] => Ok tt
  | p :: rest =>
      if bool_decide (wp_ID p = "") then Err ErrPoolID
      else if wp_Workers p <=? 0 then Err (ErrPoolWorkers (wp_ID p))
      else if bool_decide (wp_ID p ∈ seen) then Err (ErrPoolDuplicate (wp_ID p))
      else check_pools ({[wp_ID p]} ∪ seen) rest
  end.

(** [decoded]: the file, read and decoded. *)
Definition LoadWorkerPools (decoded : option (list WorkerPoolConfig)) : Res PoolErr (list WorkerPoolConfig) :=
  match decoded with
  | None => Err ErrPoolFile
  | Some pools => match check_pools ∅ pools with Ok _ => Ok pools | Err e => Err e end
  end.

Definition pool_workers (concurrency : Z) (p : WorkerPoolConfig) : WorkerPoolConfig :=
  mkPool (wp_ID p) (if wp_Workers p <=? 0 then concurrency else wp_Workers p) (wp_GateType p).

(** The pools by id, and the number of their workers. *)
Definition loadWorkerPools (w : WorkerConfig) (decoded : option (list WorkerPoolConfig)) : Res PoolErr (gmap string WorkerPoolConfig * Z) :=
  match (if set_ (wc_PoolConfigFile w) then LoadWorkerPools decoded else Ok [mkPool "default" (wc_Concurrency w) ""]) with
  | Err e => Err e
  | Ok pools =>
      let pools := pool_workers (wc_Concurrency w) <$> pools in
      Ok (foldl (fun m p => <[wp_ID p := p]> m) ∅ pools, foldl (fun n p => n + wp_Workers p) 0 pools)
  end.

(** The workers, by the pool each serves: [pool.Workers] for each merged channel. *)
Definition spawn (pools : gmap string WorkerPoolConfig) (channels : list string) : list string :=
  channels ≫= fun id => match pools !! id with Some p => replicate (Z.to_nat (wp_Workers p)) id | None => [] end.

(** ** Hot reload and TLS, at the start *)
Definition validateQueuesConfigWatch (o : Options) (reconfigurer dynamic : bool) : Res OptErr bool :=
  let t := op_Transport o in
  if to_ConfigWatchInterval t <=? 0 then Ok false
  else if negb (usingNewTransport o) || negb (bool_decide (to_Type t = "redis-sortedset")) || negb (set_ (to_ConfigFile t)) || set_ (to_Config t)
  then Err ErrWatchTransport
  else if negb reconfigurer then Err ErrWatchFlow
  else if negb dynamic then Err ErrWatchPolicy
  else Ok true.

(** The certificate authorities and the client certificate, each from its files;
    [None] where the default is used. *)
Record tls_config : Type := mkTlsConfig { tc_insecure : bool; tc_ca : option string; tc_cert : option (string * string) }.

(** [ca] reads a bundle with a certificate in it, [pair] a certificate and key. *)
Definition buildTLSConfig (ca : string -> bool) (pair : string -> string -> bool) (c : TLSConfig) : Res OptErr (option tls_config) :=
  if negb (set_ (tls_CACert c)) && negb (set_ (tls_Cert c)) && negb (set_ (tls_Key c)) && negb (tls_InsecureSkipVerify c) then Ok None
  else if xorb (set_ (tls_Cert c)) (set_ (tls_Key c)) then Err ErrTLSPair
  else if set_ (tls_CACert c) && negb (ca (tls_CACert c)) then Err ErrRead
  else if set_ (tls_Cert c) && set_ (tls_Key c) && negb (pair (tls_Cert c) (tls_Key c)) then Err ErrRead
  else Ok (Some (mkTlsConfig (tls_InsecureSkipVerify c) (if set_ (tls_CACert c) then Some (tls_CACert c) else None)
                   (if set_ (tls_Cert c) && set_ (tls_Key c) then Some (tls_Cert c, tls_Key c) else None))).

(** ** Plugins *)
Section plugins.
Context {Plugin : Type}.

(** The name, the parameters and the plugins made so far. *)
Definition FactoryFunc : Type := string -> string -> gmap string Plugin -> option Plugin.
Definition registry : Type := gmap string FactoryFunc.

Definition Register (ty : string) (f : FactoryFunc) (r : registry) : option registry :=
  match r !! ty with Some _ => None | None => Some (<[ty := f]> r) end.
Definition Lookup (ty : string) (r : registry) : option FactoryFunc := r !! ty.

Record PluginSpec : Type := mkSpec { sp_Name : string; sp_Type : string; sp_Parameters : string }.

Inductive ChainErr : Type :=
| ErrPluginName (index : nat)
| ErrPluginType (name : string)
| ErrPluginDuplicate (name : string)
| ErrPluginUnregistered (name : string)
| ErrPluginCreate (name : string)
| ErrPluginKind (name : string).

(** [as_transform]: the assertion that a plugin is a RequestTransform.  The
    transforms made, and the plugins of the handle, also when it fails. *)
Context {T : Type} (as_transform : Plugin -> option T).

Fixpoint build_from (r : registry) (i : nat) (seen : gset string) (specs : list PluginSpec) (handle : gmap string Plugin) :
    Res ChainErr (list T) * gmap string Plugin :=
  match specs with
  | [] => (Ok [], handle)
  | spec :: rest =>
      let name := sp_Name spec in
      if bool_decide (name = "") then (Err (ErrPluginName i), handle)
      else if bool_decide (sp_Type spec = "") then (Err (ErrPluginType name), handle)
      else if bool_decide (name ∈ seen) then (Err (ErrPluginDuplicate name), handle)
      else match Lookup (sp_Type spec) r with
           | None => (Err (ErrPluginUnregistered name), handle)
           | Some factory =>
               match factory name (sp_Parameters spec) handle with
               | None => (Err (ErrPluginCreate name), handle)
               | Some plugin =>
                   match as_transform plugin with
                   | None => (Err (ErrPluginKind name), handle)
                   | Some t =>
                       let '(rs, handle') := build_from r (S i) ({[name]} ∪ seen) rest (<[name := plugin]> handle) in
                       (match rs with Ok ts => Ok (t :: ts) | Err e => Err e end, handle')
                   end
               end
           end
  end.

Definition BuildChain (r : registry) (specs : list PluginSpec) (handle : gmap string Plugin) : Res ChainErr (list T) * gmap string Plugin :=
  build_from r 0 ∅ specs handle.

(** [decoded]: the file named by the flag, read and decoded. *)
Definition loadTransforms (r : registry) (configFile : string) (decoded : option (list PluginSpec)) : Res (option ChainErr) (option (list T)) :=
  if negb (set_ configFile) then Ok None
  else match decoded with
       | None => Err None
       | Some specs => match fst (BuildChain r specs ∅) with Ok ts => Ok (Some ts) | Err e => Err (Some e) end
       end.

Inductive PolicyErr : Type := ErrPolicyFile | ErrPolicyUnknown | ErrPolicyCreate | ErrPolicyKind.

(** [as_policy]: the assertion that a plugin is a RequestMergePolicy. *)
Definition loadRequestMergePolicy {P : Type} (as_policy : Plugin -> option P) (r : registry) (configPath : string)
    (decoded : option (string * string)) : Res PolicyErr P :=
  match (if set_ configPath then decoded else Some ("random-robin", "")) with
  | None => Err ErrPolicyFile
  | Some (ty, parameters) =>
      match Lookup ty r with
      | None => Err ErrPolicyUnknown
      | Some factory =>
          match factory "default" parameters ∅ with
          | None => Err ErrPolicyCreate
          | Some plugin => match as_policy plugin with Some p => Ok p | None => Err ErrPolicyKind end
          end
      end
  end.
End plugins.

(** ** Probes (internal/health/health.go)

    [checker]: the backend's check, where the flow has one: [None] when it passes,
    the error otherwise. *)
Record response : Type := mkResponse { rs_Status : string; rs_Error : string }.

Definition handleHealthz : Z * response := (200, mkResponse "ok" "").

Definition handleReadyz (ready : bool) (checker : option (option string)) : Z * response :=
  if negb ready then (503, mkResponse "not ready" "")
  else match checker with
       | Some (Some err) => (503, mkResponse "not ready" err)
       | _ => (200, mkResponse "ready" "")
       end.

(** The readiness after the actions so far. *)

(** ** Proofs *)
Lemma contains_spec l s : contains l s = true <-> s ∈ l.
Proof.
  unfold contains. rewrite existsb_exists. split.
  - intros (x & Hx & He). apply String.eqb_eq in He. subst x. by apply list_elem_of_In.
  - intros H. exists s. split; [by apply list_elem_of_In|apply String.eqb_refl].
Qed.

Lemma Validate_split o : Validate o = Ok tt ->
  (if usingNewTransport o then validateNewTransport o else validateLegacyTransport o) = Ok tt /\
  set_ (tls_Cert (op_TLS o)) = set_ (tls_Key (op_TLS o)) /\ 0 <= wc_GateWaitTimeout (op_Worker o) /\
  (to_ConfigWatchInterval (op_Transport o) = 0 \/
   0 < to_ConfigWatchInterval (op_Transport o) /\ usingNewTransport o = true /\ to_Type (op_Transport o) = "redis-sortedset" /\
   to_Config (op_Transport o) = "" /\ to_ConfigFile (op_Transport o) <> "").
Proof.
  unfold Validate. destruct (Z.ltb_spec (to_ConfigWatchInterval (op_Transport o)) 0); [done|].
  destruct (Z.ltb_spec 0 (to_ConfigWatchInterval (op_Transport o))) as [Hw|Hw]; cbn [andb].
  - destruct (usingNewTransport o); cbn [negb orb]; [|done]. case_bool_decide as Ht; cbn [negb]; [|done]. unfold set_ at 1 2. repeat case_bool_decide; cbn [negb orb]; try done.
    destruct (validateNewTransport o) as [[]|]; [|done]. destruct (xorb _ _) eqn:Ex; [done|]. destruct (Z.ltb_spec (wc_GateWaitTimeout (op_Worker o)) 0); [done|].
    intros _. apply xorb_eq in Ex. split_and!; [done..|]. right. by split_and!.
  - destruct (if usingNewTransport o then _ else _) as [[]|]; [|done]. destruct (xorb _ _) eqn:Ex; [done|]. destruct (Z.ltb_spec (wc_GateWaitTimeout (op_Worker o)) 0); [done|].
    intros _. apply xorb_eq in Ex. split_and!; [done..|]. left. lia.
Qed.

Definition kind_of {Params : Type} (c : transport_config (Params := Params)) : option string :=
  match c with
  | Text _ => None
  | RedisPubSub _ => Some "redis-pubsub"
  | RedisSortedSet _ => Some "redis-sortedset"
  | GCPPubSub _ => Some "gcp-pubsub"
  end.

Lemma legacy_valid o : validateLegacyTransport o = Ok tt ->
  normalizeLegacyImpl (op_MessageQueueImpl o) ∈ ["redis-pubsub"; "redis-sortedset"; "gcp-pubsub"].
Proof.
  unfold validateLegacyTransport. destruct (contains validQueueImpls (op_MessageQueueImpl o)) eqn:E; [|done]. intros _. apply contains_spec in E.
  unfold validQueueImpls in E. rewrite !elem_of_cons in E. destruct E as [->|[->|[->|[->|E]]]]; [..|by apply not_elem_of_nil in E]; cbn; rewrite !elem_of_cons; tauto.
Qed.

(** C33. Options that pass the checks select a transport the server knows, and its
    configuration: the resolved type is the one that is reported, with its text
    from the one place that is set, or, from the deprecated flags, with a
    configuration of that very transport; the only failure left is that of a file
    or a text that cannot be read.  The checks the start makes later agree: hot
    reload is on exactly where it was asked for, given a flow and a policy that
    support it, and the TLS configuration is never refused for a certificate
    without its key. *)
Theorem validated_transport_resolves {Params : Type} noParams parse qText qFile sText sFile tFile readFile o :
  Validate o = Ok tt ->
  effectiveTransportType o ∈ validTransports /\
  match resolveTransport (Params := Params) noParams parse qText qFile sText sFile tFile readFile o with
  | Err e => e = ErrRead
  | Ok (ty, c) => ty = effectiveTransportType o /\
      if usingNewTransport o
      then exists s, c = Text s /\ (to_Config (op_Transport o) = "" -> readFile (to_ConfigFile (op_Transport o)) = Some s) /\
             (to_Config (op_Transport o) <> "" -> s = to_Config (op_Transport o) /\ to_ConfigFile (op_Transport o) = "")
      else kind_of c = Some ty
  end /\
  (forall reconfigurer dynamic : bool, reconfigurer = true -> dynamic = true ->
     validateQueuesConfigWatch o reconfigurer dynamic = Ok (0 <? to_ConfigWatchInterval (op_Transport o))) /\
  (forall ca pair, buildTLSConfig ca pair (op_TLS o) <> Err ErrTLSPair).
Proof.
  intros Hv. apply Validate_split in Hv as (Hval & Htls & _ & Hwatch). split_and!.
  - unfold effectiveTransportType. destruct (usingNewTransport o).
    + unfold validateNewTransport in Hval. destruct (contains validTransports _) eqn:E; [|done]. by apply contains_spec.
    + apply legacy_valid in Hval. unfold validTransports. set_solver.
  - unfold resolveTransport, effectiveTransportType. destruct (usingNewTransport o).
    + unfold validateNewTransport in Hval. unfold loadTransportConfigBytes, set_ in *. destruct (contains _ _); [|done].
      destruct (decide (to_Config (op_Transport o) = "")) as [Hc|Hc].
      * rewrite !(bool_decide_eq_true_2 (to_Config (op_Transport o) = "")) in * by done. cbn [negb] in *. destruct (readFile _) eqn:Er; [|done].
        split; [done|]. eexists. split; [done|]. split; [intros _; first [done|exact Er]|by intros []].
      * rewrite !(bool_decide_eq_false_2 (to_Config (op_Transport o) = "")) in * by done. cbn [negb andb] in *. split; [done|]. eexists. split; [done|]. split; [done|].
        intros _. split; [done|]. destruct (decide (to_ConfigFile (op_Transport o) = "")); [done|]. by rewrite bool_decide_eq_false_2 in Hval.
    + apply legacy_valid in Hval. unfold synthesizeTransportConfig. rewrite !elem_of_cons in Hval.
      destruct Hval as [->|[->|[->|Hval]]]; [..|by apply not_elem_of_nil in Hval]; cbn -[synthesizeRedisPubSubConfig synthesizeRedisSortedSetConfig synthesizePubSubConfig].
      * by destruct (synthesizeRedisPubSubConfig _ _ _).
      * by destruct (synthesizeRedisSortedSetConfig _ _ _ _).
      * by destruct (synthesizePubSubConfig _ _ _).
  - intros ? ? -> ->. unfold validateQueuesConfigWatch, set_. destruct Hwatch as [->|(Hpos & -> & -> & -> & Hf)]; [done|].
    rewrite (proj2 (Z.leb_gt _ _) Hpos), (proj2 (Z.ltb_lt _ _) Hpos). by rewrite (bool_decide_eq_false_2 (_ = "")).
  - intros ca pair. unfold buildTLSConfig. rewrite Htls, xorb_nilpotent. by repeat case_match.
Qed.

Definition w_legacy : LegacyQueue := mkLegacy "" "/v1/completions" "" "q" "" "r" "" "" 1000 10 "".
Definition w_options : Options :=
  mkOptions (mkTransport "redis-sortedset" "" "/etc/transport.json" 30 "") (mkTLS "" "c.pem" "k.pem" false) (mkWorkerConfig 8 0 "") false "redis-pubsub" ""
    "redis://localhost" w_legacy w_legacy w_legacy "" (Some {["transport"; "transport-config-file"]}).

Lemma validated_transport_resolves_witness :
  Validate w_options = Ok tt /\ effectiveTransportType w_options = "redis-sortedset" /\
  validateQueuesConfigWatch w_options true true = Ok true.
Proof.
  assert (Hv : Validate w_options = Ok tt) by reflexivity. split; [done|]. split; [done|].
  exact (proj1 (proj2 (proj2 (validated_transport_resolves (Params := unit) tt (Some tt) (fun _ => None) (fun _ => None) (fun _ => None)
    (fun _ => None) (fun _ => None) (fun _ => Some "{}") w_options Hv))) true true eq_refl eq_refl).
Defined.

(** ** Pools *)
Lemma check_pools_ok seen pools : check_pools seen pools = Ok tt ->
  NoDup (wp_ID <$> pools) /\ Forall (fun p => wp_ID p <> "" /\ 0 < wp_Workers p /\ wp_ID p ∉ seen) pools.
Proof.
  revert seen. induction pools as [|p pools IH]; intros seen; cbn [check_pools]; [intros _; split; [constructor|done]|].
  case_bool_decide; [done|]. destruct (Z.leb_spec (wp_Workers p) 0); [done|]. case_bool_decide as Hs; [done|].
  intros (Hnd & Hall)%IH. rewrite Forall_forall in Hall. split.
  - rewrite fmap_cons. constructor; [|done]. intros (x & Hx & Hin)%list_elem_of_fmap. destruct (Hall x Hin) as (_ & _ & Hn). set_solver.
  - constructor; [done|]. apply Forall_forall. intros x Hx. destruct (Hall x Hx) as (? & ? & ?). split_and!; [done..|set_solver].
Qed.

Lemma insert_all_lookup (pools : list WorkerPoolConfig) (m : gmap string WorkerPoolConfig) (p : WorkerPoolConfig) (id : string) :
  NoDup (wp_ID <$> pools) ->
  foldl (fun m p => <[wp_ID p := p]> m) m pools !! id = Some p <->
  (p ∈ pools /\ wp_ID p = id) \/ (m !! id = Some p /\ id ∉ wp_ID <$> pools).
Proof.
  revert m. induction pools as [|q pools IH]; intros m; cbn [foldl].
  - intros _. rewrite fmap_nil. set_solver.
  - rewrite fmap_cons, NoDup_cons. intros (Hq & Hnd). rewrite IH by done. rewrite lookup_insert_Some, !elem_of_cons.
    split.
    + intros [?|([[? ->]|?] & ?)]; [tauto|left; tauto|right; naive_solver].
    + intros [([->| ?] & <-)|(? & ?)]; [right; tauto|left; tauto|right; naive_solver].
Qed.

Lemma filter_self_replicate (id : string) (n : nat) : filter (eq id) (replicate n id) = replicate n id.
Proof. induction n as [|n IH]; [done|]. cbn [replicate]. by rewrite filter_cons_True, IH. Qed.

Lemma spawn_skip (pools : gmap string WorkerPoolConfig) (channels : list string) (id : string) :
  id ∉ channels -> filter (eq id) (spawn pools channels) = [].
Proof.
  intros Hl. apply elem_of_nil_inv. intros x (<- & (y & Hx & Hy)%list_elem_of_bind)%list_elem_of_filter.
  destruct (pools !! y); [|by apply not_elem_of_nil in Hx]. by apply elem_of_replicate in Hx as [-> _].
Qed.

Lemma spawn_count (pools : gmap string WorkerPoolConfig) (channels : list string) (id : string) (p : WorkerPoolConfig) :
  NoDup channels -> id ∈ channels -> pools !! id = Some p ->
  length (filter (eq id) (spawn pools channels)) = Z.to_nat (wp_Workers p).
Proof.
  intros Hnd Hin Hp. induction Hnd as [|c channels Hc Hnd IH]; [by apply not_elem_of_nil in Hin|].
  replace (spawn pools (c :: channels)) with (spawn pools [c] ++ spawn pools channels) by (unfold spawn; cbn; by rewrite app_nil_r).
  rewrite filter_app, length_app. destruct (decide (id = c)) as [->|Hne].
  - rewrite (spawn_skip _ channels) by done. unfold spawn. cbn [mbind list_bind]. rewrite Hp, app_nil_r.
    rewrite filter_self_replicate, length_replicate. cbn. lia.
  - apply elem_of_cons in Hin as [|Hin]; [done|]. rewrite IH by done. rewrite spawn_skip; [done|set_solver].
Qed.

Definition pools_of (w : WorkerConfig) (decoded : option (list WorkerPoolConfig)) (pools : list WorkerPoolConfig) : Prop :=
  if set_ (wc_PoolConfigFile w) then decoded = Some pools /\ Forall (fun p => wp_ID p <> "" /\ 0 < wp_Workers p) pools
  else pools = [mkPool "default" (wc_Concurrency w) ""].

Lemma loadWorkerPools_pools w decoded m total : loadWorkerPools w decoded = Ok (m, total) ->
  exists pools, pools_of w decoded pools /\ NoDup (wp_ID <$> pools) /\
    m = foldl (fun m p => <[wp_ID p := p]> m) ∅ pools /\ total = foldl (fun n p => n + wp_Workers p) 0 pools.
Proof.
  unfold loadWorkerPools, pools_of. destruct (set_ (wc_PoolConfigFile w)).
  - unfold LoadWorkerPools. destruct decoded as [pools|]; [|done]. destruct (check_pools ∅ pools) as [[]|] eqn:Hc; [|done].
    apply check_pools_ok in Hc as (Hnd & Hall).
    assert (Hall' : Forall (fun p => wp_ID p <> "" /\ 0 < wp_Workers p) pools) by (eapply Forall_impl; [exact Hall|]; cbn; tauto).
    assert (Hid : pool_workers (wc_Concurrency w) <$> pools = pools).
    { rewrite <- (list_fmap_id pools) at 2. apply Forall_fmap_ext_1. eapply Forall_impl; [exact Hall'|]. intros [i n g] (_ & Hn). cbn in *.
      unfold pool_workers. cbn. by rewrite (proj2 (Z.leb_gt _ _) Hn). }
    rewrite Hid. intros. simplify_eq. by exists pools.
  - intros H. exists [mkPool "default" (wc_Concurrency w) ""].
    assert (Hd : pool_workers (wc_Concurrency w) (mkPool "default" (wc_Concurrency w) "") = mkPool "default" (wc_Concurrency w) "")
      by (unfold pool_workers; cbn; by rewrite Tauto.if_same).
    rewrite fmap_cons, fmap_nil, Hd in H. injection H as <- <-. split_and!; [done| |done..]. apply NoDup_singleton.
Qed.

Lemma foldl_workers (pools : list WorkerPoolConfig) (n : Z) :
  foldl (fun n p => n + wp_Workers p) n pools = n + foldr Z.add 0 (wp_Workers <$> pools).
Proof. revert n. induction pools as [|p pools IH]; intros n; [cbn; lia|]. rewrite fmap_cons. cbn [foldl foldr]. rewrite IH. lia. Qed.

(** The worker pools the start loads are those configured: with a file, every
    pool of it and no other is found under its own id, which is unique and not
    empty, with the workers it asks for, and without one the single pool named
    "default"; the total is the sum of their workers.  A pool whose queues are
    merged into a channel gets exactly its own number of workers. *)
Theorem pools_ready (w : WorkerConfig) (decoded : option (list WorkerPoolConfig)) (m : gmap string WorkerPoolConfig) (total : Z) :
  loadWorkerPools w decoded = Ok (m, total) ->
  exists pools : list WorkerPoolConfig,
    pools_of w decoded pools /\ NoDup (wp_ID <$> pools) /\ (forall id p, m !! id = Some p <-> p ∈ pools /\ wp_ID p = id) /\
    total = foldr Z.add 0 (wp_Workers <$> pools) /\
    (forall channels id p, NoDup channels -> id ∈ channels -> m !! id = Some p ->
       length (filter (eq id) (spawn m channels)) = Z.to_nat (wp_Workers p)).
Proof.
  intros (pools & Hsrc & Hnd & -> & ->)%loadWorkerPools_pools. exists pools. split_and!; [done..| | |by intros; apply spawn_count].
  - intros id p. rewrite insert_all_lookup by done. set_solver.
  - by rewrite foldl_workers.
Qed.

Definition w_pools : list WorkerPoolConfig := [mkPool "fast" 2 ""; mkPool "slow" 1 "constant"].

Lemma pools_ready_witness :
  match loadWorkerPools (mkWorkerConfig 8 0 "pools.json") (Some w_pools) with
  | Ok (m, total) => total = 3 /\ length (filter (eq "fast") (spawn m ["slow"; "fast"])) = 2%nat
  | Err _ => False
  end.
Proof.
  destruct (loadWorkerPools (mkWorkerConfig 8 0 "pools.json") (Some w_pools)) as [[m total]|] eqn:H; [|by vm_compute in H].
  destruct (pools_ready _ _ _ _ H) as (pools & (Hd & _) & _ & Hm & Ht & Hspawn). injection Hd as <-. split; [exact Ht|].
  apply (Hspawn _ _ (mkPool "fast" 2 "")).
  - repeat constructor; set_solver.
  - set_solver.
  - apply Hm. split; [by left|done].
Defined.

(** ** The chain of plugins *)
Section chain.
Context {Plugin T : Type} (as_transform : Plugin -> option T) (r : registry (Plugin := Plugin)).

(** The transform of a specification, and its plugin on the handle. *)
Definition made_from (handle : gmap string Plugin) (spec : PluginSpec) (t : T) : Prop :=
  exists factory before plugin, Lookup (sp_Type spec) r = Some factory /\ factory (sp_Name spec) (sp_Parameters spec) before = Some plugin /\
    as_transform plugin = Some t /\ handle !! sp_Name spec = Some plugin.

Lemma build_from_spec i seen specs h h' rs : build_from as_transform r i seen specs h = (rs, h') ->
  (forall n, n ∉ sp_Name <$> specs -> h' !! n = h !! n) /\
  match rs with
  | Ok ts => NoDup (sp_Name <$> specs) /\ Forall (fun s => sp_Name s <> "" /\ sp_Name s ∉ seen) specs /\ Forall2 (made_from h') specs ts
  | Err _ => exists pre bad rest ts, specs = pre ++ bad :: rest /\ build_from as_transform r i seen pre h = (Ok ts, h')
  end.
Proof.
  revert i seen h h' rs. induction specs as [|s specs IH]; intros i seen h h' rs; cbn [build_from].
  { intros [= <- <-]. split; [done|]. rewrite fmap_nil. split_and!; constructor. }
  assert (Hstop : forall e : ChainErr, (Err e, h) = (rs, h') -> (forall n, n ∉ sp_Name <$> s :: specs -> h' !! n = h !! n) /\
    match rs with Ok _ => False | Err _ => exists pre bad rest ts, s :: specs = pre ++ bad :: rest /\ build_from as_transform r i seen pre h = (Ok ts, h') end).
  { intros e [= <- <-]. split; [done|]. exists [], s, specs, []. done. }
  case_bool_decide as Hn; [intros [? H]%Hstop; by destruct rs|]. case_bool_decide as Ht; [intros [? H]%Hstop; by destruct rs|].
  case_bool_decide as Hs; [intros [? H]%Hstop; by destruct rs|].
  destruct (Lookup (sp_Type s) r) as [f|] eqn:Hl; [|intros [? H]%Hstop; by destruct rs].
  destruct (f _ _ h) as [pl|] eqn:Hf; [|intros [? H]%Hstop; by destruct rs].
  destruct (as_transform pl) as [t|] eqn:Ha; [|intros [? H]%Hstop; by destruct rs]. clear Hstop.
  destruct (build_from _ _ (S i) _ specs _) as [rs0 h0] eqn:Hb. intros [= <- <-]. destruct (IH _ _ _ _ _ Hb) as (Hkeep & Hrs). split.
  - intros n. rewrite fmap_cons, not_elem_of_cons. intros [Hne Hni]. by rewrite Hkeep, lookup_insert_ne.
  - destruct rs0 as [ts|e].
    + destruct Hrs as (Hnd & Hall & H2). rewrite Forall_forall in Hall.
      assert (Hfresh : sp_Name s ∉ sp_Name <$> specs) by (intros (x & Hx & Hin)%list_elem_of_fmap; destruct (Hall x Hin); set_solver).
      split_and!; [by rewrite fmap_cons, NoDup_cons| |].
      * constructor; [done|]. apply Forall_forall. intros x Hx. destruct (Hall x Hx). split; [done|set_solver].
      * constructor; [|done]. exists f, h, pl. by rewrite Hkeep, lookup_insert_eq.
    + destruct Hrs as (pre & bad & rest & ts & -> & Hpre). exists (s :: pre), bad, rest, (t :: ts). split; [done|]. cbn [build_from].
      rewrite !bool_decide_eq_false_2, Hl, Hf, Ha, Hpre by done. done.
Qed.
End chain.

(** A chain of transforms that is built has one transform per entry of the
    configuration, in its order, each made by the factory registered for its type
    and found on the handle under its own name, and the names are unique and not
    empty; the plugins of other names stay.  A chain that is refused stops at the
    first entry that cannot be made: those before it were made the same way, and
    nothing after it was. *)
Theorem chain_built {Plugin T : Type} (as_transform : Plugin -> option T) (r : registry (Plugin := Plugin)) specs h :
  let '(rs, h') := BuildChain as_transform r specs h in
  (forall n, n ∉ sp_Name <$> specs -> h' !! n = h !! n) /\
  match rs with
  | Ok ts => NoDup (sp_Name <$> specs) /\ Forall (fun s => sp_Name s <> "") specs /\ Forall2 (made_from as_transform r h') specs ts
  | Err _ => exists pre bad rest ts, specs = pre ++ bad :: rest /\ BuildChain as_transform r pre h = (Ok ts, h')
  end.
Proof.
  unfold BuildChain. destruct (build_from _ _ _ _ _ _) as [rs h'] eqn:Hb. apply build_from_spec in Hb as (Hkeep & Hrs). split; [done|].
  destruct rs; [|done]. destruct Hrs as (? & Hall & ?). split_and!; [done| |done]. eapply Forall_impl; [exact Hall|]. cbn. tauto.
Qed.
