(* ===== verification/Lifecycle.v ===== *)
(** The life of a flow's goroutines: [Start], [StopConsuming] and [Shutdown] of the
    three flows that keep their requests in a store (pkg/sqlflow/flow.go,
    pkg/redis/sortedset_impl.go and pkg/redis/redisimpl.go), driven by the runner
    (pkg/server/runner.go) together with its inference workers.

    A flow is the list of the statements its three methods execute; the runner is
    their composition.  A state holds the statements still ahead of the runner, the
    contexts, the goroutines that run with where they are in their loops, the
    channels, and what became of every request a worker took.  What a loop does in
    its body is the subject of the files on the flows; here a body is busy or not,
    and a sink (the retry and the result worker) holds the batch it works on.

    Left out: the goroutines the runner does not await (backlog poller, probes),
    queues that come and go by a reload (in the queue registry), and the Pub/Sub
    flow, whose callbacks are a step system of their own. *)
From stdpp Require Import prelude gmap list.
From Stdlib Require Import Lia.
From S2P Require Import Prelude Server.

Definition msg : Type := nat.

(** The context of the process, that of the requests in flight ([drainCtx] of the
    runner), and those a flow makes for consumption, drain and heartbeat. *)
Inductive ctxt : Type := CSignal | CRequest | CConsume | CDrain | CHeartbeat.

Inductive wgroup : Type := WWorkers | WConsume | WDrain | WHeartbeat.

Inductive routine : Type :=
| Inference (i : nat) | Consumer (i : nat) | RetryMover | RetryPoller | Reclaimer | RetrySink | ResultSink | Heartbeat.

#[export] Instance ctxt_eq_dec : EqDecision ctxt.
Proof. solve_decision. Defined.
#[export] Instance wgroup_eq_dec : EqDecision wgroup.
Proof. solve_decision. Defined.
#[export] Instance routine_eq_dec : EqDecision routine.
Proof. solve_decision. Defined.

Definition ctxt_code (c : ctxt) : nat :=
  match c with CSignal => 0 | CRequest => 1 | CConsume => 2 | CDrain => 3 | CHeartbeat => 4 end.
Definition ctxt_decode (n : nat) : ctxt :=
  match n with 0 => CSignal | 1 => CRequest | 2 => CConsume | 3 => CDrain | _ => CHeartbeat end.
#[export] Instance ctxt_countable : Countable ctxt.
Proof. refine (inj_countable' ctxt_code ctxt_decode _). by intros []. Defined.

Definition routine_code (r : routine) : nat * nat :=
  match r with
  | Inference i => (0, i) | Consumer i => (1, i) | RetryMover => (2, 0) | RetryPoller => (3, 0) | Reclaimer => (4, 0)
  | RetrySink => (5, 0) | ResultSink => (6, 0) | Heartbeat => (7, 0)
  end.
Definition routine_decode (n : nat * nat) : routine :=
  match n with
  | (0, i) => Inference i | (1, i) => Consumer i | (2, _) => RetryMover | (3, _) => RetryPoller | (4, _) => Reclaimer
  | (5, _) => RetrySink | (6, _) => ResultSink | _ => Heartbeat
  end.
#[export] Instance routine_countable : Countable routine.
Proof. refine (inj_countable' routine_code routine_decode _). by intros []. Defined.

(** Where a goroutine is: a loop over a ticker, in its body or at its select; an
    inference worker, before or after it saw the end of its context, with the
    request it holds; a sink, likewise, with the batch it collects and writes. *)
Inductive gstate : Type :=
| Ticking (busy : bool)
| Working (draining : bool) (held : option msg)
| Sinking (draining : bool) (batch : list msg).

(** The statements.  [OGo g c r st]: add to the group, and run [r] under [c], from
    [st]; [OUse], [OClose]: a call on the store, and its closing; [OReady]: what the
    health server tells from then on. *)
Inductive op : Type :=
| OMake (c : ctxt) | OGo (g : wgroup) (c : ctxt) (r : routine) (st : gstate) | OCancel (c : ctxt) | OWait (g : wgroup)
| OAwait (c : ctxt) | OSelectDrained | OUse (what : nat) | OReady (b : bool) | OClose.

#[export] Instance gstate_eq_dec : EqDecision gstate.
Proof. solve_decision. Defined.
#[export] Instance op_eq_dec : EqDecision op.
Proof. solve_decision. Defined.

Record Flow : Type := mkFlow {
  fl_Start : list op; fl_StopConsuming : list op; fl_Shutdown : list op;
  fl_retryBatch : nat; fl_resultBatch : nat;
}.

Definition consumers (queues : nat) : list op :=
  map (fun i => OGo WConsume CConsume (Consumer i) (Ticking false)) (seq 0 queues).

Definition sinks : list op := [OGo WDrain CDrain RetrySink (Sinking false []); OGo WDrain CDrain ResultSink (Sinking false [])].

(** ** The SQL flow: the heartbeat rebalances before its first tick; [StopConsuming]
    stops the consumers and rebalances once; [Shutdown] stops the cancellation
    checks, closes the quota store and releases the partitions. *)
Definition sql_Start (queues : nat) : list op :=
  [OMake CConsume; OMake CDrain; OMake CHeartbeat] ++ consumers queues ++ sinks ++
  [OGo WHeartbeat CHeartbeat Heartbeat (Ticking true)].

Definition sql_StopConsuming : list op := [OCancel CConsume; OWait WConsume; OUse 0; OUse 1].

Definition sql_Shutdown : list op :=
  [OCancel CDrain; OWait WDrain; OCancel CHeartbeat; OWait WHeartbeat; OUse 2; OUse 3; OUse 4; OClose].

Definition sqlFlow (queues resultBatchSize : nat) : Flow :=
  mkFlow (sql_Start queues) sql_StopConsuming sql_Shutdown 1 resultBatchSize.

(** ** The sorted-set flow: the mover stops with the consumers, the reclaimer with the
    sinks. *)
Definition sortedset_Start (queues : nat) : list op :=
  [OMake CConsume; OMake CDrain; OMake CHeartbeat] ++ consumers queues ++
  [OGo WConsume CConsume RetryMover (Ticking false)] ++ sinks ++
  [OGo WDrain CDrain Reclaimer (Ticking false); OGo WHeartbeat CHeartbeat Heartbeat (Ticking false)].

Definition sortedset_StopConsuming : list op := [OCancel CConsume; OWait WConsume].

Definition sortedset_Shutdown : list op := [OCancel CDrain; OWait WDrain; OCancel CHeartbeat; OWait WHeartbeat; OClose].

Definition maxBatchSize : nat := 32.

Definition sortedsetFlow (queues : nat) : Flow :=
  mkFlow (sortedset_Start queues) sortedset_StopConsuming sortedset_Shutdown maxBatchSize maxBatchSize.

(** ** The pub/sub flow over Redis has no claims to renew, and leaves its client open. *)
Definition redismq_Start (queues : nat) : list op :=
  [OMake CConsume; OMake CDrain] ++ consumers queues ++
  [OGo WDrain CDrain RetrySink (Sinking false []); OGo WDrain CDrain RetryPoller (Ticking true);
   OGo WDrain CDrain ResultSink (Sinking false [])].

Definition redismq_StopConsuming : list op := [OCancel CConsume; OWait WConsume].

Definition redismq_Shutdown : list op := [OCancel CDrain; OWait WDrain].

Definition redismqFlow (queues : nat) : Flow :=
  mkFlow (redismq_Start queues) redismq_StopConsuming redismq_Shutdown 1 maxBatchSize.

(** ** The runner

    When the workers are done before the drain timeout, the wait that follows it
    in the other branch is over at once. *)
Definition workers (n : nat) : list op := map (fun i => OGo WWorkers CSignal (Inference i) (Working false None)) (seq 0 n).

Definition Run (n : nat) (f : Flow) : list op :=
  OMake CRequest :: workers n ++ fl_Start f ++ [OReady true; OAwait CSignal; OReady false] ++ fl_StopConsuming f ++ [OSelectDrained; OWait WWorkers] ++
  fl_Shutdown f.

(** [st_taken]: the requests workers took; [st_done]: those a sink dealt with;
    [st_dropped]: those given up because their context had ended. *)
Record state : Type := mkState {
  st_main : list op; st_ctxs : gmap ctxt bool; st_gos : gmap routine (wgroup * ctxt * gstate);
  st_pending : list msg; st_results : list msg; st_open : bool; st_ready : bool;
  st_taken : list msg; st_done : list msg; st_dropped : list msg;
}.

Definition init (p : list op) : state := mkState p {[CSignal := false]} ∅ [] [] true false [] [] [].

Definition at_main (l : list op) (s : state) : state :=
  mkState l (st_ctxs s) (st_gos s) (st_pending s) (st_results s) (st_open s) (st_ready s) (st_taken s) (st_done s) (st_dropped s).
Definition with_ctxs (c : gmap ctxt bool) (s : state) : state :=
  mkState (st_main s) c (st_gos s) (st_pending s) (st_results s) (st_open s) (st_ready s) (st_taken s) (st_done s) (st_dropped s).
Definition with_gos (g : gmap routine (wgroup * ctxt * gstate)) (s : state) : state :=
  mkState (st_main s) (st_ctxs s) g (st_pending s) (st_results s) (st_open s) (st_ready s) (st_taken s) (st_done s) (st_dropped s).
Definition with_pending (l : list msg) (s : state) : state :=
  mkState (st_main s) (st_ctxs s) (st_gos s) l (st_results s) (st_open s) (st_ready s) (st_taken s) (st_done s) (st_dropped s).
Definition with_results (l : list msg) (s : state) : state :=
  mkState (st_main s) (st_ctxs s) (st_gos s) (st_pending s) l (st_open s) (st_ready s) (st_taken s) (st_done s) (st_dropped s).
Definition closed (s : state) : state :=
  mkState (st_main s) (st_ctxs s) (st_gos s) (st_pending s) (st_results s) false (st_ready s) (st_taken s) (st_done s) (st_dropped s).
Definition set_ready (b : bool) (s : state) : state :=
  mkState (st_main s) (st_ctxs s) (st_gos s) (st_pending s) (st_results s) (st_open s) b (st_taken s) (st_done s) (st_dropped s).
Definition add_taken (x : msg) (s : state) : state :=
  mkState (st_main s) (st_ctxs s) (st_gos s) (st_pending s) (st_results s) (st_open s) (st_ready s) (x :: st_taken s) (st_done s) (st_dropped s).
Definition add_done (l : list msg) (s : state) : state :=
  mkState (st_main s) (st_ctxs s) (st_gos s) (st_pending s) (st_results s) (st_open s) (st_ready s) (st_taken s) (l ++ st_done s) (st_dropped s).
Definition add_dropped (x : msg) (s : state) : state :=
  mkState (st_main s) (st_ctxs s) (st_gos s) (st_pending s) (st_results s) (st_open s) (st_ready s) (st_taken s) (st_done s) (x :: st_dropped s).

Definition cancelled (c : ctxt) (s : state) : Prop := st_ctxs s !! c = Some true.

(** A cancel function that was not made yet is nil, and is not called. *)
Definition cancel (c : ctxt) (m : gmap ctxt bool) : gmap ctxt bool := alter (fun _ => true) c m.

Definition group_of (v : wgroup * ctxt * gstate) : wgroup := v.1.1.

Definition none_in (g : wgroup) (s : state) : Prop := forall r v, st_gos s !! r = Some v -> group_of v <> g.

Definition put (r : routine) (g : wgroup) (c : ctxt) (st : gstate) (s : state) : state := with_gos (<[r := (g, c, st)]> (st_gos s)) s.
Definition exit (r : routine) (s : state) : state := with_gos (delete r (st_gos s)) s.

Definition resultChannelBuffer : nat := 64.

(** Whether a sink that collected [b] takes another: [drainBatch]. *)
Definition room (limit : nat) (b : list msg) : Prop := b = [] \/ length b < limit.

(** What may be sent to the request channels. *)
Definition feeds (r : routine) : bool := match r with Consumer _ | RetryPoller => true | _ => false end.

Section steps.
Context (f : Flow).

(** The runner's next statement; and the signal, which may come at any time. *)
Inductive runner_step (s : state) : state -> Prop :=
| s_make c l : st_main s = OMake c :: l -> runner_step s (at_main l (with_ctxs (<[c := false]> (st_ctxs s)) s))
| s_go g c r st l : st_main s = OGo g c r st :: l -> runner_step s (at_main l (put r g c st s))
| s_cancel c l : st_main s = OCancel c :: l -> runner_step s (at_main l (with_ctxs (cancel c (st_ctxs s)) s))
| s_wait g l : st_main s = OWait g :: l -> none_in g s -> runner_step s (at_main l s)
| s_await c l : st_main s = OAwait c :: l -> cancelled c s -> runner_step s (at_main l s)
| s_drained l : st_main s = OSelectDrained :: l -> none_in WWorkers s -> runner_step s (at_main l s)
| s_timeout l : st_main s = OSelectDrained :: l -> runner_step s (at_main l (with_ctxs (cancel CRequest (st_ctxs s)) s))
| s_use n l : st_main s = OUse n :: l -> runner_step s (at_main l s)
| s_ready b l : st_main s = OReady b :: l -> runner_step s (at_main l (set_ready b s))
| s_close l : st_main s = OClose :: l -> runner_step s (at_main l (closed s))
| s_signal : runner_step s (with_ctxs (cancel CSignal (st_ctxs s)) s).

(** A loop over a ticker: its body runs, sends a request to the request channels if it
    is one that does, and ends; at the select the loop may leave once its context has
    ended. *)
Inductive loop_step (s : state) : state -> Prop :=
| s_tick r g c : st_gos s !! r = Some (g, c, Ticking false) -> loop_step s (put r g c (Ticking true) s)
| s_rest r g c : st_gos s !! r = Some (g, c, Ticking true) -> loop_step s (put r g c (Ticking false) s)
| s_stop r g c : st_gos s !! r = Some (g, c, Ticking false) -> cancelled c s -> loop_step s (exit r s)
| s_dispatch r g c x : st_gos s !! r = Some (g, c, Ticking true) -> feeds r = true -> loop_step s (with_pending (st_pending s ++ [x]) s).

(** An inference worker takes a request, and ends with a result, a retry, or nothing
    if the context of the requests has ended.  After the signal it hands what it still
    finds to the retry channel, and leaves when it finds nothing for a while. *)
Inductive worker_step (s : state) : state -> Prop :=
| s_take r g c d x p1 p2 : st_gos s !! r = Some (g, c, Working d None) -> st_pending s = p1 ++ x :: p2 ->
    worker_step s (put r g c (Working d (Some x)) (with_pending (p1 ++ p2) (add_taken x s)))
| s_quit r g c : st_gos s !! r = Some (g, c, Working false None) -> cancelled c s -> worker_step s (put r g c (Working true None) s)
| s_idle r g c : st_gos s !! r = Some (g, c, Working true None) -> worker_step s (exit r s)
| s_result r g c x : st_gos s !! r = Some (g, c, Working false (Some x)) -> length (st_results s) < resultChannelBuffer ->
    worker_step s (put r g c (Working false None) (with_results (st_results s ++ [x]) s))
| s_retry r g c d x g' c' e b : st_gos s !! r = Some (g, c, Working d (Some x)) ->
    st_gos s !! RetrySink = Some (g', c', Sinking e b) -> room (fl_retryBatch f) b ->
    worker_step s (put RetrySink g' c' (Sinking e (b ++ [x])) (put r g c (Working d None) s))
| s_drop r g c x : st_gos s !! r = Some (g, c, Working false (Some x)) -> cancelled CRequest s ->
    worker_step s (put r g c (Working false None) (add_dropped x s)).

(** A sink collects a batch and writes it; once its context has ended it goes on until
    its channel is empty, and leaves.  The retry channel has no buffer. *)
Inductive sink_step (s : state) : state -> Prop :=
| s_collect g c e b x l : st_gos s !! ResultSink = Some (g, c, Sinking e b) -> st_results s = x :: l -> room (fl_resultBatch f) b ->
    sink_step s (put ResultSink g c (Sinking e (b ++ [x])) (with_results l s))
| s_flush r g c e b : st_gos s !! r = Some (g, c, Sinking e b) -> b <> [] -> sink_step s (put r g c (Sinking e []) (add_done b s))
| s_ending r g c : st_gos s !! r = Some (g, c, Sinking false []) -> cancelled c s -> sink_step s (put r g c (Sinking true []) s)
| s_empty r g c : st_gos s !! r = Some (g, c, Sinking true []) -> (r = ResultSink -> st_results s = []) -> sink_step s (exit r s).

Inductive step (s : state) : state -> Prop :=
| by_runner s' : runner_step s s' -> step s s'
| by_loop s' : loop_step s s' -> step s s'
| by_worker s' : worker_step s s' -> step s s'
| by_sink s' : sink_step s s' -> step s s'.
End steps.

(** ** Orderly programs

    Where [a] is executed, [b] is still ahead. *)
Definition after (P : list op) (a b : op) : Prop := forall l1 l2, P = l1 ++ a :: l2 -> b ∈ l2.

Definition home (r : routine) : wgroup * ctxt :=
  match r with
  | Inference _ => (WWorkers, CSignal)
  | Consumer _ | RetryMover => (WConsume, CConsume)
  | RetryPoller | Reclaimer | RetrySink | ResultSink => (WDrain, CDrain)
  | Heartbeat => (WHeartbeat, CHeartbeat)
  end.

Definition shape (r : routine) (st : gstate) : Prop :=
  match r, st with
  | Inference _, Working _ _ | (RetrySink | ResultSink), Sinking _ _ => True
  | (Inference _ | RetrySink | ResultSink), _ => False
  | _, Ticking _ => True
  | _, _ => False
  end.

Definition holds (st : gstate) : list msg :=
  match st with Ticking _ => [] | Working _ x => option_list x | Sinking _ b => b end.

(** A sink drains only after its context has ended. *)
Definition late (st : gstate) : bool := match st with Sinking e _ => e | _ => false end.

(** The context that ends a group, and the statement after which it has ended. *)
Definition ctx_of (g : wgroup) : ctxt :=
  match g with WWorkers => CSignal | WConsume => CConsume | WDrain => CDrain | WHeartbeat => CHeartbeat end.
Definition ender (g : wgroup) : op := match g with WWorkers => OAwait CSignal | _ => OCancel (ctx_of g) end.

Definition go_name (o : op) : option routine := match o with OGo _ _ r _ => Some r | _ => None end.
Definition go_ok (o : op) : Prop :=
  match o with
  | OGo g c r st => (g, c) = home r /\ shape r st /\ holds st = [] /\ late st = false
  | OMake c => c <> CSignal
  | OCancel c => c <> CSignal /\ c <> CRequest
  | OAwait c => c = CSignal
  | _ => True
  end.

(** What the order of a program's statements has to be; [renews]: it has a heartbeat. *)
Record orderly (renews : bool) (P : list op) : Prop := mkOrderly {
  or_nodup : NoDup P;
  or_names : NoDup (omap go_name P);
  or_ok : Forall go_ok P;
  or_sinks : forall o, o ∈ sinks -> o ∈ P /\ after P o (OWait WWorkers);
  or_ready : after P (OReady true) (OReady false);
  or_started : forall o, is_Some (go_name o) -> o ∈ P -> after P o (OReady true);
  or_serving : forall c, OCancel c ∈ P -> after P (OReady false) (OCancel c);
  or_waited : forall g c r st, OGo g c r st ∈ P -> after P (OGo g c r st) (OWait g);
  or_ended : forall g, OWait g ∈ P -> ender g ∈ P /\ after P (ender g) (OWait g);
  or_made : forall c, OCancel c ∈ P -> OMake c ∈ P /\ after P (OMake c) (OCancel c);
  or_sinks_last : after P (OWait WWorkers) (OCancel CDrain);
  or_renews : renews = true -> after P (OWait WDrain) (OCancel CHeartbeat) /\ exists b, OGo WHeartbeat CHeartbeat Heartbeat (Ticking b) ∈ P;
  or_closed : forall l1 l2, P = l1 ++ OClose :: l2 -> l2 = [];
}.

(** A flow is well driven: for any number of workers, the runner's program over it
    is orderly. *)
Class Driven (f : Flow) (renews : bool) : Prop := driven n : orderly renews (Run n f).

Lemma after_cons x l a b : (x = a -> b ∈ l) -> after l a b -> after (x :: l) a b.
Proof. intros H1 H2 [|y l1] l2 [= -> E]; [subst; by apply H1|by eapply H2]. Qed.

Lemma after_nil a b : after [] a b.
Proof. intros [|??] ? [=]. Qed.

Lemma after_app l l' a b : b ∈ l' -> after l' a b -> after (l ++ l') a b.
Proof. intros Hb Ha. induction l as [|x l IH]; [done|]. apply after_cons; [set_solver|done]. Qed.

Lemma after_skip l l' a b : a ∉ l -> after l' a b -> after (l ++ l') a b.
Proof. intros Hb Ha. induction l as [|x l IH]; [done|]. apply after_cons; set_solver. Qed.

Lemma after_ahead P p l a b : P = p ++ l -> after P a b -> a ∈ l -> b ∈ l.
Proof.
  intros -> H (l1 & l2 & ->)%list_elem_of_split. apply elem_of_app. right. apply elem_of_cons. right.
  apply (H (p ++ l1)). by rewrite <- app_assoc.
Qed.

(** ** The invariant *)
Definition held_all (m : gmap routine (wgroup * ctxt * gstate)) : list msg := map_to_list m ≫= fun kv => holds kv.2.2.

Definition accounted (s : state) : Prop :=
  st_taken s ≡ₚ held_all (st_gos s) ++ st_results s ++ st_done s ++ st_dropped s.

(** [p]: the statements executed so far. *)
Record inv (p : list op) (s : state) : Prop := mkInv {
  i_home : forall r g c st, st_gos s !! r = Some (g, c, st) ->
    (g, c) = home r /\ shape r st /\ OWait g ∈ st_main s /\ r ∈ omap go_name p /\ (late st = true -> cancelled c s);
  i_live : forall g c r st, OGo g c r st ∈ p -> OCancel c ∈ st_main s -> is_Some (st_gos s !! r);
  i_cause : forall c, cancelled c s -> c = CRequest \/ c = CSignal \/ OCancel c ∈ p;
  i_ended : forall c, OCancel c ∈ p \/ OAwait c ∈ p -> cancelled c s;
  i_made : forall c, c = CSignal \/ OMake c ∈ p <-> is_Some (st_ctxs s !! c);
  i_accounted : accounted s;
  i_dropped : st_dropped s <> [] -> cancelled CRequest s;
  i_results : st_results s <> [] -> is_Some (st_gos s !! ResultSink) \/ ResultSink ∈ omap go_name (st_main s);
  i_open : st_open s = false -> OClose ∈ p;
  i_ready : st_ready s = true -> OReady true ∈ p /\ OReady false ∈ st_main s;
}.

Lemma held_all_at m r g c st : m !! r = Some (g, c, st) ->
  exists rest, held_all m ≡ₚ holds st ++ rest /\ held_all (delete r m) ≡ₚ rest /\
    forall g' c' st', held_all (<[r := (g', c', st')]> m) ≡ₚ holds st' ++ rest.
Proof.
  intros H. exists (held_all (delete r m)). split; [|split; [done|intros g' c' st']].
  - unfold held_all. rewrite <- (map_to_list_delete m r _ H). done.
  - rewrite <- insert_delete_eq. unfold held_all. rewrite map_to_list_insert by apply lookup_delete_eq. done.
Qed.

Lemma held_all_new m r g c st : m !! r = None -> holds st = [] -> held_all (<[r := (g, c, st)]> m) ≡ₚ held_all m.
Proof. intros H E. unfold held_all. rewrite map_to_list_insert by done. csimpl. by rewrite E. Qed.

Lemma held_in m r g c st x : m !! r = Some (g, c, st) -> x ∈ holds st -> x ∈ held_all m.
Proof. intros H Hx. destruct (held_all_at m r g c st H) as (rest & -> & _). set_solver. Qed.

Lemma held_from m : held_all m <> [] -> exists r g c st, m !! r = Some (g, c, st) /\ holds st <> [].
Proof.
  unfold held_all. intros H. destruct (decide (Exists (fun kv => holds kv.2.2 <> []) (map_to_list m))) as [E|E].
  - apply Exists_exists in E as ([r [[g c] st]] & Hin & Hne). apply elem_of_map_to_list in Hin. eauto 6.
  - exfalso. apply H. clear H. apply not_Exists_Forall in E; [|intros ?; apply _].
    induction E as [|kv l Hkv _ IH]; [done|]. csimpl. rewrite IH. destruct (holds kv.2.2) eqn:E; [done|]. exfalso. apply Hkv. by rewrite E.
Qed.

Section invariant.
Context (f : Flow) (renews : bool) (P : list op) (HP : orderly renews P).

Lemma done_not_ahead p l o : P = p ++ l -> o ∈ p -> o ∉ l.
Proof using HP. intros E H1 H2. pose proof (or_nodup _ _ HP) as N. rewrite E in N. apply NoDup_app in N as (_ & N & _). by apply (N o). Qed.

Lemma ahead_or_done p l o : P = p ++ l -> o ∈ P -> o ∈ p \/ o ∈ l.
Proof. intros ->. by rewrite elem_of_app. Qed.

Lemma op_ok p l o : P = p ++ l -> o ∈ p \/ o ∈ l -> go_ok o.
Proof using HP. intros E H. pose proof (or_ok _ _ HP) as F. rewrite Forall_forall in F. apply F. rewrite E. set_solver. Qed.

(** A context a flow made ends only by the statement that cancels it. *)
Lemma not_yet p s c : P = p ++ st_main s -> inv p s -> OCancel c ∈ st_main s -> ~ cancelled c s.
Proof using HP.
  intros E I H Hc. destruct (op_ok p (st_main s) _ E (or_intror H)) as [N1 N2].
  destruct (i_cause _ _ I c Hc) as [?|[?|?]]; try done. by apply (done_not_ahead p (st_main s) (OCancel c)).
Qed.

(** A worker may only run while the sinks' context lives. *)
Lemma worker_before_drain p s r g c d x : P = p ++ st_main s -> inv p s -> st_gos s !! r = Some (g, c, Working d x) ->
  g = WWorkers /\ c = CSignal /\ OCancel CDrain ∈ st_main s.
Proof using HP.
  intros E I H. destruct (i_home _ _ I _ _ _ _ H) as (Hh & Hs & Hw & _). destruct r; try done. injection Hh as -> ->.
  split; [done|]. split; [done|]. by apply (after_ahead P p (st_main s) _ _ E (or_sinks_last _ _ HP)).
Qed.

(** Steps of goroutines: they leave the runner, the contexts and the store, and
    what they stop is allowed to. *)
Lemma inv_local p s s' : P = p ++ st_main s -> inv p s ->
  st_main s' = st_main s -> st_ctxs s' = st_ctxs s -> st_open s' = st_open s -> st_ready s' = st_ready s ->
  (forall r g c st', st_gos s' !! r = Some (g, c, st') ->
     exists st, st_gos s !! r = Some (g, c, st) /\ (shape r st -> shape r st') /\ (late st' = true -> late st = true \/ cancelled c s)) ->
  (forall r g c st, st_gos s !! r = Some (g, c, st) -> st_gos s' !! r = None -> ~ OCancel c ∈ st_main s) ->
  accounted s' -> (st_dropped s' <> [] -> st_dropped s <> [] \/ cancelled CRequest s) ->
  (st_results s' <> [] -> is_Some (st_gos s' !! ResultSink) \/ ResultSink ∈ omap go_name (st_main s)) ->
  inv p s'.
Proof using HP.
  intros E I Em Ec Eo Ey Hg Hx Hb Hd Hr. unfold cancelled in *. split; unfold cancelled; rewrite ?Em, ?Ec, ?Eo, ?Ey; try apply I; try done.
  - intros r g c st' H'. destruct (Hg _ _ _ _ H') as (st & H & Hs & Hl). destruct (i_home _ _ I _ _ _ _ H) as (H1 & H2 & H3 & H4 & H5).
    split; [done|]. split; [by apply Hs|]. split; [done|]. split; [done|]. intros L. destruct (Hl L); [by apply H5|done].
  - intros g c r st H Hc. destruct (i_live _ _ I _ _ _ _ H Hc) as [[[g' c'] st'] Hv]. destruct (st_gos s' !! r) eqn:E'; [eauto|].
    exfalso. apply (Hx _ _ _ _ Hv E').
    destruct (i_home _ _ I _ _ _ _ Hv) as (H1 & _). destruct (op_ok p _ _ E (or_introl H)) as [H2 _]. rewrite <- H2 in H1. by injection H1 as -> ->.
  - intros H. destruct (Hd H) as [H'|H']; [by apply (i_dropped _ _ I)|done].
Qed.

Lemma inv_placed p s r g c st st' s1 : P = p ++ st_main s -> inv p s -> st_gos s !! r = Some (g, c, st) ->
  (shape r st -> shape r st') -> (late st' = true -> late st = true \/ cancelled c s) ->
  st_main s1 = st_main s -> st_ctxs s1 = st_ctxs s -> st_open s1 = st_open s -> st_ready s1 = st_ready s -> st_gos s1 = st_gos s ->
  accounted (put r g c st' s1) -> (st_dropped s1 <> [] -> st_dropped s <> [] \/ cancelled CRequest s) ->
  (st_results s1 <> [] -> is_Some (st_gos s !! ResultSink) \/ ResultSink ∈ omap go_name (st_main s)) ->
  inv p (put r g c st' s1).
Proof using HP.
  intros E I H Hs Hl Em Ec Eo Ey Eg Hb Hd Hr. apply (inv_local p s); simpl; try done.
  - intros r0 g0 c0 st0. simpl. rewrite Eg. destruct (decide (r = r0)) as [->|N].
    + rewrite lookup_insert_eq. intros [= <- <- <-]. eauto.
    + rewrite lookup_insert_ne by done. eauto 6.
  - intros r0 g0 c0 st0 H0. rewrite Eg. destruct (decide (r = r0)) as [->|N]; [by rewrite lookup_insert_eq|].
    rewrite lookup_insert_ne by done. congruence.
  - intros H0. destruct (Hr H0) as [H1|H1]; [left|by right]. rewrite Eg. destruct (decide (r = ResultSink)) as [->|N].
    + rewrite lookup_insert_eq. eauto. 
    + by rewrite lookup_insert_ne.
Qed.

Lemma inv_exit p s r g c st : P = p ++ st_main s -> inv p s -> st_gos s !! r = Some (g, c, st) -> holds st = [] ->
  ~ OCancel c ∈ st_main s -> (r = ResultSink -> st_results s = []) -> inv p (exit r s).
Proof using HP.
  intros E I H Hh Hc Hr. apply (inv_local p s); simpl; try done.
  - intros r0 g0 c0 st0 (N & H0)%lookup_delete_Some. eauto 6.
  - intros r0 g0 c0 st0 H0 Hn.
    destruct (decide (r = r0)) as [->|N]; [congruence|]. rewrite lookup_delete_ne in Hn by done. congruence.
  - pose proof (i_accounted _ _ I) as A. unfold accounted in *. simpl. rewrite A.
    destruct (held_all_at _ _ _ _ _ H) as (rest & -> & -> & _). by rewrite Hh.
  - auto.
  - intros Hne. destruct (i_results _ _ I Hne) as [H1|H1]; [left|by right].
    destruct (decide (r = ResultSink)) as [->|N]; [by destruct Hne; apply Hr|]. by rewrite lookup_delete_ne.
Qed.

(** Statements of the runner other than [go]. *)
Lemma inv_main p s o l s1 : P = p ++ st_main s -> inv p s -> st_main s = o :: l -> go_name o = None ->
  (forall g, o = OWait g -> none_in g s) ->
  (forall c, cancelled c s1 -> cancelled c s \/ c = CRequest \/ o = OCancel c) -> (forall c, cancelled c s -> cancelled c s1) ->
  (forall c, o = OCancel c \/ o = OAwait c -> cancelled c s1) ->
  (forall c, is_Some (st_ctxs s1 !! c) <-> is_Some (st_ctxs s !! c) \/ o = OMake c) ->
  st_gos s1 = st_gos s -> st_results s1 = st_results s -> st_taken s1 = st_taken s -> st_done s1 = st_done s ->
  st_dropped s1 = st_dropped s -> (st_open s1 = false -> st_open s = false \/ o = OClose) ->
  (st_ready s1 = true -> st_ready s = true /\ o <> OReady false \/ o = OReady true) -> inv (p ++ [o]) (at_main l s1).
Proof using HP.
  intros E I Em Hn Hw Hc1 Hc2 Hc3 Hd Eg Er Et Edn Edr Ho Hy.
  assert (Hin : forall o', o' ∈ l -> o' ∈ st_main s) by (rewrite Em; set_solver).
  split; simpl; rewrite ?Eg, ?Er, ?Edr; try change (cancelled ?c (at_main l s1)) with (cancelled c s1).
  - intros r g c st H. destruct (i_home _ _ I _ _ _ _ H) as (H1 & H2 & H3 & H4 & H5). split; [done|]. split; [done|]. split; [|split].
    + rewrite Em in H3. apply elem_of_cons in H3 as [<-|H3]; [|done]. by destruct (Hw g eq_refl r _ H).
    + rewrite omap_app. set_solver.
    + intros L. apply Hc2. auto.
  - intros g c r st H Hc. apply (i_live _ _ I g c r st); [|auto]. apply elem_of_app in H as [?|H]; [done|].
    apply list_elem_of_singleton in H. by subst o.
  - intros c Hc. destruct (Hc1 c Hc) as [H|[H|H]]; [|by left|right; right; set_solver].
    destruct (i_cause _ _ I c H) as [?|[?|?]]; auto. right. right. set_solver.
  - intros c Hc. change (cancelled c s1). rewrite !elem_of_app, !list_elem_of_singleton in Hc.
    destruct Hc as [[?|?]|[?|?]]; [apply Hc2, (i_ended _ _ I); auto|apply Hc3; auto|apply Hc2, (i_ended _ _ I); auto|apply Hc3; auto].
  - intros c. rewrite Hd, <- (i_made _ _ I), elem_of_app, list_elem_of_singleton. naive_solver.
  - pose proof (i_accounted _ _ I) as A. unfold accounted in *. simpl. by rewrite Et, Eg, Er, Edn, Edr.
  - intros H. apply Hc2. by apply (i_dropped _ _ I).
  - intros H. destruct (i_results _ _ I H) as [?|H1]; [by left|right]. rewrite Em in H1. simpl in H1. by rewrite Hn in H1.
  - intros H. apply elem_of_app. destruct (Ho H) as [H1|H1]; [left; by apply (i_open _ _ I)|right; set_solver].
  - intros H. destruct (Hy H) as [[H1 H2]| ->].
    + destruct (i_ready _ _ I H1) as [H3 H4]. rewrite Em in H4. apply elem_of_cons in H4 as [?|H4]; [done|]. set_solver.
    + split; [set_solver|]. apply (or_ready _ _ HP) with p. by rewrite E, Em.
Qed.

Lemma inv_go p s g c r st l : P = p ++ st_main s -> inv p s -> st_main s = OGo g c r st :: l ->
  inv (p ++ [OGo g c r st]) (at_main l (put r g c st s)).
Proof using HP.
  intros E I Em. assert (Hin : forall o', o' ∈ l -> o' ∈ st_main s) by (rewrite Em; set_solver).
  destruct (op_ok p (st_main s) (OGo g c r st) E) as (Hh & Hs & Hst & Hlt); [rewrite Em; set_solver|].
  assert (Hnew : r ∉ omap go_name p).
  { pose proof (or_names _ _ HP) as N. rewrite E, Em, omap_app in N. simpl in N. apply NoDup_app in N as (_ & N & _). intros X.
    apply (N r X). set_solver. }
  assert (Hno : st_gos s !! r = None).
  { destruct (st_gos s !! r) as [[[g' c'] st']|] eqn:X; [|done]. by destruct (i_home _ _ I _ _ _ _ X) as (_ & _ & _ & ? & _). }
  assert (Hw : OWait g ∈ l).
  { apply (or_waited _ _ HP g c r st) with p; [rewrite E, Em; set_solver|by rewrite E, Em]. }
  split; simpl; try change (cancelled ?c (at_main l (put r g c st s))) with (cancelled c s).
  - intros r0 g0 c0 st0. destruct (decide (r = r0)) as [->|N].
    + rewrite lookup_insert_eq. intros [= <- <- <-]. split_and!; try done; [rewrite omap_app; set_solver|].
      by rewrite Hlt.
    + rewrite lookup_insert_ne by done. intros H. destruct (i_home _ _ I _ _ _ _ H) as (H1 & H2 & H3 & H4 & H5).
      split_and!; try done; [|rewrite omap_app; set_solver]. rewrite Em in H3. by apply elem_of_cons in H3 as [?|H3].
  - intros g0 c0 r0 st0 H Hc. destruct (decide (r = r0)) as [->|N]; [by rewrite lookup_insert_eq|]. rewrite lookup_insert_ne by done.
    apply (i_live _ _ I g0 c0 r0 st0); [|auto]. apply elem_of_app in H as [?|H]; [done|]. apply list_elem_of_singleton in H. congruence.
  - intros c0 Hc. destruct (i_cause _ _ I c0 Hc) as [?|[?|?]]; auto. right. right. set_solver.
  - intros c0 Hc. apply (i_ended _ _ I). set_solver.
  - intros c0. rewrite <- (i_made _ _ I). set_solver.
  - pose proof (i_accounted _ _ I) as A. unfold accounted in *. simpl. by rewrite held_all_new.
  - apply (i_dropped _ _ I).
  - intros H. destruct (decide (r = ResultSink)) as [->|N]; [left; by rewrite lookup_insert_eq|]. rewrite lookup_insert_ne by done.
    destruct (i_results _ _ I H) as [?|H1]; [by left|right]. rewrite Em in H1. simpl in H1. set_solver.
  - intros H. apply elem_of_app. left. by apply (i_open _ _ I).
  - intros H. destruct (i_ready _ _ I H) as [H3 H4]. rewrite Em in H4. apply elem_of_cons in H4 as [?|H4]; [done|]. set_solver.
Qed.

Lemma cancelled_cancel c c' s : cancelled c' (with_ctxs (cancel c (st_ctxs s)) s) <-> cancelled c' s \/ c' = c /\ is_Some (st_ctxs s !! c).
Proof.
  unfold cancelled, cancel. simpl. destruct (decide (c = c')) as [->|N].
  - rewrite lookup_alter_eq. destruct (st_ctxs s !! c') as [b|]; simpl; [|by split; [|intros [|[_ [??]]]]]. split; [|done]. right. eauto.
  - rewrite lookup_alter_ne by done. naive_solver.
Qed.

Lemma cancel_dom c c' (m : gmap ctxt bool) : is_Some (cancel c m !! c') <-> is_Some (m !! c').
Proof.
  unfold cancel. destruct (decide (c = c')) as [->|N]; [rewrite lookup_alter_eq|by rewrite lookup_alter_ne].
  destruct (m !! c'); simpl; [|done]. split; eauto.
Qed.

(** The context a statement cancels has been made. *)
Lemma made_before p s c l : P = p ++ st_main s -> inv p s -> st_main s = OCancel c :: l -> is_Some (st_ctxs s !! c).
Proof using HP.
  intros E I Em. apply (i_made _ _ I). right. destruct (or_made _ _ HP c) as [H1 H2]; [rewrite E, Em; set_solver|].
  destruct (ahead_or_done p (st_main s) _ E H1) as [|H3]; [done|]. rewrite Em in H3. apply elem_of_cons in H3 as [?|H3]; [done|].
  destruct (done_not_ahead (p ++ [OCancel c]) l (OCancel c)); [by rewrite <- app_assoc, E, Em|set_solver|].
  apply (after_ahead P (p ++ [OCancel c]) l (OMake c)); [by rewrite <- app_assoc, E, Em|done|done].
Qed.

Lemma inv_cancel p s o c l : P = p ++ st_main s -> inv p s -> st_main s = o :: l ->
  o = OCancel c \/ o = OSelectDrained /\ c = CRequest -> inv (p ++ [o]) (at_main l (with_ctxs (cancel c (st_ctxs s)) s)).
Proof using HP.
  intros E I Em Ho. assert (Hm : o = OCancel c -> is_Some (st_ctxs s !! c)) by (intros ->; by apply (made_before p s c l)).
  apply (inv_main p s); try done.
  - by destruct Ho as [->|[-> _]].
  - by destruct Ho as [->|[-> _]].
  - intros c' H. apply cancelled_cancel in H as [H|[-> _]]; [by left|]. destruct Ho as [->|[_ ->]]; auto.
  - intros c' H. apply cancelled_cancel. by left.
  - intros c' H. apply cancelled_cancel. destruct Ho as [->|[-> _]]; [|by destruct H]. destruct H as [[= <-]|]; [right; auto|done].
  - intros c'. simpl. rewrite cancel_dom. destruct Ho as [->|[-> _]]; naive_solver.
  - by left.
  - intros H. left. split; [done|]. by destruct Ho as [->|[-> _]].
Qed.

Lemma inv_make p s c l : P = p ++ st_main s -> inv p s -> st_main s = OMake c :: l ->
  inv (p ++ [OMake c]) (at_main l (with_ctxs (<[c := false]> (st_ctxs s)) s)).
Proof using HP.
  intros E I Em. assert (Hnew : st_ctxs s !! c = None).
  { destruct (st_ctxs s !! c) eqn:X; [|done]. destruct (proj2 (i_made _ _ I c)) as [->|H]; [eauto|..].
    - by destruct (op_ok p (st_main s) (OMake CSignal) E); [rewrite Em; set_solver|].
    - destruct (done_not_ahead p (st_main s) (OMake c) E H). rewrite Em. set_solver. }
  apply (inv_main p s); try done; unfold cancelled; simpl.
  - intros c'. destruct (decide (c = c')) as [->|N]; [by rewrite lookup_insert_eq|]. rewrite lookup_insert_ne by done. by left.
  - intros c' H. rewrite lookup_insert_ne by congruence. done.
  - naive_solver.
  - intros c'. destruct (decide (c = c')) as [->|N]; [rewrite lookup_insert_eq; split; eauto|]. rewrite lookup_insert_ne by done. naive_solver.
  - by left.
  - by left.
Qed.

Lemma inv_pass p s o l : P = p ++ st_main s -> inv p s -> st_main s = o :: l ->
  match o with OWait g => none_in g s | OAwait c => cancelled c s | OSelectDrained | OUse _ => True | _ => False end -> inv (p ++ [o]) (at_main l s).
Proof using HP.
  intros E I Em Ho. apply (inv_main p s); try done.
  - by destruct o.
  - by intros g ->.
  - by left.
  - intros c [->| ->]; done.
  - intros c. split; [by left|]. intros [?| ->]; done.
  - by left.
  - intros H. left. split; [done|]. by destruct o.
Qed.

Lemma inv_signal p s : inv p s -> inv p (with_ctxs (cancel CSignal (st_ctxs s)) s).
Proof.
  intros I. assert (Hc : forall c, cancelled c s -> cancelled c (with_ctxs (cancel CSignal (st_ctxs s)) s)).
  { intros c H. apply cancelled_cancel. by left. }
  split; simpl; try apply I.
  - intros r g c st H. destruct (i_home _ _ I _ _ _ _ H) as (H1 & H2 & H3 & H4 & H5). split_and!; auto.
  - intros c H. apply cancelled_cancel in H as [H|[-> _]]; [by apply (i_cause _ _ I)|auto].
  - intros c H. by apply Hc, (i_ended _ _ I).
  - intros c. rewrite cancel_dom. apply (i_made _ _ I).
  - intros H. by apply Hc, (i_dropped _ _ I).
Qed.

Lemma inv_ready p s b l : P = p ++ st_main s -> inv p s -> st_main s = OReady b :: l -> inv (p ++ [OReady b]) (at_main l (set_ready b s)).
Proof using HP.
  intros E I Em. apply (inv_main p s); try done.
  - by left.
  - by intros c [?|?].
  - intros c. split; [by left|]. by intros [?|?].
  - by left.
  - simpl. intros ->. by right.
Qed.

Lemma inv_close p s l : P = p ++ st_main s -> inv p s -> st_main s = OClose :: l -> inv (p ++ [OClose]) (at_main l (closed s)).
Proof using HP.
  intros E I Em. apply (inv_main p s); try done.
  - by left.
  - by intros c [?|?].
  - intros c. split; [by left|]. by intros [?|?].
  - by right.
  - by left.
Qed.

(** The books after a goroutine's state has changed. *)
Lemma accounted_put p s r g c st st' s1 : inv p s -> st_gos s !! r = Some (g, c, st) -> st_gos s1 = st_gos s ->
  (forall rest, st_taken s ≡ₚ holds st ++ rest ++ st_results s ++ st_done s ++ st_dropped s ->
     st_taken s1 ≡ₚ holds st' ++ rest ++ st_results s1 ++ st_done s1 ++ st_dropped s1) -> accounted (put r g c st' s1).
Proof.
  intros I H Eg Hb. pose proof (i_accounted _ _ I) as A. unfold accounted in *. simpl. rewrite Eg.
  destruct (held_all_at _ _ _ _ _ H) as (rest & E1 & _ & E2). rewrite E2, (Hb rest), <- app_assoc; [done|]. by rewrite A, E1, <- app_assoc.
Qed.

Lemma inv_move p s r g c st st' s1 : P = p ++ st_main s -> inv p s -> st_gos s !! r = Some (g, c, st) ->
  (shape r st -> shape r st') -> (late st' = true -> late st = true \/ cancelled c s) ->
  st_main s1 = st_main s -> st_ctxs s1 = st_ctxs s -> st_open s1 = st_open s -> st_ready s1 = st_ready s -> st_gos s1 = st_gos s ->
  (forall rest, st_taken s ≡ₚ holds st ++ rest ++ st_results s ++ st_done s ++ st_dropped s ->
     st_taken s1 ≡ₚ holds st' ++ rest ++ st_results s1 ++ st_done s1 ++ st_dropped s1) ->
  (st_dropped s1 <> [] -> st_dropped s <> [] \/ cancelled CRequest s) ->
  (st_results s1 <> [] -> is_Some (st_gos s !! ResultSink) \/ ResultSink ∈ omap go_name (st_main s)) ->
  inv p (put r g c st' s1).
Proof using HP.
  intros. eapply inv_placed; try done. by eapply accounted_put.
Qed.

(** Until the drain context is cancelled, a sink runs or is still to be started. *)
Lemma sink_there p s r : P = p ++ st_main s -> inv p s -> r = RetrySink \/ r = ResultSink ->
  OCancel CDrain ∈ st_main s -> is_Some (st_gos s !! r) \/ r ∈ omap go_name (st_main s).
Proof using HP.
  intros E I Hr Hc. set (o := OGo WDrain CDrain r (Sinking false [])).
  destruct (or_sinks _ _ HP o) as [HoP _]; [unfold o, sinks; destruct Hr as [->| ->]; set_solver|].
  destruct (ahead_or_done p (st_main s) _ E HoP) as [H|H]; [left; by apply (i_live _ _ I WDrain CDrain r (Sinking false []))|right].
  apply list_elem_of_omap. by exists o.
Qed.

Lemma inv_handover p s r g c d x g' c' e b : P = p ++ st_main s -> inv p s -> st_gos s !! r = Some (g, c, Working d (Some x)) ->
  st_gos s !! RetrySink = Some (g', c', Sinking e b) ->
  inv p (put RetrySink g' c' (Sinking e (b ++ [x])) (put r g c (Working d None) s)).
Proof using HP.
  intros E I H1 H2. assert (r <> RetrySink) as N by (intros ->; congruence).
  apply (inv_local p s); simpl; try done.
  - intros r0 g0 c0 st0. destruct (decide (RetrySink = r0)) as [<-|N1]; [|destruct (decide (r = r0)) as [<-|N2]].
    + rewrite lookup_insert_eq. intros [= <- <- <-]. exists (Sinking e b). auto.
    + rewrite lookup_insert_ne, lookup_insert_eq by done. intros [= <- <- <-]. exists (Working d (Some x)). auto.
    + rewrite !lookup_insert_ne by done. eauto 6.
  - intros r0 g0 c0 st0 H0 Hn. apply lookup_insert_None in Hn as [Hn _]. apply lookup_insert_None in Hn as [Hn _]. congruence.
  - pose proof (i_accounted _ _ I) as A. unfold accounted in *. simpl. rewrite A.
    destruct (held_all_at _ _ _ _ _ H1) as (rest & E1 & _ & E2).
    destruct (held_all_at (<[r := (g, c, Working d None)]> (st_gos s)) RetrySink g' c' (Sinking e b)) as (rest' & E3 & _ & E4).
    { by rewrite lookup_insert_ne. }
    rewrite E4, E1. rewrite E2 in E3. simpl in *. rewrite E3. solve_Permutation.
  - auto.
  - intros Hne. destruct (i_results _ _ I Hne) as [?|?]; [left|by right]. rewrite lookup_insert_ne by done.
    destruct (decide (r = ResultSink)) as [->|]; [by rewrite lookup_insert_eq|by rewrite lookup_insert_ne].
Qed.

(** ** Every step keeps the invariant *)
Lemma step_runner p s s' o l : P = p ++ st_main s -> inv p s -> st_main s = o :: l -> inv (p ++ [o]) s' -> st_main s' = l ->
  exists p', P = p' ++ st_main s' /\ inv p' s'.
Proof. intros E I Em I' E'. exists (p ++ [o]). by rewrite <- app_assoc, E', E, Em. Qed.

Lemma not_ahead p s c : P = p ++ st_main s -> inv p s -> cancelled c s -> OCancel c ∉ st_main s.
Proof using HP. intros E I Hc H. by apply (not_yet p s c E I H). Qed.

Lemma signal_not_ahead p s : P = p ++ st_main s -> OCancel CSignal ∉ st_main s.
Proof using HP. intros E H. by destruct (op_ok p (st_main s) _ E (or_intror H)). Qed.

Ltac moved I :=
  eapply inv_move; try done; simpl; auto; try apply (i_results _ _ I);
  try (intros ? ->; try (match goal with H : st_results _ = _ :: _ |- _ => rewrite H end); solve_Permutation).

Lemma inv_runner p s s' : P = p ++ st_main s -> inv p s -> runner_step s s' -> exists p', P = p' ++ st_main s' /\ inv p' s'.
Proof using HP.
  intros E I H. destruct H as [c l Em|g c r st l Em|c l Em|g l Em Hn|c l Em Hc|l Em Hn|l Em|n l Em|b l Em|l Em| ].
  all: try (eapply step_runner; [exact E|exact I|exact Em| |done];
    first [by apply inv_make|by apply inv_go|by apply inv_close|by apply inv_ready|by apply inv_pass|apply inv_cancel; auto; fail]).
  exists p. split; [done|]. by apply inv_signal.
Qed.

Lemma inv_loop p s s' : P = p ++ st_main s -> inv p s -> loop_step s s' -> inv p s'.
Proof using HP.
  intros E I H. destruct H as [r g c H|r g c H|r g c H Hc|r g c x H Hf].
  - moved I.
  - moved I.
  - eapply inv_exit; try done; [by eapply not_ahead|]. intros ->. by destruct (i_home _ _ I _ _ _ _ H) as (_ & [] & _).
  - apply (inv_local p s); simpl; try done; [eauto 6|congruence|apply I|auto|apply (i_results _ _ I)].
Qed.

Lemma inv_worker p s s' : P = p ++ st_main s -> inv p s -> worker_step f s s' -> inv p s'.
Proof using HP.
  intros E I H. destruct H as [r g c d x p1 p2 H Hp|r g c H Hc|r g c H|r g c x H Hl|r g c d x g' c' e b H H' Hr|r g c x H Hc].
  - moved I.
  - moved I.
  - destruct (worker_before_drain p s _ _ _ _ _ E I H) as (-> & -> & _).
    eapply inv_exit; try done; [by eapply signal_not_ahead|]. intros ->. by destruct (i_home _ _ I _ _ _ _ H) as (_ & [] & _).
  - destruct (worker_before_drain p s _ _ _ _ _ E I H) as (_ & _ & Hd).
    eapply inv_move; try done; simpl; auto; try (intros _; apply (sink_there p s); by auto); try (intros rest ->; solve_Permutation).
  - by apply inv_handover.
  - moved I.
Qed.

Lemma inv_sink p s s' : P = p ++ st_main s -> inv p s -> sink_step f s s' -> inv p s'.
Proof using HP.
  intros E I H. destruct H as [g c e b x l H Hl Hr|r g c e b H Hb|r g c H Hc|r g c H Hr].
  - moved I.
  - moved I.
  - moved I.
  - eapply inv_exit; try done. eapply not_ahead; try done. by destruct (i_home _ _ I _ _ _ _ H) as (_ & _ & _ & _ & H5); apply H5.
Qed.

Lemma inv_step p s s' : P = p ++ st_main s -> inv p s -> step f s s' -> exists p', P = p' ++ st_main s' /\ inv p' s'.
Proof using HP.
  intros E I H. destruct H as [s' H|s' H|s' H|s' H].
  - by apply (inv_runner p s).
  - exists p. split; [by destruct H|by apply (inv_loop p s)].
  - exists p. split; [by destruct H|by apply (inv_worker p s)].
  - exists p. split; [by destruct H|by apply (inv_sink p s)].
Qed.

Lemma inv_reachable s : rtc (step f) (init P) s -> exists p, P = p ++ st_main s /\ inv p s.
Proof using HP.
  intros H. assert (exists p, P = p ++ st_main (init P) /\ inv p (init P)) as (p & E & I).
  { exists []. split; [done|]. split; simpl; try done.
    - intros ???? H'. by apply elem_of_nil in H'.
    - intros c. destruct (decide (c = CSignal)) as [->|N]; unfold cancelled; simpl; [auto|by rewrite lookup_singleton_ne].
    - intros c. by rewrite !elem_of_nil; intros [|].
    - intros c. rewrite elem_of_nil. destruct (decide (c = CSignal)) as [->|N]; [rewrite lookup_singleton_eq; split; eauto|].
      rewrite lookup_singleton_ne by done. split; [by intros [|]|by intros [? [=]]].
    - unfold accounted. simpl. done. }
  revert p E I. generalize (init P), H. clear H. intros s0 H. induction H as [s0|s0 s1 s2 Hs _ IH]; intros p E I; [eauto|].
  destruct (inv_step p s0 s1 E I Hs) as (p' & E' & I'). eauto.
Qed.

(** ** The runner comes to its end

    A goroutine whose context has ended can leave, whatever it holds. *)
Definition leaves (r : routine) (s s' : state) : Prop :=
  rtc (step f) s s' /\ st_main s' = st_main s /\ st_ctxs s' = st_ctxs s /\ dom (st_gos s') = dom (st_gos s) ∖ {[r]}.

Lemma leaves_last r s s1 : rtc (step f) s s1 -> st_main s1 = st_main s -> st_ctxs s1 = st_ctxs s -> dom (st_gos s1) = dom (st_gos s) ->
  step f s1 (exit r s1) -> leaves r s (exit r s1).
Proof.
  intros H Em Ec Ed He. split; [by eapply rtc_r|]. split; [done|]. split; [done|]. simpl. by rewrite dom_delete_L, Ed.
Qed.

Lemma dom_put r g c st s : is_Some (st_gos s !! r) -> dom (<[r := (g, c, st)]> (st_gos s)) = dom (st_gos s).
Proof. clear HP. intros H. apply elem_of_dom in H. rewrite dom_insert_L. set_solver. Qed.

Lemma ticking_leaves s r g c b : st_gos s !! r = Some (g, c, Ticking b) -> cancelled c s -> exists s', leaves r s s'.
Proof.
  intros H Hc. destruct b; [|eexists; apply (leaves_last r s s); try done; by eapply by_loop, s_stop].
  eexists. apply (leaves_last r s (put r g c (Ticking false) s)); try done; [by apply rtc_once, by_loop, s_rest|apply dom_put; eauto|].
  eapply by_loop, s_stop; [apply lookup_insert_eq|done].
Qed.

(** A batch can be written. *)
Lemma sink_writes s r g c e b : st_gos s !! r = Some (g, c, Sinking e b) -> exists s1,
  rtc (step f) s s1 /\ st_main s1 = st_main s /\ st_ctxs s1 = st_ctxs s /\ dom (st_gos s1) = dom (st_gos s) /\ st_results s1 = st_results s /\
  st_gos s1 !! r = Some (g, c, Sinking e []) /\ forall r', r' <> r -> st_gos s1 !! r' = st_gos s !! r'.
Proof.
  intros H. destruct b as [|x b]; [exists s; split_and!; done|].
  exists (put r g c (Sinking e []) (add_done (x :: b) s)). split_and!; try done; [by eapply rtc_once, by_sink, s_flush|apply (dom_put r g c _ s); eauto|apply lookup_insert_eq|].
  intros r' N. simpl. by rewrite lookup_insert_ne.
Qed.

Lemma empty_sink_leaves s r g c e : st_gos s !! r = Some (g, c, Sinking e []) -> cancelled c s -> (r = ResultSink -> st_results s = []) ->
  exists s', leaves r s s'.
Proof.
  intros H Hc Hr. destruct e; [eexists; apply (leaves_last r s s); try done; by eapply by_sink, s_empty|].
  eexists. apply (leaves_last r s (put r g c (Sinking true []) s)); try done; [by apply rtc_once, by_sink, s_ending|apply dom_put; eauto|].
  eapply by_sink, s_empty; [apply lookup_insert_eq|done].
Qed.

Lemma leaves_after r s s1 s' : rtc (step f) s s1 -> st_main s1 = st_main s -> st_ctxs s1 = st_ctxs s -> dom (st_gos s1) = dom (st_gos s) ->
  leaves r s1 s' -> leaves r s s'.
Proof. intros H Em Ec Ed (K1 & K2 & K3 & K4). split; [by etrans|]. split_and!; congruence. Qed.

Lemma sink_leaves s r g c e b : st_gos s !! r = Some (g, c, Sinking e b) -> cancelled c s -> exists s', leaves r s s'.
Proof.
  remember (st_results s) as l eqn:El. revert s e b El. induction l as [|x l IH]; intros s e b El H Hc;
    destruct (sink_writes s r g c e b H) as (s1 & R1 & M1 & C1 & D1 & L1 & G1 & _);
    assert (cancelled c s1) as Hc1 by (unfold cancelled in *; congruence).
  - destruct (empty_sink_leaves s1 r g c e G1 Hc1) as [s' Hs']; [congruence|]. exists s'. by apply (leaves_after r s s1).
  - destruct (decide (r = ResultSink)) as [->|N].
    + set (s2 := put ResultSink g c (Sinking e ([] ++ [x])) (with_results l s1)).
      destruct (IH s2 e [x]) as [s' Hs']; [done|apply lookup_insert_eq|done|]. exists s'.
      apply (leaves_after _ s s1); try done. apply (leaves_after _ s1 s2); try done; [|apply (dom_put _ g c _ s1); eauto].
      eapply rtc_once, by_sink, s_collect; [done|congruence|by left].
    + destruct (empty_sink_leaves s1 r g c e G1 Hc1) as [s' Hs']; [done|]. exists s'. by apply (leaves_after r s s1).
Qed.

(** A worker hands what it holds to the retry sink, which takes it. *)
Lemma worker_leaves s r g c d x g' c' e b : st_gos s !! r = Some (g, c, Working d x) -> cancelled c s ->
  st_gos s !! RetrySink = Some (g', c', Sinking e b) -> exists s', leaves r s s'.
Proof.
  intros H Hc H'. assert (r <> RetrySink) as N by (intros ->; congruence).
  assert (Hidle : forall s d, st_gos s !! r = Some (g, c, Working d None) -> cancelled c s -> exists s', leaves r s s').
  { clear. intros s d H Hc. destruct d; [eexists; apply (leaves_last r s s); try done; by eapply by_worker, s_idle|].
    eexists. apply (leaves_last r s (put r g c (Working true None) s)); try done; [by apply rtc_once, by_worker, s_quit|apply dom_put; eauto|].
    eapply by_worker, s_idle, lookup_insert_eq. }
  destruct x as [x|]; [|by apply (Hidle s d)].
  destruct (sink_writes s RetrySink g' c' e b H') as (s1 & R1 & M1 & C1 & D1 & _ & G1 & O1). rewrite <- (O1 r N) in H.
  set (s2 := put RetrySink g' c' (Sinking e ([] ++ [x])) (put r g c (Working d None) s1)).
  destruct (Hidle s2 d) as [s' Hs'].
  - simpl. by rewrite lookup_insert_ne, lookup_insert_eq.
  - unfold cancelled in *. simpl. congruence.
  - exists s'. apply (leaves_after r s s1); try done. apply (leaves_after r s1 s2); try done.
    + eapply rtc_once, by_worker, s_retry; [done|done|by left].
    + simpl. rewrite !dom_insert_L. apply elem_of_dom_2 in H. apply elem_of_dom_2 in G1. set_solver.
Qed.

Lemma leave p s g l r v : P = p ++ st_main s -> inv p s -> st_main s = OWait g :: l -> st_gos s !! r = Some v -> group_of v = g ->
  exists s', leaves r s s'.
Proof using HP.
  intros E I Em H Hg. destruct v as [[g0 c] st]. unfold group_of in Hg. simpl in Hg. subst g0.
  destruct (i_home _ _ I _ _ _ _ H) as (Hh & Hs & _). 
  assert (Hc : cancelled c s).
  { assert (c = ctx_of g) as -> by (destruct r; by injection Hh as -> ->).
    destruct (or_ended _ _ HP g) as [He Ha]; [rewrite E, Em; set_solver|].
    assert (ender g ∈ p) as Hp.
    { destruct (ahead_or_done p (st_main s) _ E He) as [|Hl]; [done|]. rewrite Em in Hl. apply elem_of_cons in Hl as [Hl|Hl]; [by destruct g|].
      destruct (done_not_ahead (p ++ [OWait g]) l (OWait g)); [by rewrite <- app_assoc, E, Em|set_solver|].
      by apply (after_ahead P (p ++ [OWait g]) l (ender g)); [by rewrite <- app_assoc, E, Em|..]. }
    apply (i_ended _ _ I). by destruct g; [right|left|left|left]. }
  destruct st as [b|d x|e b]; [by eapply ticking_leaves| |by eapply sink_leaves].
  destruct (worker_before_drain p s _ _ _ _ _ E I H) as (-> & -> & Hd).
  assert (is_Some (st_gos s !! RetrySink)) as [[[g' c'] st'] Hk].
  { set (o := OGo WDrain CDrain RetrySink (Sinking false [])). destruct (or_sinks _ _ HP o) as [Ho Ha]; [unfold o, sinks; set_solver|].
    apply (i_live _ _ I WDrain CDrain RetrySink (Sinking false [])); [|done].
    destruct (ahead_or_done p (st_main s) _ E Ho) as [|Hl]; [done|]. rewrite Em in Hl. apply elem_of_cons in Hl as [?|Hl]; [done|].
    destruct (done_not_ahead (p ++ [OWait WWorkers]) l (OWait WWorkers)); [by rewrite <- app_assoc, E, Em|set_solver|].
    by apply (after_ahead P (p ++ [OWait WWorkers]) l o); [by rewrite <- app_assoc, E, Em|..]. }
  destruct (i_home _ _ I _ _ _ _ Hk) as (_ & Hsk & _). destruct st' as [|?|e b]; [done|done|]. by eapply worker_leaves.
Qed.

Lemma inv_steps p s s' : P = p ++ st_main s -> inv p s -> rtc (step f) s s' -> exists p', P = p' ++ st_main s' /\ inv p' s'.
Proof using HP.
  intros E I H. revert p E I. induction H as [s|s s1 s2 Hs _ IH]; intros p E I; [eauto|].
  destruct (inv_step p s s1 E I Hs) as (p' & E' & I'). eauto.
Qed.

Lemma group_leaves p s g l : P = p ++ st_main s -> inv p s -> st_main s = OWait g :: l ->
  exists s', rtc (step f) s s' /\ st_main s' = st_main s /\ none_in g s'.
Proof using HP.
  remember (size (dom (st_gos s))) as n eqn:En. revert p s En. induction (lt_wf n) as [n _ IH]. intros p s -> E I Em.
  destruct (decide (map_Forall (fun _ v => group_of v <> g) (st_gos s))) as [Hn|Hn]; [by exists s|].
  apply map_not_Forall in Hn as (r & v & Hr & Hg); [|apply _]. apply dec_stable in Hg.
  destruct (leave p s g l r v E I Em Hr Hg) as (s1 & R1 & M1 & _ & D1). destruct (inv_steps p s s1 E I R1) as (p1 & E1 & I1).
  destruct (IH (size (dom (st_gos s1)))) with (p := p1) (s := s1) as (s' & R' & M' & N'); try done; [|congruence|].
  - rewrite D1. apply subset_size. apply elem_of_dom_2 in Hr. set_solver.
  - exists s'. split; [by etrans|]. split; [congruence|done].
Qed.

(** From every state of a run the runner can get to its end. *)
Lemma can_end p s : P = p ++ st_main s -> inv p s -> exists s', rtc (step f) s s' /\ st_main s' = [].
Proof using HP.
  remember (st_main s) as l eqn:El. revert p s El. induction l as [|o l IH]; intros p s El E I; [by exists s|].
  assert (exists s1, rtc (step f) s s1 /\ st_main s1 = l) as (s1 & R1 & M1).
  { destruct o as [c|g c r st|c|g|c| |n|b|].
    - eexists. split; [by apply rtc_once, by_runner, s_make|done].
    - eexists. split; [by eapply rtc_once, by_runner, s_go|done].
    - eexists. split; [by eapply rtc_once, by_runner, s_cancel|done].
    - destruct (group_leaves p s g l) as (s1 & R1 & M1 & N1); [by rewrite <- El|done|done|].
      eexists. split; [eapply rtc_r; [exact R1|eapply by_runner, (s_wait s1 g l); [by rewrite M1|done]]|done].
    - assert (c = CSignal) as -> by (apply (op_ok p (OAwait c :: l) (OAwait c) E); set_solver).
      eexists. split; [eapply rtc_l; [apply by_runner, s_signal|]; eapply rtc_once, by_runner, s_await; [done|]|done].
      apply cancelled_cancel. right. split; [done|]. apply (i_made _ _ I). by left.
    - eexists. split; [by eapply rtc_once, by_runner, s_timeout|done].
    - eexists. split; [by eapply rtc_once, by_runner, s_use|done].
    - eexists. split; [by eapply rtc_once, by_runner, s_ready|done].
    - eexists. split; [by eapply rtc_once, by_runner, s_close|done]. }
  destruct (inv_steps p s s1) as (p1 & E1 & I1); [by rewrite <- El|done|done|].
  destruct (IH p1 s1) as (s' & R' & M'); [done|by rewrite <- M1|done|]. exists s'. split; [by etrans|done].
Qed.

(** ** What holds of every state *)
Lemma at_end p s : inv p s -> st_main s = [] -> st_gos s = ∅ /\ st_results s = [] /\ st_taken s ≡ₚ st_done s ++ st_dropped s.
Proof.
  intros I Em. assert (Hg : st_gos s = ∅).
  { apply map_eq. intros r. rewrite lookup_empty. destruct (st_gos s !! r) as [[[g c] st]|] eqn:H; [|done].
    destruct (i_home _ _ I _ _ _ _ H) as (_ & _ & Hw & _). rewrite Em in Hw. by apply elem_of_nil in Hw. }
  assert (Hr : st_results s = []).
  { destruct (decide (st_results s = [])) as [|N]; [done|]. destruct (i_results _ _ I N) as [[? Hv]|Hv]; [by rewrite Hg in Hv|].
    rewrite Em in Hv. by apply elem_of_nil in Hv. }
  split; [done|]. split; [done|]. pose proof (i_accounted _ _ I) as A. unfold accounted in A. by rewrite Hg, Hr in A.
Qed.

Lemma closed_last p s : P = p ++ st_main s -> inv p s -> st_open s = false -> st_main s = [].
Proof using HP.
  intros E I Ho. apply (i_open _ _ I) in Ho. apply list_elem_of_split in Ho as (p1 & p2 & ->).
  assert (p2 ++ st_main s = []) as [_ ?]%app_eq_nil; [|done]. apply (or_closed _ _ HP p1). by rewrite E, <- app_assoc.
Qed.

(** A worker that holds a request can hand it over. *)
Lemma receiver_there p s r g c d x : P = p ++ st_main s -> inv p s -> st_gos s !! r = Some (g, c, Working d x) ->
  ~ cancelled CDrain s /\ forall k, k = RetrySink \/ k = ResultSink -> is_Some (st_gos s !! k) \/ k ∈ omap go_name (st_main s).
Proof using HP.
  intros E I H. destruct (worker_before_drain p s _ _ _ _ _ E I H) as (_ & _ & Hd). split; [by eapply not_yet|].
  intros k Hk. by apply (sink_there p s).
Qed.

(** A request that has not been dealt with is held by a goroutine of the workers' or
    of the drain group, or lies in the result channel, whose sink is of the latter. *)
Lemma unsettled_before p s : P = p ++ st_main s -> inv p s -> held_all (st_gos s) ++ st_results s <> [] -> OWait WDrain ∈ st_main s.
Proof using HP.
  intros E I H. assert (OCancel CDrain ∈ st_main s -> OWait WDrain ∈ st_main s) as Hd.
  { intros Hc. destruct (or_sinks _ _ HP (OGo WDrain CDrain RetrySink (Sinking false []))) as [Ho _]; [unfold sinks; set_solver|].
    assert (OWait WDrain ∈ P) as Hw.
    { pose proof Ho as Ho'. apply list_elem_of_split in Ho' as (l1 & l2 & El). pose proof (or_waited _ _ HP _ _ _ _ Ho _ _ El). rewrite El. set_solver. }
    destruct (or_ended _ _ HP WDrain Hw) as [_ Ha]. by apply (after_ahead P p _ _ _ E Ha). }
  destruct (decide (held_all (st_gos s) = [])) as [Hn|Hn].
  - rewrite Hn in H. destruct (i_results _ _ I H) as [[[[g c] st] Hv]|Hv].
    + destruct (i_home _ _ I _ _ _ _ Hv) as (Hh & _ & Hw & _). injection Hh as -> ->. done.
    + apply list_elem_of_omap in Hv as (o & Ho & Hg). destruct o as [|g c r st| | | | | | |]; try done. injection Hg as ->.
      assert (OGo g c ResultSink st ∈ P) as HoP by (rewrite E; set_solver).
      destruct (op_ok p _ _ E (or_intror Ho)) as (Hh & _). injection Hh as -> ->.
      apply (after_ahead P p _ _ _ E (or_waited _ _ HP _ _ _ _ HoP) Ho).
  - destruct (held_from _ Hn) as (r & g & c & st & Hv & Hne). destruct (i_home _ _ I _ _ _ _ Hv) as (Hh & Hs & Hw & _).
    destruct st as [b|d x|e b]; [done| |].
    + apply Hd. by destruct (worker_before_drain p s _ _ _ _ _ E I Hv) as (_ & _ & ?).
    + assert (g = WDrain) as -> by (destruct r; try done; by injection Hh as -> ->). done.
Qed.

Lemma renewed p s : renews = true -> P = p ++ st_main s -> inv p s -> held_all (st_gos s) ++ st_results s <> [] ->
  ~ cancelled CHeartbeat s /\ (is_Some (st_gos s !! Heartbeat) \/ Heartbeat ∈ omap go_name (st_main s)).
Proof using HP.
  intros Hr E I H. destruct (or_renews _ _ HP Hr) as [Ha [b Hb]].
  pose proof (after_ahead P p _ _ _ E Ha (unsettled_before p s E I H)) as Hc. split; [by eapply not_yet|].
  destruct (ahead_or_done p _ _ E Hb) as [Hp|Hl]; [left; by eapply (i_live _ _ I)|right; apply list_elem_of_omap; by eexists; split].
Qed.

(** While the process says it is ready, everything the flow starts is running. *)
Lemma ready_serves p s g c r st : P = p ++ st_main s -> inv p s -> st_ready s = true -> OGo g c r st ∈ P -> OCancel c ∈ P ->
  is_Some (st_gos s !! r) /\ ~ cancelled c s.
Proof using HP.
  intros E I Hr Ho Hc. destruct (i_ready _ _ I Hr) as [H1 H2].
  assert (OCancel c ∈ st_main s) as Hca by by apply (after_ahead P p _ _ _ E (or_serving _ _ HP c Hc)).
  split; [|by eapply not_yet]. destruct (ahead_or_done p _ _ E Ho) as [Hp|Hl]; [by apply (i_live _ _ I g c r st)|].
  exfalso. apply (done_not_ahead p (st_main s) _ E H1). apply (after_ahead P p _ _ _ E (or_started _ _ HP (OGo g c r st) ltac:(eauto) Ho) Hl).
Qed.
End invariant.

(** ** The three flows are driven well

    Their programs are alike: the contexts [pre], the consumers, and a rest [T] that
    depends neither on the workers nor on the queues. *)
Definition program (n queues : nat) (pre T : list op) : list op := OMake CRequest :: workers n ++ pre ++ consumers queues ++ T.

Definition numbered (o : op) : bool := match go_name o with Some (Inference _ | Consumer _) => true | _ => false end.

Record ordered_rest (renews : bool) (pre T : list op) : Prop := mkRest {
  t_nodup : NoDup (OMake CRequest :: pre ++ T);
  t_pre : Forall (fun o => exists c, o = OMake c /\ c <> CSignal) pre;
  t_names : NoDup (omap go_name T);
  t_ok : Forall (fun o => go_ok o /\ numbered o = false) T;
  t_waits : OWait WWorkers ∈ T /\ OWait WConsume ∈ T /\ OReady true ∈ T /\ OReady false ∈ T;
  t_sinks : Forall (fun o => o ∈ T /\ after T o (OWait WWorkers)) sinks;
  t_ready : after T (OReady true) (OReady false);
  t_started : Forall (fun o => is_Some (go_name o) -> after T o (OReady true)) T;
  t_serving : Forall (fun o => match o with OCancel c => after T (OReady false) o /\ OMake c ∈ pre | _ => True end) T;
  t_waited : Forall (fun o => match o with OGo g _ _ _ => OWait g ∈ T /\ after T o (OWait g) | _ => True end) T;
  t_ended : Forall (fun o => match o with OWait g => ender g ∈ T /\ after T (ender g) o | _ => True end) T;
  t_sinks_last : OCancel CDrain ∈ T /\ after T (OWait WWorkers) (OCancel CDrain);
  t_renews : renews = true ->
    OCancel CHeartbeat ∈ T /\ after T (OWait WDrain) (OCancel CHeartbeat) /\ exists b, OGo WHeartbeat CHeartbeat Heartbeat (Ticking b) ∈ T;
  t_closed : forall l1 l2, T = l1 ++ OClose :: l2 -> l2 = [];
}.

Lemma elem_of_workers o n : o ∈ workers n -> exists i, o = OGo WWorkers CSignal (Inference i) (Working false None).
Proof. unfold workers. intros (i & -> & _)%list_elem_of_fmap. eauto. Qed.

Lemma elem_of_consumers o n : o ∈ consumers n -> exists i, o = OGo WConsume CConsume (Consumer i) (Ticking false).
Proof. unfold consumers. intros (i & -> & _)%list_elem_of_fmap. eauto. Qed.

Lemma after_program n q pre T a b : b ∈ T -> after T a b -> after (program n q pre T) a b.
Proof. intros Hb Ha. unfold program. rewrite app_comm_cons, !app_assoc. by apply after_app. Qed.

Lemma split_in_rest (l T l1 l2 : list op) o : o ∉ l -> l ++ T = l1 ++ o :: l2 -> exists l1', T = l1' ++ o :: l2.
Proof.
  revert l1. induction l as [|x l IH]; intros l1 Ho E; [by exists l1|]. destruct l1 as [|y l1]; injection E as -> E; [set_solver|].
  apply (IH l1); [set_solver|done].
Qed.

Lemma elem_of_program n q pre T o : ordered_rest true pre T \/ ordered_rest false pre T -> o ∈ program n q pre T ->
  o ∈ T \/ (exists c, o = OMake c /\ c <> CSignal) \/ (exists i, o = OGo WWorkers CSignal (Inference i) (Working false None)) \/
  exists i, o = OGo WConsume CConsume (Consumer i) (Ticking false).
Proof.
  intros H Ho. assert (Hpre : Forall (fun o => exists c, o = OMake c /\ c <> CSignal) pre) by by destruct H as [H|H]; apply H.
  unfold program in Ho. rewrite elem_of_cons, !elem_of_app in Ho. destruct Ho as [->|[?|[?|[?|?]]]]; eauto.
  - right. right. left. by eapply elem_of_workers.
  - rewrite Forall_forall in Hpre. auto.
  - right. right. right. by eapply elem_of_consumers.
Qed.

Lemma NoDup_program n q pre T renews : ordered_rest renews pre T -> NoDup (program n q pre T).
Proof.
  intros H. pose proof (t_nodup _ _ _ H) as N. apply NoDup_cons in N as [N1 N]. apply NoDup_app in N as (N2 & N3 & N4).
  pose proof (t_pre _ _ _ H) as Hp. pose proof (t_ok _ _ _ H) as Ht. rewrite Forall_forall in Hp, Ht.
  unfold program. rewrite NoDup_cons, !NoDup_app, !elem_of_app. split_and!.
  - intros [Hx|[Hx|[Hx|Hx]]].
    + by apply elem_of_workers in Hx as [? ?].
    + set_solver.
    + by apply elem_of_consumers in Hx as [? ?].
    + set_solver.
  - apply NoDup_fmap_2; [|apply NoDup_seq]. by intros ?? [= ->].
  - intros o Ho. apply elem_of_workers in Ho as [i ->]. intros Hx. rewrite !elem_of_app in Hx. destruct Hx as [Hx|[Hx|Hx]].
    + by destruct (Hp _ Hx) as (? & ? & _).
    + by apply elem_of_consumers in Hx as [? ?].
    + by destruct (Ht _ Hx).
  - done.
  - intros o Ho Hx. rewrite elem_of_app in Hx. destruct (Hp o Ho) as (c & -> & _). destruct Hx as [Hx|Hx]; [by apply elem_of_consumers in Hx as [? ?]|by eapply N3].
  - apply NoDup_fmap_2; [|apply NoDup_seq]. by intros ?? [= ->].
  - intros o Ho Hx. apply elem_of_consumers in Ho as [i ->]. by destruct (Ht _ Hx).
  - done.
Qed.

Lemma names_workers n k :
  omap go_name (map (fun i => OGo WWorkers CSignal (Inference i) (Working false None)) (seq k n)) = Inference <$> seq k n.
Proof. revert k. induction n as [|n IH]; intros k; [done|]. cbn. f_equal. apply IH. Qed.

Lemma names_consumers n k :
  omap go_name (map (fun i => OGo WConsume CConsume (Consumer i) (Ticking false)) (seq k n)) = Consumer <$> seq k n.
Proof. revert k. induction n as [|n IH]; intros k; [done|]. cbn. f_equal. apply IH. Qed.

Lemma names_program n q pre T renews : ordered_rest renews pre T ->
  omap go_name (program n q pre T) = (Inference <$> seq 0 n) ++ (Consumer <$> seq 0 q) ++ omap go_name T.
Proof.
  intros H. assert (omap go_name pre = []) as Hp.
  { pose proof (t_pre _ _ _ H) as Hp. clear H. induction Hp as [|o l (c & -> & _) _ IH]; [done|]. exact IH. }
  unfold program. change (OMake CRequest :: ?l) with ([OMake CRequest] ++ l). rewrite !omap_app, Hp.
  unfold workers, consumers. by rewrite names_workers, names_consumers.
Qed.

Lemma program_orderly n q pre T renews : ordered_rest renews pre T -> orderly renews (program n q pre T).
Proof.
  intros H. pose proof (t_ok _ _ _ H) as Hok. pose proof (t_started _ _ _ H) as Hst. pose proof (t_serving _ _ _ H) as Hsv.
  pose proof (t_waited _ _ _ H) as Hwt. pose proof (t_ended _ _ _ H) as Hen. pose proof (t_sinks _ _ _ H) as Hsi.
  rewrite Forall_forall in Hok, Hst, Hsv, Hwt, Hen, Hsi. destruct (t_waits _ _ _ H) as (W1 & W2 & W3 & W4).
  assert (Hin : forall o, o ∈ T -> o ∈ program n q pre T) by (unfold program; set_solver).
  assert (Hof : forall o, o ∈ program n q pre T -> o ∈ T \/ (exists c, o = OMake c /\ c <> CSignal) \/
    (exists i, o = OGo WWorkers CSignal (Inference i) (Working false None)) \/ exists i, o = OGo WConsume CConsume (Consumer i) (Ticking false))
    by (intros o; apply elem_of_program; destruct renews; auto).
  assert (Haf : forall o b, b ∈ T -> (o ∈ T -> after T o b) -> after (program n q pre T) o b).
  { intros o b Hb Ha. apply after_program; [done|]. destruct (decide (o ∈ T)) as [|N]; [auto|]. intros l1 l2 ->. set_solver. }
  split.
  - by eapply NoDup_program.
  - rewrite (names_program _ _ _ _ _ H), !NoDup_app. split_and!.
    + apply NoDup_fmap_2; [|apply NoDup_seq]. by intros ?? [= ->].
    + intros r Hr. apply list_elem_of_fmap in Hr as (i & -> & _). rewrite elem_of_app. intros [Hx|Hx]; [by apply list_elem_of_fmap in Hx as (? & ? & _)|].
      apply list_elem_of_omap in Hx as (o & Ho & Hg). destruct (Hok o Ho) as [_ Hn]. unfold numbered in Hn. by rewrite Hg in Hn.
    + apply NoDup_fmap_2; [|apply NoDup_seq]. by intros ?? [= ->].
    + intros r Hr. apply list_elem_of_fmap in Hr as (i & -> & _). intros Hx.
      apply list_elem_of_omap in Hx as (o & Ho & Hg). destruct (Hok o Ho) as [_ Hn]. unfold numbered in Hn. by rewrite Hg in Hn.
    + apply (t_names _ _ _ H).
  - apply Forall_forall. intros o Ho. destruct (Hof o Ho) as [Ht|[(c & -> & Hc)|[[i ->]|[i ->]]]]; [by apply Hok|done..].
  - intros o Ho. destruct (Hsi o Ho) as [H1 H2]. auto.
  - apply Haf; [done|]. intros _. apply (t_ready _ _ _ H).
  - intros o Hg _. apply Haf; auto.
  - intros c Hc. destruct (Hof _ Hc) as [Ht|[(? & ? & _)|[[? ?]|[? ?]]]]; try done. destruct (Hsv _ Ht) as [Ha _]. auto.
  - intros g c r st Ho. destruct (Hof _ Ho) as [Ht|[(? & ? & _)|[[i Hi]|[i Hi]]]]; try done.
    + destruct (Hwt _ Ht) as [H1 H2]. auto.
    + injection Hi as -> -> -> ->. apply Haf; [done|]. intros Ht. by destruct (Hwt _ Ht).
    + injection Hi as -> -> -> ->. apply Haf; [done|]. intros Ht. by destruct (Hwt _ Ht).
  - intros g Ho. destruct (Hof _ Ho) as [Ht|[(? & ? & _)|[[? ?]|[? ?]]]]; try done. destruct (Hen _ Ht) as [H1 H2]. auto.
  - intros c Ho. destruct (Hof _ Ho) as [Ht|[(? & ? & _)|[[? ?]|[? ?]]]]; try done. destruct (Hsv _ Ht) as [_ Hm].
    split; [unfold program; set_solver|]. apply Haf; [done|]. intros Hx. exfalso.
    pose proof (t_nodup _ _ _ H) as N. apply NoDup_cons in N as [_ N]. apply NoDup_app in N as (_ & N & _). by apply (N _ Hm).
  - destruct (t_sinks_last _ _ _ H) as [H1 H2]. auto.
  - intros Hr. destruct (t_renews _ _ _ H Hr) as (H1 & H2 & b & H3). split; [auto|]. exists b. auto.
  - intros l1 l2 E. unfold program in E. rewrite app_comm_cons, !app_assoc in E.
    apply split_in_rest in E as [l1' E]; [by eapply (t_closed _ _ _ H)|].
    intros Hx. rewrite !elem_of_app, elem_of_cons in Hx. pose proof (t_pre _ _ _ H) as Hp. rewrite Forall_forall in Hp.
    destruct Hx as [[[?|Hx]|Hx]|Hx]; [done|by apply elem_of_workers in Hx as [? ?]|by destruct (Hp _ Hx) as (? & ? & _)|by apply elem_of_consumers in Hx as [? ?]].
Qed.

(** What the runner does after [Start] has begun the consumers. *)
Definition rest_of (started : list op) (f : Flow) : list op :=
  started ++ [OReady true; OAwait CSignal; OReady false] ++ fl_StopConsuming f ++ [OSelectDrained; OWait WWorkers] ++ fl_Shutdown f.

Lemma Run_program n q pre started f : fl_Start f = pre ++ consumers q ++ started -> Run n f = program n q pre (rest_of started f).
Proof. intros E. unfold Run, program, rest_of. rewrite E. by rewrite <- !app_assoc. Qed.

Ltac decided := by apply (bool_decide_unpack _).
Ltac solve_after := repeat (apply after_cons; [let E := fresh in intros E; first [discriminate E|decided]|]); apply after_nil.
Ltac each_op := unfold sinks; repeat apply Forall_cons_2; try apply Forall_nil_2; cbv beta iota.
Ltac solve_closed := let l1 := fresh in let l2 := fresh in intros l1 l2; repeat (destruct l1 as [|? l1]; [try discriminate; try (by intros [= <-])|]; try discriminate);
  let E := fresh in intros E; exfalso; by destruct l1.
Ltac solve_rest :=
  split; cbn [app rest_of fl_StopConsuming fl_Shutdown];
  [ decided
  | each_op; eexists; split; done
  | cbn; decided
  | each_op; cbn; split_and?; done
  | split_and!; decided
  | each_op; (split; [decided|solve_after])
  | solve_after
  | each_op; intros [? ?]; try done; solve_after
  | each_op; try done; (split; [solve_after|decided])
  | each_op; try done; (split; [decided|solve_after])
  | each_op; try done; (split; [decided|solve_after])
  | split; [decided|solve_after]
  | first [done|intros _; split; [decided|split; [solve_after|first [exists true; decided|exists false; decided]]]]
  | solve_closed ].

Ltac driven_by start stop shutdown :=
  let n := fresh in
  intros n; erewrite Run_program; [|unfold start; cbn [fl_Start]; reflexivity]; apply program_orderly; unfold stop, shutdown, sinks; solve_rest.

#[export] Instance sql_driven queues batch : Driven (sqlFlow queues batch) true.
Proof. unfold sqlFlow. driven_by sql_Start sql_StopConsuming sql_Shutdown. Qed.

#[export] Instance sortedset_driven queues : Driven (sortedsetFlow queues) true.
Proof. unfold sortedsetFlow. driven_by sortedset_Start sortedset_StopConsuming sortedset_Shutdown. Qed.

#[export] Instance redismq_driven queues : Driven (redismqFlow queues) false.
Proof. unfold redismqFlow. driven_by redismq_Start redismq_StopConsuming redismq_Shutdown. Qed.

(** ** Start, service and shutdown *)

(** The flows, and whether they renew leases. *)
Definition flows (queues batch : nat) : list (Flow * bool) :=
  [(sqlFlow queues batch, true); (sortedsetFlow queues, true); (redismqFlow queues, false)].

Lemma flows_driven queues batch f renews : (f, renews) ∈ flows queues batch -> Driven f renews.
Proof.
  unfold flows. rewrite !elem_of_cons, elem_of_nil.
  intros [[= -> ->]|[[= -> ->]|[[= -> ->]|[]]]]; [apply sql_driven|apply sortedset_driven|apply redismq_driven].
Qed.

(** What [Start] starts is cancelled by the time the runner is at its end. *)
Lemma started_cancelled n queues batch f renews g c r st : (f, renews) ∈ flows queues batch -> OGo g c r st ∈ fl_Start f ->
  OGo g c r st ∈ Run n f /\ OCancel c ∈ Run n f.
Proof.
  intros Hf Ho. split; [unfold Run; set_solver|].
  assert (c ∈ [CConsume; CDrain; CHeartbeat] /\ (c = CHeartbeat -> renews = true)) as [Hc Hh].
  { unfold flows in Hf. rewrite !elem_of_cons, elem_of_nil in Hf. destruct Hf as [[= -> ->]|[[= -> ->]|[[= -> ->]|[]]]]; cbn [fl_Start sqlFlow sortedsetFlow redismqFlow] in Ho;
      unfold sql_Start, sortedset_Start, redismq_Start, sinks in Ho; rewrite !elem_of_app, !elem_of_cons, elem_of_nil in Ho;
      destruct_or!; try done; try (apply elem_of_consumers in Ho as [? Ho]); try (injection Ho as -> -> -> ->); (split; [set_solver|done]). }
  unfold flows in Hf. rewrite !elem_of_cons, elem_of_nil in Hf. rewrite !elem_of_cons, elem_of_nil in Hc.
  unfold Run. rewrite elem_of_cons, !elem_of_app. 
  destruct Hf as [[= -> ->]|[[= -> ->]|[[= -> ->]|[]]]]; destruct Hc as [->|[->|[->|[]]]]; cbn; set_solver.
Qed.


(** A run of the SQL flow with a worker and a queue, up to a worker's taking a request. *)
Ltac go_on := eapply rtc_l; [first [eapply by_runner, s_make; reflexivity|eapply by_runner, s_go; reflexivity|eapply by_runner, s_ready; reflexivity]|].

Lemma w_serving : exists s, rtc (step (sqlFlow 1 1)) (init (Run 1 (sqlFlow 1 1))) s /\ st_taken s = [7] /\ st_ready s = true.
Proof.
  eexists. split.
  - repeat go_on.
    eapply rtc_l; [apply by_loop, (s_tick _ (Consumer 0)); reflexivity|].
    eapply rtc_l; [apply by_loop, (s_dispatch _ (Consumer 0) WConsume CConsume 7); reflexivity|].
    eapply rtc_l; [apply by_worker, (s_take _ _ (Inference 0) WWorkers CSignal false 7 [] []); reflexivity|]. apply rtc_refl.
  - by split.
Qed.

